(* ===== verification/_CoqProject ===== *)
-Q . S2P
Prelude.v
Word.v
Codec.v
Engine.v
Store.v
Encrypted.v
Facts.v
Records.v
Batch.v
Queue.v
Hold.v
Failed.v
Origin.v
Dead.v
Claim.v
Schema.v
Connection.v
Scripts.v
Instance.v
Publication.v
Secrets.v
Row.v
Columns.v
Page.v
Entries.v
Due.v
Parts.v
Commit.v
Waiting.v
Copies.v
Shipped.v
Follow.v
Link.v
Whole.v
Finding.v
Lending.v
Stream.v
Query.v
Wire.v
Storage.v
Delegated.v
Server.v
Listening.v
Client.v
Standings.v
Chain.v
Embedded.v
Search.v
Named.v
Keeper.v
Remote.v
