(* ===== verification/Prelude.v ===== *)
(** * xmip-core-persist: a verification development

    Xmip Storage keeps the Ledger of an Xmip node: the Messages received, the
    Journeys they make, what is held, failed and dead, the claims of those
    who work on them and the audit of it all. This library models the crate
    under src/.src/ and proves what makes it correct.

    ** The program, from the bottom up

    An engine ([Engine] of engine.rs) keeps bytes under bytes. The encrypted
    store ([EncryptedStore]) keeps records and an index on one, sealed. One
    writer ([Committer]) decides every write of a node's runtime database, a
    group of waiting writes at a time, each on a stage of a [Batch]; what each
    write does to the records is the business of the modules of storage/ -
    queue, hold, failed, dead, origin, claim, instance, publication. What is
    written goes to the store with its index entries ([Columns]) in one write.

    ** The files, and what each models

    - [Prelude]: the result type of the crate ([PersistError] of error.rs),
      lists and loops.
    - [Word]: integers at their width - [uint n] of n bytes ([u8] to [u128]),
      [i128] - their wrapping, saturating and clamped operations, big-endian
      bytes, and the order of bytes.
    - [Codec]: the forms records are written in. The codec crate is not in the
      repository: class [Codec] has its primitives, [CodecOk] what the records
      rely on (each primitive reads back what it wrote). [Plain] is one.
    - [Engine]: engine.rs's traits as classes [Engine] and [Reads] with their
      laws [EngineOk]; fixture.rs's [Memory]; the [beneath!] macro.
    - [Store]: the interface between the encrypted store and the rest: class
      [RecordStore] with its laws [RecordStoreOk], and [Ledger], the abstract
      store that is nothing but the two maps.
    - [Encrypted]: encrypted_store.rs, place.rs, viewed.rs. The secret crate
      is class [Secret] with laws [SecretOk]. Discharges [RecordStoreOk] over
      any [EngineOk] engine.
    - [Facts], [Records]: facts.rs, record.rs, stream.rs, audited.rs,
      audit_entry.rs, kept_audit.rs: every record with its form and its round
      trip (class [FormOk], whose hypothesis [fits] is that what is counted
      in 32 bits fits them).
    - [Batch]: commit/batch.rs. An operation is a [prog]; [run] runs it over a
      batch as the code does, [exec] over the map of records itself.
    - [Queue], [Hold], [Failed], [Dead], [Origin]: queue.rs and the queues
      built on it, and the counts of what keeps an origin open with what they
      leave of every queue ([queues_are]); [Page]: a
      page of a queue read through its index.
    - [Claim]: claim.rs, hand_on.rs. [Instance]: instance.rs.
      [Publication]: publication.rs, with the digest (codec::sha1) and how an
      identifier is displayed as parameters.
    - [Secrets]: secret.rs, secret/sealed.rs, over class [XSecrets] for the
      xcore types.
    - [Schema]: schema.rs, schema/tables.rs, searchable.rs, version.rs and the
      checks of upgrade.rs. [Row], [Columns]: row.rs, columns.rs,
      columns/ordered.rs; [Entries]: of which record, index and values each
      entry is, said of the tables alone ([indexed_by]). [Due]: due.rs;
      [Parts]: what its reads find and its settling keeps.
    - [Commit]: commit.rs: [decide_op] is [Writer::decide], [committed] is
      [Writer::committed].
    - [Waiting]: commit/waiting.rs, commit/syncer.rs, durable.rs as step
      relations of the threads.
    - [Copies], [Shipped]: standby/copies.rs and shipped.rs, what a primary
      keeps for its standbys and the frames; [Follow]: ship.rs, follow.rs and
      the node of standby.rs; [Link], [Whole]: the two ends of a shipping as
      step relations, in copies and in a whole copy; [Finding]: finding.rs;
      [Lending]: a primary's databases lent to operations, and its stop, as a
      step relation (served.rs, [StorageNode::stop], [shipping]'s end);
      [Delegated]: delegated.rs and the rest of served.rs, an [XmipStorage]
      that is, operation by operation, its own databases or the primary's.
    - [Stream]: the [ChunkReader] of stream.rs, over class [Sha256].
    - [Query]: query.rs. [Wire]: wire.rs, wire/answer.rs, wire/operation.rs.
    - [Storage]: the trait [XmipStorage] of storage.rs as a class, and its
      operations as a type.
    - [Server]: server.rs, server/admitted.rs, over class [Admission] for the
      authorize crate; [Client]: client.rs, client/operations.rs, over class
      [Network]: both are [XmipStorage]s' two ends. [Listening]: the server's
      accept, its connections while idle and its stop, as a step relation.
    - [Standings]: a Storage node's turns of settling what it is (finding.rs,
      the following of follow.rs) over that network and class [Between].
    - [Chain]: chain.rs. [Embedded]: embedded.rs and the files of embedded/,
      an [XmipStorage] over any [RecordStore]s. [Keeper]: what its keeper.rs
      keeps to.
    - [Search]: what a question of query.rs finds, said of the rows alone.
    - [Named]: secrets by name (embedded/secrets.rs), and [StoredSecrets].
    - [Remote]: a client and a server over a line that loses what it will.
    - [Connection]: database.rs, a database server's connection as text.
    - [Scripts]: schema/dialect.rs and the scripts of schema.rs and
      upgrade.rs, over class [Sql] for how the sql crate quotes,
      and what their statements are and do to a database, said apart
      ([statement_text], [applied]).

    ** How state is modelled

    The store is a state passed on. A failing operation leaves the state it
    found, as the traits say, so it answers none. Where a record is read and
    written through a [&mut Batch], the program is a [prog], and
    [run_spec] and [stage_spec] of [Batch] relate its run over the staged
    batch - with the reads the batch keeps and the store's failures - to
    [exec]; every component is proved over [exec]. The clock's now, the epoch
    and the random source are arguments or states.

    ** What the theorems show

    - the layers: [indexed_write_then_read], [moved_record_refused],
      [reopened_same_keys] of the encrypted store over any engine;
      [index_kept_with_records] of the columns and
      [search_finds_every_answer] of what is read of them,
      [rows_fit_their_tables] of their rows; [group_commits_in_order] and
      [audit_sequence_grows] of the writer;
    - the queues: [queue_stays_in_order], [placed_in_order], [asked_again],
      [held_in_line] (the refinement to a line of Messages), [waits_until_due],
      [part_reads_in_order], [settled_firsts_are_right],
      [failed_index_agrees], [entered_then_cleared], [replayed_once],
      [page_reads_in_order];
    - the claims: [claimed_by_one], [passed_claim_refused], [handed_on_once],
      [hand_on_whole]; the turns: [turn_over_its_turn], [one_turn_of_a_state];
      the Publication: [published_once], [publication_whole];
    - the threads: [decided_once_in_order], [every_write_answered],
      [told_durable_is_on_disk], [every_batch_told], over every interleaving;
    - the standby: [kept_in_order], [standby_holds_its_primarys_past],
      [whole_copy_converges], [wipe_ends], [cut_short_stays_marked],
      [one_promoted], [promoted_past_every_epoch],
      [promoted_reads_as_its_primary], [settles_in_later_epochs];
      [stopped_in_order_hands_on_everything], [stop_ends];
    - the audit: [kept_before_forgotten], [records_chained],
      [kept_body_reads_back], [read_as_the_whole_stream];
    - the network: [remote_performs_the_operation], that a client's Storage is
      its server's whatever is lost; [turn_asks_each_once];
      [served_and_reached]; [stop_ends_every_connection];
    - the schema: [brought_to_the_build], [schema_says_nothing_wrong],
      [upgrade_reaches_the_version], [schema_script_makes_the_build]; secrets:
      [secret_opens_for_its_name], [secrets_kept_by_name]; connections:
      [connection_reads_as_written], [configuration_is_right];
    - where the code does not do what it says: [asked_again_answered_durable],
      [turn_asked_again_answered_no], [made_newer_not_refused],
      [epoch_forgotten], [torn_when_copied], [writes_after_stepping_down],
      [busy_connection_holds_the_stop], [read_without_a_host],
      [index_older_than_its_column].

    ** Loops and bounds

    Loops over lists are structural. Those that are not are run by [run_for]
    with a binary count of steps, which [run_for_spec] shows enough by what
    each step decreases: [found] of version.rs, as many as a [u32] has values,
    the version it looks at going up by one; [wipe] of follow.rs, 2 to the 64,
    which [wipe_ends] shows more than an engine has pages of keys to remove;
    a [ChunkReader]'s [read], [READS], more than a [u32] numbers chunks. A
    body is cut into chunks ([pieces]) with its length as fuel, each chunk a
    byte or more. A primary is followed as long as it is there: [follow] says
    where a standby is after so many of its frames, and what is shown of a
    turn is shown whatever their number.
    Sums that wrap or saturate in the code do so here; a theorem that needs
    them not to says so (a queue's next place, the next audit number, a
    place's next below the last 64-bit number, a copy's number).

    ** What is not modelled

    Sockets, TLS and threads but for the machines of [Waiting], [Lending] and
    [Listening] and the steps of [Link] and [Whole]: how long anything takes,
    and what the wire does beneath a frame. What an upgrade's tables are known
    by in a test alone (the fingerprint of upgrade.rs) is not modelled.
    The embedded node's operations are one at a time: what interleaves in its
    writer is [Waiting]'s and [Commit]'s. A write that panics is a batch whose
    writes are answered an error; a sync thread that dies is not modelled.
    The processor time measured ([xcore::spent]) is left out. The test
    support (authority.rs) is not. *)

From stdpp Require Export base gmap sets list strings fin_maps sorting numbers option.
From Stdlib Require Export Init.Byte.
From stdpp Require Export base list_relations list.
From Stdlib Require Import Eqdep_dec.


(** ** Notations *)

Declare Scope persist_scope.
Delimit Scope persist_scope with persist.

(** Bytes as the program has them: [Vec<u8>] and [&[u8]]. *)
Abbreviation bytes := (list byte).

(** ** Errors (src/.src/error.rs) *)

(** The key home's error. The variant the program matches on is [Refused];
    every other is kept as the words it displays. *)
Inductive SecretError : Set :=
  | SecretRefused (reason : string)
  | SecretOther (what : string).

Inductive PersistError : Set :=
  | Refused (scope reason : string)
  | Key (error : SecretError)
  | EngineFailed (engine reason : string)
  | Record_ (reason : string)
  | Failed_ (reason : string)
  | Unreachable (reason : string)
  | Schema (reason : string)
  | Standby (reason : string).

#[export] Instance SecretError_eq_dec : EqDecision SecretError.
Proof. solve_decision. Defined.
#[export] Instance PersistError_eq_dec : EqDecision PersistError.
Proof. solve_decision. Defined.

(** ** [Result<_, PersistError>] and its [?] *)

Inductive result (A : Type) : Type :=
  | Ok (a : A)
  | Err (e : PersistError).
Arguments Ok {A} a.
Arguments Err {A} e.

#[export] Instance result_ret : MRet result := @Ok.
#[export] Instance result_bind : MBind result := λ A B f m,
  match m with Ok a => f a | Err e => Err e end.
#[export] Instance result_fmap : FMap result := λ A B f m,
  match m with Ok a => Ok (f a) | Err e => Err e end.

Definition is_ok {A} (m : result A) : bool :=
  match m with Ok _ => true | Err _ => false end.

(** [Option::is_some]. *)
Definition is_some {A} (o : option A) : bool :=
  match o with Some _ => true | None => false end.

(** [Option<Result<T, E>>::transpose]. *)
Definition transpose {A} (m : option (result A)) : result (option A) :=
  match m with
  | None => Ok None
  | Some (Ok a) => Ok (Some a)
  | Some (Err e) => Err e
  end.

(** [iter().map(f).collect::<Result<Vec<_>, _>>()]: the first error, or all. *)
Fixpoint collect {A B} (f : A → result B) (l : list A) : result (list B) :=
  match l with
  | [] => Ok []
  | a :: l => b ← f a; bs ← collect f l; Ok (b :: bs)
  end.

Lemma bind_Ok {A B} (f : A → result B) (m : result A) b : m ≫= f = Ok b ↔ ∃ a, m = Ok a ∧ f a = Ok b.
Proof. destruct m; cbn; split; [eauto|by intros (? & [= <-] & ?)|done|by intros (? & [=] & _)]. Qed.

Lemma bind_Err {A B} (f : A → result B) (m : result A) e :
  m ≫= f = Err e ↔ m = Err e ∨ ∃ a, m = Ok a ∧ f a = Err e.
Proof.
  destruct m; cbn; split; [eauto|by intros [[=]|(? & [= <-] & ?)]|by intros [= <-]; left|].
  by intros [[= <-]|(? & [=] & _)].
Qed.

Lemma fmap_Ok {A B} (g : A → B) (m : result A) b : g <$> m = Ok b ↔ ∃ a, m = Ok a ∧ g a = b.
Proof.
  destruct m; cbn; split; [intros [= <-]; eauto|by intros (? & [= <-] & <-)|done|].
  by intros (? & [=] & _).
Qed.

Lemma collect_Ok {A B} (f : A → result B) (l : list A) (bs : list B) :
  collect f l = Ok bs ↔ Forall2 (λ a b, f a = Ok b) l bs.
Proof.
  revert bs; induction l as [|a l IH]; intros bs; cbn [collect].
  { split; [intros [= <-]; constructor | by inversion 1]. }
  rewrite bind_Ok. setoid_rewrite bind_Ok. setoid_rewrite IH. split.
  - intros (b & Hb & bs' & Hbs & [= <-]). by constructor.
  - inversion 1; subst. eauto 6.
Qed.

Lemma collect_app {A B} (f : A → result B) (l k : list A) :
  collect f (l ++ k) = (bs ← collect f l; cs ← collect f k; Ok (bs ++ cs)).
Proof.
  induction l as [|a l IH]; cbn; [by destruct (collect f k)|].
  destruct (f a); cbn; [|done]. rewrite IH.
  destruct (collect f l); cbn; [|done]. by destruct (collect f k).
Qed.

Lemma transpose_Ok {A} (o : option (result A)) (r : option A) :
  transpose o = Ok r ↔
  (o = None ∧ r = None) ∨ ∃ a, o = Some (Ok a) ∧ r = Some a.
Proof.
  destruct o as [[a|e]|]; cbn; split.
  - intros [= <-]; eauto.
  - intros [[]|(? & [= <-] & ->)]; done.
  - done.
  - intros [[]|(? & [=] & _)]; done.
  - intros [= <-]; eauto.
  - intros [[_ ->]|(? & [=] & _)]; done.
Qed.

(** [inv_ok] takes every hypothesis that a computation of [?]s returned
    [Ok] apart, into what each of its steps returned. *)
Ltac inv_ok :=
  repeat match goal with
  | H : Ok _ = Ok _ |- _ => injection H as H; try subst
  | H : Err _ = Err _ |- _ => injection H as H; try subst
  | H : Ok _ = Err _ |- _ => discriminate H
  | H : Err _ = Ok _ |- _ => discriminate H
  | H : mret _ = Ok _ |- _ => unfold mret, result_ret in H
  | H : _ ≫= _ = Ok _ |- _ =>
      let a := fresh "a" in let Ha := fresh "Ha" in
      apply bind_Ok in H as (a & Ha & H)
  | H : _ <$> _ = Ok _ |- _ =>
      let a := fresh "a" in let Ha := fresh "Ha" in
      apply fmap_Ok in H as (a & Ha & H); try subst
  end.

(** Case analysis on the innermost match of the goal or a hypothesis. *)
Ltac case_step :=
  match goal with
  | H : context [match ?x with _ => _ end] |- _ =>
      lazymatch x with context [match _ with _ => _ end] => fail | _ => idtac end;
      destruct x eqn:?
  | |- context [match ?x with _ => _ end] =>
      lazymatch x with context [match _ with _ => _ end] => fail | _ => idtac end;
      destruct x eqn:?
  end.

Create HintDb persist.

(** ** Lists *)

Section lists.
Context {A : Type}.

(** What a Rust [for] loop over [l] does with a state. *)
Fixpoint for_each {S} (f : S → A → result S) (s : S) (l : list A) : result S :=
  match l with
  | [] => Ok s
  | a :: l => s' ← f s a; for_each f s' l
  end.

Lemma for_each_app {S} (f : S → A → result S) s l k :
  for_each f s (l ++ k) = (s' ← for_each f s l; for_each f s' k).
Proof. revert s; induction l as [|a l IH]; intros s; cbn; [done|]. by destruct (f s a); cbn. Qed.

Lemma for_each_inv {S} (P : S → Prop) (f : S → A → result S) l :
  (∀ s a s', a ∈ l → P s → f s a = Ok s' → P s') →
  ∀ s s', P s → for_each f s l = Ok s' → P s'.
Proof.
  induction l as [|a l IH]; intros Hf s s' Hs; cbn; intros H; inv_ok; [done|].
  eapply IH; [| |done]; [intros; eapply Hf; [by right|done..]|].
  eapply Hf; [by left|done..].
Qed.

Lemma app_inj_length (l1 l2 k1 k2 : list A) :
  length l1 = length l2 → l1 ++ k1 = l2 ++ k2 → l1 = l2 ∧ k1 = k2.
Proof. intros. by apply app_inj_1. Qed.

Lemma filter_all (P : A → Prop) `{∀ x, Decision (P x)} (l : list A) :
  (∀ x, x ∈ l → P x) → filter P l = l.
Proof.
  induction l as [|x l IH]; [done|]. intros Hl. rewrite filter_cons, decide_True.
  - f_equal. apply IH. intros. apply Hl. by right.
  - apply Hl. by left.
Qed.
Lemma filter_nothing (P : A → Prop) `{∀ x, Decision (P x)} (l : list A) :
  (∀ x, x ∈ l → ¬ P x) → filter P l = [].
Proof.
  intros Hl. destruct (filter P l) as [|x k] eqn:E; [done|]. exfalso.
  assert (x ∈ filter P l) as [Hx Hin]%list_elem_of_filter by (rewrite E; by left). by apply (Hl x).
Qed.
Lemma filter_iff_in (P Q : A → Prop) `{∀ x, Decision (P x)} `{∀ x, Decision (Q x)} (l : list A) :
  (∀ x, x ∈ l → (P x ↔ Q x)) → filter P l = filter Q l.
Proof.
  induction l as [|x l IH]; [done|]. intros Hl. rewrite !filter_cons.
  rewrite IH by (intros; apply Hl; by right). pose proof (Hl x ltac:(by left)).
  repeat case_decide; tauto.
Qed.
End lists.

(** ** Loops *)

(** A loop of at most [n] steps, each going on from a state ([inl]) or done
    ([inr]); it stops as soon as one is done. *)
Fixpoint run_for {S R} (n : positive) (step : S → result (S + R)) (s : S) : result (S + R) :=
  match n with
  | xH => step s
  | xO n =>
      r ← run_for n step s;
      match r with inl s => run_for n step s | inr r => Ok (inr r) end
  | xI n =>
      r ← step s;
      match r with
      | inl s =>
          r ← run_for n step s;
          match r with inl s => run_for n step s | inr r => Ok (inr r) end
      | inr r => Ok (inr r)
      end
  end.

Section run_for.
Context {S R : Type} (step : S → result (S + R)).

(** What a loop keeps and decreases: it is done within as many steps. *)
Lemma run_for_spec (P : S → Prop) (Q : R → Prop) (measure : S → nat) :
  (∀ s, P s → ∃ r, step s = Ok r ∧
     match r with inl s' => P s' ∧ measure s' < measure s | inr r => Q r end) →
  ∀ n s, P s → ∃ r, run_for n step s = Ok r ∧
    match r with
    | inl s' => P s' ∧ measure s' + Pos.to_nat n ≤ measure s
    | inr r => Q r
    end.
Proof.
  intros Hstep. assert (∀ n,
    (∀ s, P s → ∃ r, run_for n step s = Ok r ∧
       match r with inl s' => P s' ∧ measure s' + Pos.to_nat n ≤ measure s | inr r => Q r end) →
    ∀ s, P s → ∃ r, (r ← run_for n step s; match r with inl s => run_for n step s | inr r => Ok (inr r) end)
        = Ok r ∧
       match r with inl s' => P s' ∧ measure s' + 2 * Pos.to_nat n ≤ measure s | inr r => Q r end) as Htwo.
  { intros n IH s Hs. destruct (IH s Hs) as ([s1|r1] & -> & H1); cbn; [|by exists (inr r1)].
    destruct H1 as [Hs1 Hm1]. destruct (IH s1 Hs1) as ([s2|r2] & -> & H2); [|by exists (inr r2)].
    exists (inl s2). destruct H2. split; [done|]. split; [done|lia]. }
  induction n as [n IH|n IH|]; intros s Hs; cbn [run_for].
  - destruct (Hstep s Hs) as ([s1|r1] & -> & H1); cbn; [|by exists (inr r1)].
    destruct H1 as [Hs1 Hm1]. destruct (Htwo n IH s1 Hs1) as ([s2|r2] & -> & H2); [|by exists (inr r2)].
    exists (inl s2). destruct H2. split; [done|]. split; [done|lia].
  - destruct (Htwo n IH s Hs) as ([s2|r2] & -> & H2); [|by exists (inr r2)].
    exists (inl s2). destruct H2. split; [done|]. split; [done|lia].
  - destruct (Hstep s Hs) as ([s1|r1] & -> & H1); [|by exists (inr r1)].
    exists (inl s1). destruct H1. split; [done|]. split; [done|lia].
Qed.
End run_for.
