(* ===== verification/Word.v ===== *)
(** * Machine integers and their bytes

    The fixed-width integers the program keeps ([u32], [u64], [u128], [i128])
    with their wrap-around and saturation written out, [to_be_bytes] and
    [from_be_bytes], and the order of byte strings ([Vec<u8>]'s [Ord]), with
    the fact every ordered read rests on: big-endian bytes sort as numbers. *)

From S2P Require Import Prelude.
From Stdlib Require Import Eqdep_dec.

Local Open Scope N_scope.

(** ** Unsigned integers of [n] bytes *)

Definition bound (n : nat) : N := 256 ^ N.of_nat n.

Record uint (n : nat) : Set := UInt { uval : N; u_ok : (uval <? bound n) = true }.
Arguments UInt {n} uval u_ok.
Arguments uval {n} _.
Arguments u_ok {n} _.

Abbreviation u32 := (uint 4).
Abbreviation u64 := (uint 8).
Abbreviation u128 := (uint 16).

Lemma bound_pos n : 0 < bound n.
Proof. unfold bound. assert (256 ^ N.of_nat n ≠ 0) by (apply N.pow_nonzero; lia). lia. Qed.

Lemma bound_S n : bound (S n) = 256 * bound n.
Proof. unfold bound. rewrite Nat2N.inj_succ, N.pow_succ_r'. done. Qed.

Lemma uval_lt {n} (x : uint n) : uval x < bound n.
Proof. destruct x as [x H]. cbn. by apply N.ltb_lt. Qed.

Lemma uint_eq {n} (x y : uint n) : uval x = uval y → x = y.
Proof.
  destruct x as [x Hx], y as [y Hy]; cbn; intros <-. f_equal.
  apply UIP_dec, bool_dec.
Qed.

Lemma uint_eq_iff {n} (x y : uint n) : x = y ↔ uval x = uval y.
Proof. split; [by intros ->|apply uint_eq]. Qed.

#[export] Instance uint_eq_dec {n} : EqDecision (uint n).
Proof.
  intros x y. destruct (decide (uval x = uval y)) as [H|H].
  - left. by apply uint_eq.
  - right. by intros ->.
Defined.

(** [x as uN]: the value modulo the width. The range proof is computed, so
    two words evaluate to the same term when their values agree. *)
Definition checked {n} (x : N) : option (uint n) :=
  (if x <? bound n as b return (x <? bound n) = b → option (uint n)
   then λ e, Some (UInt x e) else λ _, None) eq_refl.

Definition zero {n} : uint n := UInt 0 (proj2 (N.ltb_lt _ _) (bound_pos n)).

Definition wrap {n} (x : N) : uint n := default zero (checked (x mod bound n)).

Lemma checked_Some {n} x (y : uint n) : checked x = Some y ↔ x = uval y.
Proof.
  unfold checked. generalize (@eq_refl bool (x <? bound n)).
  destruct (x <? bound n) at 2 3; intros e; split.
  - by intros [= <-].
  - intros ->. f_equal. by apply uint_eq.
  - done.
  - intros ->. pose proof (u_ok y) as H. congruence.
Qed.

Lemma checked_small {n} x : x < bound n → is_Some (@checked n x).
Proof.
  intros H. apply N.ltb_lt in H. exists (UInt x H). by apply checked_Some.
Qed.

Lemma checked_None {n} x : @checked n x = None ↔ bound n ≤ x.
Proof.
  split.
  - intros H. destruct (N.lt_ge_cases x (bound n)) as [Hlt|]; [|done].
    apply (checked_small (n:=n)) in Hlt as [y Hy]. congruence.
  - intros H. destruct (checked x) as [y|] eqn:E; [|done].
    apply checked_Some in E. pose proof (uval_lt y). lia.
Qed.

Lemma uval_wrap {n} x : uval (@wrap n x) = x mod bound n.
Proof.
  unfold wrap. pose proof (bound_pos n).
  destruct (checked (x mod bound n)) as [y|] eqn:E; cbn.
  - by apply checked_Some in E.
  - apply checked_None in E. pose proof (N.mod_lt x (bound n)). lia.
Qed.

Lemma uval_wrap_small {n} x : x < bound n → uval (@wrap n x) = x.
Proof. intros. rewrite uval_wrap. by apply N.mod_small. Qed.

Lemma wrap_uval {n} (x : uint n) : wrap (uval x) = x.
Proof. apply uint_eq, uval_wrap_small, uval_lt. Qed.

#[export] Instance uint_countable {n} : Countable (uint n) :=
  inj_countable' uval wrap wrap_uval.

#[export] Instance uint_inhabited {n} : Inhabited (uint n) := populate zero.

(** [MAX], [+] in release builds (wrapping), [saturating_add],
    [saturating_sub], [min], [max], [try_from(..).unwrap_or(MAX)]. *)
Definition umax {n} : uint n := wrap (bound n - 1).
Definition wadd {n} (x : uint n) (y : N) : uint n := wrap (uval x + y).
Definition clamp {n} (x : N) : uint n := default umax (checked x).
Definition sat_add {n} (x : uint n) (y : N) : uint n := clamp (uval x + y).
Definition sat_sub {n} (x : uint n) (y : N) : uint n := wrap (uval x - y).
Definition umaxof {n} (x y : uint n) : uint n := if uval x <? uval y then y else x.
Definition uminof {n} (x y : uint n) : uint n := if uval y <? uval x then y else x.

Lemma uval_umax {n} : uval (@umax n) = bound n - 1.
Proof. apply uval_wrap_small. pose proof (bound_pos n). lia. Qed.

Lemma uval_clamp {n} x : uval (@clamp n x) = N.min x (bound n - 1).
Proof.
  unfold clamp. destruct (checked x) as [y|] eqn:E; cbn.
  - apply checked_Some in E as ->. pose proof (uval_lt y). lia.
  - apply checked_None in E. rewrite uval_umax. lia.
Qed.

Lemma uval_sat_add {n} (x : uint n) y :
  uval (sat_add x y) = N.min (uval x + y) (bound n - 1).
Proof. apply uval_clamp. Qed.

Lemma uval_sat_sub {n} (x : uint n) y : uval (sat_sub x y) = uval x - y.
Proof. apply uval_wrap_small. pose proof (uval_lt x). lia. Qed.

Lemma uval_wadd {n} (x : uint n) y :
  uval x + y < bound n → uval (wadd x y) = uval x + y.
Proof. apply uval_wrap_small. Qed.

Lemma uval_umaxof {n} (x y : uint n) : uval (umaxof x y) = N.max (uval x) (uval y).
Proof. unfold umaxof. destruct (N.ltb_spec (uval x) (uval y)); lia. Qed.

Lemma uval_uminof {n} (x y : uint n) : uval (uminof x y) = N.min (uval x) (uval y).
Proof. unfold uminof. destruct (N.ltb_spec (uval y) (uval x)); lia. Qed.

(** Arithmetic on words: every word is in its range. *)
Ltac word_ranges :=
  repeat match goal with
  | x : uint ?n |- _ =>
      lazymatch goal with
      | _ : uval x < bound n |- _ => fail
      | _ => pose proof (uval_lt x)
      end
  end.
Ltac word_lia := word_ranges; unfold bound in *; cbn [N.of_nat] in *; lia.

(** ** Big-endian bytes *)

Definition byte_of (x : N) : byte := default x00 (Byte.of_N (x mod 256)).

Lemma byte_of_to_N b : byte_of (Byte.to_N b) = b.
Proof. by destruct b. Qed.

Lemma to_N_byte_of x : Byte.to_N (byte_of x) = x mod 256.
Proof.
  unfold byte_of. destruct (Byte.of_N (x mod 256)) as [b|] eqn:E; cbn.
  - by apply Byte.to_of_N in E.
  - apply Byte.of_N_None_iff in E. pose proof (N.mod_lt x 256). lia.
Qed.

Lemma to_N_lt b : Byte.to_N b < 256.
Proof. pose proof (Byte.to_N_bounded b). lia. Qed.

Lemma to_N_inj b c : Byte.to_N b = Byte.to_N c → b = c.
Proof. intros H. by rewrite <- (byte_of_to_N b), H, byte_of_to_N. Qed.

#[export] Instance byte_eq_dec' : EqDecision byte := Byte.byte_eq_dec.
#[export] Instance byte_countable : Countable byte :=
  inj_countable' Byte.to_N byte_of byte_of_to_N.

(** The [n] big-endian bytes of [x], most significant first. *)
Fixpoint to_be (n : nat) (x : N) : bytes :=
  match n with
  | O => []
  | S m => byte_of (x / bound m) :: to_be m (x mod bound m)
  end.

Fixpoint from_be (l : bytes) : N :=
  match l with
  | [] => 0
  | b :: l => Byte.to_N b * bound (length l) + from_be l
  end.

Lemma length_to_be n x : length (to_be n x) = n.
Proof. revert x; induction n; intros x; cbn; auto. Qed.

Lemma from_be_lt l : from_be l < bound (length l).
Proof.
  induction l as [|b l IH]; cbn [from_be length]; [done|].
  rewrite bound_S. pose proof (to_N_lt b). nia.
Qed.

Lemma from_to_be n x : from_be (to_be n x) = x mod bound n.
Proof.
  revert x; induction n as [|n IH]; intros x; cbn [to_be from_be].
  { unfold bound. cbn. by rewrite N.mod_1_r. }
  rewrite to_N_byte_of, length_to_be, IH, bound_S.
  pose proof (bound_pos n). rewrite N.Div0.mod_mod.
  rewrite (N.mul_comm 256), N.Div0.mod_mul_r. lia.
Qed.

Lemma to_from_be l : to_be (length l) (from_be l) = l.
Proof.
  induction l as [|b l IH]; cbn [to_be from_be length]; [done|].
  pose proof (from_be_lt l). pose proof (bound_pos (length l)).
  rewrite N.div_add_l, N.div_small, N.add_0_r, byte_of_to_N by lia.
  by rewrite N.add_comm, N.Div0.mod_add, N.mod_small, IH by lia.
Qed.

(** [x.to_be_bytes()] of a word, and [uN::from_be_bytes] of as many bytes. *)
Definition be {n} (x : uint n) : bytes := to_be n (uval x).
Definition of_be {n} (l : bytes) : uint n := wrap (from_be l).

Lemma length_be {n} (x : uint n) : length (be x) = n.
Proof. apply length_to_be. Qed.

Lemma of_be_be {n} (x : uint n) : of_be (be x) = x.
Proof.
  apply uint_eq. unfold of_be, be. rewrite uval_wrap, from_to_be.
  pose proof (bound_pos n). rewrite N.Div0.mod_mod. apply N.mod_small, uval_lt.
Qed.

Lemma be_of_be {n} (l : bytes) : length l = n → be (@of_be n l) = l.
Proof.
  intros <-. unfold be, of_be. rewrite uval_wrap_small by apply from_be_lt.
  apply to_from_be.
Qed.

Lemma be_inj {n} (x y : uint n) : be x = be y → x = y.
Proof. intros H. by rewrite <- (of_be_be x), H, of_be_be. Qed.

Lemma be_app_inj {n} (x y : uint n) (l k : bytes) :
  be x ++ l = be y ++ k → x = y ∧ l = k.
Proof.
  intros [H ->]%app_inj_length; [by apply be_inj in H|by rewrite !length_be].
Qed.

(** [<[u8; N]>::try_from(bytes)]: the bytes, where there are as many. *)
Definition array (n : nat) (l : bytes) : option bytes :=
  if decide (length l = n) then Some l else None.

Lemma array_Some n l k : array n l = Some k ↔ k = l ∧ length l = n.
Proof. unfold array. case_decide; split; [by intros [= <-]|by intros [-> _]|done|by intros []]. Qed.

(** ** The order of byte strings *)

(** [a <= b] on [Vec<u8>]: lexicographic, a prefix before what it starts. *)
Fixpoint ble (l k : bytes) : bool :=
  match l, k with
  | [], _ => true
  | _ :: _, [] => false
  | a :: l, b :: k =>
      if Byte.to_N a <? Byte.to_N b then true
      else if Byte.to_N b <? Byte.to_N a then false
      else ble l k
  end.

Definition bytes_le (l k : bytes) : Prop := ble l k = true.

#[export] Instance bytes_le_dec : RelDecision bytes_le.
Proof. intros l k. unfold bytes_le. apply _. Defined.

Lemma ble_app p l k : ble (p ++ l) (p ++ k) = ble l k.
Proof. induction p as [|a p IH]; cbn; [done|]. by rewrite N.ltb_irrefl. Qed.

Lemma ble_cons_iff a b l k :
  ble (a :: l) (b :: k) = true ↔
  Byte.to_N a < Byte.to_N b ∨ (a = b ∧ ble l k = true).
Proof.
  cbn. destruct (N.ltb_spec (Byte.to_N a) (Byte.to_N b)) as [|H1]; [tauto|].
  destruct (N.ltb_spec (Byte.to_N b) (Byte.to_N a)) as [H2|H2].
  - split; [done|]. intros [|[-> _]]; lia.
  - assert (a = b) as -> by (apply to_N_inj; lia).
    split; [auto|]. intros [|[_ ?]]; [lia|done].
Qed.

#[export] Instance bytes_le_refl : Reflexive bytes_le.
Proof. intros l. unfold bytes_le. induction l as [|a l IH]; cbn; [done|]. by rewrite N.ltb_irrefl. Qed.

#[export] Instance bytes_le_trans : Transitive bytes_le.
Proof.
  intros l. unfold bytes_le.
  induction l as [|a l IH]; intros [|b k] [|c m]; try done.
  rewrite !ble_cons_iff. intros [?|[-> ?]] [?|[-> ?]]; [left; lia|by left..|right].
  split; [done|]. by eapply IH.
Qed.

#[export] Instance bytes_le_preorder : PreOrder bytes_le.
Proof. split; apply _. Qed.

#[export] Instance bytes_le_total : Total bytes_le.
Proof.
  intros l. unfold bytes_le.
  induction l as [|a l IH]; intros [|b k]; try (by left); [by right|].
  rewrite !ble_cons_iff.
  destruct (N.lt_trichotomy (Byte.to_N a) (Byte.to_N b)) as [?|[->%to_N_inj|?]]; [tauto| |tauto].
  destruct (IH k); tauto.
Qed.

#[export] Instance bytes_le_antisymm : AntiSymm (=) bytes_le.
Proof.
  intros l. unfold bytes_le.
  induction l as [|a l IH]; intros [|b k]; try done.
  rewrite !ble_cons_iff. intros [?|[-> ?]] [?|[? ?]]; try lia; [subst; lia|].
  f_equal. by apply IH.
Qed.

(** Between two strings that open with [p], every string does. *)
Lemma ble_prefix_range p a b k :
  ble (p ++ a) k = true → ble k (p ++ b) = true → ∃ k', k = p ++ k'.
Proof.
  revert k; induction p as [|c p IH]; intros k; [by exists k|].
  destruct k as [|d k]; [done|]. cbn [app]. rewrite !ble_cons_iff.
  intros [?|[-> H1]] [?|[? H2]]; subst; try lia.
  destruct (IH k H1 H2) as [k' ->]. by exists k'.
Qed.

(** Big-endian bytes sort as the numbers they are, before what follows. *)
Lemma ble_to_be_app n x y l k :
  x < bound n → y < bound n →
  ble (to_be n x ++ l) (to_be n y ++ k) =
  if x <? y then true else if y <? x then false else ble l k.
Proof.
  revert x y; induction n as [|n IH]; intros x y Hx Hy.
  { unfold bound in *; cbn in *. replace x with 0 by lia. by replace y with 0 by lia. }
  rewrite bound_S in *. cbn [to_be app ble]. rewrite !to_N_byte_of.
  pose proof (bound_pos n).
  assert (∀ z, z < 256 * bound n → (z / bound n) mod 256 = z / bound n) as Hd.
  { intros z Hz. apply N.mod_small, N.Div0.div_lt_upper_bound. lia. }
  rewrite !Hd, IH by (first [done | apply N.mod_lt; lia]).
  set (m := bound n) in *. set (qx := x / m). set (qy := y / m).
  assert (x = m * qx + x mod m) as Ex by (apply N.div_mod; lia).
  assert (y = m * qy + y mod m) as Ey by (apply N.div_mod; lia).
  assert (x mod m < m) as Hrx by (apply N.mod_lt; lia).
  assert (y mod m < m) as Hry by (apply N.mod_lt; lia).
  revert Ex Ey Hrx Hry. generalize (x mod m) (y mod m). clearbody qx qy m.
  intros rx ry Ex Ey Hrx Hry.
  assert (∀ a b, a < b → m * a + m ≤ m * b) as Hm.
  { intros a b Hab. rewrite <- N.mul_succ_r. apply N.mul_le_mono_l. lia. }
  pose proof (Hm qx qy) as Hxy. pose proof (Hm qy qx) as Hyx. clear Hm.
  assert (qx < qy → x < y) by lia. assert (qy < qx → y < x) by lia.
  assert (qx = qy → (rx < ry ↔ x < y) ∧ (ry < rx ↔ y < x)).
  { intros Hq. rewrite Hq in Ex. lia. }
  repeat match goal with
  | |- context [?a <? ?b] => destruct (N.ltb_spec a b)
  end; try done; lia.
Qed.

Lemma ble_be_app {n} (x y : uint n) l k :
  ble (be x ++ l) (be y ++ k) =
  if uval x <? uval y then true else if uval y <? uval x then false else ble l k.
Proof. apply ble_to_be_app; apply uval_lt. Qed.

Lemma ble_be_app_iff {n} (x y : uint n) l k :
  ble (be x ++ l) (be y ++ k) = true ↔
  uval x < uval y ∨ (x = y ∧ ble l k = true).
Proof.
  rewrite ble_be_app. destruct (N.ltb_spec (uval x) (uval y)); [tauto|].
  destruct (N.ltb_spec (uval y) (uval x)) as [H2|H2].
  - split; [done|]. intros [|[-> _]]; lia.
  - assert (x = y) as -> by (apply uint_eq; lia).
    split; [auto|]. intros [|[_ ?]]; [lia|done].
Qed.

(** ** [i128]: the times *)

Local Open Scope Z_scope.

Definition i128_min : Z := - 2 ^ 127.
Definition i128_max : Z := 2 ^ 127 - 1.

Record i128 : Set := I128 { ival : Z; i_ok : ((i128_min <=? ival) && (ival <=? i128_max))%Z = true }.

Lemma ival_range (x : i128) : i128_min ≤ ival x ≤ i128_max.
Proof. destruct x as [x H]; cbn. apply andb_true_iff in H as [?%Z.leb_le ?%Z.leb_le]. done. Qed.

Lemma i128_eq (x y : i128) : ival x = ival y → x = y.
Proof.
  destruct x as [x Hx], y as [y Hy]; cbn; intros <-. f_equal. apply UIP_dec, bool_dec.
Qed.

#[export] Instance i128_eq_dec : EqDecision i128.
Proof.
  intros x y. destruct (decide (ival x = ival y)) as [H|H].
  - left. by apply i128_eq.
  - right. by intros ->.
Defined.

(** The nearest [i128]: what [saturating_add] answers. *)
Definition i128_clamp (x : Z) : i128 :=
  let y := Z.max i128_min (Z.min x i128_max) in
  (if ((i128_min <=? y) && (y <=? i128_max))%Z as b
      return ((i128_min <=? y) && (y <=? i128_max))%Z = b → i128
   then λ e, I128 y e else λ _, I128 0 eq_refl) eq_refl.

Lemma ival_clamp x : ival (i128_clamp x) = Z.max i128_min (Z.min x i128_max).
Proof.
  unfold i128_clamp. set (y := Z.max _ _).
  assert (((i128_min <=? y) && (y <=? i128_max))%Z = true) as H.
  { apply andb_true_iff. rewrite !Z.leb_le. subst y. unfold i128_min, i128_max. lia. }
  generalize (@eq_refl bool ((i128_min <=? y) && (y <=? i128_max))%Z).
  destruct ((i128_min <=? y) && (y <=? i128_max))%Z at 2 3; intros e; [done|congruence].
Qed.

Definition i128_sat_add (x : i128) (y : Z) : i128 := i128_clamp (ival x + y).

Lemma ival_sat_add x y :
  i128_min ≤ ival x + y ≤ i128_max → ival (i128_sat_add x y) = ival x + y.
Proof. intros. unfold i128_sat_add. rewrite ival_clamp. lia. Qed.

Lemma i128_clamp_id x : i128_clamp (ival x) = x.
Proof. apply i128_eq. rewrite ival_clamp. pose proof (ival_range x). lia. Qed.

#[export] Instance i128_inhabited : Inhabited i128 := populate (i128_clamp 0).

#[global] Arguments be {n} x : simpl never.
#[global] Arguments of_be {n} l : simpl never.
#[global] Arguments wrap {n} x : simpl never.
#[global] Arguments clamp {n} x : simpl never.
#[global] Arguments checked {n} x : simpl never.
#[global] Arguments wadd {n} x y : simpl never.
#[global] Arguments sat_sub {n} x y : simpl never.
#[global] Arguments sat_add {n} x y : simpl never.
#[global] Arguments i128_clamp x : simpl never.
#[global] Arguments i128_sat_add x y : simpl never.
#[global] Arguments bound n : simpl never.
