(* ===== verification/Codec.v ===== *)
(** * The codec the records are written in, as an interface

    Every record has one binary form ([codec::form::Form]), written over
    [codec::writer::ByteWriter] and read over [codec::cursor::Cursor] of the
    crate xmip-core-library-codec, which is not part of this repository. What
    the program uses of that crate is the class [Codec]; what it relies on,
    that a value written and read comes back with what follows it left to
    read, is the class [CodecOk]. A cursor is what it has left to read.

    Each record's [Form] instance is the repository's own [write] and [read],
    and [FormOk] is its round trip. [fits] says that every text, body and
    list of a record is one whose length a 32-bit count can hold.

    Module [Plain] is one codec that meets the interface, for the worked
    examples of the other files. *)

From S2P Require Import Prelude Word.

(** ** Results and readers *)

Record CodecError : Set := CodecErr { message : string }.

Inductive cres (A : Type) : Type :=
  | COk (a : A)
  | CErr (e : CodecError).
Arguments COk {A} a.
Arguments CErr {A} e.

#[export] Instance cres_ret : MRet cres := @COk.
#[export] Instance cres_bind : MBind cres := λ A B f m,
  match m with COk a => f a | CErr e => CErr e end.

(** [impl From<codec::CodecError> for PersistError]: the store's error. *)
Definition from_codec_error (error : CodecError) : PersistError :=
  Record_ (message error).

Definition into {A} (c : cres A) : result A :=
  match c with COk a => Ok a | CErr e => Err (from_codec_error e) end.

(** A read over a cursor: its value and what is left, or its refusal. *)
Definition rd (A : Type) : Type := bytes → cres (A * bytes).

#[export] Instance rd_ret : MRet rd := λ A a l, COk (a, l).
#[export] Instance rd_bind : MBind rd := λ A B f m l,
  match m l with COk (a, l') => f a l' | CErr e => CErr e end.
Definition rd_err {A} (e : CodecError) : rd A := λ _, CErr e.

Lemma rd_step {A B} (m : rd A) (f : A → rd B) l a l' :
  m l = COk (a, l') → (m ≫= f) l = f a l'.
Proof. unfold mbind, rd_bind. by intros ->. Qed.

(** [(0..n).map(|_| read).collect()]. *)
Fixpoint rd_times {A} (n : nat) (m : rd A) : rd (list A) :=
  match n with
  | O => mret []
  | S n => a ← m; l ← rd_times n m; mret (a :: l)
  end.

(** ** The interface *)

Class Codec := {
  w_byte : byte → bytes;                r_byte : rd byte;
  w_u32 : u32 → bytes;                  r_u32 : rd u32;
  w_u64 : u64 → bytes;                  r_u64 : rd u64;
  w_u128 : u128 → bytes;                r_u128 : rd u128;
  w_i128 : i128 → bytes;                r_i128 : rd i128;
  w_text : string → bytes;              r_text : rd string;
  w_counted : bytes → bytes;            r_counted : rd bytes;
  w_vec : ∀ {A : Type}, (A → bytes) → list A → bytes;
  r_vec : ∀ {A : Type}, rd A → rd (list A);
  r_take : nat → rd bytes;
  is_empty : bytes → bool;
  form_bytes : ∀ {A : Type}, (A → bytes) → A → bytes;
  form_from_bytes : ∀ {A : Type}, rd A → bytes → cres A;
}.

(** As many as a 32-bit count holds. *)
Definition counts {A} (l : list A) : Prop := (N.of_nat (length l) < bound 4)%N.
Definition counts_text (s : string) : Prop := (N.of_nat (String.length s) < bound 4)%N.

Class CodecOk (C : Codec) : Prop := {
  byte_spec b : w_byte b = [b];
  byte_rt b l : r_byte (w_byte b ++ l) = COk (b, l);
  u32_rt x l : r_u32 (w_u32 x ++ l) = COk (x, l);
  u64_rt x l : r_u64 (w_u64 x ++ l) = COk (x, l);
  u128_rt x l : r_u128 (w_u128 x ++ l) = COk (x, l);
  i128_rt x l : r_i128 (w_i128 x ++ l) = COk (x, l);
  text_rt s l : counts_text s → r_text (w_text s ++ l) = COk (s, l);
  counted_rt b l : counts b → r_counted (w_counted b ++ l) = COk (b, l);
  vec_rt {A} (w : A → bytes) (r : rd A) (xs : list A) l :
    counts xs → (∀ x k, x ∈ xs → r (w x ++ k) = COk (x, k)) →
    r_vec r (w_vec w xs ++ l) = COk (xs, l);
  take_rt b l : r_take (length b) (b ++ l) = COk (b, l);
  is_empty_spec l : is_empty l = bool_decide (l = []);
  bytes_spec {A} (w : A → bytes) x : form_bytes w x = w x;
  from_bytes_spec {A} (r : rd A) b x :
    r b = COk (x, []) → form_from_bytes r b = COk x;
}.

(** ** A record's form *)

Class Form {C : Codec} (A : Type) := { write : A → bytes; fread : rd A }.

(** What a record must fit to be read back: its counts. *)
Class Fits (A : Type) := fits : A → Prop.

Class FormOk {C : Codec} (A : Type) {FA : Form A} {TA : Fits A} : Prop :=
  form_rt x l : fits x → fread (write x ++ l) = COk (x, l).

Definition to_bytes {C : Codec} {A} {FA : Form A} (x : A) : bytes := form_bytes write x.
Definition from_bytes {C : Codec} {A} {FA : Form A} (b : bytes) : cres A := form_from_bytes fread b.

Lemma from_to_bytes {C : Codec} {CO : CodecOk C} {A} {FA : Form A} {TA : Fits A} {FO : FormOk A} (x : A) :
  fits x → from_bytes (to_bytes x) = COk x.
Proof.
  intros Hx. unfold from_bytes, to_bytes. apply from_bytes_spec.
  rewrite bytes_spec, <- (app_nil_r (write x)). by apply form_rt.
Qed.

(** [u8::from(bool)] and a read byte's [!= 0]. *)
Definition w_flag {C : Codec} (b : bool) : bytes := w_byte (if b then x01 else x00).
Definition nonzero (b : byte) : bool := match b with x00 => false | _ => true end.
Definition r_flag {C : Codec} : rd bool := b ← r_byte; mret (nonzero b).

Create HintDb codec.

(** [roundtrip] reads what was written, one field at a time: each step's
    read is one the [codec] hints know. *)
Ltac rt_step :=
  erewrite rd_step; [|solve [eauto with codec]].
Ltac roundtrip :=
  repeat rewrite <- app_assoc;
  repeat (cbv beta iota; cbn [is_some nonzero]; rt_step); cbn; try done.

#[export] Hint Resolve byte_rt u32_rt u64_rt u128_rt i128_rt text_rt counted_rt
  : codec.
#[export] Hint Extern 1 (fread _ = _) => apply form_rt : codec.

Section forms.
Context {C : Codec} {CO : CodecOk C}.

Lemma flag_rt b l : r_flag (w_flag b ++ l) = COk (b, l).
Proof. unfold r_flag, w_flag. roundtrip. by destruct b. Qed.

Lemma vec_form_rt {A} {FA : Form A} {TA : Fits A} {FO : FormOk A} (xs : list A) l :
  counts xs → Forall fits xs →
  r_vec fread (w_vec write xs ++ l) = COk (xs, l).
Proof.
  intros Hn Hf. apply vec_rt; [done|]. intros x k Hx.
  apply form_rt. rewrite Forall_forall in Hf. by apply Hf.
Qed.

Lemma times_rt {A} (w : A → bytes) (r : rd A) (xs : list A) l :
  (∀ x k, r (w x ++ k) = COk (x, k)) →
  rd_times (length xs) r (concat (w <$> xs) ++ l) = COk (xs, l).
Proof.
  intros Hr. revert l. induction xs as [|x xs IH]; intros l; [done|].
  change (concat (w <$> x :: xs)) with (w x ++ concat (w <$> xs)).
  cbn [length rd_times]. rewrite <- app_assoc.
  erewrite rd_step by apply Hr. by erewrite rd_step by apply IH.
Qed.

(** A list after its count in 32 bits, and it read back: [u32_be] of its
    length, or of the most there are, then each; [(0..count).map(read)]. *)
Definition w_list {A} (w : A → bytes) (xs : list A) : bytes :=
  w_u32 (clamp (N.of_nat (length xs))) ++ concat (w <$> xs).
Definition r_list {A} (r : rd A) : rd (list A) :=
  n ← r_u32; rd_times (N.to_nat (uval n)) r.

Lemma list_rt {A} (w : A → bytes) (r : rd A) (xs : list A) l :
  counts xs → Forall (λ x, ∀ k, r (w x ++ k) = COk (x, k)) xs →
  r_list r (w_list w xs ++ l) = COk (xs, l).
Proof.
  intros Hn Hr. unfold r_list, w_list. rewrite <- app_assoc.
  erewrite rd_step by apply u32_rt. rewrite uval_clamp. unfold counts in Hn.
  replace (N.to_nat _) with (length xs) by lia. clear Hn. revert l.
  induction Hr as [|x xs Hx _ IH]; intros l; [done|].
  change (concat (w <$> x :: xs)) with (w x ++ concat (w <$> xs)).
  cbn [length rd_times]. rewrite <- app_assoc.
  erewrite rd_step by apply Hx. by erewrite rd_step by apply IH.
Qed.
End forms.
#[export] Hint Resolve flag_rt times_rt : codec.
#[export] Hint Extern 1 (r_vec fread _ = _) => apply vec_form_rt : codec.

(** ** One codec that meets the interface

    Numbers big-endian, words and bytes after a 32-bit count: used by the
    worked examples alone, never by a component. *)

Module Plain.
Definition refuse {A} (what : string) : rd A := rd_err (CodecErr what).

Definition take (n : nat) : rd bytes := λ l,
  if decide (n ≤ length l) then COk (firstn n l, skipn n l)
  else CErr (CodecErr "cut short").

Definition byte1 : rd byte := λ l,
  match l with b :: l => COk (b, l) | [] => CErr (CodecErr "cut short") end.

Definition word n : rd (uint n) := b ← take n; mret (of_be b).

(** An [i128] as its two's complement. *)
Definition w_time (x : i128) : bytes := be (wrap (n:=16) (Z.to_N (ival x mod 2 ^ 128))).
Definition time : rd i128 :=
  x ← word 16;
  let z := Z.of_N (uval x) in
  mret (i128_clamp (if (z <? 2 ^ 127)%Z then z else z - 2 ^ 128)%Z).

Definition count {A} (l : list A) : bytes := be (clamp (n:=4) (N.of_nat (length l))).
Definition counted (b : bytes) : bytes := count b ++ b.
Definition r_counted : rd bytes := n ← word 4; take (N.to_nat (uval n)).

Definition vec {A} (w : A → bytes) (l : list A) : bytes := count l ++ concat (w <$> l).
Definition r_vec {A} (r : rd A) : rd (list A) := n ← word 4; rd_times (N.to_nat (uval n)) r.

Definition text (s : string) : bytes := counted (String.list_byte_of_string s).
Definition r_text : rd string := b ← r_counted; mret (String.string_of_list_byte b).

#[export] Instance codec : Codec := {
  w_byte b := [b];          r_byte := byte1;
  w_u32 := be;              r_u32 := word 4;
  w_u64 := be;              r_u64 := word 8;
  w_u128 := be;             r_u128 := word 16;
  w_i128 := w_time;         r_i128 := time;
  w_text := text;           r_text := r_text;
  w_counted := counted;     r_counted := r_counted;
  w_vec := @vec;            r_vec := @r_vec;
  r_take := take;
  is_empty l := bool_decide (l = []);
  form_bytes A w x := w x;
  form_from_bytes A r b :=
    match r b with
    | COk (x, []) => COk x
    | COk _ => CErr (CodecErr "bytes left over")
    | CErr e => CErr e
    end;
}.

Lemma take_app b l : take (length b) (b ++ l) = COk (b, l).
Proof.
  unfold take. rewrite decide_True by (rewrite length_app; lia).
  by rewrite take_app_length, drop_app_length.
Qed.

Lemma word_rt {n} (x : uint n) l : word n (be x ++ l) = COk (x, l).
Proof.
  pose proof (take_app (be x) l) as H. rewrite length_be in H.
  unfold word. erewrite rd_step by exact H.
  by rewrite of_be_be.
Qed.

Lemma count_rt {A} (xs : list A) l :
  counts xs → ∃ n, word 4 (count xs ++ l) = COk (n, l) ∧ N.to_nat (uval n) = length xs.
Proof.
  intros H. exists (clamp (N.of_nat (length xs))). split; [apply word_rt|].
  rewrite uval_clamp. unfold counts in H. lia.
Qed.

Lemma r_counted_rt b l : counts b → r_counted (counted b ++ l) = COk (b, l).
Proof.
  intros (n & Hn & E)%(count_rt b (b ++ l)). unfold r_counted, counted.
  rewrite <- app_assoc. erewrite rd_step by exact Hn. by rewrite E, take_app.
Qed.

Lemma length_list_byte s : length (String.list_byte_of_string s) = String.length s.
Proof. induction s as [|a s IH]; cbn; [done|]. f_equal. exact IH. Qed.

Lemma time_rt x l : time (w_time x ++ l) = COk (x, l).
Proof.
  unfold time, w_time. erewrite rd_step by apply word_rt.
  pose proof (ival_range x) as [H1 H2]. unfold i128_min, i128_max in *.
  assert (0 ≤ ival x mod 2 ^ 128 < 2 ^ 128)%Z by (apply Z.mod_pos_bound; lia).
  rewrite uval_wrap_small, Z2N.id by (unfold bound; cbn [N.of_nat]; lia).
  assert (Hz : (if (ival x mod 2 ^ 128 <? 2 ^ 127)%Z then ival x mod 2 ^ 128
           else ival x mod 2 ^ 128 - 2 ^ 128)%Z = ival x).
  { destruct (Z.ltb_spec (ival x mod 2 ^ 128) (2 ^ 127)) as [Hl|Hl];
      destruct (Z.le_gt_cases 0 (ival x)) as [H0|H0].
    - by rewrite Z.mod_small by lia.
    - rewrite <- (Z.mod_add _ 1), Z.mod_small in Hl by lia. lia.
    - rewrite Z.mod_small in Hl by lia. lia.
    - rewrite <- (Z.mod_add _ 1), Z.mod_small by lia. lia. }
  by rewrite Hz, i128_clamp_id.
Qed.

#[export] Instance codec_ok : CodecOk codec.
Proof.
  split.
  - done.
  - done.
  - intros. apply word_rt.
  - intros. apply word_rt.
  - intros. apply word_rt.
  - apply time_rt.
  - intros s l Hs. change (r_text (text s ++ l) = COk (s, l)). unfold r_text, text.
    erewrite rd_step.
    2: { apply r_counted_rt. unfold counts. by rewrite length_list_byte. }
    by rewrite String.string_of_list_byte_of_string.
  - intros. by apply r_counted_rt.
  - intros A w r xs l Hn Hr. change (r_vec r (vec w xs ++ l) = COk (xs, l)).
    unfold r_vec, vec. rewrite <- app_assoc.
    destruct (count_rt xs (concat (w <$> xs) ++ l) Hn) as (n & E & Hl).
    erewrite rd_step by exact E. rewrite Hl. clear E Hl Hn.
    induction xs as [|x xs IH]; [done|].
    change (concat (w <$> x :: xs)) with (w x ++ concat (w <$> xs)).
    cbn [length rd_times]. rewrite <- app_assoc.
    erewrite rd_step by (apply Hr; left). erewrite rd_step; [done|].
    apply IH. intros. apply Hr. by right.
  - intros. apply take_app.
  - done.
  - done.
  - intros A r b x H. cbn. by rewrite H.
Qed.
End Plain.
