(* ===== verification/Engine.v ===== *)
(** * What an engine is to persist: bytes under bytes (src/.src/engine.rs)

    [Engine] is the trait, an interface: a state and its operations, each
    answering the state it leaves. An operation that fails leaves the state
    it found, so it answers none. [EngineOk] is what every engine promises
    the layer above it ([Encrypted]): what it holds is a finite map, each
    operation does to it what its comment says, a batch is applied whole, and
    a range is read in the order of its keys' bytes.

    [Memory] is the engine in memory every engine technology is checked
    against (src/.src/fixture.rs), and the pointers to an engine are engines
    (the [beneath!] macro). *)

From S2P Require Import Prelude Word.

(** ** What is handed over *)

(** One change of a batch: a key and its new value, [None] removing it. *)
Abbreviation Change := (bytes * option bytes)%type.
(** One key and its value, as a range read finds them. *)
Abbreviation Entry := (bytes * bytes)%type.

(** ** The traits *)

Class Reads (V : Type) := {
  view_read : V → bytes → result (option bytes);
  view_scan : V → bytes → bytes → N → bool → result (list Entry);
}.

Class Engine (E : Type) := {
  engine : E → string;
  read : E → bytes → result (option bytes);
  write : E → bytes → bytes → result E;
  write_new : E → bytes → bytes → result (E * bool);
  remove : E → bytes → result E;
  apply : E → list Change → result E;
  apply_deferred : E → list Change → result E;
  sync : E → result E;
  scan : E → bytes → bytes → N → bool → result (list Entry);
  View : Type;
  view_reads :: Reads View;
  view : E → result View;
}.

(** ** What a map does: a batch, and a range in the order of its keys *)

(** A change made to what is held. *)
Definition change {V} (m : gmap bytes V) (c : bytes * option V) : gmap bytes V :=
  match c.2 with Some v => <[c.1 := v]> m | None => delete c.1 m end.

Definition changed {V} (m : gmap bytes V) (batch : list (bytes * option V)) : gmap bytes V :=
  foldl change m batch.

(** Up to [n] of a list. *)
Definition up_to {A} (n : N) (l : list A) : list A :=
  firstn (N.to_nat (N.min n (N.of_nat (length l)))) l.

Definition key_le {V} (x y : bytes * V) : Prop := bytes_le x.1 y.1.
#[export] Instance key_le_dec {V} : RelDecision (@key_le V).
Proof. intros x y. unfold key_le. apply _. Defined.
#[export] Instance key_le_total {V} : Total (@key_le V).
Proof. intros x y. unfold key_le. apply total, _. Qed.
#[export] Instance key_le_trans {V} : Transitive (@key_le V).
Proof. intros x y z. unfold key_le. by etrans. Qed.

(** What [BTreeMap::iter] goes through: every entry in its key's order. *)
Definition in_order {V} (m : gmap bytes V) : list (bytes * V) :=
  merge_sort key_le (map_to_list m).

Definition within (first last k : bytes) : bool := ble first k && ble k last.

(** [records.range(first..=last)]. *)
Definition range {V} (m : gmap bytes V) (first last : bytes) : list (bytes * V) :=
  filter (λ e, within first last e.1 = true) (in_order m).

(** [ranged] of src/.src/fixture/viewed.rs. *)
Definition ranged {V} (records : gmap bytes V) (first last : bytes) (most : N)
    (backwards : bool) : list (bytes * V) :=
  if ble first last then
    let range := range records first last in
    if backwards then up_to most (reverse range) else up_to most range
  else [].

(** ** The contract *)

Class EngineOk (E : Type) {H : Engine E} := {
  contents : E → gmap bytes bytes;
  read_spec e k o : read e k = Ok o → o = contents e !! k;
  write_spec e k v e' : write e k v = Ok e' → contents e' = <[k := v]> (contents e);
  write_new_spec e k v e' b : write_new e k v = Ok (e', b) →
    if b then contents e !! k = None ∧ contents e' = <[k := v]> (contents e)
    else is_Some (contents e !! k) ∧ contents e' = contents e;
  remove_spec e k e' : remove e k = Ok e' → contents e' = delete k (contents e);
  apply_spec e b e' : apply e b = Ok e' → contents e' = changed (contents e) b;
  apply_deferred_spec e b e' :
    apply_deferred e b = Ok e' → contents e' = changed (contents e) b;
  sync_spec e e' : sync e = Ok e' → contents e' = contents e;
  scan_spec e first last most rev l :
    scan e first last most rev = Ok l → l = ranged (contents e) first last most rev;
  view_read_spec e v k o :
    view e = Ok v → view_read v k = Ok o → o = contents e !! k;
  view_scan_spec e v first last most rev l :
    view e = Ok v → view_scan v first last most rev = Ok l →
    l = ranged (contents e) first last most rev;
}.

(** ** The engine in memory (src/.src/fixture.rs, src/.src/fixture/viewed.rs) *)

Module Memory.
Record Memory : Type := { records : gmap bytes bytes }.

(** The records held for the view: what [MemoryView] reads. *)
Record MemoryView : Type := { held : gmap bytes bytes }.

#[global] Instance memory_view_reads : Reads MemoryView := {
  view_read v key := Ok (held v !! key);
  view_scan v first last most reverse := Ok (ranged (held v) first last most reverse);
}.

Definition apply (e : Memory) (batch : list Change) : result Memory :=
  let fix go (records : gmap bytes bytes) (batch : list Change) :=
    match batch with
    | [] => records
    | (key, value) :: batch =>
        go match value with
           | Some value => <[key := value]> records
           | None => delete key records
           end batch
    end in
  Ok {| records := go (records e) batch |}.

#[global] Instance memory_engine : Engine Memory := {
  engine _ := "memory"%string;
  read e key := Ok (records e !! key);
  write e key value := Ok {| records := <[key := value]> (records e) |};
  write_new e key value :=
    match records e !! key with
    | Some _ => Ok (e, false)
    | None => Ok ({| records := <[key := value]> (records e) |}, true)
    end;
  remove e key := Ok {| records := delete key (records e) |};
  apply := apply;
  apply_deferred := apply;
  sync e := Ok e;
  scan e first last most reverse := Ok (ranged (records e) first last most reverse);
  View := MemoryView;
  view e := Ok {| held := records e |};
}.

(** [Memory::everything]: every key and value, end to end. *)
Definition everything (e : Memory) : bytes :=
  concat ((λ kv, kv.1 ++ kv.2) <$> in_order (records e)).

#[global, program] Instance memory_ok : EngineOk Memory := { contents := records }.
Next Obligation. by intros e k o [= <-]. Qed.
Next Obligation. by intros e k v e' [= <-]. Qed.
Next Obligation.
  intros e k v e' b. cbn. destruct (records e !! k) eqn:E; intros [= <- <-]; eauto.
Qed.
Next Obligation. by intros e k e' [= <-]. Qed.
Next Obligation.
  intros e b e' [= <-]. cbn. generalize (records e).
  induction b as [|[k [v|]] b IH]; intros m; cbn; auto.
Qed.
Next Obligation.
  intros e b e' [= <-]. cbn. generalize (records e).
  induction b as [|[k [v|]] b IH]; intros m; cbn; auto.
Qed.
Next Obligation. by intros e e' [= <-]. Qed.
Next Obligation. by intros e first last most rev l [= <-]. Qed.
Next Obligation. by intros e v k o [= <-] [= <-]. Qed.
Next Obligation. by intros e v first last most rev l [= <-] [= <-]. Qed.
End Memory.

(** ** An engine behind a pointer (the [beneath!] macro of engine.rs) *)

Module Pointer.
(** [Box<E>], [&E] and [Arc<E>]: each the engine beneath. *)
Record Pointer (E : Type) : Type := Beneath { beneath : E }.
Arguments Beneath {E} _.
Arguments beneath {E} _.

Section pointer.
Context {E : Type} `{Engine E}.

#[global] Instance pointer_engine : Engine (Pointer E) := {
  engine p := engine (beneath p);
  read p key := read (beneath p) key;
  write p key value := Beneath <$> write (beneath p) key value;
  write_new p key value :=
    '(e, new) ← write_new (beneath p) key value; Ok (Beneath e, new);
  remove p key := Beneath <$> remove (beneath p) key;
  apply p batch := Beneath <$> apply (beneath p) batch;
  apply_deferred p batch := Beneath <$> apply_deferred (beneath p) batch;
  sync p := Beneath <$> sync (beneath p);
  scan p := scan (beneath p);
  View := View (E := E);
  view_reads := view_reads (E := E);
  view p := view (beneath p);
}.

Context `{!EngineOk E}.

#[global, program] Instance pointer_ok : EngineOk (Pointer E) :=
  { contents p := contents (beneath p) }.
Next Obligation. intros e k o. apply (read_spec (beneath e)). Qed.
Next Obligation. intros e k v e' H1. cbn in H1. inv_ok. by apply write_spec. Qed.
Next Obligation.
  intros e k v e' b H1. cbn in H1. inv_ok. case_step. inv_ok.
  eapply write_new_spec. eassumption.
Qed.
Next Obligation. intros e k e' H1. cbn in H1. inv_ok. by apply remove_spec. Qed.
Next Obligation. intros e b e' H1. cbn in H1. inv_ok. by apply apply_spec. Qed.
Next Obligation. intros e b e' H1. cbn in H1. inv_ok. by apply apply_deferred_spec. Qed.
Next Obligation. intros e e' H1. cbn in H1. inv_ok. by apply sync_spec. Qed.
Next Obligation. intros e first last most rev l. apply (scan_spec (beneath e)). Qed.
Next Obligation. intros e v k o. apply (view_read_spec (beneath e)). Qed.
Next Obligation. intros e v first last most rev l. apply (view_scan_spec (beneath e)). Qed.
End pointer.
End Pointer.

(** ** What a range finds *)

Section ranges.
Context {V : Type}.
Implicit Types (m : gmap bytes V).

Lemma elem_of_in_order m k v : (k, v) ∈ in_order m ↔ m !! k = Some v.
Proof. unfold in_order. by rewrite merge_sort_Permutation, elem_of_map_to_list. Qed.

Lemma in_order_sorted m : StronglySorted key_le (in_order m).
Proof. apply StronglySorted_merge_sort; apply _. Qed.

Lemma in_order_NoDup m : NoDup (in_order m).*1.
Proof. unfold in_order. rewrite merge_sort_Permutation. apply NoDup_fst_map_to_list. Qed.

Lemma elem_of_range m first last k v :
  (k, v) ∈ range m first last ↔ within first last k = true ∧ m !! k = Some v.
Proof. unfold range. by rewrite list_elem_of_filter, elem_of_in_order. Qed.

Lemma within_spec first last k :
  within first last k = true ↔ bytes_le first k ∧ bytes_le k last.
Proof. unfold within. by rewrite andb_true_iff. Qed.

Lemma StronglySorted_filter {A} (R : relation A) (P : A → Prop) `{∀ x, Decision (P x)} l :
  StronglySorted R l → StronglySorted R (filter P l).
Proof.
  induction 1 as [|x l Hl IH Hx]; [constructor|]. rewrite filter_cons.
  case_decide; [|done]. constructor; [done|].
  rewrite Forall_forall in *. intros y [_ Hy]%list_elem_of_filter. auto.
Qed.

Lemma range_sorted m first last : StronglySorted bytes_le (range m first last).*1.
Proof.
  assert (StronglySorted key_le (range m first last)) as H.
  { apply StronglySorted_filter, in_order_sorted. }
  induction H as [|x l Hl IH Hx]; cbn; constructor; [done|].
  apply Forall_fmap. eapply Forall_impl; [exact Hx|]. done.
Qed.

Lemma NoDup_fst_filter {A B} (P : A * B → Prop) `{∀ x, Decision (P x)} (l : list (A * B)) :
  NoDup l.*1 → NoDup (filter P l).*1.
Proof.
  induction l as [|x l IH]; [done|]. rewrite fmap_cons. intros [Hx Hl]%NoDup_cons.
  rewrite filter_cons. case_decide; [|auto]. rewrite fmap_cons. constructor; [|auto].
  contradict Hx. apply list_elem_of_fmap in Hx as (y & -> & [_ Hy]%list_elem_of_filter).
  apply list_elem_of_fmap. eauto.
Qed.

Lemma range_NoDup m first last : NoDup (range m first last).*1.
Proof. apply NoDup_fst_filter, in_order_NoDup. Qed.

Lemma elem_of_range_fst m first last k :
  k ∈ (range m first last).*1 ↔ within first last k = true ∧ is_Some (m !! k).
Proof.
  rewrite list_elem_of_fmap. split.
  - intros ([k' v] & -> & [? ?]%elem_of_range). eauto.
  - intros (? & v & ?). exists (k, v). by rewrite elem_of_range.
Qed.

(** The keys a range finds are the only sorted list of them. *)
Lemma range_keys m first last (l : list bytes) :
  StronglySorted bytes_le l → NoDup l →
  (∀ k, k ∈ l ↔ within first last k = true ∧ is_Some (m !! k)) →
  (range m first last).*1 = l.
Proof.
  intros Hs Hn Hl. eapply StronglySorted_unique; [|apply range_sorted|done|].
  { apply bytes_le_antisymm. }
  apply NoDup_Permutation; [apply range_NoDup|done|].
  intros k. by rewrite elem_of_range_fst, Hl.
Qed.

(** What a range finds is the only list of it in the order of its keys. *)
Lemma range_is m first last (l : list (bytes * V)) :
  StronglySorted bytes_le l.*1 → NoDup l.*1 →
  (∀ k v, (k, v) ∈ l ↔ within first last k = true ∧ m !! k = Some v) →
  range m first last = l.
Proof.
  intros Hs Hn Hl.
  assert (∀ r : list (bytes * V), r.*1 = l.*1 → (∀ e, e ∈ r → m !! e.1 = Some e.2) →
    (∀ e, e ∈ l → m !! e.1 = Some e.2) → r = l) as Hsame.
  { clear. induction l as [|[k v] l IH]; intros [|[k' v'] r] E Hr Hl; try done.
    rewrite !fmap_cons in E. injection E as -> E. f_equal.
    - pose proof (Hr (k, v') ltac:(by left)) as E1. pose proof (Hl (k, v) ltac:(by left)) as E2.
      cbn in E1, E2. congruence.
    - apply IH; [done| |]; intros; [apply Hr|apply Hl]; by right. }
  apply Hsame.
  - apply range_keys; [done..|]. intros k. rewrite list_elem_of_fmap. split.
    + intros ([k' v] & -> & [? ?]%Hl). eauto.
    + intros (Hw & v & Hv). exists (k, v). split; [done|]. by apply Hl.
  - intros [k v] [_ ?]%elem_of_range. done.
  - intros [k v] [_ ?]%Hl. done.
Qed.

Lemma up_to_all {A} n (l : list A) : (N.of_nat (length l) ≤ n)%N → up_to n l = l.
Proof. intros. unfold up_to. apply take_ge. lia. Qed.

Lemma up_to_prefix {A} n (l : list A) : ∃ k, l = up_to n l ++ k.
Proof. unfold up_to. eexists. symmetry. apply take_drop. Qed.

Lemma up_to_fmap {A B} (f : A → B) n l : up_to n (f <$> l) = f <$> up_to n l.
Proof. unfold up_to. rewrite length_fmap. apply firstn_map. Qed.
Lemma head_up_to_one {A} (l : list A) : head (up_to 1 l) = head l.
Proof. destruct l as [|a l]; [done|]. unfold up_to. by replace (N.to_nat _) with 1%nat by (cbn [length]; lia). Qed.
Lemma up_to_take {A} n (l : list A) : up_to n l = firstn (N.to_nat n) l.
Proof.
  unfold up_to. destruct (N.le_gt_cases n (N.of_nat (length l))) as [Hle|Hlt].
  - by rewrite N.min_l.
  - rewrite N.min_r by lia. rewrite !take_ge by lia. done.
Qed.
Lemma up_to_app {A} n (l k : list A) :
  up_to n (l ++ k) = up_to n l ++ up_to (n - N.of_nat (length (up_to n l))) k.
Proof.
  rewrite !up_to_take, take_app. f_equal. rewrite length_take. f_equal. lia.
Qed.

Lemma length_up_to {A} n (l : list A) : length (up_to n l) = N.to_nat (N.min n (N.of_nat (length l))).
Proof. unfold up_to. rewrite length_take. lia. Qed.

Lemma up_to_Forall2 {A B} (P : A → B → Prop) n l k :
  Forall2 P l k → Forall2 P (up_to n l) (up_to n k).
Proof.
  intros H. pose proof (Forall2_length _ _ _ H) as E. unfold up_to. rewrite E.
  by apply Forall2_take.
Qed.

Lemma ranged_sub m first last most rev e :
  e ∈ ranged m first last most rev → e ∈ range m first last.
Proof.
  unfold ranged. destruct (ble first last); [|by intros ?%elem_of_nil].
  destruct rev.
  - destruct (up_to_prefix most (reverse (range m first last))) as [k E].
    intros He. apply elem_of_reverse. rewrite E. apply elem_of_app. by left.
  - destruct (up_to_prefix most (range m first last)) as [k E].
    intros. rewrite E. apply elem_of_app. by left.
Qed.
End ranges.

(** Two maps held the same under a prefix: what a range of the one finds is
    what the range of the other does, entry by entry. *)
Section prefixed.
Context {V W : Type} (p : bytes) (Q : bytes → V → W → Prop).
Variables (m : gmap bytes V) (n : gmap bytes W).
Hypothesis there : ∀ k v, m !! (p ++ k) = Some v → ∃ w, n !! k = Some w ∧ Q k v w.
Hypothesis back : ∀ k w, n !! k = Some w → ∃ v, m !! (p ++ k) = Some v ∧ Q k v w.

Lemma prefixed_keys first last :
  (range m (p ++ first) (p ++ last)).*1 = (app p) <$> (range n first last).*1.
Proof.
  apply range_keys.
  - pose proof (range_sorted n first last) as H. induction H as [|k l Hl IH Hk]; [constructor|].
    rewrite fmap_cons. constructor; [done|]. apply Forall_fmap. eapply Forall_impl; [exact Hk|].
    intros k' Hk'. unfold compose, bytes_le. by rewrite ble_app.
  - apply NoDup_fmap; [intros ? ? ?; by eapply app_inv_head|]. apply range_NoDup.
  - intros k. rewrite list_elem_of_fmap. setoid_rewrite elem_of_range_fst. split.
    + intros (k' & -> & Hw & w & Hn). destruct (back _ _ Hn) as (v & Hm & _).
      split; [|eauto]. unfold within in *. by rewrite !ble_app.
    + intros [Hw [v Hm]]. apply within_spec in Hw as [H1 H2].
      destruct (ble_prefix_range _ _ _ _ H1 H2) as [k' ->]. exists k'. split; [done|].
      destruct (there _ _ Hm) as (w & Hn & _). split; [|eauto].
      unfold bytes_le in *. rewrite !ble_app in *. unfold within. by rewrite H1, H2.
Qed.

Lemma prefixed_range first last :
  Forall2 (λ e f, e.1 = p ++ f.1 ∧ Q f.1 e.2 f.2)
    (range m (p ++ first) (p ++ last)) (range n first last).
Proof.
  apply Forall2_same_length_lookup_2.
  - pose proof (f_equal length (prefixed_keys first last)) as H.
    by rewrite !length_fmap in H.
  - intros i [k v] [k' w] Hi Hj.
    pose proof (f_equal (lookup i) (prefixed_keys first last)) as H.
    rewrite !list_lookup_fmap, Hi, Hj in H. cbn in H. injection H as ->.
    split; [done|]. cbn.
    apply list_elem_of_lookup_2, elem_of_range in Hi as [_ Hm].
    apply list_elem_of_lookup_2, elem_of_range in Hj as [_ Hn].
    destruct (there _ _ Hm) as (w' & Hn' & HQ). by simplify_eq.
Qed.

Lemma prefixed_ranged first last most backwards :
  Forall2 (λ e f, e.1 = p ++ f.1 ∧ Q f.1 e.2 f.2)
    (ranged m (p ++ first) (p ++ last) most backwards) (ranged n first last most backwards).
Proof.
  unfold ranged. rewrite ble_app. destruct (ble first last); [|constructor].
  pose proof (prefixed_range first last).
  destruct backwards; apply up_to_Forall2; [|done]. by apply Forall2_reverse.
Qed.
End prefixed.
