(* ===== verification/Store.v ===== *)
(** * What a record store promises the components above it

    [RecordStore] is the interface of src/.src/encrypted_store.rs as Xmip
    Storage uses it: records by kind and key, index entries by a key that
    sorts, both changed by one write. [RecordStoreOk] is its contract: the
    store stands for a finite map of records and a finite map of index
    entries ([rs_repr]); a read finds what the maps hold, a write makes its
    changes to both or fails, and a range of the index is read in its order.

    The components are proved against this interface. [Encrypted] discharges
    it over any engine, and [Ledger] here is the abstract store itself. *)

From S2P Require Import Prelude Word Engine.

(** One change of a batch at the layer: a record's kind, its key and its new
    value, [None] removing it. *)
Abbreviation RecordChange := (string * bytes * option bytes)%type.

(** One index entry: its key after the index mark, and the record it finds,
    [None] removing it. *)
Abbreviation IndexEntry := (bytes * option u128)%type.

(** What reads a range of an index: a store as it stands, or one view of it
    (src/.src/encrypted_store/viewed.rs). *)
Class IndexScan (V : Type) :=
  scan_index_keyed : V → bytes → bytes → N → bool → result (list (bytes * u128)).

Class RecordStore (S : Type) := {
  rs_get : S → string → bytes → result (option bytes);
  rs_scan :: IndexScan S;
  rs_view : Type;
  rs_viewed : S → result rs_view;
  rs_view_get : rs_view → string → bytes → result (option bytes);
  rs_view_scan :: IndexScan rs_view;
  rs_apply : S → list RecordChange → result S;
  rs_apply_deferred : S → list RecordChange → result S;
  rs_apply_indexed : S → list RecordChange → list IndexEntry → result S;
  rs_apply_indexed_deferred : S → list RecordChange → list IndexEntry → result S;
  rs_sync : S → result S;
}.

(** ** The abstract store *)

(** Every record, by its kind and its key. *)
Abbreviation records := (gmap (string * bytes) bytes).
(** Every index entry, by its key, and the record it finds. *)
Abbreviation entries := (gmap bytes u128).

Definition record_change (R : records) (c : RecordChange) : records :=
  let '(kind, key, value) := c in
  match value with
  | Some value => <[(kind, key) := value]> R
  | None => delete (kind, key) R
  end.

Definition recorded (R : records) (changes : list RecordChange) : records :=
  foldl record_change R changes.

(** A kind holds no zero byte, which ends it in its records' places. *)
Definition kind_ok (kind : string) : Prop := x00 ∉ String.list_byte_of_string kind.
#[export] Instance kind_ok_dec kind : Decision (kind_ok kind).
Proof. unfold kind_ok. apply _. Defined.

Definition kinds_ok (changes : list RecordChange) : Prop :=
  Forall (λ c : RecordChange, kind_ok c.1.1) changes.

#[export] Instance kinds_ok_dec changes : Decision (kinds_ok changes).
Proof. unfold kinds_ok. apply _. Defined.

(** ** The contract *)

Class RecordStoreOk (S : Type) {RS : RecordStore S} := {
  rs_repr : S → records → entries → Prop;
  rs_get_spec s R I kind key o : rs_repr s R I → kind_ok kind →
    rs_get s kind key = Ok o → o = R !! (kind, key);
  rs_scan_spec s R I first last most rev l : rs_repr s R I →
    scan_index_keyed s first last most rev = Ok l → l = ranged I first last most rev;
  rs_view_get_spec s R I v kind key o : rs_repr s R I → kind_ok kind →
    rs_viewed s = Ok v → rs_view_get v kind key = Ok o → o = R !! (kind, key);
  rs_view_scan_spec s R I v first last most rev l : rs_repr s R I →
    rs_viewed s = Ok v → scan_index_keyed v first last most rev = Ok l →
    l = ranged I first last most rev;
  rs_apply_spec s R I changes s' : rs_repr s R I → kinds_ok changes →
    rs_apply s changes = Ok s' → rs_repr s' (recorded R changes) I;
  rs_apply_deferred_spec s R I changes s' : rs_repr s R I → kinds_ok changes →
    rs_apply_deferred s changes = Ok s' → rs_repr s' (recorded R changes) I;
  rs_apply_indexed_spec s R I changes es s' : rs_repr s R I → kinds_ok changes →
    rs_apply_indexed s changes es = Ok s' →
    rs_repr s' (recorded R changes) (changed I es);
  rs_apply_indexed_deferred_spec s R I changes es s' : rs_repr s R I → kinds_ok changes →
    rs_apply_indexed_deferred s changes es = Ok s' →
    rs_repr s' (recorded R changes) (changed I es);
  rs_sync_spec s R I s' : rs_repr s R I → rs_sync s = Ok s' → rs_repr s' R I;
}.

(** ** The abstract store is one *)

Module Ledger.
Record Ledger : Type := { recs : records; idx : entries }.

#[global] Instance ledger_scan : IndexScan Ledger :=
  λ s first last most rev, Ok (ranged (idx s) first last most rev).

Definition write (s : Ledger) (changes : list RecordChange) (es : list IndexEntry) : Ledger :=
  {| recs := recorded (recs s) changes; idx := changed (idx s) es |}.

#[global] Instance ledger_store : RecordStore Ledger := {
  rs_get s kind key := Ok (recs s !! (kind, key));
  rs_view := Ledger;
  rs_viewed s := Ok s;
  rs_view_get s kind key := Ok (recs s !! (kind, key));
  rs_apply s changes := Ok (write s changes []);
  rs_apply_deferred s changes := Ok (write s changes []);
  rs_apply_indexed s changes es := Ok (write s changes es);
  rs_apply_indexed_deferred s changes es := Ok (write s changes es);
  rs_sync s := Ok s;
}.

#[global, program] Instance ledger_ok : RecordStoreOk Ledger :=
  { rs_repr s R I := recs s = R ∧ idx s = I }.
Next Obligation. by intros s R I kind key o [<- <-] _ [= <-]. Qed.
Next Obligation. by intros s R I first last most rev l [<- <-] [= <-]. Qed.
Next Obligation. by intros s R I v kind key o [<- <-] _ [= <-] [= <-]. Qed.
Next Obligation. by intros s R I v first last most rev l [<- <-] [= <-] [= <-]. Qed.
Next Obligation. by intros s R I changes s' [<- <-] _ [= <-]. Qed.
Next Obligation. by intros s R I changes s' [<- <-] _ [= <-]. Qed.
Next Obligation. by intros s R I changes es s' [<- <-] _ [= <-]. Qed.
Next Obligation. by intros s R I changes es s' [<- <-] _ [= <-]. Qed.
Next Obligation. by intros s R I s' [<- <-] [= <-]. Qed.
End Ledger.
