(* ===== verification/Encrypted.v ===== *)
(** * The one layer that encrypts what Xmip stores (src/.src/encrypted_store.rs)

    Every record sealed before the engine sees it, with its place as
    associated data, and kept under a keyed hash of that place; every index
    entry kept under its key in the clear after the index mark, its value
    sealed with the whole key as associated data.

    The key home and the sealing are the crate xmip-core-secret's, not part of
    this repository: [Secret] is what the program uses of it, and [SecretOk]
    what it relies on - what was sealed opens to what was sealed, only for the
    place it was sealed for; a wrapped key unwraps to itself; and, idealised,
    a keyed hash has no collision and none opens as the index mark or is the
    data key's own place. The operating system's random source, which draws
    each nonce, is threaded as the store's [random].

    The layer refines [Store.RecordStore]: over any engine that keeps its
    contract it is a record store that keeps its own. *)

From S2P Require Import Prelude Word Engine Store.

(** ** What is used of xmip-core-secret *)

(** [Result<_, SecretError>], and [?] into a [PersistError] ([Key]). *)
Definition sres (A : Type) : Type := A + SecretError.
Definition into_key {A} (m : sres A) : result A :=
  match m with inl a => Ok a | inr e => Err (Key e) end.

Class Secret := {
  DataKey : Type;
  KeyStore : Type;
  KekName : Type;
  Nonce : Type;
  generate : Nonce → DataKey;
  wrap_key : KeyStore → KekName → Nonce → DataKey → sres bytes;
  unwrap_key : KeyStore → KekName → bytes → sres DataKey;
  derive : DataKey → bytes → sres DataKey;
  keyed_hash : DataKey → bytes → bytes;
  seal_after : DataKey → Nonce → bytes → bytes → bytes → sres bytes;
  unseal : DataKey → bytes → bytes → sres bytes;
}.

(** The random source, as what it draws next. *)
Definition Random `{Secret} : Type := nat → Nonce.
Definition drawn `{Secret} (n : nat) (r : Random) : Random := λ i, r (n + i).

(** ** Constants (encrypted_store.rs) *)

Definition zero_text (s : string) : bytes := x00 :: String.list_byte_of_string s.
Definition DATA_KEY : bytes := zero_text "xmip-core-persist/key" ++ [x00].
Definition OWN : bytes := zero_text "xmip-core-persist/".
Definition RECORD_PURPOSE : bytes := String.list_byte_of_string "xmip-core-persist/record".
Definition LOOKUP_PURPOSE : bytes := String.list_byte_of_string "xmip-core-persist/lookup".
Definition INDEX : bytes := zero_text "index" ++ [x00].
Definition LAYOUT : byte := x01.
#[global] Arguments DATA_KEY : simpl never.
#[global] Arguments OWN : simpl never.
#[global] Arguments RECORD_PURPOSE : simpl never.
#[global] Arguments LOOKUP_PURPOSE : simpl never.
#[global] Arguments INDEX : simpl never.

(** ** A record's place (src/.src/encrypted_store/place.rs) *)

Module Place.
(** The most a place keeps on the stack. *)
Definition SHORT : nat := 64.

Inductive Place : Type :=
  | Short (bytes : list byte) (length : nat)
  | Long (bytes : list byte).

Definition deref (p : Place) : bytes :=
  match p with
  | Short bytes length => firstn length bytes
  | Long bytes => bytes
  end.

(** [bytes[at..at + src.len()].copy_from_slice(src)]. *)
Definition copy_at (at_ : nat) (src dst : bytes) : bytes :=
  firstn at_ dst ++ src ++ skipn (at_ + length src) dst.

Definition place (kind : string) (key : bytes) : Place :=
  let kind := String.list_byte_of_string kind in
  let len := length kind + 1 + length key in
  if decide (SHORT < len) then Long (kind ++ [x00] ++ key)
  else
    let bytes := replicate SHORT x00 in
    let bytes := copy_at 0 kind bytes in
    let bytes := copy_at (length kind + 1) key bytes in
    Short bytes len.

(** A place is its kind, a zero byte and its key, however long. *)
Lemma place_bytes kind key :
  deref (place kind key) = String.list_byte_of_string kind ++ x00 :: key.
Proof.
  unfold place, deref. set (k := String.list_byte_of_string kind).
  case_decide as Hl; [done|]. unfold copy_at, SHORT in *.
  change (firstn 0 (replicate 64 x00) ++ ?x) with x.
  rewrite Nat.add_0_l, drop_replicate.
  replace (64 - length k) with (S (63 - length k)) by lia. cbn [replicate].
  set (m := replicate _ _).
  replace (k ++ x00 :: m) with ((k ++ [x00]) ++ m) by by rewrite <- app_assoc.
  rewrite (take_app_length' (k ++ [x00])) by (rewrite length_app; done).
  rewrite app_assoc, take_app_length' by (rewrite !length_app; cbn; lia).
  by rewrite <- app_assoc.
Qed.

Lemma place_inj kind key kind' key' :
  kind_ok kind → kind_ok kind' →
  deref (place kind key) = deref (place kind' key') → kind = kind' ∧ key = key'.
Proof.
  unfold kind_ok. rewrite !place_bytes. intros H H' E.
  assert (String.list_byte_of_string kind = String.list_byte_of_string kind' ∧ key = key')
    as [Ek ->].
  { revert H H' E. generalize (String.list_byte_of_string kind) (String.list_byte_of_string kind').
    induction l as [|a l IH]; intros [|b l']; cbn; rewrite ?not_elem_of_cons.
    - by intros _ _ [= ->].
    - intros _ [? _] [=]. congruence.
    - intros [? _] _ [=]. congruence.
    - intros [_ H] [_ H'] [= -> E]. destruct (IH _ H H' E) as [-> ->]. done. }
  split; [|done].
  by rewrite <- (String.string_of_list_byte_of_string kind), Ek,
    String.string_of_list_byte_of_string.
Qed.
End Place.

Definition place (kind : string) (key : bytes) : bytes := Place.deref (Place.place kind key).

(** ** The store *)

Section store.
Context `{Secret} {E : Type} `{Engine E}.

(** [EncryptedStore]: an engine and the two keys derived from the store's
    data key, with what the random source draws next. *)
Record EncryptedStore : Type := Store {
  store_engine : E;
  record : DataKey;
  lookup : DataKey;
  random : Random;
}.

Definition with_engine (s : EncryptedStore) (e : E) (r : Random) : EncryptedStore :=
  Store e (record s) (lookup s) r.

(** [EncryptedStore::open]. *)
Definition open (e : E) (keys : KeyStore) (kek : KekName) (r : Random) : result EncryptedStore :=
  wrapped ← read e DATA_KEY;
  '(e, data) ← match wrapped with
    | Some wrapped => data ← into_key (unwrap_key keys kek wrapped); Ok (e, data)
    | None =>
        let fresh := generate (r 0) in
        wrapped ← into_key (wrap_key keys kek (r 1) fresh);
        '(e, written) ← write_new e DATA_KEY wrapped;
        if written : bool then Ok (e, fresh)
        else
          (* Another opener got there first; its key is the key. *)
          kept ← read e DATA_KEY;
          match kept with
          | None => Err (EngineFailed (engine e) "the data key vanished")
          | Some kept => data ← into_key (unwrap_key keys kek kept); Ok (e, data)
          end
    end;
  record ← into_key (derive data RECORD_PURPOSE);
  lookup ← into_key (derive data LOOKUP_PURPOSE);
  Ok (Store e record lookup (drawn 2 r)).

Definition derived (s : EncryptedStore) (purpose : bytes) : result DataKey :=
  into_key (derive (record s) purpose).

(** [EncryptedStore::seal]: the layout's byte, then what is sealed. *)
Definition seal (s : EncryptedStore) (n : Nonce) (place value : bytes) : result bytes :=
  into_key (seal_after (record s) n [LAYOUT] place value).

(** The key the engine holds a record under. *)
Definition lookup_key (s : EncryptedStore) (kind : string) (key : bytes) : bytes :=
  keyed_hash (lookup s) (place kind key).

Definition put (s : EncryptedStore) (kind : string) (key value : bytes) : result EncryptedStore :=
  sealed ← seal s (random s 0) (place kind key) value;
  e ← write (store_engine s) (keyed_hash (lookup s) (place kind key)) sealed;
  Ok (with_engine s e (drawn 1 (random s))).

Definition put_new (s : EncryptedStore) (kind : string) (key value : bytes)
    : result (EncryptedStore * bool) :=
  sealed ← seal s (random s 0) (place kind key) value;
  '(e, new) ← write_new (store_engine s) (keyed_hash (lookup s) (place kind key)) sealed;
  Ok (with_engine s e (drawn 1 (random s)), new).

(** [opened]: what [stored] seals for [place], authenticated; [what] names
    it in the scope of a refusal. *)
Definition opened (s : EncryptedStore) (place stored : bytes) (what : string) : result bytes :=
  let refused reason :=
    Err (Refused (engine (store_engine s) +:+ " " +:+ what) reason) in
  match stored with
  | layout :: sealed =>
      if Byte.eqb layout LAYOUT then
        match unseal (record s) place sealed with
        | inl value => Ok value
        | inr (SecretRefused reason) => refused reason
        | inr other => Err (Key other)
        end
      else refused "not a record this store wrote"%string
  | [] => refused "not a record this store wrote"%string
  end.

(** [get_in]: through what reads the engine, as it stands or in a view. *)
Definition get_in {V} `{Reads V} (s : EncryptedStore) (reads : V) (kind : string) (key : bytes)
    : result (option bytes) :=
  stored ← view_read reads (keyed_hash (lookup s) (place kind key));
  match stored with
  | None => Ok None
  | Some stored =>
      Some <$> opened s (place kind key) stored ("record of kind '" +:+ kind +:+ "'")
  end.

(** The engine as it stands: what a single read reads through
    (src/.src/encrypted_store/viewed.rs). *)
Record Now : Type := { now : E }.
#[export] Instance now_reads : Reads Now := {
  view_read n key := read (now n) key;
  view_scan n first last most reverse := scan (now n) first last most reverse;
}.

Definition get (s : EncryptedStore) (kind : string) (key : bytes) : result (option bytes) :=
  get_in s {| now := store_engine s |} kind key.

Definition remove (s : EncryptedStore) (kind : string) (key : bytes) : result EncryptedStore :=
  e ← Engine.remove (store_engine s) (keyed_hash (lookup s) (place kind key));
  Ok (with_engine s e (random s)).

(** [sealed]: each place a keyed hash, each value sealed. *)
Fixpoint sealed (s : EncryptedStore) (r : Random) (changes : list RecordChange)
    : result (list Change * Random) :=
  match changes with
  | [] => Ok ([], r)
  | (kind, key, value) :: changes =>
      let place := place kind key in
      sealed_value ← transpose ((λ value, seal s (r 0) place value) <$> value);
      '(rest, r') ← sealed s (drawn 1 r) changes;
      Ok ((keyed_hash (lookup s) place, sealed_value) :: rest, r')
  end.

(** The entries [indexed] adds: each under its key after the index mark. *)
Fixpoint sealed_entries (s : EncryptedStore) (r : Random) (es : list IndexEntry)
    : result (list Change * Random) :=
  match es with
  | [] => Ok ([], r)
  | (key, found) :: es =>
      let key := INDEX ++ key in
      sealed_value ← transpose ((λ found : u128, seal s (r 0) key (be found)) <$> found);
      '(rest, r') ← sealed_entries s (drawn 1 r) es;
      Ok ((key, sealed_value) :: rest, r')
  end.

Definition indexed (s : EncryptedStore) (changes : list RecordChange) (es : list IndexEntry)
    : result (list Change * Random) :=
  '(batch, r) ← sealed s (random s) changes;
  '(more, r) ← sealed_entries s r es;
  Ok (batch ++ more, r).

Definition apply (s : EncryptedStore) (changes : list RecordChange) : result EncryptedStore :=
  '(batch, r) ← sealed s (random s) changes;
  e ← Engine.apply (store_engine s) batch; Ok (with_engine s e r).

Definition apply_deferred (s : EncryptedStore) (changes : list RecordChange)
    : result EncryptedStore :=
  '(batch, r) ← sealed s (random s) changes;
  e ← Engine.apply_deferred (store_engine s) batch; Ok (with_engine s e r).

Definition apply_indexed (s : EncryptedStore) (changes : list RecordChange)
    (es : list IndexEntry) : result EncryptedStore :=
  '(batch, r) ← indexed s changes es;
  e ← Engine.apply (store_engine s) batch; Ok (with_engine s e r).

Definition apply_indexed_deferred (s : EncryptedStore) (changes : list RecordChange)
    (es : list IndexEntry) : result EncryptedStore :=
  '(batch, r) ← indexed s changes es;
  e ← Engine.apply_deferred (store_engine s) batch; Ok (with_engine s e r).

Definition sync (s : EncryptedStore) : result EncryptedStore :=
  e ← Engine.sync (store_engine s); Ok (with_engine s e (random s)).

(** One entry of a range, authenticated: its key after the index mark and
    the record it finds. *)
Definition index_entry (s : EncryptedStore) (entry : Entry) : result (bytes * u128) :=
  let '(key, stored) := entry in
  found ← opened s key stored "index entry";
  match array 16 found with
  | None => Err (Refused (engine (store_engine s) +:+ " index entry")
                   "not a record's identifier")
  | Some found => Ok (skipn (length INDEX) key, of_be found)
  end.

Definition scan_index_in {V} `{Reads V} (s : EncryptedStore) (reads : V)
    (first last : bytes) (most : N) (reverse : bool) : result (list (bytes * u128)) :=
  es ← view_scan reads (INDEX ++ first) (INDEX ++ last) most reverse;
  collect (index_entry s) es.

Definition scan_index_keyed (s : EncryptedStore) (first last : bytes) (most : N)
    (reverse : bool) : result (list (bytes * u128)) :=
  scan_index_in s {| now := store_engine s |} first last most reverse.

Definition scan_index (s : EncryptedStore) (first last : bytes) (most : N) (reverse : bool)
    : result (list u128) :=
  es ← scan_index_keyed s first last most reverse; Ok (es.*2).

(** A store and one consistent view of its engine (viewed.rs). *)
Record Viewed : Type := { viewed_store : EncryptedStore; viewed_reads : View (E := E) }.

Definition viewed (s : EncryptedStore) : result Viewed :=
  reads ← view (store_engine s); Ok {| viewed_store := s; viewed_reads := reads |}.

Definition viewed_get (v : Viewed) (kind : string) (key : bytes) : result (option bytes) :=
  get_in (viewed_store v) (viewed_reads v) kind key.

#[export] Instance store_index_scan : IndexScan EncryptedStore := scan_index_keyed.
#[export] Instance viewed_index_scan : IndexScan Viewed :=
  λ v first last most reverse,
    scan_index_in (viewed_store v) (viewed_reads v) first last most reverse.

#[export] Instance encrypted_record_store : RecordStore EncryptedStore := {
  rs_get := get;
  rs_view := Viewed;
  rs_viewed := viewed;
  rs_view_get := viewed_get;
  rs_apply := apply;
  rs_apply_deferred := apply_deferred;
  rs_apply_indexed := apply_indexed;
  rs_apply_indexed_deferred := apply_indexed_deferred;
  rs_sync := sync;
}.
End store.
Arguments EncryptedStore {_} E.
Arguments Viewed {_} E {_}.
Arguments Now E : clear implicits.

(** ** What is relied on of xmip-core-secret *)

Class SecretOk (S : Secret) : Prop := {
  open_seal k n pre place value c :
    seal_after k n pre place value = inl c →
    ∃ x, c = pre ++ x ∧ unseal k place x = inl value;
  unseal_bound k place place' x value value' :
    unseal k place x = inl value → unseal k place' x = inl value' → place = place';
  unwrap_wrap keys kek n k wrapped :
    wrap_key keys kek n k = inl wrapped → unwrap_key keys kek wrapped = inl k;
  hash_inj k p q : keyed_hash k p = keyed_hash k q → p = q;
  hash_apart k p x : keyed_hash k p ≠ INDEX ++ x;
  hash_data_key k p : keyed_hash k p ≠ DATA_KEY;
}.

(** ** What the engine holds stands for the records and the entries *)

Section represents.
Context `{SecretOk}.
Variables (rk lk : DataKey).

(** [stored] is [value] sealed for [place]. *)
Definition seals (place stored value : bytes) : Prop :=
  ∃ x, stored = LAYOUT :: x ∧ unseal rk place x = inl value.

Record represents (m : gmap bytes bytes) (R : records) (I : entries) : Prop := {
  rec_some kind key v : kind_ok kind → R !! (kind, key) = Some v →
    ∃ c, m !! keyed_hash lk (place kind key) = Some c ∧ seals (place kind key) c v;
  rec_none kind key : kind_ok kind → R !! (kind, key) = None →
    m !! keyed_hash lk (place kind key) = None;
  idx_some k id : I !! k = Some id →
    ∃ c, m !! (INDEX ++ k) = Some c ∧ seals (INDEX ++ k) c (be id);
  idx_back k c : m !! (INDEX ++ k) = Some c →
    ∃ id, I !! k = Some id ∧ seals (INDEX ++ k) c (be id);
}.

(** A record's change as the engine is handed it. *)
Definition change_sealed (c : RecordChange) (d : Change) : Prop :=
  d.1 = keyed_hash lk (place c.1.1 c.1.2) ∧
  match c.2, d.2 with
  | Some value, Some stored => seals (place c.1.1 c.1.2) stored value
  | None, None => True
  | _, _ => False
  end.

Definition entry_sealed (c : IndexEntry) (d : Change) : Prop :=
  d.1 = INDEX ++ c.1 ∧
  match c.2, d.2 with
  | Some id, Some stored => seals (INDEX ++ c.1) stored (be id)
  | None, None => True
  | _, _ => False
  end.

Lemma lookup_change {V} (m : gmap bytes V) c k :
  change m c !! k = if decide (c.1 = k) then c.2 else m !! k.
Proof.
  destruct c as [j [v|]]; unfold change; cbn.
  - by rewrite lookup_insert.
  - by rewrite lookup_delete.
Qed.

Lemma lookup_record_change R c kk :
  record_change R c !! kk = if decide (c.1 = kk) then c.2 else R !! kk.
Proof.
  destruct c as [[kind key] [v|]]; unfold record_change; cbn.
  - by rewrite lookup_insert.
  - by rewrite lookup_delete.
Qed.

Lemma place_hash_inj kind key kind' key' : kind_ok kind → kind_ok kind' →
  keyed_hash lk (place kind key) = keyed_hash lk (place kind' key') →
  kind = kind' ∧ key = key'.
Proof. intros Hk Hk' E%hash_inj. by eapply Place.place_inj. Qed.

Lemma represents_change m R I c d :
  represents m R I → kind_ok c.1.1 → change_sealed c d →
  represents (change m d) (record_change R c) I.
Proof.
  intros [H1 H2 H3 H4] Hc [E Hd]. destruct c as [[kind key] value]. cbn in Hc, E, Hd.
  assert (∀ k, d.1 ≠ INDEX ++ k) as Hx by (intros k; rewrite E; apply hash_apart).
  split.
  - intros kind' key' v Hk. rewrite lookup_record_change, lookup_change. cbn.
    case_decide as D; [simplify_eq|].
    + intros ->. rewrite decide_True by done. destruct d as [? [c|]]; cbn in *; eauto.
      done.
    + intros Hv. rewrite decide_False; [by apply H1|]. rewrite E. intros Hp.
      apply D. by destruct (place_hash_inj _ _ _ _ Hc Hk Hp) as [-> ->].
  - intros kind' key' Hk. rewrite lookup_record_change, lookup_change. cbn.
    case_decide as D; [simplify_eq|].
    + intros ->. rewrite decide_True by done. by destruct d as [? [c|]].
    + intros Hv. rewrite decide_False; [by apply H2|]. rewrite E. intros Hp.
      apply D. by destruct (place_hash_inj _ _ _ _ Hc Hk Hp) as [-> ->].
  - intros k id Hk. rewrite lookup_change, decide_False by done. by apply H3.
  - intros k c. rewrite lookup_change, decide_False by done. apply H4.
Qed.

Lemma index_ne k k' : k ≠ k' → INDEX ++ k ≠ INDEX ++ k'.
Proof. intros Hn E. by apply (app_inv_head INDEX) in E. Qed.

Lemma represents_entry m R I c d :
  represents m R I → entry_sealed c d → represents (change m d) R (change I c).
Proof.
  intros [H1 H2 H3 H4] [E Hd]. destruct c as [k0 found]. cbn in E, Hd.
  assert (∀ kind key, d.1 ≠ keyed_hash lk (place kind key)) as Hx.
  { intros kind key. rewrite E. intros Hp. symmetry in Hp. by apply hash_apart in Hp. }
  split.
  - intros. rewrite lookup_change, decide_False by done. by apply H1.
  - intros. rewrite lookup_change, decide_False by done. by apply H2.
  - intros k id. rewrite !lookup_change. cbn. rewrite E.
    destruct (decide (k0 = k)) as [->|Hn].
    + intros ->. rewrite decide_True by done. destruct d as [? [c|]]; cbn in *; eauto. done.
    + rewrite decide_False by by apply index_ne. apply H3.
  - intros k c. rewrite !lookup_change. cbn. rewrite E.
    destruct (decide (k0 = k)) as [->|Hn].
    + rewrite decide_True by done. intros Ed. rewrite Ed in Hd.
      destruct found as [id|]; [eauto|done].
    + rewrite decide_False by by apply index_ne. apply H4.
Qed.

Lemma represents_changes m R I cs ds :
  represents m R I → kinds_ok cs → Forall2 change_sealed cs ds →
  represents (changed m ds) (recorded R cs) I.
Proof.
  intros Hm Hk HF. revert m R Hm. induction HF as [|c d cs ds Hcd _ IH]; intros m R Hm; [done|].
  apply Forall_cons in Hk as [? ?]. apply IH; [done|]. by apply represents_change.
Qed.

Lemma represents_entries m R I cs ds :
  represents m R I → Forall2 entry_sealed cs ds → represents (changed m ds) R (changed I cs).
Proof.
  intros Hm HF. revert m I Hm. induction HF as [|c d cs ds Hcd _ IH]; intros m I Hm; [done|].
  apply IH. by apply represents_entry.
Qed.

Lemma changed_app {V} (m : gmap bytes V) a b : changed m (a ++ b) = changed (changed m a) b.
Proof. apply foldl_app. Qed.
End represents.

(** ** The layer is a record store *)

Section refinement.
Context `{SecretOk} {E : Type} `{EngineOk E}.
Implicit Types (s : EncryptedStore E) (R : records) (I : entries).

Definition store_repr s R I : Prop :=
  represents (record s) (lookup s) (contents (store_engine s)) R I.

Lemma seal_seals s n p v c : seal s n p v = Ok c → seals (record s) p c v.
Proof.
  unfold seal, into_key. destruct (seal_after _ _ _ _ _) as [c'|] eqn:Es; [|done].
  intros [= <-]. apply open_seal in Es as (x & -> & ?). by exists x.
Qed.

Lemma seal_option s n p v c :
  transpose ((λ v, seal s n p v) <$> v) = Ok c →
  match v, c with
  | Some v, Some c => seals (record s) p c v
  | None, None => True
  | _, _ => False
  end.
Proof.
  destruct v as [v|]; cbn; [|by intros [= <-]].
  destruct (seal s n p v) eqn:Es; [|done]. intros [= <-]. by eapply seal_seals.
Qed.

Lemma sealed_spec s changes r batch r' :
  sealed s r changes = Ok (batch, r') →
  Forall2 (change_sealed (record s) (lookup s)) changes batch.
Proof.
  revert r batch r'; induction changes as [|[[kind key] v] changes IH]; intros r batch r' Hs.
  { cbn in Hs. inv_ok. constructor. }
  cbn [sealed] in Hs. inv_ok. case_step. inv_ok. constructor; [|by eapply IH].
  split; [done|]. by eapply seal_option.
Qed.

Lemma sealed_entries_spec s es r batch r' :
  sealed_entries s r es = Ok (batch, r') → Forall2 (entry_sealed (record s)) es batch.
Proof.
  revert r batch r'; induction es as [|[k id] es IH]; intros r batch r' Hs.
  { cbn in Hs. inv_ok. constructor. }
  cbn [sealed_entries] in Hs. inv_ok. case_step. inv_ok. constructor; [|by eapply IH].
  split; [done|]. cbn [fst snd].
  pose proof (seal_option s (r 0) (INDEX ++ k) (be <$> id) a) as Hseal.
  destruct id; by apply Hseal.
Qed.

Lemma opened_seals s p c v what : seals (record s) p c v → opened s p c what = Ok v.
Proof. intros (x & -> & Hx). unfold opened. cbn. by rewrite Hx. Qed.

Lemma get_in_spec {V} `{Reads V} s R I (reads : V) kind key o :
  store_repr s R I → kind_ok kind →
  (∀ k o, view_read reads k = Ok o → o = contents (store_engine s) !! k) →
  get_in s reads kind key = Ok o → o = R !! (kind, key).
Proof.
  intros HR Hk Hv Hg. unfold get_in in Hg. inv_ok. apply Hv in Ha.
  destruct (R !! (kind, key)) as [v|] eqn:ER.
  - destruct (rec_some _ _ _ _ _ HR _ _ _ Hk ER) as (c & Hc & Hs).
    rewrite Hc in Ha. subst a. rewrite (opened_seals _ _ _ _ _ Hs) in Hg. by inv_ok.
  - rewrite (rec_none _ _ _ _ _ HR _ _ Hk ER) in Ha. subst a. by inv_ok.
Qed.

Lemma scan_index_in_spec {V} `{Reads V} s R I (reads : V) first last most rev l :
  store_repr s R I →
  (∀ f t l, view_scan reads f t most rev = Ok l →
    l = ranged (contents (store_engine s)) f t most rev) →
  scan_index_in s reads first last most rev = Ok l → l = ranged I first last most rev.
Proof.
  intros HR Hv Hg. unfold scan_index_in in Hg. inv_ok. apply Hv in Ha as ->.
  apply collect_Ok in Hg.
  pose proof (prefixed_ranged INDEX (λ k c id, seals (record s) (INDEX ++ k) c (be id))
    (contents (store_engine s)) I (idx_back _ _ _ _ _ HR) (idx_some _ _ _ _ _ HR)
    first last most rev) as HF.
  revert Hg HF. generalize (ranged (contents (store_engine s)) (INDEX ++ first) (INDEX ++ last) most rev)
    (ranged I first last most rev).
  intros es fs Hes. revert fs. induction Hes as [|[k c] [k' id'] es l Hx _ IH];
    intros fs HF; inversion HF as [|? [k2 id] ? fs' [Hk Hseal] HF']; subst; [done|].
  f_equal; [|by apply IH]. cbn [fst snd] in *. subst k.
  unfold index_entry in Hx. rewrite (opened_seals _ _ _ _ _ Hseal) in Hx. cbn in Hx.
  unfold array in Hx. rewrite decide_True in Hx by apply length_be. inv_ok.
  by rewrite of_be_be.
Qed.

Lemma repr_engine s e R I r :
  store_repr s R I → contents e = contents (store_engine s) →
  store_repr (with_engine s e r) R I.
Proof. unfold store_repr. cbn. by intros ? ->. Qed.

Lemma indexed_spec s R I changes es batch r :
  store_repr s R I → kinds_ok changes → indexed s changes es = Ok (batch, r) →
  represents (record s) (lookup s) (changed (contents (store_engine s)) batch)
    (recorded R changes) (changed I es).
Proof.
  intros HR Hk Hi. unfold indexed in Hi. inv_ok. repeat case_step. inv_ok. repeat case_step.
  inv_ok. rewrite changed_app.
  eapply represents_entries; [|by eapply sealed_entries_spec].
  eapply represents_changes; [done|done|by eapply sealed_spec].
Qed.
End refinement.

(** ** The contract discharged *)

Section contract.
Context `{SecretOk} {E : Type} `{EngineOk E}.

#[export, program] Instance encrypted_store_ok : RecordStoreOk (EncryptedStore E) :=
  { rs_repr := store_repr }.
Next Obligation.
  intros s R I kind key o HR Hk Hg. change (get s kind key = Ok o) in Hg. unfold get in Hg.
  eapply (get_in_spec s R I {| now := store_engine s |}); [done|done| |exact Hg].
  intros k o'. apply read_spec.
Qed.
Next Obligation.
  intros s R I first last most rev l HR Hg.
  change (Encrypted.scan_index_keyed s first last most rev = Ok l) in Hg.
  unfold Encrypted.scan_index_keyed in Hg.
  eapply (scan_index_in_spec s R I {| now := store_engine s |}); [done| |exact Hg].
  intros f t l'. apply scan_spec.
Qed.
Next Obligation.
  intros s R I v kind key o HR Hk Hv Hg. cbn in Hv. unfold viewed in Hv. inv_ok.
  change (get_in s a kind key = Ok o) in Hg.
  eapply get_in_spec; [done|done| |exact Hg]. intros k o'. by apply view_read_spec.
Qed.
Next Obligation.
  intros s R I v first last most rev l HR Hv Hg. cbn in Hv. unfold viewed in Hv. inv_ok.
  change (scan_index_in s a first last most rev = Ok l) in Hg.
  eapply scan_index_in_spec; [done| |exact Hg]. intros f t l'. by apply view_scan_spec.
Qed.
Next Obligation.
  intros s R I changes s' HR Hk Ha. cbn in Ha. unfold apply in Ha. inv_ok. case_step. inv_ok.
  unfold store_repr. cbn. erewrite apply_spec by done.
  eapply represents_changes; [done|done|by eapply sealed_spec].
Qed.
Next Obligation.
  intros s R I changes s' HR Hk Ha. cbn in Ha. unfold apply_deferred in Ha. inv_ok.
  case_step. inv_ok. unfold store_repr. cbn. erewrite apply_deferred_spec by done.
  eapply represents_changes; [done|done|by eapply sealed_spec].
Qed.
Next Obligation.
  intros s R I changes es s' HR Hk Ha. cbn in Ha. unfold apply_indexed in Ha. inv_ok.
  case_step. inv_ok. unfold store_repr. cbn. erewrite apply_spec by done.
  by eapply indexed_spec.
Qed.
Next Obligation.
  intros s R I changes es s' HR Hk Ha. cbn in Ha. unfold apply_indexed_deferred in Ha. inv_ok.
  case_step. inv_ok. unfold store_repr. cbn. erewrite apply_deferred_spec by done.
  by eapply indexed_spec.
Qed.
Next Obligation.
  intros s R I s' HR Ha. cbn in Ha. unfold sync in Ha. inv_ok.
  eapply repr_engine; [done|]. by apply sync_spec.
Qed.
End contract.

(** What opening a store settles: its data key is in its engine, wrapped, and
    where it was there before nothing was written. *)
Lemma open_spec `{SecretOk} {E : Type} `{EngineOk E} (e : E) keys kek r s :
  open e keys kek r = Ok s →
  ∃ wrapped data, contents (store_engine s) !! DATA_KEY = Some wrapped ∧
    unwrap_key keys kek wrapped = inl data ∧
    derive data RECORD_PURPOSE = inl (record s) ∧
    derive data LOOKUP_PURPOSE = inl (lookup s) ∧
    (is_Some (contents e !! DATA_KEY) → contents (store_engine s) = contents e) ∧
    (contents e !! DATA_KEY = None →
      contents (store_engine s) = <[DATA_KEY := wrapped]> (contents e)).
Proof.
  intros Ho. unfold open in Ho. inv_ok. case_step. inv_ok. unfold into_key in *.
  repeat (case_step; inv_ok); cbn;
    repeat match goal with
    | E : read _ _ = Ok _ |- _ => apply read_spec in E
    | E : write_new _ _ _ = Ok _ |- _ => apply write_new_spec in E
    end; destruct_and?; subst.
  1: { do 2 eexists. repeat split; [by symmetry|done..|]. congruence. }
  2: { exfalso. congruence. }
  eexists _, _. split; [|split; [by eapply unwrap_wrap|]].
  - match goal with E : contents _ = <[_ := _]> _ |- _ => rewrite E end.
    apply lookup_insert_eq.
  - repeat split; [done..| |done]. intros [? ?]. congruence.
Qed.

(** A store opened on an empty engine holds no record and no entry. *)
Lemma open_fresh `{SecretOk} {E : Type} `{EngineOk E} (e : E) keys kek r s :
  contents e = ∅ → open e keys kek r = Ok s → store_repr s ∅ ∅.
Proof.
  intros He (w & k & _ & _ & _ & _ & _ & Hc)%open_spec.
  rewrite He in Hc. specialize (Hc (lookup_empty _)). unfold store_repr. rewrite Hc. split.
  - intros kind key v _ Hv. by rewrite lookup_empty in Hv.
  - intros kind key _ _. rewrite lookup_insert_ne; [apply lookup_empty|].
    intros E'. symmetry in E'. by apply hash_data_key in E'.
  - intros k' id Hk'. by rewrite lookup_empty in Hk'.
  - intros k' c Hk'. rewrite lookup_insert_ne in Hk'; [by rewrite lookup_empty in Hk'|].
    by intros [=].
Qed.

(** ** One sealing that meets the interface, for the worked examples *)

Module Glass.
(** A place delimited, so that it is told from what follows it. *)
Fixpoint delimited (place : bytes) : bytes :=
  match place with [] => [x00] | b :: place => x01 :: b :: delimited place end.

Fixpoint strip (place x : bytes) : option bytes :=
  match place, x with
  | [], b :: x => if Byte.eqb b x00 then Some x else None
  | b :: place, m :: c :: x =>
      if Byte.eqb m x01 && Byte.eqb b c then strip place x else None
  | _, _ => None
  end.

#[export] Instance secret : Secret := {
  DataKey := bytes; KeyStore := unit; KekName := unit; Nonce := nat;
  generate n := be (wrap (n:=8) (N.of_nat n));
  wrap_key _ _ _ k := inl k;
  unwrap_key _ _ k := inl k;
  derive k purpose := inl (k ++ purpose);
  keyed_hash _ p := x01 :: p;
  seal_after _ _ pre place value := inl (pre ++ delimited place ++ value);
  unseal _ place x :=
    match strip place x with
    | Some value => inl value
    | None => inr (SecretRefused "the tag does not match")
    end;
}.

Lemma byte_eqb_true b c : Byte.eqb b c = true ↔ b = c.
Proof. split; [apply Byte.byte_dec_bl|apply Byte.byte_dec_lb]. Qed.

Lemma strip_delimited place value : strip place (delimited place ++ value) = Some value.
Proof.
  induction place as [|b place IH]; [done|]. cbn.
  by rewrite (proj2 (byte_eqb_true b b) eq_refl).
Qed.

Lemma strip_Some place x value : strip place x = Some value → x = delimited place ++ value.
Proof.
  revert x; induction place as [|b place IH]; intros x; cbn.
  - destruct x as [|c x]; [done|]. destruct (Byte.eqb c x00) eqn:E; [|done].
    apply byte_eqb_true in E as ->. by intros [= ->].
  - destruct x as [|m [|c x]]; [done|done|].
    destruct (Byte.eqb m x01 && Byte.eqb b c) eqn:E; [|done].
    apply andb_true_iff in E as [->%byte_eqb_true ->%byte_eqb_true].
    intros ->%IH. done.
Qed.

Lemma delimited_inj place place' v v' :
  delimited place ++ v = delimited place' ++ v' → place = place'.
Proof.
  revert place'; induction place as [|b place IH]; intros [|b' place']; cbn; [done|done|done|].
  intros [= -> E]. f_equal. by eapply IH.
Qed.

#[export] Instance secret_ok : SecretOk secret.
Proof.
  split; cbn.
  - intros k n pre place value c [= <-]. eexists. split; [done|]. by rewrite strip_delimited.
  - intros k place place' x value value'.
    destruct (strip place x) as [v|] eqn:E; [|done]. destruct (strip place' x) as [v'|] eqn:E'; [|done].
    intros _ _. apply strip_Some in E, E'. subst x. by eapply delimited_inj.
  - by intros ? ? ? ? ? [= ->].
  - by intros _ p q [= ->].
  - done.
  - done.
Qed.
End Glass.

(** ** What the layer promises *)

Module EncryptedTheorems.
Section theorems.
Context `{SecretOk} {E : Type} `{EngineOk E}.

(** C9. A write of records and index entries, and every read after it:
    where the store stood for the records [R] and the entries [I] and the
    write returned, each record reads as the batch left it, and each range
    of the index finds, in its order, exactly what the batch left there. *)
Theorem indexed_write_then_read (s s' : EncryptedStore E) R I changes es :
  store_repr s R I → kinds_ok changes →
  apply_indexed s changes es = Ok s' →
  (∀ kind key o, kind_ok kind → get s' kind key = Ok o →
    o = recorded R changes !! (kind, key)) ∧
  (∀ first last most reverse l, Encrypted.scan_index_keyed s' first last most reverse = Ok l →
    l = ranged (changed I es) first last most reverse).
Proof.
  intros HR Hk Ha.
  assert (store_repr s' (recorded R changes) (changed I es)) as HR'
    by exact (rs_apply_indexed_spec s R I changes es s' HR Hk Ha).
  split.
  - intros kind key o. exact (rs_get_spec s' _ _ kind key o HR').
  - intros first last most reverse l. exact (rs_scan_spec s' _ _ first last most reverse l HR').
Qed.

(** C35. A record's bytes moved under another record's key are refused,
    never given back: what is sealed for one place opens for no other. *)
Theorem moved_record_refused (s : EncryptedStore E) kind key kind' key' stored value :
  kind_ok kind → kind_ok kind' → (kind, key) ≠ (kind', key') →
  seals (record s) (place kind key) stored value →
  contents (store_engine s) !! lookup_key s kind' key' = Some stored →
  ∀ o, get s kind' key' ≠ Ok o.
Proof.
  intros Hk Hk' Hne (x & -> & Hx) Hc o Hg. unfold get, get_in in Hg. inv_ok.
  apply (read_spec (store_engine s)) in Ha. unfold lookup_key in Hc. rewrite Hc in Ha.
  subst a. cbn in Hg. inv_ok. unfold opened in Ha. cbn in Ha.
  destruct (unseal (record s) (place kind' key') x) as [v|[]] eqn:Ex; inv_ok.
  destruct (Place.place_inj kind key kind' key') as [-> ->]; [done|done| |done].
  by eapply unseal_bound.
Qed.

(** A store opened again, over the engine it was opened on or left by
    it, has the keys it had, whatever the random source draws, and the
    opening writes nothing. *)
Theorem reopened_same_keys (e : E) keys kek r r' (s s' : EncryptedStore E) :
  open e keys kek r = Ok s → open (store_engine s) keys kek r' = Ok s' →
  record s' = record s ∧ lookup s' = lookup s ∧
  contents (store_engine s') = contents (store_engine s).
Proof.
  intros (w & k & Hw & Hu & Hr & Hl & _ & _)%open_spec
    (w' & k' & Hw' & Hu' & Hr' & Hl' & Hc & _)%open_spec.
  assert (contents (store_engine s') = contents (store_engine s)) as E' by eauto.
  rewrite E' in Hw'. simplify_eq. rewrite Hu in Hu'. simplify_eq.
  rewrite Hr in Hr'. rewrite Hl in Hl'. by simplify_eq.
Qed.
End theorems.

(** Worked examples: the engine in memory, under [Glass]. *)
Import Glass.
Definition no_store : EncryptedStore Memory.Memory :=
  @Store Glass.secret _ {| Memory.records := ∅ |} [] [] (λ n, n).
Definition or_none (r : result (EncryptedStore Memory.Memory)) : EncryptedStore Memory.Memory :=
  match r with Ok s => s | Err _ => no_store end.
Lemma or_none_ok r : is_ok r = true → r = Ok (or_none r).
Proof. by destruct r. Qed.
Definition fresh : EncryptedStore Memory.Memory :=
  or_none (@open Glass.secret Memory.Memory _ {| Memory.records := ∅ |} tt tt (λ n, n)).
Definition kept_changes : list RecordChange :=
  [("journey"%string, [x01; x02], Some [x07]); ("lease"%string, [x01], None)].
Definition kept_entries : list IndexEntry := [([x14; x00], Some (wrap 7))].
Definition kept : EncryptedStore Memory.Memory :=
  or_none (apply_indexed fresh kept_changes kept_entries).

Lemma fresh_repr : store_repr fresh ∅ ∅.
Proof. by apply (@open_fresh Glass.secret _ _ _ _ {| Memory.records := ∅ |} tt tt (λ n, n)). Qed.

Lemma indexed_write_then_read_witness :
  (∀ o, get kept "journey" [x01; x02] = Ok o → o = Some [x07]) ∧
  get kept "journey" [x01; x02] = Ok (Some [x07]).
Proof.
  split; [|by vm_compute].
  intros o Ho.
  destruct (indexed_write_then_read fresh kept ∅ ∅ kept_changes kept_entries) as [Hget _].
  - exact fresh_repr.
  - apply (bool_decide_unpack _). by vm_compute.
  - apply or_none_ok. by vm_compute.
  - apply (Hget "journey"%string [x01; x02]); [|exact Ho].
    by apply (bool_decide_unpack _); vm_compute.
Defined.

(** The record of one key, its bytes copied under another. *)
Definition sealed_bytes : bytes :=
  default [] (Memory.records (store_engine kept) !! lookup_key kept "journey" [x01; x02]).
Definition moved : EncryptedStore Memory.Memory :=
  with_engine kept
    {| Memory.records := <[lookup_key kept "journey" [x09] := sealed_bytes]>
         (Memory.records (store_engine kept)) |} (random kept).

Lemma moved_record_refused_witness :
  (∀ o, get moved "journey" [x09] ≠ Ok o) ∧ is_ok (get moved "journey" [x01; x02]) = true.
Proof.
  split; [|by vm_compute].
  apply (moved_record_refused moved "journey" [x01; x02] "journey" [x09] sealed_bytes [x07]).
  - apply (bool_decide_unpack _). by vm_compute.
  - apply (bool_decide_unpack _). by vm_compute.
  - intros [=].
  - exists (tail sealed_bytes). split; by vm_compute.
  - apply lookup_insert_eq.
Defined.

Definition fresh_again : result (EncryptedStore Memory.Memory) :=
  @open Glass.secret _ _ (store_engine fresh) tt tt (λ n, 5 + n).

Lemma reopened_same_keys_witness :
  is_ok fresh_again = true ∧
  record (or_none fresh_again) = record fresh ∧ lookup (or_none fresh_again) = lookup fresh.
Proof.
  split; [by vm_compute|].
  destruct (@reopened_same_keys Glass.secret _ _ _ _ {| Memory.records := ∅ |} tt tt
    (λ n, n) (λ n, 5 + n) fresh (or_none fresh_again)) as (H1 & H2 & _).
  - apply or_none_ok. by vm_compute.
  - apply or_none_ok. by vm_compute.
  - exact (conj H1 H2).
Defined.
End EncryptedTheorems.
