(* ===== verification/Facts.v ===== *)
(** * A record's fields laid out (src/.src/storage/facts.rs)

    The values of a Journey, a Message and an audit record that their tables
    keep in columns of their own, with the form each is written in; and a
    Stream's own record (src/.src/storage/stream.rs). The identifiers of the
    crate xcore ([JourneyId], [MessageId], [StreamId], [AuditId]) are the
    [u128] they are made of and give back. *)

From S2P Require Import Prelude Word Codec.

Abbreviation JourneyId := u128.
Abbreviation MessageId := u128.
Abbreviation StreamId := u128.
Abbreviation AuditId := u128.

(** How long a SHA-256 digest is, in bytes. *)
Definition DIGEST : nat := 32.
Definition is_digest (b : bytes) : Prop := length b = DIGEST.

(** ** The records *)

Record JourneyFacts : Set := {
  jf_state : string;
  jf_previous_journey : option u128;
  jf_subscription : option string;
  jf_cause_work_process : option string;
  jf_depth : u32;
  jf_work_process : option string;
  jf_send_port : option string;
  jf_send_location : u32;
  jf_attempts : u32;
  jf_message : option u128;
  jf_origin : option u128;
  jf_open : bool;
  jf_group_delivery : option u128;
  jf_group_open : bool;
  jf_created_unix_nanos : u64;
  jf_updated_unix_nanos : u64;
}.

Record MessageFacts : Set := {
  mf_previous_message : option u128;
  mf_generation : u32;
  mf_created_by : string;
  mf_priority : string;
  mf_execution_profile : string;
  mf_durability : string;
  mf_size_bytes : u64;
  mf_party : option string;
  mf_contract : option string;
  mf_stream : option u128;
  mf_created_unix_nanos : u64;
}.

Record AuditFacts : Set := {
  af_occurred_unix_nanos : u64;
  af_action : string;
  af_phase : string;
  af_severity : string;
  af_failed : bool;
  af_text : option string;
  af_program : string;
  af_host : string;
  af_process : u32;
  af_location : option string;
  af_hidden : bool;
  af_execution : option u128;
  af_journey : option u128;
  af_message : option u128;
  af_artifact_kind : option string;
  af_artifact_name : option string;
  af_artifact_version : option string;
  af_node : option string;
  af_cluster : option string;
  af_writer : string;
  af_position : u64;
  af_previous : bytes;
  af_digest : bytes;
  af_body_length : u64;
  af_body_chunks : u32;
  af_body_digest : bytes;
  af_kept_unix_nanos : u64;
}.

(** A Stream's own record (stream.rs). *)
Record StreamRecord : Set := {
  st_stream : StreamId;
  st_length : u64;
  st_chunks : u32;
  st_digest : bytes;
  st_written_unix_nanos : u64;
}.

#[export] Instance JourneyFacts_eq_dec : EqDecision JourneyFacts.
Proof. solve_decision. Defined.
#[export] Instance MessageFacts_eq_dec : EqDecision MessageFacts.
Proof. solve_decision. Defined.
#[export] Instance AuditFacts_eq_dec : EqDecision AuditFacts.
Proof. solve_decision. Defined.
#[export] Instance StreamRecord_eq_dec : EqDecision StreamRecord.
Proof. solve_decision. Defined.

(** ** Their forms *)

Section forms.
Context {C : Codec}.

Definition write_text_maybe (text : option string) : bytes :=
  w_flag (is_some text) ++
  match text with Some text => w_text text | None => [] end.
Definition read_text_maybe : rd (option string) :=
  present ← r_byte;
  if nonzero present then (text ← r_text; mret (Some text)) else mret None.

Definition write_id_maybe (id : option u128) : bytes :=
  w_flag (is_some id) ++
  match id with Some id => w_u128 id | None => [] end.
Definition read_id_maybe : rd (option u128) :=
  present ← r_byte;
  if nonzero present then (id ← r_u128; mret (Some id)) else mret None.

Definition write_digest (digest : bytes) : bytes := digest.
Definition read_digest : rd bytes :=
  b ← r_take DIGEST;
  match array DIGEST b with
  | Some digest => mret digest
  | None => rd_err (CodecErr "a digest cut short")
  end.

Definition write_JourneyFacts (f : JourneyFacts) : bytes :=
  w_text (jf_state f) ++ write_id_maybe (jf_previous_journey f) ++
  write_text_maybe (jf_subscription f) ++ write_text_maybe (jf_cause_work_process f) ++
  w_u32 (jf_depth f) ++ write_text_maybe (jf_work_process f) ++
  write_text_maybe (jf_send_port f) ++ w_u32 (jf_send_location f) ++
  w_u32 (jf_attempts f) ++ write_id_maybe (jf_message f) ++
  write_id_maybe (jf_origin f) ++ w_flag (jf_open f) ++
  write_id_maybe (jf_group_delivery f) ++ w_flag (jf_group_open f) ++
  w_u64 (jf_created_unix_nanos f) ++ w_u64 (jf_updated_unix_nanos f).

Definition read_JourneyFacts : rd JourneyFacts :=
  state ← r_text; previous_journey ← read_id_maybe;
  subscription ← read_text_maybe; cause_work_process ← read_text_maybe;
  depth ← r_u32; work_process ← read_text_maybe;
  send_port ← read_text_maybe; send_location ← r_u32;
  attempts ← r_u32; message ← read_id_maybe;
  origin ← read_id_maybe; open ← r_flag;
  group_delivery ← read_id_maybe; group_open ← r_flag;
  created ← r_u64; updated ← r_u64;
  mret {|
    jf_state := state; jf_previous_journey := previous_journey;
    jf_subscription := subscription; jf_cause_work_process := cause_work_process;
    jf_depth := depth; jf_work_process := work_process; jf_send_port := send_port;
    jf_send_location := send_location; jf_attempts := attempts; jf_message := message;
    jf_origin := origin; jf_open := open; jf_group_delivery := group_delivery;
    jf_group_open := group_open; jf_created_unix_nanos := created;
    jf_updated_unix_nanos := updated
  |}.

Definition write_MessageFacts (f : MessageFacts) : bytes :=
  write_id_maybe (mf_previous_message f) ++ w_u32 (mf_generation f) ++
  w_text (mf_created_by f) ++ w_text (mf_priority f) ++
  w_text (mf_execution_profile f) ++ w_text (mf_durability f) ++
  w_u64 (mf_size_bytes f) ++ write_text_maybe (mf_party f) ++
  write_text_maybe (mf_contract f) ++ write_id_maybe (mf_stream f) ++
  w_u64 (mf_created_unix_nanos f).

Definition read_MessageFacts : rd MessageFacts :=
  previous_message ← read_id_maybe; generation ← r_u32;
  created_by ← r_text; priority ← r_text; execution_profile ← r_text;
  durability ← r_text; size_bytes ← r_u64; party ← read_text_maybe;
  contract ← read_text_maybe; stream ← read_id_maybe; created ← r_u64;
  mret {|
    mf_previous_message := previous_message; mf_generation := generation;
    mf_created_by := created_by; mf_priority := priority;
    mf_execution_profile := execution_profile; mf_durability := durability;
    mf_size_bytes := size_bytes; mf_party := party; mf_contract := contract;
    mf_stream := stream; mf_created_unix_nanos := created
  |}.

Definition write_AuditFacts (f : AuditFacts) : bytes :=
  w_u64 (af_occurred_unix_nanos f) ++ w_text (af_action f) ++ w_text (af_phase f) ++
  w_text (af_severity f) ++ w_flag (af_failed f) ++ write_text_maybe (af_text f) ++
  w_text (af_program f) ++ w_text (af_host f) ++ w_u32 (af_process f) ++
  write_text_maybe (af_location f) ++ w_flag (af_hidden f) ++
  write_id_maybe (af_execution f) ++ write_id_maybe (af_journey f) ++
  write_id_maybe (af_message f) ++ write_text_maybe (af_artifact_kind f) ++
  write_text_maybe (af_artifact_name f) ++ write_text_maybe (af_artifact_version f) ++
  write_text_maybe (af_node f) ++ write_text_maybe (af_cluster f) ++
  w_text (af_writer f) ++ w_u64 (af_position f) ++ write_digest (af_previous f) ++
  write_digest (af_digest f) ++ w_u64 (af_body_length f) ++ w_u32 (af_body_chunks f) ++
  write_digest (af_body_digest f) ++ w_u64 (af_kept_unix_nanos f).

Definition read_AuditFacts : rd AuditFacts :=
  occurred ← r_u64; action ← r_text; phase ← r_text; severity ← r_text;
  failed ← r_flag; text ← read_text_maybe; program ← r_text; host ← r_text;
  process ← r_u32; location ← read_text_maybe; hidden ← r_flag;
  execution ← read_id_maybe; journey ← read_id_maybe; message ← read_id_maybe;
  artifact_kind ← read_text_maybe; artifact_name ← read_text_maybe;
  artifact_version ← read_text_maybe; node ← read_text_maybe;
  cluster ← read_text_maybe; writer ← r_text; position ← r_u64;
  previous ← read_digest; digest ← read_digest; body_length ← r_u64;
  body_chunks ← r_u32; body_digest ← read_digest; kept ← r_u64;
  mret {|
    af_occurred_unix_nanos := occurred; af_action := action; af_phase := phase;
    af_severity := severity; af_failed := failed; af_text := text;
    af_program := program; af_host := host; af_process := process;
    af_location := location; af_hidden := hidden; af_execution := execution;
    af_journey := journey; af_message := message; af_artifact_kind := artifact_kind;
    af_artifact_name := artifact_name; af_artifact_version := artifact_version;
    af_node := node; af_cluster := cluster; af_writer := writer;
    af_position := position; af_previous := previous; af_digest := digest;
    af_body_length := body_length; af_body_chunks := body_chunks;
    af_body_digest := body_digest; af_kept_unix_nanos := kept
  |}.

Definition write_StreamRecord (s : StreamRecord) : bytes :=
  w_u128 (st_stream s) ++ w_u64 (st_length s) ++ w_u32 (st_chunks s) ++
  write_digest (st_digest s) ++ w_u64 (st_written_unix_nanos s).

Definition read_StreamRecord : rd StreamRecord :=
  stream ← r_u128; length ← r_u64; chunks ← r_u32; digest ← read_digest;
  written ← r_u64;
  mret {| st_stream := stream; st_length := length; st_chunks := chunks;
          st_digest := digest; st_written_unix_nanos := written |}.

#[export] Instance JourneyFacts_form : Form JourneyFacts :=
  { write := write_JourneyFacts; fread := read_JourneyFacts }.
#[export] Instance MessageFacts_form : Form MessageFacts :=
  { write := write_MessageFacts; fread := read_MessageFacts }.
#[export] Instance AuditFacts_form : Form AuditFacts :=
  { write := write_AuditFacts; fread := read_AuditFacts }.
#[export] Instance StreamRecord_form : Form StreamRecord :=
  { write := write_StreamRecord; fread := read_StreamRecord }.
End forms.

(** ** What each must fit, and its round trip *)

Definition counts_text_maybe (text : option string) : Prop :=
  match text with Some text => counts_text text | None => True end.

#[export] Instance JourneyFacts_fits : Fits JourneyFacts := λ f,
  counts_text (jf_state f) ∧ counts_text_maybe (jf_subscription f) ∧
  counts_text_maybe (jf_cause_work_process f) ∧ counts_text_maybe (jf_work_process f) ∧
  counts_text_maybe (jf_send_port f).
#[export] Instance MessageFacts_fits : Fits MessageFacts := λ f,
  counts_text (mf_created_by f) ∧ counts_text (mf_priority f) ∧
  counts_text (mf_execution_profile f) ∧ counts_text (mf_durability f) ∧
  counts_text_maybe (mf_party f) ∧ counts_text_maybe (mf_contract f).
#[export] Instance AuditFacts_fits : Fits AuditFacts := λ f,
  counts_text (af_action f) ∧ counts_text (af_phase f) ∧ counts_text (af_severity f) ∧
  counts_text_maybe (af_text f) ∧ counts_text (af_program f) ∧ counts_text (af_host f) ∧
  counts_text_maybe (af_location f) ∧ counts_text_maybe (af_artifact_kind f) ∧
  counts_text_maybe (af_artifact_name f) ∧ counts_text_maybe (af_artifact_version f) ∧
  counts_text_maybe (af_node f) ∧ counts_text_maybe (af_cluster f) ∧
  counts_text (af_writer f) ∧ is_digest (af_previous f) ∧ is_digest (af_digest f) ∧
  is_digest (af_body_digest f).
#[export] Instance StreamRecord_fits : Fits StreamRecord := λ s, is_digest (st_digest s).

Section roundtrips.
Context {C : Codec} {CO : CodecOk C}.

Lemma text_maybe_rt text l :
  counts_text_maybe text → read_text_maybe (write_text_maybe text ++ l) = COk (text, l).
Proof.
  intros Ht. unfold read_text_maybe, write_text_maybe, w_flag.
  destruct text as [text|]; cbn in Ht; roundtrip.
Qed.

Lemma id_maybe_rt id l : read_id_maybe (write_id_maybe id ++ l) = COk (id, l).
Proof.
  unfold read_id_maybe, write_id_maybe, w_flag. destruct id as [id|]; roundtrip.
Qed.

Lemma digest_rt d l : is_digest d → read_digest (write_digest d ++ l) = COk (d, l).
Proof.
  intros Hd. unfold read_digest, write_digest. pose proof (take_rt d l) as E.
  rewrite Hd in E. erewrite rd_step by exact E.
  unfold array. by rewrite decide_True by done.
Qed.

#[local] Hint Resolve text_maybe_rt id_maybe_rt digest_rt : codec.

#[export] Instance JourneyFacts_ok : FormOk JourneyFacts.
Proof.
  intros f l Hf. destruct Hf as (? & ? & ? & ? & ?). cbn.
  unfold write_JourneyFacts, read_JourneyFacts. roundtrip. by destruct f.
Qed.

#[export] Instance MessageFacts_ok : FormOk MessageFacts.
Proof.
  intros f l Hf. destruct Hf as (? & ? & ? & ? & ? & ?). cbn.
  unfold write_MessageFacts, read_MessageFacts. roundtrip. by destruct f.
Qed.

#[export] Instance AuditFacts_ok : FormOk AuditFacts.
Proof.
  intros f l Hf. unfold fits, AuditFacts_fits in Hf. destruct_and?. cbn.
  unfold write_AuditFacts, read_AuditFacts. roundtrip. by destruct f.
Qed.

#[export] Instance StreamRecord_ok : FormOk StreamRecord.
Proof.
  intros s l Hs. unfold fits, StreamRecord_fits in Hs. cbn.
  unfold write_StreamRecord, read_StreamRecord. roundtrip. by destruct s.
Qed.
End roundtrips.
#[export] Hint Resolve text_maybe_rt id_maybe_rt digest_rt : codec.
