(* ===== verification/Records.v ===== *)
(** * What Xmip Storage keeps (src/.src/storage/record.rs)

    The records the operations write and read - a Stream chunk, a Message, a
    Journey, a claim, an administration record - and an audit record with the
    Message and Streams it carries (audited.rs, audit_entry.rs,
    kept_audit.rs), each with the one binary form it is written in, and the
    keys they are kept under. *)

From S2P Require Import Prelude Word Codec Facts.
From stdpp Require Import pretty.

(** [malformed]: a record that would not encode or decode, in words. *)
Definition malformed (reason : string) : PersistError := Record_ reason.

(** ** The records *)

Record StreamChunk : Set := {
  ck_stream : StreamId; ck_index : u32; ck_bytes : bytes
}.
Record MessageRecord : Set := {
  m_message : MessageId; m_body : bytes; m_facts : MessageFacts
}.
Record JourneyRecord : Set := {
  j_journey : JourneyId; j_body : bytes; j_facts : JourneyFacts
}.
Record Claim : Set := {
  c_journey : JourneyId;
  c_holder : string;
  c_token : u128;
  c_until_unix_nanos : i128;
  c_fence : u64;
}.

Inductive AdministrationKind : Set :=
  | Registration | Membership | Module_ | Handler | Deployment | Operator.

Record AdministrationRecord : Set := {
  ad_kind : AdministrationKind; ad_id : u128; ad_body : bytes; ad_updated_unix_nanos : u64
}.

(** The Message an audited act was on, and the Streams it is over. *)
Record Audited : Set := { au_message : bytes; au_streams : list StreamId }.
(** A Stream a kept audit record carries. *)
Record KeptStream : Set := { ks_audit : AuditId; ks_stream : StreamRecord }.
Record AuditEntry : Set := {
  ae_id : AuditId; ae_body : bytes; ae_audited : option Audited; ae_facts : AuditFacts
}.
Record AuditBody : Set := { ab_body : bytes; ab_audited : option Audited }.
Record KeptAudit : Set := {
  ka_id : AuditId; ka_streams : list StreamId; ka_facts : AuditFacts
}.

#[export] Instance StreamChunk_eq_dec : EqDecision StreamChunk.
Proof. solve_decision. Defined.
#[export] Instance MessageRecord_eq_dec : EqDecision MessageRecord.
Proof. solve_decision. Defined.
#[export] Instance JourneyRecord_eq_dec : EqDecision JourneyRecord.
Proof. solve_decision. Defined.
#[export] Instance Claim_eq_dec : EqDecision Claim.
Proof. solve_decision. Defined.
#[export] Instance AdministrationKind_eq_dec : EqDecision AdministrationKind.
Proof. solve_decision. Defined.
#[export] Instance Audited_eq_dec : EqDecision Audited.
Proof. solve_decision. Defined.
#[export] Instance AuditEntry_eq_dec : EqDecision AuditEntry.
Proof. solve_decision. Defined.

(** ** Administration kinds *)

Module Administration.
Definition ALL : list AdministrationKind :=
  [Registration; Membership; Module_; Handler; Deployment; Operator].

Definition word (kind : AdministrationKind) : string :=
  match kind with
  | Registration => "registration"
  | Membership => "membership"
  | Module_ => "module"
  | Handler => "handler"
  | Deployment => "deployment"
  | Operator => "operator"
  end.

Definition number (kind : AdministrationKind) : byte :=
  match kind with
  | Registration => x00
  | Membership => x01
  | Module_ => x02
  | Handler => x03
  | Deployment => x04
  | Operator => x05
  end.

Definition numbered (n : byte) : cres AdministrationKind :=
  match list_find (λ kind, number kind = n) ALL with
  | Some (_, kind) => COk kind
  | None =>
      CErr (CodecErr ("no administration kind is numbered " +:+ pretty (Byte.to_N n)))
  end.
End Administration.

(** ** Forms *)

Section forms.
Context {C : Codec}.

Definition write_StreamChunk (c : StreamChunk) : bytes :=
  w_u128 (ck_stream c) ++ w_u32 (ck_index c) ++ w_counted (ck_bytes c).
Definition read_StreamChunk : rd StreamChunk :=
  stream ← r_u128; index ← r_u32; bytes ← r_counted;
  mret {| ck_stream := stream; ck_index := index; ck_bytes := bytes |}.

#[export] Instance StreamChunk_form : Form StreamChunk :=
  { write := write_StreamChunk; fread := read_StreamChunk }.

Definition write_MessageRecord (m : MessageRecord) : bytes :=
  w_u128 (m_message m) ++ w_counted (m_body m) ++ write (m_facts m).
Definition read_MessageRecord : rd MessageRecord :=
  message ← r_u128; body ← r_counted; facts ← fread;
  mret {| m_message := message; m_body := body; m_facts := facts |}.
#[export] Instance MessageRecord_form : Form MessageRecord :=
  { write := write_MessageRecord; fread := read_MessageRecord }.

Definition write_JourneyRecord (j : JourneyRecord) : bytes :=
  w_u128 (j_journey j) ++ w_counted (j_body j) ++ write (j_facts j).
Definition read_JourneyRecord : rd JourneyRecord :=
  journey ← r_u128; body ← r_counted; facts ← fread;
  mret {| j_journey := journey; j_body := body; j_facts := facts |}.
#[export] Instance JourneyRecord_form : Form JourneyRecord :=
  { write := write_JourneyRecord; fread := read_JourneyRecord }.

Definition write_Claim (c : Claim) : bytes :=
  w_u128 (c_journey c) ++ w_text (c_holder c) ++ w_u128 (c_token c) ++
  w_i128 (c_until_unix_nanos c) ++ w_u64 (c_fence c).
(** A claim kept before fences were written ends here: none is zero. *)
Definition read_fence : rd u64 := λ l, if is_empty l then COk (wrap 0, l) else r_u64 l.
Definition read_Claim : rd Claim :=
  journey ← r_u128; holder ← r_text; token ← r_u128; until ← r_i128;
  fence ← read_fence;
  mret {| c_journey := journey; c_holder := holder; c_token := token;
          c_until_unix_nanos := until; c_fence := fence |}.
#[export] Instance Claim_form : Form Claim :=
  { write := write_Claim; fread := read_Claim }.

Definition write_AdministrationKind (kind : AdministrationKind) : bytes :=
  w_byte (Administration.number kind).
Definition read_AdministrationKind : rd AdministrationKind :=
  n ← r_byte;
  match Administration.numbered n with COk kind => mret kind | CErr e => rd_err e end.
#[export] Instance AdministrationKind_form : Form AdministrationKind :=
  { write := write_AdministrationKind; fread := read_AdministrationKind }.

Definition write_AdministrationRecord (r : AdministrationRecord) : bytes :=
  write (ad_kind r) ++ w_u128 (ad_id r) ++ w_counted (ad_body r) ++
  w_u64 (ad_updated_unix_nanos r).
Definition read_AdministrationRecord : rd AdministrationRecord :=
  kind ← fread; id ← r_u128; body ← r_counted; updated ← r_u64;
  mret {| ad_kind := kind; ad_id := id; ad_body := body; ad_updated_unix_nanos := updated |}.
#[export] Instance AdministrationRecord_form : Form AdministrationRecord :=
  { write := write_AdministrationRecord; fread := read_AdministrationRecord }.

(** [u32::try_from(len).unwrap_or(u32::MAX)], then each identifier. *)
Definition write_ids (ids : list u128) : bytes :=
  w_u32 (clamp (N.of_nat (length ids))) ++ concat (w_u128 <$> ids).
(** [(0..cursor.u32_be()?).map(|_| cursor.u128_be()).collect()]. *)
Definition read_ids : rd (list u128) :=
  n ← r_u32; rd_times (N.to_nat (uval n)) r_u128.

Definition write_Audited (a : Audited) : bytes :=
  w_counted (au_message a) ++ write_ids (au_streams a).
Definition read_Audited : rd Audited :=
  message ← r_counted; streams ← read_ids;
  mret {| au_message := message; au_streams := streams |}.
#[export] Instance Audited_form : Form Audited :=
  { write := write_Audited; fread := read_Audited }.

Definition write_KeptStream (k : KeptStream) : bytes :=
  w_u128 (ks_audit k) ++ write (ks_stream k).
Definition read_KeptStream : rd KeptStream :=
  audit ← r_u128; stream ← fread; mret {| ks_audit := audit; ks_stream := stream |}.
#[export] Instance KeptStream_form : Form KeptStream :=
  { write := write_KeptStream; fread := read_KeptStream }.

(** The one writing of a body, in a record and in its chunks. *)
Definition write_body (body : bytes) (audited : option Audited) : bytes :=
  w_counted body ++ w_flag (is_some audited) ++
  match audited with Some audited => write audited | None => [] end.

Definition write_AuditBody (b : AuditBody) : bytes := write_body (ab_body b) (ab_audited b).
Definition read_AuditBody : rd AuditBody :=
  body ← r_counted;
  present ← r_byte;
  audited ← (if nonzero present then (a ← fread; mret (Some a)) else mret None : rd (option Audited));
  mret {| ab_body := body; ab_audited := audited |}.
#[export] Instance AuditBody_form : Form AuditBody :=
  { write := write_AuditBody; fread := read_AuditBody }.

(** [AuditEntry::body_bytes]: its body as the keeper keeps it in chunks. *)
Definition body_bytes (e : AuditEntry) : bytes := write_body (ae_body e) (ae_audited e).

Definition write_AuditEntry (e : AuditEntry) : bytes :=
  w_u128 (ae_id e) ++ write_body (ae_body e) (ae_audited e) ++ write (ae_facts e).
Definition read_AuditEntry : rd AuditEntry :=
  id ← r_u128; body ← read_AuditBody; facts ← fread;
  mret {| ae_id := id; ae_body := ab_body body; ae_audited := ab_audited body;
          ae_facts := facts |}.
#[export] Instance AuditEntry_form : Form AuditEntry :=
  { write := write_AuditEntry; fread := read_AuditEntry }.

Definition write_KeptAudit (k : KeptAudit) : bytes :=
  w_u128 (ka_id k) ++ write_ids (ka_streams k) ++ write (ka_facts k).
Definition read_KeptAudit : rd KeptAudit :=
  id ← r_u128; streams ← read_ids; facts ← fread;
  mret {| ka_id := id; ka_streams := streams; ka_facts := facts |}.
#[export] Instance KeptAudit_form : Form KeptAudit :=
  { write := write_KeptAudit; fread := read_KeptAudit }.
End forms.

(** ** Where they are kept *)

(** A Stream's chunk: its Stream and its number in it (stream.rs). *)
Definition chunk_key (stream : StreamId) (index : u32) : bytes := be stream ++ be index.

(** A kept Stream's row and its chunks (audited.rs). *)
Definition stream_key (audit : AuditId) (stream : StreamId) : bytes := be audit ++ be stream.
Definition kept_chunk_key (audit : AuditId) (stream : StreamId) (index : u32) : bytes :=
  be audit ++ be stream ++ be index.

(** A kept body's chunk (kept_audit.rs). *)
Definition body_key (audit : AuditId) (index : u32) : bytes := be audit ++ be index.

(** ** What each must fit, and its round trip *)

#[export] Instance StreamChunk_fits : Fits StreamChunk := λ c, counts (ck_bytes c).
#[export] Instance MessageRecord_fits : Fits MessageRecord := λ m,
  counts (m_body m) ∧ fits (m_facts m).
#[export] Instance JourneyRecord_fits : Fits JourneyRecord := λ j,
  counts (j_body j) ∧ fits (j_facts j).
#[export] Instance Claim_fits : Fits Claim := λ c, counts_text (c_holder c).
#[export] Instance AdministrationKind_fits : Fits AdministrationKind := λ _, True.
#[export] Instance AdministrationRecord_fits : Fits AdministrationRecord := λ r, counts (ad_body r).
#[export] Instance Audited_fits : Fits Audited := λ a,
  counts (au_message a) ∧ counts (au_streams a).
#[export] Instance KeptStream_fits : Fits KeptStream := λ k, fits (ks_stream k).
Definition audited_fits (a : option Audited) : Prop :=
  match a with Some a => fits a | None => True end.
#[export] Instance AuditBody_fits : Fits AuditBody := λ b,
  counts (ab_body b) ∧ audited_fits (ab_audited b).
#[export] Instance AuditEntry_fits : Fits AuditEntry := λ e,
  counts (ae_body e) ∧ audited_fits (ae_audited e) ∧ fits (ae_facts e).
#[export] Instance KeptAudit_fits : Fits KeptAudit := λ k,
  counts (ka_streams k) ∧ fits (ka_facts k).

Section roundtrips.
Context {C : Codec} {CO : CodecOk C}.

Lemma ids_rt (ids : list u128) l : counts ids → read_ids (write_ids ids ++ l) = COk (ids, l).
Proof.
  intros Hn. unfold read_ids, write_ids. roundtrip.
  rewrite uval_clamp. unfold counts in Hn.
  replace (N.to_nat _) with (length ids) by lia.
  apply times_rt. intros. apply u128_rt.
Qed.
#[local] Hint Resolve ids_rt : codec.

#[export] Instance StreamChunk_ok : FormOk StreamChunk.
Proof.
  intros c l Hc. unfold fits, StreamChunk_fits in Hc. cbn [write fread StreamChunk_form].
  unfold write_StreamChunk, read_StreamChunk. roundtrip. by destruct c.
Qed.

#[export] Instance MessageRecord_ok : FormOk MessageRecord.
Proof.
  intros m l [? ?]. cbn [write fread MessageRecord_form]. unfold write_MessageRecord, read_MessageRecord. roundtrip. by destruct m.
Qed.

#[export] Instance JourneyRecord_ok : FormOk JourneyRecord.
Proof.
  intros j l [? ?]. cbn [write fread JourneyRecord_form]. unfold write_JourneyRecord, read_JourneyRecord. roundtrip. by destruct j.
Qed.

(** What a fence is written as is never nothing, where what was written
    before fences is. *)
Lemma w_u64_nonempty x l : w_u64 x ++ l ≠ [].
Proof.
  intros E. apply app_eq_nil in E as [E _].
  pose (y := if decide (x = wrap 0) then wrap 1 else wrap 0 : u64).
  assert (y ≠ x) as Hne by (subst y; case_decide; [by subst|done]).
  pose proof (u64_rt x (w_u64 y)) as H1. rewrite E in H1. cbn [app] in H1.
  pose proof (u64_rt y []) as H2. rewrite app_nil_r in H2. congruence.
Qed.

Lemma fence_rt x l : read_fence (w_u64 x ++ l) = COk (x, l).
Proof.
  unfold read_fence. rewrite is_empty_spec, bool_decide_eq_false_2 by apply w_u64_nonempty.
  apply u64_rt.
Qed.
#[local] Hint Resolve fence_rt : codec.

#[export] Instance Claim_ok : FormOk Claim.
Proof.
  intros c l Hc. unfold fits, Claim_fits in Hc. cbn [write fread Claim_form].
  unfold write_Claim, read_Claim. roundtrip. by destruct c.
Qed.

#[export] Instance AdministrationKind_ok : FormOk AdministrationKind.
Proof.
  intros k l _. cbn [write fread AdministrationKind_form]. unfold write_AdministrationKind, read_AdministrationKind. roundtrip.
  by destruct k.
Qed.

#[export] Instance AdministrationRecord_ok : FormOk AdministrationRecord.
Proof.
  intros r l Hr. unfold fits, AdministrationRecord_fits in Hr.
  assert (fits (ad_kind r)) by done. cbn [write fread AdministrationRecord_form].
  unfold write_AdministrationRecord, read_AdministrationRecord. roundtrip. by destruct r.
Qed.

#[export] Instance Audited_ok : FormOk Audited.
Proof. intros a l [? ?]. cbn [write fread Audited_form]. unfold write_Audited, read_Audited. roundtrip. by destruct a. Qed.

#[export] Instance KeptStream_ok : FormOk KeptStream.
Proof.
  intros k l Hk. unfold fits, KeptStream_fits in Hk. cbn [write fread KeptStream_form].
  unfold write_KeptStream, read_KeptStream. roundtrip. by destruct k.
Qed.

Lemma body_rt body audited l : counts body → audited_fits audited →
  read_AuditBody (write_body body audited ++ l) = COk (Build_AuditBody body audited, l).
Proof.
  intros Hb Ha. unfold read_AuditBody, write_body, w_flag.
  destruct audited as [a|]; cbn in Ha; repeat rewrite <- app_assoc; do 2 rt_step;
    cbn [is_some nonzero]; [|done].
  erewrite rd_step; [|erewrite rd_step by eauto with codec]; done.
Qed.
#[local] Hint Resolve body_rt : codec.

#[export] Instance AuditBody_ok : FormOk AuditBody.
Proof. intros b l [? ?]. cbn [write fread AuditBody_form]. unfold write_AuditBody. rewrite body_rt by done. by destruct b. Qed.

#[export] Instance AuditEntry_ok : FormOk AuditEntry.
Proof.
  intros e l (? & ? & ?). cbn [write fread AuditEntry_form]. unfold write_AuditEntry, read_AuditEntry. roundtrip. by destruct e.
Qed.

#[export] Instance KeptAudit_ok : FormOk KeptAudit.
Proof. intros k l [? ?]. cbn [write fread KeptAudit_form]. unfold write_KeptAudit, read_KeptAudit. roundtrip. by destruct k. Qed.
End roundtrips.
#[export] Hint Resolve ids_rt fence_rt body_rt : codec.

(** ** Records of nothing in particular, for the worked examples *)

Module Examples.
Definition journey_facts : JourneyFacts := {|
  jf_state := "Running"; jf_previous_journey := None; jf_subscription := None;
  jf_cause_work_process := None; jf_depth := wrap 0; jf_work_process := None;
  jf_send_port := None; jf_send_location := wrap 0; jf_attempts := wrap 0;
  jf_message := None; jf_origin := None; jf_open := true; jf_group_delivery := None;
  jf_group_open := false; jf_created_unix_nanos := wrap 0; jf_updated_unix_nanos := wrap 0
|}.
Definition message_facts : MessageFacts := {|
  mf_previous_message := None; mf_generation := wrap 0; mf_created_by := "Receive";
  mf_priority := "Normal"; mf_execution_profile := "Default"; mf_durability := "Durable";
  mf_size_bytes := wrap 1; mf_party := None; mf_contract := None; mf_stream := None;
  mf_created_unix_nanos := wrap 0
|}.
Definition audit_facts : AuditFacts := {|
  af_occurred_unix_nanos := wrap 0; af_action := "publish"; af_phase := "Done";
  af_severity := "Info"; af_failed := false; af_text := None; af_program := "xmip";
  af_host := "a"; af_process := wrap 1; af_location := None; af_hidden := false;
  af_execution := None; af_journey := None; af_message := None; af_artifact_kind := None;
  af_artifact_name := None; af_artifact_version := None; af_node := None; af_cluster := None;
  af_writer := "w"; af_position := wrap 0; af_previous := replicate DIGEST x00;
  af_digest := replicate DIGEST x00; af_body_length := wrap 0; af_body_chunks := wrap 0;
  af_body_digest := replicate DIGEST x00; af_kept_unix_nanos := wrap 0
|}.
Definition journey (id : N) : JourneyRecord :=
  {| j_journey := wrap id; j_body := [x01]; j_facts := journey_facts |}.
Definition message (id : N) : MessageRecord :=
  {| m_message := wrap id; m_body := [x02]; m_facts := message_facts |}.
Definition audit (id : N) : AuditEntry :=
  {| ae_id := wrap id; ae_body := [x03]; ae_audited := None; ae_facts := audit_facts |}.
End Examples.
