(* ===== verification/Batch.v ===== *)
(** * One batch the writer decides (src/.src/storage/commit/batch.rs)

    What an operation does to a batch is a [prog]: a program of reads and
    puts by place, which may fail. It is run two ways:

    - [run], the way the code does it: over a [Batch] staged on the batch
      below it, on a store whose reads may fail, each record the store was
      asked for kept from the first time it was;
    - [exec], the abstract way: over the map of records itself.

    [run_spec] says they agree: what an operation staged on a batch
    decides, reads and leaves is what it would have done to the records as
    the batches below left them. [stage_spec] is the writer's all or
    nothing: a stage taken is every change of its operation, one dropped none. *)

From S2P Require Import Prelude Word Codec Engine Store Records.

(** ** Programs over a batch *)

Inductive prog (A : Type) : Type :=
  | Ret (a : A)
  | Fail_ (e : PersistError)
  | Read (kind : string) (key : bytes) (k : option bytes → prog A)
  | Put (kind : string) (key : bytes) (value : option bytes) (k : prog A).
Arguments Ret {A} a.
Arguments Fail_ {A} e.
Arguments Read {A} kind key k.
Arguments Put {A} kind key value k.

#[export] Instance prog_ret : MRet prog := @Ret.
#[export] Instance prog_bind : MBind prog := λ A B f,
  fix go p := match p with
    | Ret a => f a
    | Fail_ e => Fail_ e
    | Read kind key k => Read kind key (λ o, go (k o))
    | Put kind key value k => Put kind key value (go k)
    end.

(** [batch.read(store, kind, key)?], [batch.put(kind, key, value)] and a
    [Result]'s [?]. *)
Definition batch_read (kind : string) (key : bytes) : prog (option bytes) := Read kind key Ret.
Definition batch_put (kind : string) (key : bytes) (value : option bytes) : prog unit :=
  Put kind key value (Ret tt).
Definition lift {A} (r : result A) : prog A :=
  match r with Ok a => Ret a | Err e => Fail_ e end.

(** [batch.record(kind, id, record)]. *)
Definition batch_record `{Form A} (kind : string) (id : u128) (record : A) : prog unit :=
  batch_put kind (be id) (Some (to_bytes record)).

(** [for x in l { f(x)?; }]. *)
Fixpoint for_all {A} (f : A → prog unit) (l : list A) : prog unit :=
  match l with [] => Ret tt | a :: l => f a;; for_all f l end.

(** ** The abstract way *)

Fixpoint exec {A} (p : prog A) (m : records) : result (A * records) :=
  match p with
  | Ret a => Ok (a, m)
  | Fail_ e => Err e
  | Read kind key k => exec (k (m !! (kind, key))) m
  | Put kind key value k => exec k (record_change m (kind, key, value))
  end.

Lemma exec_bind {A B} (p : prog A) (f : A → prog B) m :
  exec (p ≫= f) m = ('(a, m') ← exec p m; exec (f a) m').
Proof.
  revert m; induction p as [a|e|kind key k IH|kind key value k IH]; intros m; cbn; auto.
Qed.

Lemma exec_read {B} kind key (f : option bytes → prog B) m :
  exec (batch_read kind key ≫= f) m = exec (f (m !! (kind, key))) m.
Proof. done. Qed.

Lemma exec_put {B} kind key value (f : unit → prog B) m :
  exec (batch_put kind key value ≫= f) m = exec (f tt) (record_change m (kind, key, value)).
Proof. done. Qed.

Lemma exec_lift {A B} (r : result A) (f : A → prog B) m :
  exec (lift r ≫= f) m = (a ← r; exec (f a) m).
Proof. by destruct r. Qed.

(** An operation that returned went through each of its steps. *)
Lemma exec_bind_Ok {A B} (p : prog A) (f : A → prog B) m b m' :
  exec (p ≫= f) m = Ok (b, m') ↔
  ∃ a m1, exec p m = Ok (a, m1) ∧ exec (f a) m1 = Ok (b, m').
Proof.
  rewrite exec_bind, bind_Ok. split.
  - intros ([a m1] & ? & ?). eauto.
  - intros (a & m1 & ? & ?). exists (a, m1). eauto.
Qed.

(** ** The batch *)

(** Each record's value by its place: [None] where there is none. *)
Abbreviation ByPlace := (gmap (string * bytes) (option bytes)).

(** [Batch]: over what is written ([below] is [None]), which alone keeps what
    the store held, or staged over the batch below it. *)
Inductive Batch : Type :=
  | Bottom (written : ByPlace) (changes : list RecordChange) (kept : ByPlace)
  | Staged (below : Batch) (written : ByPlace) (changes : list RecordChange).

Definition written (b : Batch) : ByPlace :=
  match b with Bottom w _ _ => w | Staged _ w _ => w end.
Definition changes (b : Batch) : list RecordChange :=
  match b with Bottom _ c _ => c | Staged _ _ c => c end.

(** [Batch::empty]. *)
Definition empty_batch : Batch := Bottom ∅ [] ∅.
(** [Batch::staged]. *)
Definition staged (b : Batch) : Batch := Staged b ∅ [].

(** [Batch::put]. *)
Definition put (b : Batch) (kind : string) (key : bytes) (value : option bytes) : Batch :=
  match b with
  | Bottom w c kept => Bottom (<[(kind, key) := value]> w) (c ++ [(kind, key, value)]) kept
  | Staged below w c => Staged below (<[(kind, key) := value]> w) (c ++ [(kind, key, value)])
  end.

Section run.
Context {St : Type} `{RecordStore St} (store : St).

(** [Batch::before]: read from the store the first time it is asked. *)
Fixpoint before (b : Batch) (kind : string) (key : bytes) : Batch * result (option bytes) :=
  match b with
  | Staged below w c =>
      let '(below, r) := before below kind key in (Staged below w c, r)
  | Bottom w c kept =>
      match kept !! (kind, key) with
      | Some value => (b, Ok value)
      | None =>
          match rs_get store kind key with
          | Ok value => (Bottom w c (<[(kind, key) := value]> kept), Ok value)
          | Err e => (b, Err e)
          end
      end
  end.

(** [Batch::read]: as this batch, and every batch below it, has left it. *)
Fixpoint read (b : Batch) (kind : string) (key : bytes) : Batch * result (option bytes) :=
  match written b !! (kind, key), b with
  | Some value, _ => (b, Ok value)
  | None, Staged below w c =>
      let '(below, r) := read below kind key in (Staged below w c, r)
  | None, Bottom _ _ _ => before b kind key
  end.

(** The program over the batch, its reads as [read] finds them and its puts
    as [put] makes them. *)
Fixpoint run {A} (p : prog A) (b : Batch) : Batch * result A :=
  match p with
  | Ret a => (b, Ok a)
  | Fail_ e => (b, Err e)
  | Read kind key k =>
      match read b kind key with
      | (b, Ok value) => run (k value) b
      | (b, Err e) => (b, Err e)
      end
  | Put kind key value k => run k (put b kind key value)
  end.

(** One operation decided on a stage of its own: all of it taken into the
    batch, or none of it (as [Writer::write] of commit.rs does: the stage
    dropped where the operation failed, its [written] extending the batch's
    and its [changes] appended where it did not). *)
Definition stage {A} (p : prog A) (b : Batch) : Batch * result A :=
  match run p (staged b) with
  | (Staged (Bottom w c kept) w' c', Ok a) => (Bottom (w' ∪ w) (c ++ c') kept, Ok a)
  | (Staged (Staged below w c) w' c', Ok a) => (Staged below (w' ∪ w) (c ++ c'), Ok a)
  | (Staged b _ _, Err e) => (b, Err e)
  | (Bottom _ _ _ as b, r) => (b, r)
  end.
End run.

(** [sequence]: a sequence number as kept, zero where none is. *)
Definition SEQUENCE : string := "audit-sequence".

Definition sequence {St : Type} `{RecordStore St} (store : St) (which : bytes) : result u64 :=
  bytes ← rs_get store SEQUENCE which;
  match bytes with
  | None => Ok (wrap 0)
  | Some bytes =>
      match array 8 bytes with
      | Some array => Ok (of_be array)
      | None => Err (malformed "an audit sequence that is not eight bytes")
      end
  end.

(** [impl fmt::Display for PersistError] (src/.src/error.rs); how the key
    home's error is displayed is its own. *)
Definition display (secret_error : SecretError → string) (error : PersistError) : string :=
  match error with
  | Refused scope reason => scope +:+ ": refused, " +:+ reason
  | Key error => "the store's data key: " +:+ secret_error error
  | EngineFailed engine reason => engine +:+ ": " +:+ reason
  | Record_ reason => "record: " +:+ reason
  | Failed_ reason => "a Storage node: " +:+ reason
  | Unreachable reason => "Xmip Storage: " +:+ reason
  | Schema reason | Standby reason => reason
  end.

(** [again]: the failure of a batch, said again to each write that was in it. *)
Definition again (secret_error : SecretError → string) (error : PersistError) : PersistError :=
  match error with
  | Refused scope reason => Refused scope reason
  | EngineFailed engine reason => EngineFailed engine reason
  | other => malformed (display secret_error other)
  end.

(** [Batch::written_of]: what the batch itself has written of [kind], by key. *)
Definition written_of (b : Batch) (kind : string) : list (bytes * option bytes) :=
  omap (λ '((written, key), value),
    if decide (written = kind) then Some (key, value) else None) (map_to_list (written b)).

(** ** What a batch stands for: the records as it, and every batch below it,
    has left them *)

Definition overlay (w : ByPlace) (m : records) : records :=
  merge (λ o v, match o with Some o => o | None => v end) w m.

Fixpoint view (R : records) (b : Batch) : records :=
  match b with
  | Bottom w _ _ => overlay w R
  | Staged below w _ => overlay w (view R below)
  end.

(** A batch in order: what it keeps of the store is what the store holds,
    and its list of changes makes what it has written. *)
Fixpoint wf (R : records) (b : Batch) : Prop :=
  match b with
  | Bottom w c kept =>
      (∀ place o, kept !! place = Some o → o = R !! place) ∧ recorded R c = overlay w R
  | Staged below w c =>
      wf R below ∧ recorded (view R below) c = overlay w (view R below)
  end.

(** Two batches that differ in what they keep of the store alone. *)
Fixpoint same (b b' : Batch) : Prop :=
  match b, b' with
  | Bottom w c _, Bottom w' c' _ => w = w' ∧ c = c'
  | Staged d w c, Staged d' w' c' => same d d' ∧ w = w' ∧ c = c'
  | _, _ => False
  end.

(** Every kind the program reads or puts is one a place can hold. *)
Fixpoint prog_ok {A} (p : prog A) : Prop :=
  match p with
  | Ret _ | Fail_ _ => True
  | Read kind _ k => kind_ok kind ∧ ∀ o, prog_ok (k o)
  | Put kind _ _ k => kind_ok kind ∧ prog_ok k
  end.

Lemma prog_ok_bind {A B} (p : prog A) (f : A → prog B) :
  prog_ok p → (∀ a, prog_ok (f a)) → prog_ok (p ≫= f).
Proof.
  intros Hp Hf; induction p as [a|e|kind key k IH|kind key value k IH]; cbn in *;
    [done|done| |]; destruct Hp; auto.
Qed.
Lemma prog_ok_lift {A} (r : result A) : prog_ok (lift r).
Proof. by destruct r. Qed.
Lemma prog_ok_read kind key : kind_ok kind → prog_ok (batch_read kind key).
Proof. done. Qed.
Lemma prog_ok_put kind key value : kind_ok kind → prog_ok (batch_put kind key value).
Proof. done. Qed.
Lemma prog_ok_for_all {A} (f : A → prog unit) l :
  (∀ a, prog_ok (f a)) → prog_ok (for_all f l).
Proof. intros Hf. induction l as [|a l IH]; [done|]. by apply prog_ok_bind. Qed.
#[export] Hint Resolve prog_ok_lift prog_ok_read prog_ok_put prog_ok_for_all : persist.

Lemma lookup_overlay (w : ByPlace) (m : records) place :
  overlay w m !! place = match w !! place with Some o => o | None => m !! place end.
Proof. unfold overlay. rewrite lookup_merge. by destruct (w !! place), (m !! place). Qed.

Lemma overlay_empty (m : records) : overlay ∅ m = m.
Proof. apply map_eq. intros place. by rewrite lookup_overlay, lookup_empty. Qed.

Lemma overlay_insert (w : ByPlace) (m : records) kind key value :
  overlay (<[(kind, key) := value]> w) m = record_change (overlay w m) (kind, key, value).
Proof.
  apply map_eq. intros place. rewrite lookup_overlay. cbn.
  destruct (decide (place = (kind, key))) as [->|Hne].
  - rewrite lookup_insert_eq. destruct value; [by rewrite lookup_insert_eq|].
    by rewrite lookup_delete_eq.
  - rewrite lookup_insert_ne by done.
    destruct value; [rewrite lookup_insert_ne by done|rewrite lookup_delete_ne by done];
      by rewrite lookup_overlay.
Qed.

Lemma overlay_union (w w' : ByPlace) (m : records) : overlay (w ∪ w') m = overlay w (overlay w' m).
Proof.
  apply map_eq. intros place. rewrite !lookup_overlay, lookup_union.
  by destruct (w !! place), (w' !! place).
Qed.

Lemma recorded_app R c c' : recorded R (c ++ c') = recorded (recorded R c) c'.
Proof. apply foldl_app. Qed.

Lemma same_refl b : same b b.
Proof. induction b; cbn; auto. Qed.

Lemma same_trans b b1 b2 : same b b1 → same b1 b2 → same b b2.
Proof.
  revert b1 b2; induction b as [|d IH]; intros [] []; cbn; naive_solver.
Qed.

Lemma same_view R b b' : same b b' → view R b = view R b'.
Proof.
  revert b'; induction b as [w c k|d IH w c]; intros []; cbn; try done.
  - by intros (-> & _).
  - intros (Hs & -> & _). f_equal. by apply IH.
Qed.

Lemma view_put R b kind key value :
  view R (put b kind key value) = record_change (view R b) (kind, key, value).
Proof. destruct b; apply overlay_insert. Qed.

Lemma wf_put R b kind key value : wf R b → wf R (put b kind key value).
Proof. destruct b; cbn [put wf]; rewrite recorded_app, overlay_insert; by intros [? ->]. Qed.

Lemma wf_empty R : wf R empty_batch.
Proof. split; [by intros ??; rewrite lookup_empty|]. by rewrite overlay_empty. Qed.
Lemma view_empty R : view R empty_batch = R.
Proof. apply overlay_empty. Qed.
Lemma wf_staged R b : wf R b → wf R (staged b).
Proof. split; [done|]. by rewrite overlay_empty. Qed.
Lemma view_staged R b : view R (staged b) = view R b.
Proof. apply overlay_empty. Qed.
#[export] Hint Resolve wf_empty wf_staged wf_put : persist.

Section refinement.
Context {St : Type} `{RecordStore St} (store : St) (R : records).
(** The store holds [R]: what [rs_get_spec] gives of a store that stands
    for it. *)
Hypothesis get_ok : ∀ kind key o, kind_ok kind →
  rs_get store kind key = Ok o → o = R !! (kind, key).

(** What a read of the store came to: what is there, or its failure. *)
Definition found (kind : string) (key : bytes) (m : records) (r : result (option bytes)) : Prop :=
  match r with
  | Ok o => o = m !! (kind, key)
  | Err e => rs_get store kind key = Err e
  end.

Lemma before_spec b kind key b' r : wf R b → kind_ok kind →
  before store b kind key = (b', r) → same b b' ∧ wf R b' ∧ found kind key R r.
Proof.
  intros Hwf Hk. revert b' r. induction b as [w c k|d IH w c]; intros b' r; cbn.
  - destruct Hwf as [Hkept Hc]. destruct (k !! (kind, key)) as [o|] eqn:E.
    { intros [= <- <-]. split; [done|]. split; [done|]. by apply Hkept. }
    destruct (rs_get store kind key) as [o|e] eqn:G; intros [= <- <-]; [|done].
    split; [done|]. apply get_ok in G as ->; [|done]. split; [|done]. split; [|done].
    intros place o. destruct (decide (place = (kind, key))) as [->|];
      [rewrite lookup_insert_eq|rewrite lookup_insert_ne by done]; [naive_solver|apply Hkept].
  - destruct Hwf as [Hd Hc]. destruct (before store d kind key) as [d' r'] eqn:E.
    intros [= <- <-]. destruct (IH Hd _ _ eq_refl) as (Hs & Hw & ?).
    split; [done|]. split; [|done]. cbn. by rewrite <- (same_view R _ _ Hs).
Qed.

Lemma read_spec b kind key b' r : wf R b → kind_ok kind →
  read store b kind key = (b', r) → same b b' ∧ wf R b' ∧ found kind key (view R b) r.
Proof.
  intros Hwf Hk. revert b' r. induction b as [w c k|d IH w c]; intros b' r;
    cbn [read written view]; unfold found; rewrite lookup_overlay.
  - destruct (w !! (kind, key)) as [o|] eqn:E; [by intros [= <- <-]|].
    by apply before_spec.
  - destruct (w !! (kind, key)) as [o|] eqn:E.
    { intros [= <- <-]. split; [apply same_refl|done]. }
    destruct Hwf as [Hd Hc]. destruct (read store d kind key) as [d' r'] eqn:Ed.
    intros [= <- <-]. destruct (IH Hd _ _ eq_refl) as (Hs & Hw & ?).
    split; [done|]. split; [|done]. cbn. by rewrite <- (same_view R _ _ Hs).
Qed.

(** What [run] came to, against what [exec] does to the records as the
    batch leaves them: the same, or a read of the store that failed. *)
Definition agrees {A} (p : prog A) (b b' : Batch) (r : result A) : Prop :=
  match r with
  | Ok a => exec p (view R b) = Ok (a, view R b')
  | Err e => exec p (view R b) = Err e ∨ ∃ kind key, rs_get store kind key = Err e
  end.

(** What is below a batch stays as it is but for what is kept of the store. *)
Definition over (b b' : Batch) : Prop :=
  match b, b' with
  | Bottom _ _ _, Bottom _ _ _ => True
  | Staged d _ _, Staged d' _ _ => same d d'
  | _, _ => False
  end.

Lemma same_over b b' : same b b' → over b b'.
Proof. destruct b, b'; cbn; try done. by intros (? & _). Qed.
Lemma over_trans b b1 b2 : over b b1 → over b1 b2 → over b b2.
Proof. destruct b, b1, b2; cbn; try done. apply same_trans. Qed.
Lemma over_put b kind key value : over b (put b kind key value).
Proof. destruct b; cbn; [done|]. apply same_refl. Qed.

Lemma run_spec {A} (p : prog A) b b' r : wf R b → prog_ok p →
  run store p b = (b', r) → over b b' ∧ wf R b' ∧ agrees p b b' r.
Proof.
  revert b. induction p as [a|e|kind key k IH|kind key value k IH]; intros b Hwf Hp; cbn.
  - intros [= <- <-]. split; [apply same_over, same_refl|done].
  - intros [= <- <-]. split; [apply same_over, same_refl|]. split; [done|]. by left.
  - destruct (read store b kind key) as [b1 r1] eqn:E. destruct Hp as [Hk Hp].
    destruct (read_spec _ _ _ _ _ Hwf Hk E) as (Hs & Hw & Hf).
    destruct r1 as [o|e]; cbn in Hf.
    + intros Hrun. destruct (IH _ _ Hw (Hp _) Hrun) as (Ho & Hw' & Ha).
      split; [eapply over_trans; [by apply same_over|done]|]. split; [done|].
      unfold agrees in *. cbn. rewrite <- Hf, (same_view R _ _ Hs). done.
    + intros [= <- <-]. split; [by apply same_over|]. split; [done|]. right; eauto.
  - destruct Hp as [Hk Hp]. intros Hrun.
    destruct (IH (put b kind key value) (wf_put _ _ _ _ _ Hwf) Hp Hrun) as (Ho & Hw' & Ha).
    split; [eapply over_trans; [apply over_put|done]|]. split; [done|].
    unfold agrees in *. by rewrite view_put in Ha.
Qed.

(** The changes a batch lists: those it had, then those the program made. *)
Lemma same_changes b b' : same b b' → changes b' = changes b.
Proof. destruct b, b'; cbn; try done; naive_solver. Qed.

Definition grows (b b' : Batch) : Prop := ∃ l, changes b' = changes b ++ l ∧ kinds_ok l.

Lemma grows_same b b' : changes b' = changes b → grows b b'.
Proof. intros E. exists []. rewrite app_nil_r. split; [done|constructor]. Qed.
Lemma grows_trans b b1 b2 : grows b b1 → grows b1 b2 → grows b b2.
Proof.
  intros (l & E & Hl) (l' & E' & Hl'). exists (l ++ l'). rewrite E', E, app_assoc. split; [done|].
  by apply Forall_app.
Qed.
Lemma grows_put b kind key value : kind_ok kind → grows b (put b kind key value).
Proof. intros. exists [(kind, key, value)]. split; [by destruct b|]. by repeat constructor. Qed.

Lemma run_grows {A} (p : prog A) b b' r : wf R b → prog_ok p → run store p b = (b', r) → grows b b'.
Proof.
  revert b. induction p as [a|e|kind key k IH|kind key value k IH]; intros b Hwf Hp; cbn.
  - intros [= <- <-]. by apply grows_same.
  - intros [= <- <-]. by apply grows_same.
  - destruct (read store b kind key) as [b1 r1] eqn:E. destruct Hp as [Hk Hp].
    destruct (read_spec _ _ _ _ _ Hwf Hk E) as (Hs & Hw & Hf).
    assert (grows b b1) as Hg by by apply grows_same, same_changes.
    destruct r1 as [o|e]; [|by intros [= <- <-]].
    intros Hrun. eapply grows_trans; [done|]. by eapply IH.
  - destruct Hp as [Hk Hp]. intros Hrun. eapply grows_trans; [by apply grows_put|].
    eapply IH; [by apply wf_put|done|exact Hrun].
Qed.

Lemma stage_grows {A} (p : prog A) b b' r : wf R b → prog_ok p → stage store p b = (b', r) → grows b b'.
Proof.
  intros Hwf Hp. unfold stage. destruct (run store p (staged b)) as [b1 r1] eqn:E.
  destruct (run_spec p (staged b) b1 r1 (wf_staged _ _ Hwf) Hp E) as (Ho & _).
  destruct (run_grows p (staged b) b1 r1 (wf_staged _ _ Hwf) Hp E) as (l & El & Hl).
  destruct b1 as [|d w' c']; [done|]. cbn in Ho, El. subst c'. apply same_changes in Ho.
  destruct r1 as [a|e].
  - destruct d; cbn in Ho; intros [= <- <-]; exists l; cbn; by rewrite Ho.
  - intros Hst. apply grows_same. destruct d; by injection Hst as <- <-.
Qed.

Lemma stage_over {A} (p : prog A) b b' r : wf R b → prog_ok p → stage store p b = (b', r) → over b b'.
Proof.
  intros Hwf Hp. unfold stage. destruct (run store p (staged b)) as [b1 r1] eqn:E.
  destruct (run_spec p (staged b) b1 r1 (wf_staged _ _ Hwf) Hp E) as (Ho & _).
  destruct b1 as [|d w' c']; [done|]. cbn in Ho. apply same_over in Ho.
  destruct r1 as [a|e], d, b; try done; by intros [= <- <-].
Qed.

(** A stage of a batch on the store: taken whole, or dropped whole. *)
Definition staged_agrees {A} (p : prog A) (b b' : Batch) (r : result A) : Prop :=
  wf R b' ∧
  match r with
  | Ok a => exec p (view R b) = Ok (a, view R b')
  | Err e => same b b' ∧
      (exec p (view R b) = Err e ∨ ∃ kind key, rs_get store kind key = Err e)
  end.

Lemma stage_spec {A} (p : prog A) b b' r : wf R b → prog_ok p →
  stage store p b = (b', r) → staged_agrees p b b' r.
Proof.
  intros Hwf Hp. unfold stage. destruct (run store p (staged b)) as [b1 r1] eqn:E.
  destruct (run_spec p (staged b) b1 r1 (wf_staged _ _ Hwf) Hp E) as (Ho & Hw & Ha).
  destruct b1 as [|b1 w' c']; [done|]. cbn in Ho. destruct Hw as [Hw Hc].
  unfold agrees in Ha. rewrite view_staged in Ha.
  destruct r1 as [a|e].
  - intros Hst. assert (r = Ok a ∧ wf R b' ∧ view R b' = overlay w' (view R b1)) as (-> & H1 & H2).
    { destruct b1 as [w c k|d w c]; injection Hst as <- <-; cbn in *;
        rewrite recorded_app, overlay_union; destruct Hw as [H1 H2]; by rewrite H2, Hc. }
    split; [done|]. rewrite H2. done.
  - intros Hst. assert (b' = b1 ∧ r = Err e) as [-> ->].
    { destruct b1; by injection Hst as <- <-. }
    done.
Qed.
End refinement.

(** ** What a program leaves alone *)

(** Every kind the program puts is one of [P]. *)
Fixpoint puts_only {A} (P : string → Prop) (p : prog A) : Prop :=
  match p with
  | Ret _ | Fail_ _ => True
  | Read _ _ k => ∀ o, puts_only P (k o)
  | Put kind _ _ k => P kind ∧ puts_only P k
  end.

Lemma puts_only_bind {A B} P (p : prog A) (f : A → prog B) :
  puts_only P p → (∀ a, puts_only P (f a)) → puts_only P (p ≫= f).
Proof.
  intros Hp Hf; induction p as [a|e|kind key k IH|kind key value k IH]; cbn in *; try done; auto.
  destruct Hp; auto.
Qed.
Lemma puts_only_lift {A} P (r : result A) : puts_only P (lift r).
Proof. by destruct r. Qed.
Lemma puts_only_ret {A} P (a : A) : puts_only P (mret a).
Proof. done. Qed.
Lemma puts_only_read P kind key : puts_only P (batch_read kind key).
Proof. done. Qed.
Lemma puts_only_put (P : string → Prop) kind key value : P kind → puts_only P (batch_put kind key value).
Proof. done. Qed.
Lemma puts_only_record `{Form A} (P : string → Prop) kind id (a : A) :
  P kind → puts_only P (batch_record kind id a).
Proof. done. Qed.
Lemma puts_only_for_all {A} P (f : A → prog unit) l :
  (∀ a, puts_only P (f a)) → puts_only P (for_all f l).
Proof. intros Hf. induction l as [|a l IH]; [done|]. by apply puts_only_bind. Qed.
Lemma puts_only_weaken {A} (P P' : string → Prop) (p : prog A) :
  (∀ kind, P kind → P' kind) → puts_only P p → puts_only P' p.
Proof. intros HP. induction p; cbn; naive_solver. Qed.

Lemma exec_puts_only {A} P (p : prog A) m a m' :
  puts_only P p → exec p m = Ok (a, m') → ∀ kind key, ¬ P kind → m' !! (kind, key) = m !! (kind, key).
Proof.
  revert m. induction p as [b|e|k key k' IH|k key value k' IH]; intros m Hp; cbn in *; intros E; inv_ok.
  - done.
  - by eapply IH.
  - destruct Hp as [Hk Hp]. intros kind key' Hn.
    rewrite (IH _ Hp E kind key' Hn). destruct value as [v|].
    + rewrite lookup_insert_ne; [done|]. intros [= -> ->]. done.
    + rewrite lookup_delete_ne; [done|]. intros [= -> ->]. done.
Qed.

(** [prog_walk] goes through a program's steps for [puts_only] and [prog_ok]. *)
Ltac prog_walk :=
  repeat first
    [ progress auto with persist nocore
    | solve [cbv beta; apply (bool_decide_unpack _); vm_compute; exact I]
    | apply puts_only_bind; [|intros ?]
    | apply prog_ok_bind; [|intros ?]
    | apply puts_only_for_all; intros ?
    | apply prog_ok_for_all; intros ?
    | apply puts_only_lift | apply puts_only_ret | apply puts_only_read
    | apply prog_ok_lift | exact I
    | progress cbv beta iota zeta
    | match goal with
      | |- puts_only _ (match ?x with _ => _ end) => destruct x
      | |- prog_ok (match ?x with _ => _ end) => destruct x
      end ].

(** ** Running an example *)

(** The records an example leaves, where it returns. *)
Definition left_by {A} (p : prog A) (m : records) : records :=
  match exec p m with Ok (_, m') => m' | Err _ => ∅ end.

(** The example returned [a]: what is computed of it, the records aside. *)
Definition returned {A} (p : prog A) (m : records) : option A :=
  match exec p m with Ok (a, _) => Some a | Err _ => None end.

Lemma exec_returned {A} (p : prog A) m a : returned p m = Some a → exec p m = Ok (a, left_by p m).
Proof. unfold returned, left_by. destruct (exec p m) as [[b m']|e]; [by intros [= ->]|done]. Qed.
