(* ===== verification/Queue.v ===== *)
(** * A queue in the runtime database (src/.src/storage/queue.rs)

    What a paused Subscription holds, what failed, and a node's Dead Message
    Queue are each a queue: entries numbered as they are written, an index
    from what each entry is about to its place, and the queue's places - its
    first, its next and how many it holds.

    The operations are programs over a batch ([Batch.prog]). What a queue is
    to the components above it is [Queue]: its places, its entries by place,
    and what its index says of each thing. [queue_is] says the records stand
    for one, [queue_wf] is its invariant, and each operation is shown to do
    to the records what [placed_at], [taken_out] and [indexed_as] do to the
    queue, and nothing to any other record. *)

From S2P Require Import Prelude Word Engine Store Codec Records Batch.

(** ** The data *)

Record Kinds : Set := {
  k_entry : string; k_by : string; k_places : string; k_table : string; k_index : string
}.

Record Places : Set := { p_first : u64; p_next : u64; p_count : u64 }.

#[export] Instance Places_eq_dec : EqDecision Places.
Proof. solve_decision. Defined.

(** [Places::default]. *)
Definition no_places : Places := {| p_first := wrap 0; p_next := wrap 0; p_count := wrap 0 |}.

Definition write_Places {C : Codec} (p : Places) : bytes :=
  w_u64 (p_first p) ++ w_u64 (p_next p) ++ w_u64 (p_count p).
Definition read_Places {C : Codec} : rd Places :=
  first ← r_u64; next ← r_u64; count ← r_u64;
  mret {| p_first := first; p_next := next; p_count := count |}.
#[export] Instance Places_form {C : Codec} : Form Places :=
  { write := write_Places; fread := read_Places }.
#[export] Instance Places_fits : Fits Places := λ _, True.

#[export] Instance Places_ok {C : Codec} {CO : CodecOk C} : FormOk Places.
Proof.
  intros p l _. cbn [write fread Places_form]. unfold write_Places, read_Places.
  roundtrip. by destruct p.
Qed.

(** Where an entry, a queue's places and the index of an entry are kept. *)
Definition entry_key (queue : u128) (sequence : u64) : bytes := be queue ++ be sequence.
Definition places_key (queue : u128) : bytes := be queue.
Definition by_key (queue about : u128) : bytes := be queue ++ be about.

(** What the index keeps for something in a queue. *)
Inductive Placed : Set := Never | TakenOut | At (sequence : u64).

#[export] Instance Placed_eq_dec : EqDecision Placed.
Proof. solve_decision. Defined.

(** ** The operations *)

Section operations.
Context {C : Codec} (kinds : Kinds).

(** What the bytes kept for a queue's places say. *)
Definition places_of (o : option bytes) : result Places :=
  match o with None => Ok no_places | Some bytes => into (from_bytes bytes) end.

(** [places]. *)
Definition places (queue : u128) : prog Places :=
  o ← batch_read (k_places kinds) (places_key queue); lift (places_of o).

(** [place]: the program's [+= 1] wraps at 64 bits. *)
Definition place (queue about : u128) (entry : u64 → bytes) : prog bool :=
  let by_ := by_key queue about in
  o ← batch_read (k_by kinds) by_;
  if is_some o then mret false
  else
    places ← places queue;
    let sequence := p_next places in
    batch_put (k_entry kinds) (entry_key queue sequence) (Some (entry sequence));;
    batch_put (k_by kinds) by_ (Some (be sequence));;
    let places := {| p_first := p_first places; p_next := wadd (p_next places) 1;
                     p_count := wadd (p_count places) 1 |} in
    batch_put (k_places kinds) (places_key queue) (Some (to_bytes places));;
    mret true.

(** What the bytes the index keeps say. *)
Definition placed_of (o : option bytes) : result Placed :=
  match o with
  | None => Ok Never
  | Some [] => Ok TakenOut
  | Some bytes =>
      match array 8 bytes with
      | Some array => Ok (At (of_be array))
      | None => Err (malformed "a place that is not eight bytes")
      end
  end.

(** [placed]. *)
Definition placed (queue about : u128) : prog Placed :=
  o ← batch_read (k_by kinds) (by_key queue about); lift (placed_of o).

(** [take_out]. *)
Definition take_out (queue : u128) (sequence : u64) : prog (option bytes) :=
  o ← batch_read (k_entry kinds) (entry_key queue sequence);
  match o with
  | None => mret None
  | Some bytes =>
      batch_put (k_entry kinds) (entry_key queue sequence) None;;
      places ← places queue;
      let count := sat_sub (p_count places) 1 in
      let first := if decide (count = wrap 0) then p_next places else p_first places in
      let places := {| p_first := first; p_next := p_next places; p_count := count |} in
      batch_put (k_places kinds) (places_key queue) (Some (to_bytes places));;
      mret (Some bytes)
  end.

(** [forget] and [remember]. *)
Definition forget (queue about : u128) : prog unit :=
  batch_put (k_by kinds) (by_key queue about) None.
Definition remember (queue about : u128) : prog unit :=
  batch_put (k_by kinds) (by_key queue about) (Some []).
End operations.

(** Each puts the queue's own kinds alone. *)
Section puts.
Context {C : Codec} (P : string → Prop) (K : Kinds).
Hypotheses (He : P (k_entry K)) (Hb : P (k_by K)) (Hp : P (k_places K)).

Lemma places_puts q : puts_only P (places K q).
Proof using. unfold places. prog_walk. Qed.
Lemma placed_puts q a : puts_only P (placed K q a).
Proof using. unfold placed. prog_walk. Qed.
Lemma place_puts q a entry : puts_only P (place K q a entry).
Proof. unfold place. pose proof (places_puts q). prog_walk; by apply puts_only_put. Qed.
Lemma take_out_puts q s : puts_only P (take_out K q s).
Proof. unfold take_out. pose proof (places_puts q). prog_walk; by apply puts_only_put. Qed.
Lemma forget_puts q a : puts_only P (forget K q a).
Proof. by apply puts_only_put. Qed.
Lemma remember_puts q a : puts_only P (remember K q a).
Proof. by apply puts_only_put. Qed.
End puts.
#[export] Hint Resolve places_puts placed_puts place_puts take_out_puts forget_puts remember_puts
  puts_only_put puts_only_record : persist.

(** ** What a queue is to the components above *)

Record Queue : Type := {
  q_places : Places;
  q_entries : gmap u64 bytes;
  q_by : gmap u128 (option u64);
}.

Definition empty_queue : Queue := {| q_places := no_places; q_entries := ∅; q_by := ∅ |}.

(** What the index's bytes are for what it says of a thing. *)
Definition by_bytes (o : option u64) : bytes :=
  match o with Some sequence => be sequence | None => [] end.

Record queue_is {C : Codec} (K : Kinds) (R : records) (queue : u128) (Q : Queue) : Prop := {
  is_places : places_of (R !! (k_places K, places_key queue)) = Ok (q_places Q);
  is_entries sequence : R !! (k_entry K, entry_key queue sequence) = q_entries Q !! sequence;
  is_by about : R !! (k_by K, by_key queue about) = by_bytes <$> q_by Q !! about;
}.

(** The invariant: every entry's place is from the first to before the next,
    the count is how many there are, and an empty queue's first is its next.
    Each place the index gives holds an entry, and no two things the same. *)
Record queue_wf (Q : Queue) : Prop := {
  wf_first : (uval (p_first (q_places Q)) ≤ uval (p_next (q_places Q)))%N;
  wf_within sequence : is_Some (q_entries Q !! sequence) →
    (uval (p_first (q_places Q)) ≤ uval sequence < uval (p_next (q_places Q)))%N;
  wf_count : uval (p_count (q_places Q)) = N.of_nat (size (q_entries Q));
  wf_emptied : q_entries Q = ∅ → p_first (q_places Q) = p_next (q_places Q);
}.

(** There is a place after the next: what a queue of [u64] places needs to
    take one more. *)
Definition room (Q : Queue) : Prop := (uval (p_next (q_places Q)) + 1 < bound 8)%N.

(** What each operation does. *)
Definition placed_at (Q : Queue) (about : u128) (entry : u64 → bytes) : Queue :=
  let p := q_places Q in
  {| q_places := {| p_first := p_first p; p_next := wadd (p_next p) 1;
                    p_count := wadd (p_count p) 1 |};
     q_entries := <[p_next p := entry (p_next p)]> (q_entries Q);
     q_by := <[about := Some (p_next p)]> (q_by Q) |}.

Definition taken_out (Q : Queue) (sequence : u64) : Queue :=
  match q_entries Q !! sequence with
  | None => Q
  | Some _ =>
      let p := q_places Q in
      let count := sat_sub (p_count p) 1 in
      {| q_places := {| p_first := if decide (count = wrap 0) then p_next p else p_first p;
                        p_next := p_next p; p_count := count |};
         q_entries := delete sequence (q_entries Q);
         q_by := q_by Q |}
  end.

Definition indexed_as (Q : Queue) (about : u128) (o : option (option u64)) : Queue :=
  {| q_places := q_places Q; q_entries := q_entries Q;
     q_by := match o with Some o => <[about := o]> (q_by Q) | None => delete about (q_by Q) end |}.

(** The kinds of one queue are apart, and each one a place can hold. *)
Record kinds_apart (K : Kinds) : Prop := {
  apart_entry : kind_ok (k_entry K);
  apart_by : kind_ok (k_by K);
  apart_places : kind_ok (k_places K);
  apart_eb : k_entry K ≠ k_by K;
  apart_ep : k_entry K ≠ k_places K;
  apart_bp : k_by K ≠ k_places K;
}.

(** A place in the records that is the queue's own. *)
Definition of_queue (K : Kinds) (queue : u128) (place : string * bytes) : Prop :=
  place = (k_places K, places_key queue) ∨
  (∃ sequence, place = (k_entry K, entry_key queue sequence)) ∨
  (∃ about, place = (k_by K, by_key queue about)).

(** [R'] is [R] but for what is the queue's own. *)
Definition only_queue (K : Kinds) (queue : u128) (R R' : records) : Prop :=
  ∀ place, ¬ of_queue K queue place → R' !! place = R !! place.

#[export] Instance only_queue_preorder K queue : PreOrder (only_queue K queue).
Proof.
  split; [by intros R place|]. intros R R1 R2 H1 H2 place Hp. by rewrite H2, H1.
Qed.

Lemma entry_key_inj q q' s s' : entry_key q s = entry_key q' s' → q = q' ∧ s = s'.
Proof. intros [-> E]%be_app_inj. split; [done|]. by apply be_inj. Qed.
Lemma by_key_inj q q' a a' : by_key q a = by_key q' a' → q = q' ∧ a = a'.
Proof. intros [-> E]%be_app_inj. split; [done|]. by apply be_inj. Qed.
Lemma places_key_inj q q' : places_key q = places_key q' → q = q'.
Proof. apply be_inj. Qed.

(** A place of one kind of a queue is no other's. *)
Lemma of_queue_inv K q kind key : kinds_apart K → of_queue K q (kind, key) →
  kind = k_places K ∧ key = places_key q ∨
  kind = k_entry K ∧ (∃ s, key = entry_key q s) ∨
  kind = k_by K ∧ (∃ a, key = by_key q a).
Proof.
  intros [] [E|[[s E]|[a E]]]; apply pair_equal_spec in E as [-> ->]; eauto.
Qed.

(** Another queue of the same kinds, and a queue of other kinds, keep what
    they are. *)
Lemma queue_is_other {C : Codec} K R R' q q' Q :
  kinds_apart K → only_queue K q R R' → q ≠ q' → queue_is K R q' Q → queue_is K R' q' Q.
Proof.
  intros HK Ho Hne [Hp He Hb]. pose proof HK as [? ? ? ? ? ?].
  split; [|intros s|intros a]; rewrite Ho; auto;
    intros [[? E]|[[? [? E]]|[? [? E]]]]%of_queue_inv; try congruence.
  - by apply places_key_inj in E.
  - by apply entry_key_inj in E as [? _].
  - by apply by_key_inj in E as [? _].
Qed.

(** Queues of kinds that have none in common. *)
Definition kinds_of (K : Kinds) : list string := [k_entry K; k_by K; k_places K].
Definition kinds_disjoint (K K' : Kinds) : Prop := Forall (.∉ kinds_of K') (kinds_of K).

Lemma of_queue_kind K q kind key : of_queue K q (kind, key) → kind ∈ kinds_of K.
Proof.
  unfold kinds_of. intros [E|[[s E]|[a E]]]; apply pair_equal_spec in E as [-> _]; set_solver.
Qed.

Lemma queue_is_apart {C : Codec} K K' R R' q q' Q :
  kinds_disjoint K K' → only_queue K q R R' → queue_is K' R q' Q → queue_is K' R' q' Q.
Proof.
  intros Hd Ho [Hp He Hb]. unfold kinds_disjoint in Hd. rewrite Forall_forall in Hd.
  split; [|intros s|intros a]; rewrite Ho; auto;
    intros Hq%of_queue_kind; apply Hd in Hq; destruct Hq; unfold kinds_of; set_solver.
Qed.

Lemma queue_is_frame {C : Codec} K R R' q Q :
  (∀ place, of_queue K q place → R' !! place = R !! place) → queue_is K R q Q → queue_is K R' q Q.
Proof.
  intros Ho [Hp He Hb]. split; [|intros s|intros a]; rewrite Ho; auto; unfold of_queue; eauto.
Qed.

Lemma record_changed_at (R : records) kind key value place :
  record_change R (kind, key, value) !! place =
  if decide (place = (kind, key)) then value else R !! place.
Proof.
  destruct value as [v|]; cbn; case_decide as E; subst.
  - apply lookup_insert_eq.
  - by apply lookup_insert_ne.
  - apply lookup_delete_eq.
  - by apply lookup_delete_ne.
Qed.

(** One record of a queue changed. *)
Section changes.
Context {C : Codec} {CO : CodecOk C} (K : Kinds) (HK : kinds_apart K).
Implicit Types (R : records) (q : u128) (Q : Queue).

Lemma only_queue_change q R kind key value :
  of_queue K q (kind, key) → only_queue K q R (record_change R (kind, key, value)).
Proof. intros Ho place Hp. rewrite record_changed_at. case_decide; [by subst|done]. Qed.

(** Setting the places, an entry or what the index says. *)
Definition set_places (p : Places) (Q : Queue) : Queue :=
  {| q_places := p; q_entries := q_entries Q; q_by := q_by Q |}.
Definition set_entry (s : u64) (o : option bytes) (Q : Queue) : Queue :=
  {| q_places := q_places Q;
     q_entries := match o with Some b => <[s := b]> (q_entries Q) | None => delete s (q_entries Q) end;
     q_by := q_by Q |}.

Lemma queue_is_places R q Q p : queue_is K R q Q →
  queue_is K (record_change R (k_places K, places_key q, Some (to_bytes p))) q (set_places p Q).
Proof.
  destruct HK. intros [Hp He Hb]. split; [|intros s|intros a]; rewrite record_changed_at.
  - rewrite decide_True by done. cbn. by rewrite (from_to_bytes p).
  - rewrite decide_False by congruence. apply He.
  - rewrite decide_False by congruence. apply Hb.
Qed.

Lemma queue_is_entry R q Q s o : queue_is K R q Q →
  queue_is K (record_change R (k_entry K, entry_key q s, o)) q (set_entry s o Q).
Proof.
  destruct HK. intros [Hp He Hb]. split; [|intros s'|intros a]; rewrite record_changed_at.
  - rewrite decide_False by congruence. apply Hp.
  - destruct (decide (s' = s)) as [->|Hne].
    { rewrite decide_True by done. cbn. destruct o;
        [by rewrite lookup_insert_eq|by rewrite lookup_delete_eq]. }
    rewrite decide_False.
    2: { intros [_ E]%pair_equal_spec. by apply entry_key_inj in E as [_ ?]. }
    rewrite He. cbn. destruct o; [by rewrite lookup_insert_ne|by rewrite lookup_delete_ne].
  - rewrite decide_False by congruence. apply Hb.
Qed.

Lemma queue_is_by R q Q a o : queue_is K R q Q →
  queue_is K (record_change R (k_by K, by_key q a, by_bytes <$> o)) q (indexed_as Q a o).
Proof.
  destruct HK. intros [Hp He Hb]. split; [|intros s|intros a']; rewrite record_changed_at.
  - rewrite decide_False by congruence. apply Hp.
  - rewrite decide_False by congruence. apply He.
  - destruct (decide (a' = a)) as [->|Hne].
    { rewrite decide_True by done. cbn. destruct o;
        [by rewrite lookup_insert_eq|by rewrite lookup_delete_eq]. }
    rewrite decide_False.
    2: { intros [_ E]%pair_equal_spec. by apply by_key_inj in E as [_ ?]. }
    rewrite Hb. cbn. destruct o; [by rewrite lookup_insert_ne|by rewrite lookup_delete_ne].
Qed.

Lemma of_queue_places q : of_queue K q (k_places K, places_key q).
Proof. by left. Qed.
Lemma of_queue_entry q s : of_queue K q (k_entry K, entry_key q s).
Proof. right; left; eauto. Qed.
Lemma of_queue_by q a : of_queue K q (k_by K, by_key q a).
Proof. right; right; eauto. Qed.
End changes.
#[export] Hint Resolve only_queue_change of_queue_places of_queue_entry of_queue_by : persist.

(** ** What each operation does to the records *)

Section specs.
Context {C : Codec} {CO : CodecOk C} (K : Kinds) (HK : kinds_apart K).
Implicit Types (R : records) (q about : u128) (Q : Queue).

(** An operation that left the queue [Q'], and every other record as it was. *)
Definition left_as q R (Q' : Queue) R' : Prop := queue_is K R' q Q' ∧ only_queue K q R R'.

Lemma exec_places R q Q : queue_is K R q Q → exec (places K q) R = Ok (q_places Q, R).
Proof. intros [Hp _ _]. unfold places. rewrite exec_read, Hp. done. Qed.

Lemma exec_places_bind {B} R q Q (f : Places → prog B) :
  queue_is K R q Q → exec (places K q ≫= f) R = exec (f (q_places Q)) R.
Proof. intros H. by rewrite exec_bind, (exec_places _ _ _ H). Qed.

Lemma exec_place R q about entry Q : queue_is K R q Q →
  ∃ R', exec (place K q about entry) R = Ok (negb (is_some (q_by Q !! about)), R') ∧
    left_as q R (if q_by Q !! about then Q else placed_at Q about entry) R'.
Proof.
  intros HQ. unfold place. rewrite exec_read, (is_by _ _ _ _ HQ).
  destruct (q_by Q !! about) as [o|] eqn:E; cbn [is_some fmap option_fmap option_map negb].
  { exists R. by repeat split; destruct HQ. }
  rewrite (exec_places_bind R q Q) by done. rewrite !exec_put.
  eexists; split; [done|]. split.
  - pose proof (queue_is_places K HK _ _ _
      {| p_first := p_first (q_places Q); p_next := wadd (p_next (q_places Q)) 1;
         p_count := wadd (p_count (q_places Q)) 1 |}
      (queue_is_by K HK _ _ _ about (Some (Some (p_next (q_places Q))))
      (queue_is_entry K HK _ _ _ (p_next (q_places Q)) (Some (entry (p_next (q_places Q)))) HQ))) as H.
    exact H.
  - etrans; [|apply only_queue_change; auto with persist].
    etrans; [|apply only_queue_change; auto with persist].
    apply only_queue_change; auto with persist.
Qed.

Lemma placed_of_by (o : option (option u64)) :
  placed_of (by_bytes <$> o) =
  Ok match o with None => Never | Some None => TakenOut | Some (Some s) => At s end.
Proof.
  destruct o as [[s|]|]; [|done..]. cbn [fmap option_fmap option_map by_bytes placed_of].
  destruct (be s) as [|b l] eqn:E.
  { pose proof (length_be s) as H. by rewrite E in H. }
  rewrite <- E. destruct (array 8 (be s)) as [k|] eqn:Ha.
  - apply array_Some in Ha as [-> _]. by rewrite of_be_be.
  - assert (array 8 (be s) = Some (be s)) as Ha' by (apply array_Some; by rewrite length_be).
    congruence.
Qed.

Lemma exec_placed R q about Q : queue_is K R q Q →
  exec (placed K q about) R =
  Ok (match q_by Q !! about with
      | None => Never | Some None => TakenOut | Some (Some s) => At s end, R).
Proof.
  intros HQ. unfold placed. rewrite exec_read, (is_by _ _ _ _ HQ), placed_of_by. done.
Qed.

Lemma exec_take_out R q s Q : queue_is K R q Q →
  ∃ R', exec (take_out K q s) R = Ok (q_entries Q !! s, R') ∧
    left_as q R (taken_out Q s) R'.
Proof.
  intros HQ. unfold take_out, taken_out. rewrite exec_read, (is_entries _ _ _ _ HQ).
  destruct (q_entries Q !! s) as [b|] eqn:E.
  2: { exists R. by repeat split; destruct HQ. }
  rewrite exec_put. pose proof (queue_is_entry K HK _ _ _ s None HQ) as H1.
  rewrite (exec_places_bind _ _ _ _ H1), exec_put. eexists; split; [done|].
  split; [exact (queue_is_places K HK _ _ _ _ H1)|].
  etrans; apply only_queue_change; auto with persist.
Qed.

Lemma exec_forget R q about Q : queue_is K R q Q →
  ∃ R', exec (forget K q about) R = Ok (tt, R') ∧ left_as q R (indexed_as Q about None) R'.
Proof.
  intros HQ. eexists; split; [done|].
  split; [exact (queue_is_by K HK _ _ _ about None HQ)|].
  apply only_queue_change; auto with persist.
Qed.

Lemma exec_remember R q about Q : queue_is K R q Q →
  ∃ R', exec (remember K q about) R = Ok (tt, R') ∧
    left_as q R (indexed_as Q about (Some None)) R'.
Proof.
  intros HQ. eexists; split; [done|].
  split; [exact (queue_is_by K HK _ _ _ about (Some None) HQ)|].
  apply only_queue_change; auto with persist.
Qed.
End specs.

(** ** The invariant is kept *)

Lemma empty_queue_wf : queue_wf empty_queue.
Proof.
  split; cbn; [done| |done|done]. intros s [b Hb]. by rewrite lookup_empty in Hb.
Qed.

Lemma queue_wf_next Q : queue_wf Q → q_entries Q !! p_next (q_places Q) = None.
Proof.
  intros H. apply eq_None_not_Some. intros Hs%(wf_within _ H). lia.
Qed.

(** As many as a queue holds, there are places for. *)
Lemma queue_wf_count Q : queue_wf Q →
  (uval (p_count (q_places Q)) ≤ uval (p_next (q_places Q)) - uval (p_first (q_places Q)))%N.
Proof.
  intros H. rewrite (wf_count _ H).
  set (lo := uval (p_first (q_places Q))). set (hi := uval (p_next (q_places Q))).
  transitivity (N.of_nat (length ((λ i, wrap (lo + N.of_nat i)%N : u64) <$> seq 0 (N.to_nat (hi - lo))))).
  2: { rewrite length_fmap, length_seq. lia. }
  rewrite <- length_map_to_list.
  rewrite <- (length_fmap fst).
  enough ((map_to_list (q_entries Q)).*1 ⊆+ (λ i, wrap (lo + N.of_nat i)%N : u64) <$> seq 0 (N.to_nat (hi - lo)))
    as Hsub%submseteq_length by lia.
  apply NoDup_submseteq; [apply NoDup_fst_map_to_list|].
  intros s ([s' b] & -> & Hs%elem_of_map_to_list)%list_elem_of_fmap. cbn.
  apply (mk_is_Some _ _) in Hs. apply (wf_within _ H) in Hs. fold lo hi in Hs.
  apply list_elem_of_fmap. exists (N.to_nat (uval s' - lo)).
  split; [|apply elem_of_seq; lia].
  rewrite <- (wrap_uval s') at 1. f_equal. lia.
Qed.

Lemma placed_at_wf Q about entry : queue_wf Q → room Q → queue_wf (placed_at Q about entry).
Proof.
  intros H Hr. pose proof (queue_wf_count _ H) as Hc. unfold room in Hr.
  assert (uval (wadd (p_next (q_places Q)) 1) = uval (p_next (q_places Q)) + 1)%N as Hn.
  { by apply uval_wadd. }
  split; cbn.
  - rewrite Hn. pose proof (wf_first _ H). lia.
  - intros s. rewrite Hn. destruct (decide (s = p_next (q_places Q))) as [->|Hne].
    + pose proof (wf_first _ H). lia.
    + rewrite lookup_insert_ne by done. intros Hs%(wf_within _ H). lia.
  - rewrite uval_wadd by lia. rewrite map_size_insert_None by by apply queue_wf_next.
    rewrite (wf_count _ H). lia.
  - intros E. by apply insert_non_empty in E.
Qed.

Lemma taken_out_wf Q s : queue_wf Q → queue_wf (taken_out Q s).
Proof.
  intros H. unfold taken_out. destruct (q_entries Q !! s) as [b|] eqn:E; [|done].
  pose proof (wf_count _ H) as Hc.
  assert (size (q_entries Q) = S (size (delete s (q_entries Q)))) as Hs.
  { rewrite map_size_delete_Some by eauto.
    assert (size (q_entries Q) ≠ 0) by (eapply map_size_ne_0_lookup_2; eauto). lia. }
  assert (uval (sat_sub (p_count (q_places Q)) 1) = N.of_nat (size (delete s (q_entries Q)))) as Hn.
  { rewrite uval_sat_sub. lia. }
  split; cbn.
  - case_decide; [lia|]. apply (wf_first _ H).
  - intros s' Hs'. assert (s' ≠ s) by (intros ->; rewrite lookup_delete_eq in Hs'; by destruct Hs').
    rewrite lookup_delete_ne in Hs' by done. pose proof Hs' as Hw. apply (wf_within _ H) in Hw.
    case_decide as E0; [|done]. exfalso. rewrite E0 in Hn.
    apply uint_eq_iff in E0. rewrite uval_wrap_small in Hn by word_lia.
    assert (size (delete s (q_entries Q)) = 0) as Hz by lia.
    apply map_size_empty_inv in Hz. rewrite map_eq_iff in Hz.
    specialize (Hz s'). rewrite lookup_delete_ne, lookup_empty in Hz by done.
    rewrite Hz in Hs'. by destruct Hs'.
  - done.
  - intros E0. rewrite decide_True; [done|]. apply uint_eq.
    rewrite Hn, E0, map_size_empty, uval_wrap_small; [done|word_lia].
Qed.

Lemma indexed_as_wf Q about o : queue_wf Q → queue_wf (indexed_as Q about o).
Proof. by intros []. Qed.
#[export] Hint Resolve empty_queue_wf placed_at_wf taken_out_wf indexed_as_wf : persist.

(** ** Any sequence of operations *)

(** One operation of a queue, as the components above ask them. *)
Inductive QueueOp : Type :=
  | OpPlace (about : u128) (entry : u64 → bytes)
  | OpTakeOut (sequence : u64)
  | OpForget (about : u128)
  | OpRemember (about : u128).

Definition queue_op {C : Codec} (K : Kinds) (q : u128) (op : QueueOp) : prog unit :=
  match op with
  | OpPlace about entry => place K q about entry;; mret tt
  | OpTakeOut s => take_out K q s;; mret tt
  | OpForget about => forget K q about
  | OpRemember about => remember K q about
  end.

(** What it does to the queue. *)
Definition queue_after (Q : Queue) (op : QueueOp) : Queue :=
  match op with
  | OpPlace about entry => if q_by Q !! about then Q else placed_at Q about entry
  | OpTakeOut s => taken_out Q s
  | OpForget about => indexed_as Q about None
  | OpRemember about => indexed_as Q about (Some None)
  end.

Section sequences.
Context {C : Codec} {CO : CodecOk C} (K : Kinds) (HK : kinds_apart K).

Lemma exec_queue_op R q Q op : queue_is K R q Q →
  ∃ R', exec (queue_op K q op) R = Ok (tt, R') ∧ left_as K q R (queue_after Q op) R'.
Proof.
  intros HQ. destruct op as [about entry|s|about|about]; cbn [queue_op queue_after].
  - destruct (exec_place K HK R q about entry Q HQ) as (R' & E & H).
    exists R'. by rewrite exec_bind, E.
  - destruct (exec_take_out K HK R q s Q HQ) as (R' & E & H).
    exists R'. by rewrite exec_bind, E.
  - by apply exec_forget.
  - by apply exec_remember.
Qed.

Lemma exec_queue_ops R q Q ops : queue_is K R q Q →
  ∃ R', exec (for_all (queue_op K q) ops) R = Ok (tt, R') ∧
    left_as K q R (foldl queue_after Q ops) R'.
Proof.
  revert R Q. induction ops as [|op ops IH]; intros R Q HQ; cbn [for_all foldl].
  { exists R. by split. }
  destruct (exec_queue_op R q Q op HQ) as (R1 & E1 & HQ1 & Ho1).
  destruct (IH R1 _ HQ1) as (R2 & E2 & HQ2 & Ho2).
  exists R2. rewrite exec_bind, E1. cbn. split; [done|]. split; [done|]. by etrans.
Qed.

Lemma queue_after_wf Q op : queue_wf Q → room Q → queue_wf (queue_after Q op).
Proof.
  intros. destruct op as [about entry| | |]; cbn [queue_after]; auto with persist.
  destruct (q_by Q !! about); auto with persist.
Qed.

Lemma queue_after_next Q op : room Q →
  (uval (p_next (q_places (queue_after Q op))) ≤ uval (p_next (q_places Q)) + 1)%N.
Proof.
  unfold room. intros Hr. destruct op as [about entry|s| |]; cbn; [| |lia..].
  - destruct (q_by Q !! about); cbn; [lia|]. by rewrite uval_wadd.
  - unfold taken_out. destruct (q_entries Q !! s); cbn; lia.
Qed.

Lemma queue_ops_wf Q ops : queue_wf Q →
  (uval (p_next (q_places Q)) + N.of_nat (length ops) < bound 8)%N →
  queue_wf (foldl queue_after Q ops).
Proof.
  revert Q. induction ops as [|op ops IH]; intros Q HQ Hn; cbn; [done|].
  cbn [length] in Hn. assert (room Q) by (unfold room; lia).
  apply IH; [by apply queue_after_wf|]. pose proof (queue_after_next Q op ltac:(done)). lia.
Qed.
End sequences.

(** ** A queue's line: what it holds in the order of its places *)

Definition place_le (x y : u64) : Prop := (uval x ≤ uval y)%N.
#[export] Instance place_le_dec : RelDecision place_le.
Proof. intros x y. unfold place_le. apply _. Defined.
#[export] Instance place_le_total : Total place_le.
Proof. intros x y. unfold place_le. lia. Qed.
#[export] Instance place_le_trans : Transitive place_le.
Proof. intros x y z. unfold place_le. lia. Qed.
#[export] Instance place_le_antisymm : AntiSymm (=) place_le.
Proof. intros x y. unfold place_le. intros. apply uint_eq. lia. Qed.

Section line.
Context {A : Type}.
Implicit Types (m : gmap u64 A).

Definition places_in_line m : list u64 := merge_sort place_le (map_to_list m).*1.
Definition in_line m : list A := omap (m !!.) (places_in_line m).

Lemma elem_of_places_in_line m s : s ∈ places_in_line m ↔ is_Some (m !! s).
Proof.
  unfold places_in_line. rewrite merge_sort_Permutation, list_elem_of_fmap. split.
  - intros ([s' a] & -> & H%elem_of_map_to_list). eauto.
  - intros [a H]. exists (s, a). by rewrite elem_of_map_to_list.
Qed.

Lemma places_in_line_sorted m : StronglySorted place_le (places_in_line m).
Proof. apply StronglySorted_merge_sort; apply _. Qed.

Lemma places_in_line_NoDup m : NoDup (places_in_line m).
Proof. unfold places_in_line. rewrite merge_sort_Permutation. apply NoDup_fst_map_to_list. Qed.

Lemma places_in_line_unique m (l : list u64) :
  StronglySorted place_le l → NoDup l → (∀ s, s ∈ l ↔ is_Some (m !! s)) → places_in_line m = l.
Proof.
  intros Hs Hn Hl. eapply StronglySorted_unique; [|apply places_in_line_sorted|done|].
  { apply place_le_antisymm. }
  apply NoDup_Permutation; [apply places_in_line_NoDup|done|].
  intros s. by rewrite elem_of_places_in_line, Hl.
Qed.

Lemma places_in_line_last m n a : (∀ s, is_Some (m !! s) → (uval s < uval n)%N) →
  places_in_line (<[n := a]> m) = places_in_line m ++ [n].
Proof.
  intros Hm. apply places_in_line_unique.
  - apply StronglySorted_app_2; [|apply places_in_line_sorted|by repeat constructor].
    intros x y Hx%elem_of_places_in_line%Hm ->%list_elem_of_singleton. unfold place_le. lia.
  - apply NoDup_app. split; [apply places_in_line_NoDup|]. split; [|apply NoDup_singleton].
    intros x Hx%elem_of_places_in_line%Hm ->%list_elem_of_singleton. lia.
  - intros s. rewrite elem_of_app, elem_of_places_in_line, list_elem_of_singleton.
    destruct (decide (s = n)) as [->|Hne].
    + rewrite lookup_insert_eq. split; [eauto|by right].
    + rewrite lookup_insert_ne by done. naive_solver.
Qed.

Lemma places_in_line_delete m s :
  places_in_line (delete s m) = filter (λ x, x ≠ s) (places_in_line m).
Proof.
  apply places_in_line_unique.
  - apply StronglySorted_filter, places_in_line_sorted.
  - apply NoDup_filter, places_in_line_NoDup.
  - intros x. rewrite list_elem_of_filter, elem_of_places_in_line.
    destruct (decide (x = s)) as [->|Hne].
    + rewrite lookup_delete_eq. split; [by intros []|by intros [? ?]].
    + rewrite lookup_delete_ne by done. naive_solver.
Qed.

Lemma places_in_line_same {B} m (m' : gmap u64 B) :
  (∀ s, is_Some (m !! s) ↔ is_Some (m' !! s)) → places_in_line m = merge_sort place_le (map_to_list m').*1.
Proof.
  intros H. apply places_in_line_unique.
  - apply StronglySorted_merge_sort; apply _.
  - rewrite merge_sort_Permutation. apply NoDup_fst_map_to_list.
  - intros s. rewrite H, merge_sort_Permutation, list_elem_of_fmap. split.
    + intros ([s' a] & -> & Hs%elem_of_map_to_list). eauto.
    + intros [a Hs]. exists (s, a). by rewrite elem_of_map_to_list.
Qed.

Lemma omap_ext_in {B D} (f g : B → option D) (l : list B) :
  (∀ x, x ∈ l → f x = g x) → omap f l = omap g l.
Proof.
  intros H. induction l as [|x l IH]; [done|]. cbn. rewrite (H x) by by left.
  rewrite IH; [done|]. intros. apply H. by right.
Qed.

Lemma in_line_last m n a : (∀ s, is_Some (m !! s) → (uval s < uval n)%N) →
  in_line (<[n := a]> m) = in_line m ++ [a].
Proof.
  intros Hm. unfold in_line. rewrite places_in_line_last, omap_app by done. f_equal.
  - apply omap_ext_in. intros s Hs%elem_of_places_in_line%Hm. apply lookup_insert_ne. intros <-. lia.
  - cbn. by rewrite lookup_insert_eq.
Qed.

Lemma in_line_delete m s :
  in_line (delete s m) = omap (m !!.) (filter (λ x, x ≠ s) (places_in_line m)).
Proof.
  unfold in_line. rewrite places_in_line_delete. apply omap_ext_in.
  intros x [Hx _]%list_elem_of_filter. by apply lookup_delete_ne.
Qed.
End line.

(** ** A queue of records

    What the components keep in a queue is records of one type, each about
    one thing: [keeps Q m] says [Q] holds the records [m], each valid at its
    place, and its index finds the place of each thing held and no other. *)

Section keeps.
Context {C : Codec} {CO : CodecOk C} {A : Type} {FA : Form A} {TA : Fits A} {FO : FormOk A}.
Context (about : A → u128) (valid : u64 → A → Prop).
Implicit Types (Q : Queue) (m : gmap u64 A) (j : u128) (s n : u64) (a : A).

Record keeps Q m : Prop := {
  keeps_wf : queue_wf Q;
  keeps_entries : q_entries Q = to_bytes <$> m;
  keeps_at s a : m !! s = Some a → valid s a ∧ fits a;
  keeps_found j s : q_by Q !! j = Some (Some s) ↔ ∃ a, m !! s = Some a ∧ about a = j;
}.

(** The place of the record about a thing, and the record. *)
Definition find_about j m : option (u64 * A) :=
  snd <$> list_find (λ sa, about sa.2 = j) (map_to_list m).

(** What is held, in the order of its places: each thing it is about. *)
Definition line_of m : list u128 := about <$> in_line m.

Lemma keeps_lookup Q m s : keeps Q m → q_entries Q !! s = to_bytes <$> m !! s.
Proof using. intros H. by rewrite (keeps_entries _ _ H), lookup_fmap. Qed.

Lemma keeps_read Q m s a : keeps Q m → m !! s = Some a → into (from_bytes (to_bytes a)) = Ok a.
Proof using CO FO. intros H Hs. apply (keeps_at _ _ H) in Hs as [_ Hf]. by rewrite from_to_bytes. Qed.

(** A thing holds at most one place. *)
Lemma keeps_one Q m s s' a a' : keeps Q m → m !! s = Some a → m !! s' = Some a' →
  about a = about a' → s = s'.
Proof using.
  intros H Hs Hs' E.
  assert (q_by Q !! about a = Some (Some s)) as H1 by (apply (keeps_found _ _ H); eauto).
  assert (q_by Q !! about a = Some (Some s')) as H2 by (apply (keeps_found _ _ H); eauto).
  congruence.
Qed.

Lemma keeps_absent Q m j : keeps Q m → (∀ s, q_by Q !! j ≠ Some (Some s)) ↔
  ∀ s a, m !! s = Some a → about a ≠ j.
Proof using.
  intros H. split.
  - intros Hn s a Hs Hj. apply (Hn s). apply (keeps_found _ _ H). eauto.
  - intros Hn s Hb. apply (keeps_found _ _ H) in Hb as (a & Hs & Hj). by apply (Hn s a).
Qed.

Lemma keeps_empty : keeps empty_queue ∅.
Proof using.
  split; [apply empty_queue_wf|done| |].
  - intros s a E. by rewrite lookup_empty in E.
  - intros j s. cbn. rewrite lookup_empty. split; [done|].
    intros (a & E & _). by rewrite lookup_empty in E.
Qed.

Lemma keeps_next Q m : keeps Q m → m !! p_next (q_places Q) = None.
Proof using.
  intros H. pose proof (queue_wf_next _ (keeps_wf _ _ H)) as Hn.
  rewrite (keeps_lookup _ m) in Hn by done. by destruct (m !! p_next (q_places Q)).
Qed.

Lemma keeps_before Q m s : keeps Q m → is_Some (m !! s) → (uval s < uval (p_next (q_places Q)))%N.
Proof using.
  intros H [a Hs]. apply (wf_within _ (keeps_wf _ _ H)).
  rewrite (keeps_lookup _ _ _ H), Hs. eauto.
Qed.

(** Placed at the end. *)
Lemma keeps_place Q m j (entry : u64 → A) : keeps Q m → room Q → q_by Q !! j = None →
  valid (p_next (q_places Q)) (entry (p_next (q_places Q))) →
  fits (entry (p_next (q_places Q))) → about (entry (p_next (q_places Q))) = j →
  keeps (placed_at Q j (λ s, to_bytes (entry s)))
    (<[p_next (q_places Q) := entry (p_next (q_places Q))]> m).
Proof using.
  intros H Hr Hb Hv Hf Ha. pose proof (keeps_next _ _ H) as Hm.
  assert (∀ s a, m !! s = Some a → about a ≠ j) as Hj.
  { apply (keeps_absent _ _ _ H). by rewrite Hb. }
  split; cbn.
  - by apply placed_at_wf; [apply H|].
  - by rewrite (keeps_entries _ _ H), fmap_insert.
  - intros s a [[<- <-]|[Hne Hs]]%lookup_insert_Some; [done|by apply H].
  - intros j' s. split.
    + intros [[<- [= <-]]|[Hne Hs]]%lookup_insert_Some.
      { eexists. by rewrite lookup_insert_eq. }
      apply (keeps_found _ _ H) in Hs as (a & Hs & E). exists a.
      rewrite lookup_insert_ne; [done|]. intros <-. by rewrite Hm in Hs.
    + intros (a & [[<- <-]|[Hne Hs]]%lookup_insert_Some & E).
      { subst j j'. by rewrite lookup_insert_eq. }
      rewrite lookup_insert_ne; [apply (keeps_found _ _ H); eauto|].
      intros <-. by destruct (Hj s a).
Qed.

(** Taken out, and forgotten or remembered. *)
Lemma keeps_gone Q m s a o : keeps Q m → m !! s = Some a → o = None ∨ o = Some None →
  keeps (indexed_as (taken_out Q s) (about a) o) (delete s m).
Proof using.
  intros H Hs Ho. pose proof (keeps_lookup _ _ s H) as He. rewrite Hs in He. cbn in He.
  assert (q_by (taken_out Q s) = q_by Q) as Hb by (unfold taken_out; by rewrite He).
  assert (∀ j s', q_by (indexed_as (taken_out Q s) (about a) o) !! j = Some (Some s') ↔
            about a ≠ j ∧ q_by Q !! j = Some (Some s')) as Hi.
  { intros j s'. cbn. rewrite Hb. destruct Ho as [-> | ->].
    - by rewrite lookup_delete_Some.
    - rewrite lookup_insert_Some. naive_solver. }
  split.
  - by apply indexed_as_wf, taken_out_wf, H.
  - cbn. unfold taken_out. rewrite He. cbn. by rewrite (keeps_entries _ _ H), fmap_delete.
  - intros s' a' [_ Hs']%lookup_delete_Some. by apply H.
  - intros j s'. rewrite Hi, (keeps_found _ _ H). split.
    + intros (Hj & a' & Hs' & E). exists a'. rewrite lookup_delete_ne; [done|].
      intros <-. congruence.
    + intros (a' & [Hne Hs']%lookup_delete_Some & E). split; [|eauto].
      intros Ej. destruct Hne. apply (keeps_one Q m s s' a a'); congruence.
Qed.

(** Changed where it is: what it is about kept. *)
Lemma keeps_change Q m s a b : keeps Q m → m !! s = Some a → valid s b → fits b →
  about b = about a → keeps (set_entry s (Some (to_bytes b)) Q) (<[s := b]> m).
Proof using.
  intros H Hs Hv Hf Ea. pose proof (keeps_lookup _ _ s H) as He. rewrite Hs in He. cbn in He.
  split; cbn.
  - destruct (keeps_wf _ _ H) as [H1 H2 H3 H4]. split; cbn; [done| | |].
    + intros s' Hs'. apply H2. destruct (decide (s' = s)) as [->|Hne]; [by rewrite He|].
      by rewrite lookup_insert_ne in Hs'.
    + by rewrite map_size_insert_Some by eauto.
    + intros E. by apply insert_non_empty in E.
  - by rewrite (keeps_entries _ _ H), fmap_insert.
  - intros s' a' [[<- <-]|[Hne Hs']]%lookup_insert_Some; [done|by apply H].
  - intros j s'. rewrite (keeps_found _ _ H). split.
    + intros (a' & Hs' & E). destruct (decide (s' = s)) as [->|Hne].
      * exists b. rewrite lookup_insert_eq, Ea. by simplify_eq.
      * exists a'. by rewrite lookup_insert_ne.
    + intros (a' & [[<- <-]|[Hne Hs']]%lookup_insert_Some & E); [|eauto].
      rewrite Ea in E. eauto.
Qed.

Lemma find_about_Some Q m j s a : keeps Q m →
  find_about j m = Some (s, a) ↔ m !! s = Some a ∧ about a = j.
Proof using.
  intros H. unfold find_about. split.
  - intros ([i [s' a']] & (Hi & Hj & _)%list_find_Some & [= -> ->])%fmap_Some.
    apply list_elem_of_lookup_2, elem_of_map_to_list in Hi. done.
  - intros [Hs Hj]. destruct (list_find _ _) as [[i [s' a']]|] eqn:E; cbn.
    + apply list_find_Some in E as (Hi & Hj' & _).
      apply list_elem_of_lookup_2, elem_of_map_to_list in Hi. cbn in Hj'.
      assert (s = s') as <- by (apply (keeps_one Q m s s' a a'); congruence).
      congruence.
    + apply list_find_None in E. rewrite Forall_forall in E.
      destruct (E (s, a)); [by apply elem_of_map_to_list|done].
Qed.

Lemma find_about_None Q m j : keeps Q m →
  find_about j m = None ↔ ∀ s, q_by Q !! j ≠ Some (Some s).
Proof using.
  intros H. rewrite (keeps_absent _ _ _ H). split.
  - intros Hn s a Hs Hj. assert (find_about j m = Some (s, a)) by by apply (find_about_Some Q).
    congruence.
  - intros Hn. destruct (find_about j m) as [[s a]|] eqn:E; [|done].
    apply (find_about_Some Q) in E as [Hs Hj]; [|done]. by destruct (Hn s a).
Qed.

Lemma find_about_at Q m j s a : keeps Q m → find_about j m = Some (s, a) →
  q_by Q !! j = Some (Some s).
Proof using.
  intros H E. apply (find_about_Some Q) in E as [Hs Hj]; [|done]. apply (keeps_found _ _ H). eauto.
Qed.

(** The line. *)
Lemma elem_of_line Q m j : keeps Q m → j ∈ line_of m ↔ is_Some (find_about j m).
Proof using.
  intros H. unfold line_of, in_line. rewrite list_elem_of_fmap. setoid_rewrite list_elem_of_omap. split.
  - intros (a & -> & s & _ & Hs). exists (s, a). by apply (find_about_Some Q).
  - intros [[s a] Hf]. apply (find_about_Some Q) in Hf as [Hs Hj]; [|done].
    exists a. split; [done|]. exists s. split; [|done]. rewrite elem_of_places_in_line. eauto.
Qed.

Lemma line_gone Q m s a : keeps Q m → m !! s = Some a →
  line_of (delete s m) = filter (λ x, x ≠ about a) (line_of m).
Proof using.
  intros H Hs. unfold line_of. rewrite in_line_delete. unfold in_line.
  assert (∀ x, x ∈ places_in_line m → is_Some (m !! x)) as Hall.
  { intros x. by rewrite elem_of_places_in_line. }
  induction (places_in_line m) as [|x l IH]; [done|].
  specialize (IH (λ y Hy, Hall y (list_elem_of_further _ _ _ Hy))).
  destruct (Hall x) as [a' Hx]; [by left|]. rewrite filter_cons. cbn [omap list_omap].
  rewrite Hx, fmap_cons, filter_cons. case_decide as Hd.
  - rewrite decide_True; [cbn [omap list_omap]; rewrite Hx, fmap_cons; f_equal; exact IH|].
    intros E. destruct Hd. by apply (keeps_one Q m x s a' a).
  - rewrite decide_False; [exact IH|]. intros []. congruence.
Qed.

Lemma line_change m s a b : m !! s = Some a → about b = about a → line_of (<[s := b]> m) = line_of m.
Proof using.
  intros Hs E. unfold line_of, in_line.
  assert (places_in_line (<[s := b]> m) = places_in_line m) as ->.
  { apply places_in_line_unique; [apply places_in_line_sorted|apply places_in_line_NoDup|].
    intros x. rewrite elem_of_places_in_line. destruct (decide (x = s)) as [->|Hne].
    - rewrite lookup_insert_eq, Hs. split; eauto.
    - by rewrite lookup_insert_ne. }
  induction (places_in_line m) as [|x l IH]; [done|]. cbn [omap list_omap].
  destruct (decide (x = s)) as [->|Hne].
  - rewrite lookup_insert_eq, Hs, !fmap_cons. rewrite IH. by f_equal.
  - rewrite lookup_insert_ne by done. destruct (m !! x); [|done]. rewrite !fmap_cons. by f_equal.
Qed.

Lemma line_last Q m n a : keeps Q m → n = p_next (q_places Q) →
  line_of (<[n := a]> m) = line_of m ++ [about a].
Proof using.
  intros H ->. unfold line_of. rewrite in_line_last, fmap_app; [done|].
  intros s. by apply (keeps_before Q m).
Qed.

Lemma line_NoDup Q m : keeps Q m → NoDup (line_of m).
Proof using.
  intros H. unfold line_of, in_line. pose proof (places_in_line_NoDup m) as Hn.
  induction (places_in_line m) as [|x l IH]; [constructor|].
  apply NoDup_cons in Hn as [Hx Hn]. cbn [omap list_omap].
  destruct (m !! x) as [a|] eqn:E; [|auto]. rewrite fmap_cons. constructor; [|auto].
  intros (a' & Ej & (s & Hsl & Hs)%list_elem_of_omap)%list_elem_of_fmap.
  destruct Hx. by rewrite (keeps_one Q m x s a a').
Qed.

(** An entry of the records taken out, and forgotten or remembered. *)
Lemma exec_gone (K : Kinds) (HK : kinds_apart K) R q Q m s a : queue_is K R q Q → keeps Q m →
  m !! s = Some a →
  ∃ R', exec (take_out K q s) R = Ok (Some (to_bytes a), R') ∧
    ∀ o, o = None ∨ o = Some None → ∃ R2,
      exec (batch_put (k_by K) (by_key q (about a)) (by_bytes <$> o)) R' = Ok (tt, R2) ∧
      let Q2 := indexed_as (taken_out Q s) (about a) o in
      queue_is K R2 q Q2 ∧ keeps Q2 (delete s m) ∧ only_queue K q R R2.
Proof using CO.
  intros HQ H Hs.
  destruct (exec_take_out K HK R q s Q HQ) as (R' & E & HQ' & Ho).
  rewrite (keeps_lookup _ _ s H), Hs in E. exists R'. split; [done|]. intros o Hoo.
  eexists. split; [done|]. split; [exact (queue_is_by K HK _ _ _ _ o HQ')|].
  split; [by apply keeps_gone|]. etrans; [exact Ho|]. apply only_queue_change; auto with persist.
Qed.

Lemma taken_out_next Q s : p_next (q_places (taken_out Q s)) = p_next (q_places Q).
Proof using. unfold taken_out. by destruct (q_entries Q !! s). Qed.

(** An entry of the records changed where it is. *)
Lemma exec_changed (K : Kinds) (HK : kinds_apart K) R q Q m s a b : queue_is K R q Q → keeps Q m →
  m !! s = Some a → valid s b → fits b → about b = about a →
  ∃ R', exec (batch_put (k_entry K) (entry_key q s) (Some (to_bytes b))) R = Ok (tt, R') ∧
    let Q' := set_entry s (Some (to_bytes b)) Q in
    queue_is K R' q Q' ∧ keeps Q' (<[s := b]> m) ∧ only_queue K q R R'.
Proof using CO.
  intros HQ H Hs Hv Hf Ha. eexists. split; [done|].
  split; [exact (queue_is_entry K HK R q Q s _ HQ)|].
  split; [by apply (keeps_change Q m s a)|].
  apply only_queue_change. apply (of_queue_entry K).
Qed.
End keeps.

(** Things placed one after another, each new to the queue. *)
Definition placed_all (Q : Queue) (things : list (u128 * (u64 → bytes))) : Queue :=
  foldl (λ Q t, placed_at Q t.1 t.2) Q things.

(** The place [i] after the queue's next. *)
Definition nth_place (Q : Queue) (i : nat) : u64 :=
  wrap (uval (p_next (q_places Q)) + N.of_nat i)%N.

Lemma nth_place_0 Q : nth_place Q 0 = p_next (q_places Q).
Proof. unfold nth_place. by rewrite N.add_0_r, wrap_uval. Qed.

Lemma nth_place_S Q about entry i : room Q →
  nth_place Q (S i) = nth_place (placed_at Q about entry) i.
Proof.
  intros Hr. unfold nth_place. cbn. rewrite uval_wadd by exact Hr. f_equal. lia.
Qed.

(** Placing leaves what is before the next place, and what the index has of
    anything else, as it is. *)
Lemma placed_all_kept Q things :
  (uval (p_next (q_places Q)) + N.of_nat (length things) < bound 8)%N →
  (∀ s, (uval s < uval (p_next (q_places Q)))%N →
     q_entries (placed_all Q things) !! s = q_entries Q !! s) ∧
  (∀ a, a ∉ things.*1 → q_by (placed_all Q things) !! a = q_by Q !! a).
Proof.
  revert Q. induction things as [|[a e] things IH]; intros Q Hn; cbn; [done|].
  cbn [length] in Hn. assert (room Q) as Hr by (unfold room; lia).
  assert (uval (p_next (q_places (placed_at Q a e))) = uval (p_next (q_places Q)) + 1)%N as Hnext
    by by apply uval_wadd.
  destruct (IH (placed_at Q a e)) as [H1 H2]; [lia|]. split.
  - intros s Hs. unfold placed_all in *. rewrite H1 by lia. cbn.
    rewrite lookup_insert_ne; [done|]. intros <-. lia.
  - intros b Hb. unfold placed_all in *. rewrite H2 by set_solver. cbn.
    rewrite lookup_insert_ne; [done|set_solver].
Qed.

Lemma placed_all_lookup Q things i about entry :
  (uval (p_next (q_places Q)) + N.of_nat (length things) < bound 8)%N →
  NoDup things.*1 → things !! i = Some (about, entry) →
  q_entries (placed_all Q things) !! nth_place Q i = Some (entry (nth_place Q i)) ∧
  q_by (placed_all Q things) !! about = Some (Some (nth_place Q i)).
Proof.
  revert Q i. induction things as [|[a e] things IH]; intros Q i Hn Hnd Hi; [done|].
  cbn [length] in Hn. assert (room Q) as Hr by (unfold room; lia).
  assert (uval (p_next (q_places (placed_at Q a e))) = uval (p_next (q_places Q)) + 1)%N as Hnext
    by by apply uval_wadd.
  rewrite fmap_cons in Hnd. apply NoDup_cons in Hnd as [Ha Hnd].
  destruct i as [|i]; cbn in Hi.
  - injection Hi as -> ->. destruct (placed_all_kept (placed_at Q about entry) things) as [H1 H2]; [lia|].
    rewrite nth_place_0. unfold placed_all in *. cbn [foldl fst snd]. rewrite H1, H2 by (lia || done).
    cbn. by rewrite !lookup_insert_eq.
  - rewrite (nth_place_S Q a e) by done. apply (IH (placed_at Q a e)); [lia|done..].
Qed.

Lemma exec_place_all {C : Codec} {CO : CodecOk C} (K : Kinds) (HK : kinds_apart K) R q Q things :
  queue_is K R q Q → NoDup things.*1 → (∀ a, a ∈ things.*1 → q_by Q !! a = None) →
  ∃ R', exec (for_all (λ '(about, entry), place K q about entry;; mret tt) things) R = Ok (tt, R') ∧
    left_as K q R (placed_all Q things) R'.
Proof.
  revert R Q. induction things as [|[a e] things IH]; intros R Q HQ Hnd Hnew.
  { exists R. by split. }
  rewrite fmap_cons in Hnd. apply NoDup_cons in Hnd as [Ha Hnd].
  destruct (exec_place K HK R q a e Q HQ) as (R1 & E1 & HQ1 & Ho1).
  rewrite (Hnew a) in HQ1, E1 by (cbn; set_solver).
  destruct (IH R1 (placed_at Q a e) HQ1 Hnd) as (R' & E & HQ' & Ho').
  { intros b Hb. cbn. rewrite lookup_insert_ne by set_solver. apply Hnew. cbn. set_solver. }
  exists R'. cbn [for_all]. rewrite !exec_bind, E1. split; [exact E|].
  split; [exact HQ'|by etrans].
Qed.

(** The queue of the places the records keep nothing of. *)
Lemma queue_is_nothing {C : Codec} (K : Kinds) (q : u128) (R : records) :
  (∀ place, of_queue K q place → R !! place = None) → queue_is K R q empty_queue.
Proof.
  intros H. split; [|intros s|intros a]; cbn.
  - by rewrite H by by left.
  - rewrite H, lookup_empty; [done|]. right; left; eauto.
  - rewrite H, lookup_empty; [done|]. right; right; eauto.
Qed.

(** The queues of held Messages' kinds, for the worked examples. *)
Definition example_kinds : Kinds :=
  {| k_entry := "held"; k_by := "held-journey"; k_places := "held-places";
     k_table := "held"; k_index := "held_place" |}.
Lemma example_kinds_apart : kinds_apart example_kinds.
Proof. split; try apply (bool_decide_unpack _); by vm_compute. Defined.

(** ** The theorems *)

Module QueueTheorems.
Section theorems.
Context {C : Codec} {CO : CodecOk C}.

(** C15. Whatever is placed, taken out, forgotten or remembered in a
    queue, and in whatever order, every operation returns, and the queue
    it leaves is in order: its entries' places are from its first to
    before its next, its count is how many it holds, an empty queue's
    first is its next, and no record but its own has changed - as long
    as the queue was in order and has places left for what is asked. *)
Theorem queue_stays_in_order (K : Kinds) (R : records) (q : u128) (Q : Queue)
    (ops : list QueueOp) :
  kinds_apart K → queue_is K R q Q → queue_wf Q →
  (uval (p_next (q_places Q)) + N.of_nat (length ops) < bound 8)%N →
  ∃ R' Q', exec (for_all (queue_op K q) ops) R = Ok (tt, R') ∧
    queue_is K R' q Q' ∧ queue_wf Q' ∧ Q' = foldl queue_after Q ops ∧
    only_queue K q R R'.
Proof.
  intros HK HQ Hwf Hn. destruct (exec_queue_ops K HK R q Q ops HQ) as (R' & E & HQ' & Ho).
  exists R', (foldl queue_after Q ops). split; [done|]. split; [done|].
  split; [by apply queue_ops_wf|]. by split.
Qed.

(** What is placed in a queue one after another, each about
    something the queue's index has not got, takes the queue's next
    places in the order it was placed in: the entry of the [i]th is kept
    at [next + i], made from that place, and its index finds it there. *)
Theorem placed_in_order (K : Kinds) (R : records) (q : u128) (Q : Queue)
    (things : list (u128 * (u64 → bytes))) :
  kinds_apart K → queue_is K R q Q → NoDup things.*1 →
  (∀ about, about ∈ things.*1 → q_by Q !! about = None) →
  (uval (p_next (q_places Q)) + N.of_nat (length things) < bound 8)%N →
  ∃ R', exec (for_all (λ '(about, entry), place K q about entry;; mret tt) things) R
      = Ok (tt, R') ∧
    ∀ i about entry, things !! i = Some (about, entry) →
      R' !! (k_entry K, entry_key q (nth_place Q i)) = Some (entry (nth_place Q i)) ∧
      exec (placed K q about) R' = Ok (At (nth_place Q i), R').
Proof.
  intros HK HQ Hnd Hnew Hn.
  destruct (exec_place_all K HK R q Q things HQ Hnd Hnew) as (R' & E & HQ' & _).
  exists R'. split; [done|]. intros i a e Hi.
  destruct (placed_all_lookup Q things i a e Hn Hnd Hi) as [He Hb].
  split; [by rewrite (is_entries _ _ _ _ HQ')|].
  by rewrite (exec_placed K R' q a _ HQ'), Hb.
Qed.

(** Asked again, nothing is done twice: what was placed in a
    queue, or found there, is not placed again whatever it is placed as,
    and what was taken out of it is not taken out again; neither changes
    a record. *)
Theorem asked_again (K : Kinds) (R : records) (q about : u128) (s : u64) (Q : Queue)
    (entry again : u64 → bytes) :
  kinds_apart K → queue_is K R q Q →
  (∃ b R1, exec (place K q about entry) R = Ok (b, R1) ∧
    exec (place K q about again) R1 = Ok (false, R1)) ∧
  (∃ o R1, exec (take_out K q s) R = Ok (o, R1) ∧
    exec (take_out K q s) R1 = Ok (None, R1)).
Proof.
  intros HK HQ. split.
  - destruct (exec_place K HK R q about entry Q HQ) as (R1 & E1 & HQ1 & _).
    eexists _, R1. split; [exact E1|]. unfold place. rewrite exec_read, (is_by _ _ _ _ HQ1).
    destruct (q_by Q !! about) eqn:E; [by rewrite E|]. cbn. by rewrite lookup_insert_eq.
  - destruct (exec_take_out K HK R q s Q HQ) as (R1 & E1 & HQ1 & _).
    eexists _, R1. split; [exact E1|]. unfold take_out. rewrite exec_read, (is_entries _ _ _ _ HQ1).
    unfold taken_out. destruct (q_entries Q !! s) eqn:E; [|by rewrite E].
    cbn. by rewrite lookup_delete_eq.
Qed.
End theorems.

#[local] Existing Instance Plain.codec_ok.

(** A first thing placed, a second, the first taken out and forgotten. *)
Definition example_ops : list QueueOp :=
  [OpPlace (wrap 7) be; OpPlace (wrap 8) be; OpTakeOut (wrap 0); OpForget (wrap 7)].

Lemma queue_stays_in_order_witness :
  ∃ R' Q', exec (for_all (queue_op (C := Plain.codec) example_kinds (wrap 1)) example_ops) ∅ = Ok (tt, R') ∧
    queue_is (C := Plain.codec) example_kinds R' (wrap 1) Q' ∧ queue_wf Q' ∧
    Q' = foldl queue_after empty_queue example_ops ∧
    only_queue example_kinds (wrap 1) ∅ R'.
Proof.
  apply (queue_stays_in_order (C := Plain.codec) example_kinds ∅ (wrap 1) empty_queue).
  - apply example_kinds_apart.
  - apply queue_is_nothing. intros. apply lookup_empty.
  - apply empty_queue_wf.
  - by vm_compute.
Defined.

Definition example_things : list (u128 * (u64 → bytes)) := [(wrap 7, be); (wrap 8, be)].

Lemma placed_in_order_witness :
  ∃ R', exec (for_all (λ '(about, entry),
      place (C := Plain.codec) example_kinds (wrap 1) about entry;; mret tt) example_things) ∅ = Ok (tt, R') ∧
    ∀ i about entry, example_things !! i = Some (about, entry) →
      R' !! (k_entry example_kinds, entry_key (wrap 1) (nth_place empty_queue i))
        = Some (entry (nth_place empty_queue i)) ∧
      exec (placed example_kinds (wrap 1) about) R' = Ok (At (nth_place empty_queue i), R').
Proof.
  apply (placed_in_order (C := Plain.codec) example_kinds ∅ (wrap 1) empty_queue).
  - apply example_kinds_apart.
  - apply queue_is_nothing. intros. apply lookup_empty.
  - apply (bool_decide_unpack _). by vm_compute.
  - intros. apply lookup_empty.
  - by vm_compute.
Defined.

Lemma asked_again_witness :
  (∃ b R1, exec (place (C := Plain.codec) example_kinds (wrap 1) (wrap 7) be) ∅ = Ok (b, R1) ∧
    exec (place (C := Plain.codec) example_kinds (wrap 1) (wrap 7) be) R1 = Ok (false, R1)) ∧
  (∃ o R1, exec (take_out (C := Plain.codec) example_kinds (wrap 1) (wrap 0)) ∅ = Ok (o, R1) ∧
    exec (take_out (C := Plain.codec) example_kinds (wrap 1) (wrap 0)) R1 = Ok (None, R1)).
Proof.
  apply (asked_again (C := Plain.codec) example_kinds ∅ (wrap 1) (wrap 7) (wrap 0) empty_queue be be).
  - apply example_kinds_apart.
  - apply queue_is_nothing. intros. apply lookup_empty.
Defined.
End QueueTheorems.
