(* ===== verification/Hold.v ===== *)
(** * What a queue of Messages holds (src/.src/storage/hold.rs)

    A Message held at its place in a queue - a paused Subscription's, or a
    Send Port's - and the writes that keep it, leave it waiting for a retry,
    mark it failed and let it go. A Message holds at most one place in a
    queue, found by its Journey.

    [holding] says the records stand for a queue of held Messages by place,
    with its invariant: [Queue]'s, that the entry at a place says that place
    and queue, and that the index finds each Journey's place and nothing
    else. Each operation is shown to do to the records what [Line] says it
    does to the line of Messages waiting: to join its end, to leave it, to go
    to its end. *)

From S2P Require Import Prelude Word Engine Store Codec Facts Records Batch Queue.

(** ** The data *)

Record Hold : Set := { h_queue : u128; h_journey : JourneyId; h_body : bytes }.

Record Held : Set := {
  hd_sequence : u64;
  hd_hold : Hold;
  hd_held_unix_nanos : u64;
  hd_failed : bool;
  hd_due_unix_nanos : option i128;
}.

Record HeldQueue : Set := {
  hq_first : u64;
  hq_next : u64;
  hq_count : u64;
  hq_held : list Held;
  hq_read_unix_nanos : i128;
}.

#[export] Instance Hold_eq_dec : EqDecision Hold.
Proof. solve_decision. Defined.
#[export] Instance Held_eq_dec : EqDecision Held.
Proof. solve_decision. Defined.

(** ** Their forms *)

Section forms.
Context {C : Codec}.

Definition write_Hold (h : Hold) : bytes :=
  w_u128 (h_queue h) ++ w_u128 (h_journey h) ++ w_counted (h_body h).
Definition read_Hold : rd Hold :=
  queue ← r_u128; journey ← r_u128; body ← r_counted;
  mret {| h_queue := queue; h_journey := journey; h_body := body |}.
#[export] Instance Hold_form : Form Hold := { write := write_Hold; fread := read_Hold }.

Definition write_Held (h : Held) : bytes :=
  w_u64 (hd_sequence h) ++ write (hd_hold h) ++ w_u64 (hd_held_unix_nanos h) ++
  w_flag (hd_failed h) ++ w_flag (is_some (hd_due_unix_nanos h)) ++
  w_i128 (default (i128_clamp 0) (hd_due_unix_nanos h)).
Definition read_Held : rd Held :=
  sequence ← r_u64; hold ← fread; held ← r_u64; failed ← r_flag;
  waits ← r_flag; due ← r_i128;
  mret {| hd_sequence := sequence; hd_hold := hold; hd_held_unix_nanos := held;
          hd_failed := failed; hd_due_unix_nanos := if waits : bool then Some due else None |}.
#[export] Instance Held_form : Form Held := { write := write_Held; fread := read_Held }.

Definition write_HeldQueue (q : HeldQueue) : bytes :=
  w_u64 (hq_first q) ++ w_u64 (hq_next q) ++ w_u64 (hq_count q) ++
  w_vec write (hq_held q) ++ w_i128 (hq_read_unix_nanos q).
Definition read_HeldQueue : rd HeldQueue :=
  first ← r_u64; next ← r_u64; count ← r_u64; held ← r_vec fread; now ← r_i128;
  mret {| hq_first := first; hq_next := next; hq_count := count; hq_held := held;
          hq_read_unix_nanos := now |}.
#[export] Instance HeldQueue_form : Form HeldQueue :=
  { write := write_HeldQueue; fread := read_HeldQueue }.
End forms.

#[export] Instance Hold_fits : Fits Hold := λ h, counts (h_body h).
#[export] Instance Held_fits : Fits Held := λ h, fits (hd_hold h).
#[export] Instance HeldQueue_fits : Fits HeldQueue := λ q,
  counts (hq_held q) ∧ Forall fits (hq_held q).

#[export] Instance Hold_ok {C : Codec} {CO : CodecOk C} : FormOk Hold.
Proof.
  intros h l Hh. unfold fits, Hold_fits in Hh. cbn [write fread Hold_form].
  unfold write_Hold, read_Hold. roundtrip. by destruct h.
Qed.

#[export] Instance Held_ok {C : Codec} {CO : CodecOk C} : FormOk Held.
Proof.
  intros h l Hh. unfold fits, Held_fits in Hh. cbn [write fread Held_form].
  unfold write_Held, read_Held. roundtrip. by destruct h as [? ? ? ? [|]].
Qed.

#[export] Instance HeldQueue_ok {C : Codec} {CO : CodecOk C} : FormOk HeldQueue.
Proof.
  intros q l [? ?]. cbn [write fread HeldQueue_form].
  unfold write_HeldQueue, read_HeldQueue. roundtrip. by destruct q.
Qed.

(** ** When it is due *)

(** [nanos] (row.rs): a time as a column keeps it, none before the epoch. *)
Definition nanos (time : i128) : u64 := clamp (Z.to_N (Z.max 0 (ival time))).

(** An [i128]'s [-], which wraps around. *)
Definition i128_sub (x y : i128) : i128 :=
  i128_clamp ((ival x - ival y + 2 ^ 127) mod 2 ^ 128 - 2 ^ 127)%Z.

(** [u64::try_from] of an [i128]. *)
Definition u64_of_i128 (x : i128) : option u64 :=
  if (ival x <? 0)%Z then None else checked (Z.to_N (ival x)).

(** [Held::due_in]: in nanoseconds. *)
Definition due_in (h : Held) (read : i128) : option u64 :=
  due ← hd_due_unix_nanos h;
  left ← u64_of_i128 (i128_sub due read);
  if decide (0 < uval left)%N then Some left else None.

(** [HeldQueue::due_in]. *)
Definition queue_due_in (q : HeldQueue) (h : Held) : option u64 :=
  due_in h (hq_read_unix_nanos q).

(** [Held::due_at]. *)
Definition due_at (h : Held) : u64 :=
  match hd_due_unix_nanos h with
  | None => wrap 0
  | Some due => umaxof (nanos due) (wrap 1)
  end.

(** ** Names (RFC 9562) *)

Definition URL_NAMESPACE : u128 := wrap 0x6ba7b8119dad11d180b400c04fd430c8.

(** [version_five], over [codec::sha1::digest]: the version and the variant
    set in the digest's first sixteen bytes. *)
Definition version_five (sha1 : bytes → bytes) (namespace : u128) (name : bytes) : u128 :=
  let digest := sha1 (be namespace ++ name) in
  let set (i : nat) (keep mark : N) (l : bytes) :=
    alter (λ b, byte_of (N.lor (N.land (Byte.to_N b) keep) mark)) i l in
  of_be (set 8 0x3f%N 0x80%N (set 6 0x0f%N 0x50%N (take 16 digest))).

(** [named]. *)
Definition named (sha1 : bytes → bytes) (uri : string) : u128 :=
  version_five sha1 URL_NAMESPACE (String.list_byte_of_string uri).

(** ** The operations *)

Definition HELD : string := "held".
Definition HELD_JOURNEY : string := "held-journey".
Definition PLACES : string := "held-places".

(** [hold::KINDS]. *)
Definition HOLD : Kinds :=
  {| k_entry := HELD; k_by := HELD_JOURNEY; k_places := PLACES;
     k_table := "held"; k_index := "held_place" |}.

Section operations.
Context {C : Codec}.

Definition newly_held (h : Hold) (sequence : u64) : Held :=
  {| hd_sequence := sequence; hd_hold := h; hd_held_unix_nanos := wrap 0;
     hd_failed := false; hd_due_unix_nanos := None |}.

(** [keep]. *)
Definition keep (kept : Hold) : prog unit :=
  place HOLD (h_queue kept) (h_journey kept) (λ sequence, to_bytes (newly_held kept sequence));;
  mret tt.

(** A held Message with a due time, or marked failed or not. *)
Definition set_due (due : i128) (h : Held) : Held :=
  {| hd_sequence := hd_sequence h; hd_hold := hd_hold h;
     hd_held_unix_nanos := hd_held_unix_nanos h; hd_failed := hd_failed h;
     hd_due_unix_nanos := Some due |}.
Definition set_failed (failed : bool) (h : Held) : Held :=
  {| hd_sequence := hd_sequence h; hd_hold := hd_hold h;
     hd_held_unix_nanos := hd_held_unix_nanos h; hd_failed := failed;
     hd_due_unix_nanos := if failed then None else hd_due_unix_nanos h |}.

(** [wait]. *)
Definition wait (queue : u128) (journey : JourneyId) (due : i128) : prog unit :=
  p ← placed HOLD queue journey;
  match p with
  | At sequence =>
      let key := entry_key queue sequence in
      o ← batch_read HELD key;
      match o with
      | None => mret tt
      | Some bytes =>
          held ← lift (into (from_bytes bytes));
          batch_put HELD key (Some (to_bytes (set_due due held)))
      end
  | _ => mret tt
  end.

(** [mark]. *)
Definition mark (queue : u128) (sequence : u64) (failed : bool) : prog unit :=
  let key := entry_key queue sequence in
  o ← batch_read HELD key;
  match o with
  | None => mret tt
  | Some bytes =>
      held ← lift (into (from_bytes bytes));
      if decide (hd_failed held = failed) then mret tt
      else batch_put HELD key (Some (to_bytes (set_failed failed held)))
  end.

(** [let_go]. *)
Definition let_go (queue : u128) (sequence : u64) : prog unit :=
  o ← take_out HOLD queue sequence;
  match o with
  | None => mret tt
  | Some bytes =>
      held ← lift (into (from_bytes bytes : cres Held));
      forget HOLD queue (h_journey (hd_hold held))
  end.

(** [let_go_of]. *)
Definition let_go_of (queue : u128) (journey : JourneyId) : prog unit :=
  p ← placed HOLD queue journey;
  match p with
  | At sequence => let_go queue sequence
  | Never | TakenOut => mret tt
  end.

(** [to_the_end]. *)
Definition to_the_end (queue : u128) (journey : JourneyId) : prog unit :=
  p ← placed HOLD queue journey;
  match p with
  | At sequence =>
      o ← take_out HOLD queue sequence;
      match o with
      | None => mret tt
      | Some bytes =>
          held ← lift (into (from_bytes bytes : cres Held));
          forget HOLD queue journey;;
          keep (hd_hold held)
      end
  | _ => mret tt
  end.
End operations.

(** Each puts the kinds of a queue of held Messages alone. *)
Section puts.
Context {C : Codec} (P : string → Prop).
Hypotheses (He : P HELD) (Hb : P HELD_JOURNEY) (Hp : P PLACES).

Lemma keep_puts h : puts_only P (keep h).
Proof. unfold keep. prog_walk. Qed.
Lemma wait_puts q j due : puts_only P (wait q j due).
Proof. unfold wait. prog_walk. Qed.
Lemma mark_puts q s failed : puts_only P (mark q s failed).
Proof. unfold mark. prog_walk. Qed.
Lemma let_go_of_puts q j : puts_only P (let_go_of q j).
Proof. unfold let_go_of, let_go. prog_walk. Qed.
Lemma to_the_end_puts q j : puts_only P (to_the_end q j).
Proof. unfold to_the_end. pose proof keep_puts. prog_walk. Qed.
End puts.
#[export] Hint Resolve keep_puts wait_puts mark_puts let_go_of_puts to_the_end_puts : persist.

(** ** What the records hold *)

(** The Messages held in a queue, by place. *)
Abbreviation ByPlaceHeld := (gmap u64 Held).

Definition journey_of (h : Held) : JourneyId := h_journey (hd_hold h).

(** A Message held at its own place in its own queue. *)
Definition held_at (q : u128) (s : u64) (h : Held) : Prop :=
  hd_sequence h = s ∧ h_queue (hd_hold h) = q.

(** A queue is one of held Messages, [m]: in order, each entry at its place,
    and the index finding each Journey's place and nothing else. *)
Record holds {C : Codec} (q : u128) (Q : Queue) (m : ByPlaceHeld) : Prop := {
  holds_keeps : keeps journey_of (held_at q) Q m;
  holds_forgot j : q_by Q !! j ≠ Some None;
}.

(** The records stand for one. *)
Definition holding {C : Codec} (R : records) (q : u128) (m : ByPlaceHeld) : Prop :=
  ∃ Q, queue_is HOLD R q Q ∧ holds q Q m.

Lemma HOLD_apart : kinds_apart HOLD.
Proof. split; try apply (bool_decide_unpack _); by vm_compute. Defined.

(** ** What each operation does *)

(** The place a Journey holds, and what is held there. *)
Definition find_journey (j : JourneyId) (m : ByPlaceHeld) : option (u64 * Held) :=
  find_about journey_of j m.

Definition kept_in (n : u64) (kept : Hold) (m : ByPlaceHeld) : ByPlaceHeld :=
  match find_journey (h_journey kept) m with
  | Some _ => m
  | None => <[n := newly_held kept n]> m
  end.
Definition let_gone (j : JourneyId) (m : ByPlaceHeld) : ByPlaceHeld :=
  match find_journey j m with Some (s, _) => delete s m | None => m end.
Definition waiting (j : JourneyId) (due : i128) (m : ByPlaceHeld) : ByPlaceHeld :=
  match find_journey j m with Some (s, h) => <[s := set_due due h]> m | None => m end.
Definition marked (s : u64) (failed : bool) (m : ByPlaceHeld) : ByPlaceHeld :=
  match m !! s with
  | Some h => if decide (hd_failed h = failed) then m else <[s := set_failed failed h]> m
  | None => m
  end.
Definition at_the_end (n : u64) (j : JourneyId) (m : ByPlaceHeld) : ByPlaceHeld :=
  match find_journey j m with
  | Some (s, h) => <[n := newly_held (hd_hold h) n]> (delete s m)
  | None => m
  end.

(** Whether the place next is taken. *)
Definition takes (b : bool) (n : u64) : u64 := if b then wadd n 1 else n.

Section specs.
Context {C : Codec} {CO : CodecOk C}.
Implicit Types (R : records) (q : u128) (Q : Queue) (m : ByPlaceHeld) (j : JourneyId) (s n : u64).

(** What is left: the queue [q] holding [m], its next place [n], and every
    record that is not the queue's as it was. *)
Definition settled q R m n R' : Prop :=
  ∃ Q', queue_is HOLD R' q Q' ∧ holds q Q' m ∧ p_next (q_places Q') = n ∧
    only_queue HOLD q R R'.

Lemma settled_same q Q R m n : queue_is HOLD R q Q → holds q Q m → p_next (q_places Q) = n →
  settled q R m n R.
Proof. intros HQ H Hn. exists Q. split; [exact HQ|]. split; [exact H|]. by split. Qed.

Lemma find_journey_Some q Q m j s h : holds q Q m →
  find_journey j m = Some (s, h) ↔ m !! s = Some h ∧ journey_of h = j.
Proof. intros H. apply (find_about_Some journey_of (held_at q) Q), H. Qed.

Lemma find_journey_by q Q m j : holds q Q m →
  q_by Q !! j = match find_journey j m with Some (s, _) => Some (Some s) | None => None end.
Proof.
  intros [H Hf]. destruct (find_journey j m) as [[s h]|] eqn:E.
  - by apply (find_about_at journey_of (held_at q) Q m j s h).
  - pose proof (proj1 (find_about_None journey_of (held_at q) Q m j H) E) as Hn.
    destruct (q_by Q !! j) as [[s|]|] eqn:Eb; [by destruct (Hn s)| |done]. by destruct (Hf j).
Qed.

Lemma holds_lookup q Q m s : holds q Q m → q_entries Q !! s = to_bytes <$> m !! s.
Proof. intros [H _]. by eapply keeps_lookup. Qed.

Lemma holds_read q Q m s h : holds q Q m → m !! s = Some h →
  into (from_bytes (to_bytes h)) = Ok h.
Proof. intros [H _]. by eapply keeps_read. Qed.

Lemma holds_empty q : holds q empty_queue ∅.
Proof. split; [apply keeps_empty|]. intros j. cbn. by rewrite lookup_empty. Qed.

Lemma holds_keep q Q m (kept : Hold) : holds q Q m → room Q → h_queue kept = q → fits kept →
  q_by Q !! h_journey kept = None →
  holds q (placed_at Q (h_journey kept) (λ s, to_bytes (newly_held kept s)))
    (<[p_next (q_places Q) := newly_held kept (p_next (q_places Q))]> m).
Proof.
  intros [H Hf] Hr Hq Hk Hb. split; [by apply (keeps_place journey_of (held_at q) Q m _ (newly_held kept))|].
  intros j. cbn. intros [[_ E]|[_ E]]%lookup_insert_Some; [done|]. by apply Hf in E.
Qed.

Lemma holds_gone q Q m s h : holds q Q m → m !! s = Some h →
  holds q (indexed_as (taken_out Q s) (journey_of h) None) (delete s m).
Proof.
  intros [H Hf] Hs. split; [apply (keeps_gone journey_of (held_at q) Q m s h None); auto|].
  intros j. cbn. intros [_ E]%lookup_delete_Some. unfold taken_out in E.
  destruct (q_entries Q !! s); by apply Hf in E.
Qed.

Lemma exec_keep R q Q m (kept : Hold) : queue_is HOLD R q Q → holds q Q m → room Q →
  h_queue kept = q → fits kept → let n := p_next (q_places Q) in
  ∃ R', exec (keep kept) R = Ok (tt, R') ∧
    settled q R (kept_in n kept m) (takes (negb (is_some (find_journey (h_journey kept) m))) n) R'.
Proof.
  intros HQ H Hr Hq Hf n. unfold keep.
  destruct (exec_place HOLD HOLD_apart R q (h_journey kept)
    (λ s, to_bytes (newly_held kept s)) Q HQ) as (R' & E & HQ' & Ho).
  exists R'. rewrite Hq, exec_bind, E. split; [done|].
  unfold kept_in. pose proof (find_journey_by q Q m (h_journey kept) H) as Hb.
  rewrite Hb in HQ'. destruct (find_journey (h_journey kept) m) as [[s h]|] eqn:Ef; cbn [is_some negb takes].
  - by exists Q.
  - exists (placed_at Q (h_journey kept) (λ s, to_bytes (newly_held kept s))).
    split; [done|]. split; [by apply holds_keep|]. done.
Qed.

(** Found where the index says, taken out and forgotten. *)
Lemma exec_found_gone R q Q m s h : queue_is HOLD R q Q → holds q Q m → m !! s = Some h →
  ∃ R', exec (take_out HOLD q s) R = Ok (Some (to_bytes h), R') ∧
    ∃ R2, exec (forget HOLD q (journey_of h)) R' = Ok (tt, R2) ∧
      let Q2 := indexed_as (taken_out Q s) (journey_of h) None in
      queue_is HOLD R2 q Q2 ∧ holds q Q2 (delete s m) ∧ only_queue HOLD q R R2.
Proof.
  intros HQ H Hs.
  destruct (exec_gone journey_of (held_at q) HOLD HOLD_apart R q Q m s h HQ (holds_keeps _ _ _ H) Hs) as (R' & E & Ho).
  destruct (Ho None) as (R2 & E2 & HQ2 & H2 & Ho2); [auto|].
  exists R'. split; [exact E|]. exists R2. split; [exact E2|]. split; [exact HQ2|].
  split; [by apply holds_gone|done].
Qed.

Lemma exec_let_go_of R q Q m j : queue_is HOLD R q Q → holds q Q m →
  ∃ R', exec (let_go_of q j) R = Ok (tt, R') ∧
    settled q R (let_gone j m) (p_next (q_places Q)) R'.
Proof.
  intros HQ H. unfold let_go_of, let_gone.
  rewrite exec_bind, (exec_placed HOLD R q j Q HQ), (find_journey_by q Q m j H).
  destruct (find_journey j m) as [[s h]|] eqn:E; cbn [mbind result_bind].
  2: { exists R. split; [done|]. by apply (settled_same q Q). }
  apply (find_journey_Some q Q) in E as [Hs Hj]; [|done]. subst j.
  destruct (exec_found_gone R q Q m s h HQ H Hs) as (R1 & E1 & R2 & E2 & HQ2 & H2 & Ho2).
  exists R2. unfold let_go. rewrite exec_bind, E1. cbn [mbind result_bind].
  rewrite exec_lift, (holds_read _ _ _ _ _ H Hs). split; [exact E2|].
  eexists. split; [exact HQ2|]. split; [exact H2|]. split; [|done]. apply taken_out_next.
Qed.

Lemma exec_to_the_end R q Q m j : queue_is HOLD R q Q → holds q Q m → room Q →
  let n := p_next (q_places Q) in
  ∃ R', exec (to_the_end q j) R = Ok (tt, R') ∧
    settled q R (at_the_end n j m) (takes (is_some (find_journey j m)) n) R'.
Proof.
  intros HQ H Hr n. unfold to_the_end, at_the_end.
  rewrite exec_bind, (exec_placed HOLD R q j Q HQ), (find_journey_by q Q m j H).
  destruct (find_journey j m) as [[s h]|] eqn:E; cbn [mbind result_bind].
  2: { exists R. split; [done|]. by apply (settled_same q Q). }
  apply (find_journey_Some q Q) in E as [Hs Hj]; [|done]. subst j.
  destruct (exec_found_gone R q Q m s h HQ H Hs) as (R1 & E1 & R2 & E2 & HQ2 & H2 & Ho2).
  rewrite exec_bind, E1. cbn [mbind result_bind].
  rewrite exec_lift, (holds_read _ _ _ _ _ H Hs). cbn [mbind result_bind].
  rewrite exec_bind, E2. cbn [mbind result_bind].
  destruct (keeps_at _ _ _ _ (holds_keeps _ _ _ H) _ _ Hs) as [[_ Hq] Hf].
  assert (p_next (q_places (indexed_as (taken_out Q s) (journey_of h) None)) = n) as Hn
    by apply taken_out_next.
  destruct (exec_keep R2 q _ _ (hd_hold h) HQ2 H2) as (R3 & E3 & Q3 & HQ3 & H3 & Hn3 & Ho3); [|done..|].
  { unfold room. by rewrite Hn. }
  assert (find_journey (h_journey (hd_hold h)) (delete s m) = None) as Hnone.
  { destruct (find_journey _ (delete s m)) as [[s' h']|] eqn:E'; [|done].
    apply (find_journey_Some _ _ _ _ _ _ H2) in E' as [[Hne Hs']%lookup_delete_Some Hj].
    destruct Hne. symmetry. by apply (keeps_one journey_of (held_at q) Q m s' s h' h (holds_keeps _ _ _ H)). }
  unfold kept_in in H3. rewrite Hnone, Hn in H3, Hn3.
  exists R3. split; [exact E3|]. exists Q3. split; [done|]. split; [done|]. split; [done|]. by etrans.
Qed.

(** An entry changed where it is. *)
Lemma exec_held_changed R q Q m s h h' : queue_is HOLD R q Q → holds q Q m →
  m !! s = Some h → hd_sequence h' = hd_sequence h → hd_hold h' = hd_hold h →
  ∃ R', exec (batch_put HELD (entry_key q s) (Some (to_bytes h'))) R = Ok (tt, R') ∧
    settled q R (<[s := h']> m) (p_next (q_places Q)) R'.
Proof.
  intros HQ [H Hf] Hs E1 E2. destruct (keeps_at _ _ _ _ H _ _ Hs) as [[Ha1 Ha2] Hfit].
  destruct (exec_changed journey_of (held_at q) HOLD HOLD_apart R q Q m s h h' HQ H Hs)
    as (R' & E & HQ' & H' & Ho).
  - unfold held_at. by rewrite E1, E2.
  - unfold fits, Held_fits in *. by rewrite E2.
  - unfold journey_of. by rewrite E2.
  - exists R'. split; [exact E|]. eexists. split; [exact HQ'|]. split; [by split|]. done.
Qed.

Lemma exec_wait R q Q m j due : queue_is HOLD R q Q → holds q Q m →
  ∃ R', exec (wait q j due) R = Ok (tt, R') ∧
    settled q R (waiting j due m) (p_next (q_places Q)) R'.
Proof.
  intros HQ H. unfold wait, waiting.
  rewrite exec_bind, (exec_placed HOLD R q j Q HQ), (find_journey_by q Q m j H).
  destruct (find_journey j m) as [[s h]|] eqn:E; cbn [mbind result_bind].
  2: { exists R. split; [done|]. by apply (settled_same q Q). }
  apply (find_journey_Some q Q) in E as [Hs Hj]; [|done].
  rewrite exec_read, (is_entries HOLD _ _ _ HQ), (holds_lookup _ _ _ s H), Hs.
  cbn [fmap option_fmap option_map]. rewrite exec_lift, (holds_read _ _ _ _ _ H Hs).
  cbn [mbind result_bind]. by apply (exec_held_changed R q Q m s h).
Qed.

Lemma exec_mark R q Q m s failed : queue_is HOLD R q Q → holds q Q m →
  ∃ R', exec (mark q s failed) R = Ok (tt, R') ∧
    settled q R (marked s failed m) (p_next (q_places Q)) R'.
Proof.
  intros HQ H. unfold mark, marked.
  rewrite exec_read, (is_entries HOLD _ _ _ HQ), (holds_lookup _ _ _ s H).
  destruct (m !! s) as [h|] eqn:Hs; cbn [fmap option_fmap option_map].
  2: { exists R. split; [done|]. by apply (settled_same q Q). }
  rewrite exec_lift, (holds_read _ _ _ _ _ H Hs). cbn [mbind result_bind].
  case_decide.
  { exists R. split; [done|]. by apply (settled_same q Q). }
  by apply (exec_held_changed R q Q m s h).
Qed.
End specs.

(** ** The line of Messages waiting *)

(** The Journeys a queue holds, in the order they are taken up. *)
Definition line (m : ByPlaceHeld) : list JourneyId := line_of journey_of m.

(** One operation on what the queue [q] holds. *)
Inductive HoldOp : Type :=
  | OpKeep (body : bytes) (j : JourneyId)
  | OpWait (j : JourneyId) (due : i128)
  | OpMark (s : u64) (failed : bool)
  | OpLetGo (j : JourneyId)
  | OpToTheEnd (j : JourneyId).

Definition hold_op {C : Codec} (q : u128) (op : HoldOp) : prog unit :=
  match op with
  | OpKeep body j => keep {| h_queue := q; h_journey := j; h_body := body |}
  | OpWait j due => wait q j due
  | OpMark s failed => mark q s failed
  | OpLetGo j => let_go_of q j
  | OpToTheEnd j => to_the_end q j
  end.

Definition op_fits (op : HoldOp) : Prop :=
  match op with OpKeep body _ => counts body | _ => True end.

(** The same, of a line. *)
Definition line_after (l : list JourneyId) (op : HoldOp) : list JourneyId :=
  match op with
  | OpKeep _ j => if decide (j ∈ l) then l else l ++ [j]
  | OpWait _ _ | OpMark _ _ => l
  | OpLetGo j => filter (λ x, x ≠ j) l
  | OpToTheEnd j => if decide (j ∈ l) then filter (λ x, x ≠ j) l ++ [j] else l
  end.

Section line.
Context {C : Codec} {CO : CodecOk C}.
Implicit Types (R : records) (q : u128) (Q : Queue) (m : ByPlaceHeld) (j : JourneyId) (s n : u64).

Lemma elem_of_held_line q Q m j : holds q Q m → j ∈ line m ↔ is_Some (find_journey j m).
Proof. intros H. apply (elem_of_line journey_of (held_at q) Q m j), H. Qed.

(** A Journey kept joins the end of the line, one let go of leaves it. *)
Definition joins (l : list JourneyId) (j : JourneyId) : list JourneyId :=
  if decide (j ∈ l) then l else l ++ [j].

Lemma line_kept_in q Q m (kept : Hold) : holds q Q m →
  line (kept_in (p_next (q_places Q)) kept m) = joins (line m) (h_journey kept).
Proof.
  intros H. unfold kept_in, joins. case_decide as Hd; rewrite (elem_of_held_line q Q) in Hd by done;
    destruct (find_journey (h_journey kept) m) as [[s h]|]; [done| | |].
  - by destruct Hd.
  - destruct Hd. eauto.
  - by rewrite (line_last journey_of (held_at q) Q) by done || apply H.
Qed.

Lemma kept_in_more q Q m (kept : Hold) : holds q Q m → m ⊆ kept_in (p_next (q_places Q)) kept m.
Proof.
  intros H. unfold kept_in. destruct (find_journey _ m) as [[s h]|]; [done|].
  apply insert_subseteq. by apply (keeps_next journey_of (held_at q)), (holds_keeps _ _ _ H).
Qed.

Lemma line_let_gone q Q m j : holds q Q m → line (let_gone j m) = filter (λ x, x ≠ j) (line m).
Proof.
  intros H. unfold let_gone. destruct (find_journey j m) as [[s h]|] eqn:Ef.
  - apply (find_journey_Some q Q) in Ef as [Hm <-]; [|done].
    by apply (line_gone journey_of (held_at q) Q), Hm; apply H.
  - symmetry. apply filter_all. intros x Hx ->. apply (elem_of_held_line q Q) in Hx; [|done].
    rewrite Ef in Hx. by destruct Hx.
Qed.

(** One operation, against the line. *)
Lemma exec_hold_op R q Q m op : queue_is HOLD R q Q → holds q Q m → room Q → op_fits op →
  ∃ R' m' n, exec (hold_op q op) R = Ok (tt, R') ∧ settled q R m' n R' ∧
    line m' = line_after (line m) op ∧ (uval n ≤ uval (p_next (q_places Q)) + 1)%N.
Proof.
  intros HQ H Hr Hf.
  assert (∀ b, (uval (takes b (p_next (q_places Q))) ≤ uval (p_next (q_places Q)) + 1)%N) as Ht.
  { intros []; cbn; [by rewrite uval_wadd|lia]. }
  destruct op as [body j|j due|s failed|j|j]; cbn [hold_op line_after].
  - destruct (exec_keep R q Q m {| h_queue := q; h_journey := j; h_body := body |} HQ H Hr)
      as (R' & E & Hs); [done..|].
    do 3 eexists. split; [exact E|]. split; [exact Hs|]. split; [|apply Ht].
    by rewrite (line_kept_in q Q).
  - destruct (exec_wait R q Q m j due HQ H) as (R' & E & Hs).
    do 3 eexists. split; [exact E|]. split; [exact Hs|]. split; [|lia].
    unfold waiting. destruct (find_journey j m) as [[s h]|] eqn:Ef; [|done].
    apply (find_journey_Some q Q) in Ef as [Hm _]; [|done]. by apply (line_change journey_of m s h).
  - destruct (exec_mark R q Q m s failed HQ H) as (R' & E & Hs).
    do 3 eexists. split; [exact E|]. split; [exact Hs|]. split; [|lia].
    unfold marked. destruct (m !! s) as [h|] eqn:Hm; [|done]. case_decide; [done|].
    by apply (line_change journey_of m s h).
  - destruct (exec_let_go_of R q Q m j HQ H) as (R' & E & Hs).
    do 3 eexists. split; [exact E|]. split; [exact Hs|]. split; [|lia].
    by apply (line_let_gone q Q).
  - destruct (exec_to_the_end R q Q m j HQ H Hr) as (R' & E & Hs).
    do 3 eexists. split; [exact E|]. split; [exact Hs|]. split; [|apply Ht].
    unfold at_the_end. case_decide as Hd; rewrite (elem_of_held_line q Q) in Hd by done;
      destruct (find_journey j m) as [[s h]|] eqn:Ef; [|by destruct Hd|destruct Hd; eauto|done].
    apply (find_journey_Some q Q) in Ef as [Hm <-]; [|done].
    unfold line. rewrite <- (line_gone journey_of (held_at q) Q m s h) by done || apply H.
    rewrite (line_last journey_of (held_at q) (indexed_as (taken_out Q s) (journey_of h) None)); [done| |].
    + by apply holds_gone.
    + symmetry. apply taken_out_next.
Qed.

Lemma exec_hold_ops R q Q m ops : queue_is HOLD R q Q → holds q Q m →
  (uval (p_next (q_places Q)) + N.of_nat (length ops) < bound 8)%N → Forall op_fits ops →
  ∃ R' m' n, exec (for_all (hold_op q) ops) R = Ok (tt, R') ∧ settled q R m' n R' ∧
    line m' = foldl line_after (line m) ops.
Proof.
  revert R Q m. induction ops as [|op ops IH]; intros R Q m HQ H Hn Hf.
  { exists R, m, (p_next (q_places Q)). split; [done|]. split; [|done]. by apply (settled_same q Q). }
  cbn [length] in Hn. apply Forall_cons in Hf as [Hop Hf].
  destruct (exec_hold_op R q Q m op HQ H) as (R1 & m1 & n1 & E1 & (Q1 & HQ1 & H1 & Hn1 & Ho1) & El & Hle);
    [unfold room; lia|done|].
  destruct (IH R1 Q1 m1 HQ1 H1) as (R' & m' & n & E & (Q' & HQ' & H' & Hn' & Ho') & El');
    [subst n1; lia|done|].
  exists R', m', n. cbn [for_all foldl]. rewrite exec_bind, E1, <- El. split; [exact E|].
  split; [|done]. exists Q'. split; [done|]. split; [done|]. split; [done|]. by etrans.
Qed.
End line.

(** ** Due times *)

Lemma uval_nanos t : uval (nanos t) = N.min (Z.to_N (Z.max 0 (ival t))) (bound 8 - 1).
Proof. apply uval_clamp. Qed.

(** The index keeps a due time as it is, the first nanosecond at the least. *)
Lemma due_at_due h due : (0 < ival due < 2 ^ 64)%Z →
  Z.of_N (uval (due_at (set_due due h))) = ival due.
Proof.
  intros Hd. unfold due_at. cbn [hd_due_unix_nanos set_due].
  rewrite uval_umaxof, uval_nanos, uval_wrap_small by word_lia. unfold bound. cbn [N.of_nat]. lia.
Qed.

Lemma ival_sub x y : (i128_min ≤ ival x - ival y ≤ i128_max)%Z →
  ival (i128_sub x y) = (ival x - ival y)%Z.
Proof.
  intros H. unfold i128_sub. unfold i128_min, i128_max in H.
  rewrite Z.mod_small by lia. rewrite ival_clamp. unfold i128_min, i128_max. lia.
Qed.

Lemma due_in_due h due read : (i128_min ≤ ival due - ival read ≤ i128_max)%Z →
  due_in (set_due due h) read =
  if decide (0 < ival due - ival read < 2 ^ 64)%Z
  then Some (wrap (Z.to_N (ival due - ival read))) else None.
Proof.
  intros H. unfold due_in. cbn [hd_due_unix_nanos set_due mbind option_bind].
  unfold u64_of_i128. rewrite ival_sub by done. set (d := (ival due - ival read)%Z) in *.
  destruct (Z.ltb_spec d 0); [by rewrite decide_False by lia|].
  destruct (checked (Z.to_N d)) as [y|] eqn:E; cbn [mbind option_bind].
  - apply checked_Some in E as Ey. pose proof (uval_lt y) as Hy. unfold bound in Hy. cbn [N.of_nat] in Hy.
    rewrite Ey. rewrite wrap_uval.
    destruct (decide (0 < uval y)%N); destruct (decide (0 < d < 2 ^ 64)%Z); try done; lia.
  - apply checked_None in E. unfold bound in E. cbn [N.of_nat] in E. by rewrite decide_False by lia.
Qed.

(** ** The theorems *)

Module HoldTheorems.
Section theorems.
Context {C : Codec} {CO : CodecOk C}.

(** C14. A queue is a line of Messages, each in it once. Whatever is
    kept, left waiting for a retry, marked failed, let go of or moved to
    the end, and in whatever order, each operation returns and does to
    the records what it does to the line: a Message kept joins its end
    unless it is in it already, one let go of leaves it, one moved to
    the end goes behind what waits there, and waiting or failing keeps
    its place. Nothing but the queue's own records changes. *)
Theorem held_in_line (R : records) (q : u128) (Q : Queue) (m : ByPlaceHeld) (ops : list HoldOp) :
  queue_is HOLD R q Q → holds q Q m →
  (uval (p_next (q_places Q)) + N.of_nat (length ops) < bound 8)%N → Forall op_fits ops →
  ∃ R' m', exec (for_all (hold_op q) ops) R = Ok (tt, R') ∧ holding R' q m' ∧
    line m' = foldl line_after (line m) ops ∧ NoDup (line m') ∧ only_queue HOLD q R R'.
Proof.
  intros HQ H Hn Hf.
  destruct (exec_hold_ops R q Q m ops HQ H Hn Hf) as (R' & m' & n & E & (Q' & HQ' & H' & _ & Ho) & El).
  exists R', m'. split; [done|]. split; [by exists Q'|]. split; [done|].
  split; [by apply (line_NoDup journey_of (held_at q) Q'), H'|done].
Qed.

(** A held Message left waiting until [due] is due then and not
    before, as the index keeps it and as a read tells it; marked failed,
    it waits for no retry, and marked failed no longer it waits for none
    either. *)
Theorem waits_until_due (R : records) (q : u128) (Q : Queue) (m : ByPlaceHeld)
    (s : u64) (h : Held) (due : i128) :
  queue_is HOLD R q Q → holds q Q m → m !! s = Some h →
  ∃ R', exec (wait q (journey_of h) due) R = Ok (tt, R') ∧
    holding R' q (<[s := set_due due h]> m) ∧
    (0 < ival due < 2 ^ 64 → Z.of_N (uval (due_at (set_due due h))) = ival due)%Z ∧
    (∀ read, i128_min ≤ ival due - ival read ≤ i128_max →
       due_in (set_due due h) read =
       if decide (0 < ival due - ival read < 2 ^ 64)
       then Some (wrap (Z.to_N (ival due - ival read))) else None)%Z ∧
    (hd_failed h = false →
     ∃ R'', exec (mark q s true;; mark q s false) R' = Ok (tt, R'') ∧
       holding R'' q (<[s := set_failed false (set_failed true (set_due due h))]> m)).
Proof.
  intros HQ H Hs. assert (find_journey (journey_of h) m = Some (s, h)) as Hf
    by by apply (find_journey_Some q Q).
  destruct (exec_wait R q Q m (journey_of h) due HQ H) as (R' & E & Q' & HQ' & H' & _ & _).
  unfold waiting in H'. rewrite Hf in H'.
  exists R'. split; [done|]. split; [by exists Q'|]. split; [apply due_at_due|].
  split; [intros; by apply due_in_due|]. intros Hh.
  destruct (exec_mark R' q Q' _ s true HQ' H') as (R1 & E1 & Q1 & HQ1 & H1 & _ & _).
  unfold marked in H1. rewrite lookup_insert_eq in H1. cbn [hd_failed set_due] in H1.
  rewrite Hh in H1. cbn [decide decide_rel] in H1. rewrite insert_insert_eq in H1.
  destruct (exec_mark R1 q Q1 _ s false HQ1 H1) as (R2 & E2 & Q2 & HQ2 & H2 & _ & _).
  unfold marked in H2. rewrite lookup_insert_eq, insert_insert_eq in H2. 
  exists R2. rewrite exec_bind, E1. split; [exact E2|]. by exists Q2.
Qed.
End theorems.

#[local] Existing Instance Plain.codec_ok.

Definition example_hold : Hold := {| h_queue := wrap 1; h_journey := wrap 7; h_body := [x00] |}.
Definition example_queue : Queue :=
  placed_at empty_queue (wrap 7) (λ s, to_bytes (C := Plain.codec) (newly_held example_hold s)).
Definition example_held : ByPlaceHeld := <[wrap 0 := newly_held example_hold (wrap 0)]> ∅.
(** The records with one Message held. *)
Definition example_records : records :=
  match exec (keep (C := Plain.codec) example_hold) ∅ with Ok (_, R) => R | Err _ => ∅ end.

Lemma example_nothing : queue_is (C := Plain.codec) HOLD ∅ (wrap 1) empty_queue.
Proof. apply queue_is_nothing. intros. apply lookup_empty. Qed.

Lemma example_is : queue_is (C := Plain.codec) HOLD example_records (wrap 1) example_queue.
Proof.
  destruct (exec_place (C := Plain.codec) HOLD HOLD_apart ∅ (wrap 1) (wrap 7)
    (λ s, to_bytes (C := Plain.codec) (newly_held example_hold s)) empty_queue example_nothing)
    as (R & E & HQ & _).
  unfold example_records, keep. rewrite exec_bind. cbn [h_queue h_journey example_hold].
  rewrite E. exact HQ.
Qed.

Lemma example_holds : holds (C := Plain.codec) (wrap 1) example_queue example_held.
Proof.
  apply (holds_keep (C := Plain.codec) (wrap 1) empty_queue ∅ example_hold);
    [apply holds_empty|by vm_compute|done|by vm_compute|apply lookup_empty].
Qed.

Lemma held_in_line_witness :
  let ops := [OpKeep [x01] (wrap 8); OpToTheEnd (wrap 7); OpLetGo (wrap 8)] in
  ∃ R' m', exec (for_all (hold_op (C := Plain.codec) (wrap 1)) ops) example_records = Ok (tt, R') ∧
    holding (C := Plain.codec) R' (wrap 1) m' ∧
    line m' = foldl line_after (line example_held) ops ∧ NoDup (line m') ∧
    only_queue HOLD (wrap 1) example_records R'.
Proof.
  apply (held_in_line (C := Plain.codec) example_records (wrap 1) example_queue example_held).
  - exact example_is.
  - exact example_holds.
  - by vm_compute.
  - by repeat constructor.
Defined.

Lemma waits_until_due_witness :
  ∃ R', exec (wait (C := Plain.codec) (wrap 1) (wrap 7) (i128_clamp 100)) example_records = Ok (tt, R') ∧
    (due_in (set_due (i128_clamp 100) (newly_held example_hold (wrap 0))) (i128_clamp 40) = Some (wrap 60)).
Proof.
  destruct (waits_until_due (C := Plain.codec) example_records (wrap 1) example_queue example_held
    (wrap 0) (newly_held example_hold (wrap 0)) (i128_clamp 100) example_is example_holds)
    as (R' & E & _ & _ & Hd & _).
  - by vm_compute.
  - exists R'. split; [exact E|]. rewrite Hd by (by vm_compute). by vm_compute.
Defined.
End HoldTheorems.
