(* ===== verification/Failed.v ===== *)
(** * The failed Messages of a queue (src/.src/storage/failed.rs)

    A Message left Failed waits in its queue for an operator, its place
    there marked failed, and is entered in the queue's index of failed
    Messages: a queue of its own, numbered in the order they failed. *)

From S2P Require Import Prelude Word Engine Store Codec Facts Records Batch Queue Hold.

(** ** The data *)

Record Failure : Set := { fl_queue : u128; fl_reason : string }.

Record Failed : Set := {
  fd_queue : u128;
  fd_sequence : u64;
  fd_journey : JourneyId;
  fd_place : u64;
  fd_reason : string;
  fd_failed_unix_nanos : i128;
}.

Record FailedQueue : Set := {
  fq_first : u64; fq_next : u64; fq_count : u64; fq_failed : list Failed
}.

#[export] Instance Failure_eq_dec : EqDecision Failure.
Proof. solve_decision. Defined.
#[export] Instance Failed_eq_dec : EqDecision Failed.
Proof. solve_decision. Defined.

Section forms.
Context {C : Codec}.

Definition write_Failure (f : Failure) : bytes := w_u128 (fl_queue f) ++ w_text (fl_reason f).
Definition read_Failure : rd Failure :=
  queue ← r_u128; reason ← r_text; mret {| fl_queue := queue; fl_reason := reason |}.
#[export] Instance Failure_form : Form Failure := { write := write_Failure; fread := read_Failure }.

Definition write_Failed (f : Failed) : bytes :=
  w_u128 (fd_queue f) ++ w_u64 (fd_sequence f) ++ w_u128 (fd_journey f) ++
  w_u64 (fd_place f) ++ w_text (fd_reason f) ++ w_i128 (fd_failed_unix_nanos f).
Definition read_Failed : rd Failed :=
  queue ← r_u128; sequence ← r_u64; journey ← r_u128; place ← r_u64;
  reason ← r_text; failed ← r_i128;
  mret {| fd_queue := queue; fd_sequence := sequence; fd_journey := journey;
          fd_place := place; fd_reason := reason; fd_failed_unix_nanos := failed |}.
#[export] Instance Failed_form : Form Failed := { write := write_Failed; fread := read_Failed }.

Definition write_FailedQueue (q : FailedQueue) : bytes :=
  w_u64 (fq_first q) ++ w_u64 (fq_next q) ++ w_u64 (fq_count q) ++ w_vec write (fq_failed q).
Definition read_FailedQueue : rd FailedQueue :=
  first ← r_u64; next ← r_u64; count ← r_u64; failed ← r_vec fread;
  mret {| fq_first := first; fq_next := next; fq_count := count; fq_failed := failed |}.
#[export] Instance FailedQueue_form : Form FailedQueue :=
  { write := write_FailedQueue; fread := read_FailedQueue }.
End forms.

#[export] Instance Failure_fits : Fits Failure := λ f, counts_text (fl_reason f).
#[export] Instance Failed_fits : Fits Failed := λ f, counts_text (fd_reason f).
#[export] Instance FailedQueue_fits : Fits FailedQueue := λ q,
  counts (fq_failed q) ∧ Forall fits (fq_failed q).

#[export] Instance Failure_ok {C : Codec} {CO : CodecOk C} : FormOk Failure.
Proof.
  intros f l Hf. unfold fits, Failure_fits in Hf. cbn [write fread Failure_form].
  unfold write_Failure, read_Failure. roundtrip. by destruct f.
Qed.
#[export] Instance Failed_ok {C : Codec} {CO : CodecOk C} : FormOk Failed.
Proof.
  intros f l Hf. unfold fits, Failed_fits in Hf. cbn [write fread Failed_form].
  unfold write_Failed, read_Failed. roundtrip. by destruct f.
Qed.
#[export] Instance FailedQueue_ok {C : Codec} {CO : CodecOk C} : FormOk FailedQueue.
Proof.
  intros q l [? ?]. cbn [write fread FailedQueue_form].
  unfold write_FailedQueue, read_FailedQueue. roundtrip. by destruct q.
Qed.

(** ** The operations *)

Definition FAILED : string := "failed-message".

(** [failed::KINDS]. *)
Definition FAILED_KINDS : Kinds :=
  {| k_entry := FAILED; k_by := "failed-message-by-journey";
     k_places := "failed-message-places"; k_table := "failed_message";
     k_index := "failed_message_place" |}.

Section operations.
Context {C : Codec}.

Definition failed_as (journey : JourneyId) (failure : Failure) (place : u64) (now : i128)
    (sequence : u64) : Failed :=
  {| fd_queue := fl_queue failure; fd_sequence := sequence; fd_journey := journey;
     fd_place := place; fd_reason := fl_reason failure; fd_failed_unix_nanos := now |}.

(** [enter]. *)
Definition enter (journey : JourneyId) (failure : Failure) (now : i128) : prog unit :=
  p ← placed HOLD (fl_queue failure) journey;
  match p with
  | At at_ =>
      mark (fl_queue failure) at_ true;;
      place FAILED_KINDS (fl_queue failure) journey
        (λ sequence, to_bytes (failed_as journey failure at_ now sequence));;
      mret tt
  | _ => mret tt
  end.

(** [clear]. *)
Definition clear (queue : u128) (journey : JourneyId) : prog unit :=
  (p ← placed FAILED_KINDS queue journey;
   match p with
   | At sequence => take_out FAILED_KINDS queue sequence;; forget FAILED_KINDS queue journey
   | _ => mret tt
   end);;
  p ← placed HOLD queue journey;
  match p with
  | At at_ => mark queue at_ false
  | _ => mret tt
  end.
End operations.

Section puts.
Context {C : Codec} (P : string → Prop).
Hypotheses (He : P HELD) (Hb : P HELD_JOURNEY) (Hp : P PLACES).
Hypotheses (Fe : P FAILED) (Fb : P (k_by FAILED_KINDS)) (Fp : P (k_places FAILED_KINDS)).

Lemma enter_puts j failure now : puts_only P (enter j failure now).
Proof. unfold enter. prog_walk. Qed.
Lemma clear_puts q j : puts_only P (clear q j).
Proof. unfold clear. prog_walk. Qed.
End puts.
#[export] Hint Resolve enter_puts clear_puts : persist.

(** ** What the records hold *)

Definition failed_at (q : u128) (s : u64) (f : Failed) : Prop := fd_sequence f = s ∧ fd_queue f = q.

(** The index of failed Messages of the queue [q]. *)
Record fails {C : Codec} (q : u128) (F : Queue) (f : gmap u64 Failed) : Prop := {
  fails_keeps : keeps fd_journey (failed_at q) F f;
  fails_forgot j : q_by F !! j ≠ Some None;
}.

(** What is marked failed where it is held is what the index has, and no other. *)
Definition agree (m : ByPlaceHeld) (f : gmap u64 Failed) : Prop :=
  ∀ j, (∃ s h, m !! s = Some h ∧ journey_of h = j ∧ hd_failed h = true) ↔
       (∃ s a, f !! s = Some a ∧ fd_journey a = j).

Lemma FAILED_apart : kinds_apart FAILED_KINDS.
Proof. split; try apply (bool_decide_unpack _); by vm_compute. Defined.
Lemma HOLD_FAILED : kinds_disjoint HOLD FAILED_KINDS.
Proof. apply (bool_decide_unpack _). by vm_compute. Qed.
Lemma FAILED_HOLD : kinds_disjoint FAILED_KINDS HOLD.
Proof. apply (bool_decide_unpack _). by vm_compute. Qed.

Section specs.
Context {C : Codec} {CO : CodecOk C}.
Implicit Types (R : records) (q : u128) (Q F : Queue) (m : ByPlaceHeld) (f : gmap u64 Failed).

Lemma fails_by q F f j : fails q F f →
  q_by F !! j = match find_about fd_journey j f with Some (s, _) => Some (Some s) | None => None end.
Proof.
  intros [H Hf]. destruct (find_about fd_journey j f) as [[s a]|] eqn:E.
  - by apply (find_about_at fd_journey (failed_at q) F f j s a).
  - pose proof (proj1 (find_about_None fd_journey (failed_at q) F f j H) E) as Hn.
    destruct (q_by F !! j) as [[s|]|] eqn:Eb; [by destruct (Hn s)| |done]. by destruct (Hf j).
Qed.

Lemma find_failed_Some q F f j s a : fails q F f →
  find_about fd_journey j f = Some (s, a) ↔ f !! s = Some a ∧ fd_journey a = j.
Proof. intros H. apply (find_about_Some fd_journey (failed_at q) F), H. Qed.

(** A queue and its index of failed Messages, in order and in agreement. *)
Record queues R q Q F m f : Prop := {
  queues_held : queue_is HOLD R q Q;
  queues_holds : holds q Q m;
  queues_failed : queue_is FAILED_KINDS R q F;
  queues_fails : fails q F f;
  queues_agree : agree m f;
}.

(** What an operation on both left. *)
Definition queues_after q R m f R' : Prop :=
  ∃ Q' F', queues R' q Q' F' m f.

Definition entered (n : u64) (j : JourneyId) (failure : Failure) (now : i128)
    (m : ByPlaceHeld) (f : gmap u64 Failed) : ByPlaceHeld * gmap u64 Failed :=
  match find_journey j m with
  | Some (s, _) =>
      (marked s true m,
       match find_about fd_journey j f with
       | Some _ => f
       | None => <[n := failed_as j failure s now n]> f
       end)
  | None => (m, f)
  end.

Lemma marked_lookup m s b s' : marked s b m !! s' =
  if decide (s' = s) then (λ h, if decide (hd_failed h = b) then h else set_failed b h) <$> m !! s'
  else m !! s'.
Proof.
  unfold marked. destruct (decide (s' = s)) as [->|Hne].
  - destruct (m !! s) as [h|] eqn:E; cbn; [|done]. destruct (decide (hd_failed h = b)); [done|].
    by rewrite lookup_insert_eq.
  - destruct (m !! s) as [h|] eqn:E; [|done]. destruct (decide (hd_failed h = b)); [done|].
    by rewrite lookup_insert_ne.
Qed.

Lemma agree_marked q Q m f s h b : holds q Q m → m !! s = Some h → agree m f →
  ∀ j, (∃ s' h', marked s b m !! s' = Some h' ∧ journey_of h' = j ∧ hd_failed h' = true) ↔
    if decide (j = journey_of h) then b = true
    else (∃ s' a, f !! s' = Some a ∧ fd_journey a = j).
Proof.
  intros H Hs Ha j. case_decide as Hj.
  - split.
    + intros (s' & h' & Hm & E & Hf). rewrite marked_lookup in Hm. case_decide as Hss.
      * subst s'. rewrite Hs in Hm. cbn in Hm. injection Hm as <-.
        case_decide; [congruence|exact Hf].
      * destruct Hss. apply (keeps_one journey_of (held_at q) Q m s' s h' h); [apply H|done..|congruence].
    + intros ->. eexists s, _. rewrite marked_lookup, decide_True, Hs by done. cbn.
      split; [done|]. by case_decide.
  - rewrite <- (Ha j). split; intros (s' & h' & Hm & E & Hf).
    + rewrite marked_lookup in Hm. case_decide as Hss; [|eauto]. subst s'.
      rewrite Hs in Hm. cbn in Hm. injection Hm as <-. destruct Hj. rewrite <- E. by case_decide.
    + exists s', h'. rewrite marked_lookup, decide_False; [done|]. intros ->. destruct Hj. congruence.
Qed.

Definition cleared (j : JourneyId) (m : ByPlaceHeld) (f : gmap u64 Failed) :
    ByPlaceHeld * gmap u64 Failed :=
  (match find_journey j m with Some (s, _) => marked s false m | None => m end,
   match find_about fd_journey j f with Some (s, _) => delete s f | None => f end).

(** What is neither the queue's nor its index's is as it was. *)
Definition only_both q R R' : Prop :=
  ∀ place, ¬ of_queue HOLD q place → ¬ of_queue FAILED_KINDS q place → R' !! place = R !! place.

Lemma only_both_held q R R' : only_queue HOLD q R R' → only_both q R R'.
Proof. intros H place ? _. by apply H. Qed.
Lemma only_both_failed q R R' : only_queue FAILED_KINDS q R R' → only_both q R R'.
Proof. intros H place _ ?. by apply H. Qed.
#[export] Instance only_both_preorder q : PreOrder (only_both q).
Proof. split; [by intros R place|]. intros R R1 R2 H1 H2 place Hp Hq. by rewrite H2, H1. Qed.

Lemma agree_entered q Q F m f s h n j failure now : holds q Q m → fails q F f → agree m f →
  m !! s = Some h → journey_of h = j →
  agree (marked s true m)
    match find_about fd_journey j f with
    | Some _ => f
    | None => <[p_next (q_places F) := failed_as j failure n now (p_next (q_places F))]> f
    end.
Proof.
  intros H Hf Ha Hs Hj j'. rewrite (agree_marked q Q m f s h true H Hs Ha), Hj.
  destruct (find_about fd_journey j f) as [[s' a]|] eqn:E.
  - apply (find_failed_Some q F) in E as [Hs' Ej]; [|done]. case_decide; [|done]. subst j'. naive_solver.
  - pose proof (keeps_next _ _ F f (fails_keeps _ _ _ Hf)) as Hn. case_decide as Hd.
    + subst j'. split; [|done]. intros _. eexists _, _. by rewrite lookup_insert_eq.
    + split.
      * intros (s' & a & Hs' & E'). exists s', a. split; [|done]. rewrite lookup_insert_ne; [done|congruence].
      * intros (s' & a & [[<- <-]|[Hne Hs']]%lookup_insert_Some & E'); [by destruct Hd|eauto].
Qed.

Lemma exec_enter R q Q F m f j failure now : queues R q Q F m f → room F →
  fl_queue failure = q → fits failure →
  ∃ R' Q' F', exec (enter j failure now) R = Ok (tt, R') ∧
    (let '(m', f') := entered (p_next (q_places F)) j failure now m f in queues R' q Q' F' m' f') ∧
    (uval (p_next (q_places F')) ≤ uval (p_next (q_places F)) + 1)%N ∧ only_both q R R'.
Proof.
  intros [HQ H HF Hf Ha] Hr Hq Hfit. unfold enter, entered. rewrite Hq.
  rewrite exec_bind, (exec_placed HOLD R q j Q HQ), (find_journey_by q Q m j H).
  destruct (find_journey j m) as [[s h]|] eqn:E; cbn [mbind result_bind].
  2: { exists R, Q, F. split; [done|]. split; [by split|]. split; [lia|done]. }
  apply (find_journey_Some q Q) in E as [Hs Hj]; [|done].
  destruct (exec_mark R q Q m s true HQ H) as (R1 & E1 & Q1 & HQ1 & H1 & _ & Ho1).
  rewrite exec_bind, E1. cbn [mbind result_bind].
  assert (queue_is FAILED_KINDS R1 q F) as HF1 by (by eapply queue_is_apart, HF; [apply HOLD_FAILED|]).
  destruct (exec_place FAILED_KINDS FAILED_apart R1 q j
    (λ n, to_bytes (failed_as j failure s now n)) F HF1) as (R2 & E2 & HF2 & Ho2).
  rewrite exec_bind, E2. cbn [mbind result_bind].
  assert (queue_is HOLD R2 q Q1) as HQ2 by (by eapply queue_is_apart, HQ1; [apply FAILED_HOLD|]).
  exists R2, Q1, (if q_by F !! j then F else placed_at F j (λ n, to_bytes (failed_as j failure s now n))).
  split; [done|]. pose proof (agree_entered q Q F m f s h s j failure now H Hf Ha Hs Hj) as Hag.
  rewrite (fails_by q F f j Hf) in *.
  destruct (find_about fd_journey j f) as [[s' a]|] eqn:E; (split; [|split]).
  - by split.
  - lia.
  - etrans; [by apply only_both_held|by apply only_both_failed].
  - split; [done..| |done]. split.
    + apply (keeps_place fd_journey (failed_at q) F f j (failed_as j failure s now)); try done.
      * apply Hf.
      * by rewrite (fails_by q F f j Hf), E.
    + intros j'. cbn. intros [[_ E']|[_ E']]%lookup_insert_Some; [done|]. by apply (fails_forgot _ _ _ Hf) in E'.
  - cbn. by rewrite uval_wadd.
  - etrans; [by apply only_both_held|by apply only_both_failed].
Qed.

Lemma agree_cleared q Q F m f j : holds q Q m → fails q F f → agree m f →
  agree match find_journey j m with Some (s, _) => marked s false m | None => m end
    match find_about fd_journey j f with Some (s, _) => delete s f | None => f end.
Proof.
  intros H Hf Ha.
  assert (∀ j', (∃ s a, match find_about fd_journey j f with Some (s, _) => delete s f | None => f end
            !! s = Some a ∧ fd_journey a = j') ↔ j' ≠ j ∧ ∃ s a, f !! s = Some a ∧ fd_journey a = j') as Hd.
  { intros j'. destruct (find_about fd_journey j f) as [[s a]|] eqn:E.
    - apply (find_failed_Some q F) in E as [Hs Ej]; [|done]. split.
      + intros (s' & a' & [Hne Hs']%lookup_delete_Some & E'). split; [|eauto]. intros ->.
        destruct Hne. apply (keeps_one fd_journey (failed_at q) F f s s' a a'); [apply Hf|done..|congruence].
      + intros (Hj & s' & a' & Hs' & E'). exists s', a'. rewrite lookup_delete_ne; [done|]. congruence.
    - split; [|by intros [_ ?]]. intros (s & a & Hs & Ej). split; [|eauto]. intros ->.
      assert (find_about fd_journey j f = Some (s, a)) by (by apply (find_failed_Some q F)). congruence. }
  intros j'. rewrite Hd. destruct (find_journey j m) as [[s h]|] eqn:E.
  - apply (find_journey_Some q Q) in E as [Hs Ej]; [|done].
    rewrite (agree_marked q Q m f s h false H Hs Ha), Ej. case_decide; naive_solver.
  - rewrite <- (Ha j'). split; [|by intros [_ ?]]. intros (s & h & Hs & Ej & Hh).
    split; [|eauto]. intros ->.
    assert (find_journey j m = Some (s, h)) by (by apply (find_journey_Some q Q)). congruence.
Qed.

Lemma exec_clear R q Q F m f j : queues R q Q F m f →
  ∃ R' Q' F', exec (clear q j) R = Ok (tt, R') ∧
    (let '(m', f') := cleared j m f in queues R' q Q' F' m' f') ∧
    p_next (q_places F') = p_next (q_places F) ∧ only_both q R R'.
Proof.
  intros [HQ H HF Hf Ha]. unfold clear, cleared.
  assert (∃ R1 F1, exec (p ← placed FAILED_KINDS q j;
      match p with
      | At sequence => take_out FAILED_KINDS q sequence;; forget FAILED_KINDS q j
      | _ => mret tt end) R = Ok (tt, R1) ∧ queue_is FAILED_KINDS R1 q F1 ∧
      fails q F1 (match find_about fd_journey j f with Some (s, _) => delete s f | None => f end) ∧
      p_next (q_places F1) = p_next (q_places F) ∧ only_queue FAILED_KINDS q R R1)
    as (R1 & F1 & E1 & HF1 & Hf1 & Hn1 & Ho1).
  { rewrite exec_bind, (exec_placed FAILED_KINDS R q j F HF), (fails_by q F f j Hf).
    destruct (find_about fd_journey j f) as [[s a]|] eqn:E; cbn [mbind result_bind]; [|by exists R, F].
    apply (find_failed_Some q F) in E as [Hs <-]; [|done].
    destruct (exec_gone fd_journey (failed_at q) FAILED_KINDS FAILED_apart R q F f s a HF
      (fails_keeps _ _ _ Hf) Hs) as (R1 & E1 & Ho).
    destruct (Ho None) as (R2 & E2 & HF2 & Hk2 & Ho2); [auto|].
    exists R2. eexists. rewrite exec_bind, E1. split; [exact E2|]. split; [exact HF2|].
    split; [split; [exact Hk2|]|split; [apply taken_out_next|done]].
    intros j'. cbn. intros [_ E']%lookup_delete_Some. unfold taken_out in E'.
    destruct (q_entries F !! s); by apply (fails_forgot _ _ _ Hf) in E'. }
  rewrite exec_bind, E1. cbn [mbind result_bind].
  assert (queue_is HOLD R1 q Q) as HQ1 by (by eapply queue_is_apart, HQ; [apply FAILED_HOLD|]).
  pose proof (agree_cleared q Q F m f j H Hf Ha) as Hag.
  rewrite exec_bind, (exec_placed HOLD R1 q j Q HQ1), (find_journey_by q Q m j H).
  destruct (find_journey j m) as [[s h]|] eqn:E; cbn [mbind result_bind].
  2: { exists R1, Q, F1. split; [done|]. split; [by split|]. split; [done|by apply only_both_failed]. }
  destruct (exec_mark R1 q Q m s false HQ1 H) as (R2 & E2 & Q2 & HQ2 & H2 & _ & Ho2).
  exists R2, Q2, F1. split; [exact E2|]. split; [|split; [done|]].
  - split; try done. by eapply queue_is_apart, HF1; [apply HOLD_FAILED|].
  - etrans; [by apply only_both_failed|by apply only_both_held].
Qed.
End specs.

(** ** The theorems *)

(** One operation on the failed Messages of the queue [q]. *)
Inductive FailOp : Type :=
  | OpEnter (j : JourneyId) (reason : string) (now : i128)
  | OpClear (j : JourneyId).

Definition fail_op {C : Codec} (q : u128) (op : FailOp) : prog unit :=
  match op with
  | OpEnter j reason now => enter j {| fl_queue := q; fl_reason := reason |} now
  | OpClear j => clear q j
  end.

Definition fail_op_fits (op : FailOp) : Prop :=
  match op with OpEnter _ reason _ => counts_text reason | OpClear _ => True end.

(** What it does to the Messages held and to the index. *)
Definition fail_after (q : u128) (n : u64) (op : FailOp) (m : ByPlaceHeld) (f : gmap u64 Failed) :=
  match op with
  | OpEnter j reason now => entered n j {| fl_queue := q; fl_reason := reason |} now m f
  | OpClear j => cleared j m f
  end.

Lemma exec_fail_op {C : Codec} {CO : CodecOk C} R q Q F m f op :
  queues R q Q F m f → room F → fail_op_fits op →
  ∃ R' Q' F', exec (fail_op q op) R = Ok (tt, R') ∧
    (let '(m', f') := fail_after q (p_next (q_places F)) op m f in queues R' q Q' F' m' f') ∧
    (uval (p_next (q_places F')) ≤ uval (p_next (q_places F)) + 1)%N ∧ only_both q R R'.
Proof.
  intros H Hr Hf. destruct op as [j reason now|j]; cbn [fail_op fail_after].
  - by apply (exec_enter R q Q F m f).
  - destruct (exec_clear R q Q F m f j H) as (R' & Q' & F' & E & Hq & Hn & Ho).
    exists R', Q', F'. split; [done|]. split; [done|]. split; [rewrite Hn; lia|done].
Qed.

Module FailedTheorems.
Section theorems.
Context {C : Codec} {CO : CodecOk C}.

(** The Messages marked failed in a queue and the queue's
    index of failed Messages never disagree: whatever Messages are
    entered as failed and cleared, and in whatever order, each operation
    returns, a Message is marked failed at its place exactly where the
    index has an entry about it, the index's count is how many there
    are, and no other record changes. *)
Theorem failed_index_agrees (R : records) (q : u128) (Q F : Queue) (m : ByPlaceHeld)
    (f : gmap u64 Failed) (ops : list FailOp) :
  queues R q Q F m f → Forall fail_op_fits ops →
  (uval (p_next (q_places F)) + N.of_nat (length ops) < bound 8)%N →
  ∃ R' Q' F' m' f', exec (for_all (fail_op q) ops) R = Ok (tt, R') ∧
    queues R' q Q' F' m' f' ∧ agree m' f' ∧
    exec (places FAILED_KINDS q) R' = Ok (q_places F', R') ∧
    uval (p_count (q_places F')) = N.of_nat (size f') ∧ only_both q R R'.
Proof.
  revert R Q F m f. induction ops as [|op ops IH]; intros R Q F m f H Hf Hn.
  - exists R, Q, F, m, f. split; [done|]. split; [done|]. split; [apply H|].
    split; [apply (exec_places FAILED_KINDS), H|]. split; [|done].
    rewrite (wf_count _ (keeps_wf _ _ _ _ (fails_keeps _ _ _ (queues_fails _ _ _ _ _ _ H)))).
    by rewrite (keeps_entries _ _ _ _ (fails_keeps _ _ _ (queues_fails _ _ _ _ _ _ H))), map_size_fmap.
  - apply Forall_cons in Hf as [Hop Hf]. cbn [length] in Hn.
    destruct (exec_fail_op R q Q F m f op H) as (R1 & Q1 & F1 & E1 & H1 & Hn1 & Ho1);
      [unfold room; lia|done|].
    destruct (fail_after q (p_next (q_places F)) op m f) as [m1 f1].
    destruct (IH R1 Q1 F1 m1 f1 H1 Hf) as (R' & Q' & F' & m' & f' & E & H' & Ha & Hp & Hc & Ho); [lia|].
    exists R', Q', F', m', f'. cbn [for_all]. rewrite exec_bind, E1. split; [exact E|].
    do 4 (split; [done|]). by etrans.
Qed.

(** A held Message entered as failed at Xmip Storage's now is
    marked failed where it is held, waits for no retry, and is in the
    index once, at the end of it, with its place, its reason and that
    now; cleared, the mark and the entry are gone. *)
Theorem entered_then_cleared (R : records) (q : u128) (Q F : Queue) (m : ByPlaceHeld)
    (f : gmap u64 Failed) (s : u64) (h : Held) (reason : string) (now : i128) :
  queues R q Q F m f → room F → counts_text reason →
  m !! s = Some h → hd_failed h = false →
  let j := journey_of h in
  let n := p_next (q_places F) in
  let failure := {| fl_queue := q; fl_reason := reason |} in
  ∃ R', exec (enter j failure now) R = Ok (tt, R') ∧
    R' !! (HELD, entry_key q s) = Some (to_bytes (set_failed true h)) ∧
    R' !! (FAILED, entry_key q n) = Some (to_bytes (failed_as j failure s now n)) ∧
    exec (placed FAILED_KINDS q j) R' = Ok (At n, R') ∧
    ∃ R'', exec (clear q j) R' = Ok (tt, R'') ∧
      R'' !! (HELD, entry_key q s) = Some (to_bytes (set_failed false (set_failed true h))) ∧
      R'' !! (FAILED, entry_key q n) = None ∧
      exec (placed FAILED_KINDS q j) R'' = Ok (Never, R'').
Proof.
  intros H Hr Hc Hs Hh j n failure. pose proof H as [HQ Hm HF Hf Ha].
  destruct (exec_enter R q Q F m f j failure now H Hr eq_refl Hc) as (R' & Q' & F' & E & H' & _ & _).
  assert (find_journey j m = Some (s, h)) as Ej by by apply (find_journey_Some q Q).
  assert (find_about fd_journey j f = None) as Ef.
  { destruct (find_about fd_journey j f) as [[s' a]|] eqn:E'; [|done].
    apply (find_failed_Some q F) in E' as [Hs' Ha']; [|done].
    destruct (proj2 (Ha j)) as (s2 & h2 & Hs2 & Hj2 & Hh2); [by eauto|].
    assert (s = s2) as <- by (apply (keeps_one journey_of (held_at q) Q m s s2 h h2); [apply Hm|done..]).
    congruence. }
  assert (marked s true m = <[s := set_failed true h]> m) as Em.
  { unfold marked. rewrite Hs, decide_False by congruence. done. }
  unfold entered in H'. rewrite Ej, Ef, Em in H'. fold n in H'.
  exists R'. split; [exact E|].
  destruct (exec_clear R' q Q' F' _ _ j H') as (R'' & Q'' & F'' & E' & H'' & _ & _).
  assert (find_journey j (<[s := set_failed true h]> m) = Some (s, set_failed true h)) as Ej'.
  { apply (find_journey_Some q Q'); [apply H'|]. by rewrite lookup_insert_eq. }
  assert (find_about fd_journey j (<[n := failed_as j failure s now n]> f)
          = Some (n, failed_as j failure s now n)) as Ef'.
  { apply (find_failed_Some q F'); [apply H'|]. by rewrite lookup_insert_eq. }
  unfold cleared in H''. rewrite Ej', Ef' in H''.
  destruct H' as [HQ' Hm' HF' Hf' _], H'' as [HQ'' Hm'' HF'' Hf'' _].
  rewrite (is_entries HOLD _ _ _ HQ'), (holds_lookup q Q' _ _ Hm'), lookup_insert_eq.
  rewrite (is_entries FAILED_KINDS _ _ _ HF'), (keeps_lookup _ _ _ _ _ (fails_keeps _ _ _ Hf')), lookup_insert_eq.
  rewrite (exec_placed FAILED_KINDS _ _ _ _ HF'), (fails_by q F' _ _ Hf'), Ef'.
  do 3 (split; [done|]). exists R''. split; [exact E'|].
  rewrite (is_entries HOLD _ _ _ HQ''), (holds_lookup q Q'' _ _ Hm''), marked_lookup, decide_True,
    lookup_insert_eq by done.
  rewrite (is_entries FAILED_KINDS _ _ _ HF''), (keeps_lookup _ _ _ _ _ (fails_keeps _ _ _ Hf'')), lookup_delete_eq.
  split; [done|]. split; [done|].
  rewrite (exec_placed FAILED_KINDS _ _ _ _ HF''), (fails_by q F'' _ _ Hf'').
  destruct (find_about fd_journey j (delete n _)) as [[s' a]|] eqn:E2; [|done].
  apply (find_failed_Some q F'') in E2 as [[Hne Hs']%lookup_delete_Some Ha']; [|done].
  rewrite lookup_insert_ne in Hs' by done.
  assert (find_about fd_journey j f = Some (s', a)) by by apply (find_failed_Some q F). congruence.
Qed.
End theorems.

#[local] Existing Instance Plain.codec_ok.
Import HoldTheorems.

Lemma example_queues :
  queues (C := Plain.codec) example_records (wrap 1) example_queue empty_queue example_held ∅.
Proof.
  split; [exact example_is|exact example_holds| | |].
  - destruct (exec_place (C := Plain.codec) HOLD HOLD_apart ∅ (wrap 1) (wrap 7)
      (λ s, to_bytes (C := Plain.codec) (newly_held example_hold s)) empty_queue example_nothing)
      as (R & E & _ & Ho).
    replace example_records with R.
    + eapply queue_is_apart; [apply HOLD_FAILED|exact Ho|]. apply queue_is_nothing.
      intros. apply lookup_empty.
    + unfold example_records, keep. rewrite exec_bind. cbn [h_queue h_journey example_hold].
      by rewrite E.
  - split; [apply keeps_empty|]. intros j. cbn. by rewrite lookup_empty.
  - intros j. split.
    + intros (s & h & Hs & _ & Hh). unfold example_held in Hs.
      apply lookup_insert_Some in Hs as [[<- <-]|[_ Hs]]; [done|]. by rewrite lookup_empty in Hs.
    + intros (s & a & Hs & _). by rewrite lookup_empty in Hs.
Qed.

Lemma failed_index_agrees_witness :
  ∃ R' Q' F' m' f', exec (for_all (fail_op (C := Plain.codec) (wrap 1))
      [OpEnter (wrap 7) "refused" (i128_clamp 5)]) example_records = Ok (tt, R') ∧
    queues (C := Plain.codec) R' (wrap 1) Q' F' m' f' ∧ agree m' f' ∧
    exec (places (C := Plain.codec) FAILED_KINDS (wrap 1)) R' = Ok (q_places F', R') ∧
    uval (p_count (q_places F')) = N.of_nat (size f') ∧ only_both (wrap 1) example_records R'.
Proof.
  apply (failed_index_agrees (C := Plain.codec) example_records (wrap 1) example_queue empty_queue
    example_held ∅).
  - exact example_queues.
  - by repeat constructor.
  - by vm_compute.
Defined.

Lemma entered_then_cleared_witness :
  ∃ R', exec (enter (C := Plain.codec) (wrap 7) {| fl_queue := wrap 1; fl_reason := "refused" |}
      (i128_clamp 5)) example_records = Ok (tt, R') ∧
    exec (placed FAILED_KINDS (wrap 1) (wrap 7)) R' = Ok (At (wrap 0), R').
Proof.
  destruct (entered_then_cleared (C := Plain.codec) example_records (wrap 1) example_queue empty_queue
    example_held ∅ (wrap 0) (newly_held example_hold (wrap 0)) "refused" (i128_clamp 5) example_queues)
    as (R' & E & _ & _ & Hp & _).
  - by vm_compute.
  - by vm_compute.
  - by vm_compute.
  - done.
  - exists R'. split; [exact E|exact Hp].
Defined.
End FailedTheorems.
