(* ===== verification/Origin.v ===== *)
(** * A place held for many Messages at once (src/.src/storage/origin.rs)

    A Stream's place in the sequences it holds, and a Send Port Group
    delivery's in the Group's, is held by one holder until the last of its
    Journeys closes: the holder's count of open Journeys and the queues it
    holds a place in are one record, moved in the write of each Journey. *)

From S2P Require Import Prelude Word Engine Store Codec Facts Records Batch Queue Hold.

Definition JOURNEY : string := "journey".
Definition ORIGIN : string := "sequence-origin".

Record Origin : Set := { o_open : u32; o_queues : list u128 }.

#[export] Instance Origin_eq_dec : EqDecision Origin.
Proof. solve_decision. Defined.

Definition write_Origin {C : Codec} (o : Origin) : bytes := w_u32 (o_open o) ++ write_ids (o_queues o).
Definition read_Origin {C : Codec} : rd Origin :=
  open ← r_u32; queues ← read_ids; mret {| o_open := open; o_queues := queues |}.
#[export] Instance Origin_form {C : Codec} : Form Origin := { write := write_Origin; fread := read_Origin }.
#[export] Instance Origin_fits : Fits Origin := λ o, counts (o_queues o).

#[export] Instance Origin_ok {C : Codec} {CO : CodecOk C} : FormOk Origin.
Proof.
  intros o l Ho. unfold fits, Origin_fits in Ho. cbn [write fread Origin_form].
  unfold write_Origin, read_Origin. roundtrip. by destruct o.
Qed.

(** [holders]: the holders a Journey counts toward, each with whether it
    keeps it open. *)
Definition holders (record : JourneyRecord) : (option u128 * bool) * (option u128 * bool) :=
  let facts := j_facts record in
  ((jf_origin facts, jf_open facts), (jf_group_delivery facts, jf_group_open facts)).

Section operations.
Context {C : Codec}.

(** The queues [places] holds [holder] a place in, each kept once. *)
Definition queues_kept (holder : u128) (places : list Hold) (queues : list u128) : list u128 :=
  foldl (λ queues place,
    if decide (h_queue place ∈ queues) then queues else queues ++ [h_queue place])
    queues (filter (λ place, h_journey place = holder) places).

(** [count]. *)
Definition count (holder : u128) (moved : option bool) (places : list Hold) : prog unit :=
  let key := be holder in
  o ← batch_read ORIGIN key;
  counted ← match o with
            | Some bytes => lift (into (from_bytes bytes : cres Origin))
            | None => mret {| o_open := wrap 0; o_queues := [] |}
            end;
  let queues := queues_kept holder places (o_queues counted) in
  let open := match moved with
              | Some true => wadd (o_open counted) 1
              | Some false => sat_sub (o_open counted) 1
              | None => o_open counted
              end in
  if decide (open = wrap 0) then
    for_all (λ queue, let_go_of queue holder) queues;;
    batch_put ORIGIN key None
  else
    batch_put ORIGIN key (Some (to_bytes {| o_open := open; o_queues := queues |})).

(** One holder of [counted]'s loop: [was] what was kept of it before. *)
Definition counted_for (kept : option (option u128 * bool)) (now_ : option u128 * bool)
    (places : list Hold) : prog unit :=
  match now_ with
  | (None, _) => mret tt
  | (Some holder, open) =>
      let was := bool_decide (kept = Some (Some holder, true)) in
      let takes := existsb (λ place, bool_decide (h_journey place = holder)) places in
      if negb (Bool.eqb was open) || takes then
        count holder (if negb (Bool.eqb was open) then Some open else None) places
      else mret tt
  end.

(** [counted]. *)
Definition counted (record : JourneyRecord) (places : list Hold) : prog unit :=
  o ← batch_read JOURNEY (be (j_journey record));
  before ← lift (transpose ((λ bytes, into (from_bytes bytes : cres JourneyRecord)) <$> o));
  let kept := holders <$> before in
  counted_for (fst <$> kept) (holders record).1 places;;
  counted_for (snd <$> kept) (holders record).2 places.
End operations.

Section puts.
Context {C : Codec} (P : string → Prop).
Hypotheses (He : P HELD) (Hb : P HELD_JOURNEY) (Hp : P PLACES) (Ho : P ORIGIN).

Lemma count_puts holder moved places : puts_only P (count holder moved places).
Proof. unfold count. prog_walk. Qed.
Lemma counted_for_puts kept now_ places : puts_only P (counted_for kept now_ places).
Proof. unfold counted_for. pose proof count_puts. prog_walk. Qed.
Lemma counted_puts record places : puts_only P (counted record places).
Proof. unfold counted. pose proof counted_for_puts. prog_walk. Qed.
End puts.
#[export] Hint Resolve counted_puts : persist.

(** ** What is kept and let go of, of every queue *)

(** The queues of held Messages, each with room for [n] more. *)
Definition queues_are {C : Codec} (R : records) (ms : u128 → ByPlaceHeld) (n : N) : Prop :=
  ∀ q, ∃ Q, queue_is HOLD R q Q ∧ holds q Q (ms q) ∧ (uval (p_next (q_places Q)) + n < bound 8)%N.

(** The Messages a Journey's write may take out of a queue: the holders it
    counts toward. *)
Definition holder_ids (record : JourneyRecord) : list u128 :=
  option_list (holders record).1.1 ++ option_list (holders record).2.1.

(** A line some of [G] are taken out of. *)
Definition thinned (G l l' : list u128) : Prop :=
  ∃ gone : list u128, (∀ g, g ∈ gone → g ∈ G) ∧ l' = filter (λ x, x ∉ gone) l.

Lemma thinned_none G l : thinned G l l.
Proof. exists []. split; [by intros g ?%elem_of_nil|]. symmetry. apply filter_all. set_solver. Qed.
Lemma thinned_one G g l : g ∈ G → thinned G l (filter (λ x, x ≠ g) l).
Proof.
  intros Hg. exists [g]. split; [by intros g' ->%list_elem_of_singleton|].
  apply list_filter_iff. intros x. by rewrite list_elem_of_singleton.
Qed.
Lemma thinned_trans G l l' l'' : thinned G l l' → thinned G l' l'' → thinned G l l''.
Proof.
  intros (g & Hg & ->) (g' & Hg' & ->). exists (g ++ g'). split.
  - intros x [Hx|Hx]%elem_of_app; auto.
  - rewrite list_filter_filter. apply list_filter_iff. intros x. rewrite elem_of_app. tauto.
Qed.
Lemma thinned_more (G G' l l' : list u128) : (∀ g, g ∈ G → g ∈ G') → thinned G l l' → thinned G' l l'.
Proof. intros H (g & Hg & ->). exists g. split; [|done]. auto. Qed.

Section queues.
Context {C : Codec} {CO : CodecOk C}.
Implicit Types (R : records) (ms : u128 → ByPlaceHeld) (n : N).

Lemma queues_are_frame R R' ms n :
  (∀ kind key, kind ∈ kinds_of HOLD → R' !! (kind, key) = R !! (kind, key)) →
  queues_are R ms n → queues_are R' ms n.
Proof.
  intros H Hq q. destruct (Hq q) as (Q & HQ & Hh). exists Q. split; [|done].
  eapply queue_is_frame, HQ. intros [kind key] Hk. apply H. by eapply of_queue_kind.
Qed.

(** What is left of one queue, and of the others. *)
Lemma queues_are_settled R R' ms n n' q m s : queues_are R ms n → settled q R m s R' →
  (uval s + n' < bound 8)%N → (n' ≤ n)%N →
  queues_are R' (λ q', if decide (q' = q) then m else ms q') n'.
Proof.
  intros H (Q' & HQ' & H' & <- & Ho) Hs Hn q'. case_decide as Hd; [subst q'; by exists Q'|].
  destruct (H q') as (Q & HQ & Hh & Hr). exists Q. split; [|split; [done|lia]].
  eapply queue_is_other; [exact HOLD_apart|exact Ho|congruence|done].
Qed.

Lemma queues_let_go_of R ms n q j : queues_are R ms n →
  ∃ R' ms', exec (let_go_of q j) R = Ok (tt, R') ∧ queues_are R' ms' n ∧
    ∀ q', thinned [j] (line (ms q')) (line (ms' q')).
Proof.
  intros H. destruct (H q) as (Q & HQ & Hh & Hr).
  destruct (exec_let_go_of R q Q (ms q) j HQ Hh) as (R' & E & Hs).
  eexists _, _. split; [exact E|]. split; [by eapply queues_are_settled|].
  intros q'. cbv beta. case_decide as Hd; [subst q'|apply thinned_none].
  rewrite (line_let_gone q Q) by done. apply thinned_one. by left.
Qed.

Lemma queues_let_go_all R ms n j queues : queues_are R ms n →
  ∃ R' ms', exec (for_all (λ q, let_go_of q j) queues) R = Ok (tt, R') ∧ queues_are R' ms' n ∧
    ∀ q', thinned [j] (line (ms q')) (line (ms' q')).
Proof.
  revert R ms. induction queues as [|q queues IH]; intros R ms H; cbn [for_all].
  { exists R, ms. split; [done|]. split; [done|]. intros q'. apply thinned_none. }
  destruct (queues_let_go_of R ms n q j H) as (R1 & ms1 & E1 & H1 & Ht1).
  destruct (IH R1 ms1 H1) as (R2 & ms2 & E2 & H2 & Ht2). exists R2, ms2.
  rewrite exec_bind, E1. split; [exact E2|]. split; [done|]. intros q'. by eapply thinned_trans.
Qed.

Lemma queues_put R R' ms n kind key o : kind ∉ kinds_of HOLD →
  exec (batch_put kind key o) R = Ok (tt, R') → queues_are R ms n → queues_are R' ms n.
Proof.
  intros Hk E. assert (R' = record_change R (kind, key, o)) as -> by by injection E. apply queues_are_frame. intros kind' key' Hk'.
  rewrite record_changed_at, decide_False; [done|]. intros [= -> _]. by destruct Hk.
Qed.

Lemma ORIGIN_apart : ORIGIN ∉ kinds_of HOLD ∧ JOURNEY ∉ kinds_of HOLD.
Proof. apply (bool_decide_unpack _). by vm_compute. Qed.

(** A count that returned takes its holder out of queues, or nobody. *)
Lemma queues_count R R' ms n holder moved places : queues_are R ms n →
  exec (count holder moved places) R = Ok (tt, R') →
  ∃ ms', queues_are R' ms' n ∧ ∀ q, thinned [holder] (line (ms q)) (line (ms' q)).
Proof.
  intros H E. unfold count in E. rewrite exec_read in E.
  apply exec_bind_Ok in E as (o & R1 & E1 & E).
  assert (R1 = R) as ->.
  { destruct (R !! (ORIGIN, be holder)) as [bytes|]; [|by injection E1].
    destruct (into _); [|done]. by injection E1. }
  cbv zeta in E. case_decide as Ho.
  - destruct (queues_let_go_all R ms n holder (queues_kept holder places (o_queues o)) H)
      as (R2 & ms2 & E2 & H2 & Ht).
    rewrite exec_bind, E2 in E. cbn [mbind result_bind] in E.
    exists ms2. split; [|done]. by apply (queues_put R2 R' ms2 n _ _ _ (proj1 ORIGIN_apart) E).
  - exists ms. split; [|intros q; apply thinned_none]. by apply (queues_put R R' ms n _ _ _ (proj1 ORIGIN_apart) E).
Qed.

Lemma queues_counted_for R R' ms n kept now_ places : queues_are R ms n →
  exec (counted_for kept now_ places) R = Ok (tt, R') →
  ∃ ms', queues_are R' ms' n ∧ ∀ q, thinned (option_list now_.1) (line (ms q)) (line (ms' q)).
Proof.
  intros H E. assert (∃ ms', queues_are R ms' n ∧ ∀ q, thinned (option_list now_.1) (line (ms q)) (line (ms' q)))
    as Hsame by (exists ms; split; [done|intros q; apply thinned_none]).
  destruct now_ as [[holder|] open]; cbn [counted_for fst option_list] in *; [|by injection E as <-].
  destruct (negb _ || _); [|by injection E as <-]. by eapply queues_count.
Qed.

Lemma queues_counted R R' ms n record places : queues_are R ms n →
  exec (counted record places) R = Ok (tt, R') →
  ∃ ms', queues_are R' ms' n ∧ ∀ q, thinned (holder_ids record) (line (ms q)) (line (ms' q)).
Proof.
  intros H E. unfold counted in E. rewrite exec_read, exec_lift in E.
  apply bind_Ok in E as (before & _ & E). cbv zeta in E.
  apply exec_bind_Ok in E as ([] & R1 & E1 & E2).
  destruct (queues_counted_for _ _ _ _ _ _ _ H E1) as (ms1 & H1 & Ht1).
  destruct (queues_counted_for _ _ _ _ _ _ _ H1 E2) as (ms2 & H2 & Ht2).
  exists ms2. split; [done|]. intros q. eapply thinned_trans.
  - eapply thinned_more, Ht1. intros g Hg. apply elem_of_app. by left.
  - eapply thinned_more, Ht2. intros g Hg. apply elem_of_app. by right.
Qed.

(** Messages kept, each at the end of its queue where it holds no place. *)
Lemma queues_keep R ms n kept : queues_are R ms (n + 1) → fits kept →
  ∃ R' ms', exec (keep kept) R = Ok (tt, R') ∧ queues_are R' ms' n ∧
    ∀ q, ms q ⊆ ms' q ∧
      line (ms' q) = (if decide (h_queue kept = q) then joins (line (ms q)) (h_journey kept) else line (ms q)) ∧
      (h_queue kept = q → h_journey kept ∉ line (ms q) → ∃ s, ms' q !! s = Some (newly_held kept s)).
Proof.
  intros H Hf. destruct (H (h_queue kept)) as (Q & HQ & Hh & Hr).
  destruct (exec_keep R _ Q (ms (h_queue kept)) kept HQ Hh) as (R' & E & Hs); [unfold room; lia|done..|].
  eexists _, _. split; [exact E|]. split.
  { eapply queues_are_settled; [done|exact Hs| |lia]. destruct (negb _); cbn [takes]; [|lia].
    rewrite uval_wadd; lia. }
  intros q. cbv beta. destruct (decide (h_queue kept = q)) as [<-|Hne].
  - rewrite decide_True by done. split; [by apply (kept_in_more (h_queue kept))|].
    split; [by apply (line_kept_in (h_queue kept))|]. intros _ Hno. unfold kept_in.
    rewrite (elem_of_held_line _ _ _ _ Hh) in Hno.
    destruct (find_journey (h_journey kept) _); [destruct Hno; eauto|]. eexists. apply lookup_insert_eq.
  - rewrite decide_False by congruence. done.
Qed.
End queues.

(** Each of [l], in order, joining the lines it is of. *)
Definition of_one (q : u128) (l : list Hold) : list JourneyId :=
  h_journey <$> filter (λ h, h_queue h = q) l.

Lemma elem_of_joins l j x : x ∈ joins l j ↔ x ∈ l ∨ x = j.
Proof. unfold joins. case_decide; [naive_solver|]. by rewrite elem_of_app, list_elem_of_singleton. Qed.

Lemma queues_keep_all {C : Codec} {CO : CodecOk C} R ms (l : list Hold) :
  queues_are R ms (N.of_nat (length l)) → Forall fits l → NoDup ((λ h, (h_queue h, h_journey h)) <$> l) →
  ∃ R' ms', exec (for_all keep l) R = Ok (tt, R') ∧ queues_are R' ms' 0 ∧
    ∀ q, ms q ⊆ ms' q ∧ line (ms' q) = foldl joins (line (ms q)) (of_one q l) ∧
      (∀ h, h ∈ l → h_queue h = q → h_journey h ∉ line (ms q) → ∃ s, ms' q !! s = Some (newly_held h s)).
Proof.
  revert R ms. induction l as [|a l IH]; intros R ms H Hf Hn; cbn [for_all].
  { exists R, ms. split; [done|]. split; [done|]. intros q. split; [done|]. split; [done|]. by intros h ?%elem_of_nil. }
  apply Forall_cons in Hf as [Ha Hf]. rewrite fmap_cons in Hn. apply NoDup_cons in Hn as [Hna Hn].
  destruct (queues_keep R ms (N.of_nat (length l)) a) as (R1 & ms1 & E1 & H1 & Hs1); [|done|].
  { intros q. destruct (H q) as (Q & ? & ? & Hr). exists Q. cbn [length] in Hr. split; [done|]. split; [done|lia]. }
  destruct (IH R1 ms1 H1 Hf Hn) as (R2 & ms2 & E2 & H2 & Hs2).
  exists R2, ms2. rewrite exec_bind, E1. split; [exact E2|]. split; [done|]. intros q.
  destruct (Hs1 q) as (Hsub1 & Hl1 & Hin1), (Hs2 q) as (Hsub2 & Hl2 & Hin2).
  split; [by etrans|]. split.
  - rewrite Hl2, Hl1. unfold of_one. rewrite filter_cons. by case_decide.
  - intros h [->|Hh]%elem_of_cons Hq Hno.
    + destruct (Hin1 Hq Hno) as [s Hs]. exists s. by eapply lookup_weaken.
    + apply Hin2; [done..|]. rewrite Hl1. case_decide as Hqa; [|done]. rewrite elem_of_joins.
      intros [?|Hj]; [done|]. apply Hna, list_elem_of_fmap. exists h. split; [|done]. congruence.
Qed.
