(* ===== verification/Dead.v ===== *)
(** * A node's Dead Message Queue (src/.src/storage/dead.rs, dead/form.rs)

    The Messages nothing matched, one queue to a node, each kept with its
    Publication and taken out by a Replay, which is remembered: a Replay
    asked again after a lost answer writes nothing twice. *)

From S2P Require Import Prelude Word Engine Store Codec Facts Records Batch Queue Hold Origin.
From stdpp Require Import pretty.

(** ** The data *)

Record Named : Set := { n_name : string; n_value : string }.

Record DeadMessage : Set := {
  dm_queue : u128;
  dm_message : MessageId;
  dm_stream : StreamId;
  dm_node : string;
  dm_location : string;
  dm_received_unix_nanos : i128;
  dm_validation : list Named;
  dm_promoted : list Named;
  dm_declines : list Named;
  dm_body : bytes;
}.

Record Dead : Set := { dd_sequence : u64; dd_message : DeadMessage }.
Record DeadQueue : Set := {
  dq_first : u64; dq_next : u64; dq_count : u64; dq_dead : list Dead
}.
Record Replay : Set := {
  rp_queue : u128;
  rp_message : MessageId;
  rp_journeys : list JourneyRecord;
  rp_held : list Hold;
  rp_audit : AuditEntry;
}.
Inductive DeadEntry : Set := Kept (dead : Dead) | WasReplayed | NeverKept.
Inductive Replayed : Set := Now | Before | Absent.

#[export] Instance Replayed_eq_dec : EqDecision Replayed.
Proof. solve_decision. Defined.

Definition FORM : byte := x01.

(** ** Their forms *)

Section forms.
Context {C : Codec}.

Definition write_Named (n : Named) : bytes := w_text (n_name n) ++ w_text (n_value n).
Definition read_Named : rd Named :=
  name ← r_text; value ← r_text; mret {| n_name := name; n_value := value |}.
#[export] Instance Named_form : Form Named := { write := write_Named; fread := read_Named }.

Definition write_DeadMessage (d : DeadMessage) : bytes :=
  w_byte FORM ++ w_u128 (dm_queue d) ++ w_u128 (dm_message d) ++ w_u128 (dm_stream d) ++
  w_text (dm_node d) ++ w_text (dm_location d) ++ w_i128 (dm_received_unix_nanos d) ++
  w_vec write (dm_validation d) ++ w_vec write (dm_promoted d) ++
  w_vec write (dm_declines d) ++ w_counted (dm_body d).
Definition read_DeadMessage : rd DeadMessage :=
  form ← r_byte;
  if decide (form ≠ FORM) then
    rd_err (CodecErr ("a Dead Message Queue entry of form " +:+ pretty (Byte.to_N form) +:+
      ", and this reads form " +:+ pretty (Byte.to_N FORM)))
  else
    queue ← r_u128; message ← r_u128; stream ← r_u128; node ← r_text; location ← r_text;
    received ← r_i128; validation ← r_vec fread; promoted ← r_vec fread;
    declines ← r_vec fread; body ← r_counted;
    mret {| dm_queue := queue; dm_message := message; dm_stream := stream; dm_node := node;
            dm_location := location; dm_received_unix_nanos := received;
            dm_validation := validation; dm_promoted := promoted; dm_declines := declines;
            dm_body := body |}.
#[export] Instance DeadMessage_form : Form DeadMessage :=
  { write := write_DeadMessage; fread := read_DeadMessage }.

Definition write_Dead (d : Dead) : bytes := w_u64 (dd_sequence d) ++ write (dd_message d).
Definition read_Dead : rd Dead :=
  sequence ← r_u64; message ← fread; mret {| dd_sequence := sequence; dd_message := message |}.
#[export] Instance Dead_form : Form Dead := { write := write_Dead; fread := read_Dead }.

Definition write_DeadQueue (q : DeadQueue) : bytes :=
  w_u64 (dq_first q) ++ w_u64 (dq_next q) ++ w_u64 (dq_count q) ++ w_vec write (dq_dead q).
Definition read_DeadQueue : rd DeadQueue :=
  first ← r_u64; next ← r_u64; count ← r_u64; dead ← r_vec fread;
  mret {| dq_first := first; dq_next := next; dq_count := count; dq_dead := dead |}.
#[export] Instance DeadQueue_form : Form DeadQueue :=
  { write := write_DeadQueue; fread := read_DeadQueue }.

Definition write_Replay (r : Replay) : bytes :=
  w_u128 (rp_queue r) ++ w_u128 (rp_message r) ++ w_vec write (rp_journeys r) ++
  w_vec write (rp_held r) ++ write (rp_audit r).
Definition read_Replay : rd Replay :=
  queue ← r_u128; message ← r_u128; journeys ← r_vec fread; held ← r_vec fread;
  audit ← fread;
  mret {| rp_queue := queue; rp_message := message; rp_journeys := journeys;
          rp_held := held; rp_audit := audit |}.
#[export] Instance Replay_form : Form Replay := { write := write_Replay; fread := read_Replay }.

Definition write_DeadEntry (d : DeadEntry) : bytes :=
  match d with
  | Kept dead => w_byte x00 ++ write dead
  | WasReplayed => w_byte x01
  | NeverKept => w_byte x02
  end.
Definition read_DeadEntry : rd DeadEntry :=
  n ← r_byte;
  match n with
  | x00 => dead ← fread; mret (Kept dead)
  | x01 => mret WasReplayed
  | x02 => mret NeverKept
  | other => rd_err (CodecErr ("no Dead Message Queue entry standing is numbered " +:+
      pretty (Byte.to_N other)))
  end.
#[export] Instance DeadEntry_form : Form DeadEntry :=
  { write := write_DeadEntry; fread := read_DeadEntry }.

Definition write_Replayed (r : Replayed) : bytes :=
  w_byte match r with Now => x00 | Before => x01 | Absent => x02 end.
Definition read_Replayed : rd Replayed :=
  n ← r_byte;
  match n with
  | x00 => mret Now
  | x01 => mret Before
  | x02 => mret Absent
  | other => rd_err (CodecErr ("no Replay answer is numbered " +:+ pretty (Byte.to_N other)))
  end.
#[export] Instance Replayed_form : Form Replayed := { write := write_Replayed; fread := read_Replayed }.
End forms.

#[export] Instance Named_fits : Fits Named := λ n, counts_text (n_name n) ∧ counts_text (n_value n).
Definition named_fits (l : list Named) : Prop := counts l ∧ Forall fits l.
#[export] Instance DeadMessage_fits : Fits DeadMessage := λ d,
  counts_text (dm_node d) ∧ counts_text (dm_location d) ∧ named_fits (dm_validation d) ∧
  named_fits (dm_promoted d) ∧ named_fits (dm_declines d) ∧ counts (dm_body d).
#[export] Instance Dead_fits : Fits Dead := λ d, fits (dd_message d).
#[export] Instance DeadQueue_fits : Fits DeadQueue := λ q, counts (dq_dead q) ∧ Forall fits (dq_dead q).
#[export] Instance Replay_fits : Fits Replay := λ r,
  (counts (rp_journeys r) ∧ Forall fits (rp_journeys r)) ∧
  (counts (rp_held r) ∧ Forall fits (rp_held r)) ∧ fits (rp_audit r).
#[export] Instance DeadEntry_fits : Fits DeadEntry := λ d,
  match d with Kept dead => fits dead | _ => True end.
#[export] Instance Replayed_fits : Fits Replayed := λ _, True.

Section roundtrips.
Context {C : Codec} {CO : CodecOk C}.

#[export] Instance Named_ok : FormOk Named.
Proof. intros n l [? ?]. cbn [write fread Named_form]. unfold write_Named, read_Named. roundtrip. by destruct n. Qed.

#[export] Instance DeadMessage_ok : FormOk DeadMessage.
Proof.
  intros d l (? & ? & [? ?] & [? ?] & [? ?] & ?). cbn [write fread DeadMessage_form].
  unfold write_DeadMessage, read_DeadMessage. repeat rewrite <- app_assoc. rt_step.
  rewrite decide_False by (intros []; done). roundtrip. by destruct d.
Qed.

#[export] Instance Dead_ok : FormOk Dead.
Proof. intros d l Hd. unfold fits, Dead_fits in Hd. cbn [write fread Dead_form]. unfold write_Dead, read_Dead. roundtrip. by destruct d. Qed.

#[export] Instance DeadQueue_ok : FormOk DeadQueue.
Proof. intros q l [? ?]. cbn [write fread DeadQueue_form]. unfold write_DeadQueue, read_DeadQueue. roundtrip. by destruct q. Qed.

#[export] Instance Replay_ok : FormOk Replay.
Proof. intros r l ([? ?] & [? ?] & ?). cbn [write fread Replay_form]. unfold write_Replay, read_Replay. roundtrip. by destruct r. Qed.

#[export] Instance DeadEntry_ok : FormOk DeadEntry.
Proof.
  intros [d| |] l Hd; unfold fits, DeadEntry_fits in Hd; cbn [write fread DeadEntry_form];
    unfold write_DeadEntry, read_DeadEntry; roundtrip.
Qed.

#[export] Instance Replayed_ok : FormOk Replayed.
Proof.
  intros r l _. cbn [write fread Replayed_form]. unfold write_Replayed, read_Replayed.
  destruct r; roundtrip.
Qed.
End roundtrips.

(** ** The operations *)

Definition DEAD : string := "dead-message".
Definition DEAD_MESSAGE : string := "dead-message-by-message".
Definition DEAD_PLACES : string := "dead-message-places".

(** [dead::KINDS]. *)
Definition DEAD_KINDS : Kinds :=
  {| k_entry := DEAD; k_by := DEAD_MESSAGE; k_places := DEAD_PLACES;
     k_table := "dead_message"; k_index := "dead_message_place" |}.

(** [dead_message_queue]. *)
Definition dead_message_queue (sha1 : bytes → bytes) (node : string) : u128 :=
  named sha1 (node +:+ "/dead-message-queue").

Section operations.
Context {C : Codec}.

(** [dead::keep]. *)
Definition keep_dead (dead : DeadMessage) : prog unit :=
  place DEAD_KINDS (dm_queue dead) (dm_message dead)
    (λ sequence, to_bytes {| dd_sequence := sequence; dd_message := dead |});;
  mret tt.

(** A Journey counted toward its holders, then written. *)
Definition journey_written (places : list Hold) (journey : JourneyRecord) : prog unit :=
  counted journey places;; batch_record JOURNEY (j_journey journey) journey.

(** [dead::replay]. *)
Definition replay (r : Replay) : prog Replayed :=
  p ← placed DEAD_KINDS (rp_queue r) (rp_message r);
  match p with
  | Never => mret Absent
  | TakenOut => mret Before
  | At sequence =>
      take_out DEAD_KINDS (rp_queue r) sequence;;
      remember DEAD_KINDS (rp_queue r) (rp_message r);;
      for_all (journey_written (rp_held r)) (rp_journeys r);;
      for_all keep (rp_held r);;
      mret Now
  end.

(** [dead::read_one], on what is written. *)
Definition read_one {St : Type} `{RecordStore St} (store : St) (queue : u128) (message : MessageId)
    : result DeadEntry :=
  place ← rs_get store DEAD_MESSAGE (by_key queue message);
  match place with
  | None => Ok NeverKept
  | Some place =>
      match array 8 place with
      | None => Ok WasReplayed
      | Some place =>
          o ← rs_get store DEAD (entry_key queue (of_be place));
          match o with
          | Some bytes => dead ← into (from_bytes bytes); Ok (Kept dead)
          | None => Ok NeverKept
          end
      end
  end.
End operations.

Lemma journey_written_puts {C : Codec} (P : string → Prop) places journey :
  P HELD → P HELD_JOURNEY → P PLACES → P ORIGIN → P JOURNEY →
  puts_only P (journey_written places journey).
Proof. intros. unfold journey_written. prog_walk. Qed.
#[export] Hint Resolve journey_written_puts : persist.

(** ** What a Replay does to its queue *)

Lemma DEAD_apart : kinds_apart DEAD_KINDS.
Proof. split; apply (bool_decide_unpack _); by vm_compute. Qed.

(** The kinds of a node's Dead Message Queue, which nothing but it puts. *)
Lemma replayed_puts {C : Codec} r :
  puts_only (.∉ kinds_of DEAD_KINDS)
    (for_all (journey_written (rp_held r)) (rp_journeys r);; for_all keep (rp_held r);; mret Now).
Proof.
  assert (Forall (.∉ kinds_of DEAD_KINDS) [HELD; HELD_JOURNEY; PLACES; ORIGIN; JOURNEY]) as HP
    by (apply (bool_decide_unpack _); by vm_compute).
  rewrite !Forall_cons in HP. destruct HP as (? & ? & ? & ? & ? & _). prog_walk.
Qed.

Section specs.
Context {C : Codec} {CO : CodecOk C}.
Implicit Types (R : records) (Q : Queue).

(** What a Replay that returned leaves of its queue, and answers. *)
Definition replay_after Q (message : MessageId) : Replayed * Queue :=
  match q_by Q !! message with
  | None => (Absent, Q)
  | Some None => (Before, Q)
  | Some (Some s) => (Now, indexed_as (taken_out Q s) message (Some None))
  end.

Lemma dead_frame R R' q Q :
  (∀ kind key, kind ∈ kinds_of DEAD_KINDS → R' !! (kind, key) = R !! (kind, key)) →
  queue_is DEAD_KINDS R q Q → queue_is DEAD_KINDS R' q Q.
Proof.
  intros H. apply queue_is_frame. intros [kind key] Hq. apply H. by eapply of_queue_kind.
Qed.

Lemma exec_replay R Q r a R' : queue_is DEAD_KINDS R (rp_queue r) Q →
  exec (replay r) R = Ok (a, R') →
  a = (replay_after Q (rp_message r)).1 ∧
  queue_is DEAD_KINDS R' (rp_queue r) (replay_after Q (rp_message r)).2 ∧
  (a ≠ Now → R' = R).
Proof.
  intros HQ E. unfold replay in E. rewrite exec_bind, (exec_placed _ _ _ _ Q HQ) in E.
  cbn [mbind result_bind] in E. unfold replay_after.
  destruct (q_by Q !! rp_message r) as [[s|]|].
  - destruct (exec_take_out DEAD_KINDS DEAD_apart R _ s Q HQ) as (R1 & E1 & HQ1 & _).
    rewrite exec_bind, E1 in E. cbn [mbind result_bind] in E.
    destruct (exec_remember DEAD_KINDS DEAD_apart R1 _ (rp_message r) _ HQ1) as (R2 & E2 & HQ2 & _).
    rewrite exec_bind, E2 in E. cbn [mbind result_bind] in E.
    assert (a = Now) as ->.
    { apply exec_bind_Ok in E as (? & ? & _ & E). apply exec_bind_Ok in E as (? & ? & _ & E).
      by injection E as <- _. }
    split; [done|]. split; [|done]. cbn [snd]. eapply dead_frame, HQ2.
    intros kind key Hk. eapply exec_puts_only; [apply replayed_puts|exact E|]. by intros [].
  - injection E as <- <-. by split.
  - injection E as <- <-. by split.
Qed.
End specs.

(** ** The theorems *)

Module DeadTheorems.
Section theorems.
Context {C : Codec} {CO : CodecOk C}.

(** A Dead Message is kept once and replayed once. One not yet in
    its node's queue is kept at the end of it, found there by its Message;
    asked again it is kept no second time. A Replay of it that was done -
    whatever it sent the Message on to - has taken the entry out and is
    remembered: it is not kept any more, and the Replay asked again after a
    lost answer, or another of the Message, is answered that it was done and
    writes nothing. One of a Message the queue never kept is answered so and
    writes nothing. *)
Theorem replayed_once (R : records) (Q : Queue) (dead : DeadMessage) (r r' : Replay) :
  queue_is DEAD_KINDS R (dm_queue dead) Q → q_by Q !! dm_message dead = None →
  rp_queue r = dm_queue dead → rp_message r = dm_message dead →
  rp_queue r' = dm_queue dead → rp_message r' = dm_message dead →
  exec (replay r) R = Ok (Absent, R) ∧
  let n := p_next (q_places Q) in
  ∃ R1, exec (keep_dead dead) R = Ok (tt, R1) ∧
    R1 !! (DEAD, entry_key (dm_queue dead) n) =
      Some (to_bytes {| dd_sequence := n; dd_message := dead |}) ∧
    exec (keep_dead dead) R1 = Ok (tt, R1) ∧
    ∀ a R2, exec (replay r) R1 = Ok (a, R2) →
      a = Now ∧ R2 !! (DEAD, entry_key (dm_queue dead) n) = None ∧
      exec (replay r') R2 = Ok (Before, R2).
Proof.
  intros HQ Hby Hq Hm Hq' Hm'.
  assert (∀ r R Q o, queue_is DEAD_KINDS R (rp_queue r) Q → q_by Q !! rp_message r = o →
    match o with Some (Some _) => True | Some None => exec (replay r) R = Ok (Before, R)
    | None => exec (replay r) R = Ok (Absent, R) end) as Hno.
  { intros r0 R0 Q0 o HQ0 Ho. unfold replay. rewrite exec_bind, (exec_placed _ _ _ _ Q0 HQ0), Ho.
    by destruct o as [[]|]. }
  split. { apply (Hno r R Q None); [by rewrite Hq|by rewrite Hm]. }
  intros n. unfold keep_dead. set (entry := λ s, to_bytes {| dd_sequence := s; dd_message := dead |}).
  destruct (exec_place DEAD_KINDS DEAD_apart R _ (dm_message dead) entry Q HQ) as (R1 & E1 & HQ1 & _).
  rewrite Hby in HQ1. exists R1. rewrite exec_bind, E1. split; [done|].
  split; [|split].
  - rewrite (is_entries _ _ _ _ HQ1). apply lookup_insert_eq.
  - unfold place. rewrite exec_bind, exec_read, (is_by _ _ _ _ HQ1).
    cbn [q_by placed_at]. by rewrite lookup_insert_eq.
  - intros a R2 E2. rewrite <- Hq in HQ1. destruct (exec_replay R1 _ r a R2 HQ1 E2) as (-> & HQ2 & _).
    unfold replay_after in *. cbn [q_by placed_at] in *. rewrite Hm, lookup_insert_eq in *.
    split; [done|]. cbn [snd] in HQ2. split.
    + rewrite <- Hq, (is_entries _ _ _ _ HQ2). cbn [indexed_as q_entries]. unfold taken_out.
      cbn [q_entries placed_at]. rewrite lookup_insert_eq. cbn [q_entries]. apply lookup_delete_eq.
    + rewrite Hq, <- Hq' in HQ2. apply (Hno r' R2 _ (Some None) HQ2). rewrite Hm'. apply lookup_insert_eq.
Qed.
End theorems.

#[local] Existing Instance Plain.codec_ok.

Definition example_dead : DeadMessage := {|
  dm_queue := wrap 5; dm_message := wrap 20; dm_stream := wrap 21; dm_node := "node a";
  dm_location := "in"; dm_received_unix_nanos := i128_clamp 40;
  dm_validation := [{| n_name := "schema"; n_value := "none" |}]; dm_promoted := [];
  dm_declines := []; dm_body := [x01; x02];
|}.
Definition example_replay : Replay := {|
  rp_queue := wrap 5; rp_message := wrap 20; rp_journeys := [Examples.journey 7];
  rp_held := [{| h_queue := wrap 2; h_journey := wrap 7; h_body := [x00] |}];
  rp_audit := Examples.audit 30;
|}.

Lemma replayed_once_witness :
  exec (replay (C := Plain.codec) example_replay) ∅ = Ok (Absent, ∅) ∧
  ∃ R1 R2, exec (replay (C := Plain.codec) example_replay) R1 = Ok (Now, R2) ∧
    exec (replay (C := Plain.codec) example_replay) R2 = Ok (Before, R2).
Proof.
  destruct (replayed_once (C := Plain.codec) ∅ empty_queue example_dead example_replay example_replay)
    as (H0 & R1 & E1 & _ & _ & Hr); [|done..|].
  - apply queue_is_nothing. intros. apply lookup_empty.
  - split; [exact H0|].
    assert (R1 = left_by (keep_dead (C := Plain.codec) example_dead) ∅) as -> by (unfold left_by; by rewrite E1).
    assert (returned (replay (C := Plain.codec) example_replay)
      (left_by (keep_dead (C := Plain.codec) example_dead) ∅) = Some Now) as Er by by vm_compute.
    apply exec_returned in Er. eexists _, _. split; [exact Er|]. by destruct (Hr _ _ Er) as (_ & _ & ?).
Defined.
End DeadTheorems.
