(* ===== verification/Claim.v ===== *)
(** * Claims, and the hand-on of a step (src/.src/storage/claim.rs, hand_on.rs)

    A Message's Journey is claimed by one holder at a time, under a token and
    a fence that grows with each holder; its step is handed on in one write
    with the claim ended, once. *)

From S2P Require Import Prelude Word Engine Store Codec Facts Records Batch Queue Hold Failed Origin.
From S2P Require Import Dead.
From stdpp Require Import pretty.

Definition CLAIM : string := "claim".
Definition MESSAGE : string := "message".

(** ** The data *)

Inductive Standing : Set := StandsHeld | Released | HandedOn.
Record Stored : Set := { s_claim : Claim; s_standing : Standing }.

#[export] Instance Standing_eq_dec : EqDecision Standing.
Proof. solve_decision. Defined.
#[export] Instance Stored_eq_dec : EqDecision Stored.
Proof. solve_decision. Defined.

Record Wait : Set := { w_queue : u128; w_after_nanos : u64 }.

Record HandOn : Set := {
  ho_claim : Claim;
  ho_result : JourneyRecord;
  ho_messages : list MessageRecord;
  ho_next : list JourneyRecord;
  ho_leaves : list u128;
  ho_queued : list Hold;
  ho_requeued : list u128;
  ho_failed : option Failure;
  ho_cleared : list u128;
  ho_waits : option Wait;
  ho_kept_for_nanos : option u64;
}.

(** ** Their forms *)

Section forms.
Context {C : Codec}.

(** [Stored::bytes] and [Stored::from_bytes]: whatever follows is left. *)
Definition standing_byte (s : Standing) : byte :=
  match s with StandsHeld => x00 | Released => x01 | HandedOn => x02 end.
Definition stored_bytes (s : Stored) : bytes := standing_byte (s_standing s) :: write (s_claim s).
Definition read_standing (b : byte) : result Standing :=
  match b with
  | x00 => Ok StandsHeld
  | x01 => Ok Released
  | x02 => Ok HandedOn
  | other => Err (malformed ("a claim standing " +:+ pretty (Byte.to_N other)))
  end.
Definition stored_from_bytes (b : bytes) : result Stored :=
  '(n, rest) ← into (r_byte b);
  standing ← read_standing n;
  '(claim, _) ← into (fread rest);
  Ok {| s_claim := claim; s_standing := standing |}.

Definition write_Wait (w : Wait) : bytes := w_u128 (w_queue w) ++ w_u64 (w_after_nanos w).
Definition read_Wait : rd Wait :=
  queue ← r_u128; after ← r_u64; mret {| w_queue := queue; w_after_nanos := after |}.

(** A flag, and what is there where it is set. *)
Definition w_maybe {A} (w : A → bytes) (o : option A) : bytes :=
  w_flag (is_some o) ++ match o with Some a => w a | None => [] end.
Definition r_maybe {A} (r : rd A) : rd (option A) :=
  present ← r_byte;
  match present with x00 => mret None | _ => a ← r; mret (Some a) end.

Definition write_HandOn (h : HandOn) : bytes :=
  write (ho_claim h) ++ write (ho_result h) ++ w_vec write (ho_messages h) ++
  w_vec write (ho_next h) ++ write_ids (ho_leaves h) ++ w_vec write (ho_queued h) ++
  write_ids (ho_requeued h) ++ w_maybe write (ho_failed h) ++ write_ids (ho_cleared h) ++
  w_maybe write_Wait (ho_waits h) ++ w_maybe w_u64 (ho_kept_for_nanos h).
Definition read_HandOn : rd HandOn :=
  claim ← fread; result ← fread; messages ← r_vec fread; next ← r_vec fread;
  leaves ← read_ids; queued ← r_vec fread; requeued ← read_ids;
  failed ← r_maybe fread; cleared ← read_ids; waits ← r_maybe read_Wait;
  kept ← r_maybe r_u64;
  mret {| ho_claim := claim; ho_result := result; ho_messages := messages; ho_next := next;
          ho_leaves := leaves; ho_queued := queued; ho_requeued := requeued;
          ho_failed := failed; ho_cleared := cleared; ho_waits := waits;
          ho_kept_for_nanos := kept |}.
#[export] Instance HandOn_form : Form HandOn := { write := write_HandOn; fread := read_HandOn }.
End forms.

#[export] Instance HandOn_fits : Fits HandOn := λ h,
  (fits (ho_claim h) ∧ fits (ho_result h)) ∧
  (counts (ho_messages h) ∧ Forall fits (ho_messages h)) ∧
  (counts (ho_next h) ∧ Forall fits (ho_next h)) ∧
  (counts (ho_queued h) ∧ Forall fits (ho_queued h)) ∧
  (counts (ho_leaves h) ∧ counts (ho_requeued h) ∧ counts (ho_cleared h)) ∧
  match ho_failed h with Some f => fits f | None => True end.

Section roundtrips.
Context {C : Codec} {CO : CodecOk C}.

Lemma maybe_rt {A} (w : A → bytes) (r : rd A) o l :
  (∀ a, o = Some a → ∀ l, r (w a ++ l) = COk (a, l)) →
  r_maybe r (w_maybe w o ++ l) = COk (o, l).
Proof.
  intros Hr. unfold r_maybe, w_maybe, w_flag. rewrite <- app_assoc. rt_step.
  destruct o as [a|]; cbn; [|done]. by rewrite (rd_step _ _ _ _ _ (Hr a eq_refl l)).
Qed.

Lemma wait_rt w l : read_Wait (write_Wait w ++ l) = COk (w, l).
Proof. unfold read_Wait, write_Wait. roundtrip. by destruct w. Qed.
#[local] Hint Resolve wait_rt : codec.
#[local] Hint Extern 2 (r_maybe _ _ = _) => (apply maybe_rt; intros; subst; eauto with codec) : codec.

#[export] Instance HandOn_ok : FormOk HandOn.
Proof.
  intros h l ([? ?] & [? ?] & [? ?] & [? ?] & (? & ? & ?) & Hf). cbn [write fread HandOn_form].
  unfold write_HandOn, read_HandOn. repeat rewrite <- app_assoc. do 7 rt_step.
  erewrite rd_step; cycle 1.
  { apply maybe_rt. intros f Hs l'. rewrite Hs in Hf. by apply form_rt. }
  cbv beta. roundtrip. by destruct h.
Qed.

Lemma stored_rt s : fits (s_claim s) → stored_from_bytes (stored_bytes s) = Ok s.
Proof.
  intros Hf. unfold stored_from_bytes, stored_bytes.
  pose proof (byte_rt (standing_byte (s_standing s)) (write (s_claim s))) as Hb.
  rewrite byte_spec in Hb. cbn [app] in Hb. rewrite Hb. cbn [into mbind result_bind].
  assert (read_standing (standing_byte (s_standing s)) = Ok (s_standing s)) as -> by by destruct s as [? []].
  cbn [into mbind result_bind]. rewrite <- (app_nil_r (write (s_claim s))), form_rt by done. by destruct s.
Qed.
End roundtrips.

(** ** The operations *)

(** [Claim::is]. *)
Definition is_claim (c other : Claim) : bool :=
  bool_decide (c_token c = c_token other) && bool_decide (c_fence c = c_fence other).

(** [Stored::held_by] and [Stored::asked_by]. *)
Definition held_by (s : Stored) (claim : Claim) : bool :=
  bool_decide (s_standing s = StandsHeld) && is_claim (s_claim s) claim.
Definition asked_by (s : Stored) (asked : Claim) : bool :=
  bool_decide (s_standing s = StandsHeld) && bool_decide (c_token (s_claim s) = c_token asked).

(** [lease_nanos]: a lease's nanoseconds, at most what an [i128] holds. *)
Definition lease_nanos (nanos : N) : i128 := i128_clamp (Z.of_N nanos).

(** [fence]: the epoch in the high 32 bits, the Message's holder count, one
    more, in the low 32. *)
Definition low32 : N := (2 ^ 32 - 1)%N.
Definition fence (epoch : u64) (before : option Claim) : u64 :=
  let holders := match before with Some claim => N.land (uval (c_fence claim)) low32 | None => 0%N end in
  wrap (N.lor (uval (wrap (N.shiftl (uval epoch) 32) : u64)) (N.min (holders + 1) low32)).

Definition set_until (until : i128) (c : Claim) : Claim :=
  {| c_journey := c_journey c; c_holder := c_holder c; c_token := c_token c;
     c_until_unix_nanos := until; c_fence := c_fence c |}.
Definition set_fence (f : u64) (c : Claim) : Claim :=
  {| c_journey := c_journey c; c_holder := c_holder c; c_token := c_token c;
     c_until_unix_nanos := c_until_unix_nanos c; c_fence := f |}.

(** [key]. *)
Definition claim_key (claim : Claim) : bytes := be (c_journey claim).

Section operations.
Context {C : Codec}.

(** [stored]. *)
Definition stored (claim : Claim) : prog (option Stored) :=
  o ← batch_read CLAIM (claim_key claim);
  lift (transpose (stored_from_bytes <$> o)).

(** [hold]. *)
Definition hold (claim : Claim) (until : i128) : prog Claim :=
  let claim := set_until until claim in
  batch_put CLAIM (claim_key claim)
    (Some (stored_bytes {| s_claim := claim; s_standing := StandsHeld |}));;
  mret claim.

(** [end]. *)
Definition end_ (claim : Claim) (standing : Standing) : prog unit :=
  batch_put CLAIM (claim_key claim)
    (Some (stored_bytes {| s_claim := claim; s_standing := standing |})).

(** [take]. *)
Definition take (claim : Claim) (now until : i128) (epoch : u64) : prog (option Claim) :=
  before ← stored claim;
  let free :=
    held ← hold (set_fence (fence epoch (s_claim <$> before)) claim) until; mret (Some held) in
  match before with
  | Some st =>
      if bool_decide (s_standing st = StandsHeld) &&
         (ival now <=? ival (c_until_unix_nanos (s_claim st)))%Z
      then mret (if bool_decide (c_token (s_claim st) = c_token claim)
                 then Some (s_claim st) else None)
      else free
  | None => free
  end.

(** The renewal of one claim ([Op::Renew] of commit.rs): a later deadline
    is kept. *)
Definition renew (claim : Claim) (now lease : i128) : prog (option Claim) :=
  o ← stored claim;
  match o with
  | Some st =>
      if held_by st claim then
        let until := i128_sat_add now (ival lease) in
        let until := if (ival until <? ival (c_until_unix_nanos (s_claim st)))%Z
                     then c_until_unix_nanos (s_claim st) else until in
        held ← hold (s_claim st) until; mret (Some held)
      else mret None
  | None => mret None
  end.

(** [Op::Release] of commit.rs. *)
Definition release (claim : Claim) : prog bool :=
  o ← stored claim;
  match o with
  | Some st =>
      if held_by st claim then end_ (s_claim st) Released;; mret true else mret false
  | None => mret false
  end.

(** What a step hands on, its claim aside ([hand_on]): the records it
    writes, then the places it leaves and takes. *)
Definition handed_records (h : HandOn) : prog unit :=
  journey_written (ho_queued h) (ho_result h);;
  for_all (λ message, batch_record MESSAGE (m_message message) message) (ho_messages h);;
  for_all (journey_written (ho_queued h)) (ho_next h).

Definition handed_places (h : HandOn) (now : i128) : prog unit :=
  let journey := c_journey (ho_claim h) in
  for_all (λ queue, let_go_of queue journey) (ho_leaves h);;
  for_all keep (ho_queued h);;
  for_all (λ queue, to_the_end queue journey) (ho_requeued h);;
  match ho_failed h with
  | Some failure => enter journey failure now
  | None => mret tt
  end;;
  for_all (λ queue, clear queue journey) (ho_cleared h);;
  match ho_waits h with
  | Some w => wait (w_queue w) journey (i128_sat_add now (Z.of_N (uval (w_after_nanos w))))
  | None => mret tt
  end.

Definition handed_on (h : HandOn) (now : i128) : prog unit :=
  handed_records h;; handed_places h now.

(** [hand_on]. *)
Definition hand_on (h : HandOn) (now : i128) : prog bool :=
  o ← stored (ho_claim h);
  match o with
  | None => mret false
  | Some st =>
      let ours := is_claim (s_claim st) (ho_claim h) in
      match s_standing st with
      | HandedOn => mret ours
      | Released => mret false
      | StandsHeld =>
          if negb ours then mret false
          else
            handed_on h now;;
            match ho_kept_for_nanos h with
            | Some nanos =>
                hold (s_claim st) (i128_sat_add now (Z.of_N (uval nanos)));; mret tt
            | None => end_ (s_claim st) HandedOn
            end;;
            mret true
      end
  end.
End operations.

(** What a hand-on does besides writing records puts none of these. *)
Definition not_record (kind : string) : Prop := kind ∉ [CLAIM; JOURNEY; MESSAGE].
#[export] Instance not_record_dec kind : Decision (not_record kind).
Proof. unfold not_record. apply _. Defined.

Lemma handed_places_puts {C : Codec} h now : puts_only not_record (handed_places h now).
Proof.
  assert (Forall not_record [HELD; HELD_JOURNEY; PLACES; FAILED; k_by FAILED_KINDS;
    k_places FAILED_KINDS]) as HP by (apply (bool_decide_unpack _); by vm_compute).
  rewrite !Forall_cons in HP. destruct HP as (? & ? & ? & ? & ? & ? & _).
  unfold handed_places. prog_walk.
Qed.

Lemma handed_on_puts {C : Codec} h now : puts_only (.≠ CLAIM) (handed_on h now).
Proof.
  assert (Forall (.≠ CLAIM) [HELD; HELD_JOURNEY; PLACES; ORIGIN; JOURNEY; MESSAGE]) as HP
    by (apply (bool_decide_unpack _); by vm_compute).
  rewrite !Forall_cons in HP. destruct HP as (? & ? & ? & ? & ? & ? & _).
  apply puts_only_bind; [unfold handed_records; prog_walk|]. intros _.
  eapply puts_only_weaken, handed_places_puts. unfold not_record. set_solver.
Qed.

(** ** What the records hold *)

(** The records hold the claims [c], each under its Journey. *)
Record claims_are {C : Codec} (R : records) (c : gmap JourneyId Stored) : Prop := {
  claims_kept j : R !! (CLAIM, be j) = stored_bytes <$> c !! j;
  claims_fit j st : c !! j = Some st → fits (s_claim st) ∧ c_journey (s_claim st) = j;
}.

(** Whether a claim stands in the way of another at [now]: held, and not
    lapsed. *)
Definition standing_at (now : i128) (st : Stored) : bool :=
  bool_decide (s_standing st = StandsHeld) &&
  (ival now <=? ival (c_until_unix_nanos (s_claim st)))%Z.

Section specs.
Context {C : Codec} {CO : CodecOk C}.
Implicit Types (R : records) (c : gmap JourneyId Stored) (st : Stored).

Lemma exec_stored R c claim : claims_are R c →
  exec (stored claim) R = Ok (c !! c_journey claim, R).
Proof.
  intros [Hk Hf]. unfold stored, claim_key. rewrite exec_read, Hk.
  destruct (c !! c_journey claim) as [st|] eqn:E; [|done].
  cbn [fmap option_fmap option_map]. rewrite stored_rt by by eapply Hf. done.
Qed.

Lemma exec_stored_bind {B} R c claim (f : option Stored → prog B) : claims_are R c →
  exec (stored claim ≫= f) R = exec (f (c !! c_journey claim)) R.
Proof. intros H. by rewrite exec_bind, (exec_stored R c). Qed.

(** One claim written. *)
Lemma claims_are_written R c claim standing : claims_are R c → fits claim →
  claims_are
    (record_change R (CLAIM, claim_key claim,
      Some (stored_bytes {| s_claim := claim; s_standing := standing |})))
    (<[c_journey claim := {| s_claim := claim; s_standing := standing |}]> c).
Proof.
  intros [Hk Hf] Hc. split.
  - intros j. rewrite record_changed_at. unfold claim_key. case_decide as Hd.
    + apply pair_equal_spec in Hd as [_ ->%be_inj]. by rewrite lookup_insert_eq.
    + rewrite lookup_insert_ne; [done|]. congruence.
  - intros j st [[<- <-]|[_ Hs]]%lookup_insert_Some; [done|by apply Hf].
Qed.

Lemma claims_are_frame R R' c : (∀ key, R' !! (CLAIM, key) = R !! (CLAIM, key)) →
  claims_are R c → claims_are R' c.
Proof. intros H [Hk Hf]. split; [|done]. intros j. by rewrite H. Qed.

Lemma exec_hold R c claim until : claims_are R c → fits claim →
  ∃ R', exec (hold claim until) R = Ok (set_until until claim, R') ∧
    claims_are R' (<[c_journey claim := {| s_claim := set_until until claim; s_standing := StandsHeld |}]> c).
Proof.
  intros H Hf. eexists. split; [done|]. by apply (claims_are_written R c (set_until until claim)).
Qed.

Lemma exec_end R c claim standing : claims_are R c → fits claim →
  ∃ R', exec (end_ claim standing) R = Ok (tt, R') ∧
    claims_are R' (<[c_journey claim := {| s_claim := claim; s_standing := standing |}]> c).
Proof. intros H Hf. eexists. split; [done|]. by apply claims_are_written. Qed.

(** What a take leaves of the Journey's claim, and answers. *)
Definition take_after (o : option Stored) (claim : Claim) (now until : i128) (epoch : u64) :
    option Claim * option Stored :=
  let taken := set_until until (set_fence (fence epoch (s_claim <$> o)) claim) in
  match o with
  | Some st =>
      if standing_at now st then
        (if bool_decide (c_token (s_claim st) = c_token claim) then Some (s_claim st) else None, o)
      else (Some taken, Some {| s_claim := taken; s_standing := StandsHeld |})
  | None => (Some taken, Some {| s_claim := taken; s_standing := StandsHeld |})
  end.

Lemma exec_take R c claim now until epoch : claims_are R c → fits claim →
  ∃ R', exec (take claim now until epoch) R
      = Ok ((take_after (c !! c_journey claim) claim now until epoch).1, R') ∧
    claims_are R' (partial_alter (λ o, (take_after o claim now until epoch).2) (c_journey claim) c) ∧
    (∀ st, c !! c_journey claim = Some st → standing_at now st = true → R' = R).
Proof.
  intros H Hf. unfold take. rewrite exec_bind, (exec_stored R c) by done.
  cbn [mbind result_bind]. set (j := c_journey claim).
  set (taken := set_until until (set_fence (fence epoch (s_claim <$> c !! j)) claim)).
  assert (∃ R', exec (held ← hold (set_fence (fence epoch (s_claim <$> c !! j)) claim) until; mret (Some held)) R
            = Ok (Some taken, R') ∧
          claims_are R' (<[j := {| s_claim := taken; s_standing := StandsHeld |}]> c)) as (R' & E & H').
  { destruct (exec_hold R c (set_fence (fence epoch (s_claim <$> c !! j)) claim) until H Hf) as (R' & E & H').
    exists R'. rewrite exec_bind, E. done. }
  destruct (c !! j) as [st|] eqn:Es; unfold take_after, standing_at.
  2: { exists R'. split; [done|]. split; [|done].
       erewrite (partial_alter_ext _ (λ _, Some {| s_claim := taken; s_standing := StandsHeld |}));
         [exact H'|]. intros x Hx. rewrite Es in Hx. by subst x. }
  destruct (bool_decide (s_standing st = StandsHeld) &&
    (ival now <=? ival (c_until_unix_nanos (s_claim st)))%Z) eqn:Eb.
  - exists R. split; [done|]. split; [|done].
    erewrite (partial_alter_ext _ (λ _, c !! j)); [by rewrite partial_alter_self|].
    intros x Hx. rewrite Hx, Es in *. subst x. by rewrite Eb.
  - exists R'. split; [done|]. split; [|intros st' [= <-]; by rewrite Eb].
    erewrite (partial_alter_ext _ (λ _, Some {| s_claim := taken; s_standing := StandsHeld |}));
      [exact H'|]. intros x Hx. rewrite Es in Hx. subst x. by rewrite Eb.
Qed.

(** A take of a claim that stands, and of one that does not. *)
Lemma exec_take_held R c claim now until epoch st : claims_are R c → fits claim →
  c !! c_journey claim = Some st → standing_at now st = true →
  exec (take claim now until epoch) R
    = Ok (if bool_decide (c_token (s_claim st) = c_token claim) then Some (s_claim st) else None, R).
Proof.
  intros H Hf Es Est. destruct (exec_take R c claim now until epoch H Hf) as (R' & -> & _ & Hsame).
  rewrite (Hsame st Es Est), Es. unfold take_after. by rewrite Est.
Qed.

Definition taken (o : option Stored) (claim : Claim) (until : i128) (epoch : u64) : Claim :=
  set_until until (set_fence (fence epoch (s_claim <$> o)) claim).

Lemma exec_take_free R c claim now until epoch : claims_are R c → fits claim →
  (∀ st, c !! c_journey claim = Some st → standing_at now st = false) →
  let st' := {| s_claim := taken (c !! c_journey claim) claim until epoch; s_standing := StandsHeld |} in
  ∃ R', exec (take claim now until epoch) R = Ok (Some (s_claim st'), R') ∧
    claims_are R' (<[c_journey claim := st']> c) ∧
    R' !! (CLAIM, be (c_journey claim)) = Some (stored_bytes st') ∧
    (∀ key, key ≠ (CLAIM, be (c_journey claim)) → R' !! key = R !! key).
Proof.
  intros H Hf Hfree st'.
  assert (exec (take claim now until epoch) R = Ok (Some (s_claim st'),
    record_change R (CLAIM, be (c_journey claim), Some (stored_bytes st')))) as E.
  { unfold take. rewrite (exec_stored_bind R c) by done. destruct (c !! c_journey claim) as [st|]; [|done].
    specialize (Hfree _ eq_refl). unfold standing_at in Hfree. by rewrite Hfree. }
  eexists. split; [exact E|]. split; [by apply (claims_are_written R c (s_claim st'))|].
  split; [by rewrite record_changed_at, decide_True|]. intros key Hk.
  by rewrite record_changed_at, decide_False by congruence.
Qed.

Lemma not_standing now st :
  (s_standing st = StandsHeld → (ival (c_until_unix_nanos (s_claim st)) < ival now)%Z) →
  standing_at now st = false.
Proof.
  intros Hl. unfold standing_at. destruct (decide (s_standing st = StandsHeld)) as [Hs|Hs].
  - specialize (Hl Hs). rewrite bool_decide_eq_true_2 by done. by apply Z.leb_gt.
  - by rewrite bool_decide_eq_false_2.
Qed.

(** What a renewal, a release and a hand-on leave of it, and answer. *)
Definition renewed_until (st : Stored) (now lease : i128) : i128 :=
  let until := i128_sat_add now (ival lease) in
  if (ival until <? ival (c_until_unix_nanos (s_claim st)))%Z
  then c_until_unix_nanos (s_claim st) else until.

Definition renew_after (o : option Stored) (claim : Claim) (now lease : i128) :
    option Claim * option Stored :=
  match o with
  | Some st =>
      if held_by st claim then
        let held := set_until (renewed_until st now lease) (s_claim st) in
        (Some held, Some {| s_claim := held; s_standing := StandsHeld |})
      else (None, o)
  | None => (None, o)
  end.

Definition release_after (o : option Stored) (claim : Claim) : bool * option Stored :=
  match o with
  | Some st =>
      if held_by st claim then (true, Some {| s_claim := s_claim st; s_standing := Released |})
      else (false, o)
  | None => (false, o)
  end.

Definition hand_on_after (o : option Stored) (h : HandOn) (now : i128) : bool * option Stored :=
  match o with
  | Some st =>
      if held_by st (ho_claim h) then
        (true, Some match ho_kept_for_nanos h with
                    | Some nanos =>
                        {| s_claim := set_until (i128_sat_add now (Z.of_N (uval nanos))) (s_claim st);
                           s_standing := StandsHeld |}
                    | None => {| s_claim := s_claim st; s_standing := HandedOn |}
                    end)
      else (bool_decide (s_standing st = HandedOn) && is_claim (s_claim st) (ho_claim h), o)
  | None => (false, o)
  end.

(** A claim as it was put over one's own: what [partial_alter] by the
    answer is. *)
Lemma altered (f : option Stored → option Stored) j c o st :
  c !! j = o → f o = Some st → <[j := st]> c = partial_alter f j c.
Proof. intros Ho Hf. apply partial_alter_ext. intros x Hx. rewrite Ho in Hx. by subst x. Qed.
Lemma unaltered (f : option Stored → option Stored) j c o :
  c !! j = o → f o = o → partial_alter f j c = c.
Proof.
  intros Ho Hf. erewrite (partial_alter_ext _ (λ _, c !! j)); [by rewrite partial_alter_self|].
  intros x Hx. by rewrite Hx, <- Hx, Ho.
Qed.

Lemma exec_renew R c claim now lease : claims_are R c →
  ∃ R', exec (renew claim now lease) R
      = Ok ((renew_after (c !! c_journey claim) claim now lease).1, R') ∧
    claims_are R' (partial_alter (λ o, (renew_after o claim now lease).2) (c_journey claim) c) ∧
    ((renew_after (c !! c_journey claim) claim now lease).1 = None → R' = R).
Proof.
  intros H. unfold renew. rewrite (exec_stored_bind R c) by done.
  destruct (c !! c_journey claim) as [st|] eqn:Es.
  2: { exists R. split; [done|]. split; [|done]. by rewrite (unaltered _ _ _ None). }
  destruct (claims_fit _ _ H _ _ Es) as [Hf Hj].
  destruct (held_by st claim) eqn:Eh; unfold renew_after; rewrite ?Eh.
  - destruct (exec_hold R c (s_claim st) (renewed_until st now lease) H Hf) as (R' & E & H').
    exists R'. rewrite exec_bind. unfold renewed_until in E. rewrite E. split; [done|]. split; [|done].
    rewrite Hj in H'. erewrite <- altered; [exact H'|done|]. cbn. by rewrite Eh.
  - exists R. split; [done|]. split; [|done]. rewrite (unaltered _ _ _ (Some st)); [done..|]. cbn. by rewrite Eh.
Qed.

Lemma exec_release R c claim : claims_are R c →
  ∃ R', exec (release claim) R = Ok ((release_after (c !! c_journey claim) claim).1, R') ∧
    claims_are R' (partial_alter (λ o, (release_after o claim).2) (c_journey claim) c) ∧
    ((release_after (c !! c_journey claim) claim).1 = false → R' = R).
Proof.
  intros H. unfold release. rewrite (exec_stored_bind R c) by done.
  destruct (c !! c_journey claim) as [st|] eqn:Es.
  2: { exists R. split; [done|]. split; [|done]. by rewrite (unaltered _ _ _ None). }
  destruct (claims_fit _ _ H _ _ Es) as [Hf Hj].
  destruct (held_by st claim) eqn:Eh; unfold release_after; rewrite ?Eh.
  - destruct (exec_end R c (s_claim st) Released H Hf) as (R' & E & H').
    exists R'. rewrite exec_bind, E. split; [done|]. split; [|done].
    rewrite Hj in H'. erewrite <- altered; [exact H'|done|]. cbn. by rewrite Eh.
  - exists R. split; [done|]. split; [|done]. rewrite (unaltered _ _ _ (Some st)); [done..|]. cbn. by rewrite Eh.
Qed.

(** A hand-on that returned. *)
Lemma exec_hand_on R c h now b R' : claims_are R c → exec (hand_on h now) R = Ok (b, R') →
  let o := c !! c_journey (ho_claim h) in
  b = (hand_on_after o h now).1 ∧
  claims_are R' (partial_alter (λ o, (hand_on_after o h now).2) (c_journey (ho_claim h)) c) ∧
  ((∀ st, o = Some st → held_by st (ho_claim h) = false) → R' = R).
Proof.
  intros H. unfold hand_on. rewrite (exec_stored_bind R c) by done. cbv zeta.
  destruct (c !! c_journey (ho_claim h)) as [st|] eqn:Es.
  2: { intros [= <- <-]. split; [done|]. split; [|done]. by rewrite (unaltered _ _ _ None). }
  destruct (claims_fit _ _ H _ _ Es) as [Hf Hj].
  destruct (held_by st (ho_claim h)) eqn:Eh; unfold hand_on_after; rewrite ?Eh; unfold held_by in Eh.
  - apply andb_true_iff in Eh as [Est Eis]. apply bool_decide_eq_true in Est.
    rewrite Est, Eis. cbn [negb]. intros E.
    apply exec_bind_Ok in E as ([] & R1 & E1 & E).
    assert (claims_are R1 c) as H1.
    { eapply claims_are_frame, H. intros key.
      eapply exec_puts_only; [apply handed_on_puts|exact E1|]. by intros []. }
    assert (held_by st (ho_claim h) = true) as Eh.
    { unfold held_by. by rewrite Est, Eis, bool_decide_eq_true_2. }
    destruct (ho_kept_for_nanos h) as [nanos|] eqn:Ek.
    + destruct (exec_hold R1 c (s_claim st) (i128_sat_add now (Z.of_N (uval nanos))) H1 Hf) as (R2 & E2 & H2).
      rewrite !exec_bind, E2 in E. cbn in E. injection E as <- <-. split; [done|].
      split; [|intros Hn; by rewrite Hn in Eh by done].
      rewrite Hj in H2. erewrite <- altered; [exact H2|done|]. cbn. by rewrite Eh.
    + destruct (exec_end R1 c (s_claim st) HandedOn H1 Hf) as (R2 & E2 & H2).
      rewrite !exec_bind, E2 in E. cbn in E. injection E as <- <-. split; [done|].
      split; [|intros Hn; by rewrite Hn in Eh by done].
      rewrite Hj in H2. erewrite <- altered; [exact H2|done|]. cbn. by rewrite Eh.
  - assert (claims_are R (partial_alter (λ o, (hand_on_after o h now).2) (c_journey (ho_claim h)) c)) as Hsame.
    { rewrite (unaltered _ _ _ (Some st)); [done..|]. unfold hand_on_after, held_by. by rewrite Eh. }
    destruct (s_standing st) eqn:Est.
    + rewrite bool_decide_eq_true_2 in Eh by done. cbn [andb] in Eh. rewrite Eh. intros [= <- <-]. by split.
    + intros [= <- <-]. by split.
    + intros [= <- <-]. by split.
Qed.
(** What a hand-on left, asked again: done, and nothing is written. *)
Lemma hand_on_again R2 c2 o h now h' now' :
  claims_are R2 c2 → c2 !! c_journey (ho_claim h) = (hand_on_after o h now).2 →
  (hand_on_after o h now).1 = true → ho_kept_for_nanos h = None → ho_claim h' = ho_claim h →
  exec (hand_on h' now') R2 = Ok (true, R2).
Proof.
  intros H2 Es Hb Hk Eh. unfold hand_on. rewrite (exec_stored_bind R2 _ _ _ H2), Eh, Es.
  unfold hand_on_after in *. destruct o as [st|]; [|done].
  destruct (held_by st (ho_claim h)) eqn:Eheld; cbn [fst snd] in *.
  - rewrite Hk. cbn. unfold held_by in Eheld. apply andb_true_iff in Eheld as [_ ->]. done.
  - apply andb_true_iff in Hb as [Hst ->]. apply bool_decide_eq_true in Hst. cbv zeta. by rewrite Hst.
Qed.

Lemma is_claim_true (a b : Claim) : is_claim a b = true ↔ c_token a = c_token b ∧ c_fence a = c_fence b.
Proof. unfold is_claim. by rewrite andb_true_iff, !bool_decide_eq_true. Qed.

(** A hand-on of a Message never claimed. *)
Lemma hand_on_unclaimed R c h now : claims_are R c → c !! c_journey (ho_claim h) = None →
  exec (hand_on h now) R = Ok (false, R).
Proof. intros H Es. unfold hand_on. by rewrite (exec_stored_bind R c), Es. Qed.

(** One claim's record, one claim. *)
Lemma claims_same R1 c1 R2 c2 claim : claims_are R1 c1 → claims_are R2 c2 →
  R1 !! (CLAIM, claim_key claim) = R2 !! (CLAIM, claim_key claim) →
  c1 !! c_journey claim = c2 !! c_journey claim.
Proof.
  intros H1 H2. unfold claim_key. rewrite (claims_kept _ _ H1), (claims_kept _ _ H2).
  destruct (c1 !! _) as [st1|] eqn:E1, (c2 !! _) as [st2|] eqn:E2; try done.
  intros Hb%(inj Some). f_equal.
  assert (stored_from_bytes (stored_bytes st1) = stored_from_bytes (stored_bytes st2)) as Hrt by by rewrite Hb.
  destruct (claims_fit _ _ H1 _ _ E1) as [Hf1 _], (claims_fit _ _ H2 _ _ E2) as [Hf2 _].
  rewrite !stored_rt in Hrt by done. by injection Hrt.
Qed.
End specs.

(** ** Fences *)

Lemma lor_shifted (a b : N) : (b < 2 ^ 32)%N → N.lor (N.shiftl a 32) b = (a * 2 ^ 32 + b)%N.
Proof.
  intros Hb. rewrite N.shiftl_mul_pow2.
  assert (N.land (a * 2 ^ 32) b = 0%N) as Hl.
  { apply N.bits_inj. intros i. rewrite N.land_spec, N.bits_0.
    destruct (N.lt_ge_cases i 32) as [Hi|Hi].
    - by rewrite N.mul_pow2_bits_low.
    - destruct (decide (b = 0%N)) as [->|Hb0]; [by rewrite N.bits_0, andb_false_r|].
      rewrite (N.bits_above_log2 b), andb_false_r; [done|].
      apply N.lt_le_trans with 32%N; [|done]. apply N.log2_lt_pow2; lia. }
  by rewrite <- N.lxor_lor, N.add_nocarry_lxor.
Qed.

Definition holders_of (before : option Claim) : N :=
  match before with Some claim => (uval (c_fence claim) mod 2 ^ 32)%N | None => 0%N end.

(** The epoch and the holder count, as one number. *)
Lemma uval_fence (epoch : u64) before : (uval epoch < 2 ^ 32)%N →
  uval (fence epoch before) = (uval epoch * 2 ^ 32 + N.min (holders_of before + 1) (2 ^ 32 - 1))%N.
Proof.
  intros He. unfold fence, low32.
  assert (match before with Some claim => N.land (uval (c_fence claim)) (2 ^ 32 - 1) | None => 0 end
          = holders_of before)%N as ->.
  { destruct before as [claim|]; [|done]. cbn [holders_of].
    change (2 ^ 32 - 1)%N with (N.ones 32). apply N.land_ones. }
  rewrite (uval_wrap_small (N.shiftl (uval epoch) 32)).
  2: { rewrite N.shiftl_mul_pow2. unfold bound. cbn [N.of_nat]. lia. }
  rewrite lor_shifted by lia. rewrite uval_wrap_small; [done|].
  unfold bound. cbn [N.of_nat]. lia.
Qed.

(** A fence of an epoch not after [e]. *)
Definition fence_by (e : N) (c : Claim) : Prop := (uval (c_fence c) < (e + 1) * 2 ^ 32)%N.
(** As many holders as a fence counts. *)
Definition counted_out (c : Claim) : Prop := (uval (c_fence c) mod 2 ^ 32 = 2 ^ 32 - 1)%N.

Lemma fence_next (epoch : u64) (b : Claim) : (uval epoch < 2 ^ 32)%N → fence_by (uval epoch) b →
  (uval (c_fence b) ≤ uval (fence epoch (Some b)))%N ∧
  (¬ counted_out b → (uval (c_fence b) < uval (fence epoch (Some b)))%N).
Proof.
  intros He Hb. rewrite uval_fence by done. unfold fence_by, counted_out, holders_of in *.
  pose proof (N.div_mod (uval (c_fence b)) (2 ^ 32)) as Hd.
  pose proof (N.mod_lt (uval (c_fence b)) (2 ^ 32)) as Hm.
  assert (uval (c_fence b) / 2 ^ 32 < uval epoch + 1)%N by (apply N.Div0.div_lt_upper_bound; lia).
  set (q := (uval (c_fence b) / 2 ^ 32)%N) in *. set (r := (uval (c_fence b) mod 2 ^ 32)%N) in *.
  change (2 ^ 32)%N with 4294967296%N in *. split; [|intros]; nia.
Qed.

Lemma fence_by_own (epoch : u64) before : (uval epoch < 2 ^ 32)%N →
  (uval (fence epoch before) < (uval epoch + 1) * 2 ^ 32)%N.
Proof. intros He. rewrite uval_fence by done. lia. Qed.

Lemma fence_epoch (epoch : u64) before : (uval epoch < 2 ^ 32)%N →
  (uval (fence epoch before) / 2 ^ 32 = uval epoch)%N.
Proof.
  intros He. rewrite uval_fence by done. symmetry.
  apply (N.div_unique _ _ _ (N.min (holders_of before + 1) (2 ^ 32 - 1))); lia.
Qed.

(** Later than the last, or the last the epoch counts. *)
Lemma fence_later (epoch : u64) (b : Claim) : (uval epoch < 2 ^ 32)%N → fence_by (uval epoch) b →
  (uval (c_fence b) < uval (fence epoch (Some b)))%N ∨
  (uval (fence epoch (Some b)) = uval (c_fence b) ∧ uval (c_fence b) mod 2 ^ 32 = 2 ^ 32 - 1)%N.
Proof.
  intros He Hb. destruct (fence_next epoch b He Hb) as [Hle Hlt].
  apply N.le_lteq in Hle as [Hl|Hl]; [by left|].
  destruct (decide (counted_out b)) as [Ho|Ho]; [by right|left; by apply Hlt].
Qed.

(** ** Claims over time *)

(** One write of the one writer, of the epoch it is the primary in: of a
    claim, or one that leaves the claims alone; or a later epoch. *)
Inductive claim_step {C : Codec} : u64 * records → u64 * records → Prop :=
  | step_epoch e e' R : (uval e ≤ uval e')%N → (uval e' < 2 ^ 32)%N → claim_step (e, R) (e', R)
  | step_take e R R' claim now until r : fits claim →
      exec (take claim now until e) R = Ok (r, R') → claim_step (e, R) (e, R')
  | step_renew e R R' claim now lease r :
      exec (renew claim now lease) R = Ok (r, R') → claim_step (e, R) (e, R')
  | step_release e R R' claim r :
      exec (release claim) R = Ok (r, R') → claim_step (e, R) (e, R')
  | step_hand_on e R R' h now b :
      exec (hand_on h now) R = Ok (b, R') → claim_step (e, R) (e, R')
  | step_other e R R' : (∀ key, R' !! (CLAIM, key) = R !! (CLAIM, key)) →
      claim_step (e, R) (e, R').

(** Claims in order: each as written, none of a later epoch. *)
Definition claims_ok {C : Codec} (eR : u64 * records) (c : gmap JourneyId Stored) : Prop :=
  claims_are eR.2 c ∧ (uval eR.1 < 2 ^ 32)%N ∧
  ∀ j st, c !! j = Some st → fence_by (uval eR.1) (s_claim st).

(** No claim goes, and no fence goes back. *)
Definition grown (c c' : gmap JourneyId Stored) : Prop :=
  ∀ j st, c !! j = Some st →
    ∃ st', c' !! j = Some st' ∧ (uval (c_fence (s_claim st)) ≤ uval (c_fence (s_claim st')))%N.

#[export] Instance grown_preorder : PreOrder grown.
Proof.
  split; [intros c j st Hj; eauto|]. intros c c1 c2 H1 H2 j st Hj.
  destruct (H1 _ _ Hj) as (st1 & Hj1 & Hle1). destruct (H2 _ _ Hj1) as (st2 & Hj2 & Hle2).
  exists st2. split; [done|lia].
Qed.

Section steps.
Context {C : Codec} {CO : CodecOk C}.

(** What changes one claim into one of a fence not less. *)
Lemma claims_ok_alter e R R' c j (f : option Stored → option Stored) :
  claims_ok (e, R) c → claims_are R' (partial_alter f j c) →
  (∀ st', f (c !! j) = Some st' → fence_by (uval e) (s_claim st')) →
  (∀ st, c !! j = Some st → ∃ st', f (Some st) = Some st' ∧
     (uval (c_fence (s_claim st)) ≤ uval (c_fence (s_claim st')))%N) →
  claims_ok (e, R') (partial_alter f j c) ∧ grown c (partial_alter f j c).
Proof.
  intros (H & He & Hb) H' Hf Hg. split; [split; [done|split; [done|]]|].
  - intros j' st. destruct (decide (j = j')) as [<-|Hne].
    + rewrite lookup_partial_alter_eq. apply Hf.
    + rewrite lookup_partial_alter_ne by done. apply Hb.
  - intros j' st Hj. destruct (decide (j = j')) as [<-|Hne].
    + rewrite lookup_partial_alter_eq, Hj. by apply Hg.
    + rewrite lookup_partial_alter_ne by done. eauto.
Qed.

Lemma claim_step_ok eR eR' c : claim_step eR eR' → claims_ok eR c →
  ∃ c', claims_ok eR' c' ∧ grown c c'.
Proof.
  intros Hs H. pose proof H as (Hc & He & Hb). destruct Hs as
    [e e' R Hle Hlt|e R R' claim now until r Hf E|e R R' claim now lease r E|e R R' claim r E
    |e R R' h now b E|e R R' Ho]; cbn [fst snd] in *.
  - exists c. split; [|done]. split; [done|]. split; [done|]. intros j st Hj.
    apply Hb in Hj. unfold fence_by in *. cbn. lia.
  - destruct (exec_take R c claim now until e Hc Hf) as (R1 & E1 & H1 & _).
    rewrite E1 in E. injection E as <- <-. eexists. eapply (claims_ok_alter e R R1 c); [done..| |].
    + intros st'. unfold take_after. destruct (c !! c_journey claim) as [st|] eqn:Es.
      * destruct (standing_at now st); intros [= <-]; [by eapply Hb|]. by apply fence_by_own.
      * intros [= <-]. by apply fence_by_own.
    + intros st Es. unfold take_after. destruct (standing_at now st); eexists; (split; [done|]); [done|].
      apply fence_next; [done|]. by eapply Hb.
  - destruct (exec_renew R c claim now lease Hc) as (R1 & E1 & H1 & _).
    rewrite E1 in E. injection E as <- <-. eexists. eapply (claims_ok_alter e R R1 c); [done..| |].
    + intros st'. unfold renew_after. destruct (c !! c_journey claim) as [st|] eqn:Es; [|done].
      destruct (held_by st claim); intros [= <-]; exact (Hb _ _ Es).
    + intros st Es. unfold renew_after. destruct (held_by st claim); by eexists.
  - destruct (exec_release R c claim Hc) as (R1 & E1 & H1 & _).
    rewrite E1 in E. injection E as <- <-. eexists. eapply (claims_ok_alter e R R1 c); [done..| |].
    + intros st'. unfold release_after. destruct (c !! c_journey claim) as [st|] eqn:Es; [|done].
      destruct (held_by st claim); intros [= <-]; exact (Hb _ _ Es).
    + intros st Es. unfold release_after. destruct (held_by st claim); by eexists.
  - destruct (exec_hand_on R c h now b R' Hc E) as (_ & H1 & _).
    eexists. eapply (claims_ok_alter e R R' c); [done..| |].
    + intros st'. unfold hand_on_after. destruct (c !! c_journey (ho_claim h)) as [st|] eqn:Es; [|done].
      destruct (held_by st (ho_claim h)); [destruct (ho_kept_for_nanos h)|]; intros [= <-]; exact (Hb _ _ Es).
    + intros st Es. unfold hand_on_after. destruct (held_by st (ho_claim h)); [|by eexists].
      destruct (ho_kept_for_nanos h); by eexists.
  - exists c. split; [|done]. split; [by eapply claims_are_frame|done].
Qed.

Lemma claim_steps_ok eR eR' c : rtc claim_step eR eR' → claims_ok eR c →
  ∃ c', claims_ok eR' c' ∧ grown c c'.
Proof.
  intros Hs. revert c. induction Hs as [eR|eR eR1 eR2 H1 _ IH]; intros c H; [by exists c|].
  destruct (claim_step_ok _ _ _ H1 H) as (c1 & Hc1 & Hg1).
  destruct (IH _ Hc1) as (c2 & Hc2 & Hg2). exists c2. split; [done|by etrans].
Qed.

(** What a claim that is not the one kept is answered. *)
Lemma not_held R c X st : claims_are R c → c !! c_journey X = Some st → is_claim (s_claim st) X = false →
  (∀ now lease, exec (renew X now lease) R = Ok (None, R)) ∧
  exec (release X) R = Ok (false, R) ∧
  (∀ h now, ho_claim h = X → exec (hand_on h now) R = Ok (false, R)).
Proof.
  intros H Hs Hx.
  assert (held_by st X = false) as Hh by (unfold held_by; by rewrite Hx, andb_false_r).
  split; [|split].
  - intros now lease. destruct (exec_renew R c X now lease H) as (R' & E & _ & Hn).
    rewrite Hs in *. unfold renew_after in *. rewrite Hh in *. rewrite E. by rewrite Hn.
  - destruct (exec_release R c X H) as (R' & E & _ & Hn).
    rewrite Hs in *. unfold release_after in *. rewrite Hh in *. rewrite E. by rewrite Hn.
  - intros h now <-. unfold hand_on. rewrite (exec_stored_bind R c), Hs by done. cbv zeta.
    rewrite Hx. by destruct (s_standing st).
Qed.
End steps.

(** ** Records written one after another *)

(** What a loop that writes each of [l] under its own identifier leaves. *)
Lemma exec_written_each {C : Codec} {A} {FA : Form A} (kind : string) (id : A → u128)
    (before : A → prog unit) (l : list A) R R' :
  (∀ a, puts_only (λ k, k ≠ kind) (before a)) → NoDup (id <$> l) →
  exec (for_all (λ a, before a;; batch_record kind (id a) a) l) R = Ok (tt, R') →
  (∀ a, a ∈ l → R' !! (kind, be (id a)) = Some (to_bytes a)) ∧
  (∀ key, key ∉ (be ∘ id <$> l) → R' !! (kind, key) = R !! (kind, key)).
Proof.
  intros Hb. revert R. induction l as [|a l IH]; intros R Hn E; cbn [for_all] in E.
  { injection E as <-. split; [by intros a ?%elem_of_nil|done]. }
  rewrite fmap_cons in Hn. apply NoDup_cons in Hn as [Ha Hn].
  apply exec_bind_Ok in E as ([] & R1 & E1 & E). apply exec_bind_Ok in E1 as ([] & R0 & E0 & E1).
  injection E1 as <-. destruct (IH _ Hn E) as [H1 H2]. split.
  - intros b [->|Hbl]%elem_of_cons; [|by apply H1].
    rewrite H2; [by rewrite lookup_insert_eq|].
    intros (b' & Eb%be_inj & Hb')%list_elem_of_fmap. destruct Ha. apply list_elem_of_fmap. eauto.
  - intros key [Hk1 Hk2]%not_elem_of_cons. rewrite H2 by done. cbn [record_change].
    rewrite lookup_insert_ne by (intros [= E']; by destruct Hk1).
    eapply exec_puts_only; [apply Hb|exact E0|]. by intros [].
Qed.

Lemma handed_on_written {C : Codec} h now R R' :
  NoDup (m_message <$> ho_messages h) → NoDup (j_journey <$> ho_result h :: ho_next h) →
  exec (handed_on h now) R = Ok (tt, R') →
  (∀ m, m ∈ ho_messages h → R' !! (MESSAGE, be (m_message m)) = Some (to_bytes m)) ∧
  (∀ j, j ∈ ho_result h :: ho_next h → R' !! (JOURNEY, be (j_journey j)) = Some (to_bytes j)).
Proof.
  intros Hm Hj E. rewrite fmap_cons in Hj. apply NoDup_cons in Hj as [Hj0 Hj].
  apply exec_bind_Ok in E as ([] & R3 & E & Ep).
  apply exec_bind_Ok in E as ([] & R1 & E1 & E). apply exec_bind_Ok in E as ([] & R2 & E2 & E3).
  assert (∀ kind key, ¬ not_record kind → R' !! (kind, key) = R3 !! (kind, key)) as Hplaces.
  { intros kind key. by apply (exec_puts_only not_record _ _ _ _ (handed_places_puts h now) Ep). }
  assert (Forall (.≠ JOURNEY) [HELD; HELD_JOURNEY; PLACES; ORIGIN]) as HJ
    by (apply (bool_decide_unpack _); by vm_compute).
  assert (Forall (.≠ MESSAGE) [HELD; HELD_JOURNEY; PLACES; ORIGIN; JOURNEY]) as HM
    by (apply (bool_decide_unpack _); by vm_compute).
  rewrite !Forall_cons in HJ. rewrite !Forall_cons in HM.
  destruct HJ as (? & ? & ? & ? & _), HM as (? & ? & ? & ? & ? & _).
  destruct (exec_written_each JOURNEY j_journey (λ j, counted j (ho_queued h)) [ho_result h] R R1)
    as [Hres _]; [intros; prog_walk|apply NoDup_singleton| |].
  { cbn [for_all]. rewrite exec_bind. unfold journey_written in E1. by rewrite E1. }
  destruct (exec_written_each MESSAGE m_message (λ _, mret tt) (ho_messages h) R1 R2)
    as [Hmes _]; [done|done|exact E2|].
  destruct (exec_written_each JOURNEY j_journey (λ j, counted j (ho_queued h)) (ho_next h) R2 R3)
    as [Hnext Hkept]; [intros; prog_walk|done|exact E3|].
  assert (∀ key, R3 !! (MESSAGE, key) = R2 !! (MESSAGE, key)) as HM23.
  { intros key. eapply (exec_puts_only (.≠ MESSAGE)); [|exact E3|by intros []]. prog_walk. }
  assert (∀ key, R2 !! (JOURNEY, key) = R1 !! (JOURNEY, key)) as HJ12.
  { intros key. eapply (exec_puts_only (.≠ JOURNEY)); [|exact E2|by intros []].
    apply puts_only_for_all. intros m. by apply puts_only_record. }
  assert (¬ not_record MESSAGE ∧ ¬ not_record JOURNEY) as [HnM HnJ] by (unfold not_record; set_solver).
  split.
  - intros m Hin. rewrite Hplaces, HM23 by done. by apply Hmes.
  - intros j Hin. rewrite Hplaces by done. apply elem_of_cons in Hin as [->|Hin]; [|by apply Hnext].
    rewrite Hkept.
    + rewrite HJ12. apply Hres. by left.
    + intros (j' & Ej%be_inj & Hj')%list_elem_of_fmap. destruct Hj0. apply list_elem_of_fmap. eauto.
Qed.

(** What a hand-on of a claim that is held leaves. *)
Lemma hand_on_written {C : Codec} {CO : CodecOk C} R R' c h now st :
  claims_are R c → c !! c_journey (ho_claim h) = Some st → held_by st (ho_claim h) = true →
  NoDup (m_message <$> ho_messages h) → NoDup (j_journey <$> ho_result h :: ho_next h) →
  exec (hand_on h now) R = Ok (true, R') →
  (∀ m, m ∈ ho_messages h → R' !! (MESSAGE, be (m_message m)) = Some (to_bytes m)) ∧
  (∀ j, j ∈ ho_result h :: ho_next h → R' !! (JOURNEY, be (j_journey j)) = Some (to_bytes j)) ∧
  R' !! (CLAIM, claim_key (ho_claim h)) = Some (stored_bytes
    match ho_kept_for_nanos h with
    | Some nanos => {| s_claim := set_until (i128_sat_add now (Z.of_N (uval nanos))) (s_claim st);
                       s_standing := StandsHeld |}
    | None => {| s_claim := s_claim st; s_standing := HandedOn |}
    end).
Proof.
  intros H Hs Eh Hm Hj E. destruct (exec_hand_on R c h now true R' H E) as (_ & H' & _).
  pose proof Eh as Eis. unfold held_by in Eis. apply andb_true_iff in Eis as [Hst Eis].
  apply bool_decide_eq_true in Hst.
  unfold hand_on in E. rewrite (exec_stored_bind R c), Hs in E by done. cbv zeta in E.
  rewrite Hst, Eis in E. cbn [negb] in E. apply exec_bind_Ok in E as ([] & R1 & E1 & E).
  destruct (handed_on_written h now R R1 Hm Hj E1) as [Hmes Hjou].
  assert (∀ kind key, kind ≠ CLAIM → R' !! (kind, key) = R1 !! (kind, key)) as Hc.
  { intros kind key Hk. eapply (exec_puts_only (λ k, k = CLAIM)); [|exact E|done].
    destruct (ho_kept_for_nanos h); prog_walk; by apply puts_only_put. }
  split; [|split].
  - intros m Hin. rewrite Hc by done. by apply Hmes.
  - intros j Hin. rewrite Hc by done. by apply Hjou.
  - unfold claim_key. rewrite (claims_kept _ _ H'), lookup_partial_alter_eq, Hs.
    cbn [hand_on_after]. rewrite Eh. by destruct (ho_kept_for_nanos h).
Qed.

(** ** The theorems *)

Module ClaimTheorems.
Section theorems.
Context {C : Codec} {CO : CodecOk C}.

(** C2. A claim its Message has passed from is refused for ever.
    Whatever the writer takes, renews, releases, hands on or writes
    besides, through however many epochs, no Message's claim is lost and
    its fence never goes back; so a claim of a lower fence than the one
    kept - a holder's that stalled while another took the Message - is
    never renewed again, never released, and its step never handed on,
    and none of the three writes anything. *)
Theorem passed_claim_refused (e e' : u64) (R R' : records) (c : gmap JourneyId Stored)
    (X : Claim) (st : Stored) :
  claims_ok (e, R) c → c !! c_journey X = Some st →
  (uval (c_fence X) < uval (c_fence (s_claim st)))%N →
  rtc claim_step (e, R) (e', R') →
  (∀ now lease, exec (renew X now lease) R' = Ok (None, R')) ∧
  exec (release X) R' = Ok (false, R') ∧
  (∀ h now, ho_claim h = X → exec (hand_on h now) R' = Ok (false, R')).
Proof.
  intros H Hs Hlt Hrun. destruct (claim_steps_ok _ _ _ Hrun H) as (c' & (Hc' & _) & Hg).
  destruct (Hg _ _ Hs) as (st' & Hs' & Hle). apply (not_held R' c' X st' Hc' Hs').
  unfold is_claim. apply andb_false_iff. right. apply bool_decide_eq_false. intros E. rewrite E in *. lia.
Qed.

(** C3. A Message is claimed by one holder at a time. Where its
    claim is held and has not lapsed, a take answers nobody but the
    holder's own token, that token with the claim as it stands, and
    writes nothing. Where there is none, or it ended or lapsed, the take
    is answered with the claim, held by its own holder and token until
    the time asked; that claim is kept, nothing besides it is written,
    and until it lapses every other token is refused, whatever the
    epoch. Its fence is of the epoch it is taken in, and later than the
    last claim's - but where as many holders as a fence counts have had
    the Message in the one epoch, whose last fence is then kept. *)
Theorem claimed_by_one (R : records) (e : u64) (c : gmap JourneyId Stored)
    (claim : Claim) (now until : i128) :
  claims_ok (e, R) c → fits claim →
  (∀ st, c !! c_journey claim = Some st → s_standing st = StandsHeld →
     (ival now ≤ ival (c_until_unix_nanos (s_claim st)))%Z →
     exec (take claim now until e) R
       = Ok (if bool_decide (c_token (s_claim st) = c_token claim) then Some (s_claim st) else None, R)) ∧
  ((∀ st, c !! c_journey claim = Some st → s_standing st = StandsHeld →
      (ival (c_until_unix_nanos (s_claim st)) < ival now)%Z) →
   ∃ held R',
     exec (take claim now until e) R = Ok (Some held, R') ∧
     (c_journey held = c_journey claim ∧ c_holder held = c_holder claim ∧
      c_token held = c_token claim ∧ c_until_unix_nanos held = until) ∧
     (uval (c_fence held) / 2 ^ 32 = uval e)%N ∧
     (∀ st, c !! c_journey claim = Some st →
        (uval (c_fence (s_claim st)) < uval (c_fence held))%N ∨
        (uval (c_fence held) = uval (c_fence (s_claim st)) ∧
         uval (c_fence (s_claim st)) mod 2 ^ 32 = 2 ^ 32 - 1)%N) ∧
     R' !! (CLAIM, be (c_journey claim)) = Some (stored_bytes {| s_claim := held; s_standing := StandsHeld |}) ∧
     (∀ key, key ≠ (CLAIM, be (c_journey claim)) → R' !! key = R !! key) ∧
     (∀ other now' until' e', c_journey other = c_journey claim → c_token other ≠ c_token claim →
        fits other → (ival now' ≤ ival until)%Z →
        exec (take other now' until' e') R' = Ok (None, R'))).
Proof.
  intros (H & He & Hb) Hf. split.
  - intros st Es Hst Hnow. apply (exec_take_held R c claim now until e st H Hf Es).
    unfold standing_at. rewrite bool_decide_eq_true_2 by done. by apply Z.leb_le.
  - intros Hfree. destruct (exec_take_free R c claim now until e H Hf) as (R' & E & H' & Hat & Hoff).
    { intros st Es. apply not_standing. by apply Hfree. }
    eexists _, R'. split; [exact E|]. split; [done|]. split; [by apply fence_epoch|]. split.
    { intros st Es. rewrite Es. apply fence_later; [done|]. exact (Hb _ _ Es). }
    split; [exact Hat|]. split; [exact Hoff|].
    intros other now' until' e' Hj Ht Hfo Hnow.
    rewrite (exec_take_held R' _ other now' until' e' _ H' Hfo ltac:(by rewrite Hj; apply lookup_insert_eq)).
    + by rewrite bool_decide_eq_false_2 by (cbn; congruence).
    + unfold standing_at. cbn. rewrite bool_decide_eq_true_2 by done. by apply Z.leb_le.
Qed.

(** C5. A step is handed on once. A hand-on that ended its claim,
    asked again after a lost answer - by the same token and fence, at
    whatever time, whatever it carries and whatever else was written
    meanwhile - is answered that it was done and writes nothing. A
    hand-on of a Message never claimed, one by another token or fence
    than its claim's, and one of a claim that was released, is refused
    and writes nothing. *)
Theorem handed_on_once (R : records) (c : gmap JourneyId Stored) :
  claims_are R c →
  (∀ h now R', ho_kept_for_nanos h = None → exec (hand_on h now) R = Ok (true, R') →
     ∀ R2 c2 h' now', claims_are R2 c2 →
       R2 !! (CLAIM, claim_key (ho_claim h)) = R' !! (CLAIM, claim_key (ho_claim h)) →
       ho_claim h' = ho_claim h → exec (hand_on h' now') R2 = Ok (true, R2)) ∧
  (∀ h now, c !! c_journey (ho_claim h) = None → exec (hand_on h now) R = Ok (false, R)) ∧
  (∀ h now st, c !! c_journey (ho_claim h) = Some st →
     c_token (s_claim st) ≠ c_token (ho_claim h) ∨ c_fence (s_claim st) ≠ c_fence (ho_claim h) →
     exec (hand_on h now) R = Ok (false, R)) ∧
  (∀ claim R1, exec (release claim) R = Ok (true, R1) →
     ∀ h' now', c_journey (ho_claim h') = c_journey claim →
     exec (hand_on h' now') R1 = Ok (false, R1)).
Proof.
  intros H. split; [|split; [|split]].
  - intros h now R' Hk E R2 c2 h' now' H2 Hsame Eh.
    destruct (exec_hand_on R c h now true R' H E) as (Hb & H' & _).
    apply (hand_on_again R2 c2 (c !! c_journey (ho_claim h)) h now); try done.
    pose proof (claims_same _ _ _ _ _ H2 H' Hsame) as Hl. by rewrite lookup_partial_alter_eq in Hl.
  - intros h now Es. by apply (hand_on_unclaimed R c).
  - intros h now st Es Hne. apply (not_held R c (ho_claim h) st H Es); [|done].
    apply not_true_iff_false. intros [Ht Hfe]%is_claim_true. by destruct Hne.
  - intros claim R1 E1 h' now' Ej.
    destruct (exec_release R c claim H) as (R1' & E1' & H1 & _). rewrite E1' in E1.
    injection E1 as E1 <-. unfold hand_on. rewrite (exec_stored_bind R1' _ _ _ H1), Ej.
    rewrite lookup_partial_alter_eq. unfold release_after in *.
    destruct (c !! c_journey claim) as [st|] eqn:Es; [|done].
    by destruct (held_by st claim).
Qed.

(** C6. A hand-on is all or nothing. Of a Message whose claim is held,
    the claim's own token and fence are answered yes, with every Message
    the step made and the Journeys that go on from it written in the one
    write, each under its identifier - no two Messages and no two
    Journeys of it being of one identifier -, the claimed Message's own
    Journey as the step left it, and the claim ended handed on, or held
    on by its holder until the time asked; anybody else is answered no
    and nothing is written. Of a Message never claimed, or whose claim
    was released, the answer is no, and of one handed on already it is
    yes to that token and fence alone: nothing is written. *)
Theorem hand_on_whole (R R' : records) (c : gmap JourneyId Stored) (h : HandOn) (now : i128) (b : bool) :
  claims_are R c →
  NoDup (m_message <$> ho_messages h) → NoDup (j_journey <$> ho_result h :: ho_next h) →
  exec (hand_on h now) R = Ok (b, R') →
  match c !! c_journey (ho_claim h) with
  | None => b = false ∧ R' = R
  | Some st =>
      let ours := c_token (s_claim st) = c_token (ho_claim h) ∧ c_fence (s_claim st) = c_fence (ho_claim h) in
      match s_standing st with
      | StandsHeld => (b = true ↔ ours) ∧
          if b then
            (∀ m, m ∈ ho_messages h → R' !! (MESSAGE, be (m_message m)) = Some (to_bytes m)) ∧
            (∀ j, j ∈ ho_result h :: ho_next h → R' !! (JOURNEY, be (j_journey j)) = Some (to_bytes j)) ∧
            R' !! (CLAIM, claim_key (ho_claim h)) = Some (stored_bytes
              match ho_kept_for_nanos h with
              | Some nanos => {| s_claim := set_until (i128_sat_add now (Z.of_N (uval nanos))) (s_claim st);
                                 s_standing := StandsHeld |}
              | None => {| s_claim := s_claim st; s_standing := HandedOn |}
              end)
          else R' = R
      | Released => b = false ∧ R' = R
      | HandedOn => (b = true ↔ ours) ∧ R' = R
      end
  end.
Proof.
  intros H Hm Hj E. destruct (exec_hand_on R c h now b R' H E) as (Hb & H' & Hsame).
  destruct (c !! c_journey (ho_claim h)) as [st|] eqn:Hs; cbn [hand_on_after] in Hb.
  2: { split; [done|]. by apply Hsame. }
  cbv zeta. destruct (held_by st (ho_claim h)) eqn:Eh; cbn [fst] in Hb.
  - pose proof Eh as Eis. unfold held_by in Eis. apply andb_true_iff in Eis as [Hst Eis].
    apply bool_decide_eq_true in Hst. subst b. rewrite Hst. apply is_claim_true in Eis.
    split; [done|]. by apply (hand_on_written R R' c h now st).
  - assert (R' = R) as -> by (apply Hsame; by intros ? [= <-]). unfold held_by in Eh. subst b.
    pose proof (is_claim_true (s_claim st) (ho_claim h)) as Eis.
    destruct (s_standing st); rewrite ?bool_decide_eq_true_2, ?bool_decide_eq_false_2 in * by done;
      cbn [andb] in *; [|done|done]. by rewrite <- Eis, Eh.
Qed.
End theorems.

#[local] Existing Instance Plain.codec_ok.

Definition example_claim (token : N) : Claim :=
  {| c_journey := wrap 7; c_holder := "node a"; c_token := wrap token;
     c_until_unix_nanos := i128_clamp 100; c_fence := fence (wrap 2) None |}.
Definition example_stored : Stored := {| s_claim := example_claim 3; s_standing := StandsHeld |}.
Definition example_claims : gmap JourneyId Stored := <[wrap 7 := example_stored]> ∅.
Definition example_claimed : records :=
  record_change ∅ (CLAIM, claim_key (example_claim 3), Some (stored_bytes (C := Plain.codec) example_stored)).

Lemma example_claims_are : claims_are (C := Plain.codec) example_claimed example_claims.
Proof.
  apply (claims_are_written (C := Plain.codec) ∅ ∅ (example_claim 3) StandsHeld); [|by vm_compute].
  split; [intros j; by rewrite !lookup_empty|intros j st E; by rewrite lookup_empty in E].
Qed.

Lemma example_claims_ok : claims_ok (C := Plain.codec) (wrap 2, example_claimed) example_claims.
Proof.
  split; [exact example_claims_are|]. split; [by vm_compute|].
  intros j st E. unfold example_claims in E. apply lookup_insert_Some in E as [[_ <-]|[_ E]].
  - by vm_compute.
  - by rewrite lookup_empty in E.
Qed.

Lemma example_lookup : example_claims !! (wrap 7 : u128) = Some example_stored.
Proof. by vm_compute. Qed.

Lemma passed_claim_refused_witness :
  exec (release (C := Plain.codec) (set_fence (wrap 0) (example_claim 3))) example_claimed
    = Ok (false, example_claimed).
Proof.
  destruct (passed_claim_refused (C := Plain.codec) (wrap 2) (wrap 3) example_claimed example_claimed
    example_claims (set_fence (wrap 0) (example_claim 3)) example_stored) as (_ & Hr & _).
  - exact example_claims_ok.
  - exact example_lookup.
  - by vm_compute.
  - apply rtc_once. apply step_epoch; by vm_compute.
  - exact Hr.
Defined.

Lemma claimed_by_one_witness :
  exec (take (C := Plain.codec) (example_claim 4) (i128_clamp 50) (i128_clamp 200) (wrap 2)) example_claimed
    = Ok (None, example_claimed) ∧
  ∃ held R', exec (take (C := Plain.codec) (example_claim 4) (i128_clamp 150) (i128_clamp 200) (wrap 3))
      example_claimed = Ok (Some held, R') ∧ c_token held = wrap 4 ∧
    exec (take (C := Plain.codec) (example_claim 3) (i128_clamp 160) (i128_clamp 300) (wrap 3)) R' = Ok (None, R').
Proof.
  split.
  - destruct (claimed_by_one (C := Plain.codec) example_claimed (wrap 2) example_claims (example_claim 4)
      (i128_clamp 50) (i128_clamp 200) example_claims_ok) as [Hheld _]; [by vm_compute|].
    rewrite (Hheld example_stored example_lookup); [done|done|by vm_compute].
  - destruct (claimed_by_one (C := Plain.codec) example_claimed (wrap 3) example_claims (example_claim 4)
      (i128_clamp 150) (i128_clamp 200)) as [_ Hfree]; [|by vm_compute|].
    + destruct example_claims_ok as (H & _ & Hb). split; [exact H|]. split; [by vm_compute|].
      intros j st E. specialize (Hb j st E). unfold fence_by in *. cbn [fst] in *.
      eapply N.lt_le_trans; [exact Hb|]. by vm_compute.
    + destruct Hfree as (held & R' & E & (_ & _ & Ht & _) & _ & _ & _ & _ & Hother).
      { intros st E _. assert (st = example_stored) as -> by (apply (inj Some); rewrite <- E; by vm_compute).
        by vm_compute. }
      exists held, R'. split; [exact E|]. split; [exact Ht|].
      apply Hother; by vm_compute.
Defined.

Definition hand_on_of (claim : Claim) : HandOn := {|
  ho_claim := claim; ho_result := Examples.journey 7;
  ho_messages := [Examples.message 20]; ho_next := [Examples.journey 8]; ho_leaves := [wrap 1];
  ho_queued := [{| h_queue := wrap 2; h_journey := wrap 8; h_body := [x00] |}];
  ho_requeued := []; ho_failed := None; ho_cleared := []; ho_waits := None;
  ho_kept_for_nanos := None
|}.
Definition example_hand_on : HandOn := hand_on_of (example_claim 3).
Definition example_now : i128 := i128_clamp 60.
Definition example_handed : records :=
  left_by (hand_on (C := Plain.codec) example_hand_on example_now) example_claimed.

Lemma example_hands_on :
  exec (hand_on (C := Plain.codec) example_hand_on example_now) example_claimed = Ok (true, example_handed).
Proof. apply exec_returned. by vm_compute. Qed.

Lemma example_handed_claims :
  claims_are (C := Plain.codec) example_handed
    (partial_alter (λ o, (hand_on_after o example_hand_on example_now).2) (wrap 7) example_claims).
Proof.
  by apply (exec_hand_on (C := Plain.codec) example_claimed example_claims example_hand_on example_now true
    example_handed example_claims_are example_hands_on).
Qed.

Lemma handed_on_once_witness :
  exec (hand_on (C := Plain.codec) example_hand_on (i128_clamp 900)) example_handed = Ok (true, example_handed) ∧
  exec (hand_on (C := Plain.codec) (hand_on_of (example_claim 4)) (i128_clamp 60)) example_claimed
    = Ok (false, example_claimed).
Proof.
  destruct (handed_on_once (C := Plain.codec) example_claimed example_claims example_claims_are)
    as (Hagain & _ & Hother & _).
  split.
  - eapply Hagain; [|exact example_hands_on|exact example_handed_claims|..]; done.
  - eapply Hother; [exact example_lookup|]. left. by vm_compute.
Defined.

Lemma hand_on_whole_witness :
  example_handed !! (MESSAGE, be (wrap 20 : u128)) = Some (to_bytes (C := Plain.codec) (Examples.message 20)).
Proof.
  pose proof (hand_on_whole (C := Plain.codec) example_claimed example_handed example_claims
    example_hand_on example_now true example_claims_are) as Hw.
  change (c_journey (ho_claim example_hand_on)) with (wrap 7 : u128) in Hw. rewrite example_lookup in Hw.
  destruct Hw as (_ & Hm & _).
  - apply NoDup_singleton.
  - apply (bool_decide_unpack _). by vm_compute.
  - exact example_hands_on.
  - apply (Hm (Examples.message 20)). by left.
Defined.
End ClaimTheorems.
