(* ===== verification/Schema.v ===== *)
(** * The schema of Xmip Storage's three databases (src/.src/storage/schema.rs,
    schema/tables.rs, schema/searchable.rs, schema/upgrade.rs,
    schema/version.rs, embedded/versioned.rs)

    Every table, its columns, its key and its indexes, said once; what a
    schema may not say ([problems]); and the schema version each database
    holds, found as it opens ([found]) and brought to the build's
    ([reached]), one newer being refused. *)

From S2P Require Import Prelude Word Engine Store Codec Records.
From stdpp Require Import pretty.

(** ** The data *)

Inductive Database : Set := Runtime | Administration_ | Audit_.
Inductive Kind : Set :=
  | Identifier | KBytes | KText | Number | KCount | KFlag | Sequence | LongText | KTime | KWord.

Record Column : Set := { cl_name : string; cl_kind : Kind; cl_null : bool; cl_since : N }.
Record Index : Set := {
  ix_number : N; ix_name : string; ix_columns : list string; ix_only : option string; ix_since : N
}.
Record Table : Set := {
  t_database : Database;
  t_name : string;
  t_since : N;
  t_keeps : string;
  t_columns : list Column;
  t_key : list string;
  t_unique : list string;
  t_indexes : list Index;
}.

#[export] Instance Database_eq_dec : EqDecision Database.
Proof. solve_decision. Defined.
#[export] Instance Kind_eq_dec : EqDecision Kind.
Proof. solve_decision. Defined.

(** [Database::ALL], [Database::name] and [Database::word]. *)
Definition ALL_DATABASES : list Database := [Runtime; Administration_; Audit_].
Definition database_name (d : Database) : string :=
  match d with
  | Runtime => "xmip_runtime" | Administration_ => "xmip_administration" | Audit_ => "xmip_audit"
  end.
Definition database_word (d : Database) : string :=
  match d with Runtime => "runtime" | Administration_ => "administration" | Audit_ => "audit" end.

(** [column], [maybe] and [index]: the [const fn]s the tables are said with. *)
Definition column (name : string) (kind : Kind) : Column :=
  {| cl_name := name; cl_kind := kind; cl_null := false; cl_since := 1 |}.
Definition maybe (name : string) (kind : Kind) : Column :=
  {| cl_name := name; cl_kind := kind; cl_null := true; cl_since := 1 |}.
Definition index (number : N) (name : string) (columns : list string) : Index :=
  {| ix_number := number; ix_name := name; ix_columns := columns; ix_only := None; ix_since := 1 |}.
Definition only (flag : string) (i : Index) : Index :=
  {| ix_number := ix_number i; ix_name := ix_name i; ix_columns := ix_columns i;
     ix_only := Some flag; ix_since := ix_since i |}.

Definition VERSION : N := 1.
Definition VERSIONS : string := "schema_version".

(** ** The tables *)

Definition STREAM_COLUMNS : list Column :=
  [column "stream" Identifier;
   column "length" Number;
   column "chunks" KCount;
   column "digest" KBytes;
   column "written_at" KTime].

Definition JOURNEY_COLUMNS : list Column :=
  [column "journey" Identifier;
   column "body" KBytes;
   column "created_at" KTime;
   column "updated_at" KTime;
   column "state" KWord;
   maybe "previous_journey" Identifier;
   maybe "subscription" KText;
   maybe "cause_work_process" KText;
   column "depth" KCount;
   maybe "work_process" KText;
   maybe "send_port" KText;
   column "send_location" KCount;
   column "attempts" KCount;
   maybe "message" Identifier;
   maybe "origin" Identifier;
   column "open" KFlag;
   maybe "group_delivery" Identifier;
   column "group_open" KFlag].

Definition JOURNEY_INDEXES : list Index :=
  [index 1 "journey_state" ["state"; "updated_at"];
   index 2 "journey_send_port" ["send_port"; "state"];
   index 3 "journey_previous" ["previous_journey"];
   index 4 "journey_message" ["message"]].

Definition MESSAGE_COLUMNS : list Column :=
  [column "message" Identifier;
   column "body" KBytes;
   column "created_at" KTime;
   maybe "previous_message" Identifier;
   column "generation" KCount;
   column "created_by" KWord;
   column "priority" KWord;
   column "execution_profile" KWord;
   column "durability" KWord;
   column "size_bytes" Number;
   maybe "party" KText;
   maybe "contract" KText;
   maybe "stream" Identifier].

Definition MESSAGE_INDEXES : list Index :=
  [index 5 "message_created" ["created_at"];
   index 6 "message_party" ["party"; "created_at"];
   index 7 "message_contract" ["contract"; "created_at"];
   index 8 "message_previous" ["previous_message"];
   index 17 "message_stream" ["stream"]].

Definition HELD_COLUMNS : list Column :=
  [column "queue" Identifier;
   column "sequence" Number;
   column "journey" Identifier;
   column "body" KBytes;
   column "held_at" KTime;
   column "failed" KFlag;
   column "due_at" KTime].

Definition HELD_INDEXES : list Index :=
  [index 9 "held_time" ["queue"; "held_at"];
   index 20 "held_place" ["queue"; "sequence"];
   index 23 "held_due" ["queue"; "failed"; "due_at"; "sequence"]].

Definition DEAD_MESSAGE_COLUMNS : list Column :=
  [column "queue" Identifier;
   column "sequence" Number;
   column "message" Identifier;
   column "body" KBytes;
   column "stream" Identifier;
   column "node" KText;
   column "receive_location" KText;
   column "queued_at" KTime].

Definition DEAD_MESSAGE_INDEXES : list Index :=
  [index 10 "dead_message_time" ["queue"; "queued_at"];
   index 21 "dead_message_place" ["queue"; "sequence"]].

Definition FAILED_MESSAGE_COLUMNS : list Column :=
  [column "queue" Identifier;
   column "sequence" Number;
   column "journey" Identifier;
   column "place" Number;
   column "reason" LongText;
   column "failed_at" KTime].

Definition FAILED_MESSAGE_INDEXES : list Index :=
  [index 22 "failed_message_place" ["queue"; "sequence"]].

Definition AUDIT_COLUMNS : list Column :=
  [column "id" Identifier;
   column "occurred_at" KTime;
   column "kept_at" KTime;
   column "action" KText;
   column "phase" KWord;
   column "severity" KWord;
   column "failed" KFlag;
   maybe "message_text" LongText;
   column "program" KText;
   column "host" KText;
   column "process" KCount;
   maybe "location" KText;
   column "hidden" KFlag;
   maybe "execution" Identifier;
   maybe "journey" Identifier;
   maybe "message" Identifier;
   maybe "artifact_kind" KWord;
   maybe "artifact_name" KText;
   maybe "artifact_version" KText;
   maybe "node" KText;
   maybe "cluster" KText;
   column "writer" KText;
   column "position" Number;
   column "previous_digest" KBytes;
   column "digest" KBytes;
   column "body_length" Number;
   column "body_chunks" KCount;
   column "body_digest" KBytes].

Definition AUDIT_INDEXES : list Index :=
  [index 11 "audit_occurred" ["occurred_at"];
   index 12 "audit_journey" ["journey"];
   index 13 "audit_message" ["message"];
   index 14 "audit_artifact" ["artifact_name"; "occurred_at"];
   only "failed" (index 15 "audit_failed" ["failed"; "occurred_at"]);
   index 19 "audit_chain" ["writer"; "position"]].

Definition AUDIT_STREAM_COLUMNS : list Column :=
  [column "audit" Identifier;
   column "stream" Identifier;
   column "length" Number;
   column "chunks" KCount;
   column "digest" KBytes;
   column "written_at" KTime].

Definition AUDIT_STREAM_INDEXES : list Index :=
  [index 18 "audit_stream_stream" ["stream"]].

Definition ADMINISTRATION_COLUMNS : list Column :=
  [column "kind" KWord;
   column "id" Identifier;
   column "body" KBytes;
   column "updated_at" KTime].

Definition ADMINISTRATION_INDEXES : list Index :=
  [index 16 "administration_updated" ["kind"; "updated_at"]].

Definition SECRET_COLUMNS : list Column :=
  [column "secret" Identifier;
   column "name" KText;
   column "kind" KWord;
   column "sealed" KBytes;
   column "set_at" KTime;
   column "set_by" KText].

Definition SECRET_INDEXES : list Index :=
  [index 24 "secret_name" ["name"]].

Definition VERSION_COLUMNS : list Column :=
  [column "version" KCount;
   column "recorded_at" KTime].

Definition versions (database : Database) : Table :=
  {| t_database := database; t_name := VERSIONS; t_since := 1;
     t_keeps := "each schema version the database has held, the one it was made at and each an upgrade reached, with when; the version it holds is the highest";
     t_columns := VERSION_COLUMNS; t_key := ["version"]; t_unique := []; t_indexes := [] |}.

Definition runtime_stream_table : Table :=
  {| t_database := Runtime; t_name := "stream"; t_since := 1;
     t_keeps := "every Stream, once, as written and never changed: its length, its chunks and the SHA-256 digest of its bytes; a chunk and every Message referring to it refer to it by its identifier";
     t_columns := STREAM_COLUMNS;
     t_key := ["stream"]; t_unique := []; t_indexes := [] |}.

Definition runtime_stream_chunk_table : Table :=
  {| t_database := Runtime; t_name := "stream_chunk"; t_since := 1;
     t_keeps := "every Stream's chunks, by its identifier and their number; a Stream ends where it has no further chunk";
     t_columns := 
  [column "stream" Identifier;
   column "chunk" KCount;
   column "bytes" KBytes];
     t_key := ["stream"; "chunk"]; t_unique := []; t_indexes := [] |}.

Definition runtime_message_table : Table :=
  {| t_database := Runtime; t_name := "message"; t_since := 1;
     t_keeps := "every Message, as a step wrote it, every single value of it in a column of its own";
     t_columns := MESSAGE_COLUMNS;
     t_key := ["message"]; t_unique := []; t_indexes := MESSAGE_INDEXES |}.

Definition runtime_journey_table : Table :=
  {| t_database := Runtime; t_name := "journey"; t_since := 1;
     t_keeps := "every Journey, as a step wrote it, every single value of it in a column of its own";
     t_columns := JOURNEY_COLUMNS;
     t_key := ["journey"]; t_unique := []; t_indexes := JOURNEY_INDEXES |}.

Definition runtime_held_table : Table :=
  {| t_database := Runtime; t_name := "held"; t_since := 1;
     t_keeps := "the Messages a paused Subscription holds, at their place in its queue, each once, by its Journey";
     t_columns := HELD_COLUMNS;
     t_key := ["queue"; "sequence"]; t_unique := ["queue"; "journey"]; t_indexes := HELD_INDEXES |}.

Definition runtime_held_places_table : Table :=
  {| t_database := Runtime; t_name := "held_places"; t_since := 1;
     t_keeps := "each queue's first place, its next and how many it holds";
     t_columns := 
  [column "queue" Identifier;
   column "first_place" Number;
   column "next_place" Number;
   column "held" Number];
     t_key := ["queue"]; t_unique := []; t_indexes := [] |}.

Definition runtime_held_due_places_table : Table :=
  {| t_database := Runtime; t_name := "held_due_places"; t_since := 1;
     t_keeps := "each queue's places in the order its Messages are due: the place no Message due since it was held is before, the due time and place no retry is before, and how many keep a retry's due time";
     t_columns := 
  [column "queue" Identifier;
   column "first_due_place" Number;
   column "first_retry_at" KTime;
   column "first_retry_place" Number;
   column "retrying" Number];
     t_key := ["queue"]; t_unique := []; t_indexes := [] |}.

Definition runtime_failed_message_table : Table :=
  {| t_database := Runtime; t_name := "failed_message"; t_since := 1;
     t_keeps := "the Messages that failed waiting in each Send Port's queue for an operator, in the order they failed, each once, with its place in the queue and why, written with the failure and taken out with the operator's act";
     t_columns := FAILED_MESSAGE_COLUMNS;
     t_key := ["queue"; "sequence"]; t_unique := ["queue"; "journey"]; t_indexes := FAILED_MESSAGE_INDEXES |}.

Definition runtime_failed_message_places_table : Table :=
  {| t_database := Runtime; t_name := "failed_message_places"; t_since := 1;
     t_keeps := "each queue's index of failed Messages: its first place, its next and how many failed Messages wait in the queue";
     t_columns := 
  [column "queue" Identifier;
   column "first_place" Number;
   column "next_place" Number;
   column "failed" Number];
     t_key := ["queue"]; t_unique := []; t_indexes := [] |}.

Definition runtime_dead_message_table : Table :=
  {| t_database := Runtime; t_name := "dead_message"; t_since := 1;
     t_keeps := "each node's Dead Message Queue: every Message nothing matched, at its place, with its receive context, what its gates concluded, its promoted properties and each Subscription's reason for declining, each once";
     t_columns := DEAD_MESSAGE_COLUMNS;
     t_key := ["queue"; "sequence"]; t_unique := ["queue"; "message"]; t_indexes := DEAD_MESSAGE_INDEXES |}.

Definition runtime_dead_message_places_table : Table :=
  {| t_database := Runtime; t_name := "dead_message_places"; t_since := 1;
     t_keeps := "each Dead Message Queue's first place, its next and how many it holds";
     t_columns := 
  [column "queue" Identifier;
   column "first_place" Number;
   column "next_place" Number;
   column "held" Number];
     t_key := ["queue"]; t_unique := []; t_indexes := [] |}.

Definition runtime_dead_message_replayed_table : Table :=
  {| t_database := Runtime; t_name := "dead_message_replayed"; t_since := 1;
     t_keeps := "each Message replayed from a Dead Message Queue, so a Replay asked again writes nothing twice";
     t_columns := 
  [column "queue" Identifier;
   column "message" Identifier];
     t_key := ["queue"; "message"]; t_unique := []; t_indexes := [] |}.

Definition runtime_publication_table : Table :=
  {| t_database := Runtime; t_name := "publication"; t_since := 1;
     t_keeps := "each Message published, with the digest of its Publication, so a Publication asked again writes nothing and resets no Message moved on since";
     t_columns := 
  [column "message" Identifier;
   column "digest" KBytes];
     t_key := ["message"]; t_unique := []; t_indexes := [] |}.

Definition runtime_claim_table : Table :=
  {| t_database := Runtime; t_name := "claim"; t_since := 1;
     t_keeps := "the claim on each Message, by its Journey: its holder, its token, when it lapses, and whether it was given back or its step handed on";
     t_columns := 
  [column "journey" Identifier;
   column "holder" KText;
   column "token" Identifier;
   column "until_unix_nanos" Number;
   column "released" KFlag;
   column "handed_on" KFlag];
     t_key := ["journey"]; t_unique := []; t_indexes := [] |}.

Definition runtime_audit_table : Table :=
  {| t_database := Runtime; t_name := "audit"; t_since := 1;
     t_keeps := "audit records as first written, until the audit keeper moves them";
     t_columns := 
  [column "sequence" Sequence;
   column "id" Identifier;
   column "body" KBytes];
     t_key := ["sequence"]; t_unique := []; t_indexes := [] |}.

Definition audit_audit_table : Table :=
  {| t_database := Audit_; t_name := "audit"; t_since := 1;
     t_keeps := "audit records kept over time, each once, every single value of each in a column of its own, each in its writer's audit chain: its number there, the SHA-256 digest of the record before it and its own";
     t_columns := AUDIT_COLUMNS;
     t_key := ["id"]; t_unique := []; t_indexes := AUDIT_INDEXES |}.

Definition audit_audit_chain_head_table : Table :=
  {| t_database := Audit_; t_name := "audit_chain_head"; t_since := 1;
     t_keeps := "where each writer's audit chain stands: the number of its last kept record and that record's SHA-256 digest, written with it by the audit keeper";
     t_columns := 
  [column "writer" KText;
   column "position" Number;
   column "digest" KBytes];
     t_key := ["writer"]; t_unique := []; t_indexes := [] |}.

Definition audit_audit_body_chunk_table : Table :=
  {| t_database := Audit_; t_name := "audit_body_chunk"; t_since := 1;
     t_keeps := "the body of each kept audit record, its record and the Message it carries, in chunks by the record's identifier and their number, as a Stream is kept, written with it by the audit keeper";
     t_columns := 
  [column "audit" Identifier;
   column "chunk" KCount;
   column "bytes" KBytes];
     t_key := ["audit"; "chunk"]; t_unique := []; t_indexes := [] |}.

Definition audit_audit_stream_table : Table :=
  {| t_database := Audit_; t_name := "audit_stream"; t_since := 1;
     t_keeps := "each Stream a kept audit record carries, once: its length, its chunks, the SHA-256 digest of its bytes and when the Ledger wrote it, written with the record by the audit keeper";
     t_columns := AUDIT_STREAM_COLUMNS;
     t_key := ["audit"; "stream"]; t_unique := []; t_indexes := AUDIT_STREAM_INDEXES |}.

Definition audit_audit_stream_chunk_table : Table :=
  {| t_database := Audit_; t_name := "audit_stream_chunk"; t_since := 1;
     t_keeps := "the bytes of each Stream a kept audit record carries, in chunks by the record's identifier, the Stream's and their number, kept with it by the audit keeper; a Stream two Sections share once";
     t_columns := 
  [column "audit" Identifier;
   column "stream" Identifier;
   column "chunk" KCount;
   column "bytes" KBytes];
     t_key := ["audit"; "stream"; "chunk"]; t_unique := []; t_indexes := [] |}.

Definition administration_administration_table : Table :=
  {| t_database := Administration_; t_name := "administration"; t_since := 1;
     t_keeps := "registration, membership, Modules, Handlers, deployment and operator state, and when each was last written";
     t_columns := ADMINISTRATION_COLUMNS;
     t_key := ["kind"; "id"]; t_unique := []; t_indexes := ADMINISTRATION_INDEXES |}.

Definition administration_secret_table : Table :=
  {| t_database := Administration_; t_name := "secret"; t_since := 1;
     t_keeps := "each secret a Location names, by its name: its kind, its value sealed by Xmip under the administration database's data key, and when and by whom it was last set; its value is never read back out";
     t_columns := SECRET_COLUMNS;
     t_key := ["secret"]; t_unique := ["name"]; t_indexes := SECRET_INDEXES |}.

(** [TABLES]: every table, in the order the scripts make them. *)
Definition TABLES : list Table :=
  [versions Runtime;
   runtime_stream_table;
   runtime_stream_chunk_table;
   runtime_message_table;
   runtime_journey_table;
   runtime_held_table;
   runtime_held_places_table;
   runtime_held_due_places_table;
   runtime_failed_message_table;
   runtime_failed_message_places_table;
   runtime_dead_message_table;
   runtime_dead_message_places_table;
   runtime_dead_message_replayed_table;
   runtime_publication_table;
   runtime_claim_table;
   runtime_audit_table;
   versions Audit_;
   audit_audit_table;
   audit_audit_chain_head_table;
   audit_audit_body_chunk_table;
   audit_audit_stream_table;
   audit_audit_stream_chunk_table;
   versions Administration_;
   administration_administration_table;
   administration_secret_table].

(** ** What a schema may not say (upgrade.rs) *)

(** [problems]: in words naming the table, in order. *)
Definition column_problems (table : Table) (c : Column) : list string :=
  (if (cl_since c <? t_since table)%N then [cl_name c +:+ " is older than its table"] else []) ++
  (if (t_since table <? cl_since c)%N && negb (cl_null c) then
     [cl_name c +:+ " is added to a table already made, so it may hold nothing"] else []) ++
  (if (t_since table <? cl_since c)%N &&
      existsb (String.eqb (cl_name c)) (t_key table ++ t_unique table) then
     [cl_name c +:+ " is a key, and a key is the table's from the first"] else []).

Definition index_problems (table : Table) (i : Index) : list string :=
  if (t_since table <? ix_since i)%N then
    [ix_name i +:+ " is an index added to a table already made, which an embedded Storage " +:+
     "node cannot fill yet for the records it keeps"]
  else [].

Definition table_problems (built : N) (table : Table) : list string :=
  let versions := t_since table :: (cl_since <$> t_columns table) ++ (ix_since <$> t_indexes table) in
  let said := (if existsb (λ since, (since =? 0)%N || (built <? since)%N) versions
               then ["a version is from 1 to " +:+ pretty built] else []) ++
              (t_columns table ≫= column_problems table) ++
              (t_indexes table ≫= index_problems table) in
  (λ problem, t_name table +:+ ": " +:+ problem) <$> said.

Definition problems (tables : list Table) (built : N) : list string :=
  tables ≫= table_problems built.

(** ** The version a database holds (version.rs, embedded/versioned.rs) *)

Definition U32_MAX : N := (2 ^ 32 - 1)%N.

(** [found], its loop upward one step at a time: the version held while the
    next is recorded. *)
Definition found_up_step (recorded : N → result bool) (held : N) : result (N + N) :=
  if (held <? U32_MAX)%N then
    next ← recorded (held + 1)%N;
    Ok (if next : bool then inl (held + 1)%N else inr held)
  else Ok (inr held).

(** Downward from the one before the build's. *)
Fixpoint found_down (recorded : N → result bool) (version : nat) : result (option N) :=
  match version with
  | O => Ok None
  | S below =>
      r ← recorded (N.of_nat version);
      if r : bool then Ok (Some (N.of_nat version)) else found_down recorded below
  end.

(** As many steps as the loop can take. *)
Definition U32_STEPS : positive := 4294967296.

Definition found (recorded : N → result bool) (built : N) : result (option N) :=
  r ← recorded built;
  if r : bool then
    held ← run_for U32_STEPS (found_up_step recorded) built;
    Ok (match held with inl held | inr held => Some held end)
  else found_down recorded (N.to_nat (built - 1)).

(** [steps]: the versions to record, from the first to the last, none where
    the first is past the last. *)
Definition steps (database : Database) (held : option N) (built : N) : string + (N * N) :=
  match held with
  | None => inr (built, built)
  | Some held =>
      if (built <? held)%N then
        inl ("the " +:+ database_word database +:+ " database holds schema version " +:+ pretty held +:+
             ", newer than this build's " +:+ pretty built +:+ ": start it with a build of version " +:+
             pretty held +:+ " or later; a database is never stepped down")
      else inr (held + 1, built)%N
  end.

(** The versions from [first] to [last]. *)
Definition versions_from (first last : N) : list N :=
  (λ i, first + N.of_nat i)%N <$> seq 0 (N.to_nat (last + 1 - first)).

Record DatabaseVersion : Set := { dv_database : Database; dv_version : N }.

(** [DatabaseVersion::evidence]: on what it is kept is the engine's word. *)
Definition evidence (engine : string) (v : DatabaseVersion) : string :=
  "schema version " +:+ pretty (dv_version v) +:+ " on " +:+ engine.

Definition version_key (version : N) : bytes := be (wrap version : u32).

Section reached.
Context {St : Type} `{RecordStore St}.

Definition recorded_in (store : St) (version : N) : result bool :=
  o ← rs_get store VERSIONS (version_key version); Ok (is_some o).

(** [reached]: the rows of each version after the one held, in one write. *)
Definition reached (store : St) (database : Database) (built : N) (now : u64)
    : result (St * DatabaseVersion) :=
  held ← found (recorded_in store) built;
  match steps database held built with
  | inl reason => Err (Schema reason)
  | inr (first, last) =>
      let rows := (λ step, (VERSIONS, version_key step, Some (be now))) <$> versions_from first last in
      store ← (if bool_decide (rows = []) then Ok store else rs_apply store rows);
      Ok (store, {| dv_database := database; dv_version := built |})
  end.
End reached.

(** ** What a database recorded *)

(** The versions from [lo] to [hi] recorded, and no other. *)
Definition records_versions (recorded : N → result bool) (lo hi : N) : Prop :=
  ∀ v, (v ≤ U32_MAX)%N → recorded v = Ok (bool_decide (lo ≤ v ≤ hi)%N).

Lemma found_down_spec recorded lo hi n : records_versions recorded lo hi → (1 ≤ lo)%N →
  (N.of_nat n ≤ U32_MAX)%N →
  found_down recorded n =
  Ok (if decide (lo ≤ hi ∧ lo ≤ N.of_nat n)%N then Some (N.min hi (N.of_nat n)) else None).
Proof.
  intros Hr Hlo Hn. induction n as [|n IH].
  - cbn. by rewrite decide_False by lia.
  - cbn [found_down]. rewrite Hr by done. cbn [mbind result_bind]. case_bool_decide as Hd.
    + rewrite decide_True by lia. do 2 f_equal. lia.
    + rewrite IH by lia. destruct (decide (lo ≤ hi ∧ lo ≤ N.of_nat n)%N).
      * rewrite decide_True by lia. do 2 f_equal. lia.
      * by rewrite decide_False by lia.
Qed.

Lemma found_up_spec recorded lo hi built : records_versions recorded lo hi →
  (lo ≤ built ≤ hi)%N → (hi ≤ U32_MAX)%N →
  run_for U32_STEPS (found_up_step recorded) built = Ok (inr hi).
Proof.
  intros Hr Hb Hhi.
  destruct (run_for_spec (found_up_step recorded) (λ v, lo ≤ v ≤ hi)%N (λ v, v = hi)
    (λ v, N.to_nat (U32_MAX - v)) ) with (n := U32_STEPS) (s := built) as (r & -> & H); [|done|].
  - intros v Hv. unfold found_up_step. destruct (N.ltb_spec v U32_MAX).
    + rewrite Hr by lia. cbn [mbind result_bind]. case_bool_decide.
      * exists (inl (v + 1)%N). split; [done|]. lia.
      * exists (inr v). split; [done|]. lia.
    + exists (inr v). split; [done|]. lia.
  - destruct r as [v|v]; [|by subst]. exfalso. destruct H as [_ H].
    assert (N.to_nat (U32_MAX - built) < Pos.to_nat U32_STEPS) as Hlt; [|lia].
    rewrite <- positive_N_nat. unfold U32_MAX, U32_STEPS. lia.
Qed.

Lemma found_spec recorded lo hi built : records_versions recorded lo hi →
  (1 ≤ lo)%N → (1 ≤ built ≤ U32_MAX)%N → (hi ≤ U32_MAX)%N →
  found recorded built =
  Ok (if decide (lo ≤ hi ∧ lo ≤ built)%N then Some hi else None).
Proof.
  intros Hr Hlo Hb Hhi. unfold found. rewrite Hr by lia. cbn [mbind result_bind]. case_bool_decide as Hd.
  - rewrite (found_up_spec recorded lo hi) by (done || lia). cbn [mbind result_bind].
    by rewrite decide_True by lia.
  - rewrite (found_down_spec recorded lo hi) by (done || lia). rewrite N2Nat.id.
    destruct (decide (lo ≤ hi ∧ lo ≤ built)%N).
    + rewrite decide_True by lia. do 2 f_equal. lia.
    + by rewrite decide_False by lia.
Qed.

Lemma elem_of_versions_from v first last : v ∈ versions_from first last ↔ (first ≤ v ≤ last)%N.
Proof.
  unfold versions_from. rewrite list_elem_of_fmap. split.
  - intros (i & -> & Hi%elem_of_seq). lia.
  - intros Hv. exists (N.to_nat (v - first)). split; [lia|]. apply elem_of_seq. lia.
Qed.

Lemma version_key_inj v v' : (v ≤ U32_MAX)%N → (v' ≤ U32_MAX)%N → version_key v = version_key v' → v = v'.
Proof.
  intros Hv Hv' E%be_inj%uint_eq_iff. unfold U32_MAX in *.
  rewrite !uval_wrap_small in E by (unfold bound; cbn [N.of_nat]; lia). done.
Qed.

(** The rows of versions, written together. *)
Lemma recorded_rows (R : records) (l : list N) (value : bytes) v :
  (v ≤ U32_MAX)%N → Forall (λ v, v ≤ U32_MAX)%N l →
  recorded R ((λ step, (VERSIONS, version_key step, Some value)) <$> l) !! (VERSIONS, version_key v) =
  if decide (v ∈ l) then Some value else R !! (VERSIONS, version_key v).
Proof.
  intros Hv. revert R. induction l as [|w l IH]; intros R Hl.
  - rewrite decide_False; [done|]. apply not_elem_of_nil.
  - apply Forall_cons in Hl as [Hw Hl].
    change (recorded R ((λ step, (VERSIONS, version_key step, Some value)) <$> w :: l))
      with (recorded (record_change R (VERSIONS, version_key w, Some value))
              ((λ step, (VERSIONS, version_key step, Some value)) <$> l)).
    rewrite IH by done. cbn [record_change].
    destruct (decide (v ∈ l)) as [Hin|Hin].
    { rewrite decide_True; [done|by right]. }
    destruct (decide (v = w)) as [->|Hne].
    + rewrite lookup_insert_eq, decide_True; [done|by left].
    + rewrite lookup_insert_ne, decide_False; [done| |].
      * intros [?|?]%elem_of_cons; congruence.
      * intros [_ E%version_key_inj]%pair_equal_spec; [congruence|done..].
Qed.

(** ** The theorems *)

(** Every index of every database, with its table. *)
Definition every_index (tables : list Table) : list (Table * Index) :=
  t ← tables; pair t <$> t_indexes t.

Definition says_its_own (t : Table) : bool :=
  forallb (λ name, existsb (String.eqb name) (cl_name <$> t_columns t))
    (t_key t ++ t_unique t ++ concat (ix_columns <$> t_indexes t) ++ omap ix_only (t_indexes t)).

Module SchemaTheorems.
(** The schema says nothing a schema may not: no table, column
    or index is of a version that is not the build's or before, no key or
    index of a column its table lacks; no two tables of a database have a
    name, no two columns of a table, and no two indexes - of whatever
    database - a name or the number the embedded engines file their
    entries under. *)
Theorem schema_says_nothing_wrong :
  problems TABLES VERSION = [] ∧
  Forall (λ t, says_its_own t = true ∧ NoDup (cl_name <$> t_columns t) ∧ t_key t ≠ []) TABLES ∧
  NoDup ((λ t, (t_name t, database_word (t_database t))) <$> TABLES) ∧
  NoDup ((λ ti, ix_number ti.2) <$> every_index TABLES) ∧
  NoDup ((λ ti, ix_name ti.2) <$> every_index TABLES) ∧
  Forall (λ ti, (ix_number ti.2 < 256)%N) (every_index TABLES).
Proof. repeat split; apply (bool_decide_unpack _); by vm_compute. Qed.

Section versions.
Context {St : Type} {RS : RecordStore St} {RO : RecordStoreOk St}.

(** What the versions recorded are, of a store. *)
Lemma recorded_in_spec (store : St) (R : records) (I : entries) (v : N) (b : bool) : rs_repr store R I →
  recorded_in store v = Ok b → b = is_some (R !! (VERSIONS, version_key v)).
Proof.
  intros H. unfold recorded_in. intros E. inv_ok.
  apply (rs_get_spec _ _ _ _ _ _ H) in Ha; [by subst|]. apply (bool_decide_unpack _). by vm_compute.
Qed.

(** A database that recorded the versions from the one it was
    made at to the one it was brought to, made at a version not after
    the build's, is found at the highest, above the build's or below; one
    newer than the build is refused and nothing is written; any other is
    left having recorded every version up to the build's, each it had
    not at the time of now, and is then found at the build's. *)
Theorem brought_to_the_build (store : St) (R : records) (I : entries) (d : Database)
    (lo hi built : N) (now : u64) :
  rs_repr store R I → records_versions (recorded_in store) lo hi →
  (1 ≤ lo ≤ hi)%N → (hi ≤ U32_MAX)%N → (lo ≤ built ≤ U32_MAX)%N →
  found (recorded_in store) built = Ok (Some hi) ∧
  if decide (built < hi)%N
  then ∃ reason, reached store d built now = Err (Schema reason)
  else ∀ store' v, reached store d built now = Ok (store', v) →
    dv_version v = built ∧ ∃ R', rs_repr store' R' I ∧
    (∀ version, (version ≤ U32_MAX)%N →
       R' !! (VERSIONS, version_key version) =
       if decide (hi < version ≤ built)%N then Some (be now)
       else R !! (VERSIONS, version_key version)) ∧
    ((∀ version, is_ok (recorded_in store' version) = true) →
     found (recorded_in store') built = Ok (Some built)).
Proof.
  intros H Hr Hlo Hhi Hb.
  assert (found (recorded_in store) built = Ok (Some hi)) as Hf.
  { rewrite (found_spec _ lo hi) by (done || lia). by rewrite decide_True by lia. }
  split; [done|]. unfold reached. rewrite Hf. cbn [mbind result_bind]. unfold steps.
  case_decide as Hd.
  - rewrite (proj2 (N.ltb_lt _ _) Hd). eauto.
  - rewrite (proj2 (N.ltb_ge _ _)) by lia. intros store' v E. inv_ok. split; [done|].
    set (rows := (λ step, (VERSIONS, version_key step, Some (be now))) <$> versions_from (hi + 1) built) in *.
    assert (rs_repr store' (recorded R rows) I) as Hrepr.
    { case_bool_decide as Hrows; [inv_ok; by rewrite Hrows|].
      eapply rs_apply_spec; [exact H| |exact Ha]. unfold kinds_ok, rows. apply Forall_fmap, Forall_true.
      intros step. apply (bool_decide_unpack _). by vm_compute. }
    assert (∀ version, (version ≤ U32_MAX)%N →
       recorded R rows !! (VERSIONS, version_key version) =
       if decide (hi < version ≤ built)%N then Some (be now)
       else R !! (VERSIONS, version_key version)) as Hrows.
    { intros version Hv. unfold rows. rewrite recorded_rows; [|done|].
      - destruct (decide (hi < version ≤ built)%N) as [Hin|Hin].
        + rewrite decide_True; [done|]. apply elem_of_versions_from. lia.
        + rewrite decide_False; [done|]. rewrite elem_of_versions_from. lia.
      - apply Forall_forall. intros w Hw%elem_of_versions_from. lia. }
    exists (recorded R rows). split; [exact Hrepr|]. split; [exact Hrows|].
    intros Hok. rewrite (found_spec _ lo built); [by rewrite decide_True by lia| |lia..].
      intros version Hv. specialize (Hok version).
      destruct (recorded_in store' version) as [b|] eqn:Eb; [|done]. f_equal.
      apply (recorded_in_spec _ _ _ _ _ Hrepr) in Eb as ->. rewrite Hrows by done.
      specialize (Hr version Hv). destruct (decide (hi < version ≤ built)%N).
      { symmetry. apply bool_decide_eq_true. lia. }
      apply (recorded_in_spec _ _ _ _ _ H) in Hr as <-. apply bool_decide_ext. lia.
Qed.

(** A database made at a version newer than the build is not
    refused. It recorded the version it was made at and none before, so
    the build's is not among those it recorded and none below it is:
    it is found to hold none, as one just made, and the build records
    its own version in it. *)
Theorem made_newer_not_refused (recorded : N → result bool) (d : Database) (made built : N) :
  records_versions recorded made made → (1 ≤ built < made)%N → (made ≤ U32_MAX)%N →
  found recorded built = Ok None ∧ steps d None built = inr (built, built) ∧
  found recorded made = Ok (Some made).
Proof.
  intros Hr Hb Hm. rewrite !(found_spec recorded made made) by (done || lia).
  rewrite decide_False by lia. by rewrite decide_True by lia.
Qed.
End versions.

(** A database made at version 1. *)
Definition example_rows : records := <[(VERSIONS, version_key 1) := be (wrap 7 : u64)]> ∅.
Definition example_ledger : Ledger.Ledger := {| Ledger.recs := example_rows; Ledger.idx := ∅ |}.

Lemma example_versions : records_versions (recorded_in example_ledger) 1 1.
Proof.
  intros v Hv. unfold recorded_in. cbn [rs_get Ledger.ledger_store mbind result_bind].
  unfold example_ledger, example_rows. cbn [Ledger.recs].
  destruct (decide (v = 1%N)) as [->|Hne].
  - rewrite lookup_insert_eq. done.
  - rewrite lookup_insert_ne, lookup_empty.
    + rewrite bool_decide_eq_false_2 by lia. done.
    + intros [_ E%version_key_inj]%pair_equal_spec; [congruence|by vm_compute|done].
Qed.

Lemma brought_to_the_build_witness :
  found (recorded_in example_ledger) 3 = Ok (Some 1%N).
Proof.
  apply (brought_to_the_build example_ledger example_rows ∅ Runtime 1 1 3 (wrap 9)).
  - done.
  - exact example_versions.
  - lia.
  - by vm_compute.
  - by vm_compute.
Defined.

Lemma made_newer_not_refused_witness :
  found (λ v, Ok (bool_decide (2 ≤ v ≤ 2)%N)) 1 = Ok None.
Proof.
  apply (made_newer_not_refused (λ v, Ok (bool_decide (2 ≤ v ≤ 2)%N)) Runtime 2 1).
  - done.
  - lia.
  - by vm_compute.
Defined.
End SchemaTheorems.
