(* ===== verification/Connection.v ===== *)
(** * What each data domain's database is kept on, and the reading of a
    connection to a database server (src/.src/storage/database.rs)

    A connection string is Unicode text, so a [text] here is a list of
    scalar values: what the code asks of a [char] - whether it is white
    space, what its lower case is in ASCII - is asked of each, and the
    operations of [str] it uses ([trim], [split_whitespace], [split],
    [split_once], [strip_prefix], [parse::<u16>]) are written out as the
    standard library says. [read] is [Connection::read], [display] its
    [Display], [problems] what a configuration of the data domains may not
    say. *)

From S2P Require Import Prelude Schema.
From stdpp Require Import pretty.

(** ** Text *)

(** A [str]: its [char]s, as Unicode scalar values. *)
Definition text : Set := list N.

Fixpoint lit (s : string) : text :=
  match s with EmptyString => [] | String a s => Ascii.N_of_ascii a :: lit s end.

(** [char::is_whitespace]: Unicode's [White_Space]. *)
Definition is_whitespace (c : N) : bool :=
  ((9 <=? c) && (c <=? 13) || (c =? 32) || (c =? 133) || (c =? 160) || (c =? 5760) ||
   (8192 <=? c) && (c <=? 8202) || (c =? 8232) || (c =? 8233) || (c =? 8239) ||
   (c =? 8287) || (c =? 12288))%N.

Definition to_ascii_lowercase (t : text) : text :=
  (λ c, if ((65 <=? c) && (c <=? 90))%N then (c + 32)%N else c) <$> t.

Fixpoint trim_start (t : text) : text :=
  match t with
  | c :: t' => if is_whitespace c then trim_start t' else t
  | [] => []
  end.
Definition trim_end (t : text) : text := reverse (trim_start (reverse t)).
Definition trim (t : text) : text := trim_end (trim_start t).

(** [str::split] by one [char]: at least one piece. *)
Fixpoint split (sep : N) (t : text) : list text :=
  match t with
  | [] => [[]]
  | c :: t =>
      if (c =? sep)%N then [] :: split sep t
      else match split sep t with w :: ws => (c :: w) :: ws | [] => [[c]] end
  end.

(** The pieces between white space, the empty ones among them; then
    [str::split_whitespace], which leaves those out. *)
Fixpoint pieces (t : text) : list text :=
  match t with
  | [] => [[]]
  | c :: t =>
      if is_whitespace c then [] :: pieces t
      else match pieces t with w :: ws => (c :: w) :: ws | [] => [[c]] end
  end.
Definition is_empty (t : text) : bool := match t with [] => true | _ :: _ => false end.
Definition not_empty (l : list text) : list text := filter (λ t, is_empty t = false) l.
Definition split_whitespace (t : text) : list text := not_empty (pieces t).

Fixpoint split_once (sep : N) (t : text) : option (text * text) :=
  match t with
  | [] => None
  | c :: t =>
      if (c =? sep)%N then Some ([], t)
      else match split_once sep t with Some (a, b) => Some (c :: a, b) | None => None end
  end.

Fixpoint strip_prefix (p t : text) : option text :=
  match p, t with
  | [], _ => Some t
  | a :: p, c :: t => if (a =? c)%N then strip_prefix p t else None
  | _ :: _, [] => None
  end.

(** [u16::from_str]: a [+] may stand before the digits, of which there is at
    least one; past 65535 it is refused, wherever that shows. *)
Fixpoint digits_u16 (so_far : N) (t : text) : option N :=
  match t with
  | [] => Some so_far
  | c :: t =>
      if ((48 <=? c) && (c <=? 57))%N then
        let tens := (so_far * 10)%N in
        if (65535 <? tens)%N then None else
        let sum := (tens + (c - 48))%N in
        if (65535 <? sum)%N then None else digits_u16 sum t
      else None
  end.
Definition parse_u16 (t : text) : option N :=
  match t with
  | [] => None
  | [c] => if (c =? 43)%N then None else digits_u16 0 t
  | c :: u => if (c =? 43)%N then digits_u16 0 u else digits_u16 0 t
  end.

(** [{port}] of a [u16]. *)
Definition shown (n : N) : text := lit (pretty n).

(** ** What a database is kept on *)

Inductive Server : Set := PostgreSql | SqlServer | MariaDb.
#[export] Instance Server_eq_dec : EqDecision Server.
Proof. solve_decision. Defined.

Definition ALL_SERVERS : list Server := [PostgreSql; SqlServer; MariaDb].
Definition server_word (s : Server) : string :=
  match s with PostgreSql => "postgresql" | SqlServer => "mssql" | MariaDb => "mariadb" end.
Definition default_port (s : Server) : N :=
  match s with PostgreSql => 5432 | SqlServer => 1433 | MariaDb => 3306 end.

Inductive Technology : Set := RocksDb | Sqlite | OnServer (server : Server).
#[export] Instance Technology_eq_dec : EqDecision Technology.
Proof. solve_decision. Defined.

Definition ALL_TECHNOLOGIES : list Technology :=
  [RocksDb; Sqlite; OnServer PostgreSql; OnServer SqlServer; OnServer MariaDb].
Definition technology_word (t : Technology) : string :=
  match t with RocksDb => "rocksdb" | Sqlite => "sqlite" | OnServer s => server_word s end.
Definition technology_named (word : text) : option Technology :=
  snd <$> list_find (λ t, lit (technology_word t) = word) ALL_TECHNOLOGIES.
Definition embedded (database : Database) : Technology :=
  match database with Runtime => RocksDb | Administration_ | Audit_ => Sqlite end.

(** ** A connection, read and written *)

Record Connection : Set := {
  c_server : Server;
  c_login : option text;
  c_host : text;
  c_port : N;
  c_database : text;
}.
#[export] Instance Connection_eq_dec : EqDecision Connection.
Proof. solve_decision. Defined.

(** [Result<_, String>]: refused in words, or read. *)
Abbreviation said A := (text + A)%type.
#[export] Instance said_bind : MBind (sum text) := λ A B f m,
  match m with inl why => inl why | inr a => f a end.

Definition form (server : Server) : text :=
  lit match server with
  | PostgreSql => "host=<host> [port=<port>] dbname=<database> [user=<login>]"
  | SqlServer => "Server=<host>[,<port>];Database=<database>[;User Id=<login>]"
  | MariaDb => "Server=<host>[;Port=<port>];Database=<database>[;User=<login>]"
  end.
Definition refused (server : Server) (t why : text) : text :=
  lit "'" ++ t ++ lit "' " ++ why ++ lit "; write " ++ form server.

(** The [host], [port], [database] and [login] of the loop of [read]. *)
Record reading : Set := {
  r_host : option text; r_port : option text; r_database : option text; r_login : option text
}.
Definition nothing : reading :=
  {| r_host := None; r_port := None; r_database := None; r_login := None |}.
Definition with_host (h : text) (r : reading) : reading :=
  {| r_host := Some h; r_port := r_port r; r_database := r_database r; r_login := r_login r |}.
Definition with_port (p : option text) (r : reading) : reading :=
  {| r_host := r_host r; r_port := p; r_database := r_database r; r_login := r_login r |}.
Definition with_database (d : text) (r : reading) : reading :=
  {| r_host := r_host r; r_port := r_port r; r_database := Some d; r_login := r_login r |}.
Definition with_login (l : text) (r : reading) : reading :=
  {| r_host := r_host r; r_port := r_port r; r_database := r_database r; r_login := Some l |}.

(** What a key of each server's form names. *)
Inductive Key : Set := HostKey | PortKey | DatabaseKey | LoginKey | HostAndPortKey.
Definition key_of (server : Server) (key : text) : option Key :=
  match server with
  | PostgreSql =>
      if bool_decide (key = lit "host") then Some HostKey
      else if bool_decide (key = lit "port") then Some PortKey
      else if bool_decide (key = lit "dbname") then Some DatabaseKey
      else if bool_decide (key = lit "user") then Some LoginKey
      else None
  | MariaDb =>
      if bool_decide (key = lit "server") then Some HostKey
      else if bool_decide (key = lit "port") then Some PortKey
      else if bool_decide (key = lit "database") then Some DatabaseKey
      else if bool_decide (key = lit "user") then Some LoginKey
      else None
  | SqlServer =>
      if bool_decide (key = lit "database") then Some DatabaseKey
      else if bool_decide (key = lit "user id") then Some LoginKey
      else if bool_decide (key = lit "server") then Some HostAndPortKey
      else None
  end.

(** The body of the loop over the pairs: what a key and its value say, and a
    pair taken apart into them. *)
Definition read_key (server : Server) (t : text) (r : reading) (key value : text) : said reading :=
  match key_of server key with
  | Some HostKey => inr (with_host value r)
  | Some PortKey => inr (with_port (Some value) r)
  | Some DatabaseKey => inr (with_database value r)
  | Some LoginKey => inr (with_login value r)
  | Some HostAndPortKey =>
      let value := default value (strip_prefix (lit "tcp:") value) in
      let (named, numbered) :=
        match split_once 44 value with
        | Some (host, port) => (host, Some port)
        | None => (value, None)
        end in
      inr (with_port numbered (with_host named r))
  | None => inl (refused server t (lit "carries '" ++ key ++ lit "', which is not read"))
  end.
Definition read_pair (server : Server) (t : text) (r : reading) (kv : text) : said reading :=
  match split_once 61 kv with
  | None =>
      inl (refused server t (lit "holds '" ++ kv ++ lit "', which is no key and value"))
  | Some (key, value) =>
      let key := to_ascii_lowercase (trim key) in
      let value := trim value in
      if is_empty value || existsb is_whitespace value then
        inl (refused server t (lit "leaves '" ++ key ++ lit "' empty or spaced"))
      else read_key server t r key value
  end.

Fixpoint read_pairs (server : Server) (t : text) (r : reading) (rest : list text) : said reading :=
  match rest with
  | [] => inr r
  | kv :: rest => r ← read_pair server t r kv; read_pairs server t r rest
  end.

Definition pairs (server : Server) (t : text) : list text :=
  match server with
  | PostgreSql => split_whitespace t
  | SqlServer | MariaDb => trim <$> split 59 t
  end.

Definition port_of (server : Server) (t : text) (port : option text) : said N :=
  match port with
  | None => inr (default_port server)
  | Some port =>
      match parse_u16 port with
      | Some port => if (0 <? port)%N then inr port
                     else inl (refused server t (lit "names no port from 1 to 65535"))
      | None => inl (refused server t (lit "names no port from 1 to 65535"))
      end
  end.

Definition read_from (server : Server) (t : text) (kvs : list text) : said Connection :=
  r ← read_pairs server t nothing kvs;
  port ← port_of server t (r_port r);
  match r_host r, r_database r with
  | Some host, Some database =>
      inr {| c_server := server; c_login := r_login r; c_host := host; c_port := port;
             c_database := database |}
  | _, _ => inl (refused server t (lit "names no host or no database"))
  end.

Definition read (server : Server) (t : text) : said Connection :=
  read_from server t (not_empty (pairs server t)).

Definition login_shown (key : string) (login : option text) : text :=
  match login with Some login => lit key ++ login | None => [] end.
Definition display (c : Connection) : text :=
  match c_server c with
  | PostgreSql =>
      lit "host=" ++ c_host c ++ lit " port=" ++ shown (c_port c) ++
      lit " dbname=" ++ c_database c ++ login_shown " user=" (c_login c)
  | SqlServer =>
      lit "Server=tcp:" ++ c_host c ++ lit "," ++ shown (c_port c) ++
      lit ";Database=" ++ c_database c ++ login_shown ";User Id=" (c_login c)
  | MariaDb =>
      lit "Server=" ++ c_host c ++ lit ";Port=" ++ shown (c_port c) ++
      lit ";Database=" ++ c_database c ++ login_shown ";User=" (c_login c)
  end.

(** ** What a configuration of the data domains may not say *)

Record Domain : Set := { d_database : Database; d_storage : text; d_connection : text }.

Definition joined (sep : text) (words : list text) : text :=
  match words with [] => [] | w :: words => w ++ mjoin ((λ w, sep ++ w) <$> words) end.
Definition about (d : Database) (problem : text) : text :=
  lit "[" ++ lit (database_word d) ++ lit "] " ++ problem.

(** What the first loop says of one domain: a problem, a connection to a
    server, or neither. *)
Definition domain_read (d : Domain) : text + option Connection :=
  match technology_named (d_storage d) with
  | None =>
      inl (about (d_database d)
             (lit "storage: '" ++ d_storage d ++
              lit "' is none Xmip Storage keeps a database on; write " ++
              joined (lit ", ") ((λ t, lit (technology_word t)) <$> ALL_TECHNOLOGIES)))
  | Some (OnServer server) =>
      match read server (d_connection d) with
      | inr connection => inr (Some connection)
      | inl problem => inl (about (d_database d) (lit "connection: " ++ problem))
      end
  | Some technology =>
      if bool_decide (technology ≠ embedded (d_database d)) then
        inl (about (d_database d)
               (lit "storage: the " ++ lit (database_word (d_database d)) ++
                lit " database is kept on " ++ lit (technology_word (embedded (d_database d))) ++
                lit " where it is embedded, not " ++ lit (technology_word technology)))
      else if is_empty (trim (d_connection d)) then
        inl (about (d_database d) (lit "connection names no path"))
      else inr None
  end.

Definition domain_problem (d : Domain) : list text :=
  match domain_read d with inl problem => [problem] | inr _ => [] end.
Definition domain_server (d : Domain) : list (Database * Connection) :=
  match domain_read d with inr (Some c) => [(d_database d, c)] | _ => [] end.

(** [same] of two connections. *)
Definition same (a b : Connection) : bool :=
  bool_decide (c_server a = c_server b) && bool_decide (c_host a = c_host b) &&
  (c_port a =? c_port b)%N && bool_decide (c_database a = c_database b).

(** The second loop, over the servers not looked at yet; [earlier] are those
    before. *)
Fixpoint twice (earlier servers : list (Database * Connection)) : list text :=
  match servers with
  | [] => []
  | (database, connection) :: servers =>
      match list_find (λ e, same (snd e) connection = true) earlier with
      | Some (_, (first, _)) =>
          [lit "[" ++ lit (database_word database) ++ lit "] connection names the " ++
           lit (database_word first) ++
           lit " database's; the runtime, the administration and the audit databases are separate"]
      | None => []
      end ++ twice (earlier ++ [(database, connection)]) servers
  end.

Definition problems (named : list Domain) (password : option text) : list text :=
  let servers := named ≫= domain_server in
  (named ≫= domain_problem) ++ twice [] servers ++
  match servers, password with
  | _ :: _, None =>
      [lit "[storage.database] password names no secret, and a database server is named"]
  | _ :: _, Some password =>
      if is_empty (trim password) then
        [lit "[storage.database] password names no secret, and a database server is named"]
      else []
  | [], _ => []
  end.

(** ** Lemmas *)

Definition spaceless (t : text) : Prop := Forall (λ c, is_whitespace c = false) t.
Definition without (sep : N) (t : text) : Prop := sep ∉ t.

#[export] Instance spaceless_dec (t : text) : Decision (spaceless t).
Proof. unfold spaceless. apply _. Defined.
#[export] Instance without_dec (sep : N) (t : text) : Decision (without sep t).
Proof. unfold without. apply _. Defined.

Lemma is_empty_false (t : text) : is_empty t = false ↔ t ≠ [].
Proof. by destruct t. Qed.

Lemma not_spaced (t : text) : existsb is_whitespace t = false ↔ spaceless t.
Proof.
  unfold spaceless. induction t as [|c t IH]; cbn; [done|].
  by rewrite orb_false_iff, Forall_cons, IH.
Qed.

Lemma trim_start_spaceless (t : text) : spaceless t → trim_start t = t.
Proof. intros Ht. destruct Ht as [|c t Hc _]; cbn; [done|]. by rewrite Hc. Qed.
Lemma trim_spaceless (t : text) : spaceless t → trim t = t.
Proof.
  intros Ht. unfold trim, trim_end. rewrite (trim_start_spaceless t) by done.
  rewrite trim_start_spaceless; [apply reverse_involutive|].
  unfold spaceless in *. by rewrite Forall_reverse.
Qed.

Lemma split_end (sep : N) (w : text) : without sep w → split sep w = [w].
Proof.
  unfold without. induction w as [|c w IH]; cbn; [done|].
  intros [Hc Hw]%not_elem_of_cons. rewrite (proj2 (N.eqb_neq c sep)) by congruence. by rewrite IH.
Qed.
Lemma split_at (sep : N) (w t : text) : without sep w → split sep (w ++ sep :: t) = w :: split sep t.
Proof.
  unfold without. induction w as [|c w IH]; cbn; [by rewrite N.eqb_refl|].
  intros [Hc Hw]%not_elem_of_cons. rewrite (proj2 (N.eqb_neq c sep)) by congruence. by rewrite IH.
Qed.

Lemma pieces_end (w : text) : spaceless w → pieces w = [w].
Proof. induction 1 as [|c w Hc _ IH]; cbn; [done|]. by rewrite Hc, IH. Qed.
Lemma pieces_at (w t : text) (c : N) : is_whitespace c = true → spaceless w →
  pieces (w ++ c :: t) = w :: pieces t.
Proof. intros Hs. induction 1 as [|d w Hd _ IH]; cbn; [by rewrite Hs|]. by rewrite Hd, IH. Qed.

(** What is between: [P] of each char of [t] is of each char of its parts. *)
Lemma split_parts (P : N → Prop) (sep : N) (t w : text) : Forall P t → w ∈ split sep t →
  Forall P w ∧ without sep w.
Proof.
  unfold without. intros Ht. revert w. induction Ht as [|c t Hc _ IH]; cbn; intros w.
  { rewrite elem_of_cons. intros [->|[]%not_elem_of_nil]. split; [constructor|apply not_elem_of_nil]. }
  destruct (N.eqb_spec c sep) as [->|Hn].
  { intros [->|Hw]%elem_of_cons; [split; [constructor|apply not_elem_of_nil]|by apply IH]. }
  destruct (split sep t) as [|v ws].
  { intros ->%list_elem_of_singleton. split; [by repeat constructor|].
    rewrite list_elem_of_singleton. congruence. }
  intros [->|Hw]%elem_of_cons.
  - destruct (IH v ltac:(left)) as [Hv Hs]. split; [by constructor|].
    rewrite not_elem_of_cons. split; [congruence|done].
  - apply IH. by right.
Qed.
Lemma pieces_parts (t w : text) : w ∈ pieces t → spaceless w.
Proof.
  revert w. induction t as [|c t IH]; cbn; intros w.
  { intros ->%list_elem_of_singleton. constructor. }
  destruct (is_whitespace c) eqn:Hc.
  { intros [->|Hw]%elem_of_cons; [constructor|by apply IH]. }
  destruct (pieces t) as [|v ws].
  { intros ->%list_elem_of_singleton. by repeat constructor. }
  intros [->|Hw]%elem_of_cons; [constructor; [done|apply IH; left]|apply IH; by right].
Qed.

Lemma trim_parts (P : N → Prop) (t : text) : Forall P t → Forall P (trim t).
Proof.
  assert (Hs : ∀ u, Forall P u → Forall P (trim_start u)).
  { induction 1 as [|c u Hc Hu IH]; cbn; [done|]. case_match; [done|by constructor]. }
  intros Ht. unfold trim, trim_end. rewrite Forall_reverse. apply Hs.
  rewrite Forall_reverse. by apply Hs.
Qed.

Lemma split_once_at (sep : N) (a b : text) : without sep a → split_once sep (a ++ sep :: b) = Some (a, b).
Proof.
  unfold without. induction a as [|c a IH]; cbn; [by rewrite N.eqb_refl|].
  intros [Hc Ha]%not_elem_of_cons. rewrite (proj2 (N.eqb_neq c sep)) by congruence. by rewrite IH.
Qed.
Lemma split_once_inv (sep : N) (t a b : text) :
  split_once sep t = Some (a, b) → t = a ++ sep :: b ∧ without sep a.
Proof.
  unfold without. revert a b. induction t as [|c t IH]; intros a b; cbn; [done|].
  destruct (N.eqb_spec c sep) as [->|Hn].
  { intros [= <- <-]. split; [done|apply not_elem_of_nil]. }
  destruct (split_once sep t) as [[x y]|] eqn:E; [|done]. intros [= <- <-].
  destruct (IH x y eq_refl) as [-> Hx]. split; [done|]. rewrite not_elem_of_cons.
  split; [congruence|done].
Qed.
Lemma split_once_none (sep : N) (t : text) : split_once sep t = None ↔ without sep t.
Proof.
  unfold without. induction t as [|c t IH]; cbn; [split; [intros _; apply not_elem_of_nil|reflexivity]|].
  rewrite not_elem_of_cons. destruct (N.eqb_spec c sep) as [->|Hn]; [naive_solver|].
  destruct (split_once sep t) as [[x y]|]; naive_solver.
Qed.

Lemma strip_prefix_app (p t : text) : strip_prefix p (p ++ t) = Some t.
Proof. induction p as [|a p IH]; cbn; [done|]. by rewrite N.eqb_refl. Qed.
Lemma strip_prefix_inv (p t u : text) : strip_prefix p t = Some u → t = p ++ u.
Proof.
  revert t. induction p as [|a p IH]; intros t; cbn; [by intros [= ->]|].
  destruct t as [|c t]; [done|]. destruct (N.eqb_spec a c) as [->|]; [|done].
  intros H. by rewrite (IH t H).
Qed.

(** A port is read as it is shown. *)
Lemma digit_shown (d : N) : (d < 10)%N → Ascii.N_of_ascii (pretty_N_char d) = (48 + d)%N.
Proof.
  intros Hd. assert (Hc : d ∈ (N.of_nat <$> seq 0 10)).
  { apply list_elem_of_fmap. exists (N.to_nat d). rewrite N2Nat.id. split; [done|].
    apply elem_of_seq. lia. }
  revert Hc. cbn. set_unfold. intros Hc. destruct_or! Hc; subst; done.
Qed.
Lemma digits_shown (x : N) : (x ≤ 65535)%N → ∀ s, digits_u16 0 (lit (pretty_N_go x s)) = digits_u16 x (lit s).
Proof.
  induction (N.lt_wf_0 x) as [x _ IH]. intros Hx s.
  destruct (decide (0 < x)%N) as [Hp|Hz]; [|replace x with 0%N by lia; reflexivity].
  rewrite pretty_N_go_step by done.
  pose proof (N.div_lt x 10 Hp ltac:(lia)). rewrite IH by lia.
  cbn [lit digits_u16]. pose proof (N.mod_lt x 10 ltac:(done)). pose proof (N.div_mod x 10 ltac:(done)).
  rewrite digit_shown by done. clear IH.
  set (r := (x `mod` 10)%N) in *. set (q := (x `div` 10)%N) in *. clearbody r q.
  rewrite (proj2 (N.leb_le 48 _)), (proj2 (N.leb_le _ 57)) by lia. cbn [andb].
  rewrite (proj2 (N.ltb_ge 65535 _)) by lia. rewrite (proj2 (N.ltb_ge 65535 _)) by lia.
  f_equal. lia.
Qed.

Lemma port_shown (p : N) : (0 < p)%N → (p ≤ 65535)%N → parse_u16 (shown p) = Some p.
Proof.
  intros Hp Hb. pose proof (digits_shown p Hb "") as Hd.
  assert (shown p = lit (pretty_N_go p "")) as E.
  { unfold shown, pretty, pretty_N. rewrite decide_False by lia. done. }
  rewrite E. destruct (lit (pretty_N_go p "")) as [|c t] eqn:Hs; cbn in Hd; [injection Hd; lia|].
  destruct (N.eqb_spec c 43) as [->|Hc]; [done|].
  rewrite <- Hd. unfold parse_u16. rewrite (proj2 (N.eqb_neq c 43) Hc). by destruct t.
Qed.

Lemma digits_bound (t : text) (a p : N) : (a ≤ 65535)%N → digits_u16 a t = Some p → (p ≤ 65535)%N.
Proof.
  revert a. induction t as [|c t IH]; intros a Ha; cbn [digits_u16]; [by intros [= ->]|].
  destruct (_ && _); [|done]. destruct (N.ltb_spec 65535 (a * 10)); [done|].
  destruct (N.ltb_spec 65535 (a * 10 + (c - 48))); [done|]. by apply IH.
Qed.
Lemma port_bound (t : text) (p : N) : parse_u16 t = Some p → (p ≤ 65535)%N.
Proof.
  assert (Hb : ∀ u q, digits_u16 0 u = Some q → (q ≤ 65535)%N).
  { intros u q. by apply digits_bound. }
  unfold parse_u16. destruct t as [|c [|d t]]; [done|..]; case_match; try done; apply Hb.
Qed.

Lemma trim_keyed (c : N) (k v : text) : is_whitespace c = false → v ≠ [] → spaceless v →
  trim (c :: k ++ v) = c :: k ++ v.
Proof.
  intros Hc Hv Hs. unfold trim, trim_end. cbn [trim_start]. rewrite Hc.
  destruct (reverse v) as [|x w] eqn:E.
  { apply (f_equal reverse) in E. by rewrite reverse_involutive in E. }
  rewrite reverse_cons, reverse_app, E. cbn [app trim_start].
  assert (Hx : is_whitespace x = false).
  { revert Hs. unfold spaceless. rewrite <- Forall_reverse, E. by inversion 1. }
  rewrite Hx.
  change (x :: (w ++ reverse k) ++ [c]) with (((x :: w) ++ reverse k) ++ [c]).
  rewrite <- E, <- reverse_app, <- reverse_cons. apply reverse_involutive.
Qed.

(** What a connection that is read is made of. *)
Definition char_ok (s : Server) (c : N) : Prop := s = PostgreSql ∨ c ≠ 59%N.
Definition value_ok (s : Server) (v : text) : Prop :=
  v ≠ [] ∧ spaceless v ∧ Forall (char_ok s) v.
Definition host_ok (s : Server) (h : text) : Prop :=
  match s with
  | SqlServer => spaceless h ∧ Forall (char_ok s) h ∧ without 44 h
  | _ => value_ok s h
  end.
Definition valid (s : Server) (c : Connection) : Prop :=
  c_server c = s ∧ host_ok s (c_host c) ∧ (0 < c_port c ≤ 65535)%N ∧
  value_ok s (c_database c) ∧ from_option (value_ok s) True (c_login c).
Definition reading_ok (s : Server) (r : reading) : Prop :=
  from_option (host_ok s) True (r_host r) ∧ from_option (value_ok s) True (r_database r) ∧
  from_option (value_ok s) True (r_login r).

(** A pair read keeps what is read so far in order. *)
Lemma read_pair_ok (s : Server) (t kv : text) (r r' : reading) :
  Forall (char_ok s) kv → reading_ok s r → read_pair s t r kv = inr r' → reading_ok s r'.
Proof.
  intros Hkv (Hh & Hd & Hl). unfold read_pair.
  destruct (split_once 61 kv) as [[k w]|] eqn:E; [|done]. cbn zeta.
  apply split_once_inv in E as [-> _].
  assert (Hw : Forall (char_ok s) (trim w)).
  { apply trim_parts. apply Forall_app in Hkv as [_ Hkv]. by inversion Hkv. }
  destruct (is_empty (trim w)) eqn:He; [done|]. destruct (existsb _ _) eqn:Hx; [done|]. cbn [orb].
  apply is_empty_false in He. apply not_spaced in Hx. set (v := trim w) in *. clearbody v.
  assert (Hv : value_ok s v) by done.
  unfold read_key. destruct (key_of s _) as [[]|] eqn:Hk; [..|done].
  - intros [= <-]. split_and!; cbn; [|done..]. destruct s; try done.
    unfold key_of in Hk. by repeat case_bool_decide.
  - by intros [= <-].
  - by intros [= <-].
  - by intros [= <-].
  - assert (s = SqlServer) as ->.
    { unfold key_of in Hk. destruct s; [by repeat case_bool_decide|done|by repeat case_bool_decide]. }
    set (u := default v (strip_prefix _ v)).
    assert (Hu : spaceless u ∧ Forall (char_ok SqlServer) u).
    { subst u. destruct (strip_prefix _ v) as [u|] eqn:Hp; cbn; [|done].
      apply strip_prefix_inv in Hp. subst v.
      apply Forall_app in Hx as [_ Hx], Hw as [_ Hw]. done. }
    clearbody u. destruct Hu as [Hs Hc].
    destruct (split_once 44 u) as [[h p]|] eqn:Hsp; intros [= <-]; split_and!; cbn; try done.
    + apply split_once_inv in Hsp as [-> Hn].
      apply Forall_app in Hs as [Hs _], Hc as [Hc _]. done.
    + by apply split_once_none in Hsp.
Qed.

Lemma read_pairs_ok (s : Server) (t : text) (l : list text) (r r' : reading) :
  (∀ kv, kv ∈ l → Forall (char_ok s) kv) → reading_ok s r → read_pairs s t r l = inr r' →
  reading_ok s r'.
Proof.
  revert r. induction l as [|kv l IH]; intros r Hl Hr; cbn [read_pairs]; [by intros [= <-]|].
  destruct (read_pair s t r kv) as [|r1] eqn:E; [done|]. cbn. apply IH; [intros; apply Hl; by right|].
  eapply read_pair_ok; [|done..]. apply Hl. by left.
Qed.

Lemma pairs_ok (s : Server) (t kv : text) : kv ∈ not_empty (pairs s t) → Forall (char_ok s) kv.
Proof.
  assert (Hall : ∀ c, c ≠ 59%N → char_ok s c) by (by right).
  unfold not_empty. rewrite list_elem_of_filter. intros [_ Hkv]. destruct s; cbn in Hkv.
  - apply Forall_forall. by left.
  - apply list_elem_of_fmap in Hkv as (w & -> & Hw). apply trim_parts.
    apply (split_parts (λ _, True)) in Hw as [_ Hw]; [|by apply Forall_true].
    apply Forall_forall. intros c Hc. apply Hall. by intros ->.
  - apply list_elem_of_fmap in Hkv as (w & -> & Hw). apply trim_parts.
    apply (split_parts (λ _, True)) in Hw as [_ Hw]; [|by apply Forall_true].
    apply Forall_forall. intros c Hc. apply Hall. by intros ->.
Qed.

Lemma default_port_bound (s : Server) : (0 < default_port s ≤ 65535)%N.
Proof. by destruct s. Qed.

Lemma port_of_bound (s : Server) (t : text) (w : option text) (p : N) :
  port_of s t w = inr p → (0 < p ≤ 65535)%N.
Proof.
  destruct w as [w|]; cbn; [|intros [= <-]; apply default_port_bound].
  destruct (parse_u16 w) as [q|] eqn:Hq; [|done]. apply port_bound in Hq.
  by destruct (N.ltb_spec 0 q); [intros [= <-]|].
Qed.

Lemma read_valid (s : Server) (t : text) (c : Connection) : read s t = inr c → valid s c.
Proof.
  unfold read, read_from. destruct (read_pairs s t nothing _) as [|r] eqn:E; [done|]. cbn.
  apply read_pairs_ok in E as (Hh & Hd & Hl); [|apply pairs_ok|done].
  destruct (port_of s t (r_port r)) as [|p] eqn:Hp; [done|]. cbn.
  destruct (r_host r) as [h|]; [|done]. destruct (r_database r) as [d|]; [|done].
  intros [= <-]. apply port_of_bound in Hp. done.
Qed.

(** A key and a value, as they are written, are read. *)
Definition key_text (k : string) (v : text) : text := lit k ++ 61%N :: v.

Lemma read_key_text (s : Server) (t : text) (r : reading) (k : string) (v : text) :
  without 61 (lit k) → v ≠ [] → spaceless v →
  read_pair s t r (key_text k v) = read_key s t r (to_ascii_lowercase (trim (lit k))) v.
Proof.
  intros Hk Hv Hs. unfold read_pair, key_text. rewrite split_once_at by done. cbn zeta.
  rewrite (trim_spaceless v) by done. rewrite (proj2 (not_spaced v)) by done.
  by rewrite (proj2 (is_empty_false v)).
Qed.

Lemma shown_digits (n : N) : Forall (λ c, 48 ≤ c ≤ 57)%N (shown n) ∧ shown n ≠ [].
Proof.
  unfold shown, pretty, pretty_N. case_decide as Hz; [by repeat constructor|].
  assert (Hgo : ∀ x s, Forall (λ c, 48 ≤ c ≤ 57)%N (lit s) → (0 < x)%N ∨ lit s ≠ [] →
    Forall (λ c, 48 ≤ c ≤ 57)%N (lit (pretty_N_go x s)) ∧ lit (pretty_N_go x s) ≠ []).
  { intros x. induction (N.lt_wf_0 x) as [x _ IH]. intros s Hs Hn.
    destruct (decide (0 < x)%N) as [Hp|Hp].
    - rewrite pretty_N_go_step by done. apply IH; [by apply N.div_lt| |by right].
      cbn [lit]. constructor; [|done]. pose proof (N.mod_lt x 10 ltac:(done)).
      rewrite digit_shown by done. set (m := (x `mod` 10)%N) in *. clearbody m. lia.
    - destruct Hn as [|Hn]; [done|]. by replace x with 0%N by lia. }
  apply Hgo; [constructor|left; lia].
Qed.
Lemma shown_value_ok (s : Server) (n : N) : value_ok s (shown n) ∧ without 44 (shown n).
Proof.
  destruct (shown_digits n) as [Hd Hn]. unfold value_ok. split_and!; [done|..].
  - eapply Forall_impl; [exact Hd|]. cbn. intros c Hc. unfold is_whitespace.
    repeat match goal with |- context [(?a =? ?b)%N] => rewrite (proj2 (N.eqb_neq a b)) by lia end.
    rewrite (proj2 (N.leb_gt c 13)) by lia. rewrite (proj2 (N.leb_gt 8192 c)) by lia.
    by rewrite !andb_false_r.
  - eapply Forall_impl; [exact Hd|]. cbn. intros c Hc. right. lia.
  - intros H. rewrite Forall_forall in Hd. apply Hd in H. lia.
Qed.

(** The pairs of what is written. *)
Lemma split_whitespace_at (w t : text) : spaceless w → w ≠ [] →
  split_whitespace (w ++ 32%N :: t) = w :: split_whitespace t.
Proof.
  intros Hw Hn. unfold split_whitespace, not_empty. rewrite pieces_at by done.
  rewrite filter_cons, decide_True by by apply is_empty_false. done.
Qed.
Lemma split_whitespace_end (w : text) : spaceless w → w ≠ [] → split_whitespace w = [w].
Proof.
  intros Hw Hn. unfold split_whitespace, not_empty. rewrite pieces_end by done.
  rewrite filter_cons, decide_True by by apply is_empty_false. done.
Qed.
Definition between (t : text) : list text := not_empty (trim <$> split 59 t).
Lemma between_at (c : N) (k v t : text) : is_whitespace c = false → without 59 (c :: k ++ v) →
  v ≠ [] → spaceless v → between ((c :: k ++ v) ++ 59%N :: t) = (c :: k ++ v) :: between t.
Proof.
  intros Hc Hw Hn Hs. unfold between, not_empty. rewrite split_at by done.
  rewrite fmap_cons, trim_keyed by done. done.
Qed.
Lemma between_end (c : N) (k v : text) : is_whitespace c = false → without 59 (c :: k ++ v) →
  v ≠ [] → spaceless v → between (c :: k ++ v) = [c :: k ++ v].
Proof.
  intros Hc Hw Hn Hs. unfold between, not_empty. rewrite split_end by done.
  rewrite fmap_cons, trim_keyed by done. done.
Qed.

(** What is displayed, as the pairs it is. *)
Lemma display_pairs (c : Connection) :
  display c =
  match c_server c with
  | PostgreSql =>
      key_text "host" (c_host c) ++ 32%N :: key_text "port" (shown (c_port c)) ++
      32%N :: key_text "dbname" (c_database c) ++
      from_option (λ l, 32%N :: key_text "user" l) [] (c_login c)
  | SqlServer =>
      key_text "Server" (lit "tcp:" ++ c_host c ++ 44%N :: shown (c_port c)) ++
      59%N :: key_text "Database" (c_database c) ++
      from_option (λ l, 59%N :: key_text "User Id" l) [] (c_login c)
  | MariaDb =>
      key_text "Server" (c_host c) ++ 59%N :: key_text "Port" (shown (c_port c)) ++
      59%N :: key_text "Database" (c_database c) ++
      from_option (λ l, 59%N :: key_text "User" l) [] (c_login c)
  end.
Proof.
  unfold display, key_text, login_shown. destruct (c_server c), (c_login c);
    cbn [lit app from_option]; by rewrite <- ?app_assoc.
Qed.

Lemma key_spaceless (k : string) (v : text) : spaceless (lit k) → spaceless v → spaceless (key_text k v).
Proof. intros Hk Hv. unfold key_text. apply Forall_app. split; [done|]. by constructor. Qed.
Lemma key_not_empty (k : string) (v : text) : key_text k v ≠ [].
Proof. unfold key_text. by destruct (lit k). Qed.
Lemma key_without (sep : N) (k : string) (v : text) : sep ≠ 61%N → without sep (lit k) → without sep v →
  without sep (key_text k v).
Proof.
  unfold without, key_text. intros Hn Hk Hv. rewrite elem_of_app, elem_of_cons. by intros [?|[?|?]].
Qed.
Lemma value_without (s : Server) (v : text) : s ≠ PostgreSql → Forall (char_ok s) v → without 59 v.
Proof. intros Hs Hv H. rewrite Forall_forall in Hv. by destruct (Hv _ H). Qed.

Lemma pg_pairs_at (k : string) (v t : text) : spaceless (lit k) → spaceless v →
  split_whitespace (key_text k v ++ 32%N :: t) = key_text k v :: split_whitespace t.
Proof. intros Hk Hv. apply split_whitespace_at; [by apply key_spaceless|apply key_not_empty]. Qed.
Lemma pg_pairs_end (k : string) (v : text) : spaceless (lit k) → spaceless v →
  split_whitespace (key_text k v) = [key_text k v].
Proof. intros Hk Hv. apply split_whitespace_end; [by apply key_spaceless|apply key_not_empty]. Qed.

(** The pairs between semicolons, each key starting with no white space. *)
Definition key_ok (k : string) : Prop :=
  without 59 (lit k) ∧ from_option (λ c, is_whitespace c = false) False (head (lit k)).
#[export] Instance key_ok_dec (k : string) : Decision (key_ok k).
Proof. unfold key_ok. destruct (head (lit k)); cbn; apply _. Defined.
Lemma key_ok_cons (k : string) (v : text) : key_ok k → without 59 v → ∃ c m,
  is_whitespace c = false ∧ key_text k v = c :: m ++ v ∧ without 59 (c :: m ++ v).
Proof.
  intros [Hk Hc] Hv. pose proof (key_without 59 k v ltac:(done) Hk Hv) as Hw.
  unfold key_text in *. destruct (lit k) as [|c m]; [done|]. exists c, (m ++ [61%N]).
  rewrite <- app_assoc. done.
Qed.
Lemma sc_pairs_at (k : string) (v t : text) : key_ok k → v ≠ [] → spaceless v → without 59 v →
  between (key_text k v ++ 59%N :: t) = key_text k v :: between t.
Proof.
  intros Hk Hv Hs Hw. destruct (key_ok_cons k v Hk Hw) as (c & m & Hc & -> & Hm).
  by apply between_at.
Qed.
Lemma sc_pairs_end (k : string) (v : text) : key_ok k → v ≠ [] → spaceless v → without 59 v →
  between (key_text k v) = [key_text k v].
Proof.
  intros Hk Hv Hs Hw. destruct (key_ok_cons k v Hk Hw) as (c & m & Hc & -> & Hm).
  by apply between_end.
Qed.

(** One more pair read, its key told by computing. *)
Ltac key_told :=
  match goal with
  | |- context [key_of ?s ?k] =>
      let told := eval vm_compute in (key_of s k) in change (key_of s k) with told
  end.
Ltac read_next :=
  cbn [read_pairs]; rewrite read_key_text by (done || by compute_done);
  unfold read_key at 1; key_told; cbn [mbind said_bind].

Ltac read_end :=
  cbn [read_pairs mbind said_bind port_of r_host r_port r_database r_login
       with_host with_port with_database with_login];
  rewrite port_shown by lia; rewrite (proj2 (N.ltb_lt 0 _)) by lia; reflexivity.

Section reads_back.
Context (l : option text) (h d t : text) (p : N) (Hp : (0 < p ≤ 65535)%N).

(** The pairs displayed read back, whatever text they are taken from. *)
Lemma pg_reads_back : value_ok PostgreSql h → value_ok PostgreSql d →
  from_option (value_ok PostgreSql) True l →
  read_from PostgreSql t
    (split_whitespace (key_text "host" h ++ 32%N :: key_text "port" (shown p) ++
       32%N :: key_text "dbname" d ++ from_option (λ l, 32%N :: key_text "user" l) [] l)) = inr {| c_server := PostgreSql; c_login := l; c_host := h; c_port := p; c_database := d |}.
Proof.
  intros (Hhn & Hhs & _) (Hdn & Hds & _) Hl.
  pose proof (shown_value_ok PostgreSql p) as [(Hpn & Hps & _) _].
  destruct l as [u|]; cbn [from_option] in *.
  - destruct Hl as (Hln & Hls & _).
    unfold read_from; rewrite !pg_pairs_at, pg_pairs_end by (done || by compute_done). do 4 read_next. read_end.
  - unfold read_from; rewrite app_nil_r, !pg_pairs_at, pg_pairs_end by (done || by compute_done).
    do 3 read_next. read_end.
Qed.

Lemma maria_reads_back : value_ok MariaDb h → value_ok MariaDb d →
  from_option (value_ok MariaDb) True l →
  read_from MariaDb t
    (between (key_text "Server" h ++ 59%N :: key_text "Port" (shown p) ++
       59%N :: key_text "Database" d ++ from_option (λ l, 59%N :: key_text "User" l) [] l)) = inr {| c_server := MariaDb; c_login := l; c_host := h; c_port := p; c_database := d |}.
Proof.
  intros (Hhn & Hhs & Hhc%value_without) (Hdn & Hds & Hdc%value_without) Hl; [|done..].
  pose proof (shown_value_ok MariaDb p) as [(Hpn & Hps & Hpc%value_without) _]; [|done].
  destruct l as [u|]; cbn [from_option] in *.
  - destruct Hl as (Hln & Hls & Hlc%value_without); [|done].
    unfold read_from; rewrite !sc_pairs_at, sc_pairs_end by (done || by compute_done). do 4 read_next. read_end.
  - unfold read_from; rewrite app_nil_r, !sc_pairs_at, sc_pairs_end by (done || by compute_done).
    do 3 read_next. read_end.
Qed.

Lemma sql_server_reads_back : host_ok SqlServer h → value_ok SqlServer d →
  from_option (value_ok SqlServer) True l →
  read_from SqlServer t
    (between (key_text "Server" (lit "tcp:" ++ h ++ 44%N :: shown p) ++
       59%N :: key_text "Database" d ++ from_option (λ l, 59%N :: key_text "User Id" l) [] l)) = inr {| c_server := SqlServer; c_login := l; c_host := h; c_port := p; c_database := d |}.
Proof.
  intros (Hhs & Hhc%value_without & Hh44) (Hdn & Hds & Hdc%value_without) Hl; [|done..].
  pose proof (shown_value_ok SqlServer p) as [(Hpn & Hps & Hpc%value_without) _]; [|done].
  set (v := lit "tcp:" ++ h ++ 44%N :: shown p).
  assert (Hvn : v ≠ []) by done.
  assert (Hvs : spaceless v).
  { apply Forall_app. split; [by compute_done|]. apply Forall_app. split; [done|]. by constructor. }
  assert (Hvc : without 59 v).
  { unfold without, v in *. rewrite !elem_of_app, elem_of_cons.
    intros [Hx|[Hx|[Hx|Hx]]]; [|done..]. revert Hx. by compute_done. }
  assert (Hr : ∀ r, read_key SqlServer t r (lit "server") v = inr (with_port (Some (shown p)) (with_host h r))).
  { intros r. unfold read_key. key_told. unfold v. rewrite strip_prefix_app. cbn [default from_option id].
    by rewrite split_once_at. }
  clearbody v. destruct l as [u|]; cbn [from_option] in *.
  - destruct Hl as (Hln & Hls & Hlc%value_without); [|done].
    unfold read_from; rewrite !sc_pairs_at, sc_pairs_end by (done || by compute_done).
    cbn [read_pairs]. rewrite read_key_text by (done || by compute_done).
    change (to_ascii_lowercase (trim (lit "Server"))) with (lit "server"). rewrite Hr.
    cbn [mbind said_bind]. do 2 read_next. read_end.
  - unfold read_from; rewrite app_nil_r, !sc_pairs_at, sc_pairs_end by (done || by compute_done).
    cbn [read_pairs]. rewrite read_key_text by (done || by compute_done).
    change (to_ascii_lowercase (trim (lit "Server"))) with (lit "server"). rewrite Hr.
    cbn [mbind said_bind]. read_next. read_end.
Qed.
End reads_back.

Lemma not_empty_idem (l : list text) : not_empty (not_empty l) = not_empty l.
Proof.
  unfold not_empty. apply filter_all. intros w Hw. by apply list_elem_of_filter in Hw as [Hw _].
Qed.

Lemma valid_reads_back (s : Server) (c : Connection) : valid s c → read s (display c) = inr c.
Proof.
  destruct c as [s' l h p d]. intros (Hs & Hh & Hp & Hd & Hl); cbn in *. subst s'.
  unfold read. generalize (display {| c_server := s; c_login := l; c_host := h; c_port := p;
    c_database := d |}) at 1 as t. intros t. rewrite display_pairs. cbn [c_server c_login c_host c_port c_database]. destruct s; cbn [pairs].
  - unfold split_whitespace. rewrite not_empty_idem. by apply pg_reads_back.
  - by apply sql_server_reads_back.
  - by apply maria_reads_back.
Qed.

(** What the two loops of [problems] find. *)
Lemma domain_problem_nil (d : Domain) : domain_problem d = [] ↔
  (∃ s c, technology_named (d_storage d) = Some (OnServer s) ∧ read s (d_connection d) = inr c ∧
     domain_server d = [(d_database d, c)]) ∨
  (technology_named (d_storage d) = Some (embedded (d_database d)) ∧ trim (d_connection d) ≠ [] ∧
     domain_server d = []).
Proof.
  unfold domain_problem, domain_server, domain_read. split.
  - destruct (technology_named _) as [[| |s]|] eqn:Ht; [..|done].
    1,2: case_bool_decide as Hb; [done|];
      destruct (is_empty (trim _)) eqn:He; [done|]; apply is_empty_false in He;
      intros _; right; by rewrite Hb.
    destruct (read s _) eqn:Hr; [done|]. intros _. left. eauto.
  - intros [(s & c & -> & -> & _)|(-> & Hc & _)]; [done|].
    assert (He : is_empty (trim (d_connection d)) = false) by by apply is_empty_false.
    destruct (d_database d); cbn; rewrite bool_decide_false by (intros Hn; by apply Hn); by rewrite He.
Qed.

Lemma twice_nil (earlier servers : list (Database * Connection)) :
  twice earlier servers = [] ↔
  ∀ i a b, (earlier ++ servers) !! i = Some a → ∀ j, i < j → length earlier ≤ j →
    (earlier ++ servers) !! j = Some b → same (snd a) (snd b) = false.
Proof.
  revert earlier. induction servers as [|[d c] servers IH]; intros earlier; cbn [twice].
  { split; [|done]. intros _ i a b _ j _ Hj Hb. apply lookup_lt_Some in Hb.
    rewrite app_nil_r in Hb. lia. }
  rewrite app_nil, IH, length_app. cbn [length]. rewrite <- app_assoc. cbn [app]. split.
  - intros [Hf Hr] i a b Ha j Hij Hj Hb.
    destruct (decide (j = length earlier)) as [->|Hn]; [|eapply Hr; [exact Ha|exact Hij|lia|done]].
    rewrite lookup_app_r, Nat.sub_diag in Hb by lia. injection Hb as <-. cbn [snd].
    rewrite lookup_app_l in Ha by done. destruct (list_find _ earlier) as [[k [f g]]|] eqn:E; [done|].
    rewrite list_find_None, Forall_forall in E.
    apply not_true_is_false. apply (E a). by eapply list_elem_of_lookup_2.
  - intros H. split.
    + destruct (list_find _ earlier) as [[k [f g]]|] eqn:E; [|done].
      apply list_find_Some in E as (Hk & Hs & _). exfalso.
      pose proof (lookup_lt_Some _ _ _ Hk) as Hl.
      cbn in Hs. enough (same g c = false) by congruence.
      apply (H k (f, g) (d, c)) with (j := length earlier); [by rewrite lookup_app_l|done|done|].
      by rewrite lookup_app_r, Nat.sub_diag.
    + intros i a b Ha j Hij Hj Hb. eapply H; [exact Ha|exact Hij|lia|done].
Qed.

(** A domain's table that says what it may. *)
Definition domain_ok (d : Domain) : Prop :=
  (∃ s c, technology_named (d_storage d) = Some (OnServer s) ∧ read s (d_connection d) = inr c) ∨
  (technology_named (d_storage d) = Some (embedded (d_database d)) ∧ trim (d_connection d) ≠ []).

(** The databases on servers that the domains name, in order. *)
Definition on_servers (named : list Domain) : list (Database * Connection) := named ≫= domain_server.

(** ** The theorems *)

Module ConnectionTheorems.

(** A configuration of the data domains is found nothing wrong with
    exactly when each domain names a technology that may keep it - a server,
    by a connection string that reads, or its own embedded engine, by a path -
    no two name one database on one server, and, where one names a server, the
    secret the password is kept under is named. *)
Theorem configuration_is_right (named : list Domain) (password : option text) :
  problems named password = [] ↔
  Forall domain_ok named ∧
  (∀ i j a b, i < j → on_servers named !! i = Some a → on_servers named !! j = Some b →
     (c_server a.2, c_host a.2, c_port a.2, c_database a.2) ≠
     (c_server b.2, c_host b.2, c_port b.2, c_database b.2)) ∧
  (on_servers named ≠ [] → ∃ secret, password = Some secret ∧ trim secret ≠ []).
Proof.
  unfold problems. fold (on_servers named). rewrite !app_nil. apply Morphisms_Prop.and_iff_morphism; [|apply Morphisms_Prop.and_iff_morphism].
  - rewrite Forall_forall. split.
    + intros H d Hd. assert (Hp : domain_problem d = []).
      { apply elem_of_nil_inv. intros w Hw. apply (not_elem_of_nil w). rewrite <- H.
        apply list_elem_of_bind. eauto. }
      apply domain_problem_nil in Hp as [(s & c & ? & ? & _)|(? & ? & _)]; [left; eauto|by right].
    + intros H. apply elem_of_nil_inv. intros w (d & Hw & Hd)%list_elem_of_bind.
      enough (domain_problem d = []) as E by (rewrite E in Hw; by apply not_elem_of_nil in Hw).
      unfold domain_problem, domain_read. destruct (H d Hd) as [(s & c & -> & ->)|[-> Hc]]; [done|].
      apply is_empty_false in Hc.
      destruct (d_database d); cbn; rewrite bool_decide_false by (intros Hn; by apply Hn); by rewrite Hc.
  - rewrite twice_nil. cbn. split.
    + intros H i j a b Hij Ha Hb E. specialize (H i a b Ha j Hij ltac:(lia) Hb).
      injection E as E1 E2 E3 E4. unfold same in H. rewrite !bool_decide_true, E3, N.eqb_refl in H; done.
    + intros H i a b Ha j Hij _ Hb. specialize (H i j a b Hij Ha Hb).
      apply not_true_is_false. unfold same. rewrite !andb_true_iff, !bool_decide_eq_true, N.eqb_eq.
      intros [[[E1 E2] E3] E4]. apply H. by rewrite E1, E2, E3, E4.
  - destruct (on_servers named) as [|x l]; [split; [by intros|done]|].
    destruct password as [w|]; [|split; [done|]; by intros (? & ? & _)].
    destruct (is_empty (trim w)) eqn:E.
    + split; [done|]. intros (v & [= <-] & Hv); [done|]. by destruct (trim w).
    + apply is_empty_false in E. split; [eauto|done].
Qed.

(** C39. A connection that is read displays as a connection string that reads
    as itself, in its server's form: the server, the login where one is named,
    the host, the port and the database. *)
Theorem connection_reads_as_written (server : Server) (t : text) (c : Connection) :
  read server t = inr c → read server (display c) = inr c.
Proof. intros H. by eapply valid_reads_back, read_valid. Qed.

Lemma connection_reads_as_written_witness :
  let c := {| c_server := SqlServer; c_login := Some (lit "xmip_storage");
              c_host := lit "sql-1.example"; c_port := 14330; c_database := lit "xmip_audit" |} in
  read SqlServer (lit " server = sql-1.example,+14330 ;; Database=xmip_audit;USER ID=xmip_storage") = inr c ∧
  read SqlServer (display c) = inr c.
Proof.
  split; [by vm_compute|]. eapply (connection_reads_as_written SqlServer
    (lit " server = sql-1.example,+14330 ;; Database=xmip_audit;USER ID=xmip_storage")).
  by vm_compute.
Defined.

(** A SQL Server connection whose [Server] names a port and no host is read, the
    host empty: what is asked not to be empty is the value before it is taken
    apart into host and port. *)
Theorem read_without_a_host :
  read SqlServer (lit "Server=tcp:,1433;Database=xmip_audit") =
  inr {| c_server := SqlServer; c_login := None; c_host := []; c_port := 1433;
         c_database := lit "xmip_audit" |}.
Proof. by vm_compute. Qed.

End ConnectionTheorems.
