(* ===== verification/Scripts.v ===== *)
(** * The scripts that make the databases and bring them up
    (src/.src/storage/schema.rs, schema/dialect.rs, schema/upgrade.rs)

    Every script an operator runs on a database server, as text: the roles,
    each database, its schema ([tables]) and the upgrade from one schema
    version to a later one ([script], [upgrade_of]), in each server's dialect.
    How a dialect quotes an identifier and writes a literal is the sql crate's,
    which is not in the repository: class [Sql].

    What the statements are and do to a database is said apart, as a
    specification: a [Statement], its text in each server's language
    ([statement_text]) and what it makes of the tables a database holds
    ([applied]), refused where a server refuses it - a table made twice, a column
    added that may not be empty, an index of a column that is not there or named
    as another, a version recorded twice. The theorems show that the text
    of a script is that of its statements, and that run on a database at one
    schema version they bring it to the other. *)

From S2P Require Import Prelude Schema Connection.
From stdpp Require Import pretty.

(** ** The sql crate *)

(** [sql::Dialect]'s [quote_identifier] and [quote_text], of the dialect of each
    server ([language]). *)
Class Sql : Set := {
  quote_identifier : Server → string → string;
  quote_text : Server → string → string;
}.

(** ** Text *)

Definition nl : string := String (Ascii.ascii_of_nat 10) EmptyString.
(** Lines, each ended. *)
Definition lines (l : list string) : string := String.concat "" ((λ s, s +:+ nl) <$> l).
Definition all (l : list string) : string := String.concat "" l.

(** ** The dialects (dialect.rs) *)

Definition SCHEMA : string := "xmip".
Definition OWNER : string := "xmip_owner".
Definition LOGIN : string := "xmip_storage".

Definition dialect_name (server : Server) : string :=
  match server with
  | PostgreSql => "PostgreSQL" | SqlServer => "SQL Server" | MariaDb => "MariaDB"
  end.

Section dialect.
Context `{Sql}.

Definition quoted (server : Server) (identifier : string) : string :=
  match server with
  | MariaDb => quote_identifier server identifier
  | PostgreSql | SqlServer => identifier
  end.

Definition table_in (server : Server) (name : string) : string :=
  match server with
  | MariaDb => quoted server name
  | PostgreSql | SqlServer => SCHEMA +:+ "." +:+ name
  end.

Definition login (server : Server) : string :=
  match server with
  | MariaDb => quote_text server LOGIN +:+ "@" +:+ quote_text server "%"
  | PostgreSql | SqlServer => LOGIN
  end.

Definition head_of (server : Server) (what run : string) : string :=
  lines
    ["-- Xmip Storage on " +:+ dialect_name server +:+ ": " +:+ what +:+ ".";
     "--";
     "-- Generated by xmip-core-persist (storage::schema), the definition the";
     "-- backend reads and writes by; do not edit. `cargo test --test database`";
     "-- at the estate root fails when this file differs from what it writes.";
     "-- What to run, in what order and why: README.md beside this file.";
     "--";
     "-- " +:+ run;
     ""].

Definition run_as (server : Server) : string :=
  match server with
  | PostgreSql => "Run as a superuser, connected to the postgres database."
  | SqlServer => "Run as a sysadmin with sqlcmd."
  | MariaDb => "Run as root with the mariadb client."
  end.

Definition roles (server : Server) : string :=
  let owner := lines
    ["-- Owns the schema; no one logs in as it. An operator who changes the";
     "-- schema is granted it."] in
  match server with
  | PostgreSql =>
      head_of server "the roles" (run_as server) +:+ owner +:+ lines
        ["CREATE ROLE " +:+ OWNER +:+ " NOLOGIN;";
         "";
         "-- The login a Storage node connects as: reads and writes the tables,";
         "-- nothing more. Its password is set by the operator, never in a file:";
         "-- \password " +:+ LOGIN;
         "CREATE ROLE " +:+ LOGIN +:+ " LOGIN;"]
  | SqlServer =>
      head_of server "the login"
        ("Run as a sysadmin with sqlcmd, its password given as the scripting" +:+ nl +:+
         "-- variable StoragePassword (sqlcmd -v StoragePassword=...), never in a file.") +:+ lines
        ["-- The login a Storage node connects as: reads and writes the tables,";
         "-- nothing more.";
         "CREATE LOGIN " +:+ LOGIN +:+ " WITH PASSWORD = N'$(StoragePassword)', CHECK_POLICY = ON;";
         "GO"]
  | MariaDb =>
      head_of server "the roles" (run_as server) +:+ owner +:+ lines
        ["CREATE ROLE " +:+ OWNER +:+ ";";
         "";
         "-- The login a Storage node connects as: reads and writes the tables,";
         "-- nothing more, over TLS only. It is made locked; the operator sets";
         "-- its password and unlocks it, never in a file:";
         "-- ALTER USER " +:+ login server +:+ " IDENTIFIED BY '...' ACCOUNT UNLOCK;";
         "CREATE USER " +:+ login server +:+ " REQUIRE SSL ACCOUNT LOCK;"]
  end.

(** [02-<domain>-database.sql]. *)
Definition created (server : Server) (database : Database) : string :=
  let name := quoted server (database_name database) in
  head_of server ("the " +:+ database_word database +:+ " database") (run_as server) +:+
  match server with
  | PostgreSql => lines
      ["CREATE DATABASE " +:+ name +:+ " OWNER " +:+ OWNER +:+ " ENCODING " +:+
         quote_text server "UTF8" +:+ " TEMPLATE template0;";
       "REVOKE ALL ON DATABASE " +:+ name +:+ " FROM PUBLIC;";
       "GRANT CONNECT ON DATABASE " +:+ name +:+ " TO " +:+ LOGIN +:+ ";"]
  | SqlServer => lines
      ["CREATE DATABASE " +:+ name +:+ ";";
       "GO";
       "-- Every commit durable before it returns: Xmip counts a write once";
       "-- the database has it (runtime-model.md section 3).";
       "ALTER DATABASE " +:+ name +:+ " SET DELAYED_DURABILITY = DISABLED;";
       "GO"]
  | MariaDb => lines
      ["-- Its text utf8mb4, compared byte for byte, as Xmip compares it.";
       "CREATE DATABASE " +:+ name +:+ " CHARACTER SET utf8mb4 COLLATE utf8mb4_bin;";
       "GRANT ALL PRIVILEGES ON " +:+ name +:+ ".* TO " +:+ OWNER +:+ ";"]
  end.

Definition schema_opened (server : Server) (database : Database) : string :=
  let name := quoted server (database_name database) in
  match server with
  | PostgreSql => lines
      ["SET ROLE " +:+ OWNER +:+ ";";
       "CREATE SCHEMA " +:+ SCHEMA +:+ " AUTHORIZATION " +:+ OWNER +:+ ";"; ""]
  | SqlServer => lines
      ["USE " +:+ name +:+ ";"; "GO"; "CREATE ROLE " +:+ OWNER +:+ ";"; "GO";
       "CREATE SCHEMA " +:+ SCHEMA +:+ " AUTHORIZATION " +:+ OWNER +:+ ";"; "GO"; ""]
  | MariaDb => lines ["USE " +:+ name +:+ ";"; ""]
  end.

Definition opened (server : Server) (database : Database) : string :=
  let name := quoted server (database_name database) in
  match server with
  | PostgreSql => lines ["SET ROLE " +:+ OWNER +:+ ";"; ""]
  | SqlServer => lines ["USE " +:+ name +:+ ";"; "GO"; ""]
  | MariaDb => lines ["USE " +:+ name +:+ ";"; ""]
  end.

(** What ends a statement that makes a table ([table]) or another. *)
Definition ended (server : Server) (table : bool) : string :=
  match server, table with
  | SqlServer, _ => ";" +:+ nl +:+ "GO" +:+ nl
  | MariaDb, true => " ENGINE=InnoDB;" +:+ nl
  | _, _ => ";" +:+ nl
  end.

(** One version of [recorded], and all of it. *)
Definition recorded_version (server : Server) (version : N) : string :=
  let now := match server with
    | PostgreSql => "now()" | SqlServer => "SYSUTCDATETIME()" | MariaDb => "UTC_TIMESTAMP(6)"
    end in
  "INSERT INTO " +:+ table_in server VERSIONS +:+ " (" +:+ quoted server "version" +:+ ", " +:+
  quoted server "recorded_at" +:+ ") VALUES (" +:+ pretty version +:+ ", " +:+ now +:+ ")" +:+
  ended server false.
Definition recorded (server : Server) (versions : list N) : string :=
  lines ["-- The schema version it holds now."] +:+ all (recorded_version server <$> versions) +:+ nl.

Definition added (server : Server) (name column : string) : string :=
  let add := match server with PostgreSql | MariaDb => "ADD COLUMN" | SqlServer => "ADD" end in
  "ALTER TABLE " +:+ table_in server name +:+ " " +:+ add +:+ " " +:+ column +:+ ended server false.

Definition regranted (server : Server) : string :=
  match server with
  | PostgreSql => lines
      ["GRANT SELECT, INSERT, UPDATE, DELETE ON ALL TABLES IN SCHEMA " +:+ SCHEMA +:+ " TO " +:+
         LOGIN +:+ ";";
       "RESET ROLE;"]
  | SqlServer | MariaDb => ""
  end.

Definition granted (server : Server) (database : Database) : string :=
  let name := quoted server (database_name database) in
  match server with
  | PostgreSql => lines
      ["GRANT USAGE ON SCHEMA " +:+ SCHEMA +:+ " TO " +:+ LOGIN +:+ ";";
       "GRANT SELECT, INSERT, UPDATE, DELETE ON ALL TABLES IN SCHEMA " +:+ SCHEMA +:+ " TO " +:+
         LOGIN +:+ ";";
       "RESET ROLE;"]
  | SqlServer => lines
      ["CREATE USER " +:+ LOGIN +:+ " FOR LOGIN " +:+ LOGIN +:+ ";"; "GO";
       "GRANT SELECT, INSERT, UPDATE, DELETE ON SCHEMA::" +:+ SCHEMA +:+ " TO " +:+ LOGIN +:+ ";"; "GO"]
  | MariaDb => lines
      ["GRANT SELECT, INSERT, UPDATE, DELETE ON " +:+ name +:+ ".* TO " +:+ login server +:+ ";"]
  end.

(** What a column of each kind is kept as. *)
Definition kind_in (server : Server) (kind : Kind) : string :=
  match server, kind with
  | PostgreSql, Identifier => "uuid"
  | PostgreSql, KBytes => "bytea"
  | PostgreSql, (KText | LongText | KWord) => "text"
  | _, Number => "bigint"
  | PostgreSql, KCount => "integer"
  | (PostgreSql | MariaDb), KFlag => "boolean"
  | PostgreSql, Sequence => "bigint GENERATED ALWAYS AS IDENTITY"
  | (SqlServer | MariaDb), Identifier => "binary(16)"
  | SqlServer, KBytes => "varbinary(max)"
  | SqlServer, KText => "nvarchar(400)"
  | SqlServer, LongText => "nvarchar(max)"
  | (SqlServer | MariaDb), KCount => "int"
  | SqlServer, KFlag => "bit"
  | SqlServer, Sequence => "bigint IDENTITY(1, 1)"
  | PostgreSql, KTime => "timestamptz"
  | SqlServer, KTime => "datetime2(7)"
  | SqlServer, KWord => "nvarchar(32)"
  | MariaDb, KBytes => "longblob"
  | MariaDb, KText => "varchar(400)"
  | MariaDb, LongText => "longtext"
  | MariaDb, Sequence => "bigint AUTO_INCREMENT"
  | MariaDb, KTime => "datetime(6)"
  | MariaDb, KWord => "varchar(32)"
  end.

(** ** What schema.rs makes of a table *)

Definition run_in (server : Server) (database : Database) : string :=
  match server with
  | PostgreSql =>
      "Run as a superuser, connected to the " +:+ database_name database +:+ " database."
  | SqlServer | MariaDb => run_as server
  end.

Definition named (server : Server) (names : list string) : string :=
  String.concat ", " (quoted server <$> names).

Definition column_text (server : Server) (column : Column) : string :=
  let null := if cl_null column then "NULL" else "NOT NULL" in
  quoted server (cl_name column) +:+ " " +:+ kind_in server (cl_kind column) +:+ " " +:+ null.

Definition indexed (server : Server) (table : Table) (index : Index) : string :=
  if decide (ix_columns index = t_key table) then "" else
  let only := match server, ix_only index with
    | MariaDb, _ | _, None => ""
    | PostgreSql, Some flag => " WHERE " +:+ flag
    | SqlServer, Some flag => " WHERE " +:+ flag +:+ " = 1"
    end in
  "CREATE INDEX " +:+ quoted server (ix_name index) +:+ " ON " +:+ table_in server (t_name table) +:+
  " (" +:+ named server (ix_columns index) +:+ ")" +:+ only +:+ ended server false +:+ nl.

Definition made (server : Server) (table : Table) (at_ : N) : string :=
  let rows :=
    ((λ kept, "    " +:+ column_text server kept) <$>
       filter (λ kept, cl_since kept ≤ at_)%N (t_columns table)) ++
    ["    CONSTRAINT " +:+ t_name table +:+ "_key PRIMARY KEY (" +:+ named server (t_key table) +:+ ")"] ++
    (if decide (t_unique table = []) then [] else
       ["    CONSTRAINT " +:+ t_name table +:+ "_unique UNIQUE (" +:+ named server (t_unique table) +:+ ")"]) in
  "-- " +:+ t_keeps table +:+ "." +:+ nl +:+
  "CREATE TABLE " +:+ table_in server (t_name table) +:+ " (" +:+ nl +:+
  String.concat ("," +:+ nl) rows +:+ nl +:+ ")" +:+ ended server true +:+ nl +:+
  all (indexed server table <$> filter (λ index, ix_since index ≤ at_)%N (t_indexes table)).

(** [03-<domain>-schema.sql]. *)
Definition tables (server : Server) (database : Database) : string :=
  head_of server ("the " +:+ database_word database +:+ " database's schema") (run_in server database) +:+
  schema_opened server database +:+
  all ((λ table, made server table VERSION) <$> filter (λ t, t_database t = database) TABLES) +:+
  recorded server (versions_from VERSION VERSION) +:+
  granted server database.

(** ** The upgrades (upgrade.rs) *)

Definition upgrade_name (database : Database) (from to : N) : string :=
  "04-" +:+ database_word database +:+ "-upgrade-" +:+ pretty from +:+ "-" +:+ pretty to +:+ ".sql".

(** What the loop of [script] writes of one table. *)
Definition table_script (server : Server) (from to : N) (table : Table) : string :=
  let is_added (since : N) : bool := (from <? since)%N && (since <=? to)%N in
  if is_added (t_since table) then made server table to
  else if (to <? t_since table)%N then ""
  else
    all ((λ column,
            "-- Added to " +:+ t_name table +:+ " at version " +:+ pretty (cl_since column) +:+ "." +:+ nl +:+
            added server (t_name table) (column_text server column)) <$>
         filter (λ column, is_added (cl_since column) = true) (t_columns table)) +:+
    all (indexed server table <$> filter (λ index, is_added (ix_since index) = true) (t_indexes table)).

Definition script (tables : list Table) (server : Server) (database : Database) (from to : N) : string :=
  head_of server
    ("the " +:+ database_word database +:+ " database's schema from version " +:+ pretty from +:+
     " to " +:+ pretty to) (run_in server database) +:+
  opened server database +:+
  all (table_script server from to <$> filter (λ t, t_database t = database) tables) +:+
  recorded server (versions_from (from + 1) to) +:+
  regranted server.

Definition upgrade_of (tables : list Table) (built : N) (server : Server) (from to : N) :
    string + list (string * string) :=
  if (from =? 0)%N || (to <=? from)%N || (built <? to)%N then
    inl ("an upgrade is from one schema version to a later one, from 1 to this build's " +:+
         pretty built +:+ "; " +:+ pretty from +:+ " to " +:+ pretty to +:+ " is none")
  else
    match Schema.problems tables built with
    | [] => inr ((λ database, (upgrade_name database from to, script tables server database from to)) <$>
                 ALL_DATABASES)
    | problems => inl (String.concat "; " problems)
    end.

Definition upgrade (server : Server) (from to : N) : string + list (string * string) :=
  upgrade_of TABLES VERSION server from to.

(** [scripts]: every script, in the order they are run. *)
Definition scripts (server : Server) : list (string * string) :=
  [("01-roles.sql", roles server)] ++
  ((λ database, ("02-" +:+ database_word database +:+ "-database.sql", created server database)) <$>
   ALL_DATABASES) ++
  ((λ database, ("03-" +:+ database_word database +:+ "-schema.sql", tables server database)) <$>
   ALL_DATABASES) ++
  (ALL_DATABASES ≫= λ database,
     (λ from, (upgrade_name database from (from + 1), script TABLES server database from (from + 1)))
     <$> filter (λ from, from < VERSION)%N (versions_from 1 VERSION)).

End dialect.

(** ** What the statements of a script do

    The specification: a statement, its text, and what a server makes of it. *)

Inductive Statement : Set :=
  | CreateTable (name keeps : string) (columns : list Column) (key unique : list string)
  | AddColumn (name : string) (column : Column)
  | CreateIndex (name : string) (index : Index)
  | RecordVersion (version : N).

(** What a server keeps of one table, and of a database. *)
Record TableState : Set := {
  ts_columns : gmap string (Kind * bool);
  ts_key : list string;
  ts_unique : list string;
  ts_indexes : gmap string (list string * option string);
}.
Record Kept : Set := { k_tables : gmap string TableState; k_versions : gset N }.

(** Records by a name of theirs. *)
Definition by_name {A V : Type} (name : A → string) (value : A → V) (l : list A) : gmap string V :=
  list_to_map ((λ a, (name a, value a)) <$> l).

Definition columns_of (l : list Column) : gmap string (Kind * bool) :=
  by_name cl_name (λ c, (cl_kind c, cl_null c)) l.
Definition indexes_of (l : list Index) : gmap string (list string * option string) :=
  by_name ix_name (λ i, (ix_columns i, ix_only i)) l.

Definition with_table (name : string) (t : TableState) (k : Kept) : Kept :=
  {| k_tables := <[name := t]> (k_tables k); k_versions := k_versions k |}.

(** Every one of [names] is a column kept. *)
Definition among (names : list string) (columns : gmap string (Kind * bool)) : Prop :=
  Forall (λ n, is_Some (columns !! n)) names.

(** No table of a database has an index of this name. *)
Definition unindexed (name : string) (k : Kept) : Prop :=
  map_Forall (λ _ t, ts_indexes t !! name = None) (k_tables k).
(** What an index is kept only for is a flag of its table. *)
Definition flag_among (only : option string) (columns : gmap string (Kind * bool)) : Prop :=
  match only with
  | Some flag => fst <$> columns !! flag = Some KFlag
  | None => True
  end.
#[export] Instance flag_among_dec only columns : Decision (flag_among only columns).
Proof. unfold flag_among. destruct only; apply _. Defined.

(** A statement run: refused where the table is there already, a column is
    named twice, a key or an index names a column that is not there, an index
    is kept only for what is no flag of its table or is named as another of
    the database, a column added is there already or must hold something, or
    the version is recorded already or nowhere to record it. *)
Definition applied (k : Kept) (s : Statement) : option Kept :=
  match s with
  | CreateTable name _ columns key unique =>
      match k_tables k !! name with
      | Some _ => None
      | None =>
          if decide (NoDup (cl_name <$> columns) ∧ among (key ++ unique) (columns_of columns)) then
            Some (with_table name {| ts_columns := columns_of columns; ts_key := key;
                                     ts_unique := unique; ts_indexes := ∅ |} k)
          else None
      end
  | AddColumn name c =>
      match k_tables k !! name with
      | None => None
      | Some t =>
          if decide (ts_columns t !! cl_name c = None ∧ cl_null c = true) then
            Some (with_table name
              {| ts_columns := <[cl_name c := (cl_kind c, cl_null c)]> (ts_columns t);
                 ts_key := ts_key t; ts_unique := ts_unique t; ts_indexes := ts_indexes t |} k)
          else None
      end
  | CreateIndex name i =>
      match k_tables k !! name with
      | None => None
      | Some t =>
          if decide (unindexed (ix_name i) k ∧ among (ix_columns i) (ts_columns t) ∧
                     flag_among (ix_only i) (ts_columns t)) then
            Some (with_table name
              {| ts_columns := ts_columns t; ts_key := ts_key t; ts_unique := ts_unique t;
                 ts_indexes := <[ix_name i := (ix_columns i, ix_only i)]> (ts_indexes t) |} k)
          else None
      end
  | RecordVersion v =>
      if decide (is_Some (k_tables k !! VERSIONS) ∧ v ∉ k_versions k) then
        Some {| k_tables := k_tables k; k_versions := {[v]} ∪ k_versions k |}
      else None
  end.

Fixpoint run_all (l : list Statement) (k : Kept) : option Kept :=
  match l with
  | [] => Some k
  | s :: l => match applied k s with Some k => run_all l k | None => None end
  end.

(** What the definition says a database holds at a schema version. An index that
    is the table's key is the key. *)
Definition made_indexes (t : Table) (l : list Index) : list Index :=
  filter (λ i, ix_columns i ≠ t_key t) l.
Definition columns_at (v : N) (t : Table) : list Column :=
  filter (λ c, cl_since c ≤ v)%N (t_columns t).
Definition indexes_at (v : N) (t : Table) : list Index :=
  made_indexes t (filter (λ i, ix_since i ≤ v)%N (t_indexes t)).
Definition table_at (v : N) (t : Table) : TableState :=
  {| ts_columns := columns_of (columns_at v t); ts_key := t_key t; ts_unique := t_unique t;
     ts_indexes := indexes_of (indexes_at v t) |}.
Definition tables_at (v : N) (l : list Table) : gmap string TableState :=
  by_name t_name (table_at v) (filter (λ t, t_since t ≤ v)%N l).
Definition in_database (d : Database) (l : list Table) : list Table :=
  filter (λ t, t_database t = d) l.

(** The statements of a table made, and of what an upgrade does to it. *)
Definition made_statements (at_ : N) (t : Table) : list Statement :=
  CreateTable (t_name t) (t_keeps t) (columns_at at_ t) (t_key t) (t_unique t) ::
  (CreateIndex (t_name t) <$> indexes_at at_ t).
Definition added_since (from to since : N) : Prop := (from < since ≤ to)%N.
#[export] Instance added_since_dec from to since : Decision (added_since from to since).
Proof. unfold added_since. apply _. Defined.
Definition upgraded_statements (from to : N) (t : Table) : list Statement :=
  if decide (added_since from to (t_since t)) then made_statements to t
  else if decide (to < t_since t)%N then []
  else (AddColumn (t_name t) <$> filter (λ c, added_since from to (cl_since c)) (t_columns t)) ++
       (CreateIndex (t_name t) <$>
        made_indexes t (filter (λ i, added_since from to (ix_since i)) (t_indexes t))).

Section statements.
Context `{Sql}.

(** What each server is told a column of each kind is: PostgreSQL, SQL Server
    and MariaDB. *)
Definition type_names (kind : Kind) : string * string * string :=
  match kind with
  | Identifier => ("uuid", "binary(16)", "binary(16)")
  | KBytes => ("bytea", "varbinary(max)", "longblob")
  | KText => ("text", "nvarchar(400)", "varchar(400)")
  | Number => ("bigint", "bigint", "bigint")
  | KCount => ("integer", "int", "int")
  | KFlag => ("boolean", "bit", "boolean")
  | Sequence => ("bigint GENERATED ALWAYS AS IDENTITY", "bigint IDENTITY(1, 1)", "bigint AUTO_INCREMENT")
  | LongText => ("text", "nvarchar(max)", "longtext")
  | KTime => ("timestamptz", "datetime2(7)", "datetime(6)")
  | KWord => ("text", "nvarchar(32)", "varchar(32)")
  end.

(** The text of each statement, in each server's language: names quoted on
    MariaDB, tables of the schema [xmip] on the others. *)
Definition identifier_text (server : Server) (name : string) : string :=
  match server with MariaDb => quote_identifier MariaDb name | _ => name end.
Definition table_text (server : Server) (name : string) : string :=
  match server with MariaDb => quote_identifier MariaDb name | _ => "xmip." +:+ name end.
Definition names_text (server : Server) (names : list string) : string :=
  String.concat ", " (identifier_text server <$> names).
Definition column_clause (server : Server) (c : Column) : string :=
  let '(postgre_sql, sql_server, maria_db) := type_names (cl_kind c) in
  identifier_text server (cl_name c) +:+ " " +:+
  match server with PostgreSql => postgre_sql | SqlServer => sql_server | MariaDb => maria_db end +:+
  (if cl_null c then " NULL" else " NOT NULL").
Definition go_text (server : Server) : string :=
  match server with SqlServer => ";" +:+ nl +:+ "GO" +:+ nl | _ => ";" +:+ nl end.

Definition statement_text (server : Server) (s : Statement) : string :=
  match s with
  | CreateTable name keeps columns key unique =>
      "-- " +:+ keeps +:+ "." +:+ nl +:+
      "CREATE TABLE " +:+ table_text server name +:+ " (" +:+ nl +:+
      String.concat ("," +:+ nl)
        (((λ c, "    " +:+ column_clause server c) <$> columns) ++
         ["    CONSTRAINT " +:+ name +:+ "_key PRIMARY KEY (" +:+ names_text server key +:+ ")"] ++
         match unique with
         | [] => []
         | _ => ["    CONSTRAINT " +:+ name +:+ "_unique UNIQUE (" +:+ names_text server unique +:+ ")"]
         end) +:+ nl +:+ ")" +:+
      match server with MariaDb => " ENGINE=InnoDB;" +:+ nl | _ => go_text server end +:+ nl
  | AddColumn name c =>
      "-- Added to " +:+ name +:+ " at version " +:+ pretty (cl_since c) +:+ "." +:+ nl +:+
      "ALTER TABLE " +:+ table_text server name +:+
      match server with SqlServer => " ADD " | _ => " ADD COLUMN " end +:+
      column_clause server c +:+ go_text server
  | CreateIndex name i =>
      "CREATE INDEX " +:+ identifier_text server (ix_name i) +:+ " ON " +:+ table_text server name +:+
      " (" +:+ names_text server (ix_columns i) +:+ ")" +:+
      match server, ix_only i with
      | MariaDb, _ | _, None => ""
      | PostgreSql, Some flag => " WHERE " +:+ flag
      | SqlServer, Some flag => " WHERE " +:+ flag +:+ " = 1"
      end +:+ go_text server +:+ nl
  | RecordVersion v =>
      "INSERT INTO " +:+ table_text server "schema_version" +:+ " (" +:+
      identifier_text server "version" +:+ ", " +:+ identifier_text server "recorded_at" +:+
      ") VALUES (" +:+ pretty v +:+ ", " +:+
      match server with
      | PostgreSql => "now()" | SqlServer => "SYSUTCDATETIME()" | MariaDb => "UTC_TIMESTAMP(6)"
      end +:+ ")" +:+ go_text server
  end.

Definition statements_text (server : Server) (l : list Statement) : string :=
  all (statement_text server <$> l).

(** A script: what opens it, the statements that change the tables, the versions
    recorded, and what closes it. *)
Definition script_text (server : Server) (opens : string) (changes : list Statement)
    (versions : list N) (closes : string) : string :=
  opens +:+ statements_text server changes +:+
  lines ["-- The schema version it holds now."] +:+
  statements_text server (RecordVersion <$> versions) +:+ nl +:+ closes.

End statements.

(** A schema whose tables, columns and indexes are named apart - the indexes of
    all of a database's tables -, whose keys and indexes are of columns there
    from the table's first version, and whose indexes are kept only for flags
    there as long. *)
Definition from_the_first (t : Table) (n : string) : Prop :=
  Exists (λ c, cl_name c = n ∧ (cl_since c ≤ t_since t)%N) (t_columns t).
Definition flag_from_the_first (t : Table) (n : string) : Prop :=
  Exists (λ c, cl_name c = n ∧ cl_kind c = KFlag ∧ (cl_since c ≤ t_since t)%N) (t_columns t).
Definition well_said_table (t : Table) : Prop :=
  NoDup (cl_name <$> t_columns t) ∧ NoDup (ix_name <$> t_indexes t) ∧
  Forall (from_the_first t) (t_key t ++ t_unique t) ∧
  Forall (λ i, Forall (from_the_first t) (ix_columns i) ∧
    Forall (flag_from_the_first t) (option_list (ix_only i))) (t_indexes t).
Definition index_names (l : list Table) : list string := l ≫= λ t, ix_name <$> t_indexes t.
Definition well_said (l : list Table) : Prop :=
  Forall well_said_table l ∧
  Forall (λ d, NoDup (t_name <$> in_database d l) ∧ NoDup (index_names (in_database d l))) ALL_DATABASES.
#[export] Instance well_said_dec (l : list Table) : Decision (well_said l).
Proof. unfold well_said, well_said_table, from_the_first, flag_from_the_first. apply _. Defined.

(** ** Lemmas: text *)

Lemma str_app_nil (s : string) : s +:+ "" = s.
Proof. induction s as [|a s IH]; [done|]. exact (f_equal (String a) IH). Qed.
Lemma str_app_assoc (s t u : string) : (s +:+ t) +:+ u = s +:+ (t +:+ u).
Proof. induction s as [|a s IH]; [done|]. exact (f_equal (String a) IH). Qed.
Lemma all_cons (s : string) (l : list string) : all (s :: l) = s +:+ all l.
Proof. unfold all. destruct l; cbn; [by rewrite str_app_nil|done]. Qed.
Lemma all_app (l k : list string) : all (l ++ k) = all l +:+ all k.
Proof.
  induction l as [|s l IH]; [done|]. cbn [app]. by rewrite !all_cons, IH, str_app_assoc.
Qed.
Lemma all_bind {A B} (f : B → string) (g : A → list B) (l : list A) :
  all (f <$> (l ≫= g)) = all ((λ a, all (f <$> g a)) <$> l).
Proof.
  induction l as [|a l IH]; [done|]. rewrite bind_cons, fmap_app, all_app, IH.
  rewrite fmap_cons. by rewrite all_cons.
Qed.
Lemma all_eq {A} (f g : A → string) (l : list A) : (∀ a, a ∈ l → f a = g a) →
  all (f <$> l) = all (g <$> l).
Proof. intros Hl. f_equal. apply list_fmap_ext. intros i a Ha. apply Hl. by eapply list_elem_of_lookup_2. Qed.

Section text.
Context `{Sql} (server : Server).

Lemma table_in_text (name : string) : table_in server name = table_text server name.
Proof. by destruct server. Qed.
Lemma named_text (names : list string) : named server names = names_text server names.
Proof. unfold named, names_text. by destruct server. Qed.
Lemma ended_text : ended server false = go_text server.
Proof. by destruct server. Qed.
Lemma ended_table_text :
  ended server true = match server with MariaDb => " ENGINE=InnoDB;" +:+ nl | _ => go_text server end.
Proof. by destruct server. Qed.
Lemma column_text_clause (c : Column) : column_text server c = column_clause server c.
Proof. unfold column_text, column_clause. by destruct server, c as [? [] [] ?]. Qed.
Lemma added_text (name : string) (c : Column) :
  "-- Added to " +:+ name +:+ " at version " +:+ pretty (cl_since c) +:+ "." +:+ nl +:+
    added server name (column_text server c) = statement_text server (AddColumn name c).
Proof.
  cbn [statement_text]. unfold added. rewrite column_text_clause, table_in_text, ended_text.
  do 6 f_equal. by destruct server.
Qed.
Lemma recorded_version_text (v : N) :
  recorded_version server v = statement_text server (RecordVersion v).
Proof. unfold recorded_version. rewrite table_in_text, ended_text. by destruct server. Qed.

Lemma statements_text_app (l k : list Statement) :
  statements_text server (l ++ k) = statements_text server l +:+ statements_text server k.
Proof. unfold statements_text. by rewrite fmap_app, all_app. Qed.

(** The indexes written are those made: one that is the key writes nothing. *)
Lemma indexed_text (t : Table) (l : list Index) :
  all (indexed server t <$> l) = statements_text server (CreateIndex (t_name t) <$> made_indexes t l).
Proof.
  unfold statements_text, made_indexes. induction l as [|i l IH]; [done|].
  rewrite fmap_cons, all_cons, filter_cons, IH. unfold indexed at 1. case_decide as Hk.
  - by rewrite decide_False by (intros Hn; by apply Hn).
  - rewrite decide_True by done. rewrite !fmap_cons, all_cons. cbn [statement_text].
    rewrite named_text, table_in_text, ended_text. by destruct server.
Qed.

Lemma made_text (t : Table) (at_ : N) :
  made server t at_ = statements_text server (made_statements at_ t).
Proof.
  unfold made, made_statements. rewrite indexed_text. unfold statements_text at 2.
  rewrite fmap_cons, all_cons. unfold columns_at, indexes_at. cbn [statement_text].
  rewrite table_in_text, !named_text, ended_table_text.
  assert (Hu : (if decide (t_unique t = []) then [] else
       ["    CONSTRAINT " +:+ t_name t +:+ "_unique UNIQUE (" +:+ names_text server (t_unique t) +:+ ")"]) =
    match t_unique t with
    | [] => []
    | _ => ["    CONSTRAINT " +:+ t_name t +:+ "_unique UNIQUE (" +:+ names_text server (t_unique t) +:+ ")"]
    end) by by destruct (t_unique t).
  rewrite Hu, (list_fmap_ext _ (λ c, "    " +:+ column_clause server c))
    by (intros; by rewrite column_text_clause).
  by rewrite !str_app_assoc.
Qed.

Lemma table_script_text (from to : N) (t : Table) :
  table_script server from to t = statements_text server (upgraded_statements from to t).
Proof.
  unfold table_script, upgraded_statements, added_since.
  assert (Ha : ∀ s, ((from <? s)%N && (s <=? to)%N = true) ↔ (from < s ≤ to)%N).
  { intros s. by rewrite andb_true_iff, N.ltb_lt, N.leb_le. }
  case_decide as Hn; [rewrite (proj2 (Ha _)) by done; apply made_text|].
  rewrite (not_true_is_false _ (λ H, Hn (proj1 (Ha _) H))).
  case_decide as Ht; [by rewrite (proj2 (N.ltb_lt _ _)) by done|].
  rewrite (proj2 (N.ltb_ge _ _)) by lia. rewrite statements_text_app, indexed_text.
  rewrite (filter_iff_in (λ c, _ = true) (λ c, added_since from to (cl_since c))) by (intros; apply Ha).
  rewrite (filter_iff_in (λ i, _ = true) (λ i, added_since from to (ix_since i))) by (intros; apply Ha).
  unfold statements_text at 2. rewrite <- list_fmap_compose. f_equal. apply all_eq. intros c _.
  apply added_text.
Qed.

Lemma recorded_text (versions : list N) :
  recorded server versions = lines ["-- The schema version it holds now."] +:+
    statements_text server (RecordVersion <$> versions) +:+ nl.
Proof.
  unfold recorded, statements_text. rewrite <- list_fmap_compose. do 2 f_equal. apply all_eq.
  intros v _. apply recorded_version_text.
Qed.
End text.

(** ** Lemmas: what statements do *)

Lemma names_inj {A} (name : A → string) (l : list A) (a b : A) : NoDup (name <$> l) →
  a ∈ l → b ∈ l → name a = name b → a = b.
Proof.
  intros Hl Ha Hb E. apply list_elem_of_lookup in Ha as [i Ha], Hb as [j Hb].
  assert (i = j) as ->; [|congruence]. eapply (NoDup_lookup (name <$> l)); [done|..];
    rewrite list_lookup_fmap; [rewrite Ha; done|rewrite Hb; cbn; by rewrite E].
Qed.

Section by_name.
Context {A V : Type} (name : A → string) (value : A → V).

Lemma by_name_cons (a : A) (l : list A) :
  by_name name value (a :: l) = <[name a := value a]> (by_name name value l).
Proof. done. Qed.

Lemma by_name_names (l : list A) : ((λ a, (name a, value a)) <$> l).*1 = name <$> l.
Proof. by rewrite <- list_fmap_compose. Qed.

Lemma lookup_by_name (l : list A) (n : string) (v : V) : NoDup (name <$> l) →
  by_name name value l !! n = Some v ↔ ∃ a, a ∈ l ∧ name a = n ∧ value a = v.
Proof.
  intros Hl. unfold by_name. rewrite <- elem_of_list_to_map by by rewrite by_name_names.
  rewrite list_elem_of_fmap. naive_solver.
Qed.
Lemma lookup_by_name_none (l : list A) (n : string) :
  by_name name value l !! n = None ↔ n ∉ name <$> l.
Proof.
  unfold by_name. rewrite <- not_elem_of_list_to_map. by rewrite by_name_names.
Qed.

Lemma NoDup_filter_names (P : A → Prop) `{∀ a, Decision (P a)} (l : list A) :
  NoDup (name <$> l) → NoDup (name <$> filter P l).
Proof. intros Hl. eapply sublist_NoDup; [exact Hl|]. apply fmap_sublist, sublist_filter. Qed.

(** Two parts of a list by name are the whole. *)
Lemma by_name_union (P Q R : A → Prop) `{∀ a, Decision (P a)} `{∀ a, Decision (Q a)}
    `{∀ a, Decision (R a)} (l : list A) : NoDup (name <$> l) → (∀ a, a ∈ l → (R a ↔ P a ∨ Q a)) →
  by_name name value (filter R l) = by_name name value (filter P l) ∪ by_name name value (filter Q l).
Proof.
  intros Hl HR. apply map_eq. intros n. apply option_eq. intros v.
  rewrite lookup_union_Some_raw, lookup_by_name_none.
  rewrite !lookup_by_name by by apply NoDup_filter_names.
  setoid_rewrite list_elem_of_filter. split.
  - intros (a & [Ha Hi] & <- & <-). apply HR in Ha as Hpq; [|done].
    destruct (decide (P a)) as [Hp|Hp]; [left; eauto 6|right].
    split; [|exists a; tauto]. rewrite list_elem_of_fmap. setoid_rewrite list_elem_of_filter.
    intros (b & E & Hb & Hbi). apply Hp. by rewrite (names_inj name l a b).
  - intros [(a & [Ha Hi] & <- & <-)|(_ & a & [Ha Hi] & <- & <-)]; exists a; split_and!; try done;
      apply HR; tauto.
Qed.
End by_name.

Lemma run_all_app (l r : list Statement) (k k' : Kept) :
  run_all l k = Some k' → run_all (l ++ r) k = run_all r k'.
Proof.
  revert k. induction l as [|s l IH]; intros k; cbn; [by intros [= ->]|].
  destruct (applied k s); [apply IH|done].
Qed.

Lemma with_table_same (n : string) (t : TableState) (k : Kept) :
  k_tables k !! n = Some t → with_table n t k = k.
Proof. intros Ht. destruct k. unfold with_table. cbn in *. by rewrite insert_id. Qed.
Lemma with_table_twice (n : string) (t u : TableState) (k : Kept) :
  with_table n t (with_table n u k) = with_table n t k.
Proof. unfold with_table. cbn. by rewrite insert_insert_eq. Qed.

Lemma columns_added (n : string) (cs : list Column) (k : Kept) (t : TableState) :
  k_tables k !! n = Some t → NoDup (cl_name <$> cs) →
  (∀ c, c ∈ cs → ts_columns t !! cl_name c = None ∧ cl_null c = true) →
  run_all (AddColumn n <$> cs) k =
  Some (with_table n {| ts_columns := columns_of cs ∪ ts_columns t; ts_key := ts_key t;
                        ts_unique := ts_unique t; ts_indexes := ts_indexes t |} k).
Proof.
  revert k t. induction cs as [|c cs IH]; intros k t Hk Hn Hc.
  { cbn. unfold columns_of, by_name. cbn. rewrite (left_id_L ∅ (∪)), with_table_same; [done|].
    rewrite Hk. by destruct t. }
  rewrite fmap_cons in Hn. apply NoDup_cons in Hn as [Hni Hn].
  cbn [fmap list_fmap run_all applied]. rewrite Hk, decide_True by (apply Hc; by left).
  erewrite IH; [|cbn; by rewrite lookup_insert_eq|done|].
  - rewrite with_table_twice. cbn [ts_columns ts_key ts_unique ts_indexes]. do 3 f_equal. unfold columns_of. rewrite by_name_cons.
    rewrite <- insert_union_r by by apply lookup_by_name_none. by rewrite insert_union_l.
  - intros d Hd. destruct (Hc d) as [Hdt Hdn]; [by right|]. split; [|done]. cbn.
    rewrite lookup_insert_ne; [done|]. intros E. apply Hni. rewrite E. by apply list_elem_of_fmap_2.
Qed.

Lemma indexes_created (n : string) (is_ : list Index) (k : Kept) (t : TableState) :
  k_tables k !! n = Some t → NoDup (ix_name <$> is_) →
  (∀ i, i ∈ is_ → unindexed (ix_name i) k ∧ among (ix_columns i) (ts_columns t) ∧
     flag_among (ix_only i) (ts_columns t)) →
  run_all (CreateIndex n <$> is_) k =
  Some (with_table n {| ts_columns := ts_columns t; ts_key := ts_key t;
                        ts_unique := ts_unique t; ts_indexes := indexes_of is_ ∪ ts_indexes t |} k).
Proof.
  revert k t. induction is_ as [|c cs IH]; intros k t Hk Hn Hc.
  { cbn. unfold indexes_of, by_name. cbn. rewrite (left_id_L ∅ (∪)), with_table_same; [done|].
    rewrite Hk. by destruct t. }
  rewrite fmap_cons in Hn. apply NoDup_cons in Hn as [Hni Hn].
  cbn [fmap list_fmap run_all applied]. rewrite Hk, decide_True by (apply Hc; by left).
  erewrite IH; [|cbn; by rewrite lookup_insert_eq|done|].
  - rewrite with_table_twice. cbn [ts_columns ts_key ts_unique ts_indexes]. do 3 f_equal. unfold indexes_of. rewrite by_name_cons.
    rewrite <- insert_union_r by by apply lookup_by_name_none. by rewrite insert_union_l.
  - intros d Hd. destruct (Hc d) as [Hdt Hdn]; [by right|]. split; [|done]. cbn.
    apply map_Forall_insert_2; [|done]. cbn. rewrite lookup_insert_ne; [by eapply Hdt|].
    intros E. apply Hni. rewrite E. by apply list_elem_of_fmap_2.
Qed.

(** What a schema with nothing wrong in it says of a table. *)
Record adds_only (built : N) (t : Table) : Prop := {
  ao_since : (0 < t_since t ≤ built)%N;
  ao_columns : ∀ c, c ∈ t_columns t →
    (t_since t ≤ cl_since c)%N ∧ ((t_since t < cl_since c)%N → cl_null c = true);
  ao_indexes : ∀ i, i ∈ t_indexes t → (ix_since i ≤ t_since t)%N;
}.

Lemma bind_nil {A B} (f : A → list B) (l : list A) (a : A) : l ≫= f = [] → a ∈ l → f a = [].
Proof.
  intros Hl Ha. apply elem_of_nil_inv. intros b Hb. apply (not_elem_of_nil b). rewrite <- Hl.
  apply list_elem_of_bind. eauto.
Qed.
Lemma if_nil {A} (b : bool) (a : A) : (if b then [a] else []) = [] → b = false.
Proof. by destruct b. Qed.

Lemma problems_adds_only (l : list Table) (built : N) (t : Table) :
  Schema.problems l built = [] → t ∈ l → adds_only built t.
Proof.
  intros Hp Ht. apply (bind_nil _ _ t) in Hp; [|done].
  unfold table_problems in Hp. apply fmap_nil_inv in Hp.
  apply app_nil in Hp as [Hv Hp]. apply app_nil in Hp as [Hc Hi]. apply if_nil in Hv. split.
  - cbn in Hv. apply orb_false_iff in Hv as [Hv _]. apply orb_false_iff in Hv as [H0 H1].
    apply N.eqb_neq in H0. apply N.ltb_ge in H1. lia.
  - intros c Hin. apply (bind_nil _ _ c) in Hc; [|done]. unfold column_problems in Hc.
    apply app_nil in Hc as [H1 Hc]. apply app_nil in Hc as [H2 _]. apply if_nil in H1, H2.
    apply N.ltb_ge in H1. split; [done|]. intros Hlt%N.ltb_lt. rewrite Hlt in H2. cbn in H2.
    by destruct (cl_null c).
  - intros i Hin. apply (bind_nil _ _ i) in Hi; [|done]. unfold index_problems in Hi.
    apply if_nil in Hi. by apply N.ltb_ge in Hi.
Qed.

Lemma first_among (t : Table) (ns : list string) (v : N) : NoDup (cl_name <$> t_columns t) →
  (t_since t ≤ v)%N → Forall (from_the_first t) ns → among ns (columns_of (columns_at v t)).
Proof.
  intros Hn Hv Hns. eapply Forall_impl; [exact Hns|]. intros n (c & Hc & <- & Hs)%Exists_exists.
  exists (cl_kind c, cl_null c). apply lookup_by_name; [by apply NoDup_filter_names|].
  exists c. split_and!; [|done..]. apply list_elem_of_filter. split; [lia|done].
Qed.

Lemma first_flag (t : Table) (only : option string) (v : N) : NoDup (cl_name <$> t_columns t) →
  (t_since t ≤ v)%N → Forall (flag_from_the_first t) (option_list only) →
  flag_among only (columns_of (columns_at v t)).
Proof.
  intros Hn Hv Hf. destruct only as [flag|]; [|done]. cbn in *.
  apply Forall_cons in Hf as [(c & Hc & <- & Hk & Hs)%Exists_exists _].
  assert (columns_of (columns_at v t) !! cl_name c = Some (cl_kind c, cl_null c)) as ->; [|by rewrite <- Hk].
  apply lookup_by_name; [by apply NoDup_filter_names|].
  exists c. split_and!; [|done..]. apply list_elem_of_filter. split; [lia|done].
Qed.

(** None of a table's indexes is named as one of the database. *)
Definition fresh_indexes (k : Kept) (t : Table) : Prop :=
  ∀ i, i ∈ t_indexes t → unindexed (ix_name i) k.

Lemma made_run (k : Kept) (t : Table) (v : N) : well_said_table t → (t_since t ≤ v)%N →
  k_tables k !! t_name t = None → fresh_indexes k t →
  run_all (made_statements v t) k = Some (with_table (t_name t) (table_at v t) k).
Proof.
  intros (Hc & Hi & Hk & Hx) Hv Hn Hfresh. cbn [made_statements run_all applied]. rewrite Hn.
  rewrite decide_True by (split; [by apply NoDup_filter_names|by apply first_among]).
  erewrite indexes_created; [|cbn; by rewrite lookup_insert_eq|by do 2 apply NoDup_filter_names|].
  - rewrite with_table_twice. cbn. by rewrite (right_id_L ∅ (∪)).
  - intros i (_ & Hin)%list_elem_of_filter. apply list_elem_of_filter in Hin as [_ Hin].
    rewrite Forall_forall in Hx. destruct (Hx _ Hin) as [Hcols Honly].
    split; [|split; [by apply first_among|by apply first_flag]].
    cbn. apply map_Forall_insert_2; [done|by apply Hfresh].
Qed.

Lemma columns_at_to (from to : N) (t : Table) : NoDup (cl_name <$> t_columns t) → (from < to)%N →
  columns_of (columns_at to t) =
  columns_of (filter (λ c, added_since from to (cl_since c)) (t_columns t)) ∪ columns_of (columns_at from t).
Proof. intros Hn Hft. apply by_name_union; [done|]. intros c _. unfold added_since. lia. Qed.

(** One table upgraded. *)
Lemma upgraded_run (from to built : N) (k : Kept) (t : Table) :
  well_said_table t → adds_only built t → (from < to)%N →
  k_tables k !! t_name t = (if decide (t_since t ≤ from)%N then Some (table_at from t) else None) →
  ((from < t_since t)%N → fresh_indexes k t) →
  run_all (upgraded_statements from to t) k =
  Some (if decide (t_since t ≤ to)%N then with_table (t_name t) (table_at to t) k else k).
Proof.
  intros Hw [Hs Hc Hi] Hft Hk Hfresh. unfold upgraded_statements. destruct (decide (added_since _ _ _)) as [Ha|Ha].
  { unfold added_since in Ha. rewrite decide_False in Hk by lia. rewrite decide_True by lia.
    apply made_run; [done|lia|done|apply Hfresh; lia]. }
  unfold added_since in Ha. destruct (decide (to < t_since t)%N) as [Ht|Ht].
  { by rewrite decide_False by lia. }
  rewrite decide_True in Hk by lia. rewrite decide_True by lia. pose proof Hw as (Hcn & _).
  assert (Hno : ∀ v, (t_since t ≤ v)%N → filter (λ i, ix_since i ≤ v)%N (t_indexes t) = t_indexes t).
  { intros v Hv. apply filter_all. intros i Hin. specialize (Hi i Hin). lia. }
  assert (Hnil : filter (λ i, added_since from to (ix_since i)) (t_indexes t) = []).
  { apply elem_of_nil_inv. intros i (Hadd & Hin)%list_elem_of_filter. specialize (Hi i Hin).
    unfold added_since in Hadd. lia. }
  rewrite Hnil. unfold made_indexes at 1. cbn [filter list_filter fmap list_fmap]. rewrite app_nil_r.
  erewrite columns_added; [|exact Hk|by apply NoDup_filter_names|].
  - unfold table_at, indexes_at. cbn. rewrite !Hno by lia. by rewrite (columns_at_to from to).
  - intros c (Hadd & Hin)%list_elem_of_filter. unfold added_since in Hadd.
    destruct (Hc c Hin) as [Hle Hnull]. split; [|apply Hnull; lia].
    apply eq_None_not_Some. intros [x Hx].
    apply lookup_by_name in Hx as (d & Hd & E & _); [|by apply NoDup_filter_names].
    apply list_elem_of_filter in Hd as [Hds Hd].
    rewrite (names_inj cl_name (t_columns t) d c) in Hds by done. lia.
Qed.

Definition table_of (v : N) (t : Table) : option TableState :=
  if decide (t_since t ≤ v)%N then Some (table_at v t) else None.

Lemma lookup_tables_at (v : N) (l : list Table) (t : Table) : NoDup (t_name <$> l) → t ∈ l →
  tables_at v l !! t_name t = table_of v t.
Proof.
  intros Hn Ht. unfold table_of. case_decide as Hv.
  - apply lookup_by_name; [by apply NoDup_filter_names|]. exists t. split_and!; [|done..].
    by apply list_elem_of_filter.
  - apply lookup_by_name_none. rewrite list_elem_of_fmap. setoid_rewrite list_elem_of_filter.
    intros (u & E & Hu & Hin). apply Hv. by rewrite (names_inj t_name l t u).
Qed.

(** Every table of a database upgraded. *)
Lemma upgraded_all (from to built : N) (l : list Table) (k : Kept) :
  (from < to)%N → NoDup (t_name <$> l) → NoDup (index_names l) → Forall well_said_table l →
  (∀ t, t ∈ l → adds_only built t ∧ k_tables k !! t_name t = table_of from t ∧
     ((from < t_since t)%N → fresh_indexes k t)) →
  ∃ k', run_all (l ≫= upgraded_statements from to) k = Some k' ∧ k_versions k' = k_versions k ∧
    (∀ t, t ∈ l → k_tables k' !! t_name t = table_of to t) ∧
    (∀ n, n ∉ t_name <$> l → k_tables k' !! n = k_tables k !! n).
Proof.
  intros Hft. revert k. induction l as [|t l IH]; intros k Hn Hin_ Hw Hl.
  { exists k. split_and!; try done. by intros t ?%not_elem_of_nil. }
  rewrite fmap_cons in Hn. apply NoDup_cons in Hn as [Hni Hn].
  apply Forall_cons in Hw as [Hwt Hw]. destruct (Hl t) as (Ht & Hk & Hkf); [by left|].
  pose proof Hin_ as Hin_l. unfold index_names in Hin_l. rewrite bind_cons in Hin_l.
  apply NoDup_app in Hin_l as (_ & Hapart & Hin_l).
  rewrite bind_cons. erewrite run_all_app by (by eapply upgraded_run).
  set (k1 := if decide _ then _ else _).
  assert (Hk1 : k_tables k1 !! t_name t = table_of to t).
  { subst k1. unfold table_of. destruct (decide (t_since t ≤ to)%N); [cbn; by rewrite lookup_insert_eq|].
    rewrite Hk. unfold table_of. by rewrite decide_False by lia. }
  assert (Hk2 : ∀ n, n ≠ t_name t → k_tables k1 !! n = k_tables k !! n).
  { intros n Hne. subst k1. destruct (decide _); [|done]. cbn. by rewrite lookup_insert_ne. }
  assert (Hkv : k_versions k1 = k_versions k) by (subst k1; by destruct (decide _)).
  assert (Hk3 : ∀ u, u ∈ l → fresh_indexes k u → fresh_indexes k1 u).
  { intros u Hu Hf i Hi. specialize (Hf i Hi). subst k1. destruct (decide _); [|done].
    cbn. apply map_Forall_insert_2; [|done]. apply lookup_by_name_none.
    intros (j & E & [_ [_ Hj]%list_elem_of_filter]%list_elem_of_filter)%list_elem_of_fmap.
    apply (Hapart (ix_name j)); [by apply list_elem_of_fmap_2|]. rewrite <- E.
    apply list_elem_of_bind. exists u. split; [by apply list_elem_of_fmap_2|done]. }
  clearbody k1. destruct (IH k1) as (k' & Hr & Hv & Hin & Hout); [done|done|done| |].
  { intros u Hu. destruct (Hl u) as (Hau & Hku & Hfu); [by right|]. split; [done|].
    split; [|intros Hs; by apply Hk3, Hfu]. rewrite Hk2; [done|].
    intros E. apply Hni. rewrite <- E. by apply list_elem_of_fmap_2. }
  exists k'. split_and!; [done|by rewrite Hv| |].
  - intros u [->|Hu]%elem_of_cons; [|by apply Hin]. by rewrite Hout.
  - intros n Hnn. rewrite fmap_cons, not_elem_of_cons in Hnn. destruct Hnn as [Hne Hnl].
    by rewrite Hout, Hk2.
Qed.

Lemma bind_apart {A B} (f : A → list B) (l : list A) (a b : A) (x : B) :
  NoDup (l ≫= f) → a ∈ l → b ∈ l → x ∈ f a → x ∈ f b → a = b.
Proof.
  induction l as [|c l IH]; [by intros _ ?%elem_of_nil|]. rewrite bind_cons, !elem_of_cons, NoDup_app.
  intros (_ & Hc & Hl) [->|Ha] [->|Hb] Hx Hy; [done| | |by apply IH].
  - destruct (Hc x Hx). apply list_elem_of_bind. eauto.
  - destruct (Hc x Hy). apply list_elem_of_bind. eauto.
Qed.

Lemma tables_at_fresh (from : N) (l : list Table) (V : gset N) (t : Table) :
  NoDup (t_name <$> l) → NoDup (index_names l) → t ∈ l → (from < t_since t)%N →
  fresh_indexes {| k_tables := tables_at from l; k_versions := V |} t.
Proof.
  intros Hn Hi Ht Hs i Hin n u Hu. apply lookup_by_name in Hu as (t' & Ht' & <- & <-);
    [|by apply NoDup_filter_names]. apply list_elem_of_filter in Ht' as [Hs' Ht'].
  apply lookup_by_name_none. intros (j & E & [_ [_ Hj]%list_elem_of_filter]%list_elem_of_filter)%list_elem_of_fmap.
  assert (t = t') as <-; [|lia]. eapply (bind_apart (λ t, ix_name <$> t_indexes t) l t t' (ix_name i)); [done..| |].
  - by apply list_elem_of_fmap_2.
  - rewrite E. by apply list_elem_of_fmap_2.
Qed.

Lemma upgraded_tables (from to built : N) (l : list Table) (V : gset N) :
  (from < to)%N → NoDup (t_name <$> l) → NoDup (index_names l) → Forall well_said_table l →
  (∀ t, t ∈ l → adds_only built t) →
  run_all (l ≫= upgraded_statements from to) {| k_tables := tables_at from l; k_versions := V |} =
  Some {| k_tables := tables_at to l; k_versions := V |}.
Proof.
  intros Hft Hn Hi Hw Ha.
  destruct (upgraded_all from to built l {| k_tables := tables_at from l; k_versions := V |})
    as (k' & -> & Hv & Hin & Hout); [done..| |].
  { intros t Ht. split; [by apply Ha|]. split; [by apply lookup_tables_at|].
    intros Hs. by apply tables_at_fresh. }
  f_equal. destruct k' as [T V']. cbn in *. subst V'. f_equal. apply map_eq. intros n.
  destruct (decide (n ∈ t_name <$> l)) as [(t & -> & Ht)%list_elem_of_fmap|Hno].
  - rewrite Hin by done. by rewrite lookup_tables_at.
  - rewrite Hout by done.
    assert (Hnone : ∀ v, tables_at v l !! n = None); [|by rewrite !Hnone].
    intros v. apply lookup_by_name_none. intros (t & -> & Ht)%list_elem_of_fmap. apply Hno.
    apply list_elem_of_fmap_2. by apply list_elem_of_filter in Ht as [_ Ht].
Qed.

Lemma versions_recorded (vs : list N) (T : gmap string TableState) (V : gset N) :
  is_Some (T !! VERSIONS) → NoDup vs → (∀ v, v ∈ vs → v ∉ V) →
  run_all (RecordVersion <$> vs) {| k_tables := T; k_versions := V |} =
  Some {| k_tables := T; k_versions := list_to_set vs ∪ V |}.
Proof.
  intros HT. revert V. induction vs as [|v vs IH]; intros V Hn Hv.
  { cbn. by rewrite (left_id_L ∅ (∪)). }
  apply NoDup_cons in Hn as [Hni Hn]. cbn [fmap list_fmap run_all applied k_tables k_versions].
  rewrite decide_True by (split; [done|apply Hv; by left]).
  rewrite IH; [|done|].
  - do 2 f_equal. cbn. set_solver.
  - intros w Hw. rewrite not_elem_of_union, not_elem_of_singleton. split; [by intros ->|].
    apply Hv. by right.
Qed.

Lemma NoDup_versions_from (first last : N) : NoDup (versions_from first last).
Proof. unfold versions_from. apply NoDup_fmap_2; [intros i j; lia|apply NoDup_seq]. Qed.

Lemma tables_at_none (l : list Table) : (∀ t, t ∈ l → 0 < t_since t)%N → tables_at 0 l = ∅.
Proof.
  intros Hl. unfold tables_at. replace (filter _ l) with (@nil Table); [done|]. symmetry.
  apply elem_of_nil_inv. intros t (Ht & Hin)%list_elem_of_filter. specialize (Hl t Hin). lia.
Qed.

Lemma is_a_database (d : Database) : d ∈ ALL_DATABASES.
Proof. destruct d; unfold ALL_DATABASES; set_solver. Qed.

Lemma in_database_names (l : list Table) (d : Database) : well_said l →
  NoDup (t_name <$> in_database d l) ∧ NoDup (index_names (in_database d l)) ∧
  Forall well_said_table (in_database d l).
Proof.
  intros [Hw Hd]. rewrite Forall_forall in Hd. split; [apply Hd, is_a_database|].
  split; [apply Hd, is_a_database|].
  apply Forall_forall. intros t (_ & Ht)%list_elem_of_filter. rewrite Forall_forall in Hw. by apply Hw.
Qed.

(** A script's statements: those that change the tables, then the versions. *)
Lemma statements_run (from to built : N) (l : list Table) (V : gset N) (vs : list N) (v : Table) :
  (from < to)%N → NoDup (t_name <$> l) → NoDup (index_names l) → Forall well_said_table l →
  (∀ t, t ∈ l → adds_only built t) →
  v ∈ l → t_name v = VERSIONS → (t_since v ≤ to)%N → NoDup vs → (∀ v, v ∈ vs → v ∉ V) →
  run_all ((l ≫= upgraded_statements from to) ++ (RecordVersion <$> vs))
    {| k_tables := tables_at from l; k_versions := V |} =
  Some {| k_tables := tables_at to l; k_versions := list_to_set vs ∪ V |}.
Proof.
  intros Hft Hn Hi Hw Ha Hv Hvn Hvs Hvd Hvv. erewrite run_all_app by (by eapply upgraded_tables).
  apply versions_recorded; [|done..]. rewrite <- Hvn, lookup_tables_at by done.
  unfold table_of. by rewrite decide_True.
Qed.

Lemma TABLES_well_said : well_said TABLES.
Proof. apply (bool_decide_unpack _). by vm_compute. Qed.
Lemma TABLES_problems : Schema.problems TABLES VERSION = [].
Proof. by vm_compute. Qed.

Lemma TABLES_versions (d : Database) : versions d ∈ in_database d TABLES.
Proof. apply list_elem_of_filter. split; [done|]. by destruct d; unfold TABLES; repeat constructor. Qed.

Lemma bind_eq {A B} (f g : A → list B) (l : list A) : (∀ a, a ∈ l → f a = g a) → l ≫= f = l ≫= g.
Proof.
  induction l as [|a l IH]; intros Hl; [done|]. rewrite !bind_cons, IH, Hl; [done|by left|].
  intros b Hb. apply Hl. by right.
Qed.

(** ** The theorems *)

Module ScriptTheorems.

Section theorems.
Context `{Sql}.

(** C40. Where the schema's definition says only what it may, every upgrade
    written brings each database, whatever it held recorded, from the schema at
    one version to the schema at the other: its script is the text, in the
    server's own language, of statements not refused - no table made twice, no
    column added that must hold something, no key or index of a column that is
    not there, none kept only for what is no flag, no two indexes of one name -
    that make of the tables at the first version those at the second and record
    each version reached, once. What it may say is more than [upgrade_of] asks:
    tables, columns and the indexes of a database are named apart, and every
    column of a key or an index, and the flag an index is kept only for, is
    there from its table's first version ([well_said], which this build's
    definition is). *)
Theorem upgrade_reaches_the_version (tables : list Table) (built from to : N) (server : Server)
    (texts : list (string * string)) (d : Database) (V : gset N) :
  well_said tables →
  upgrade_of tables built server from to = inr texts →
  (∃ v, v ∈ in_database d tables ∧ t_name v = VERSIONS ∧ (t_since v ≤ from)%N) →
  (∀ v, v ∈ V → (v ≤ from)%N) →
  ∃ changes what,
    (upgrade_name d from to,
     script_text server (head_of server what (run_in server d) +:+ opened server d)
       changes (versions_from (from + 1) to) (regranted server)) ∈ texts ∧
    run_all (changes ++ (RecordVersion <$> versions_from (from + 1) to))
      {| k_tables := tables_at from (in_database d tables); k_versions := V |} =
    Some {| k_tables := tables_at to (in_database d tables);
            k_versions := list_to_set (versions_from (from + 1) to) ∪ V |}.
Proof.
  intros Hw Hu (v & Hv & Hvn & Hvs) HV. unfold upgrade_of in Hu.
  destruct (_ || _) eqn:Hb; [done|]. rewrite !orb_false_iff, N.eqb_neq, N.leb_gt, N.ltb_ge in Hb.
  destruct Hb as [[Hf Hft] Hto].
  destruct (Schema.problems tables built) eqn:Hp; [|done].
  apply (f_equal (λ r, match r with inr l => l | inl _ => [] end)) in Hu. cbv beta iota in Hu.
  rewrite <- Hu.
  exists (in_database d tables ≫= upgraded_statements from to). eexists. split.
  - apply list_elem_of_fmap. exists d. split; [|apply is_a_database]. apply (f_equal (pair _)).
    unfold script, script_text. rewrite recorded_text. unfold statements_text at 1.
    rewrite !str_app_assoc, all_bind. do 3 f_equal.
    apply all_eq. intros t _. symmetry. apply table_script_text.
  - pose proof (in_database_names tables d Hw) as (Hn & Hi & Hwd).
    eapply (statements_run from to built); [done..| |exact Hv|done|lia|apply NoDup_versions_from|].
    + intros t (_ & Ht)%list_elem_of_filter. by eapply problems_adds_only.
    + intros w Hin HwV. apply HV in HwV. apply elem_of_versions_from in Hin. lia.
Qed.

(** Every schema script makes, of a database that holds nothing, the
    database at the build's schema version, and records that version. *)
Theorem schema_script_makes_the_build (server : Server) (d : Database) :
  ∃ changes,
    ("03-" +:+ database_word d +:+ "-schema.sql",
     script_text server
       (head_of server ("the " +:+ database_word d +:+ " database's schema") (run_in server d) +:+
        schema_opened server d)
       changes [VERSION] (granted server d)) ∈ scripts server ∧
    run_all (changes ++ [RecordVersion VERSION]) {| k_tables := ∅; k_versions := ∅ |} =
    Some {| k_tables := tables_at VERSION (in_database d TABLES); k_versions := {[VERSION]} |}.
Proof.
  exists (in_database d TABLES ≫= made_statements VERSION). split.
  - unfold scripts. rewrite !elem_of_app. right; right; left. apply list_elem_of_fmap. exists d.
    split; [|apply is_a_database]. apply (f_equal (pair _)).
    unfold tables, script_text. rewrite recorded_text. unfold statements_text at 1.
    rewrite !str_app_assoc, all_bind.
    do 2 f_equal. f_equal. apply all_eq. intros t _. symmetry. apply made_text.
  - pose proof (in_database_names TABLES d TABLES_well_said) as (Hn & Hi & Hwd).
    assert (Ha : ∀ t, t ∈ in_database d TABLES → adds_only VERSION t).
    { intros t (_ & Ht)%list_elem_of_filter. eapply problems_adds_only; [apply TABLES_problems|done]. }
    rewrite <- (tables_at_none (in_database d TABLES)); [|intros t Ht; apply (ao_since _ _ (Ha t Ht))].
    replace (in_database d TABLES ≫= made_statements VERSION)
      with (in_database d TABLES ≫= upgraded_statements 0 VERSION).
    + pose proof (statements_run 0 VERSION VERSION (in_database d TABLES) ∅ [VERSION] (versions d)) as Hr.
      cbn [fmap list_fmap] in Hr. rewrite Hr; [|done..| | | | |].
      * by rewrite (right_id_L ∅ (∪)), list_to_set_singleton_L.
      * apply TABLES_versions.
      * done.
      * done.
      * apply NoDup_singleton.
      * intros w _ []%not_elem_of_empty.
    + apply bind_eq. intros t Ht. destruct (Ha t Ht) as [Hs _ _]. unfold upgraded_statements.
      rewrite decide_True; [done|]. unfold added_since. lia.
Qed.

End theorems.

(** A schema of three releases: a table given a column at the second, and one
    made at the third. *)
Definition party : Table :=
  {| t_database := Administration_; t_name := "party"; t_since := 1; t_keeps := "each Party";
     t_columns := [column "party" Identifier; column "name" KText;
                   {| cl_name := "country"; cl_kind := KWord; cl_null := true; cl_since := 2 |}];
     t_key := ["party"]; t_unique := [];
     t_indexes := [index 90 "party_name" ["name"]] |}.
Definition party_contact : Table :=
  {| t_database := Administration_; t_name := "party_contact"; t_since := 3;
     t_keeps := "each Party's contacts";
     t_columns := [{| cl_name := "party"; cl_kind := Identifier; cl_null := false; cl_since := 3 |};
                   {| cl_name := "contact"; cl_kind := KText; cl_null := false; cl_since := 3 |}];
     t_key := ["party"; "contact"]; t_unique := []; t_indexes := [] |}.
Definition releases : list Table := [versions Administration_; party; party_contact].

Definition plain_sql : Sql :=
  {| quote_identifier _ i := "[" +:+ i +:+ "]"; quote_text _ s := "'" +:+ s +:+ "'" |}.

(** What [problems] does not ask: a table made at the second version, whose
    index is of a column added at the third, is refused nothing, and its upgrade
    to the second makes an index of a column that is not there. *)
Definition early_index : Table :=
  {| t_database := Administration_; t_name := "party"; t_since := 2; t_keeps := "each Party";
     t_columns := [{| cl_name := "party"; cl_kind := Identifier; cl_null := false; cl_since := 2 |};
                   {| cl_name := "country"; cl_kind := KWord; cl_null := true; cl_since := 3 |}];
     t_key := ["party"]; t_unique := [];
     t_indexes := [{| ix_number := 91; ix_name := "party_country"; ix_columns := ["country"];
                      ix_only := None; ix_since := 2 |}] |}.

Lemma index_older_than_its_column :
  let tables := [versions Administration_; early_index] in
  Schema.problems tables 3 = [] ∧
  run_all (tables ≫= upgraded_statements 1 2)
    {| k_tables := tables_at 1 tables; k_versions := {[1%N]} |} = None.
Proof. split; by vm_compute. Qed.

Lemma upgrade_reaches_the_version_witness :
  let texts := match @upgrade_of plain_sql releases 3 MariaDb 1 3 with inr l => l | inl _ => [] end in
  length texts = 3 ∧
  ∃ changes what,
    (upgrade_name Administration_ 1 3,
     @script_text plain_sql MariaDb
       (head_of MariaDb what (run_in MariaDb Administration_) +:+ @opened plain_sql MariaDb Administration_)
       changes (versions_from 2 3) (regranted MariaDb)) ∈ texts ∧
    run_all (changes ++ (RecordVersion <$> versions_from 2 3))
      {| k_tables := tables_at 1 (in_database Administration_ releases); k_versions := {[1%N]} |} =
    Some {| k_tables := tables_at 3 (in_database Administration_ releases);
            k_versions := list_to_set (versions_from 2 3) ∪ {[1%N]} |}.
Proof.
  intros texts. split; [by vm_compute|].
  apply (@upgrade_reaches_the_version plain_sql releases 3 1 3 MariaDb texts Administration_ {[1%N]}).
  - apply (bool_decide_unpack _). by vm_compute.
  - by vm_compute.
  - exists (versions Administration_). split_and!; [|done..].
    apply list_elem_of_filter. split; [done|]. by left.
  - by intros v ->%elem_of_singleton.
Defined.

End ScriptTheorems.
