(* ===== verification/Instance.v ===== *)
(** * A Work Process's Instances and keys (src/.src/storage/instance.rs)

    An Instance's state, kept whole by its identifier with the turns it has
    taken, and the keys it is correlated by, each belonging to one Instance:
    both written in a Message's hand-on, and only over the turn they were
    read at. *)

From S2P Require Import Prelude Word Engine Store Codec Facts Records Batch Queue Hold Failed Origin.
From S2P Require Import Dead Claim.

Definition INSTANCE : string := "process-instance".
Definition INSTANCE_KEY : string := "process-instance-key".

(** ** The data *)

Record InstanceRecord : Set := {
  ir_instance : u128;
  ir_work_process : string;
  ir_turns : u64;
  ir_ended : bool;
  ir_body : bytes;
}.
Record InstanceWrite : Set := { iw_record : InstanceRecord; iw_over : u64 }.
Record InstanceKey : Set := { ik_key : u128; ik_instance : u128 }.
Record Turn : Set := {
  tn_hand_on : HandOn;
  tn_instances : list InstanceWrite;
  tn_keys : list InstanceKey;
  tn_unkeyed : list InstanceKey;
}.

#[export] Instance InstanceRecord_eq_dec : EqDecision InstanceRecord.
Proof. solve_decision. Defined.
#[export] Instance InstanceKey_eq_dec : EqDecision InstanceKey.
Proof. solve_decision. Defined.

(** ** Their forms *)

Section forms.
Context {C : Codec}.

Definition write_InstanceRecord (r : InstanceRecord) : bytes :=
  w_u128 (ir_instance r) ++ w_text (ir_work_process r) ++ w_u64 (ir_turns r) ++
  w_flag (ir_ended r) ++ w_counted (ir_body r).
Definition read_InstanceRecord : rd InstanceRecord :=
  instance ← r_u128; work_process ← r_text; turns ← r_u64; ended ← r_flag; body ← r_counted;
  mret {| ir_instance := instance; ir_work_process := work_process; ir_turns := turns;
          ir_ended := ended; ir_body := body |}.
#[export] Instance InstanceRecord_form : Form InstanceRecord :=
  { write := write_InstanceRecord; fread := read_InstanceRecord }.

Definition write_InstanceWrite (w : InstanceWrite) : bytes := write (iw_record w) ++ w_u64 (iw_over w).
Definition read_InstanceWrite : rd InstanceWrite :=
  record ← fread; over ← r_u64; mret {| iw_record := record; iw_over := over |}.
#[export] Instance InstanceWrite_form : Form InstanceWrite :=
  { write := write_InstanceWrite; fread := read_InstanceWrite }.

Definition write_InstanceKey (k : InstanceKey) : bytes := w_u128 (ik_key k) ++ w_u128 (ik_instance k).
Definition read_InstanceKey : rd InstanceKey :=
  key ← r_u128; instance ← r_u128; mret {| ik_key := key; ik_instance := instance |}.
#[export] Instance InstanceKey_form : Form InstanceKey :=
  { write := write_InstanceKey; fread := read_InstanceKey }.

Definition write_Turn (t : Turn) : bytes :=
  write (tn_hand_on t) ++ w_vec write (tn_instances t) ++ w_vec write (tn_keys t) ++
  w_vec write (tn_unkeyed t).
Definition read_Turn : rd Turn :=
  hand_on ← fread; instances ← r_vec fread; keys ← r_vec fread; unkeyed ← r_vec fread;
  mret {| tn_hand_on := hand_on; tn_instances := instances; tn_keys := keys;
          tn_unkeyed := unkeyed |}.
#[export] Instance Turn_form : Form Turn := { write := write_Turn; fread := read_Turn }.
End forms.

#[export] Instance InstanceRecord_fits : Fits InstanceRecord := λ r,
  counts_text (ir_work_process r) ∧ counts (ir_body r).
#[export] Instance InstanceWrite_fits : Fits InstanceWrite := λ w, fits (iw_record w).
#[export] Instance InstanceKey_fits : Fits InstanceKey := λ _, True.
#[export] Instance Turn_fits : Fits Turn := λ t,
  fits (tn_hand_on t) ∧ (counts (tn_instances t) ∧ Forall fits (tn_instances t)) ∧
  (counts (tn_keys t) ∧ Forall fits (tn_keys t)) ∧
  (counts (tn_unkeyed t) ∧ Forall fits (tn_unkeyed t)).

Section roundtrips.
Context {C : Codec} {CO : CodecOk C}.

#[export] Instance InstanceRecord_ok : FormOk InstanceRecord.
Proof.
  intros r l [? ?]. cbn [write fread InstanceRecord_form].
  unfold write_InstanceRecord, read_InstanceRecord. roundtrip. by destruct r.
Qed.
#[export] Instance InstanceWrite_ok : FormOk InstanceWrite.
Proof.
  intros w l Hw. unfold fits, InstanceWrite_fits in Hw. cbn [write fread InstanceWrite_form].
  unfold write_InstanceWrite, read_InstanceWrite. roundtrip. by destruct w.
Qed.
#[export] Instance InstanceKey_ok : FormOk InstanceKey.
Proof.
  intros k l _. cbn [write fread InstanceKey_form].
  unfold write_InstanceKey, read_InstanceKey. roundtrip. by destruct k.
Qed.
#[export] Instance Turn_ok : FormOk Turn.
Proof.
  intros t l (? & [? ?] & [? ?] & [? ?]). cbn [write fread Turn_form].
  unfold write_Turn, read_Turn. roundtrip. by destruct t.
Qed.
End roundtrips.

(** ** The operations *)

Section operations.
Context {C : Codec}.

(** [owner]: the Instance a key belongs to, as the batch has left it. *)
Definition owner (key : u128) : prog (option u128) :=
  o ← batch_read INSTANCE_KEY (be key);
  lift (transpose ((λ bytes, ik_instance <$> into (from_bytes bytes : cres InstanceKey)) <$> o)).

(** [current]'s two loops, each done with at its first [false]. *)
Fixpoint all_stand (writes : list InstanceWrite) : prog bool :=
  match writes with
  | [] => mret true
  | w :: writes =>
      o ← batch_read INSTANCE (be (ir_instance (iw_record w)));
      stands ← match o with
               | Some bytes => lift (ir_turns <$> into (from_bytes bytes : cres InstanceRecord))
               | None => mret (wrap 0)
               end;
      if decide (stands = iw_over w) then all_stand writes else mret false
  end.
Fixpoint all_own (keys : list InstanceKey) : prog bool :=
  match keys with
  | [] => mret true
  | k :: keys =>
      owner ← owner (ik_key k);
      match owner with
      | Some owner => if decide (owner = ik_instance k) then all_own keys else mret false
      | None => all_own keys
      end
  end.

(** [current]. *)
Definition current (writes : list InstanceWrite) (keys : list InstanceKey) : prog bool :=
  stand ← all_stand writes;
  if stand : bool then all_own keys else mret false.

(** [write] of instance.rs. *)
Definition write_instances (writes : list InstanceWrite) (keys unkeyed : list InstanceKey) : prog unit :=
  for_all (λ w, batch_record INSTANCE (ir_instance (iw_record w)) (iw_record w)) writes;;
  for_all (λ k, batch_record INSTANCE_KEY (ik_key k) k) keys;;
  for_all (λ gone,
    owner ← owner (ik_key gone);
    if decide (owner = Some (ik_instance gone))
    then batch_put INSTANCE_KEY (be (ik_key gone)) None else mret tt) unkeyed.

(** [turn]. *)
Definition turn (t : Turn) (now : i128) : prog bool :=
  current ← current (tn_instances t) (tn_keys t);
  if negb current then mret false
  else
    handed ← hand_on (tn_hand_on t) now;
    if negb handed then mret false
    else write_instances (tn_instances t) (tn_keys t) (tn_unkeyed t);; mret true.

(** [read_instance] and [read_instance_key], on what is written. *)
Definition read_instance {St : Type} `{RecordStore St} (store : St) (instance : u128)
    : result (option InstanceRecord) :=
  o ← rs_get store INSTANCE (be instance);
  transpose ((λ bytes, into (from_bytes bytes)) <$> o).
Definition read_instance_key {St : Type} `{RecordStore St} (store : St) (key : u128)
    : result (option u128) :=
  o ← rs_get store INSTANCE_KEY (be key);
  transpose ((λ bytes, ik_instance <$> into (from_bytes bytes : cres InstanceKey)) <$> o).
End operations.

(** ** What the records hold *)

(** A key and the Instance it belongs to, as the record of it. *)
Definition keyed_to (key instance : u128) : InstanceKey := {| ik_key := key; ik_instance := instance |}.

(** The records hold the Instances [i] and the keys [k], each under its
    identifier. *)
Record instances_are {C : Codec} (R : records) (i : gmap u128 InstanceRecord) (k : gmap u128 u128) :
    Prop := {
  instances_kept n : R !! (INSTANCE, be n) = to_bytes <$> i !! n;
  instances_fit n r : i !! n = Some r → fits r ∧ ir_instance r = n;
  keys_kept n : R !! (INSTANCE_KEY, be n) = to_bytes ∘ keyed_to n <$> k !! n;
}.

(** An Instance stands at the turn its write is over, a key belongs to no
    Instance or to the one it names. *)
Definition stands (i : gmap u128 InstanceRecord) (w : InstanceWrite) : Prop :=
  match i !! ir_instance (iw_record w) with Some r => ir_turns r | None => wrap 0 end = iw_over w.
Definition owns (k : gmap u128 u128) (key : InstanceKey) : Prop :=
  match k !! ik_key key with Some owner => owner = ik_instance key | None => True end.

(** What a turn leaves of the Instances and the keys. *)
Definition moved (i : gmap u128 InstanceRecord) (writes : list InstanceWrite) :
    gmap u128 InstanceRecord :=
  foldl (λ i w, <[ir_instance (iw_record w) := iw_record w]> i) i writes.
Definition keyed (k : gmap u128 u128) (keys : list InstanceKey) : gmap u128 u128 :=
  foldl (λ k key, <[ik_key key := ik_instance key]> k) k keys.
Definition let_keys_go (k : gmap u128 u128) (gone : list InstanceKey) : gmap u128 u128 :=
  foldl (λ k key, if decide (k !! ik_key key = Some (ik_instance key)) then delete (ik_key key) k else k)
    k gone.

#[export] Instance stands_dec i w : Decision (stands i w).
Proof. unfold stands. apply _. Defined.
#[export] Instance owns_dec k key : Decision (owns k key).
Proof. unfold owns. destruct (k !! ik_key key); apply _. Defined.

Section specs.
Context {C : Codec} {CO : CodecOk C}.
Implicit Types (R : records) (i : gmap u128 InstanceRecord) (k : gmap u128 u128).

Lemma instances_are_frame R R' i k :
  (∀ kind key, kind ∈ [INSTANCE; INSTANCE_KEY] → R' !! (kind, key) = R !! (kind, key)) →
  instances_are R i k → instances_are R' i k.
Proof. intros H [Hi Hf Hk]. split; [|done|]; intros n; rewrite H; set_solver. Qed.

Lemma hand_on_instances h now R b R' : exec (hand_on h now) R = Ok (b, R') →
  ∀ kind key, kind ∈ [INSTANCE; INSTANCE_KEY] → R' !! (kind, key) = R !! (kind, key).
Proof.
  assert (Forall (.∉ [INSTANCE; INSTANCE_KEY])
    [HELD; HELD_JOURNEY; PLACES; FAILED; k_by FAILED_KINDS; k_places FAILED_KINDS; ORIGIN; JOURNEY;
     MESSAGE; CLAIM]) as HP by (apply (bool_decide_unpack _); by vm_compute).
  rewrite !Forall_cons in HP. destruct HP as (? & ? & ? & ? & ? & ? & ? & ? & ? & ? & _).
  intros E kind key Hin. eapply (exec_puts_only (.∉ [INSTANCE; INSTANCE_KEY])); [|exact E|tauto].
  unfold hand_on, handed_on, handed_records, handed_places, stored, hold, end_. prog_walk.
Qed.

Lemma exec_owner {B} R i k key (f : option u128 → prog B) : instances_are R i k →
  exec (owner key ≫= f) R = exec (f (k !! key)) R.
Proof.
  intros [_ _ Hk]. rewrite exec_bind. unfold owner. rewrite exec_read, Hk.
  destruct (k !! key) as [o|]; [|done]. cbn [fmap option_fmap option_map compose].
  rewrite from_to_bytes by done. done.
Qed.

Lemma exec_all_stand {B} R i k writes (f : bool → prog B) : instances_are R i k →
  exec (all_stand writes ≫= f) R = exec (f (bool_decide (Forall (stands i) writes))) R.
Proof.
  intros H. induction writes as [|w writes IH]; cbn [all_stand]; [done|].
  rewrite exec_bind, exec_read, (instances_kept _ _ _ H).
  assert (∀ (P : Prop) `{!Decision P}, (P ↔ False) → bool_decide P = false) as Hfalse
    by (intros P ? HP; apply bool_decide_eq_false; tauto).
  destruct (i !! ir_instance (iw_record w)) as [r|] eqn:E; cbn [fmap option_fmap option_map].
  - destruct (instances_fit _ _ _ H _ _ E) as [Hf _]. rewrite from_to_bytes by done.
    cbn [into fmap result_fmap]. rewrite exec_lift. cbn [mbind result_bind].
    destruct (decide (ir_turns r = iw_over w)) as [Hs|Hs].
    + rewrite <- exec_bind, IH. f_equal. f_equal. apply bool_decide_ext.
      rewrite Forall_cons. unfold stands at 2. rewrite E. tauto.
    + rewrite Hfalse; [done|]. rewrite Forall_cons. unfold stands at 1. rewrite E. tauto.
  - cbn [mbind result_bind]. cbv beta iota.
    change (exec (mret (wrap 0) ≫= ?g) R) with (exec (g (wrap 0)) R). cbv beta.
    destruct (decide (wrap 0 = iw_over w)) as [Hs|Hs].
    + rewrite <- exec_bind, IH. f_equal. f_equal. apply bool_decide_ext.
      rewrite Forall_cons. unfold stands at 2. rewrite E. tauto.
    + rewrite Hfalse; [done|]. rewrite Forall_cons. unfold stands at 1. rewrite E. tauto.
Qed.

Lemma exec_all_own {B} R i k keys (f : bool → prog B) : instances_are R i k →
  exec (all_own keys ≫= f) R = exec (f (bool_decide (Forall (owns k) keys))) R.
Proof.
  intros H. induction keys as [|key keys IH]; cbn [all_own]; [done|].
  rewrite exec_bind, (exec_owner R i k) by done.
  assert (bool_decide (Forall (owns k) (key :: keys)) =
          bool_decide (owns k key) && bool_decide (Forall (owns k) keys)) as ->.
  { rewrite <- bool_decide_and. apply bool_decide_ext. by rewrite Forall_cons. }
  destruct (decide (owns k key)) as [Ho|Ho]; [rewrite (bool_decide_eq_true_2 (owns k key)) by done
    |rewrite (bool_decide_eq_false_2 (owns k key)) by done];
    unfold owns in Ho; cbn [andb]; destruct (k !! ik_key key) as [o|]; try done;
    rewrite ?decide_True, ?decide_False by done; [by rewrite <- exec_bind, IH..|done].
Qed.

Lemma exec_current {B} R i k writes keys (f : bool → prog B) : instances_are R i k →
  exec (current writes keys ≫= f) R =
  exec (f (bool_decide (Forall (stands i) writes ∧ Forall (owns k) keys))) R.
Proof.
  intros H. unfold current. rewrite exec_bind, (exec_all_stand R i k) by done.
  rewrite bool_decide_and. destruct (bool_decide (Forall (stands i) writes)); [|done].
  by rewrite <- exec_bind, (exec_all_own R i k).
Qed.

Lemma instances_are_moved R i k w : instances_are R i k → fits (iw_record w) →
  instances_are (record_change R (INSTANCE, be (ir_instance (iw_record w)), Some (to_bytes (iw_record w))))
    (<[ir_instance (iw_record w) := iw_record w]> i) k.
Proof.
  intros [Hi Hf Hk] Hw. split; intros n.
  - rewrite record_changed_at. case_decide as Hd.
    + apply pair_equal_spec in Hd as [_ ->%be_inj]. by rewrite lookup_insert_eq.
    + rewrite lookup_insert_ne; [done|]. congruence.
  - intros r [[<- <-]|[_ Hr]]%lookup_insert_Some; [done|by apply Hf].
  - rewrite record_changed_at. case_decide as Hd; [by apply pair_equal_spec in Hd as [? _]|done].
Qed.

Lemma instances_are_key R i k key o : instances_are R i k →
  instances_are (record_change R (INSTANCE_KEY, be key, to_bytes ∘ keyed_to key <$> o))
    i (partial_alter (λ _, o) key k).
Proof.
  intros [Hi Hf Hk]. split; [| |]; intros n.
  - rewrite record_changed_at. case_decide as Hd; [by apply pair_equal_spec in Hd as [? _]|done].
  - apply Hf.
  - rewrite record_changed_at. case_decide as Hd.
    + apply pair_equal_spec in Hd as [_ ->%be_inj]. by rewrite lookup_partial_alter_eq.
    + rewrite lookup_partial_alter_ne; [done|]. congruence.
Qed.

Lemma exec_instances_written R i k writes : instances_are R i k → Forall fits writes →
  ∃ R', exec (for_all (λ w, batch_record INSTANCE (ir_instance (iw_record w)) (iw_record w)) writes) R
      = Ok (tt, R') ∧ instances_are R' (moved i writes) k.
Proof.
  intros H Hw. revert R i H. induction Hw as [|w writes Hw _ IH]; intros R i H; [by exists R|].
  cbn [for_all]. destruct (IH _ _ (instances_are_moved R i k w H Hw)) as (R1 & E1 & H1).
  exists R1. split; [|done]. by rewrite exec_bind.
Qed.

Lemma exec_keys_written R i k keys : instances_are R i k →
  ∃ R', exec (for_all (λ key, batch_record INSTANCE_KEY (ik_key key) key) keys) R = Ok (tt, R') ∧
    instances_are R' i (keyed k keys).
Proof.
  revert R k. induction keys as [|[key owner] keys IH]; intros R k H; [by exists R|].
  cbn [for_all]. destruct (IH _ _ (instances_are_key R i k key (Some owner) H)) as (R1 & E1 & H1).
  exists R1. split; [|done]. by rewrite exec_bind.
Qed.

Lemma exec_keys_gone R i k gone : instances_are R i k →
  ∃ R', exec (for_all (λ gone,
      owner ← owner (ik_key gone);
      if decide (owner = Some (ik_instance gone))
      then batch_put INSTANCE_KEY (be (ik_key gone)) None else mret tt) gone) R = Ok (tt, R') ∧
    instances_are R' i (let_keys_go k gone).
Proof.
  revert R k. induction gone as [|key gone IH]; intros R k H; [by exists R|].
  cbn [for_all]. unfold let_keys_go. cbn [foldl]. rewrite exec_bind, (exec_owner R i k) by done.
  case_decide as Hd.
  - apply IH. apply (instances_are_key R i k (ik_key key) None H).
  - by apply IH.
Qed.

Lemma exec_write_instances R i k writes keys gone : instances_are R i k → Forall fits writes →
  ∃ R', exec (write_instances writes keys gone) R = Ok (tt, R') ∧
    instances_are R' (moved i writes) (let_keys_go (keyed k keys) gone).
Proof.
  intros H Hw. destruct (exec_instances_written R i k writes H Hw) as (R1 & E1 & H1).
  destruct (exec_keys_written R1 _ k keys H1) as (R2 & E2 & H2).
  destruct (exec_keys_gone R2 _ _ gone H2) as (R3 & E3 & H3).
  exists R3. split; [|done]. unfold write_instances.
  rewrite exec_bind, E1. cbn [mbind result_bind]. rewrite exec_bind, E2. exact E3.
Qed.

(** A turn that returned: decided by the Instances, the keys and the claim,
    its Instances and keys written with its hand-on, or nothing at all. *)
Lemma exec_turn R i k c t now b R' : instances_are R i k → claims_are R c →
  Forall fits (tn_instances t) → exec (turn t now) R = Ok (b, R') →
  let ok := Forall (stands i) (tn_instances t) ∧ Forall (owns k) (tn_keys t) in
  (b = true ↔ ok ∧ (hand_on_after (c !! c_journey (ho_claim (tn_hand_on t))) (tn_hand_on t) now).1 = true) ∧
  (if b then
     instances_are R' (moved i (tn_instances t)) (let_keys_go (keyed k (tn_keys t)) (tn_unkeyed t)) ∧
     ∃ R1, exec (hand_on (tn_hand_on t) now) R = Ok (true, R1) ∧
       ∀ kind key, kind ∉ [INSTANCE; INSTANCE_KEY] → R' !! (kind, key) = R1 !! (kind, key)
   else R' = R).
Proof.
  intros H Hc Hw E ok. unfold turn in E. rewrite (exec_current R i k) in E by done. fold ok in E.
  destruct (bool_decide ok) eqn:Hok; cbn [negb] in E.
  2: { injection E as <- <-. apply bool_decide_eq_false in Hok. split; [|done]. split; [done|tauto]. }
  apply bool_decide_eq_true in Hok. apply exec_bind_Ok in E as (handed & R1 & E1 & E).
  destruct (exec_hand_on R c _ now _ _ Hc E1) as (Hb & _ & Hsame). rewrite <- Hb.
  destruct handed; cbn [negb] in E.
  - assert (instances_are R1 i k) as H1
      by (eapply instances_are_frame, H; by eapply hand_on_instances).
    destruct (exec_write_instances R1 i k _ (tn_keys t) (tn_unkeyed t) H1 Hw) as (R2 & E2 & H2).
    rewrite exec_bind, E2 in E. injection E as <- <-. split; [done|]. split; [done|].
    exists R1. split; [done|]. intros kind key Hk.
    eapply (exec_puts_only (.∈ [INSTANCE; INSTANCE_KEY])); [|exact E2|done].
    assert (INSTANCE ∈ [INSTANCE; INSTANCE_KEY] ∧ INSTANCE_KEY ∈ [INSTANCE; INSTANCE_KEY]) as [? ?] by set_solver.
    unfold write_instances, owner. prog_walk.
  - injection E as <- <-. split; [split; [done|by intros [_ ?]]|]. apply Hsame.
    intros st Hst. rewrite Hst in Hb. unfold hand_on_after in Hb.
    by destruct (held_by st (ho_claim (tn_hand_on t))).
Qed.
End specs.

(** ** What a turn leaves, one Instance and one key at a time *)

Lemma moved_other i writes n : n ∉ ((λ w, ir_instance (iw_record w)) <$> writes) →
  moved i writes !! n = i !! n.
Proof.
  unfold moved. revert i. induction writes as [|w writes IH]; intros i Hn; [done|].
  rewrite fmap_cons in Hn. apply not_elem_of_cons in Hn as [Hw Hn]. cbn [foldl].
  rewrite IH by done. by rewrite lookup_insert_ne.
Qed.

Lemma moved_at i writes w : NoDup ((λ w, ir_instance (iw_record w)) <$> writes) → w ∈ writes →
  moved i writes !! ir_instance (iw_record w) = Some (iw_record w).
Proof.
  intros Hn Hw. revert i. induction writes as [|w' writes IH]; intros i; [by apply elem_of_nil in Hw|].
  rewrite fmap_cons in Hn. apply NoDup_cons in Hn as [Hw' Hn]. unfold moved. cbn [foldl].
  fold (moved (<[ir_instance (iw_record w') := iw_record w']> i) writes).
  apply elem_of_cons in Hw as [->|Hw]; [|by apply IH].
  by rewrite moved_other, lookup_insert_eq.
Qed.

Lemma keyed_other k keys n : n ∉ (ik_key <$> keys) → keyed k keys !! n = k !! n.
Proof.
  unfold keyed. revert k. induction keys as [|key keys IH]; intros k Hn; [done|].
  rewrite fmap_cons in Hn. apply not_elem_of_cons in Hn as [Hk Hn]. cbn [foldl].
  rewrite IH by done. by rewrite lookup_insert_ne.
Qed.

Lemma keyed_at k keys key : NoDup (ik_key <$> keys) → key ∈ keys →
  keyed k keys !! ik_key key = Some (ik_instance key).
Proof.
  intros Hn Hk. revert k. induction keys as [|key' keys IH]; intros k; [by apply elem_of_nil in Hk|].
  rewrite fmap_cons in Hn. apply NoDup_cons in Hn as [Hk' Hn]. unfold keyed. cbn [foldl].
  fold (keyed (<[ik_key key' := ik_instance key']> k) keys).
  apply elem_of_cons in Hk as [->|Hk]; [|by apply IH].
  by rewrite keyed_other, lookup_insert_eq.
Qed.

Lemma let_go_other k gone n : n ∉ (ik_key <$> gone) → let_keys_go k gone !! n = k !! n.
Proof.
  unfold let_keys_go. revert k. induction gone as [|key gone IH]; intros k Hn; [done|].
  rewrite fmap_cons in Hn. apply not_elem_of_cons in Hn as [Hk Hn]. cbn [foldl].
  rewrite IH by done. case_decide; [by rewrite lookup_delete_ne|done].
Qed.

(** A key that belongs to another Instance than every one that lets it go stays. *)
Lemma let_go_stays k gone n owner : k !! n = Some owner → keyed_to n owner ∉ gone →
  let_keys_go k gone !! n = Some owner.
Proof.
  unfold let_keys_go. revert k. induction gone as [|[key who] gone IH]; intros k Hk Hn; [done|].
  apply not_elem_of_cons in Hn as [Hne Hn]. cbn [foldl ik_key ik_instance]. apply IH; [|done].
  case_decide as Hd; [|done]. rewrite lookup_delete_ne; [done|]. intros ->. destruct Hne.
  cbn in Hd. unfold keyed_to. congruence.
Qed.

(** What a turn's answer was, once it is [false]: nothing was written. *)
Lemma turn_refused {C : Codec} {CO : CodecOk C} R i k t now : instances_are R i k →
  ¬ (Forall (stands i) (tn_instances t) ∧ Forall (owns k) (tn_keys t)) →
  exec (turn t now) R = Ok (false, R).
Proof.
  intros H Hn. unfold turn. rewrite (exec_current R i k) by done.
  by rewrite bool_decide_eq_false_2.
Qed.

(** ** The theorems *)

Module InstanceTheorems.
Section theorems.
Context {C : Codec} {CO : CodecOk C}.

(** C34. A turn is one write over the turn it read. One answered yes found
    each Instance it moves at the turn it was read at and each key it
    correlates belonging to no other Instance, and leaves each Instance as
    the turn wrote it, each key its Instance's - and a key another Instance
    lets go where it was - beside exactly what its hand-on alone writes; one
    answered no has written nothing. *)
Theorem turn_over_its_turn (R R' : records) i k c (t : Turn) (now : i128) (b : bool) :
  instances_are R i k → claims_are R c → Forall fits (tn_instances t) →
  NoDup ((λ w, ir_instance (iw_record w)) <$> tn_instances t) → NoDup (ik_key <$> tn_keys t) →
  exec (turn t now) R = Ok (b, R') →
  if b then
    (∀ w, w ∈ tn_instances t →
       stands i w ∧ R' !! (INSTANCE, be (ir_instance (iw_record w))) = Some (to_bytes (iw_record w))) ∧
    (∀ key, key ∈ tn_keys t → owns k key ∧
       (key ∉ tn_unkeyed t → R' !! (INSTANCE_KEY, be (ik_key key)) = Some (to_bytes key))) ∧
    (∀ key owner, k !! key = Some owner → key ∉ (ik_key <$> tn_keys t) →
       keyed_to key owner ∉ tn_unkeyed t → R' !! (INSTANCE_KEY, be key) = R !! (INSTANCE_KEY, be key)) ∧
    ∃ R1, exec (hand_on (tn_hand_on t) now) R = Ok (true, R1) ∧
      ∀ kind key, kind ∉ [INSTANCE; INSTANCE_KEY] → R' !! (kind, key) = R1 !! (kind, key)
  else R' = R.
Proof.
  intros H Hc Hw Hni Hnk E. destruct (exec_turn R i k c t now b R' H Hc Hw E) as [Hb H'].
  destruct b; [|done]. destruct (proj1 Hb eq_refl) as [[Hst Hown] _]. destruct H' as [H' Hhand].
  rewrite Forall_forall in Hst. rewrite Forall_forall in Hown. split; [|split; [|split; [|done]]].
  - intros w Hin. split; [by apply Hst|]. by rewrite (instances_kept _ _ _ H'), moved_at.
  - intros key Hin. split; [by apply Hown|]. intros Hgone.
    rewrite (keys_kept _ _ _ H'), (let_go_stays _ _ _ (ik_instance key)); [by destruct key|by apply keyed_at|].
    by destruct key.
  - intros key owner Hk Hkeys Hgone. rewrite (keys_kept _ _ _ H'), (keys_kept _ _ _ H).
    by rewrite Hk, (let_go_stays _ _ _ owner); [|rewrite keyed_other|].
Qed.

(** No two turns are taken of one state. Once a turn is written,
    another read at the same turn of one of its Instances - of another
    Message, on another node - is refused and writes nothing; and once a
    turn wrote a key, another that would give the key to another Instance
    is refused too, so two first arrivals of one key never both start one. *)
Theorem one_turn_of_a_state (R R' : records) i k c (t t' : Turn) (now now' : i128) :
  instances_are R i k → claims_are R c → Forall fits (tn_instances t) →
  NoDup ((λ w, ir_instance (iw_record w)) <$> tn_instances t) → NoDup (ik_key <$> tn_keys t) →
  exec (turn t now) R = Ok (true, R') →
  (∃ w w', w ∈ tn_instances t ∧ w' ∈ tn_instances t' ∧
     ir_instance (iw_record w') = ir_instance (iw_record w) ∧
     iw_over w' = iw_over w ∧ ir_turns (iw_record w) ≠ iw_over w) ∨
  (∃ key key', key ∈ tn_keys t ∧ key ∉ tn_unkeyed t ∧ key' ∈ tn_keys t' ∧
     ik_key key' = ik_key key ∧ ik_instance key' ≠ ik_instance key) →
  exec (turn t' now') R' = Ok (false, R').
Proof.
  intros H Hc Hw Hni Hnk E Hsame. destruct (exec_turn R i k c t now true R' H Hc Hw E) as [_ [H' _]].
  eapply turn_refused; [exact H'|]. rewrite !Forall_forall. intros [Hst Hown].
  destruct Hsame as [(w & w' & Hin & Hin' & Hi & Ho & Hne)|(key & key' & Hin & Hgone & Hin' & Hk & Hne)].
  - apply Hst in Hin'. unfold stands in Hin'. rewrite Hi, moved_at in Hin' by done. congruence.
  - apply Hown in Hin'. unfold owns in Hin'.
    rewrite Hk in Hin'. erewrite (let_go_stays _ _ _ (ik_instance key)) in Hin'.
    + done.
    + by apply keyed_at.
    + by destruct key.
Qed.

(** A turn asked again after its answer was lost is answered no,
    though it was done: the Instance it moved no longer stands at the turn
    it was read at, which is asked before whether the claim was handed on -
    where its hand-on alone, asked again, is answered yes. *)
Theorem turn_asked_again_answered_no (R R' : records) i k c (t : Turn) (now now' : i128) (w : InstanceWrite) :
  instances_are R i k → claims_are R c → Forall fits (tn_instances t) →
  NoDup ((λ w, ir_instance (iw_record w)) <$> tn_instances t) →
  w ∈ tn_instances t → ir_turns (iw_record w) ≠ iw_over w →
  ho_kept_for_nanos (tn_hand_on t) = None →
  exec (turn t now) R = Ok (true, R') →
  exec (turn t now') R' = Ok (false, R') ∧
  exec (hand_on (tn_hand_on t) now') R' = Ok (true, R').
Proof.
  intros H Hc Hw Hni Hin Hne Hk E.
  destruct (exec_turn R i k c t now true R' H Hc Hw E) as [_ [H' (R1 & E1 & Hrest)]]. split.
  - eapply turn_refused; [exact H'|]. rewrite !Forall_forall. intros [Hst _].
    apply Hst in Hin as Hs. unfold stands in Hs. rewrite moved_at in Hs by done. congruence.
  - destruct (exec_hand_on R c _ now true R1 Hc E1) as (Hb & Hc1 & _).
    assert (claims_are R' (partial_alter (λ o, (hand_on_after o (tn_hand_on t) now).2)
      (c_journey (ho_claim (tn_hand_on t))) c)) as Hc'.
    { eapply claims_are_frame, Hc1. intros key. apply Hrest. apply (bool_decide_unpack _). by vm_compute. }
    by eapply (hand_on_again _ _ _ _ _ _ _ Hc' (lookup_partial_alter_eq _ _ _)).
Qed.
End theorems.

#[local] Existing Instance Plain.codec_ok.

(** One Message's Journey, claimed, whose turn starts the Instance 40 by the key 50. *)
Definition example_instance (instance : N) : InstanceRecord :=
  {| ir_instance := wrap instance; ir_work_process := "OrderApproval"; ir_turns := wrap 1;
     ir_ended := false; ir_body := [x01] |}.
Definition example_turn (instance : N) : Turn := {|
  tn_hand_on := ClaimTheorems.example_hand_on;
  tn_instances := [{| iw_record := example_instance instance; iw_over := wrap 0 |}];
  tn_keys := [keyed_to (wrap 50) (wrap instance)];
  tn_unkeyed := [];
|}.
Definition example_turned : records :=
  left_by (turn (C := Plain.codec) (example_turn 40) ClaimTheorems.example_now) ClaimTheorems.example_claimed.

Lemma example_no_instances : instances_are (C := Plain.codec) ClaimTheorems.example_claimed ∅ ∅.
Proof.
  assert (∀ kind key, kind ≠ CLAIM → ClaimTheorems.example_claimed !! (kind, key) = None) as H.
  { intros kind key Hk. unfold ClaimTheorems.example_claimed. rewrite record_changed_at.
    case_decide as Hd; [by apply pair_equal_spec in Hd as [-> _]|apply lookup_empty]. }
  split; intros n; rewrite ?H, ?lookup_empty by done; done.
Qed.

Lemma example_turns :
  exec (turn (C := Plain.codec) (example_turn 40) ClaimTheorems.example_now) ClaimTheorems.example_claimed
    = Ok (true, example_turned).
Proof. apply exec_returned. by vm_compute. Qed.

Lemma example_turn_fits : Forall fits (tn_instances (example_turn 40)).
Proof. apply Forall_singleton. by vm_compute. Qed.

Lemma turn_over_its_turn_witness :
  example_turned !! (INSTANCE, be (wrap 40 : u128)) = Some (to_bytes (C := Plain.codec) (example_instance 40)).
Proof.
  destruct (turn_over_its_turn (C := Plain.codec) ClaimTheorems.example_claimed example_turned ∅ ∅
    ClaimTheorems.example_claims (example_turn 40) ClaimTheorems.example_now true
    example_no_instances ClaimTheorems.example_claims_are example_turn_fits) as [Hw _].
  - apply NoDup_singleton.
  - apply NoDup_singleton.
  - exact example_turns.
  - apply (Hw {| iw_record := example_instance 40; iw_over := wrap 0 |}). by left.
Defined.

Lemma one_turn_of_a_state_witness :
  exec (turn (C := Plain.codec) (example_turn 41) (i128_clamp 70)) example_turned = Ok (false, example_turned).
Proof.
  apply (one_turn_of_a_state (C := Plain.codec) ClaimTheorems.example_claimed example_turned ∅ ∅
    ClaimTheorems.example_claims (example_turn 40) (example_turn 41) ClaimTheorems.example_now (i128_clamp 70)
    example_no_instances ClaimTheorems.example_claims_are example_turn_fits).
  - apply NoDup_singleton.
  - apply NoDup_singleton.
  - exact example_turns.
  - right. exists (keyed_to (wrap 50) (wrap 40)), (keyed_to (wrap 50) (wrap 41)).
    split; [by left|]. split; [by apply not_elem_of_nil|]. split; [by left|]. split; [done|]. by vm_compute.
Defined.

Lemma turn_asked_again_answered_no_witness :
  exec (turn (C := Plain.codec) (example_turn 40) (i128_clamp 70)) example_turned = Ok (false, example_turned).
Proof.
  destruct (turn_asked_again_answered_no (C := Plain.codec) ClaimTheorems.example_claimed example_turned ∅ ∅
    ClaimTheorems.example_claims (example_turn 40) ClaimTheorems.example_now (i128_clamp 70)
    {| iw_record := example_instance 40; iw_over := wrap 0 |}
    example_no_instances ClaimTheorems.example_claims_are example_turn_fits) as [H _].
  - apply NoDup_singleton.
  - by left.
  - by vm_compute.
  - done.
  - exact example_turns.
  - exact H.
Defined.
End InstanceTheorems.
