(* ===== verification/Publication.v ===== *)
(** * A Publication (src/.src/storage/publication.rs)

    The Message a receive made, the Journeys it opened, the ones held, its
    Dead Message Queue entry and the claims its node takes, decided as one
    and once: what was asked is remembered by its Message. *)

From S2P Require Import Prelude Word Engine Store Codec Facts Records Batch Queue Hold Failed Origin.
From S2P Require Import Dead Claim.

Definition PUBLICATION : string := "publication".

(** ** The data and its form *)

Record Publication : Set := {
  pb_message : MessageRecord;
  pb_journeys : list JourneyRecord;
  pb_held : list Hold;
  pb_dead : option DeadMessage;
  pb_audit : AuditEntry;
  pb_claims : list Claim;
  pb_lease_nanos : u64;
}.

(** [Decided]. *)
Inductive Decided : Set := DecidedNow (held : list Claim) | DecidedBefore (held : list Claim).

Section forms.
Context {C : Codec}.

Definition write_Publication (p : Publication) : bytes :=
  write (pb_message p) ++ w_vec write (pb_journeys p) ++ w_vec write (pb_held p) ++
  w_maybe write (pb_dead p) ++ write (pb_audit p) ++ w_vec write (pb_claims p) ++
  w_u64 (pb_lease_nanos p).
Definition read_Publication : rd Publication :=
  message ← fread; journeys ← r_vec fread; held ← r_vec fread; dead ← r_maybe fread;
  audit ← fread; claims ← r_vec fread; lease ← r_u64;
  mret {| pb_message := message; pb_journeys := journeys; pb_held := held; pb_dead := dead;
          pb_audit := audit; pb_claims := claims; pb_lease_nanos := lease |}.
#[export] Instance Publication_form : Form Publication :=
  { write := write_Publication; fread := read_Publication }.
End forms.

#[export] Instance Publication_fits : Fits Publication := λ p,
  fits (pb_message p) ∧ (counts (pb_journeys p) ∧ Forall fits (pb_journeys p)) ∧
  (counts (pb_held p) ∧ Forall fits (pb_held p)) ∧
  match pb_dead p with Some dead => fits dead | None => True end ∧
  fits (pb_audit p) ∧ (counts (pb_claims p) ∧ Forall fits (pb_claims p)).

#[export] Instance Publication_ok {C : Codec} {CO : CodecOk C} : FormOk Publication.
Proof.
  intros p l (? & [? ?] & [? ?] & Hd & ? & [? ?]). cbn [write fread Publication_form].
  unfold write_Publication, read_Publication. repeat rewrite <- app_assoc. do 3 rt_step.
  erewrite rd_step; cycle 1.
  { apply maybe_rt. intros d Hs l'. rewrite Hs in Hd. by apply form_rt. }
  cbv beta. roundtrip. by destruct p.
Qed.

(** ** The operation *)

(** [decide]; [sha1] is the digest of the codec crate and [message_id] how
    an identifier is displayed, neither of which is in this repository. *)
Section decide.
Context {C : Codec} (sha1 : bytes → bytes) (message_id : MessageId → string).

(** What is kept of what was asked. *)
Definition digest_of (p : Publication) : bytes := sha1 (to_bytes p).

(** The claims of those asked for that are held still under their tokens. *)
Fixpoint still_held (asked : list Claim) : prog (list Claim) :=
  match asked with
  | [] => mret []
  | claim :: asked =>
      o ← stored claim;
      rest ← still_held asked;
      mret match o with
           | Some st => if asked_by st claim then s_claim st :: rest else rest
           | None => rest
           end
  end.

(** The claims of those asked for that are taken. *)
Fixpoint take_each (asked : list Claim) (now until : i128) (epoch : u64) : prog (list Claim) :=
  match asked with
  | [] => mret []
  | claim :: asked =>
      held ← take claim now until epoch;
      rest ← take_each asked now until epoch;
      mret match held with Some held => held :: rest | None => rest end
  end.

Definition published_already (message : MessageId) : PersistError :=
  Failed_ ("the Message " +:+ message_id message +:+
    " was published before as another Publication; nothing of this one is written").

(** What a Publication writes besides its claims and that it was written. *)
Definition published_records (p : Publication) : prog unit :=
  batch_record MESSAGE (m_message (pb_message p)) (pb_message p);;
  for_all (journey_written (pb_held p)) (pb_journeys p);;
  for_all keep (pb_held p);;
  match pb_dead p with Some entry => keep_dead entry | None => mret tt end.

Definition decide_publication (p : Publication) (now : i128) (epoch : u64) : prog Decided :=
  let key := be (m_message (pb_message p)) in
  written ← batch_read PUBLICATION key;
  match written with
  | Some written =>
      if decide (written = digest_of p) then
        held ← still_held (pb_claims p); mret (DecidedBefore held)
      else Fail_ (published_already (m_message (pb_message p)))
  | None =>
      published_records p;;
      held ← take_each (pb_claims p) now
        (i128_sat_add now (Z.of_N (uval (pb_lease_nanos p)))) epoch;
      batch_put PUBLICATION key (Some (digest_of p));;
      mret (DecidedNow held)
  end.
End decide.

(** ** What it leaves alone *)

Lemma published_records_puts {C : Codec} p :
  puts_only (.∉ [CLAIM; PUBLICATION]) (published_records p).
Proof.
  assert (Forall (.∉ [CLAIM; PUBLICATION])
    [HELD; HELD_JOURNEY; PLACES; ORIGIN; JOURNEY; MESSAGE; DEAD; DEAD_MESSAGE; DEAD_PLACES]) as HP
    by (apply (bool_decide_unpack _); by vm_compute).
  rewrite !Forall_cons in HP. destruct HP as (? & ? & ? & ? & ? & ? & ? & ? & ? & _).
  unfold published_records, keep_dead, place, places. prog_walk.
Qed.

Lemma take_each_puts {C : Codec} asked now until epoch : puts_only (.= CLAIM) (take_each asked now until epoch).
Proof.
  assert (CLAIM = CLAIM) as H by done.
  induction asked as [|claim asked IH]; cbn [take_each]; [done|].
  apply puts_only_bind; [unfold take, stored, hold; prog_walk|]. intros held.
  apply puts_only_bind; [exact IH|]. by intros rest.
Qed.

(** ** The claims a Publication takes *)

(** Of those asked for, the ones held under their tokens. *)
Definition held_of (c : gmap JourneyId Stored) (asked : list Claim) : list Claim :=
  omap (λ claim, st ← c !! c_journey claim;
    if asked_by st claim then Some (s_claim st) else None) asked.

Fixpoint taken_each (c : gmap JourneyId Stored) (asked : list Claim) (now until : i128) (epoch : u64) :
    list Claim * gmap JourneyId Stored :=
  match asked with
  | [] => ([], c)
  | claim :: asked =>
      let '(held, o) := take_after (c !! c_journey claim) claim now until epoch in
      let '(rest, c) := taken_each (partial_alter (λ _, o) (c_journey claim) c) asked now until epoch in
      (match held with Some held => held :: rest | None => rest end, c)
  end.

Section specs.
Context {C : Codec} {CO : CodecOk C}.
Implicit Types (R : records) (c : gmap JourneyId Stored).

Lemma exec_still_held R c asked : claims_are R c → exec (still_held asked) R = Ok (held_of c asked, R).
Proof.
  intros H. induction asked as [|claim asked IH]; [done|]. cbn [still_held].
  rewrite (exec_stored_bind R c) by done. rewrite exec_bind, IH. cbn [mbind result_bind]. cbn [exec mret prog_ret].
  unfold held_of at 2. cbn. fold (held_of c asked).
  destruct (c !! c_journey claim) as [st|]; cbn; [|done]. by destruct (asked_by st claim).
Qed.

Lemma exec_take_each R c asked now until epoch : claims_are R c → Forall fits asked →
  ∃ R', exec (take_each asked now until epoch) R = Ok ((taken_each c asked now until epoch).1, R') ∧
    claims_are R' (taken_each c asked now until epoch).2.
Proof.
  intros H Hf. revert R c H. induction Hf as [|claim asked Hf _ IH]; intros R c H; [by exists R|].
  cbn [take_each taken_each].
  destruct (exec_take R c claim now until epoch H Hf) as (R1 & E1 & H1 & _).
  destruct (take_after (c !! c_journey claim) claim now until epoch) as [held o] eqn:Et.
  assert (claims_are R1 (partial_alter (λ _, o) (c_journey claim) c)) as H1'.
  { erewrite partial_alter_ext; [exact H1|]. intros x <-. by rewrite Et. }
  destruct (IH _ _ H1') as (R2 & E2 & H2).
  destruct (taken_each (partial_alter (λ _, o) (c_journey claim) c) asked now until epoch) as [rest c2].
  exists R2. rewrite exec_bind, E1. cbn [mbind result_bind fst]. rewrite exec_bind, E2. by destruct held.
Qed.

(** A Journey none of those asked for is of keeps its claim. *)
Lemma taken_each_other c asked now until epoch j : j ∉ (c_journey <$> asked) →
  (taken_each c asked now until epoch).2 !! j = c !! j.
Proof.
  revert c. induction asked as [|claim asked IH]; intros c Hj; [done|].
  rewrite fmap_cons in Hj. apply not_elem_of_cons in Hj as [Hne Hj]. cbn [taken_each].
  destruct (take_after (c !! c_journey claim) claim now until epoch) as [held o].
  specialize (IH (partial_alter (λ _, o) (c_journey claim) c) Hj).
  destruct (taken_each _ asked now until epoch) as [rest c2]. cbn [snd] in *.
  by rewrite IH, lookup_partial_alter_ne.
Qed.

Lemma held_of_same c c' asked : (∀ claim, claim ∈ asked → c !! c_journey claim = c' !! c_journey claim) →
  held_of c asked = held_of c' asked.
Proof.
  intros H. induction asked as [|claim asked IH]; [done|]. unfold held_of. cbn.
  rewrite H by by left. fold (held_of c asked) (held_of c' asked). rewrite IH; [done|].
  intros. apply H. by right.
Qed.

(** What a take answers is what is held under the token once it has. *)
Lemma taken_held (o : option Stored) claim now until epoch :
  (st ← (take_after o claim now until epoch).2; if asked_by st claim then Some (s_claim st) else None)
  = (take_after o claim now until epoch).1.
Proof.
  unfold take_after, asked_by.
  assert (∀ f, bool_decide (c_token (set_until until (set_fence f claim)) = c_token claim) = true) as Ht
    by (intros; by apply bool_decide_eq_true).
  destruct o as [st|]; [destruct (standing_at now st) eqn:Es|].
  - unfold standing_at in Es. apply andb_true_iff in Es as [Es _].
    cbn [snd fst mbind option_bind]. by rewrite Es.
  - cbn [snd fst mbind option_bind s_standing s_claim]. by rewrite Ht.
  - cbn [snd fst mbind option_bind s_standing s_claim]. by rewrite Ht.
Qed.

Lemma taken_each_held c asked now until epoch : NoDup (c_journey <$> asked) →
  held_of (taken_each c asked now until epoch).2 asked = (taken_each c asked now until epoch).1.
Proof.
  revert c. induction asked as [|claim asked IH]; intros c Hn; [done|].
  rewrite fmap_cons in Hn. apply NoDup_cons in Hn as [Hj Hn]. cbn [taken_each].
  pose proof (taken_held (c !! c_journey claim) claim now until epoch) as Ht.
  destruct (take_after (c !! c_journey claim) claim now until epoch) as [held o]. cbn [fst snd] in Ht.
  pose proof (taken_each_other (partial_alter (λ _, o) (c_journey claim) c) asked now until epoch _ Hj) as Ho.
  specialize (IH (partial_alter (λ _, o) (c_journey claim) c) Hn).
  destruct (taken_each _ asked now until epoch) as [rest c2]. cbn [fst snd] in *.
  rewrite lookup_partial_alter_eq in Ho. unfold held_of. cbn. rewrite Ho.
  fold (held_of c2 asked). rewrite IH. cbn in Ht. rewrite Ht. by destruct held.
Qed.
(** The claims answered, as they are kept. *)
Lemma taken_kept R' c asked now until epoch claim :
  claims_are R' (taken_each c asked now until epoch).2 → NoDup (c_journey <$> asked) →
  claim ∈ (taken_each c asked now until epoch).1 →
  R' !! (CLAIM, claim_key claim) = Some (stored_bytes {| s_claim := claim; s_standing := StandsHeld |}).
Proof.
  intros H' Hnc Hin. unfold claim_key. rewrite (claims_kept _ _ H').
  rewrite <- taken_each_held in Hin by done. unfold held_of in Hin.
  apply list_elem_of_omap in Hin as (a & _ & Hin).
  destruct ((taken_each c asked now until epoch).2 !! c_journey a) as [st|] eqn:Est; [|done].
  cbn in Hin. destruct (asked_by st a) eqn:Ea; [|done]. injection Hin as <-.
  destruct (claims_fit _ _ H' _ _ Est) as [_ ->]. rewrite Est. cbn. do 2 f_equal.
  unfold asked_by in Ea. apply andb_true_iff in Ea as [Ea _]. apply bool_decide_eq_true in Ea.
  destruct st as [sc ss]. cbn in *. by subst ss.
Qed.
End specs.

(** The kinds a Publication's parts put, each apart from the others'. *)
Definition held_kinds : list string := [HELD; HELD_JOURNEY; PLACES; ORIGIN].
Lemma published_kinds :
  Forall (.∈ JOURNEY :: held_kinds) [HELD; HELD_JOURNEY; PLACES; ORIGIN; JOURNEY] ∧
  Forall (.∈ held_kinds) [HELD; HELD_JOURNEY; PLACES] ∧
  Forall (.∈ kinds_of DEAD_KINDS) [DEAD; DEAD_MESSAGE; DEAD_PLACES].
Proof. apply (bool_decide_unpack _); by vm_compute. Qed.
Lemma published_not : Forall (.≠ JOURNEY) [HELD; HELD_JOURNEY; PLACES; ORIGIN].
Proof. apply (bool_decide_unpack _); by vm_compute. Qed.
Lemma published_apart :
  MESSAGE ∉ JOURNEY :: held_kinds ∧ MESSAGE ∉ kinds_of DEAD_KINDS ∧
  JOURNEY ∉ kinds_of DEAD_KINDS ∧ JOURNEY ∉ held_kinds ∧
  Forall (λ kind, kind ∉ JOURNEY :: held_kinds ∧ kind ≠ MESSAGE) (kinds_of DEAD_KINDS).
Proof. apply (bool_decide_unpack _); by vm_compute. Qed.

Lemma published_held :
  Forall (λ kind, kind ∉ kinds_of DEAD_KINDS ∧ kind ≠ MESSAGE ∧ kind ≠ CLAIM ∧ kind ≠ PUBLICATION) (kinds_of HOLD).
Proof. apply (bool_decide_unpack _); by vm_compute. Qed.

(** The Journeys a Publication opens, of the queues: whatever they are, they
    take nobody out but the holders they count toward. *)
Lemma queues_journeys {C : Codec} {CO : CodecOk C} R R' ms n places (js : list JourneyRecord) :
  queues_are R ms n → exec (for_all (journey_written places) js) R = Ok (tt, R') →
  ∃ ms', queues_are R' ms' n ∧ ∀ q, thinned (js ≫= holder_ids) (line (ms q)) (line (ms' q)).
Proof.
  revert R ms. induction js as [|j js IH]; intros R ms H E; cbn [for_all] in E.
  { injection E as <-. exists ms. split; [done|]. intros q. apply thinned_none. }
  apply exec_bind_Ok in E as ([] & R2 & E & E2). apply exec_bind_Ok in E as ([] & R1 & E1 & E).
  destruct (queues_counted _ _ _ _ _ _ H E1) as (ms1 & H1 & Ht1).
  destruct (IH R2 ms1 (queues_put _ _ _ _ _ _ _ (proj2 ORIGIN_apart) E H1) E2) as (ms2 & H2 & Ht2).
  exists ms2. split; [done|]. intros q. cbn [mbind list_bind]. eapply thinned_trans.
  - eapply thinned_more, Ht1. intros g Hg. apply elem_of_app. by left.
  - eapply thinned_more, Ht2. intros g Hg. apply elem_of_app. by right.
Qed.

(** What the held Messages of a Publication are once written. *)
Lemma published_held_written {C : Codec} {CO : CodecOk C} R R' p ms :
  queues_are R ms (N.of_nat (length (pb_held p))) → Forall fits (pb_held p) →
  NoDup ((λ h, (h_queue h, h_journey h)) <$> pb_held p) →
  exec (published_records p) R = Ok (tt, R') →
  ∃ ms', queues_are R' ms' 0 ∧ ∀ q,
    (∃ l, thinned (pb_journeys p ≫= holder_ids) (line (ms q)) l ∧
       line (ms' q) = foldl joins l (of_one q (pb_held p))) ∧
    (∀ h, h ∈ pb_held p → h_queue h = q → h_journey h ∉ line (ms q) →
       ∃ s, ms' q !! s = Some (newly_held h s)).
Proof.
  intros H Hf Hn E. apply exec_bind_Ok in E as ([] & R1 & E1 & E).
  apply exec_bind_Ok in E as ([] & R2 & E2 & E). apply exec_bind_Ok in E as ([] & R3 & E3 & E4).
  pose proof published_held as HP. rewrite Forall_forall in HP.
  assert (queues_are R1 ms (N.of_nat (length (pb_held p)))) as H1.
  { injection E1 as <-. eapply queues_are_frame, H. intros kind key Hk. apply HP in Hk as (_ & Hk & _).
    rewrite lookup_insert_ne; [done|]. by intros [= <- _]. }
  destruct (queues_journeys _ _ _ _ _ _ H1 E2) as (ms2 & H2 & Ht).
  destruct (queues_keep_all R2 ms2 (pb_held p) H2 Hf Hn) as (R3' & ms3 & E3' & H3 & Hl).
  rewrite E3' in E3. injection E3 as ->.
  pose proof published_kinds as (_ & _ & Hdead). rewrite !Forall_cons in Hdead. destruct Hdead as (? & ? & ? & _).
  exists ms3. split.
  - eapply queues_are_frame, H3. intros kind key Hk. apply HP in Hk as (Hk & _).
    eapply (exec_puts_only (.∈ kinds_of DEAD_KINDS)); [|exact E4|done].
    unfold keep_dead, place, places. prog_walk.
  - intros q. destruct (Hl q) as (_ & Hline & Hin). split; [by exists (line (ms2 q))|].
    intros h Hh Hq Hno. apply Hin; [done..|]. destruct (Ht q) as (g & _ & ->).
    intros [_ ?]%list_elem_of_filter. done.
Qed.

Lemma elem_of_holder_ids j g : g ∈ holder_ids j →
  jf_origin (j_facts j) = Some g ∨ jf_group_delivery (j_facts j) = Some g.
Proof.
  unfold holder_ids, holders. cbn [fst snd]. rewrite elem_of_app.
  destruct (jf_origin _), (jf_group_delivery _); cbn [option_list];
    intros [Hg|Hg]; try (by apply elem_of_nil in Hg); apply list_elem_of_singleton in Hg; subst g; auto.
Qed.

Lemma publication_holds {C : Codec} {CO : CodecOk C} R R1 R' p ms :
  queues_are R ms (N.of_nat (length (pb_held p))) → Forall fits (pb_held p) →
  NoDup ((λ h, (h_queue h, h_journey h)) <$> pb_held p) →
  exec (published_records p) R = Ok (tt, R1) →
  (∀ kind key, kind ∈ kinds_of HOLD → R' !! (kind, key) = R1 !! (kind, key)) →
  ∀ q, ∃ m', holding R' q m' ∧
    (∃ gone : list u128, (∀ g, g ∈ gone → ∃ j, j ∈ pb_journeys p ∧
        (jf_origin (j_facts j) = Some g ∨ jf_group_delivery (j_facts j) = Some g)) ∧
       line m' = foldl joins (filter (λ x, x ∉ gone) (line (ms q))) (of_one q (pb_held p))) ∧
    (∀ h, h ∈ pb_held p → h_queue h = q → h_journey h ∉ line (ms q) → ∃ s, m' !! s = Some (newly_held h s)).
Proof.
  intros Hms Hf Hn E Hrest q.
  destruct (published_held_written R R1 p ms Hms Hf Hn E) as (ms' & H1 & Hq).
  apply (queues_are_frame R1 R' ms' 0 Hrest) in H1.
  destruct (H1 q) as (Q & HQ & Hh & _). destruct (Hq q) as [(l & (gone & Hg & ->) & Hl) Hin].
  exists (ms' q). split; [by exists Q|]. split; [|done]. exists gone. split; [|done].
  intros g Hin'. apply Hg, list_elem_of_bind in Hin' as (j & Hj & Hi). exists j. split; [done|]. by apply elem_of_holder_ids.
Qed.

(** What the records of a Publication are once written. *)
Lemma published_records_written {C : Codec} {CO : CodecOk C} R R' p :
  NoDup (j_journey <$> pb_journeys p) → exec (published_records p) R = Ok (tt, R') →
  R' !! (MESSAGE, be (m_message (pb_message p))) = Some (to_bytes (pb_message p)) ∧
  (∀ j, j ∈ pb_journeys p → R' !! (JOURNEY, be (j_journey j)) = Some (to_bytes j)) ∧
  (∀ dead Q, pb_dead p = Some dead → queue_is DEAD_KINDS R (dm_queue dead) Q →
     q_by Q !! dm_message dead = None →
     R' !! (DEAD, entry_key (dm_queue dead) (p_next (q_places Q))) =
       Some (to_bytes {| dd_sequence := p_next (q_places Q); dd_message := dead |})).
Proof.
  intros Hn E. apply exec_bind_Ok in E as ([] & R1 & E1 & E).
  apply exec_bind_Ok in E as ([] & R2 & E2 & E). apply exec_bind_Ok in E as ([] & R3 & E3 & E4).
  injection E1 as <-. 
  set (R1 := <[(MESSAGE, be (m_message (pb_message p))) := to_bytes (pb_message p)]> R) in *.
  pose proof published_kinds as (HJ & Hkeep & Hdead).
  rewrite !Forall_cons in HJ. destruct HJ as (? & ? & ? & ? & ? & _).
  rewrite !Forall_cons in Hkeep. destruct Hkeep as (? & ? & ? & _).
  rewrite !Forall_cons in Hdead. destruct Hdead as (? & ? & ? & _).
  assert (∀ kind key, kind ∉ JOURNEY :: held_kinds → R3 !! (kind, key) = R1 !! (kind, key)) as H13.
  { intros kind key Hk. transitivity (R2 !! (kind, key)).
    - eapply (exec_puts_only (.∈ held_kinds)); [|exact E3|set_solver]. prog_walk.
    - eapply (exec_puts_only (.∈ JOURNEY :: held_kinds)); [|exact E2|tauto]. prog_walk. }
  assert (∀ kind key, kind ∉ kinds_of DEAD_KINDS → R' !! (kind, key) = R3 !! (kind, key)) as H34.
  { intros kind key Hk. eapply (exec_puts_only (.∈ kinds_of DEAD_KINDS)); [|exact E4|tauto].
    unfold keep_dead, place, places. prog_walk. }
  pose proof published_apart as (HM & HM' & HJ' & HJ3 & HD).
  pose proof published_not as HJN. rewrite !Forall_cons in HJN. destruct HJN as (? & ? & ? & ? & _).
  destruct (exec_written_each JOURNEY j_journey (λ j, counted j (pb_held p)) (pb_journeys p) R1 R2)
    as [Hjou _]; [intros; prog_walk|done|exact E2|].
  split; [|split].
  - rewrite H34, H13 by done. apply lookup_insert_eq.
  - intros j Hin. rewrite H34 by done. rewrite <- (Hjou j Hin).
    eapply (exec_puts_only (.∈ held_kinds)); [|exact E3|done]. prog_walk.
  - intros dead Q Hd HQ Hby. rewrite Hd in E4.
    assert (queue_is DEAD_KINDS R3 (dm_queue dead) Q) as HQ3.
    { eapply dead_frame, HQ. intros kind key Hk. rewrite Forall_forall in HD. apply HD in Hk as [Hk Hk'].
      rewrite H13 by done. unfold R1. rewrite lookup_insert_ne; [done|]. by intros [= <- _]. }
    destruct (exec_place DEAD_KINDS DEAD_apart R3 _ (dm_message dead)
      (λ s, to_bytes {| dd_sequence := s; dd_message := dead |}) Q HQ3) as (R5 & E5 & HQ5 & _).
    unfold keep_dead in E4. rewrite exec_bind, E5 in E4. injection E4 as <-.
    rewrite Hby in HQ5. rewrite (is_entries _ _ _ _ HQ5). apply lookup_insert_eq.
Qed.

(** ** The theorems *)

Module PublicationTheorems.
Section theorems.
Context {C : Codec} {CO : CodecOk C} (sha1 : bytes → bytes) (message_id : MessageId → string).

#[local] Abbreviation decides := (decide_publication sha1 message_id).

(** A Publication written: its records, then its claims, then that it was. *)
Lemma exec_published R R' c p now epoch held : claims_are R c → Forall fits (pb_claims p) →
  R !! (PUBLICATION, be (m_message (pb_message p))) = None →
  exec (decides p now epoch) R = Ok (DecidedNow held, R') →
  let until := i128_sat_add now (Z.of_N (uval (pb_lease_nanos p))) in
  ∃ R1 R2, exec (published_records p) R = Ok (tt, R1) ∧
    exec (take_each (pb_claims p) now until epoch) R1 = Ok (held, R2) ∧
    held = (taken_each c (pb_claims p) now until epoch).1 ∧
    claims_are R' (taken_each c (pb_claims p) now until epoch).2 ∧
    R' = record_change R2 (PUBLICATION, be (m_message (pb_message p)), Some (digest_of sha1 p)).
Proof.
  intros H Hf Hnone E until. unfold decide_publication in E. rewrite exec_read, Hnone in E.
  apply exec_bind_Ok in E as ([] & R1 & E1 & E).
  assert (claims_are R1 c) as H1.
  { eapply claims_are_frame, H. intros key.
    eapply exec_puts_only; [apply published_records_puts|exact E1|]. set_solver. }
  destruct (exec_take_each R1 c (pb_claims p) now until epoch H1 Hf) as (R2 & E2 & H2).
  fold until in E. rewrite exec_bind, E2 in E. cbn [mbind result_bind] in E. rewrite exec_put in E.
  injection E as <- <-. exists R1, R2. split; [done|]. split; [done|]. split; [done|]. split; [|done].
  eapply claims_are_frame, H2. intros key. by rewrite lookup_insert_ne by by intros [=].
Qed.

(** C7. A Message is published once. Once a Publication is written,
    and whatever is written after it as long as that it was is kept, the
    same asked again writes nothing and is answered with those of its claims
    that are still held under its tokens - asked at once, with exactly the
    claims it was answered the first time - and another Publication of the
    Message is refused and writes nothing. *)
Theorem published_once (R R' : records) (c : gmap JourneyId Stored) (p : Publication)
    (now : i128) (epoch : u64) (held : list Claim) :
  claims_are R c → Forall fits (pb_claims p) → NoDup (c_journey <$> pb_claims p) →
  R !! (PUBLICATION, be (m_message (pb_message p))) = None →
  exec (decides p now epoch) R = Ok (DecidedNow held, R') →
  (∀ now' epoch', exec (decides p now' epoch') R' = Ok (DecidedBefore held, R')) ∧
  ∀ R'' c'' now' epoch', claims_are R'' c'' →
    R'' !! (PUBLICATION, be (m_message (pb_message p))) =
      R' !! (PUBLICATION, be (m_message (pb_message p))) →
    exec (decides p now' epoch') R'' = Ok (DecidedBefore (held_of c'' (pb_claims p)), R'') ∧
    ∀ q, m_message (pb_message q) = m_message (pb_message p) → digest_of sha1 q ≠ digest_of sha1 p →
      exec (decides q now' epoch') R'' = Err (published_already message_id (m_message (pb_message q))).
Proof.
  intros H Hf Hn Hnone E.
  destruct (exec_published R R' c p now epoch held H Hf Hnone E) as (R1 & R2 & _ & _ & Hheld & H' & HR').
  assert (R' !! (PUBLICATION, be (m_message (pb_message p))) = Some (digest_of sha1 p)) as Hkept.
  { rewrite HR'. apply lookup_insert_eq. }
  assert (∀ R'' c'' now' epoch', claims_are R'' c'' →
    R'' !! (PUBLICATION, be (m_message (pb_message p))) = Some (digest_of sha1 p) →
    exec (decides p now' epoch') R'' = Ok (DecidedBefore (held_of c'' (pb_claims p)), R'')) as Hagain.
  { intros R'' c'' now' epoch' Hc Hp. unfold decide_publication. rewrite exec_read, Hp, decide_True by done.
    rewrite exec_bind, (exec_still_held R'' c'') by done. done. }
  split.
  - intros now' epoch'. rewrite (Hagain R' _ now' epoch' H' Hkept).
    by rewrite taken_each_held, <- Hheld.
  - intros R'' c'' now' epoch' Hc Hp. rewrite Hkept in Hp. split; [by apply Hagain|].
    intros q Hm Hne. unfold decide_publication. rewrite Hm, exec_read, Hp.
    by rewrite decide_False by congruence.
Qed.

(** C8. A Publication is all or nothing. One written now has written
    its Message and every one of its Journeys, each under its identifier;
    put each Message it holds in its queue as newly held, at the end of
    the line in the order given, where it holds no place there - and
    taken nobody out of a line but a Stream or a Group delivery its
    Journeys count toward; kept its claims as it answers them; where
    nothing matched, kept the entry at the end of its node's Dead Message
    Queue; and kept the digest of what was asked under its Message. No
    two of its Journeys are of one identifier, and it holds no Message
    twice in one queue. *)
Theorem publication_whole (R R' : records) (c : gmap JourneyId Stored) (p : Publication)
    (now : i128) (epoch : u64) (held : list Claim) :
  claims_are R c → Forall fits (pb_claims p) → NoDup (j_journey <$> pb_journeys p) →
  R !! (PUBLICATION, be (m_message (pb_message p))) = None →
  exec (decides p now epoch) R = Ok (DecidedNow held, R') →
  R' !! (MESSAGE, be (m_message (pb_message p))) = Some (to_bytes (pb_message p)) ∧
  (∀ j, j ∈ pb_journeys p → R' !! (JOURNEY, be (j_journey j)) = Some (to_bytes j)) ∧
  (∀ ms, queues_are R ms (N.of_nat (length (pb_held p))) → Forall fits (pb_held p) →
     NoDup ((λ h, (h_queue h, h_journey h)) <$> pb_held p) →
     ∀ q, ∃ m', holding R' q m' ∧
       (∃ gone : list u128, (∀ g, g ∈ gone → ∃ j, j ∈ pb_journeys p ∧
           (jf_origin (j_facts j) = Some g ∨ jf_group_delivery (j_facts j) = Some g)) ∧
          line m' = foldl (λ l j, if decide (j ∈ l) then l else l ++ [j])
                      (filter (λ x, x ∉ gone) (line (ms q)))
                      (h_journey <$> filter (λ h, h_queue h = q) (pb_held p))) ∧
       (∀ h, h ∈ pb_held p → h_queue h = q → h_journey h ∉ line (ms q) →
          ∃ s, m' !! s = Some (newly_held h s))) ∧
  (NoDup (c_journey <$> pb_claims p) → ∀ claim, claim ∈ held →
     R' !! (CLAIM, claim_key claim) = Some (stored_bytes {| s_claim := claim; s_standing := StandsHeld |})) ∧
  (∀ dead Q, pb_dead p = Some dead → queue_is DEAD_KINDS R (dm_queue dead) Q →
     q_by Q !! dm_message dead = None →
     R' !! (DEAD, entry_key (dm_queue dead) (p_next (q_places Q))) =
       Some (to_bytes {| dd_sequence := p_next (q_places Q); dd_message := dead |})) ∧
  R' !! (PUBLICATION, be (m_message (pb_message p))) = Some (digest_of sha1 p).
Proof.
  intros H Hf Hn Hnone E.
  destruct (exec_published R R' c p now epoch held H Hf Hnone E) as (R1 & R2 & E1 & E2 & Hheld & H' & HR').
  assert (∀ kind key, kind ∉ [CLAIM; PUBLICATION] → R' !! (kind, key) = R1 !! (kind, key)) as Hrest.
  { intros kind key Hk. rewrite HR', record_changed_at. case_decide as Hd.
    { apply pair_equal_spec in Hd as [-> _]. set_solver. }
    eapply exec_puts_only; [apply take_each_puts|exact E2|]. set_solver. }
  assert (MESSAGE ∉ [CLAIM; PUBLICATION] ∧ JOURNEY ∉ [CLAIM; PUBLICATION] ∧ DEAD ∉ [CLAIM; PUBLICATION])
    as (HM & HJ & HD) by (apply (bool_decide_unpack _); by vm_compute).
  destruct (published_records_written R R1 p Hn E1) as (Hm & Hj & Hd).
  split; [by rewrite Hrest|]. split; [intros j Hin; rewrite Hrest by done; by apply Hj|].
  split; [|split; [|split; [|rewrite HR'; apply lookup_insert_eq]]].
  - intros ms Hms Hfh Hnh. apply (publication_holds R R1 R' p ms); [done..|].
    intros kind key Hk. apply Hrest. pose proof published_held as HP.
    rewrite Forall_forall in HP. apply HP in Hk as (_ & _ & ? & ?). set_solver.
  - intros Hnc claim Hin. rewrite Hheld in Hin. by eapply taken_kept.
  - intros dead Q Hdead HQ Hby. rewrite Hrest by done. by apply Hd.
Qed.
End theorems.

#[local] Existing Instance Plain.codec_ok.

(** A Message nothing matched, published by the node a, which claims one Journey. *)
Definition example_asked : Claim :=
  {| c_journey := wrap 7; c_holder := "node a"; c_token := wrap 3;
     c_until_unix_nanos := i128_clamp 0; c_fence := wrap 0 |}.
Definition example_publication (node : string) : Publication := {|
  pb_message := Examples.message 20; pb_journeys := [Examples.journey 7; Examples.journey 8];
  pb_held := [{| h_queue := wrap 2; h_journey := wrap 8; h_body := [x00] |}];
  pb_dead := Some DeadTheorems.example_dead; pb_audit := Examples.audit 30;
  pb_claims := [{| c_journey := wrap 7; c_holder := node; c_token := wrap 3;
                   c_until_unix_nanos := i128_clamp 0; c_fence := wrap 0 |}];
  pb_lease_nanos := wrap 100;
|}.

(** The digest kept whole: no two Publications have the same. *)
Definition example_decides (p : Publication) (now : Z) : prog Decided :=
  decide_publication (C := Plain.codec) id (λ _, "20") p (i128_clamp now) (wrap 2).
Definition example_published : records := left_by (example_decides (example_publication "node a") 50) ∅.
Definition example_held : list Claim := [{|
  c_journey := wrap 7; c_holder := "node a"; c_token := wrap 3;
  c_until_unix_nanos := i128_clamp 150; c_fence := fence (wrap 2) None |}].

Lemma example_publishes :
  exec (example_decides (example_publication "node a") 50) ∅ = Ok (DecidedNow example_held, example_published).
Proof.
  assert (∃ held, returned (example_decides (example_publication "node a") 50) ∅ = Some (DecidedNow held) ∧
    held = example_held) as (held & E & ->); [|by apply exec_returned].
  eexists. split; [vm_compute; reflexivity|]. unfold example_held.
  repeat (f_equal; try (apply uint_eq; by vm_compute); try (apply i128_eq; by vm_compute)).
Qed.

Lemma example_no_claims : claims_are (C := Plain.codec) ∅ ∅.
Proof. split; [intros j; by rewrite !lookup_empty|intros j st E; by rewrite lookup_empty in E]. Qed.

Lemma example_publication_fits node : counts_text node → Forall fits (pb_claims (example_publication node)).
Proof. intros. by apply Forall_singleton. Qed.

Lemma published_once_witness :
  exec (example_decides (example_publication "node a") 60) example_published
    = Ok (DecidedBefore example_held, example_published) ∧
  exec (example_decides (example_publication "node b") 60) example_published
    = Err (published_already (λ _, "20") (wrap 20)).
Proof.
  destruct (published_once (C := Plain.codec) id (λ _, "20") ∅ example_published ∅
    (example_publication "node a") (i128_clamp 50) (wrap 2) example_held example_no_claims) as [Hagain Hother].
  - apply example_publication_fits. by vm_compute.
  - apply NoDup_singleton.
  - apply lookup_empty.
  - exact example_publishes.
  - split; [exact (Hagain (i128_clamp 60) (wrap 2))|].
    destruct (exec_published (C := Plain.codec) id (λ _, "20") ∅ example_published ∅
      (example_publication "node a") (i128_clamp 50) (wrap 2) example_held example_no_claims)
      as (_ & _ & _ & _ & _ & H' & _); [|apply lookup_empty|exact example_publishes|].
    { apply example_publication_fits. by vm_compute. }
    destruct (Hother example_published _ (i128_clamp 60) (wrap 2) H' eq_refl) as [_ Hq].
    apply (Hq (example_publication "node b")); by vm_compute.
Defined.

Lemma example_empty_queues : queues_are (C := Plain.codec) ∅ (λ _, ∅) 1.
Proof.
  intros q. exists empty_queue. split; [by apply queue_is_nothing|]. split; [apply holds_empty|by vm_compute].
Qed.

Lemma publication_whole_witness :
  example_published !! (MESSAGE, be (wrap 20 : u128)) = Some (to_bytes (C := Plain.codec) (Examples.message 20)) ∧
  ∃ m' (gone : list u128), holding (C := Plain.codec) example_published (wrap 2) m' ∧
    line m' = foldl (λ l j, if decide (j ∈ l) then l else l ++ [j]) (filter (λ x, x ∉ gone) []) [wrap 8].
Proof.
  destruct (publication_whole (C := Plain.codec) id (λ _, "20") ∅ example_published ∅
    (example_publication "node a") (i128_clamp 50) (wrap 2) example_held example_no_claims)
    as (Hm & _ & Hq & _).
  - apply example_publication_fits. by vm_compute.
  - apply (bool_decide_unpack _). by vm_compute.
  - apply lookup_empty.
  - exact example_publishes.
  - split; [exact Hm|].
    destruct (Hq (λ _, ∅) example_empty_queues) with (q := wrap 2 : u128) as (m' & Hh & (gone & _ & Hl) & _).
    + apply Forall_singleton. by vm_compute.
    + apply NoDup_singleton.
    + exists m', gone. split; [exact Hh|exact Hl].
Defined.
End PublicationTheorems.
