(* ===== verification/Secrets.v ===== *)
(** * The secrets Locations name (src/.src/storage/secret.rs, secret/sealed.rs)

    A secret's value is sealed under the administration database's data key,
    derived for this one purpose, its name and kind bound in, before any
    store keeps it; everything else of it is in the clear. *)

From S2P Require Import Prelude Word Engine Store Encrypted Codec.

(** ** What is used of xmip-core's secrets

    A secret, its name and its kind are the crate xmip-core's, not part of
    this repository: a name and a secret are checked as they are made, and a
    kind has a word. *)

Class XSecrets := {
  SecretName : Type;
  name_new : string → SecretName + string;
  as_str : SecretName → string;
  SecretKind : Type;
  kind_word : SecretKind → string;
  kind_named : string → option SecretKind;
  XSecret : Type;
  secret_new : SecretName → SecretKind → bytes → XSecret + string;
  secret_name : XSecret → SecretName;
  secret_kind : XSecret → SecretKind;
  secret_value : XSecret → bytes;
}.

(** What is relied on of them: each is made again of what it gives, and no
    kind's word holds a zero byte. *)
Class XSecretsOk (X : XSecrets) : Prop := {
  name_rt n : name_new (as_str n) = inl n;
  name_fits n : counts_text (as_str n);
  kind_rt k : kind_named (kind_word k) = Some k;
  kind_fits k : counts_text (kind_word k);
  kind_no_zero k : x00 ∉ String.list_byte_of_string (kind_word k);
  secret_rt s : secret_new (secret_name s) (secret_kind s) (secret_value s) = inl s;
  secret_new_gives n k v s : secret_new n k v = inl s →
    secret_name s = n ∧ secret_kind s = k ∧ secret_value s = v;
}.

Definition SECRET : string := "secret".
Definition SEALING : bytes := String.list_byte_of_string "xmip-core-persist/secret-value".

Section data.
Context {X : XSecrets}.

Record SecretRecord : Type := {
  sr_id : u128; sr_secret : XSecret; sr_set_unix_nanos : u64; sr_set_by : string
}.
Record SecretEntry : Type := {
  se_name : SecretName; se_kind : SecretKind; se_set_unix_nanos : u64; se_set_by : string
}.
Record KeptSecret : Type := {
  kx_id : u128;
  kx_name : SecretName;
  kx_kind : SecretKind;
  kx_sealed : bytes;
  kx_set_unix_nanos : u64;
  kx_set_by : string;
}.

(** [SecretRecord::entry] and [KeptSecret::entry]. *)
Definition record_entry (r : SecretRecord) : SecretEntry := {|
  se_name := secret_name (sr_secret r); se_kind := secret_kind (sr_secret r);
  se_set_unix_nanos := sr_set_unix_nanos r; se_set_by := sr_set_by r |}.
Definition kept_entry (k : KeptSecret) : SecretEntry := {|
  se_name := kx_name k; se_kind := kx_kind k;
  se_set_unix_nanos := kx_set_unix_nanos k; se_set_by := kx_set_by k |}.

(** ** Their forms *)

Context {C : Codec}.

Definition write_kind (kind : SecretKind) : bytes := w_text (kind_word kind).
Definition read_kind : rd SecretKind :=
  word ← r_text;
  match kind_named word with
  | Some kind => mret kind
  | None => rd_err (CodecErr ("no secret kind is '" +:+ word +:+ "'"))
  end.
Definition read_name : rd SecretName :=
  name ← r_text;
  match name_new name with inl name => mret name | inr why => rd_err (CodecErr why) end.

Definition write_SecretRecord (r : SecretRecord) : bytes :=
  w_u128 (sr_id r) ++ w_text (as_str (secret_name (sr_secret r))) ++
  write_kind (secret_kind (sr_secret r)) ++ w_counted (secret_value (sr_secret r)) ++
  w_u64 (sr_set_unix_nanos r) ++ w_text (sr_set_by r).
Definition read_SecretRecord : rd SecretRecord :=
  id ← r_u128; name ← read_name; kind ← read_kind; value ← r_counted;
  match secret_new name kind value with
  | inr why => rd_err (CodecErr why)
  | inl secret =>
      set ← r_u64; set_by ← r_text;
      mret {| sr_id := id; sr_secret := secret; sr_set_unix_nanos := set; sr_set_by := set_by |}
  end.
#[export] Instance SecretRecord_form : Form SecretRecord :=
  { write := write_SecretRecord; fread := read_SecretRecord }.

Definition write_SecretEntry (e : SecretEntry) : bytes :=
  w_text (as_str (se_name e)) ++ write_kind (se_kind e) ++ w_u64 (se_set_unix_nanos e) ++
  w_text (se_set_by e).
Definition read_SecretEntry : rd SecretEntry :=
  name ← read_name; kind ← read_kind; set ← r_u64; set_by ← r_text;
  mret {| se_name := name; se_kind := kind; se_set_unix_nanos := set; se_set_by := set_by |}.
#[export] Instance SecretEntry_form : Form SecretEntry :=
  { write := write_SecretEntry; fread := read_SecretEntry }.

Definition write_KeptSecret (k : KeptSecret) : bytes :=
  w_u128 (kx_id k) ++ w_text (as_str (kx_name k)) ++ write_kind (kx_kind k) ++
  w_counted (kx_sealed k) ++ w_u64 (kx_set_unix_nanos k) ++ w_text (kx_set_by k).
Definition read_KeptSecret : rd KeptSecret :=
  id ← r_u128; name ← read_name; kind ← read_kind; sealed ← r_counted; set ← r_u64;
  set_by ← r_text;
  mret {| kx_id := id; kx_name := name; kx_kind := kind; kx_sealed := sealed;
          kx_set_unix_nanos := set; kx_set_by := set_by |}.
#[export] Instance KeptSecret_form : Form KeptSecret :=
  { write := write_KeptSecret; fread := read_KeptSecret }.
End data.

#[export] Instance SecretRecord_fits {X : XSecrets} : Fits SecretRecord := λ r,
  counts (secret_value (sr_secret r)) ∧ counts_text (sr_set_by r).
#[export] Instance SecretEntry_fits {X : XSecrets} : Fits SecretEntry := λ e, counts_text (se_set_by e).
#[export] Instance KeptSecret_fits {X : XSecrets} : Fits KeptSecret := λ k,
  counts (kx_sealed k) ∧ counts_text (kx_set_by k).

Section roundtrips.
Context {X : XSecrets} {XO : XSecretsOk X} {C : Codec} {CO : CodecOk C}.

Lemma kind_form_rt k l : read_kind (write_kind k ++ l) = COk (k, l).
Proof.
  unfold read_kind, write_kind. erewrite rd_step; [|apply text_rt, kind_fits].
  cbv beta. by rewrite kind_rt.
Qed.
Lemma name_form_rt n l : read_name (w_text (as_str n) ++ l) = COk (n, l).
Proof.
  unfold read_name. erewrite rd_step; [|apply text_rt, name_fits]. cbv beta. by rewrite name_rt.
Qed.
#[local] Hint Resolve kind_form_rt name_form_rt : codec.

#[export] Instance SecretRecord_ok : FormOk SecretRecord.
Proof.
  intros r l [? ?]. cbn [write fread SecretRecord_form]. unfold write_SecretRecord, read_SecretRecord.
  repeat rewrite <- app_assoc. do 4 rt_step. cbv beta. rewrite secret_rt. roundtrip. by destruct r.
Qed.
#[export] Instance SecretEntry_ok : FormOk SecretEntry.
Proof.
  intros e l He. unfold fits, SecretEntry_fits in He. cbn [write fread SecretEntry_form].
  unfold write_SecretEntry, read_SecretEntry. roundtrip. by destruct e.
Qed.
#[export] Instance KeptSecret_ok : FormOk KeptSecret.
Proof.
  intros k l [? ?]. cbn [write fread KeptSecret_form]. unfold write_KeptSecret, read_KeptSecret.
  roundtrip. by destruct k.
Qed.
End roundtrips.

(** ** Sealing *)

Section sealing.
Context {X : XSecrets} {S : Secret} (secret_error : SecretError → string).

(** [bound]: what a value is bound to. *)
Definition bound_to (name : SecretName) (kind : SecretKind) : bytes :=
  String.list_byte_of_string "xmip.secret" ++ [x00] ++ String.list_byte_of_string (as_str name) ++
  [x00] ++ String.list_byte_of_string (kind_word kind).

(** [SecretRecord::sealed]: [nonce] is what the sealing draws. *)
Definition sealed_secret (key : DataKey) (nonce : Nonce) (r : SecretRecord) : result KeptSecret :=
  let name := secret_name (sr_secret r) in
  let kind := secret_kind (sr_secret r) in
  sealed ← into_key (seal_after key nonce [] (bound_to name kind) (secret_value (sr_secret r)));
  Ok {| kx_id := sr_id r; kx_name := name; kx_kind := kind; kx_sealed := sealed;
        kx_set_unix_nanos := sr_set_unix_nanos r; kx_set_by := sr_set_by r |}.

(** [KeptSecret::opened]. *)
Definition opened_secret (key : DataKey) (k : KeptSecret) : result SecretRecord :=
  let refused reason := Err (Refused ("the secret '" +:+ as_str (kx_name k) +:+ "'") reason) in
  match unseal key (bound_to (kx_name k) (kx_kind k)) (kx_sealed k) with
  | inr failed => refused (secret_error failed)
  | inl value =>
      match secret_new (kx_name k) (kx_kind k) value with
      | inr why => refused why
      | inl secret =>
          Ok {| sr_id := kx_id k; sr_secret := secret; sr_set_unix_nanos := kx_set_unix_nanos k;
                sr_set_by := kx_set_by k |}
      end
  end.
End sealing.

(** What a value is bound to is of one name and one kind. *)
Lemma bound_to_inj {X : XSecrets} {XO : XSecretsOk X} n k n' k' :
  bound_to n k = bound_to n' k' → n = n' ∧ k = k'.
Proof.
  unfold bound_to. intros E. apply app_inv_head in E. injection E as E.
  assert (∀ (a a' w w' : bytes), x00 ∉ w → x00 ∉ w' → a ++ x00 :: w = a' ++ x00 :: w' → a = a' ∧ w = w')
    as Hsplit.
  { intros a. induction a as [|b a IH]; intros [|b' a'] w w' Hw Hw' Eq; cbn in Eq.
    - by injection Eq.
    - injection Eq as <- ->. destruct Hw. apply elem_of_app. right. by left.
    - injection Eq as -> <-. destruct Hw'. apply elem_of_app. right. by left.
    - injection Eq as <- Eq. by destruct (IH _ _ _ Hw Hw' Eq) as [-> ->]. }
  apply Hsplit in E as [En Ek]; [|apply kind_no_zero..].
  assert (∀ s s', String.list_byte_of_string s = String.list_byte_of_string s' → s = s') as Hinj.
  { intros s s' Es. by rewrite <- (String.string_of_list_byte_of_string s), Es,
      String.string_of_list_byte_of_string. }
  split.
  - apply Hinj in En. pose proof (name_rt n) as H. rewrite En, name_rt in H. by injection H.
  - apply Hinj in Ek. pose proof (kind_rt k) as H. rewrite Ek, kind_rt in H. by injection H.
Qed.

(** ** The theorems *)

Module SecretTheorems.
Section theorems.
Context {X : XSecrets} {XO : XSecretsOk X} {S : Secret} {SO : SecretOk S}.

(** A secret opens to itself, and for no other name or kind. One
    sealed is kept with all but its value in the clear, opens under the key
    it was sealed under to the secret it was, and its sealed value moved to
    another name or kind is refused, whoever wrote the row. *)
Theorem secret_opens_for_its_name (secret_error : SecretError → string) (key : DataKey)
    (nonce : Nonce) (r : SecretRecord) (k : KeptSecret) :
  sealed_secret key nonce r = Ok k →
  kept_entry k = record_entry r ∧
  opened_secret secret_error key k = Ok r ∧
  ∀ moved : KeptSecret, kx_sealed moved = kx_sealed k →
    (kx_name moved, kx_kind moved) ≠ (kx_name k, kx_kind k) →
    ∃ why, opened_secret secret_error key moved =
      Err (Refused ("the secret '" +:+ as_str (kx_name moved) +:+ "'") why).
Proof.
  unfold sealed_secret. intros E. inv_ok.
  destruct (seal_after key nonce [] _ _) as [sealed|] eqn:Es; [|done].
  injection Ha as <-. apply open_seal in Es as (x & -> & Hx).
  split; [done|]. split.
  - unfold opened_secret. cbn [kx_name kx_kind kx_sealed app]. rewrite Hx, secret_rt. by destruct r.
  - intros moved Hm Hne. unfold opened_secret. cbn [kx_sealed app] in Hm. rewrite Hm.
    destruct (unseal key (bound_to (kx_name moved) (kx_kind moved)) x) as [v|e] eqn:Eu; [|by eexists].
    destruct Hne. cbn [kx_name kx_kind]. pose proof (unseal_bound _ _ _ _ _ _ Eu Hx) as Hb.
    apply bound_to_inj in Hb as [-> ->]. done.
Qed.
End theorems.

(** Two names and one kind, of secrets that are their bytes. *)
#[local] Instance two_names : XSecrets := {
  SecretName := bool;
  name_new s := if decide (s = "ftp"%string) then inl true
                else if decide (s = "smtp"%string) then inl false else inr "no such name"%string;
  as_str n := if n then "ftp"%string else "smtp"%string;
  SecretKind := unit;
  kind_word _ := "password"%string;
  kind_named s := if decide (s = "password"%string) then Some tt else None;
  XSecret := bool * unit * bytes;
  secret_new n k v := inl (n, k, v);
  secret_name s := s.1.1; secret_kind s := s.1.2; secret_value s := s.2;
}.
#[local] Instance two_names_ok : XSecretsOk two_names.
Proof.
  split; try by intros [].
  - intros []. apply (bool_decide_unpack _). by vm_compute.
  - by intros [[] ?].
  - by intros n k v s [= <-].
Qed.

Definition example_secret : SecretRecord (X := two_names) :=
  {| sr_id := wrap 1; sr_secret := (true, tt, [x01; x02]); sr_set_unix_nanos := wrap 9;
     sr_set_by := "operator" |}.
Definition example_kept (name : bool) : KeptSecret (X := two_names) :=
  {| kx_id := wrap 1; kx_name := name : SecretName; kx_kind := tt : SecretKind;
     kx_sealed := Glass.delimited (bound_to (X := two_names) true tt) ++ [x01; x02];
     kx_set_unix_nanos := wrap 9; kx_set_by := "operator" |}.

Lemma secret_opens_for_its_name_witness :
  opened_secret (S := Glass.secret) (λ _, "refused"%string) [] (example_kept true) = Ok example_secret ∧
  ∃ why, opened_secret (S := Glass.secret) (λ _, "refused"%string) [] (example_kept false) =
    Err (Refused "the secret 'smtp'" why).
Proof.
  destruct (secret_opens_for_its_name (S := Glass.secret) (SO := Glass.secret_ok) (λ _, "refused"%string)
    [] 0 example_secret (example_kept true)) as (_ & Ho & Hm); [done|].
  split; [exact Ho|]. apply (Hm (example_kept false)); done.
Defined.
End SecretTheorems.
