(* ===== verification/Row.v ===== *)
(** * Each laid-out record's row (src/.src/storage/row.rs)

    The values of its table's columns besides its key and its body, by the
    names the schema gives them, and the times Xmip Storage sets as it
    writes it. *)

From S2P Require Import Prelude Word Engine Store Encrypted Codec Facts Records Batch Queue Hold.
From S2P Require Import Failed Origin Dead Secrets.

Inductive Value : Set :=
  | Time (nanos : u64)
  | Count (number : u64)
  | Flag (flag : bool)
  | Text (text : string)
  | Id (id : u128)
  | Bytes (value : bytes).

#[export] Instance Value_eq_dec : EqDecision Value.
Proof. solve_decision. Defined.

(** A record's columns, by name: [None] where it holds nothing there. *)
Abbreviation Row := (list (string * option Value)).

(** [Columned]: what its index entries find, Xmip Storage's own times set,
    and its row. *)
Class Columned {C : Codec} (A : Type) {FA : Form A} := {
  col_id : A → u128;
  stamp : u64 → option A → A → A;
  row : A → Row;
}.

(** [u32] to [u64]: [count]'s [into]. *)
Definition count32 (number : u32) : Value := Count (wrap (uval number)).
Definition text_maybe (text : option string) : option Value := Text <$> text.
Definition id_maybe (id : option u128) : option Value := Id <$> id.

(** ** The times set *)

Definition stamp_journey_facts (created updated : u64) (f : JourneyFacts) : JourneyFacts :=
  {| jf_state := jf_state f; jf_previous_journey := jf_previous_journey f;
     jf_subscription := jf_subscription f; jf_cause_work_process := jf_cause_work_process f;
     jf_depth := jf_depth f; jf_work_process := jf_work_process f;
     jf_send_port := jf_send_port f; jf_send_location := jf_send_location f;
     jf_attempts := jf_attempts f; jf_message := jf_message f; jf_origin := jf_origin f;
     jf_open := jf_open f; jf_group_delivery := jf_group_delivery f;
     jf_group_open := jf_group_open f; jf_created_unix_nanos := created;
     jf_updated_unix_nanos := updated |}.
Definition stamp_message_facts (created : u64) (f : MessageFacts) : MessageFacts :=
  {| mf_previous_message := mf_previous_message f; mf_generation := mf_generation f;
     mf_created_by := mf_created_by f; mf_priority := mf_priority f;
     mf_execution_profile := mf_execution_profile f; mf_durability := mf_durability f;
     mf_size_bytes := mf_size_bytes f; mf_party := mf_party f; mf_contract := mf_contract f;
     mf_stream := mf_stream f; mf_created_unix_nanos := created |}.
Definition stamp_audit_facts (kept : u64) (f : AuditFacts) : AuditFacts :=
  {| af_occurred_unix_nanos := af_occurred_unix_nanos f; af_action := af_action f;
     af_phase := af_phase f; af_severity := af_severity f; af_failed := af_failed f;
     af_text := af_text f; af_program := af_program f; af_host := af_host f;
     af_process := af_process f; af_location := af_location f; af_hidden := af_hidden f;
     af_execution := af_execution f; af_journey := af_journey f; af_message := af_message f;
     af_artifact_kind := af_artifact_kind f; af_artifact_name := af_artifact_name f;
     af_artifact_version := af_artifact_version f; af_node := af_node f;
     af_cluster := af_cluster f; af_writer := af_writer f; af_position := af_position f;
     af_previous := af_previous f; af_digest := af_digest f; af_body_length := af_body_length f;
     af_body_chunks := af_body_chunks f; af_body_digest := af_body_digest f;
     af_kept_unix_nanos := kept |}.

(** A time the first write's: the one it replaces keeps it. *)
Definition first_write {A} (time : A → u64) (now : u64) (before : option A) : u64 :=
  match before with Some b => time b | None => now end.

Definition stamp_JourneyRecord (now : u64) (before : option JourneyRecord) (r : JourneyRecord) :
    JourneyRecord :=
  {| j_journey := j_journey r; j_body := j_body r;
     j_facts := stamp_journey_facts
       (first_write (λ b, jf_created_unix_nanos (j_facts b)) now before) now (j_facts r) |}.
Definition stamp_MessageRecord (now : u64) (before : option MessageRecord) (r : MessageRecord) :
    MessageRecord :=
  {| m_message := m_message r; m_body := m_body r;
     m_facts := stamp_message_facts
       (first_write (λ b, mf_created_unix_nanos (m_facts b)) now before) (m_facts r) |}.
Definition stamp_Held (now : u64) (before : option Held) (h : Held) : Held :=
  {| hd_sequence := hd_sequence h; hd_hold := hd_hold h;
     hd_held_unix_nanos := first_write hd_held_unix_nanos now before;
     hd_failed := hd_failed h; hd_due_unix_nanos := hd_due_unix_nanos h |}.
Definition stamp_KeptAudit (now : u64) (before : option KeptAudit) (a : KeptAudit) : KeptAudit :=
  {| ka_id := ka_id a; ka_streams := ka_streams a;
     ka_facts := stamp_audit_facts
       (first_write (λ b, af_kept_unix_nanos (ka_facts b)) now before) (ka_facts a) |}.
Definition stamp_AdministrationRecord (now : u64) (before : option AdministrationRecord)
    (a : AdministrationRecord) : AdministrationRecord :=
  {| ad_kind := ad_kind a; ad_id := ad_id a; ad_body := ad_body a; ad_updated_unix_nanos := now |}.
Definition stamp_KeptSecret {X : XSecrets} (now : u64) (before : option KeptSecret) (k : KeptSecret) :
    KeptSecret :=
  {| kx_id := kx_id k; kx_name := kx_name k; kx_kind := kx_kind k; kx_sealed := kx_sealed k;
     kx_set_unix_nanos := now; kx_set_by := kx_set_by k |}.

(** ** The rows *)

Definition row_JourneyRecord (r : JourneyRecord) : Row :=
  let facts := j_facts r in
  [("created_at", Some (Time (jf_created_unix_nanos facts)));
   ("updated_at", Some (Time (jf_updated_unix_nanos facts)));
   ("state", Some (Text (jf_state facts)));
   ("previous_journey", id_maybe (jf_previous_journey facts));
   ("subscription", text_maybe (jf_subscription facts));
   ("cause_work_process", text_maybe (jf_cause_work_process facts));
   ("depth", Some (count32 (jf_depth facts)));
   ("work_process", text_maybe (jf_work_process facts));
   ("send_port", text_maybe (jf_send_port facts));
   ("send_location", Some (count32 (jf_send_location facts)));
   ("attempts", Some (count32 (jf_attempts facts)));
   ("message", id_maybe (jf_message facts));
   ("origin", id_maybe (jf_origin facts));
   ("open", Some (Flag (jf_open facts)));
   ("group_delivery", id_maybe (jf_group_delivery facts));
   ("group_open", Some (Flag (jf_group_open facts)))]%string.

Definition row_MessageRecord (r : MessageRecord) : Row :=
  let facts := m_facts r in
  [("created_at", Some (Time (mf_created_unix_nanos facts)));
   ("previous_message", id_maybe (mf_previous_message facts));
   ("generation", Some (count32 (mf_generation facts)));
   ("created_by", Some (Text (mf_created_by facts)));
   ("priority", Some (Text (mf_priority facts)));
   ("execution_profile", Some (Text (mf_execution_profile facts)));
   ("durability", Some (Text (mf_durability facts)));
   ("size_bytes", Some (Count (mf_size_bytes facts)));
   ("party", text_maybe (mf_party facts));
   ("contract", text_maybe (mf_contract facts));
   ("stream", id_maybe (mf_stream facts))]%string.

Definition row_Held (h : Held) : Row :=
  [("queue", Some (Id (h_queue (hd_hold h))));
   ("sequence", Some (Count (hd_sequence h)));
   ("held_at", Some (Time (hd_held_unix_nanos h)));
   ("failed", Some (Flag (hd_failed h)));
   ("due_at", Some (Time (due_at h)))]%string.

Definition row_Dead (d : Dead) : Row :=
  let entry := dd_message d in
  [("queue", Some (Id (dm_queue entry)));
   ("sequence", Some (Count (dd_sequence d)));
   ("stream", Some (Id (dm_stream entry)));
   ("node", Some (Text (dm_node entry)));
   ("receive_location", Some (Text (dm_location entry)));
   ("queued_at", Some (Time (nanos (dm_received_unix_nanos entry))))]%string.

Definition row_Failed (f : Failed) : Row :=
  [("queue", Some (Id (fd_queue f)));
   ("sequence", Some (Count (fd_sequence f)));
   ("place", Some (Count (fd_place f)));
   ("reason", Some (Text (fd_reason f)));
   ("failed_at", Some (Time (nanos (fd_failed_unix_nanos f))))]%string.

Definition row_KeptAudit (a : KeptAudit) : Row :=
  let facts := ka_facts a in
  [("occurred_at", Some (Time (af_occurred_unix_nanos facts)));
   ("kept_at", Some (Time (af_kept_unix_nanos facts)));
   ("action", Some (Text (af_action facts)));
   ("phase", Some (Text (af_phase facts)));
   ("severity", Some (Text (af_severity facts)));
   ("failed", Some (Flag (af_failed facts)));
   ("message_text", text_maybe (af_text facts));
   ("program", Some (Text (af_program facts)));
   ("host", Some (Text (af_host facts)));
   ("process", Some (count32 (af_process facts)));
   ("location", text_maybe (af_location facts));
   ("hidden", Some (Flag (af_hidden facts)));
   ("execution", id_maybe (af_execution facts));
   ("journey", id_maybe (af_journey facts));
   ("message", id_maybe (af_message facts));
   ("artifact_kind", text_maybe (af_artifact_kind facts));
   ("artifact_name", text_maybe (af_artifact_name facts));
   ("artifact_version", text_maybe (af_artifact_version facts));
   ("node", text_maybe (af_node facts));
   ("cluster", text_maybe (af_cluster facts));
   ("writer", Some (Text (af_writer facts)));
   ("position", Some (Count (af_position facts)));
   ("previous_digest", Some (Bytes (af_previous facts)));
   ("digest", Some (Bytes (af_digest facts)));
   ("body_length", Some (Count (af_body_length facts)));
   ("body_chunks", Some (count32 (af_body_chunks facts)));
   ("body_digest", Some (Bytes (af_body_digest facts)))]%string.

Definition row_KeptStream (k : KeptStream) : Row :=
  let stream := ks_stream k in
  [("stream", Some (Id (st_stream stream)));
   ("length", Some (Count (st_length stream)));
   ("chunks", Some (count32 (st_chunks stream)));
   ("digest", Some (Bytes (st_digest stream)));
   ("written_at", Some (Time (st_written_unix_nanos stream)))]%string.

Definition row_AdministrationRecord (a : AdministrationRecord) : Row :=
  [("kind", Some (Text (Administration.word (ad_kind a))));
   ("updated_at", Some (Time (ad_updated_unix_nanos a)))]%string.

Definition row_KeptSecret {X : XSecrets} (k : KeptSecret) : Row :=
  [("name", Some (Text (as_str (kx_name k))));
   ("kind", Some (Text (kind_word (kx_kind k))));
   ("set_at", Some (Time (kx_set_unix_nanos k)));
   ("set_by", Some (Text (kx_set_by k)))]%string.

(** ** The laid-out records *)

Section columned.
Context {C : Codec} {X : XSecrets}.

#[export] Instance JourneyRecord_columned : Columned JourneyRecord :=
  { col_id := j_journey; stamp := stamp_JourneyRecord; row := row_JourneyRecord }.
#[export] Instance MessageRecord_columned : Columned MessageRecord :=
  { col_id := m_message; stamp := stamp_MessageRecord; row := row_MessageRecord }.
#[export] Instance Held_columned : Columned Held :=
  { col_id h := h_journey (hd_hold h); stamp := stamp_Held; row := row_Held }.
#[export] Instance Dead_columned : Columned Dead :=
  { col_id d := dm_message (dd_message d); stamp _ _ d := d; row := row_Dead }.
#[export] Instance Failed_columned : Columned Failed :=
  { col_id := fd_journey; stamp _ _ f := f; row := row_Failed }.
#[export] Instance KeptAudit_columned : Columned KeptAudit :=
  { col_id := ka_id; stamp := stamp_KeptAudit; row := row_KeptAudit }.
#[export] Instance KeptStream_columned : Columned KeptStream :=
  { col_id := ks_audit; stamp _ _ k := k; row := row_KeptStream }.
#[export] Instance AdministrationRecord_columned : Columned AdministrationRecord :=
  { col_id := ad_id; stamp := stamp_AdministrationRecord; row := row_AdministrationRecord }.
#[export] Instance KeptSecret_columned : Columned KeptSecret :=
  { col_id := kx_id; stamp := stamp_KeptSecret; row := row_KeptSecret }.
End columned.
