(* ===== verification/Columns.v ===== *)
(** * The laid-out columns as Xmip Storage writes them
    (src/.src/storage/columns.rs, columns/ordered.rs)

    Each searchable record's times set, and each of its table's indexes kept
    as entries of its own in the same write: a key of the index's number, its
    columns' values in order and the record's identifier, and the identifier
    as its value. *)

From S2P Require Import Prelude Word Engine Store Encrypted Codec Facts Records Batch Queue Hold.
From S2P Require Import Failed Origin Dead Claim Secrets Schema Row.

Definition KEPT_AUDIT : string := "audit".
Definition KEPT_AUDIT_STREAMS : string := "audit_stream".
Definition ADMINISTRATION : string := "administration/".

(** [Searched]. *)
Inductive Searched : Set :=
  | SJourney | SMessage | SHeld | SDead | SFailed | SAudit | SAuditStream | SAdministration | SSecret.

(** [Searched::of]. *)
Definition searched_of (database : Database) (kind : string) : option Searched :=
  match database with
  | Runtime =>
      if decide (kind = JOURNEY) then Some SJourney
      else if decide (kind = MESSAGE) then Some SMessage
      else if decide (kind = HELD) then Some SHeld
      else if decide (kind = DEAD) then Some SDead
      else if decide (kind = FAILED) then Some SFailed
      else None
  | Audit_ =>
      if decide (kind = KEPT_AUDIT) then Some SAudit
      else if decide (kind = KEPT_AUDIT_STREAMS) then Some SAuditStream
      else None
  | Administration_ =>
      if String.prefix ADMINISTRATION kind then Some SAdministration
      else if decide (kind = SECRET) then Some SSecret
      else None
  end.

(** [Searched::table]. *)
Definition searched_table (s : Searched) : string :=
  match s with
  | SJourney => "journey"
  | SMessage => "message"
  | SHeld => "held"
  | SDead => "dead_message"
  | SFailed => "failed_message"
  | SAudit => "audit"
  | SAuditStream => "audit_stream"
  | SAdministration => "administration"
  | SSecret => "secret"
  end.

(** [table]. *)
Definition table_named (database : Database) (name : string) : option Table :=
  List.find (λ table, bool_decide (t_database table = database) && bool_decide (t_name table = name)) TABLES.

(** [counted]: bytes after their length, as much as a [u32] says of it. *)
Definition length_counted (b : bytes) : bytes :=
  be (clamp (N.of_nat (length b)) : u32) ++ b.

(** [encoded]. *)
Definition encoded (v : Value) : bytes :=
  match v with
  | Time time | Count time => be time
  | Flag flag => [if flag then x01 else x00]
  | Text text => length_counted (String.list_byte_of_string text)
  | Bytes value => length_counted value
  | Id id => be id
  end.

(** [value]. *)
Definition value_in (row : Row) (column : string) : option Value :=
  match List.find (λ c, bool_decide (c.1 = column)) row with
  | Some (_, value) => value
  | None => None
  end.

(** The key of an index's entry for [row], where it belongs in it. *)
Definition index_key (index : Index) (row : Row) (id : u128) : option bytes :=
  let held := match ix_only index with
              | Some flag => bool_decide (value_in row flag = Some (Flag true))
              | None => true
              end in
  if held then
    values ← mapM (value_in row) (ix_columns index);
    Some (byte_of (ix_number index) :: concat (encoded <$> values) ++ be id)
  else None.

Section columns.
Context {C : Codec} {X : XSecrets}.

(** [row] and [stamp], as a record of [T]. *)
Definition row_as (T : Type) {FT : Form T} {CT : Columned T} (b : bytes) : result (Row * u128) :=
  record ← into (from_bytes b : cres T); Ok (row record, col_id record).
Definition stamp_as (T : Type) {FT : Form T} {CT : Columned T} (b : bytes) (before : option bytes) (now : u64) :
    result (bytes * Row * u128) :=
  record ← into (from_bytes b : cres T);
  before ← transpose ((λ b, into (from_bytes b : cres T)) <$> before);
  let record := stamp now before record in
  Ok (to_bytes record, row record, col_id record).

(** [Searched::row]. *)
Definition searched_row (s : Searched) : bytes → result (Row * u128) :=
  match s with
  | SJourney => row_as JourneyRecord
  | SMessage => row_as MessageRecord
  | SHeld => row_as Held
  | SDead => row_as Dead
  | SFailed => row_as Failed
  | SAudit => row_as KeptAudit
  | SAuditStream => row_as KeptStream
  | SAdministration => row_as AdministrationRecord
  | SSecret => row_as KeptSecret
  end.

(** [Searched::stamped]. *)
Definition searched_stamped (s : Searched) : bytes → option bytes → u64 → result (bytes * Row * u128) :=
  match s with
  | SJourney => stamp_as JourneyRecord
  | SMessage => stamp_as MessageRecord
  | SHeld => stamp_as Held
  | SDead => stamp_as Dead
  | SFailed => stamp_as Failed
  | SAudit => stamp_as KeptAudit
  | SAuditStream => stamp_as KeptStream
  | SAdministration => stamp_as AdministrationRecord
  | SSecret => stamp_as KeptSecret
  end.

(** [Columns::entries]. *)
Definition row_entries (database : Database) (table : string) (row : Row) (id : u128) :
    result (list bytes) :=
  match table_named database table with
  | None => Err (malformed ("no table '" +:+ table +:+ "'"))
  | Some table => Ok (omap (λ index, index_key index row id) (t_indexes table))
  end.

(** One change of [written_over], of a searchable record that is [before]:
    the value as it is written, and the entries it replaces and makes. *)
Definition changed_over (database : Database) (searched : Searched) (before value : option bytes)
    (now : u64) : result (option bytes * list IndexEntry) :=
  gone ← match before return result (list IndexEntry) with
         | None => Ok []
         | Some before =>
             '(row, id) ← searched_row searched before;
             keys ← row_entries database (searched_table searched) row id;
             Ok ((λ key : bytes, (key, None : option u128)) <$> (keys : list bytes))
         end;
  match value return result (option bytes * list IndexEntry) with
  | None => Ok (None, gone)
  | Some value =>
      '(value, row, id) ← searched_stamped searched value before now;
      keys ← row_entries database (searched_table searched) row id;
      Ok (Some value, gone ++ ((λ key : bytes, (key, Some id)) <$> (keys : list bytes)))
  end.

(** [Columns::written_over]: [kept] reads what the store holds, and may keep
    what it read in its state. *)
Fixpoint written_over {S : Type} (database : Database)
    (kept : S → string → bytes → S * result (option bytes)) (now : u64)
    (latest : gmap (string * bytes) (option bytes)) (s : S) (changes : list RecordChange) :
    S * result (list RecordChange * list IndexEntry) :=
  match changes with
  | [] => (s, Ok ([], []))
  | (kind, key, value) :: changes =>
      match searched_of database kind with
      | None =>
          let '(s, rest) := written_over database kept now latest s changes in
          (s, '(written, entries) ← rest; Ok ((kind, key, value) :: written, entries))
      | Some searched =>
          let '(s, before) :=
            match latest !! (kind, key) with
            | Some before => (s, Ok before)
            | None => kept s kind key
            end in
          match (before ← before; changed_over database searched before value now) with
          | Err e => (s, Err e)
          | Ok (value, these) =>
              let '(s, rest) :=
                written_over database kept now (<[(kind, key) := value]> latest) s changes in
              (s, '(written, entries) ← rest;
                  Ok ((kind, key, value) :: written, these ++ entries))
          end
      end
  end.

(** [Columns::written]: over what the store holds, read as it stands. *)
Definition columns_written {St : Type} `{RecordStore St} (store : St) (database : Database)
    (changes : list RecordChange) (now : u64) : result (list RecordChange * list IndexEntry) :=
  (written_over database (λ _ kind key, (tt, rs_get store kind key)) now ∅ tt changes).2.

(** ** Reading an index *)

(** [Columns::prefix]. *)
Definition index_prefix (database : Database) (at_ : string * string) (equal : list Value) :
    result (Index * bytes) :=
  let missing := Err (malformed ("no index " +:+ at_.1 +:+ "." +:+ at_.2)) in
  match table_named database at_.1 with
  | None => missing
  | Some table =>
      match List.find (λ candidate, bool_decide (ix_name candidate = at_.2)) (t_indexes table) with
      | None => missing
      | Some index =>
          Ok (index, byte_of (ix_number index) ::
                       concat (encoded <$> firstn (length (ix_columns index)) equal))
      end
  end.

(** [Columns::range]. *)
Definition index_range (database : Database) (at_ : string * string) (equal : list Value)
    (range : option (u64 * u64)) : result (Index * option (bytes * bytes)) :=
  '(index, prefix) ← index_prefix database at_ equal;
  Ok (index,
    match range with
    | Some (from, to) =>
        if (uval to <? uval from)%N then None
        else Some (prefix ++ be from, prefix ++ be to ++ replicate 17 xff)
    | None => Some (prefix, prefix ++ replicate 64 xff)
    end).

(** [Columns::find]. *)
Definition find {St : Type} `{RecordStore St} (store : St) (database : Database)
    (at_ : string * string) (equal : list Value) (range : option (u64 * u64)) (most : u32)
    (reverse : bool) : result (list u128) :=
  found ← index_range database at_ equal range;
  match found.2 return result (list u128) with
  | None => Ok []
  | Some (first, last) =>
      entries ← Store.scan_index_keyed store first last (uval most) reverse;
      Ok ((entries : list (bytes * u128)).*2)
  end.

(** [find_ordered]'s reading of one entry's key: the values after the
    prefix, as many as the index has columns left. *)
Definition ordered_values (index : Index) (prefix : bytes) (trailing : nat) (entry : bytes * u128) :
    result (list u64 * u128) :=
  let '(key, id) := entry in
  let values := drop (length prefix) (firstn (length key - 16) key) in
  if decide (length prefix ≤ length key - 16 ∧ length values = 8 * trailing)%nat
  then Ok ((λ i, of_be (firstn 8 (drop (8 * i) values))) <$> seq 0 trailing, id)
  else Err (malformed (ix_name index +:+ ": not in that order")).

(** [find_ordered] of columns/ordered.rs. *)
Definition find_ordered {V : Type} `{IndexScan V} (store : V) (database : Database)
    (at_ : string * string) (equal : list Value) (from : list u64) (to : u64) (most : N) :
    result (list (list u64 * u128)) :=
  '(index, prefix) ← index_prefix database at_ equal;
  let trailing := (length (ix_columns index) - length equal)%nat in
  match from with
  | [] => Err (malformed (ix_name index +:+ ": not in that order"))
  | start :: _ =>
      if decide (trailing < length from)%nat then Ok []
      else if (uval to <? uval start)%N then Ok []
      else
        let first := prefix ++ concat (be <$> from) in
        let last := prefix ++ be to ++ replicate (8 * (trailing - 1) + 17) xff in
        entries ← Store.scan_index_keyed store first last most false;
        collect (ordered_values index prefix trailing) entries
  end.

(** [find_from]. *)
Definition find_from {V : Type} `{IndexScan V} (store : V) (database : Database)
    (at_ : string * string) (equal : list Value) (from : u64) (most : N) :
    result (list (u64 * u128)) :=
  found ← find_ordered store database at_ equal [from] umax most;
  Ok ((λ '(values, id), (default (wrap 0) (head values), id)) <$> (found : list (list u64 * u128))).
End columns.

(** ** What is written of the changes decided *)

(** A change as it is written of one decided: of the same record, its value
    stamped where it is searchable. *)
Definition change_stamped {C : Codec} {X : XSecrets} (database : Database) (now : u64)
    (c c' : RecordChange) : Prop :=
  c'.1 = c.1 ∧
  match searched_of database c.1.1, c.2 with
  | Some searched, Some b =>
      ∃ b' before row id, c'.2 = Some b' ∧ searched_stamped searched b before now = Ok (b', row, id)
  | _, _ => c'.2 = c.2
  end.

Lemma written_over_stamped {C : Codec} {X : XSecrets} {S : Type} database
    (kept : S → string → bytes → S * result (option bytes)) now changes :
  ∀ latest s s' written es,
  written_over database kept now latest s changes = (s', Ok (written, es)) →
  Forall2 (change_stamped database now) changes written.
Proof.
  induction changes as [|[[kind key] value] changes IH]; intros latest s s' written es; cbn [written_over].
  { intros [= <- <- <-]. constructor. }
  destruct (searched_of database kind) as [searched|] eqn:Ek.
  - destruct (match latest !! (kind, key) with Some before => (s, Ok before) | None => kept s kind key end)
      as [s1 r].
    destruct (before ← r; changed_over database searched before value now) as [[value' these]|e] eqn:Ec;
      [|done].
    destruct (written_over database kept now (<[(kind, key) := value']> latest) s1 changes) as [s2 rest] eqn:Ew.
    intros [= <- E]. apply bind_Ok in E as ([w e'] & -> & [= <- <-]). constructor; [|by eapply IH].
    split; [done|]. cbn [fst snd]. rewrite Ek.
    apply bind_Ok in Ec as (before & _ & Ec). unfold changed_over in Ec.
    apply bind_Ok in Ec as (gone & _ & Ec). destruct value as [b|]; [|by inv_ok].
    apply bind_Ok in Ec as ([[b' row] id] & Est & Ec). apply bind_Ok in Ec as (keys & _ & Ec). inv_ok.
    by exists b', before, row, id.
  - destruct (written_over database kept now latest s changes) as [s2 rest] eqn:Ew.
    intros [= <- E]. apply bind_Ok in E as ([w e'] & -> & [= <- <-]). constructor; [|by eapply IH].
    split; [done|]. cbn [fst snd]. by rewrite Ek.
Qed.

Lemma columns_written_stamped {C : Codec} {X : XSecrets} {St : Type} `{RecordStore St} (store : St)
    database changes now written es :
  columns_written store database changes now = Ok (written, es) →
  Forall2 (change_stamped database now) changes written.
Proof.
  unfold columns_written. destruct (written_over _ _ _ _ _ _) as [s r] eqn:E. cbn. intros ->.
  by eapply written_over_stamped.
Qed.

(** ** What the entries of the records are *)

Section laid_out.
Context {C : Codec} {CO : CodecOk C} {X : XSecrets} {XO : XSecretsOk X} (database : Database).

(** The entries of one record, and what they find. *)
Definition record_entries (kind : string) (b : bytes) : list (bytes * u128) :=
  match searched_of database kind with
  | None => []
  | Some searched =>
      match ('(row, id) ← searched_row searched b;
             keys ← row_entries database (searched_table searched) row id;
             Ok ((λ key : bytes, (key, id)) <$> (keys : list bytes))) : result (list (bytes * u128)) with
      | Ok entries => entries
      | Err _ => []
      end
  end.

(** The index holds each entry of each record, and no other. *)
Definition laid_out (R : records) (I : entries) : Prop :=
  ∀ k id, I !! k = Some id ↔
    ∃ kind key b, R !! (kind, key) = Some b ∧ (k, id) ∈ record_entries kind b.

(** No two records have an entry in common. *)
Definition apart (R : records) : Prop :=
  ∀ kind key b kind' key' b' k,
    R !! (kind, key) = Some b → R !! (kind', key') = Some b' →
    k ∈ (record_entries kind b).*1 → k ∈ (record_entries kind' b').*1 →
    (kind, key) = (kind', key').

(** A searchable record's bytes are of one its form can read back. *)
Definition fits_as (T : Type) {FT : Form T} {TT : Fits T} (b : bytes) : Prop :=
  ∃ r : T, fits r ∧ b = to_bytes r.
Definition searched_fits (s : Searched) : bytes → Prop :=
  match s with
  | SJourney => fits_as JourneyRecord
  | SMessage => fits_as MessageRecord
  | SHeld => fits_as Held
  | SDead => fits_as Dead
  | SFailed => fits_as Failed
  | SAudit => fits_as KeptAudit
  | SAuditStream => fits_as KeptStream
  | SAdministration => fits_as AdministrationRecord
  | SSecret => fits_as KeptSecret
  end.
Definition change_fits (c : RecordChange) : Prop :=
  ∀ searched b, searched_of database c.1.1 = Some searched → c.2 = Some b → searched_fits searched b.

(** What is stamped reads as it was stamped. *)
Lemma stamp_as_row (T : Type) {FT : Form T} {TT : Fits T} {FO : FormOk T} {CT : Columned T} b before now b' r id :
  (∀ now before (x : T), fits x → fits (stamp now before x)) →
  fits_as T b → stamp_as T b before now = Ok (b', r, id) → row_as T b' = Ok (r, id) ∧ fits_as T b'.
Proof.
  intros Hs (x & Hx & ->) E. unfold stamp_as in E. rewrite from_to_bytes in E by done.
  inv_ok. cbn [into] in *. inv_ok. split; [|eexists; split; [by apply Hs|done]].
  unfold row_as. rewrite from_to_bytes by by apply Hs. done.
Qed.

Lemma searched_stamped_row s b before now b' r id :
  searched_fits s b → searched_stamped s b before now = Ok (b', r, id) →
  searched_row s b' = Ok (r, id) ∧ searched_fits s b'.
Proof.
  intros Hf E. destruct s; cbn [searched_fits searched_stamped searched_row] in *;
    match goal with Hf : fits_as ?T _ |- _ => refine (stamp_as_row T _ _ _ _ _ _ _ Hf E) end;
    intros ? ? x Hx; exact Hx.
Qed.

(** ** A change of one record *)

Lemma lookup_changed_gone (I : entries) keys k :
  changed I ((λ key : bytes, (key, None : option u128)) <$> keys) !! k =
  if decide (k ∈ keys) then None else I !! k.
Proof.
  revert I. induction keys as [|key keys IH]; intros I; [done|]. rewrite fmap_cons. cbn [changed foldl].
  change (changed (delete key I) ((λ key, (key, None)) <$> keys) !! k =
    if decide (k ∈ key :: keys) then None else I !! k).
  rewrite IH. destruct (decide (k ∈ keys)) as [Hk|Hk].
  - by rewrite decide_True by by right.
  - destruct (decide (k = key)) as [->|Hne].
    + rewrite lookup_delete_eq. by rewrite decide_True by by left.
    + rewrite lookup_delete_ne by done. rewrite decide_False; [done|]. by intros [?|?]%elem_of_cons.
Qed.

Lemma lookup_changed_made (I : entries) keys id k :
  changed I ((λ key : bytes, (key, Some id)) <$> keys) !! k =
  if decide (k ∈ keys) then Some id else I !! k.
Proof.
  revert I. induction keys as [|key keys IH]; intros I; [done|]. rewrite fmap_cons.
  change (changed (<[key := id]> I) ((λ key, (key, Some id)) <$> keys) !! k =
    if decide (k ∈ key :: keys) then Some id else I !! k).
  rewrite IH. destruct (decide (k ∈ keys)) as [Hk|Hk].
  - by rewrite decide_True by by right.
  - destruct (decide (k = key)) as [->|Hne].
    + rewrite lookup_insert_eq. by rewrite decide_True by by left.
    + rewrite lookup_insert_ne by done. rewrite decide_False; [done|]. by intros [?|?]%elem_of_cons.
Qed.

(** A change decided over the record it replaces: its entries are those of
    the one gone, taken out, and of the one made. *)
Lemma changed_over_entries kind searched before value now value' es :
  searched_of database kind = Some searched →
  (∀ b, value = Some b → searched_fits searched b) →
  changed_over database searched before value now = Ok (value', es) →
  (∀ b, value' = Some b → searched_fits searched b) ∧
  ∃ gone made, es = ((λ key : bytes, (key, None : option u128)) <$> gone) ++
                    made ∧
    match before with
    | Some b => (record_entries kind b).*1 = gone
    | None => gone = []
    end ∧
    match value' with
    | Some b => ∃ id keys, made = ((λ key : bytes, (key, Some id)) <$> keys) ∧
        record_entries kind b = (λ key : bytes, (key, id)) <$> keys
    | None => made = []
    end.
Proof.
  intros Hs Hf E. unfold changed_over in E. apply bind_Ok in E as (gone_es & Eg & E).
  assert (∃ gone, gone_es = (λ key : bytes, (key, None : option u128)) <$> gone ∧
    match before with Some b => (record_entries kind b).*1 = gone | None => gone = [] end)
    as (gone & -> & Hgone).
  { destruct before as [b|]; [|inv_ok; by exists []].
    apply bind_Ok in Eg as ([r id] & Er & Eg). apply bind_Ok in Eg as (keys & Ek & Eg). inv_ok.
    exists keys. split; [done|]. unfold record_entries. rewrite Hs, Er. cbn [mbind result_bind].
    rewrite Ek. cbn [mbind result_bind]. rewrite <- list_fmap_compose. apply list_fmap_id. }
  destruct value as [b|].
  - apply bind_Ok in E as ([[b' r] id] & Est & E). apply bind_Ok in E as (keys & Ek & E). inv_ok.
    destruct (searched_stamped_row _ _ _ _ _ _ _ (Hf _ eq_refl) Est) as [Hr Hfit].
    split; [by intros ? [= <-]|]. eexists gone, _. split; [done|]. split; [done|].
    exists id, keys. split; [done|]. unfold record_entries. rewrite Hs, Hr. cbn [mbind result_bind].
    by rewrite Ek.
  - inv_ok. split; [done|]. exists gone, []. by rewrite app_nil_r.
Qed.

Lemma laid_out_step R I kind key value' gone made id :
  laid_out R I → apart R → apart (record_change R (kind, key, value')) →
  gone = match R !! (kind, key) with Some b => (record_entries kind b).*1 | None => [] end →
  match value' with
  | Some b => record_entries kind b = (λ key : bytes, (key, id)) <$> made
  | None => made = []
  end →
  laid_out (record_change R (kind, key, value'))
    (changed I (((λ key : bytes, (key, None : option u128)) <$> gone) ++
                ((λ key : bytes, (key, Some id)) <$> made))).
Proof.
  intros HI Ha Ha' Hgone Hmade k id'. unfold changed. rewrite foldl_app.
  fold (changed I ((λ key : bytes, (key, None : option u128)) <$> gone)).
  fold (changed (changed I ((λ key : bytes, (key, None : option u128)) <$> gone))
    ((λ key : bytes, (key, Some id)) <$> made)).
  rewrite lookup_changed_made, lookup_changed_gone.
  assert (∀ b, value' = Some b → (record_entries kind b).*1 = made) as Hmade1.
  { intros b ->. rewrite Hmade, <- list_fmap_compose. apply list_fmap_id. }
  assert (∀ kind' key' b, (kind', key') ≠ (kind, key) →
    record_change R (kind, key, value') !! (kind', key') = Some b ↔ R !! (kind', key') = Some b) as Hother.
  { intros. by rewrite record_changed_at, decide_False. }
  assert (record_change R (kind, key, value') !! (kind, key) = value') as Hself
    by by rewrite record_changed_at, decide_True.
  destruct (decide (k ∈ made)) as [Hk|Hk].
  - destruct value' as [b|]; [|subst made; by apply elem_of_nil in Hk]. split.
    + intros [= <-]. exists kind, key, b. split; [done|]. rewrite Hmade. apply list_elem_of_fmap. eauto.
    + intros (kind' & key' & b' & Hb' & Hin). apply (list_elem_of_fmap_2 fst) in Hin as Hin1.
      assert ((kind', key') = (kind, key)) as [= -> ->].
      { eapply (Ha' _ _ _ _ _ _ k Hb' Hself); [exact (list_elem_of_fmap_2 fst _ _ Hin)|].
        by rewrite (Hmade1 b eq_refl). }
      rewrite Hself in Hb'. injection Hb' as <-. rewrite Hmade in Hin.
      apply list_elem_of_fmap in Hin as (? & [= _ ->] & _). done.
  - assert (∀ b kind' key', record_change R (kind, key, value') !! (kind', key') = Some b →
      k ∈ (record_entries kind' b).*1 → (kind', key') ≠ (kind, key)) as Hne.
    { intros b kind' key' Hb Hin [= -> ->]. rewrite Hself in Hb. by rewrite (Hmade1 b Hb) in Hin. }
    destruct (decide (k ∈ gone)) as [Hg|Hg].
    + split; [done|]. intros (kind' & key' & b' & Hb' & Hin). exfalso.
      apply (list_elem_of_fmap_2 fst) in Hin. pose proof (Hne _ _ _ Hb' Hin) as Hp.
      apply Hother in Hb'; [|done].
      destruct (R !! (kind, key)) as [b|] eqn:Eb; [|subst gone; by apply elem_of_nil in Hg].
      subst gone. destruct Hp. by eapply Ha.
    + rewrite (HI k id'). split.
      * intros (kind' & key' & b' & Hb' & Hin). exists kind', key', b'. split; [|done].
        apply Hother; [|done]. intros [= -> ->]. rewrite Hb' in Hgone. subst gone.
        by apply (list_elem_of_fmap_2 fst) in Hin.
      * intros (kind' & key' & b' & Hb' & Hin). exists kind', key', b'. split; [|done].
        apply (Hother kind' key'); [|done]. eapply Hne; [exact Hb'|]. by apply (list_elem_of_fmap_2 fst) in Hin.
Qed.

(** What a batch's loop knows of the records it has written so far: the
    latest it wrote, or what the store holds. *)
Definition latest_of (R R' : records) (latest : gmap (string * bytes) (option bytes)) : Prop :=
  ∀ kind key, searched_of database kind ≠ None →
    match latest !! (kind, key) with
    | Some o => o = R' !! (kind, key)
    | None => R' !! (kind, key) = R !! (kind, key)
    end.

(** The records stay apart as each change is written. *)
Fixpoint all_apart (R : records) (changes : list RecordChange) : Prop :=
  apart R ∧ match changes with
            | [] => True
            | c :: changes => all_apart (record_change R c) changes
            end.

Lemma laid_out_other R I kind key value : searched_of database kind = None →
  laid_out R I → laid_out (record_change R (kind, key, value)) I.
Proof.
  intros Hk HI k id. rewrite (HI k id).
  assert (∀ kind' key' b, (k, id) ∈ record_entries kind' b → (kind', key') ≠ (kind, key)) as Hne.
  { intros kind' key' b Hin [= -> _]. unfold record_entries in Hin. rewrite Hk in Hin.
    by apply elem_of_nil in Hin. }
  split; intros (kind' & key' & b & Hb & Hin); exists kind', key', b; (split; [|done]);
    rewrite record_changed_at in *; pose proof (Hne kind' key' b Hin); case_decide; done.
Qed.

Lemma latest_of_next R R' latest kind key value :
  latest_of R R' latest →
  latest_of R (record_change R' (kind, key, value)) (<[(kind, key) := value]> latest).
Proof.
  intros H kind' key' Hk. specialize (H kind' key' Hk). rewrite record_changed_at.
  destruct (decide ((kind', key') = (kind, key))) as [E|Hne].
  - rewrite E, lookup_insert_eq. done.
  - rewrite lookup_insert_ne by done. exact H.
Qed.

Lemma latest_of_other R R' latest kind key value : searched_of database kind = None →
  latest_of R R' latest → latest_of R (record_change R' (kind, key, value)) latest.
Proof.
  intros Hn H kind' key' Hk. specialize (H kind' key' Hk). rewrite record_changed_at.
  case_decide as E; [|exact H]. injection E as -> ->. done.
Qed.

(** [kept] reads what the store holds, whatever it keeps of it. *)
Definition reads_store {S : Type} (R : records) (inv : S → Prop)
    (kept : S → string → bytes → S * result (option bytes)) : Prop :=
  ∀ s kind key s' r, inv s → kind_ok kind → kept s kind key = (s', r) →
    inv s' ∧ ∀ o, r = Ok o → o = R !! (kind, key).

Lemma written_over_laid_out {S : Type} R inv kept now changes : reads_store (S := S) R inv kept →
  ∀ R' I latest s s' written es,
  inv s → latest_of R R' latest → laid_out R' I → kinds_ok changes → Forall change_fits changes →
  written_over database kept now latest s changes = (s', Ok (written, es)) →
  all_apart R' written →
  inv s' ∧ laid_out (recorded R' written) (changed I es).
Proof.
  intros Hkept. induction changes as [|[[kind key] value] changes IH];
    intros R' I latest s s' written es Hs Hl HI Hok Hf E Ha; cbn [written_over] in E.
  { injection E as <- <- <-. done. }
  apply Forall_cons in Hf as [Hf Hfs]. apply Forall_cons in Hok as [Hok Hoks]. cbn in Hok.
  destruct (searched_of database kind) as [searched|] eqn:Ek.
  - destruct (match latest !! (kind, key) with Some before => (s, Ok before) | None => kept s kind key end)
      as [s1 r] eqn:Er.
    assert (inv s1 ∧ ∀ o, r = Ok o → o = R' !! (kind, key)) as [Hs1 Hr].
    { specialize (Hl kind key). rewrite Ek in Hl. specialize (Hl ltac:(done)).
      destruct (latest !! (kind, key)) as [o|] eqn:El.
      - injection Er as <- <-. split; [done|]. intros o' [= <-]. done.
      - destruct (Hkept _ _ _ _ _ Hs Hok Er) as [? Hread]. split; [done|].
        intros o Ho. rewrite Hl. by apply Hread. }
    destruct (before ← r; changed_over database searched before value now) as [[value' these]|e] eqn:Ec; [|done].
    apply bind_Ok in Ec as (before & Eb & Ec). apply Hr in Eb. subst before.
    destruct (written_over database kept now (<[(kind, key) := value']> latest) s1 changes) as [s2 rest] eqn:Ew.
    injection E as <- E. apply bind_Ok in E as ([w e'] & -> & E). injection E as <- <-.
    destruct (changed_over_entries kind searched (R' !! (kind, key)) value now value' these Ek) as (_ & gone & made & -> & Hg & Hm);
      [intros b ->; by eapply Hf|exact Ec|].
    destruct Ha as [Ha Has]. cbn [recorded foldl]. unfold changed. rewrite foldl_app.
    eapply IH; [exact Hs1|by apply latest_of_next| |exact Hoks|exact Hfs|exact Ew|exact Has].
    destruct value' as [b|].
    + destruct Hm as (id & keys & -> & Hm). eapply laid_out_step; [done|done|by destruct w; destruct Has| |exact Hm].
      by destruct (R' !! (kind, key)).
    + subst made. apply (laid_out_step R' I kind key None gone [] (wrap 0)); [done|done|by destruct w; destruct Has| |done].
      by destruct (R' !! (kind, key)).
  - destruct (written_over database kept now latest s changes) as [s2 rest] eqn:Ew.
    injection E as <- E. apply bind_Ok in E as ([w e'] & -> & E). injection E as <- <-.
    destruct Ha as [Ha Has]. cbn [recorded foldl].
    eapply IH; [exact Hs|by apply latest_of_other| |exact Hoks|exact Hfs|exact Ew|exact Has].
    by apply laid_out_other.
Qed.

(** The index of the records, made of them. *)
Definition made_of (R : records) : list (bytes * u128) :=
  '((kind, _), b) ← map_to_list R; record_entries kind b.

Lemma made_of_laid_out R : NoDup (made_of R).*1 → laid_out R (list_to_map (made_of R)).
Proof.
  intros Hn k id. rewrite <- elem_of_list_to_map by done. unfold made_of. rewrite list_elem_of_bind. split.
  - intros ([[kind key] b] & Hin & Hb). apply elem_of_map_to_list in Hb. eauto.
  - intros (kind & key & b & Hb & Hin). exists ((kind, key), b). split; [done|]. by apply elem_of_map_to_list.
Qed.
End laid_out.

(** What is written over what a store holds keeps the index with the records. *)
Lemma columns_written_laid_out {C : Codec} {CO : CodecOk C} {X : XSecrets} {XO : XSecretsOk X} {St : Type}
    `{RecordStoreOk St} (store : St) (R : records) (I : entries) (database : Database)
    (changes written : list RecordChange) (es : list IndexEntry) (now : u64) :
  rs_repr store R I → laid_out database R I → kinds_ok changes → Forall (change_fits database) changes →
  columns_written store database changes now = Ok (written, es) → all_apart database R written →
  laid_out database (recorded R written) (changed I es).
Proof.
  intros Hr HI Hok Hf E Ha. unfold columns_written in E.
  destruct (written_over database (λ _ kind key, (tt, rs_get store kind key)) now ∅ tt changes)
    as [s' r] eqn:Ew. cbn in E. subst r.
  destruct (written_over_laid_out database R (λ _, True) (λ _ kind key, (tt, rs_get store kind key)) now
    changes) with (R' := R) (I := I) (latest := (∅ : gmap (string * bytes) (option bytes)))
    (s := tt) (s' := s') (written := written) (es := es) as [_ HI']; [|done| |done|done|done|done|done|done].
  - intros [] kind key [] o _ Hk [= <-]. split; [done|]. intros v Hv. by eapply rs_get_spec.
  - unfold latest_of. intros kind key _. by rewrite lookup_empty.
Qed.
