(* ===== verification/Page.v ===== *)
(** * A queue read a page at a time (src/.src/storage/queue.rs: [page]; hold.rs,
    failed.rs, dead.rs: [read])

    A page is one ordered range of the queue's index from a place, and a read
    of each entry the range finds, in one view of the store. *)

From S2P Require Import Prelude Word Engine Encrypted Store Codec Facts Records Batch Queue Hold.
From S2P Require Import Failed Origin Dead Claim Secrets Schema Row Columns.

(** ** The operations *)

Section operations.
Context {C : Codec} {X : XSecrets} {St : Type} `{RecordStore St} (store : St).

(** [placed_from]. *)
Definition placed_from {V : Type} `{IndexScan V} (view : V) (kinds : Kinds) (queue : u128) (from : u64)
    (most : N) : result (list (u64 * u128)) :=
  find_from view Runtime (k_table kinds, k_index kinds) [Id queue] from most.

(** The entries a page's range found, read one after another. *)
Fixpoint page_entries (view : rs_view (S := St)) (kinds : Kinds) (queue : u128)
    (found : list (u64 * u128)) : result (list bytes) :=
  match found with
  | [] => Ok []
  | (sequence, _) :: found =>
      o ← rs_view_get view (k_entry kinds) (entry_key queue sequence);
      entries ← page_entries view kinds queue found;
      Ok (match o with Some bytes => bytes :: entries | None => entries end)
  end.

(** [page]. *)
Definition page (kinds : Kinds) (queue : u128) (from : u64) (most : u32) : result (Places * list bytes) :=
  view ← rs_viewed store;
  o ← rs_view_get view (k_places kinds) (places_key queue);
  places ← places_of o;
  if decide (p_count places = wrap 0) then Ok (places, [])
  else
    let at_ := umaxof from (p_first places) in
    found ← (if decide (most = wrap 0) then Ok [] else placed_from view kinds queue at_ (uval most));
    first ← match (found : list (u64 * u128)), decide (at_ = p_first places) with
            | (sequence, _) :: _, left _ => Ok (Some sequence)
            | _, _ =>
                one ← placed_from view kinds queue (p_first places) 1;
                Ok (fst <$> head (one : list (u64 * u128)))
            end;
    entries ← page_entries view kinds queue found;
    Ok ({| p_first := default (p_next places) (first : option u64); p_next := p_next places;
           p_count := p_count places |}, entries).

(** [hold::read], [failed::read] and [dead::read]. *)
Definition read_held (queue : u128) (from : u64) (most : u32) (now : i128) : result HeldQueue :=
  '(places, entries) ← page HOLD queue from most;
  held ← collect (λ b, into (from_bytes b : cres Held)) entries;
  Ok {| hq_first := p_first places; hq_next := p_next places; hq_count := p_count places;
        hq_held := held; hq_read_unix_nanos := now |}.
Definition read_failed (queue : u128) (from : u64) (most : u32) : result FailedQueue :=
  '(places, entries) ← page FAILED_KINDS queue from most;
  failed ← collect (λ b, into (from_bytes b : cres Failed)) entries;
  Ok {| fq_first := p_first places; fq_next := p_next places; fq_count := p_count places;
        fq_failed := failed |}.
Definition read_dead (queue : u128) (from : u64) (most : u32) : result DeadQueue :=
  '(places, entries) ← page DEAD_KINDS queue from most;
  dead ← collect (λ b, into (from_bytes b : cres Dead)) entries;
  Ok {| dq_first := p_first places; dq_next := p_next places; dq_count := p_count places;
        dq_dead := dead |}.
End operations.

(** ** What a range of an index finds, in its order *)

Section ranged.
Context (prefix : bytes) (I : entries) (ids : gmap u64 u128).

(** Under [prefix] the index holds one entry for each place of [ids]: the
    place and what is there. *)
Definition holds_places : Prop :=
  ∀ k id, I !! (prefix ++ k) = Some id ↔ ∃ s, ids !! s = Some id ∧ k = be s ++ be id.

Hypothesis HI : holds_places.

Definition place_entry (s : u64) : bytes * u128 :=
  (prefix ++ be s ++ be (default (wrap 0) (ids !! s)), default (wrap 0) (ids !! s)).

(** The places from [from] on, in order. *)
Definition places_from (from : u64) : list u64 :=
  filter (λ s, place_le from s) (places_in_line ids).

Lemma elem_of_places_from from s : s ∈ places_from from ↔ place_le from s ∧ is_Some (ids !! s).
Proof. unfold places_from. by rewrite list_elem_of_filter, elem_of_places_in_line. Qed.

Lemma ble_xff (b : bytes) n : (length b ≤ n)%nat → ble b (replicate n xff) = true.
Proof.
  revert n. induction b as [|c b IH]; intros n Hn; [done|]. destruct n as [|n]; cbn in Hn; [lia|].
  cbn [replicate]. apply ble_cons_iff. pose proof (to_N_lt c) as Hc.
  destruct (decide (c = xff)) as [->|Hne].
  - right. split; [done|]. apply IH. lia.
  - left. assert (Byte.to_N c ≠ Byte.to_N xff) by (intros E%to_N_inj; done).
    change (Byte.to_N xff) with 255%N in *. lia.
Qed.

Lemma within_places from k :
  within (prefix ++ be from) (prefix ++ be (umax : u64) ++ replicate 17 xff) k = true ∧ is_Some (I !! k) ↔
  k ∈ fst ∘ place_entry <$> places_from from.
Proof.
  rewrite within_spec, list_elem_of_fmap. setoid_rewrite elem_of_places_from. unfold bytes_le. split.
  - intros [[H1 H2] [id Hid]]. destruct (ble_prefix_range _ _ _ _ H1 H2) as [k' ->].
    apply HI in Hid as (s & Hs & ->). exists s. cbn. rewrite Hs. split; [done|]. split; [|done].
    rewrite ble_app in H1. rewrite <- (app_nil_r (be from)) in H1. apply ble_be_app_iff in H1.
    unfold place_le. destruct H1 as [?|[-> _]]; lia.
  - intros (s & -> & Hle & [id Hid]). cbn. rewrite Hid. cbn. rewrite !ble_app. split; [split|].
    + rewrite <- (app_nil_r (be from)). apply ble_be_app_iff. unfold place_le in Hle.
      destruct (decide (uval from = uval s)) as [E|E]; [right; split; [by apply uint_eq|done]|left; lia].
    + apply ble_be_app_iff. pose proof (uval_lt s). rewrite uval_umax.
      destruct (decide (uval s = bound 8 - 1)%N) as [E|E]; [right|left; lia].
      split; [apply uint_eq; by rewrite uval_umax|]. apply (ble_xff _ 17). rewrite length_be. lia.
    + exists id. apply HI. eauto.
Qed.

Lemma places_from_sorted from : StronglySorted place_le (places_from from).
Proof. apply StronglySorted_filter, places_in_line_sorted. Qed.
Lemma places_from_NoDup from : NoDup (places_from from).
Proof. apply NoDup_filter, places_in_line_NoDup. Qed.

Lemma place_entry_sorted l : StronglySorted place_le l → NoDup l →
  StronglySorted bytes_le (fst ∘ place_entry <$> l).
Proof.
  induction 1 as [|s l Hl IH Hs]; intros Hn; [constructor|]. apply NoDup_cons in Hn as [Hns Hn].
  rewrite fmap_cons. constructor; [by apply IH|]. apply Forall_fmap. rewrite Forall_forall in *.
  intros s' Hin. unfold compose, bytes_le. cbn. rewrite ble_app. apply ble_be_app_iff. left.
  pose proof (Hs _ Hin) as Hle. unfold place_le in Hle.
  assert (uval s ≠ uval s') by (intros E%uint_eq; by subst). lia.
Qed.

(** A range from a place on: the entries of the places from there, in order. *)
Lemma range_places from :
  range I (prefix ++ be from) (prefix ++ be (umax : u64) ++ replicate 17 xff) = place_entry <$> places_from from.
Proof.
  assert (∀ s, s ∈ places_from from → I !! (place_entry s).1 = Some (place_entry s).2) as Hs.
  { intros s [_ [id Hid]]%elem_of_places_from. cbn. rewrite Hid. apply HI. eauto. }
  apply range_is.
  - rewrite <- list_fmap_compose. apply place_entry_sorted; [apply places_from_sorted|apply places_from_NoDup].
  - rewrite <- list_fmap_compose. apply NoDup_fmap_2_strong; [|apply places_from_NoDup].
    intros s s' _ _ E. unfold compose in E. cbn in E. apply app_inv_head in E.
    by apply be_app_inj in E as [? _].
  - intros k id. split.
    + intros (s & E & Hin)%list_elem_of_fmap. pose proof (Hs s Hin) as Hi. rewrite <- E in Hi. split; [|done].
      apply (within_places from k). apply list_elem_of_fmap. exists s. split; [|done].
      unfold compose. by rewrite <- E.
    + intros [Hw Hk]. assert (k ∈ fst ∘ place_entry <$> places_from from) as (s & -> & Hin)%list_elem_of_fmap
        by (apply within_places; eauto).
      apply list_elem_of_fmap. exists s. split; [|done]. pose proof (Hs s Hin) as Hi. unfold compose in Hk.
      rewrite Hi in Hk. injection Hk as <-. apply eq_sym, surjective_pairing.
Qed.
End ranged.

Lemma collect_fmap {A B D} (f : B → result D) (g : A → B) (h : A → D) l :
  (∀ a, a ∈ l → f (g a) = Ok (h a)) → collect f (g <$> l) = Ok (h <$> l).
Proof.
  induction l as [|a l IH]; intros H; [done|]. rewrite fmap_cons. cbn [collect].
  rewrite H by by left. cbn [mbind result_bind]. rewrite IH; [done|]. intros. apply H. by right.
Qed.

Section found.
Context {C : Codec} {X : XSecrets} (index : Index) (prefix : bytes) (I : entries) (ids : gmap u64 u128).
Hypothesis HI : holds_places prefix I ids.

Definition id_at (s : u64) : u128 := default (wrap 0) (ids !! s).

Lemma ordered_values_at s : ordered_values index prefix 1 (place_entry prefix ids s) = Ok ([s], id_at s).
Proof.
  unfold ordered_values, place_entry. fold (id_at s).
  assert (firstn (length (prefix ++ be s ++ be (id_at s)) - 16) (prefix ++ be s ++ be (id_at s))
    = prefix ++ be s) as ->.
  { rewrite app_assoc, take_app_le by (rewrite !length_app, !length_be; lia).
    apply take_ge. rewrite !length_app, !length_be. lia. }
  rewrite drop_app_length. rewrite decide_True by (rewrite !length_app, !length_be; lia).
  cbn [seq fmap list_fmap]. rewrite drop_0, take_ge by (rewrite length_be; lia). by rewrite of_be_be.
Qed.

Lemma find_from_places {V : Type} `{IndexScan V} (view : V) (at_ : string * string) (queue : u128)
    (from : u64) (most : N) (found : list (u64 * u128)) :
  index_prefix Runtime at_ [Id queue] = Ok (index, prefix) → length (ix_columns index) = 2%nat →
  (∀ first last most rev l, Store.scan_index_keyed view first last most rev = Ok l →
    l = ranged I first last most rev) →
  find_from view Runtime at_ [Id queue] from most = Ok found →
  found = (λ s, (s, id_at s)) <$> up_to most (places_from ids from).
Proof.
  intros Hp Hlen Hscan E. unfold find_from, find_ordered in E. rewrite Hp in E.
  cbn [mbind result_bind] in E. rewrite Hlen in E. cbn [length Nat.sub] in E.
  rewrite decide_False in E by (cbn; lia).
  assert ((uval (umax : u64) <? uval from)%N = false) as Hle.
  { rewrite uval_umax. apply N.ltb_ge. pose proof (uval_lt from). lia. }
  rewrite Hle in E. cbn [fmap list_fmap concat app Nat.mul Nat.add Nat.sub] in E. rewrite app_nil_r in E.
  destruct (Store.scan_index_keyed view _ _ most false) as [l|e] eqn:El; [|done].
  apply Hscan in El. cbn [mbind result_bind] in E. subst l. unfold ranged in E.
  assert (ble (prefix ++ be from) (prefix ++ be (umax : u64) ++ replicate 17 xff) = true) as Hb.
  { rewrite ble_app, <- (app_nil_r (be from)). apply ble_be_app_iff.
    destruct (decide (from = umax)) as [->|Hne]; [by right|left].
    assert (uval from ≠ uval (umax : u64)) by (intros Eu%uint_eq; done). apply N.ltb_ge in Hle. lia. }
  change (repeat xff 17) with (replicate 17 xff) in E.
  rewrite Hb in E. rewrite (range_places prefix I ids HI), up_to_fmap in E.
  rewrite (collect_fmap _ _ (λ s, ([s], id_at s))) in E by (intros; apply ordered_values_at).
  cbn [mbind result_bind] in E. injection E as <-. rewrite <- list_fmap_compose. done.
Qed.
End found.

(** ** The index of a queue *)

(** Every index of the runtime database's searchable records. *)
Definition runtime_indexes : list (Searched * Index) :=
  s ← [SJourney; SMessage; SHeld; SDead; SFailed];
  match table_named Runtime (searched_table s) with
  | Some table => (λ index, (s, index)) <$> t_indexes table
  | None => []
  end.

(** An entry's first byte says which index it is of. *)
Lemma runtime_index_number s s' i i' :
  (s, i) ∈ runtime_indexes → (s', i') ∈ runtime_indexes →
  byte_of (ix_number i) = byte_of (ix_number i') → s = s' ∧ i = i'.
Proof.
  assert (NoDup ((λ si, byte_of (ix_number si.2)) <$> runtime_indexes)) as Hn
    by (apply (bool_decide_unpack _); by vm_compute).
  intros Hi Hi' E. apply list_elem_of_lookup in Hi as [a Ha]. apply list_elem_of_lookup in Hi' as [b Hb].
  assert (a = b) as <-.
  { eapply NoDup_lookup; [exact Hn|by rewrite list_lookup_fmap, Ha|].
    rewrite list_lookup_fmap, Hb. cbn. by rewrite E. }
  rewrite Ha in Hb. by injection Hb.
Qed.

Lemma runtime_searched kind s : searched_of Runtime kind = Some s →
  s ∈ [SJourney; SMessage; SHeld; SDead; SFailed].
Proof.
  cbn. repeat case_decide; try done; intros [= <-];
    repeat (first [apply elem_of_cons; left; done | apply elem_of_cons; right]).
Qed.

(** A queue's kinds, read by an index of its entries' queue and place. *)
Record paged (K : Kinds) (searched : Searched) (index : Index) : Prop := {
  paged_kind : searched_of Runtime (k_entry K) = Some searched;
  paged_only kind : searched_of Runtime kind = Some searched → kind = k_entry K;
  paged_index : (searched, index) ∈ runtime_indexes;
  paged_columns : ix_columns index = ["queue"; "sequence"]%string;
  paged_whole : ix_only index = None;
  paged_prefix q : index_prefix Runtime (k_table K, k_index K) [Id q] =
    Ok (index, byte_of (ix_number index) :: be q);
}.

Section queue_index.
Context {C : Codec} {CO : CodecOk C} {X : XSecrets}.
Context (K : Kinds) (searched : Searched) (index : Index) (HK : paged K searched index).

(** Each entry of a queue is of the queue and the place it is kept at. *)
Definition rows_placed (R : records) : Prop :=
  ∀ key b, R !! (k_entry K, key) = Some b →
    ∃ q s row id, key = entry_key q s ∧ searched_row searched b = Ok (row, id) ∧
      value_in row "queue" = Some (Id q) ∧ value_in row "sequence" = Some (Count s).

(** What each of a queue's entries is about. *)
Definition entry_ids (Q : Queue) : gmap u64 u128 :=
  omap (λ b, match searched_row searched b with Ok (_, id) => Some id | Err _ => None end) (q_entries Q).

Definition queue_prefix (q : u128) : bytes := byte_of (ix_number index) :: be q.

Lemma queue_entry_key row id q s :
  value_in row "queue" = Some (Id q) → value_in row "sequence" = Some (Count s) →
  index_key index row id = Some (queue_prefix q ++ be s ++ be id).
Proof.
  intros Hq Hs. unfold index_key. rewrite (paged_whole _ _ _ HK), (paged_columns _ _ _ HK).
  cbn [mapM]. rewrite Hq. cbn [mbind option_bind]. rewrite Hs. cbn [mbind option_bind mret option_ret].
  cbn [fmap list_fmap concat encoded]. rewrite app_nil_r. unfold queue_prefix. cbn [app].
  by rewrite <- app_assoc.
Qed.

(** An entry of the index under a queue's prefix is of one of its entries. *)
Lemma entry_of_queue kind key b q k id R :
  rows_placed R → R !! (kind, key) = Some b → (queue_prefix q ++ k, id) ∈ record_entries Runtime kind b →
  kind = k_entry K ∧ ∃ s row, key = entry_key q s ∧ searched_row searched b = Ok (row, id) ∧ k = be s ++ be id.
Proof.
  intros HR Hb Hin. unfold record_entries in Hin.
  destruct (searched_of Runtime kind) as [s'|] eqn:Ek; [|by apply elem_of_nil in Hin].
  destruct (searched_row s' b) as [[row id']|] eqn:Er; cbn [mbind result_bind] in Hin;
    [|by apply elem_of_nil in Hin].
  unfold row_entries in Hin.
  destruct (table_named Runtime (searched_table s')) as [table|] eqn:Et; [|by apply elem_of_nil in Hin].
  cbn [mbind result_bind] in Hin. apply list_elem_of_fmap in Hin as (k' & Ek' & Hin).
  apply pair_equal_spec in Ek' as [<- <-].
  apply list_elem_of_omap in Hin as (index' & Hindex & Hkey).
  assert ((s', index') ∈ runtime_indexes) as Hin'.
  { unfold runtime_indexes. apply list_elem_of_bind. exists s'. rewrite Et. split; [|by eapply runtime_searched].
    apply list_elem_of_fmap. eauto. }
  assert (byte_of (ix_number index') = byte_of (ix_number index)) as Hnum.
  { unfold index_key in Hkey. destruct (match ix_only index' with Some _ => _ | None => _ end); [|done].
    destruct (mapM (value_in row) (ix_columns index')); [|done]. cbn in Hkey. by injection Hkey. }
  destruct (runtime_index_number _ _ _ _ Hin' (paged_index _ _ _ HK) Hnum) as [-> ->].
  apply (paged_only _ _ _ HK) in Ek as ->. split; [done|].
  destruct (HR _ _ Hb) as (q' & s & row' & id'' & -> & Er' & Hq & Hs). rewrite Er in Er'. injection Er' as <- <-.
  rewrite (queue_entry_key row id q' s Hq Hs) in Hkey. unfold queue_prefix in Hkey.
  assert (∀ (a : byte) x y, (a :: x) ++ y = a :: x ++ y) as Hcons by done. rewrite !Hcons in Hkey.
  apply (f_equal (λ o, match o with Some (_ :: l) => l | _ => [] end)) in Hkey.
  cbv beta iota in Hkey. apply be_app_inj in Hkey as [-> <-]. exists s, row. done.
Qed.

Lemma queue_holds_places R I q Q : laid_out Runtime R I → rows_placed R → queue_is K R q Q →
  holds_places (queue_prefix q) I (entry_ids Q).
Proof.
  intros HI HR HQ k id. rewrite (HI _ id). unfold entry_ids. split.
  - intros (kind & key & b & Hb & Hin).
    destruct (entry_of_queue kind key b q k id R HR Hb Hin) as (-> & s & row & -> & Er & ->).
    exists s. split; [|done]. rewrite lookup_omap, <- (is_entries _ _ _ _ HQ), Hb. cbn. by rewrite Er.
  - intros (s & Hs & ->). rewrite lookup_omap, <- (is_entries _ _ _ _ HQ) in Hs.
    destruct (R !! (k_entry K, entry_key q s)) as [b|] eqn:Eb; [|done]. cbn in Hs.
    destruct (searched_row searched b) as [[row id']|] eqn:Er; [|done]. injection Hs as ->.
    destruct (HR _ _ Eb) as (q' & s' & row' & id' & [<- <-]%entry_key_inj & Er' & Hq & Hsq).
    rewrite Er in Er'. injection Er' as <- <-.
    exists (k_entry K), (entry_key q s), b. split; [done|].
    unfold record_entries. rewrite (paged_kind _ _ _ HK), Er. cbn [mbind result_bind]. unfold row_entries.
    pose proof (paged_index _ _ _ HK) as Hi. unfold runtime_indexes in Hi.
    apply list_elem_of_bind in Hi as (s0 & Hi & _).
    destruct (table_named Runtime (searched_table s0)) as [table|] eqn:Et; [|by apply elem_of_nil in Hi].
    apply list_elem_of_fmap in Hi as (i0 & [= <- <-] & Hi). rewrite Et. cbn [mbind result_bind].
    apply list_elem_of_fmap. eexists. split; [done|]. apply list_elem_of_omap. exists index. split; [done|].
    by apply queue_entry_key.
Qed.

(** Each of a queue's entries is about something. *)
Lemma entry_ids_some R q Q s : rows_placed R → queue_is K R q Q →
  is_Some (entry_ids Q !! s) ↔ is_Some (q_entries Q !! s).
Proof.
  intros HR HQ. unfold entry_ids. rewrite lookup_omap, <- (is_entries _ _ _ _ HQ).
  destruct (R !! (k_entry K, entry_key q s)) as [b|] eqn:Eb; [|by split; intros [? ?]]. cbn.
  destruct (HR _ _ Eb) as (? & ? & ? & ? & _ & -> & _). by split; intros _; eexists.
Qed.
Lemma entry_ids_line R q Q : rows_placed R → queue_is K R q Q →
  places_in_line (entry_ids Q) = places_in_line (q_entries Q).
Proof.
  intros HR HQ. apply places_in_line_unique; [apply places_in_line_sorted|apply places_in_line_NoDup|].
  intros s. rewrite elem_of_places_in_line. symmetry. by eapply entry_ids_some.
Qed.
End queue_index.

Ltac solve_paged :=
  split;
  [ done
  | intros kind E; cbn in E; repeat case_decide; first [discriminate E | assumption]
  | apply list_elem_of_In; vm_compute; tauto
  | done | done
  | intros q; done ].
Lemma HOLD_paged : paged HOLD SHeld (Schema.index 20 "held_place" ["queue"; "sequence"]%string).
Proof. solve_paged. Qed.
Lemma FAILED_paged : paged FAILED_KINDS SFailed (Schema.index 22 "failed_message_place" ["queue"; "sequence"]%string).
Proof. solve_paged. Qed.
Lemma DEAD_paged : paged DEAD_KINDS SDead (Schema.index 21 "dead_message_place" ["queue"; "sequence"]%string).
Proof. solve_paged. Qed.

(** ** The theorems *)

Module PageTheorems.
Section theorems.
Context {C : Codec} {CO : CodecOk C} {X : XSecrets} {St : Type} `{RecordStoreOk St}.
Context (K : Kinds) (searched : Searched) (index : Index).
Hypotheses (Ha : kinds_apart K) (HK : paged K searched index).
Implicit Types (store : St) (R : records) (I : entries) (Q : Queue).

Lemma exec_page_entries store R I view q Q l found ids :
  rs_repr store R I → rs_viewed store = Ok view → queue_is K R q Q →
  (∀ s, s ∈ l → is_Some (q_entries Q !! s)) →
  page_entries view K q ((λ s, (s, id_at ids s)) <$> l) = Ok found → found = omap (q_entries Q !!.) l.
Proof.
  intros Hr Hv HQ. revert found. induction l as [|s l IH]; intros found Hl E.
  { by injection E as <-. }
  cbn [fmap list_fmap page_entries] in E. apply bind_Ok in E as (o & Eo & E).
  apply bind_Ok in E as (rest & Er & E). injection E as <-.
  apply (rs_view_get_spec store R I view) in Eo; [|done|apply (apart_entry _ Ha)|done].
  rewrite (is_entries _ _ _ _ HQ) in Eo. destruct (Hl s ltac:(by left)) as [b Hb].
  rewrite Hb in Eo. subst o. cbn. rewrite Hb. f_equal. apply IH; [|exact Er]. intros. apply Hl. by right.
Qed.

(** Every place a queue holds is at its first or after. *)
Lemma line_from_first Q from : queue_wf Q →
  filter (place_le (umaxof from (p_first (q_places Q)))) (places_in_line (q_entries Q)) =
  filter (place_le from) (places_in_line (q_entries Q)).
Proof.
  intros HQ. apply filter_iff_in. intros s Hs. apply elem_of_places_in_line in Hs.
  pose proof (wf_within _ HQ _ Hs). unfold place_le. rewrite uval_umaxof. lia.
Qed.
Lemma line_all_from_first Q : queue_wf Q →
  filter (place_le (p_first (q_places Q))) (places_in_line (q_entries Q)) = places_in_line (q_entries Q).
Proof.
  intros HQ. apply filter_all. intros s Hs. apply elem_of_places_in_line in Hs.
  pose proof (wf_within _ HQ _ Hs). unfold place_le. lia.
Qed.

(** What a read of a page's places finds, from a place on. *)
Lemma placed_from_places store R I view q Q from most found :
  rs_repr store R I → laid_out Runtime R I → rows_placed K searched R → queue_is K R q Q →
  rs_viewed store = Ok view → placed_from view K q from most = Ok found →
  found = (λ s, (s, id_at (entry_ids searched Q) s)) <$>
            up_to most (filter (place_le from) (places_in_line (q_entries Q))).
Proof.
  intros Hr HI HR HQ Hv E. unfold placed_from in E.
  pose proof (find_from_places index (queue_prefix index q) I (entry_ids searched Q)
    (queue_holds_places K searched index HK R I q Q HI HR HQ) view (k_table K, k_index K) q from most found
    (paged_prefix _ _ _ HK q)) as Hf.
  rewrite Hf.
  - unfold places_from. by erewrite entry_ids_line.
  - by rewrite (paged_columns _ _ _ HK).
  - intros. by eapply rs_view_scan_spec.
  - exact E.
Qed.

(** C36. A page of a queue is what it holds, oldest first. Read from a
    store whose index is kept with its records, it finds the queue's places -
    its next, its count, and the first place that holds an entry, its next
    where none does - and, in the order of their places, the first entries it
    holds from the place asked on, as many as were asked for or all of them. *)
Theorem page_reads_in_order store R I q Q (from : u64) (most : u32) (p : Places) (l : list bytes) :
  rs_repr store R I → laid_out Runtime R I → rows_placed K searched R →
  queue_is K R q Q → queue_wf Q →
  page store K q from most = Ok (p, l) →
  p_next p = p_next (q_places Q) ∧ p_count p = p_count (q_places Q) ∧
  p_first p = default (p_next (q_places Q)) (head (places_in_line (q_entries Q))) ∧
  l = omap (q_entries Q !!.)
        (up_to (uval most) (filter (place_le from) (places_in_line (q_entries Q)))).
Proof.
  intros Hr HI HR HQ Hwf E. unfold page in E.
  apply bind_Ok in E as (view & Hv & E). apply bind_Ok in E as (o & Ho & E).
  apply (rs_view_get_spec store R I view) in Ho; [|done|apply (apart_places _ Ha)|done]. subst o.
  rewrite (is_places _ _ _ _ HQ) in E. cbn [mbind result_bind] in E. case_decide as Hc.
  - injection E as <- <-. assert (q_entries Q = ∅) as He.
    { apply map_size_empty_iff. pose proof (wf_count _ Hwf) as Hn. rewrite Hc in Hn.
      change (uval (wrap 0 : u64)) with 0%N in Hn. lia. }
    rewrite He. unfold places_in_line. rewrite map_to_list_empty. cbn.
    split; [done|]. split; [done|]. split; [by apply wf_emptied|]. by destruct (uval most).
  - set (at_ := umaxof from (p_first (q_places Q))) in *.
    apply bind_Ok in E as (found & Hfound & E).
    assert (found = (λ s, (s, id_at (entry_ids searched Q) s)) <$>
      up_to (uval most) (filter (place_le from) (places_in_line (q_entries Q)))) as Hf.
    { destruct (decide (most = wrap 0)) as [Hm|Hm];
        [|rewrite <- (line_from_first Q from Hwf); by eapply placed_from_places].
      injection Hfound as <-. subst most. unfold up_to.
      change (uval (wrap 0 : u32)) with 0%N. by rewrite N.min_0_l. }
    apply bind_Ok in E as (first & Hfirst & E). apply bind_Ok in E as (entries & He & E).
    injection E as <- <-. split; [done|]. split; [done|].
    assert (first = head (places_in_line (q_entries Q))) as ->; [|split; [done|]].
    + assert (∀ one, placed_from view K q (p_first (q_places Q)) 1 = Ok one →
        fst <$> head one = head (places_in_line (q_entries Q))) as Hone.
      { intros one E1. erewrite (placed_from_places store R I view q Q _ _ one) by done.
        rewrite line_all_from_first by done. rewrite <- (head_up_to_one (places_in_line (q_entries Q))).
        by destruct (up_to 1 (places_in_line (q_entries Q))). }
      destruct found as [|[s id] found], (decide (at_ = p_first (q_places Q))) as [Hat|Hat];
        try (apply bind_Ok in Hfirst as (one & E1 & Hfirst); injection Hfirst as <-; by apply Hone).
      injection Hfirst as <-. unfold at_ in Hat.
      rewrite <- (line_from_first Q from Hwf), Hat, line_all_from_first in Hf by done.
      unfold up_to in Hf. destruct (places_in_line (q_entries Q)) as [|s' line]; [by rewrite take_nil in Hf|].
      destruct (N.to_nat _); [done|]. by injection Hf as <- _ _.
    + subst found. eapply exec_page_entries in He; [exact He|done..|].
      intros s Hs. destruct (up_to_prefix (uval most) (filter (place_le from) (places_in_line (q_entries Q)))) as [k Hk].
      assert (s ∈ filter (place_le from) (places_in_line (q_entries Q))) as Hs'.
      { rewrite Hk. apply elem_of_app. by left. }
      apply list_elem_of_filter in Hs' as [_ Hs']. by apply elem_of_places_in_line.
Qed.
End theorems.

#[local] Existing Instance Plain.codec_ok.
#[local] Existing Instances SecretTheorems.two_names SecretTheorems.two_names_ok.

(** One Message held, and its index. *)
Definition example_index : entries := list_to_map (made_of (C := Plain.codec) Runtime HoldTheorems.example_records).
Definition example_store : Ledger.Ledger :=
  {| Ledger.recs := HoldTheorems.example_records; Ledger.idx := example_index |}.
Definition example_page : result (Places * list bytes) :=
  page (C := Plain.codec) example_store HOLD (wrap 1) (wrap 0) (wrap 10).

(** Whether each of the records' entries is placed as it says. *)
Definition placed_as_said (K : Kinds) (searched : Searched) (e : string * bytes * bytes) : bool :=
  let '((kind, key), b) := e in
  if decide (kind = k_entry K) then
    match searched_row (C := Plain.codec) searched b with
    | Ok (row, _) =>
        match value_in row "queue", value_in row "sequence" with
        | Some (Id q), Some (Count s) => bool_decide (key = entry_key q s)
        | _, _ => false
        end
    | Err _ => false
    end
  else true.

Lemma rows_placed_by K searched R : forallb (placed_as_said K searched) (map_to_list R) = true →
  rows_placed (C := Plain.codec) K searched R.
Proof.
  intros H key b Hb. rewrite forallb_forall in H.
  specialize (H ((k_entry K, key), b)). unfold placed_as_said in H. rewrite decide_True in H by done.
  assert (In ((k_entry K, key), b) (map_to_list R)) as Hin by (by apply list_elem_of_In, elem_of_map_to_list).
  specialize (H Hin). destruct (searched_row searched b) as [[row id]|] eqn:Er; [|done].
  destruct (value_in row "queue") as [[| | | |q|]|] eqn:Eq; try done.
  destruct (value_in row "sequence") as [[|s| | | |]|] eqn:Es; try done.
  apply bool_decide_eq_true in H. eauto 10.
Qed.

Lemma page_reads_in_order_witness :
  ∃ p, example_page = Ok (p, [to_bytes (C := Plain.codec) (newly_held HoldTheorems.example_hold (wrap 0))]) ∧
    p_first p = wrap 0.
Proof.
  destruct example_page as [[p l]|e] eqn:E.
  - destruct (page_reads_in_order (C := Plain.codec) HOLD SHeld _ HOLD_apart HOLD_paged example_store
      HoldTheorems.example_records example_index (wrap 1) HoldTheorems.example_queue (wrap 0) (wrap 10) p l)
      as (_ & _ & Hf & Hl).
    + by split.
    + apply made_of_laid_out. apply (bool_decide_unpack _). by vm_compute.
    + apply rows_placed_by. by vm_compute.
    + exact HoldTheorems.example_is.
    + apply placed_at_wf; [apply empty_queue_wf|by vm_compute].
    + exact E.
    + exists p. rewrite Hf, Hl. split; [|by vm_compute]. do 2 f_equal.
  - exfalso. assert (is_ok example_page = true) as Hok by by vm_compute. by rewrite E in Hok.
Defined.
End PageTheorems.
