(* ===== verification/Entries.v ===== *)
(** * The entries of an index, each of one record (src/.src/storage/columns.rs)

    Which table each searchable record is kept in, and of which record, index
    and values each entry [Columns] lays out is: what the reads of [Search] and
    [Parts] are shown from. What an index holds is said of the tables and rows
    alone ([indexed_by]), and shown to be kept by every write of the records. *)

From S2P Require Import Prelude Word Engine Encrypted Store Codec Facts Records Batch Queue Hold.
From S2P Require Import Failed Origin Dead Claim Schema Instance Publication Secrets Row Columns.

(** The table of each searchable record. *)
Definition laid_out_in (s : Searched) : Table :=
  match s with
  | SJourney => runtime_journey_table
  | SMessage => runtime_message_table
  | SHeld => runtime_held_table
  | SDead => runtime_dead_message_table
  | SFailed => runtime_failed_message_table
  | SAudit => audit_audit_table
  | SAuditStream => audit_audit_stream_table
  | SAdministration => administration_administration_table
  | SSecret => administration_secret_table
  end.

Lemma searched_database database kind s : searched_of database kind = Some s →
  table_named database (searched_table s) = Some (laid_out_in s) ∧ t_database (laid_out_in s) = database.
Proof.
  intros H. destruct database; unfold searched_of in H; repeat case_match; try discriminate H;
    injection H as <-; split; by vm_compute.
Qed.

(** ** The entries of an index *)

Definition every_searched : list Searched :=
  [SJourney; SMessage; SHeld; SDead; SFailed; SAudit; SAuditStream; SAdministration; SSecret].
Definition every_index : list (Searched * Index) :=
  s ← every_searched; (λ index, (s, index)) <$> t_indexes (laid_out_in s).

Lemma elem_of_every_index (s : Searched) (index : Index) :
  index ∈ t_indexes (laid_out_in s) → (s, index) ∈ every_index.
Proof.
  intros Hi. apply list_elem_of_bind. exists s. split; [by apply list_elem_of_fmap; eauto|].
  destruct s; repeat (first [apply elem_of_cons; left; done | apply elem_of_cons; right]).
Qed.

(** An entry's first byte says which index of which table it is of. *)
Lemma every_index_number (s s' : Searched) (i i' : Index) :
  i ∈ t_indexes (laid_out_in s) → i' ∈ t_indexes (laid_out_in s') →
  byte_of (ix_number i) = byte_of (ix_number i') → s = s' ∧ i = i'.
Proof.
  assert (NoDup ((λ si, byte_of (ix_number si.2)) <$> every_index)) as Hn
    by (apply (bool_decide_unpack _); by vm_compute).
  intros Hi%elem_of_every_index Hi'%elem_of_every_index E.
  apply list_elem_of_lookup in Hi as [a Ha]. apply list_elem_of_lookup in Hi' as [b Hb].
  assert (a = b) as <-.
  { eapply NoDup_lookup; [exact Hn|by rewrite list_lookup_fmap, Ha|].
    rewrite list_lookup_fmap, Hb. cbn. by rewrite E. }
  rewrite Ha in Hb. by injection Hb.
Qed.

(** The key of the entry of [values] and [id] in the index numbered [n]. *)
Definition entry_key_of (n : byte) (values : list Value) (id : u128) : bytes :=
  n :: concat (encoded <$> values) ++ be id.
Section entries.
Context {C : Codec} {CO : CodecOk C} {X : XSecrets} {XO : XSecretsOk X}.

Lemma elem_of_record_entries (database : Database) (kind : string) (b k : bytes) (id : u128) :
  (k, id) ∈ record_entries database kind b ↔
  ∃ s row index, searched_of database kind = Some s ∧ searched_row s b = Ok (row, id) ∧
    index ∈ t_indexes (laid_out_in s) ∧ index_key index row id = Some k.
Proof.
  unfold record_entries. destruct (searched_of database kind) as [s|] eqn:Es.
  2: { split; [by intros ?%elem_of_nil|]. intros (? & ? & ? & ? & _). done. }
  destruct (searched_row s b) as [[row id']|] eqn:Er; cbn [mbind result_bind].
  2: { split; [by intros ?%elem_of_nil|]. intros (? & ? & ? & [= <-] & E & _). congruence. }
  unfold row_entries. rewrite (proj1 (searched_database _ _ _ Es)). cbn [mbind result_bind].
  rewrite list_elem_of_fmap. split.
  - intros (k' & [= <- <-] & (index & Hi & Hk)%list_elem_of_omap). by exists s, row, index.
  - intros (s' & row' & index & [= <-] & Er' & Hi & Hk). rewrite Er in Er'. injection Er' as <- <-.
    exists k. split; [done|]. apply list_elem_of_omap. eauto.
Qed.

Lemma index_key_some (index : Index) (row : Row) (id : u128) (k : bytes) :
  index_key index row id = Some k ↔
  match ix_only index with Some flag => value_in row flag = Some (Flag true) | None => True end ∧
  ∃ values, mapM (value_in row) (ix_columns index) = Some values ∧
    k = entry_key_of (byte_of (ix_number index)) values id.
Proof.
  unfold index_key, entry_key_of. destruct (ix_only index) as [flag|]; [case_bool_decide as Hb|].
  all: destruct (mapM (value_in row) (ix_columns index)) as [values|]; cbn.
  all: split; [try done|].
  all: try (intros [= <-]; split; [done|]; by exists values).
  all: try (intros (? & values' & [= <-] & ->); done).
  all: intros (? & values' & ? & ?); done.
Qed.
End entries.

(** ** Every row is of its table *)

(** A cell of a column that may hold nothing, where it holds nothing. *)
Definition column_null (t : Table) (name : string) : option bool :=
  cl_null <$> List.find (λ c, bool_decide (cl_name c = name)) (t_columns t).
Definition full_cell (t : Table) (c : string * option Value) : Prop :=
  c.2 = None → column_null t c.1 = Some true.

(** The columns of the row of each searchable record. *)
Definition row_columns (s : Searched) : list string :=
  match s with
  | SJourney => ["created_at"; "updated_at"; "state"; "previous_journey"; "subscription"; "cause_work_process";
      "depth"; "work_process"; "send_port"; "send_location"; "attempts"; "message"; "origin"; "open";
      "group_delivery"; "group_open"]
  | SMessage => ["created_at"; "previous_message"; "generation"; "created_by"; "priority"; "execution_profile";
      "durability"; "size_bytes"; "party"; "contract"; "stream"]
  | SHeld => ["queue"; "sequence"; "held_at"; "failed"; "due_at"]
  | SDead => ["queue"; "sequence"; "stream"; "node"; "receive_location"; "queued_at"]
  | SFailed => ["queue"; "sequence"; "place"; "reason"; "failed_at"]
  | SAudit => ["occurred_at"; "kept_at"; "action"; "phase"; "severity"; "failed"; "message_text"; "program";
      "host"; "process"; "location"; "hidden"; "execution"; "journey"; "message"; "artifact_kind";
      "artifact_name"; "artifact_version"; "node"; "cluster"; "writer"; "position"; "previous_digest";
      "digest"; "body_length"; "body_chunks"; "body_digest"]
  | SAuditStream => ["stream"; "length"; "chunks"; "digest"; "written_at"]
  | SAdministration => ["kind"; "updated_at"]
  | SSecret => ["name"; "kind"; "set_at"; "set_by"]
  end%string.

Section tables.
Context {C : Codec} {CO : CodecOk C} {X : XSecrets} {XO : XSecretsOk X}.

Ltac full_cells :=
  repeat (apply Forall_cons; split; [unfold full_cell; cbn [fst snd];
    first [ by intros [=] | intros _; by vm_compute ] | ]); apply Forall_nil_2.

Lemma searched_full (s : Searched) (b : bytes) (row : Row) (id : u128) :
  searched_row s b = Ok (row, id) →
  row.*1 = row_columns s ∧ Forall (full_cell (laid_out_in s)) row.
Proof.
  intros Hr. destruct s; cbn [searched_row] in *; apply bind_Ok in Hr as (r & _ & Hr); injection Hr as <- _;
    cbn [laid_out_in row_columns]; (split; [reflexivity|full_cells]).
Qed.
End tables.

(** ** What an index holds, said of its tables alone *)

(** A column's value, as an entry has it: a time or a count in eight bytes
    and an identifier in sixteen, the greatest first, a flag in one, and a
    text or bytes after their length in four. *)
Definition column_bytes (v : Value) : bytes :=
  let after_length (b : bytes) : bytes :=
    be (wrap (N.min (N.of_nat (length b)) (2 ^ 32 - 1)) : u32) ++ b in
  match v with
  | Time n | Count n => be n
  | Flag true => [x01]
  | Flag false => [x00]
  | Text text => after_length (String.list_byte_of_string text)
  | Bytes value => after_length value
  | Id id => be id
  end.

Lemma encoded_bytes v : encoded v = column_bytes v.
Proof.
  assert (∀ b : bytes, (clamp (N.of_nat (length b)) : u32) = wrap (N.min (N.of_nat (length b)) (2 ^ 32 - 1))) as Hl.
  { intros b. apply uint_eq. rewrite uval_clamp, uval_wrap_small; unfold bound; cbn [N.of_nat]; lia. }
  destruct v as [| |[]| | |]; try done; unfold encoded, length_counted; by rewrite Hl.
Qed.

Section said.
Context {C : Codec} {CO : CodecOk C} {X : XSecrets} {XO : XSecretsOk X} (database : Database).

(** The entry [k] is one of the record [b], and finds [id]. *)
Definition entry_of (kind : string) (b k : bytes) (id : u128) : Prop :=
  ∃ s row index values, searched_of database kind = Some s ∧ searched_row s b = Ok (row, id) ∧
    index ∈ t_indexes (laid_out_in s) ∧
    (∀ flag, ix_only index = Some flag → (flag, Some (Flag true)) ∈ row) ∧
    Forall2 (λ column v, (column, Some v) ∈ row) (ix_columns index) values ∧
    k = byte_of (ix_number index) :: concat (column_bytes <$> values) ++ be id.

(** The index holds each entry of each record, and no other. *)
Definition indexed_by (R : records) (I : entries) : Prop :=
  ∀ k id, I !! k = Some id ↔ ∃ kind key b, R !! (kind, key) = Some b ∧ entry_of kind b k id.

(** No two records have an entry in common. *)
Definition entries_apart (R : records) : Prop :=
  ∀ kind key b kind' key' b' k id id', R !! (kind, key) = Some b → R !! (kind', key') = Some b' →
    entry_of kind b k id → entry_of kind' b' k id' → (kind, key) = (kind', key').

Lemma value_in_elem row column v : NoDup row.*1 → value_in row column = Some v ↔ (column, Some v) ∈ row.
Proof.
  induction row as [|[c o] row IH]; cbn [fmap list_fmap fst]; [intros _; split; [done|by intros ?%elem_of_nil]|].
  intros [Hc Hn]%NoDup_cons. unfold value_in in *. cbn [List.find fst]. rewrite elem_of_cons.
  case_bool_decide as Hd.
  - subst c. split; [intros ->; by left|]. intros [[= <-]|Hin]; [done|].
    destruct Hc. apply list_elem_of_fmap. by exists (column, Some v).
  - rewrite IH by done. split; [by right|]. intros [[= -> _]|Hin]; done.
Qed.

Lemma entry_of_record kind b k id : (k, id) ∈ record_entries database kind b ↔ entry_of kind b k id.
Proof.
  rewrite elem_of_record_entries. unfold entry_of.
  assert (∀ s row, searched_row s b = Ok (row, id) → NoDup row.*1) as Hn.
  { intros s row Hr. destruct (searched_full s b row id Hr) as [-> _].
    destruct s; apply (bool_decide_unpack _); by vm_compute. }
  assert (∀ row columns values, NoDup row.*1 →
    mapM (value_in row) columns = Some values ↔ Forall2 (λ column v, (column, Some v) ∈ row) columns values) as Hm.
  { intros row columns values Hrow. rewrite mapM_Some.
    split; intros H; (eapply Forall2_impl; [exact H|]); intros; by apply value_in_elem. }
  split.
  - intros (s & row & index & Hs & Hr & Hi & (Ho & values & Hv & ->)%index_key_some).
    exists s, row, index, values. repeat split; [done..| | |].
    + intros flag Ef. rewrite Ef in Ho. by apply value_in_elem; [eapply Hn|].
    + by apply Hm; [eapply Hn|].
    + unfold entry_key_of. by erewrite (list_fmap_ext encoded column_bytes) by (intros; apply encoded_bytes).
  - intros (s & row & index & values & Hs & Hr & Hi & Ho & Hv & ->). exists s, row, index.
    repeat split; [done..|]. apply index_key_some. split.
    + destruct (ix_only index) as [flag|]; [|done]. by apply value_in_elem; [eapply Hn|apply Ho].
    + exists values. split; [by apply Hm; [eapply Hn|]|].
      unfold entry_key_of. by erewrite (list_fmap_ext encoded column_bytes) by (intros; apply encoded_bytes).
Qed.

Lemma laid_out_indexed R I : laid_out database R I ↔ indexed_by R I.
Proof. unfold laid_out, indexed_by. by setoid_rewrite entry_of_record. Qed.

Lemma apart_entries R : apart database R ↔ entries_apart R.
Proof.
  unfold apart, entries_apart. setoid_rewrite list_elem_of_fmap. split.
  - intros H kind key b kind' key' b' k id id' Hb Hb' Hk Hk'. apply (H kind key b kind' key' b' k Hb Hb').
    + exists (k, id). split; [done|]. by apply entry_of_record.
    + exists (k, id'). split; [done|]. by apply entry_of_record.
  - intros H kind key b kind' key' b' k Hb Hb' ([k1 id] & -> & Hk%entry_of_record) ([k2 id'] & E & Hk'%entry_of_record).
    cbn in E, Hk. subst k2. by eapply H.
Qed.

Lemma all_apart_firstn R changes :
  (∀ n, entries_apart (recorded R (firstn n changes))) → all_apart database R changes.
Proof.
  revert R. induction changes as [|c changes IH]; intros R H; cbn [all_apart].
  - split; [|done]. apply apart_entries. exact (H 0%nat).
  - split; [apply apart_entries; exact (H 0%nat)|]. apply IH. intros n. exact (H (S n)).
Qed.
End said.

(** ** The theorems *)

Module EntriesTheorems.
Section theorems.
Context {C : Codec} {CO : CodecOk C} {X : XSecrets} {XO : XSecretsOk X}.
Context {St : Type} `{RecordStoreOk St}.

(** C10. The indexes are kept with the records. A write's records are
    written as they were decided, each stamped where it is searchable; and
    whatever it makes, replaces and removes in one database - the same record
    more than once among them - the index it leaves holds, for each record as
    it is then and each index of its table the record belongs in, the entry
    of the index's number, its columns' values in order and the record's
    identifier, which finds that identifier, and nothing else. So as long as
    it did before, and as no two records have an entry in common after any of
    the changes. *)
Theorem index_kept_with_records (store store' : St) (R : records) (I : entries) (database : Database)
    (changes written : list RecordChange) (es : list IndexEntry) (now : u64) :
  rs_repr store R I → indexed_by database R I →
  kinds_ok changes → kinds_ok written → Forall (change_fits database) changes →
  columns_written store database changes now = Ok (written, es) →
  (∀ n, entries_apart database (recorded R (firstn n written))) →
  rs_apply_indexed store written es = Ok store' →
  Forall2 (change_stamped database now) changes written ∧
  ∃ I', rs_repr store' (recorded R written) I' ∧ indexed_by database (recorded R written) I'.
Proof.
  intros Hr HI Hok Hokw Hf E Ha Es. split; [by eapply columns_written_stamped|].
  eexists. split; [by eapply rs_apply_indexed_spec|].
  apply laid_out_indexed. apply laid_out_indexed in HI.
  apply (columns_written_laid_out store R I database changes written es now); [done..|].
  by apply all_apart_firstn.
Qed.
End theorems.

#[local] Existing Instance Plain.codec_ok.
#[local] Existing Instances SecretTheorems.two_names SecretTheorems.two_names_ok.

Definition example_write : list RecordChange :=
  [(JOURNEY, be (wrap 7 : u128), Some (to_bytes (C := Plain.codec) (Examples.journey 7)));
   (MESSAGE, be (wrap 20 : u128), None)].
Definition example_layout : result (list RecordChange * list IndexEntry) :=
  columns_written (C := Plain.codec) {| Ledger.recs := ∅; Ledger.idx := ∅ |} Runtime example_write (wrap 50).

(** A store of one record is apart. *)
Lemma apart_one (R : records) : (∀ p p', is_Some (R !! p) → is_Some (R !! p') → p = p') →
  entries_apart (C := Plain.codec) Runtime R.
Proof. intros H kind key b kind' key' b' k id id' Hb Hb' _ _. by apply H. Qed.

Lemma index_kept_with_records_witness :
  ∃ written es, example_layout = Ok (written, es) ∧
    indexed_by (C := Plain.codec) Runtime (recorded ∅ written) (changed ∅ es).
Proof.
  assert (∃ written es, example_layout = Ok (written, es) ∧
    map (λ c, c.1) written = map (λ c, c.1) example_write ∧ map (λ c, is_some c.2) written = [true; false])
    as (written & es & E & Hp & Hv).
  { unfold example_layout. destruct (columns_written _ _ _ _) as [[w e]|e] eqn:E.
    - exists w, e. split; [done|].
      assert (option_map (λ '(w, _), (map (λ c : RecordChange, c.1) w, map (λ c : RecordChange, is_some c.2) w))
        match columns_written (C := Plain.codec) {| Ledger.recs := ∅; Ledger.idx := ∅ |} Runtime example_write (wrap 50)
        with Ok p => Some p | Err _ => None end
        = Some (map (λ c : RecordChange, c.1) example_write, [true; false])) as Hc by by vm_compute.
      rewrite E in Hc. cbn in Hc. by injection Hc.
    - assert (is_ok (columns_written (C := Plain.codec) {| Ledger.recs := ∅; Ledger.idx := ∅ |} Runtime
        example_write (wrap 50)) = true) as Hc by by vm_compute.
      by rewrite E in Hc. }
  exists written, es. split; [done|].
  destruct written as [|[p1 [v1|]] [|[p2 [v2|]] [|]]]; try done. cbn in Hp. injection Hp as -> ->.
  edestruct (index_kept_with_records (C := Plain.codec) (St := Ledger.Ledger)
    {| Ledger.recs := ∅; Ledger.idx := ∅ |}
    (Ledger.write {| Ledger.recs := ∅; Ledger.idx := ∅ |}
      [(JOURNEY, be (wrap 7 : u128), Some v1); (MESSAGE, be (wrap 20 : u128), None)] es)
    ∅ ∅ Runtime example_write) as (_ & I' & [HR HI] & Hl);
    [by split|..|exact E| |done|].
  - intros k id. rewrite lookup_empty. split; [done|].
    intros (? & ? & ? & Hb & _). by rewrite lookup_empty in Hb.
  - apply (bool_decide_unpack _). by vm_compute.
  - apply (bool_decide_unpack _). by vm_compute.
  - repeat constructor.
    + intros searched b [= <-] [= <-]. exists (Examples.journey 7). split; [by vm_compute|done].
    + by intros searched b _ [=].
  - intros [|[|n]]; apply apart_one; cbn; intros p p'.
    + rewrite lookup_empty. by intros [? [=]].
    + intros [? [[<- _]|[_ Hx]]%lookup_insert_Some]; [|by rewrite lookup_empty in Hx].
      intros [? [[<- _]|[_ Hx]]%lookup_insert_Some]; [done|by rewrite lookup_empty in Hx].
    + rewrite firstn_nil. cbn. rewrite delete_id by (rewrite lookup_insert_ne by (by intros [=]); apply lookup_empty).
      intros [? [[<- _]|[_ Hx]]%lookup_insert_Some]; [|by rewrite lookup_empty in Hx].
      intros [? [[<- _]|[_ Hx]]%lookup_insert_Some]; [done|by rewrite lookup_empty in Hx].
  - cbn in HI. subst. exact Hl.
Defined.
End EntriesTheorems.
