(* ===== verification/Due.v ===== *)
(** * A Send Port's queue read by when each Message in it is due
    (src/.src/storage/due.rs)

    One index orders a queue's entries by whether they failed, when each is
    due and its place; where the first of each part is, is kept with the
    queue by the one writer, so a read starts there. *)

From S2P Require Import Prelude Word Engine Encrypted Store Codec Facts Records Batch Queue Hold.
From S2P Require Import Failed Origin Dead Claim Secrets Schema Row Columns Page.
From stdpp Require Import pretty.

Definition DUE_PLACES : string := "held-due-places".
Definition DUE : string * string := ("held", "held_due")%string.

(** ** The data *)

Inductive DuePart : Set := DueNow | Waiting | DueFailed.
Record DueQueue : Set := {
  du_held : list Held;
  du_retrying : u64;
  du_next_due_unix_nanos : option i128;
  du_read_unix_nanos : i128;
}.
Record DuePlaces : Set := { dp_fresh : u64; dp_retry : u64 * u64; dp_retrying : u64 }.

#[export] Instance DuePlaces_eq_dec : EqDecision DuePlaces.
Proof. solve_decision. Defined.

(** [DuePlaces::default] and [NO_RETRY]. *)
Definition no_due_places : DuePlaces :=
  {| dp_fresh := wrap 0; dp_retry := (wrap 1, wrap 0); dp_retrying := wrap 0 |}.
Definition NO_RETRY : u64 * u64 := (umax, umax).

(** The order of a due time and a place. *)
Definition at_lt (x y : u64 * u64) : bool :=
  (uval x.1 <? uval y.1)%N || (bool_decide (x.1 = y.1) && (uval x.2 <? uval y.2)%N).
Definition at_le (x y : u64 * u64) : bool := negb (at_lt y x).
Definition at_max (x y : u64 * u64) : u64 * u64 := if at_lt x y then y else x.
Definition at_min (x y : u64 * u64) : u64 * u64 := if at_lt y x then y else x.

(** [DueQueue::due_in], [DueQueue::next_due_in] and [DueQueue::after]. *)
Definition due_queue_due_in (d : DueQueue) (held : Held) : option u64 := due_in held (du_read_unix_nanos d).
Definition next_due_in (d : DueQueue) : option u64 :=
  next ← du_next_due_unix_nanos d;
  Some (default (wrap 0) (u64_of_i128 (i128_sub next (du_read_unix_nanos d)))).
Definition after (held : Held) : u64 * u64 := (due_at held, sat_add (hd_sequence held) 1).

(** ** Their forms *)

Section forms.
Context {C : Codec}.

Definition write_DuePlaces (p : DuePlaces) : bytes :=
  w_u64 (dp_fresh p) ++ w_u64 (dp_retry p).1 ++ w_u64 (dp_retry p).2 ++ w_u64 (dp_retrying p).
Definition read_DuePlaces : rd DuePlaces :=
  fresh ← r_u64; due ← r_u64; place ← r_u64; retrying ← r_u64;
  mret {| dp_fresh := fresh; dp_retry := (due, place); dp_retrying := retrying |}.
#[export] Instance DuePlaces_form : Form DuePlaces := { write := write_DuePlaces; fread := read_DuePlaces }.

Definition write_DuePart (p : DuePart) : bytes :=
  w_byte match p with DueNow => x00 | Waiting => x01 | DueFailed => x02 end.
Definition read_DuePart : rd DuePart :=
  n ← r_byte;
  match n with
  | x00 => mret DueNow
  | x01 => mret Waiting
  | x02 => mret DueFailed
  | other => rd_err (CodecErr ("no part of a queue is numbered " +:+ pretty (Byte.to_N other)))
  end.
#[export] Instance DuePart_form : Form DuePart := { write := write_DuePart; fread := read_DuePart }.

Definition write_DueQueue (d : DueQueue) : bytes :=
  w_vec write (du_held d) ++ w_u64 (du_retrying d) ++ w_flag (is_some (du_next_due_unix_nanos d)) ++
  w_i128 (default (i128_clamp 0) (du_next_due_unix_nanos d)) ++ w_i128 (du_read_unix_nanos d).
Definition read_DueQueue : rd DueQueue :=
  held ← r_vec fread; retrying ← r_u64; waits ← r_flag; due ← r_i128; read ← r_i128;
  mret {| du_held := held; du_retrying := retrying;
          du_next_due_unix_nanos := if waits : bool then Some due else None;
          du_read_unix_nanos := read |}.
#[export] Instance DueQueue_form : Form DueQueue := { write := write_DueQueue; fread := read_DueQueue }.
End forms.

#[export] Instance DuePlaces_fits : Fits DuePlaces := λ _, True.
#[export] Instance DuePart_fits : Fits DuePart := λ _, True.
#[export] Instance DueQueue_fits : Fits DueQueue := λ d, counts (du_held d) ∧ Forall fits (du_held d).

Section roundtrips.
Context {C : Codec} {CO : CodecOk C}.

#[export] Instance DuePlaces_ok : FormOk DuePlaces.
Proof.
  intros p l _. cbn [write fread DuePlaces_form]. unfold write_DuePlaces, read_DuePlaces. roundtrip.
  by destruct p as [? [] ?].
Qed.
#[export] Instance DuePart_ok : FormOk DuePart.
Proof.
  intros p l _. cbn [write fread DuePart_form]. unfold write_DuePart, read_DuePart.
  destruct p; roundtrip.
Qed.
#[export] Instance DueQueue_ok : FormOk DueQueue.
Proof.
  intros d l [? ?]. cbn [write fread DueQueue_form]. unfold write_DueQueue, read_DueQueue.
  destruct d as [held retrying [due|] read]; cbn [du_held du_retrying du_next_due_unix_nanos du_read_unix_nanos
    is_some default] in *; roundtrip.
Qed.
End roundtrips.

(** ** Reading *)

Section operations.
Context {C : Codec} {X : XSecrets} {St : Type} `{RecordStore St} (store : St).

(** One entry of the index as [region] reads it. *)
Definition due_and_place (found : list u64 * u128) : result (u64 * u64) :=
  match found.1 with
  | [due; place] => Ok (due, place)
  | _ => Err (malformed "a held_due entry that is not a due time and a place")
  end.

(** [region]. *)
Definition region (queue : u128) (failed : bool) (from : u64 * u64) (to : u64) (most : N) :
    result (list (u64 * u64)) :=
  found ← find_ordered store Runtime DUE [Id queue; Flag failed] [from.1; from.2] to most;
  collect due_and_place found.

(** [kept]'s bytes, whichever read found them. *)
Definition due_places_of (o : option bytes) : result DuePlaces :=
  match o with None => Ok no_due_places | Some bytes => into (from_bytes bytes) end.

(** Each entry a read found, as it is held now. *)
Fixpoint held_at_places (queue : u128) (found : list (u64 * u64)) : result (list Held) :=
  match found with
  | [] => Ok []
  | (_, place) :: found =>
      o ← rs_get store HELD (entry_key queue place);
      held ← match o with
             | Some bytes => held ← into (from_bytes bytes : cres Held); Ok [held]
             | None => Ok []
             end;
      rest ← held_at_places queue found;
      Ok ((held : list Held) ++ rest)
  end.

(** [read]. *)
Definition read_due (queue : u128) (part : DuePart) (from : u64 * u64) (most : u32) (now : i128) :
    result DueQueue :=
  o ← rs_get store DUE_PLACES (places_key queue);
  places ← due_places_of o;
  let at_ := nanos now in
  let most := uval most in
  let later := at_max (sat_add at_ 1, wrap 0) (dp_retry places) in
  found ← match part with
          | DueNow =>
              found ← (if decide (from.1 = wrap 0)
                       then region queue false (wrap 0, umaxof from.2 (dp_fresh places)) (wrap 0) most
                       else Ok []);
              let start := at_max from (dp_retry places) in
              if ((N.of_nat (length (found : list (u64 * u64))) <? most)%N &&
                  (uval start.1 <=? uval at_)%N)
              then
                rest ← region queue false start at_ (most - N.of_nat (length (found : list (u64 * u64))));
                Ok (found ++ rest)
              else Ok found
          | Waiting => region queue false (at_max from later) umax most
          | DueFailed => region queue true from umax most
          end;
  next ← region queue false later umax 1;
  held ← held_at_places queue found;
  Ok {| du_held := held; du_retrying := dp_retrying places;
        du_next_due_unix_nanos :=
          (λ '(due, _), i128_clamp (Z.of_N (uval (due : u64)))) <$> head (next : list (u64 * u64));
        du_read_unix_nanos := now |}.

(** ** Settling: each queue's first found again *)

(** What a batch does that reads it, and changes it, as it goes. *)
Definition on_batch (A : Type) : Type := Batch → Batch * result A.
#[export] Instance on_batch_ret : MRet on_batch := λ A a b, (b, Ok a).
#[export] Instance on_batch_bind : MBind on_batch := λ A B f m b,
  match m b with (b, Ok a) => f a b | (b, Err e) => (b, Err e) end.
Definition of_result {A} (r : result A) : on_batch A := λ b, (b, r).
Definition reading (kind : string) (key : bytes) : on_batch (option bytes) := λ b, Batch.read store b kind key.
Definition reading_before (kind : string) (key : bytes) : on_batch (option bytes) :=
  λ b, Batch.before store b kind key.
Definition putting (kind : string) (key : bytes) (value : option bytes) : on_batch unit :=
  λ b, (Batch.put b kind key value, Ok tt).

(** [retries]. *)
Definition retries (held : option Held) : N :=
  match held with
  | Some held => if is_some (hd_due_unix_nanos held) && negb (hd_failed held) then 1 else 0
  | None => 0
  end.

(** [untouched]. *)
Definition untouched (queue : u128) (from : u64 * u64) (to : u64) (most : N) (touched : list u64) :
    result (option (u64 * u64)) :=
  found ← region queue false from to most;
  Ok (List.find (λ '(_, place), bool_decide (place ∉ touched)) (found : list (u64 * u64))).

(** The first of what one says and another, where either does. *)
Definition first_of {A} (le : A → A → A) (x y : option A) : option A :=
  match x, y with
  | Some x, Some y => Some (le x y)
  | Some x, None => Some x
  | None, y => y
  end.

(** One held Message a batch wrote of a queue, and what it changes of where
    the queue's first is: how many retry, and the first the batch wrote. *)
Fixpoint settle_written (queue : u128) (written : list (u64 * option bytes)) (retrying : u64)
    (fresh : option u64) (retry : option (u64 * u64)) :
    on_batch (u64 * option u64 * option (u64 * u64)) :=
  match written with
  | [] => mret (retrying, fresh, retry)
  | (place, value) :: written =>
      old ← reading_before HELD (entry_key queue place);
      old ← of_result (transpose ((λ b, into (from_bytes b : cres Held)) <$> old));
      new ← of_result (transpose ((λ b, into (from_bytes b : cres Held)) <$> value));
      let retrying := sat_sub (wadd retrying (retries new)) (retries old) in
      match new with
      | Some held =>
          if hd_failed held then settle_written queue written retrying fresh retry
          else if decide (due_at held = wrap 0)
          then settle_written queue written retrying (first_of uminof fresh (Some place)) retry
          else settle_written queue written retrying fresh (first_of at_min retry (Some (due_at held, place)))
      | None => settle_written queue written retrying fresh retry
      end
  end.

(** One queue of [settle]. *)
Definition settle_queue (queue : u128) (written : list (u64 * option bytes)) : on_batch unit :=
  o ← reading DUE_PLACES (places_key queue);
  before ← of_result (due_places_of o);
  found ← settle_written queue written (dp_retrying before) None None;
  let '(retrying, fresh, retry) := (found : u64 * option u64 * option (u64 * u64)) in
  let touched := written.*1 in
  let most := N.of_nat (length touched + 1) in
  kept_fresh ← (if match fresh with Some first => (uval first <=? uval (dp_fresh before))%N | None => false end
                then mret None
                else of_result (untouched queue (wrap 0, dp_fresh before) (wrap 0) most touched));
  fresh ← match first_of uminof (snd <$> (kept_fresh : option (u64 * u64))) fresh with
          | Some first => mret first
          | None =>
              o ← reading (k_places HOLD) (places_key queue);
              places ← of_result (places_of o);
              mret (p_next places)
          end;
  kept_retry ← (if bool_decide (dp_retry before = NO_RETRY) ||
                   match retry with Some first => at_le first (dp_retry before) | None => false end
                then mret None
                else of_result (untouched queue (dp_retry before) umax most touched));
  let places := {| dp_fresh := fresh;
                   dp_retry := default NO_RETRY (first_of at_min kept_retry retry);
                   dp_retrying := retrying |} in
  if decide (places = before) then mret tt
  else putting DUE_PLACES (places_key queue) (Some (to_bytes places)).

(** The queues a batch wrote a held Message of, and what it wrote of each. *)
Definition written_queues (written : list (bytes * option bytes)) :
    gmap u128 (list (u64 * option bytes)) :=
  foldl (λ queues '(key, value),
    if decide (24 ≤ length key)%nat then
      let queue := of_be (firstn 16 key) in
      <[queue := default [] (queues !! queue) ++ [(of_be (firstn 8 (drop 16 key)), value)]]> queues
    else queues) ∅ written.

Definition id_le {A} (x y : u128 * A) : Prop := (uval x.1 ≤ uval y.1)%N.
#[local] Instance id_le_dec {A} : RelDecision (@id_le A).
Proof. intros x y. unfold id_le. apply _. Defined.

Fixpoint settle_each (queues : list (u128 * list (u64 * option bytes))) : on_batch unit :=
  match queues with
  | [] => mret tt
  | (queue, written) :: queues => settle_queue queue written;; settle_each queues
  end.

(** [settle]. *)
Definition settle : on_batch unit := λ b,
  settle_each (merge_sort id_le (map_to_list (written_queues (written_of b HELD)))) b.
End operations.

(** ** What settling leaves alone *)

(** A batch that wrote nothing settles nothing. *)
Lemma settle_nothing {C : Codec} {X : XSecrets} {St : Type} `{RecordStore St} (store : St) b :
  written b = ∅ → settle store b = (b, Ok tt).
Proof.
  intros E. unfold settle, written_of. rewrite E, map_to_list_empty. cbn [omap list_omap].
  unfold written_queues. cbn [foldl]. by rewrite map_to_list_empty.
Qed.

(** Nothing but where each queue's first due are. *)
Record settled {St : Type} `{RecordStore St} (R : records) (b b' : Batch) : Prop := {
  settled_wf : wf R b';
  settled_grows : grows b b';
  settled_over : over b b';
  settled_view kind key : kind ≠ DUE_PLACES → view R b' !! (kind, key) = view R b !! (kind, key);
}.

Section settling.
Context {C : Codec} {X : XSecrets} {St : Type} `{RecordStore St} (store : St) (R : records).
Hypothesis get_ok : ∀ kind key o, kind_ok kind →
  rs_get store kind key = Ok o → o = R !! (kind, key).

Definition settling {A} (m : on_batch A) : Prop :=
  ∀ b b' r, wf R b → m b = (b', r) → settled R b b'.

Lemma settled_of_same b b' : wf R b' → same b b' → settled R b b'.
Proof.
  intros Hw Hs. split; [done|by apply grows_same, same_changes|by apply same_over|]. intros kind key _.
  by rewrite (same_view R _ _ Hs).
Qed.

Lemma settling_ret {A} (a : A) : settling (mret a).
Proof. intros b b' r Hw [= <- <-]. by apply settled_of_same; [|apply same_refl]. Qed.
Lemma settling_of_result {A} (r : result A) : settling (of_result r).
Proof. intros b b' r' Hw [= <- <-]. by apply settled_of_same; [|apply same_refl]. Qed.
Lemma settling_reading kind key : kind_ok kind → settling (reading store kind key).
Proof. intros Hk b b' r Hw E. destruct (read_spec store R get_ok _ _ _ _ _ Hw Hk E) as (? & ? & _). by apply settled_of_same. Qed.
Lemma settling_before kind key : kind_ok kind → settling (reading_before store kind key).
Proof. intros Hk b b' r Hw E. destruct (before_spec store R get_ok _ _ _ _ _ Hw Hk E) as (? & ? & _). by apply settled_of_same. Qed.
Lemma settling_putting key value : settling (putting DUE_PLACES key value).
Proof.
  intros b b' r Hw [= <- <-]. split; [by apply wf_put|apply grows_put; by apply (bool_decide_unpack _); vm_compute|by apply over_put|].
  intros kind key' Hk. rewrite view_put, record_changed_at. rewrite decide_False; [done|]. by intros [= ->].
Qed.
Lemma settling_bind {A B} (m : on_batch A) (f : A → on_batch B) :
  settling m → (∀ a, settling (f a)) → settling (m ≫= f).
Proof.
  intros Hm Hf b b' r Hw. unfold mbind, on_batch_bind. destruct (m b) as [b1 [a|e]] eqn:E.
  - intros E'. destruct (Hm _ _ _ Hw E) as [Hw1 Hg1 Ho1 Hv1]. destruct (Hf _ _ _ _ Hw1 E') as [Hw2 Hg2 Ho2 Hv2].
    split; [done|by eapply grows_trans|by eapply over_trans|]. intros. rewrite Hv2 by done. auto.
  - intros [= <- <-]. by eapply Hm.
Qed.

Ltac settle_walk :=
  repeat first
    [ match goal with H : context [settling] |- _ => solve [simple apply H] end
    | apply settling_ret | apply settling_of_result | apply settling_putting
    | apply settling_reading; solve [apply (bool_decide_unpack _); vm_compute; exact I]
    | apply settling_before; solve [apply (bool_decide_unpack _); vm_compute; exact I]
    | apply settling_bind; [|intros ?]
    | progress cbv beta iota zeta
    | match goal with |- settling (match ?x with _ => _ end) => destruct x end ].

Lemma settle_settled b b' r : wf R b → settle store b = (b', r) → settled R b b'.
Proof.
  assert (∀ queue written retrying fresh retry, settling (settle_written store queue written retrying fresh retry)) as Hw.
  { intros queue written. induction written as [|[place value] written IH]; intros; cbn [settle_written]; settle_walk. }
  assert (∀ queue written, settling (settle_queue store queue written)) as Hq.
  { intros. unfold settle_queue. settle_walk. }
  assert (∀ queues, settling (settle_each store queues)) as He.
  { induction queues as [|[queue written] queues IH]; cbn [settle_each]; settle_walk. }
  intros. unfold settle in *. by eapply He.
Qed.
End settling.
