(* ===== verification/Parts.v ===== *)
(** * Each part of a queue, first to last (src/.src/storage/due.rs)

    What a read of what is due, of what waits or of what failed finds of a
    queue's held Messages, and that settling keeps where the first of each
    part is: so a read may start there. *)

From S2P Require Import Prelude Word Engine Encrypted Store Codec Facts Records Batch Queue Hold.
From S2P Require Import Failed Origin Dead Claim Schema Secrets Row Columns Page Entries Due.

(** ** The order of due times and places *)

Definition rank (p : u64 * u64) : N := (uval p.1 * 2 ^ 64 + uval p.2)%N.
Definition rank_le (p p' : u64 * u64) : Prop := (rank p ≤ rank p')%N.
#[export] Instance rank_le_dec : RelDecision rank_le.
Proof. intros p p'. unfold rank_le. apply _. Defined.

Lemma uval_lt_64 (n : u64) : (uval n < 2 ^ 64)%N.
Proof. exact (uval_lt n). Qed.

Lemma rank_inj p p' : rank p = rank p' → p = p'.
Proof.
  destruct p as [d s], p' as [d' s']. unfold rank. cbn [fst snd]. intros E.
  pose proof (uval_lt_64 s). pose proof (uval_lt_64 s').
  f_equal; apply uint_eq; lia.
Qed.
#[export] Instance rank_le_total : Total rank_le.
Proof. intros p p'. unfold rank_le. lia. Qed.
#[export] Instance rank_le_trans : Transitive rank_le.
Proof. intros p p' p'' ? ?. unfold rank_le in *. lia. Qed.
#[export] Instance rank_le_antisymm : AntiSymm (=) rank_le.
Proof. intros p p' ? ?. unfold rank_le in *. apply rank_inj. lia. Qed.

Lemma at_lt_rank p p' : at_lt p p' = true ↔ (rank p < rank p')%N.
Proof.
  destruct p as [d s], p' as [d' s']. unfold at_lt, rank. cbn [fst snd].
  pose proof (uval_lt_64 s). pose proof (uval_lt_64 s').
  rewrite orb_true_iff, andb_true_iff, !N.ltb_lt, bool_decide_eq_true. split.
  - intros [?|[-> ?]]; lia.
  - intros ?. destruct (decide (uval d = uval d')) as [E|E]; [right|left; lia].
    apply uint_eq in E as ->. split; [done|lia].
Qed.
Lemma rank_at_max p p' : rank (at_max p p') = N.max (rank p) (rank p').
Proof.
  unfold at_max. destruct (at_lt p p') eqn:E; [apply at_lt_rank in E; lia|].
  assert (¬ (rank p < rank p')%N) by (rewrite <- at_lt_rank; by rewrite E). lia.
Qed.

Lemma ble_ranked (p p' : u64 * u64) (x y : bytes) :
  ble (be p.1 ++ be p.2 ++ x) (be p'.1 ++ be p'.2 ++ y) = true ↔
  (rank p < rank p')%N ∨ (p = p' ∧ ble x y = true).
Proof.
  destruct p as [d s], p' as [d' s']. unfold rank. cbn [fst snd]. rewrite !ble_be_app_iff.
  pose proof (uval_lt_64 s). pose proof (uval_lt_64 s'). split.
  - intros [?|[-> [?|[-> ?]]]]; [left; lia..|by right].
  - intros [?|[[= -> ->] ?]]; [|by right; split; [|right]].
    destruct (decide (uval d = uval d')) as [E|E]; [|left; lia]. apply uint_eq in E as ->.
    right. split; [done|]. left. lia.
Qed.

(** ** A queue's held Messages, in that order *)

(** When a Message held is due, and its place. *)
Definition at_place (s : u64) (h : Held) : u64 * u64 := (due_at h, s).

(** Those that failed, or those that did not, first to last. *)
Definition in_part (failed : bool) (m : ByPlaceHeld) : list (u64 * u64) :=
  omap (λ '(s, h), if decide (hd_failed h = failed) then Some (at_place s h) else None) (map_to_list m).
Definition dues (failed : bool) (m : ByPlaceHeld) : list (u64 * u64) := merge_sort rank_le (in_part failed m).

Lemma elem_of_dues failed m p :
  p ∈ dues failed m ↔ ∃ h, m !! p.2 = Some h ∧ hd_failed h = failed ∧ due_at h = p.1.
Proof.
  unfold dues. rewrite merge_sort_Permutation. unfold in_part. rewrite list_elem_of_omap. split.
  - intros ([s h] & Hin%elem_of_map_to_list & E). case_decide as Hf; [|done]. injection E as <-. eauto.
  - intros (h & Hs & Hf & Hd). exists (p.2, h). split; [by apply elem_of_map_to_list|].
    rewrite decide_True by done. destruct p. cbn in *. unfold at_place. by rewrite Hd.
Qed.
Lemma dues_sorted failed m : StronglySorted rank_le (dues failed m).
Proof. apply StronglySorted_merge_sort; apply _. Qed.
Lemma dues_places_NoDup failed m : NoDup (dues failed m).*2.
Proof.
  unfold dues. rewrite merge_sort_Permutation. unfold in_part.
  pose proof (NoDup_fst_map_to_list m) as Hn. revert Hn. induction (map_to_list m) as [|[s h] l IH]; [done|].
  rewrite fmap_cons. intros [Hs Hl]%NoDup_cons. cbn [omap list_omap]. case_decide; [|by apply IH].
  rewrite fmap_cons. constructor; [|by apply IH]. contradict Hs.
  apply list_elem_of_fmap in Hs as (p & Ep & Hp). cbn in Ep. subst s.
  apply list_elem_of_omap in Hp as ([s' h'] & Hin & E).
  case_decide; [|done]. injection E as <-. apply list_elem_of_fmap. by exists (s', h').
Qed.
Lemma dues_NoDup failed m : NoDup (dues failed m).
Proof. eapply NoDup_fmap_1, dues_places_NoDup. Qed.

(** ** What the records hold of every queue *)

Section reading.
Context {C : Codec} {CO : CodecOk C} {X : XSecrets} {XO : XSecretsOk X}.
Implicit Types (R : records) (I : entries) (m : ByPlaceHeld) (M : u128 → ByPlaceHeld) (q : u128).

(** What a queue holds, each Message at its place in it. *)
Record queue_held R q m : Prop := {
  qh_kept s : R !! (HELD, entry_key q s) = to_bytes <$> m !! s;
  qh_at s h : m !! s = Some h → held_at q s h ∧ fits h;
}.
(** Every queue's, and nothing else of their kind. *)
Record all_held R M : Prop := {
  ah_queue q : queue_held R q (M q);
  ah_only key b : R !! (HELD, key) = Some b → ∃ q s, key = entry_key q s;
}.

Lemma queue_held_row R q m s : queue_held R q m →
  ∀ b, R !! (HELD, entry_key q s) = Some b → ∃ h, m !! s = Some h ∧ b = to_bytes h ∧
    searched_row SHeld b = Ok (row_Held h, journey_of h).
Proof.
  intros Hq b Hb. rewrite (qh_kept _ _ _ Hq) in Hb. destruct (m !! s) as [h|] eqn:Es; [|done].
  injection Hb as <-. exists h. split; [done|]. split; [done|].
  cbn [searched_row]. unfold row_as. rewrite from_to_bytes by by apply (qh_at _ _ _ Hq s). done.
Qed.

(** *** Its index *)

Definition held_due : Index := Schema.index 23 "held_due" ["queue"; "failed"; "due_at"; "sequence"]%string.
Definition due_prefix q (failed : bool) : bytes :=
  byte_of (ix_number held_due) :: be q ++ [if failed then x01 else x00].

Lemma held_due_key h id : index_key held_due (row_Held h) id =
  Some (due_prefix (h_queue (hd_hold h)) (hd_failed h) ++ be (due_at h) ++ be (hd_sequence h) ++ be id).
Proof.
  transitivity (Some (byte_of (ix_number held_due) ::
    (be (h_queue (hd_hold h)) ++ [if hd_failed h then x01 else x00] ++ be (due_at h) ++ be (hd_sequence h) ++ []) ++ be id)).
  { done. }
  unfold due_prefix. by rewrite app_nil_r, <- !app_comm_cons, <- !app_assoc.
Qed.
Lemma due_prefix_inj q q' f f' (x y : bytes) :
  due_prefix q f ++ x = due_prefix q' f' ++ y → q = q' ∧ f = f' ∧ x = y.
Proof.
  unfold due_prefix. rewrite <- !app_comm_cons, <- !app_assoc. intros E.
  apply (f_equal tail) in E. cbn [tail] in E. apply be_app_inj in E as [-> E]. injection E as E ->.
  by destruct f, f'.
Qed.
Lemma held_due_listed : held_due ∈ t_indexes (laid_out_in SHeld).
Proof. by repeat (first [apply elem_of_cons; left; reflexivity|apply elem_of_cons; right]). Qed.

(** Who is held at a place, and the entry of the index there. *)
Definition id_there m (p : u64 * u64) : u128 :=
  match m !! p.2 with Some h => journey_of h | None => wrap 0 end.
Definition due_entry q failed m (p : u64 * u64) : bytes * u128 :=
  (due_prefix q failed ++ be p.1 ++ be p.2 ++ be (id_there m p), id_there m p).

Lemma due_entries R I M q failed k id : laid_out Runtime R I → all_held R M →
  I !! (due_prefix q failed ++ k) = Some id ↔
  ∃ p, p ∈ dues failed (M q) ∧ (due_prefix q failed ++ k, id) = due_entry q failed (M q) p.
Proof.
  intros HI HM. rewrite (HI _ id). setoid_rewrite elem_of_record_entries. split.
  - intros (kind & key & b & Hb & s & row & index' & Hk & Hr & Hi & Hkey).
    pose proof Hkey as Hkey'. apply index_key_some in Hkey' as (_ & values & _ & Ek).
    unfold due_prefix, entry_key_of in Ek. rewrite <- app_comm_cons in Ek. injection Ek as Ek _.
    destruct (every_index_number SHeld s held_due index' held_due_listed Hi Ek) as [<- <-].
    assert (kind = HELD) as -> by (cbn in Hk; repeat case_decide; by try discriminate Hk).
    destruct (ah_only _ _ HM _ _ Hb) as (q' & place & ->).
    destruct (queue_held_row _ _ _ _ (ah_queue _ _ HM q') _ Hb) as (h & Hh & _ & Hrow).
    rewrite Hr in Hrow. injection Hrow as -> ->. rewrite held_due_key in Hkey. apply (inj Some) in Hkey.
    destruct (qh_at _ _ _ (ah_queue _ _ HM q') _ _ Hh) as [[Hs Hq] _].
    rewrite Hs, Hq in Hkey. apply due_prefix_inj in Hkey as (-> & <- & <-).
    exists (due_at h, place). split; [apply elem_of_dues; eauto|].
    unfold due_entry, id_there. cbn [fst snd]. by rewrite Hh.
  - intros ([d place] & (h & Hh & <- & Hd)%elem_of_dues & E). cbn in Hh, Hd. subst d.
    unfold due_entry, id_there in E. cbn [fst snd] in E. rewrite Hh in E. injection E as E ->.
    destruct (qh_at _ _ _ (ah_queue _ _ HM q) _ _ Hh) as [[Hs Hq] Hf].
    exists HELD, (entry_key q place), (to_bytes h).
    split; [by rewrite (qh_kept _ _ _ (ah_queue _ _ HM q)), Hh|].
    exists SHeld, (row_Held h), held_due. split; [done|]. split.
    { cbn [searched_row]. unfold row_as. by rewrite from_to_bytes. }
    split; [apply held_due_listed|]. rewrite held_due_key, Hs, Hq. by rewrite E.
Qed.

(** *** A range of it *)

Definition first_due q failed (from : u64 * u64) : bytes := due_prefix q failed ++ be from.1 ++ be from.2.
Definition last_due q failed (to : u64) : bytes := due_prefix q failed ++ be to ++ replicate 25 xff.

Lemma due_entry_first q failed m from p :
  bytes_le (first_due q failed from) (due_entry q failed m p).1 ↔ rank_le from p.
Proof.
  unfold bytes_le, first_due, due_entry. cbn [fst]. rewrite ble_app.
  rewrite <- (app_nil_r (be from.2)), ble_ranked. unfold rank_le. split.
  - intros [?|[-> _]]; lia.
  - intros ?. destruct (decide (rank from = rank p)) as [->%rank_inj|]; [by right|left; lia].
Qed.
Lemma due_entry_last q failed m to p :
  bytes_le (due_entry q failed m p).1 (last_due q failed to) ↔ (uval p.1 ≤ uval to)%N.
Proof.
  unfold bytes_le, last_due, due_entry. cbn [fst]. rewrite ble_app, ble_be_app_iff. split.
  - intros [?|[-> _]]; lia.
  - intros ?. destruct (decide (uval p.1 = uval to)) as [E%uint_eq|]; [right|left; lia].
    split; [done|]. apply (ble_xff _ 25). rewrite length_app, !length_be. lia.
Qed.
Lemma due_entry_le q failed m p p' : rank_le p p' → p ≠ p' →
  bytes_le (due_entry q failed m p).1 (due_entry q failed m p').1.
Proof.
  intros Hle Hne. unfold bytes_le, due_entry. cbn [fst]. rewrite ble_app, ble_ranked. left.
  unfold rank_le in Hle. assert (rank p ≠ rank p') by (by intros E%rank_inj). lia.
Qed.
Lemma due_entry_inj q failed m p p' : (due_entry q failed m p).1 = (due_entry q failed m p').1 → p = p'.
Proof.
  unfold due_entry. cbn [fst]. intros [E1 [E2 _]%be_app_inj]%app_inv_head%be_app_inj.
  destruct p, p'. cbn in *. by subst.
Qed.

(** Those of a part due and placed from one time and place, due at another at
    the latest. *)
Definition spans (from : u64 * u64) (to : u64) (p : u64 * u64) : Prop :=
  rank_le from p ∧ (uval p.1 ≤ uval to)%N.
#[export] Instance spans_dec from to p : Decision (spans from to p).
Proof. unfold spans. apply _. Defined.

Lemma range_dues R I M q failed from to : laid_out Runtime R I → all_held R M →
  range I (first_due q failed from) (last_due q failed to) =
    due_entry q failed (M q) <$> filter (spans from to) (dues failed (M q)).
Proof.
  intros HI HM. set (l := filter (spans from to) (dues failed (M q))).
  assert (StronglySorted rank_le l) as Hs by (apply StronglySorted_filter, dues_sorted).
  assert (NoDup l) as Hn by (apply NoDup_filter, dues_NoDup).
  apply range_is.
  - revert Hn. clear -Hs. induction Hs as [|p l Hs IH Hp]; intros Hn; [constructor|].
    apply NoDup_cons in Hn as [Hpl Hn]. rewrite !fmap_cons. constructor; [by apply IH|].
    rewrite <- list_fmap_compose. apply Forall_fmap. rewrite Forall_forall in *. intros p' Hp'.
    apply due_entry_le; [by apply Hp|]. by intros ->.
  - rewrite <- list_fmap_compose. apply NoDup_fmap_2_strong; [|done].
    intros p p' _ _. apply due_entry_inj.
  - intros k id. rewrite list_elem_of_fmap, within_spec. split.
    + intros (p & E & [[Hf Ht] Hp]%list_elem_of_filter). assert (k = (due_entry q failed (M q) p).1) as -> by by rewrite <- E.
      split; [split; [by apply due_entry_first|by apply due_entry_last]|].
      unfold due_entry. cbn [fst]. apply (due_entries R I M); [done..|]. exists p. split; [done|]. exact E.
    + intros [[Hf Ht] Hk]. destruct (ble_prefix_range _ _ _ _ Hf Ht) as [k' ->].
      apply (due_entries R I M) in Hk as (p & Hp & E); [|done..]. exists p. split; [done|].
      apply list_elem_of_filter. split; [|done].
      assert ((due_entry q failed (M q) p).1 = due_prefix q failed ++ k') as Ek by by rewrite <- E.
      rewrite <- Ek in Hf, Ht. split; [by apply due_entry_first in Hf|by apply due_entry_last in Ht].
Qed.

(** *** What a read of a region finds *)

Context {St : Type} `{RecordStoreOk St}.

Lemma due_ordered_values q failed m p :
  ordered_values held_due (due_prefix q failed) 2 (due_entry q failed m p) = Ok ([p.1; p.2], id_there m p).
Proof.
  unfold ordered_values, due_entry. set (id := id_there m p).
  assert (∀ x : bytes, length (x ++ be id) - 16 = length x)%nat as Hl by (intros; rewrite length_app, length_be; lia).
  rewrite (app_assoc (be p.1)), (app_assoc (due_prefix q failed)), Hl.
  rewrite take_app_length, drop_app_length.
  rewrite decide_True by (rewrite !length_app, !length_be; lia).
  cbn [seq fmap list_fmap Nat.mul Nat.add]. rewrite drop_0.
  assert (∀ n : u64, length (be n) = 8%nat) as H8 by (intros; apply length_be).
  rewrite take_app_le by (rewrite H8; lia). rewrite (firstn_all2 (be p.1)) by (rewrite H8; lia).
  rewrite drop_app_ge by (rewrite H8; lia). rewrite H8. cbn [Nat.sub]. rewrite drop_0.
  rewrite (firstn_all2 (be p.2)) by (rewrite H8; lia). by rewrite !of_be_be.
Qed.

Lemma region_finds (store : St) R I M q failed (from : u64 * u64) (to : u64) (most : N) found :
  rs_repr store R I → laid_out Runtime R I → all_held R M →
  region store q failed from to most = Ok found →
  found = up_to most (filter (spans from to) (dues failed (M q))).
Proof.
  intros HR HI HM E. unfold region in E. apply bind_Ok in E as (l & El & E).
  unfold find_ordered in El.
  change (index_prefix Runtime DUE [Id q; Flag failed]) with (Ok (A := Index * bytes) (held_due, due_prefix q failed)) in El.
  cbn [mbind result_bind] in El. rewrite decide_False in El by (vm_compute; lia).
  destruct (N.ltb_spec (uval to) (uval from.1)) as [Hlt|Hle].
  { injection El as <-. injection E as <-. rewrite (filter_nothing (spans from to)).
    - by destruct most.
    - intros p _ [Hf Ht]. unfold rank_le, rank in Hf. pose proof (uval_lt_64 p.2). nia. }
  apply bind_Ok in El as (es & Es & El). apply (rs_scan_spec store R I) in Es; [|done]. subst es.
  unfold ranged in El.
  change (concat (be <$> [from.1; from.2])) with (be from.1 ++ be from.2 ++ []) in El.
  change (replicate (8 * (_ - 1) + 17) xff) with (replicate 25 xff) in El. rewrite app_nil_r in El.
  fold (first_due q failed from) (last_due q failed to) in El.
  assert (ble (first_due q failed from) (last_due q failed to) = true) as Hb.
  { unfold first_due, last_due. rewrite ble_app. apply ble_be_app_iff.
    destruct (decide (uval from.1 = uval to)) as [Eq%uint_eq|]; [right; split; [done|]|left; lia].
    apply (ble_xff _ 25). rewrite length_be. lia. }
  rewrite Hb, (range_dues R I M) in El by done. rewrite up_to_fmap in El.
  rewrite (collect_fmap _ _ (λ p : u64 * u64, ([p.1; p.2], id_there (M q) p))) in El
    by (intros; apply due_ordered_values).
  injection El as <-.
  rewrite (collect_fmap _ _ (λ p : u64 * u64, p)) in E by by intros [].
  rewrite list_fmap_id in E. by injection E.
Qed.


(** ** Where each part's first is *)

Definition retrying_in m : N := N.of_nat (size (filter (λ sh : u64 * Held, retries (Some sh.2) = 1%N) m)).

(** What is kept with a queue: the first of those due since held, where there
    is one; the first retry, where there is one, and no time 0; and how many
    keep a retry's due time. *)
Record firsts_right (p : DuePlaces) m : Prop := {
  fr_fresh x : x ∈ dues false m → uval x.1 = 0%N →
    (uval (dp_fresh p) ≤ uval x.2)%N ∧ (wrap 0, dp_fresh p) ∈ dues false m;
  fr_retry x : x ∈ dues false m → (1 ≤ uval x.1)%N →
    rank_le (dp_retry p) x ∧ dp_retry p ∈ dues false m;
  fr_later : (1 ≤ uval (dp_retry p).1)%N;
  fr_retrying : uval (dp_retrying p) = retrying_in m;
}.

(** A part, as it is at a time: what is due then, what is not yet and did not
    fail, what failed. *)
Definition part_dues (part : DuePart) (at_ : u64) m : list (u64 * u64) :=
  match part with
  | DueNow => filter (λ p, (uval p.1 ≤ uval at_)%N) (dues false m)
  | Waiting => filter (λ p, (uval (sat_add at_ 1) ≤ uval p.1)%N) (dues false m)
  | DueFailed => dues true m
  end.

(** A sorted list, some of it before the rest. *)
Lemma filter_parts (P A B : u64 * u64 → Prop) `{∀ p, Decision (P p)} `{∀ p, Decision (A p)} `{∀ p, Decision (B p)} l :
  StronglySorted rank_le l → (∀ p, p ∈ l → P p ↔ A p ∨ B p) →
  (∀ a b, a ∈ l → b ∈ l → A a → B b → (rank a < rank b)%N) →
  filter P l = filter A l ++ filter B l.
Proof.
  induction 1 as [|p l Hs IH Hp]; intros HP HAB; [done|].
  assert (filter P l = filter A l ++ filter B l) as E.
  { apply IH; [intros; apply HP; by right|intros; apply HAB; [by right..|done|done]]. }
  pose proof (HP p ltac:(by left)) as Hhead. rewrite !filter_cons, E. rewrite Forall_forall in Hp.
  destruct (decide (A p)) as [Ha|Ha], (decide (B p)) as [Hb|Hb].
  - pose proof (HAB p p ltac:(by left) ltac:(by left) Ha Hb). lia.
  - by rewrite decide_True by tauto.
  - rewrite decide_True by tauto. rewrite (filter_nothing A l); [done|]. intros a Hin Haa.
    pose proof (HAB a p ltac:(by right) ltac:(by left) Haa Hb). pose proof (Hp a Hin). unfold rank_le in *. lia.
  - by rewrite decide_False by tauto.
Qed.

(** ** Reading a part *)

Lemma held_at_spec (store : St) R I M q (found : list (u64 * u64)) l :
  rs_repr store R I → all_held R M →
  held_at_places store q found = Ok l → l = omap (λ p, M q !! p.2) found.
Proof.
  intros HR HM. revert l. induction found as [|[d s] found IH]; intros l E; [by injection E as <-|].
  cbn [held_at_places] in E. apply bind_Ok in E as (o & Eo & E). apply bind_Ok in E as (held & Eh & E).
  apply bind_Ok in E as (rest & Er & E). injection E as <-. apply IH in Er as ->.
  apply (rs_get_spec store R I) in Eo; [|done|by apply (bool_decide_unpack _); vm_compute]. subst o.
  rewrite (qh_kept _ _ _ (ah_queue _ _ HM q)) in Eh. cbn [omap list_omap snd].
  destruct (M q !! s) as [h|] eqn:Es; cbn in Eh.
  - rewrite from_to_bytes in Eh by by apply (qh_at _ _ _ (ah_queue _ _ HM q) s). by injection Eh as <-.
  - by injection Eh as <-.
Qed.

Lemma rank_zero (s : u64) : rank (wrap 0, s) = uval s.
Proof. unfold rank. cbn [fst snd]. change (uval (wrap 0 : u64)) with 0%N. lia. Qed.
Lemma rank_at (d : u64) : rank (d, wrap 0) = (uval d * 2 ^ 64)%N.
Proof. unfold rank. cbn [fst snd]. change (uval (wrap 0 : u64)) with 0%N. lia. Qed.
Lemma sat_add_one (n : u64) : (1 ≤ uval (sat_add n 1))%N.
Proof. rewrite uval_sat_add. change (bound 8) with (2 ^ 64)%N. lia. Qed.

(** What is due: those due since held, then those whose retry has come. *)
Lemma due_now_parts p m (from : u64 * u64) (at_ : u64) : firsts_right p m →
  filter (rank_le from) (part_dues DueNow at_ m) =
    filter (λ x, from.1 = wrap 0 ∧ spans (wrap 0, umaxof from.2 (dp_fresh p)) (wrap 0) x) (dues false m) ++
    filter (spans (at_max from (dp_retry p)) at_) (dues false m).
Proof.
  intros Hf. cbn [part_dues]. rewrite list_filter_filter. pose proof (fr_later _ _ Hf) as H1.
  assert (∀ n : u64, n = wrap 0 ↔ uval n = 0%N) as Hz.
  { intros n. split; [by intros ->|]. intros E. by apply uint_eq. }
  apply filter_parts; [apply dues_sorted| |].
  - intros x Hx. unfold spans, rank_le. rewrite rank_at_max, rank_zero, uval_umaxof, Hz.
    change (uval (wrap 0 : u64)) with 0%N.
    pose proof (λ E, proj1 (fr_fresh _ _ Hf x Hx E)) as Hfr. pose proof (λ E, proj1 (fr_retry _ _ Hf x Hx E)) as Hre.
    unfold rank_le, rank in *. pose proof (uval_lt_64 from.2). pose proof (uval_lt_64 x.2). split.
    + intros [Ha Hb]. destruct (decide (uval x.1 = 0%N)) as [E|E]; [left|right].
      * specialize (Hfr E). rewrite E in *. lia.
      * specialize (Hre ltac:(lia)). lia.
    + intros [(E & Ha & Hb)|[Ha Hb]]; [|lia]. assert (uval x.1 = 0%N) as E1 by lia. rewrite E, E1 in *. lia.
  - intros a b _ _ (_ & _ & Ha) [Hb _]. unfold rank_le in Hb. rewrite rank_at_max in Hb. unfold rank in *.
    change (uval (wrap 0 : u64)) with 0%N in Ha. pose proof (uval_lt_64 a.2). lia.
Qed.

(** What is not due yet: what the index holds from the next time on. *)
Lemma waiting_part p m (from : u64 * u64) (at_ : u64) : firsts_right p m →
  filter (rank_le from) (part_dues Waiting at_ m) =
    filter (spans (at_max from (at_max (sat_add at_ 1, wrap 0) (dp_retry p))) umax) (dues false m).
Proof.
  intros Hf. cbn [part_dues]. rewrite list_filter_filter. apply filter_iff_in. intros x Hx.
  unfold spans, rank_le. rewrite !rank_at_max, rank_at, uval_umax.
  pose proof (λ E, proj1 (fr_retry _ _ Hf x Hx E)) as Hre. pose proof (sat_add_one at_). pose proof (uval_lt_64 x.1).
  change (bound 8) with (2 ^ 64)%N. unfold rank_le, rank in *. pose proof (uval_lt_64 x.2). split.
  - intros [Ha Hb]. specialize (Hre ltac:(lia)). lia.
  - intros [Ha Hb]. lia.
Qed.
Lemma waiting_all p m (at_ : u64) : firsts_right p m →
  part_dues Waiting at_ m = filter (spans (at_max (sat_add at_ 1, wrap 0) (dp_retry p)) umax) (dues false m).
Proof.
  intros Hf. cbn [part_dues]. apply filter_iff_in. intros x Hx.
  unfold spans, rank_le. rewrite !rank_at_max, rank_at, uval_umax.
  pose proof (λ E, proj1 (fr_retry _ _ Hf x Hx E)) as Hre. pose proof (sat_add_one at_). pose proof (uval_lt_64 x.1).
  change (bound 8) with (2 ^ 64)%N. unfold rank_le, rank in *. pose proof (uval_lt_64 x.2). split.
  - intros Hb. specialize (Hre ltac:(lia)). lia.
  - intros [Ha Hb]. lia.
Qed.
Lemma failed_part m (from : u64 * u64) (at_ : u64) :
  filter (rank_le from) (part_dues DueFailed at_ m) = filter (spans from umax) (dues true m).
Proof.
  apply filter_iff_in. intros x _. unfold spans. pose proof (uval_lt_64 x.1). rewrite uval_umax.
  change (bound 8) with (2 ^ 64)%N. split; [intros; split; [done|lia]|by intros [? _]].
Qed.

(** What a read finds of a part, wherever its first is kept. *)
Lemma due_read (store : St) R I M q (part : DuePart) (from : u64 * u64) (most : u32) (now : i128) p d :
  rs_repr store R I → laid_out Runtime R I → all_held R M →
  due_places_of (R !! (DUE_PLACES, places_key q)) = Ok p → firsts_right p (M q) →
  read_due store q part from most now = Ok d →
  du_held d = omap (λ x, M q !! x.2)
    (up_to (uval most) (filter (rank_le from) (part_dues part (nanos now) (M q)))) ∧
  uval (du_retrying d) = retrying_in (M q) ∧
  du_next_due_unix_nanos d =
    (λ x, i128_clamp (Z.of_N (uval x.1))) <$> head (part_dues Waiting (nanos now) (M q)) ∧
  du_read_unix_nanos d = now.
Proof.
  intros HR HI HM Hp Hf E. unfold read_due in E. apply bind_Ok in E as (o & Eo & E).
  apply (rs_get_spec store R I) in Eo; [|done|by apply (bool_decide_unpack _); vm_compute]. subst o.
  rewrite Hp in E. cbn [mbind result_bind] in E. apply bind_Ok in E as (found & Efound & E).
  apply bind_Ok in E as (next & Enext & E). apply bind_Ok in E as (held & Eheld & E). injection E as <-.
  cbn [du_held du_retrying du_next_due_unix_nanos du_read_unix_nanos].
  apply (held_at_spec store R I M) in Eheld as ->; [|done..].
  apply (region_finds store R I M) in Enext as ->; [|done..]. rewrite <- (waiting_all p) by done.
  split; [|split; [by apply (fr_retrying _ _ Hf)|split; [|done]]].
  2: { rewrite head_up_to_one. by destruct (head (part_dues Waiting (nanos now) (M q))) as [[due place]|]. }
  f_equal. destruct part.
  - rewrite (due_now_parts p) by done. rewrite up_to_app. apply bind_Ok in Efound as (fresh & Efresh & E).
    assert (fresh = up_to (uval most) (filter (λ x, from.1 = wrap 0 ∧
      spans (wrap 0, umaxof from.2 (dp_fresh p)) (wrap 0) x) (dues false (M q)))) as <-.
    { case_decide as Hz.
      - apply (region_finds store R I M) in Efresh as ->; [|done..]. f_equal. apply filter_iff_in. naive_solver.
      - injection Efresh as <-. rewrite filter_nothing; [by destruct (uval most)|]. by intros x _ [? _]. }
    set (start := at_max from (dp_retry p)) in *. set (rest := (uval most - N.of_nat (length fresh))%N) in *.
    destruct (N.of_nat (length fresh) <? uval most)%N eqn:Eless; cbn [andb] in E;
      [destruct (N.leb_spec (uval start.1) (uval (nanos now))) as [Hle|Hgt]|].
    + apply bind_Ok in E as (more & Emore & E). injection E as <-. f_equal.
      by apply (region_finds store R I M) in Emore as ->.
    + injection E as <-. rewrite (filter_nothing (spans start (nanos now))).
      * unfold up_to at 1. by rewrite firstn_nil, app_nil_r.
      * intros x _ [Hs Ht]. unfold rank_le, rank in Hs. pose proof (uval_lt_64 x.2). lia.
    + injection E as <-. apply N.ltb_ge in Eless. assert (rest = 0%N) as -> by lia.
      unfold up_to at 1. by rewrite N.min_0_l, app_nil_r.
  - rewrite (waiting_part p) by done. by apply (region_finds store R I M) in Efound.
  - rewrite failed_part. by apply (region_finds store R I M) in Efound.
Qed.

(** ** Settling *)





(** *** What a batch wrote of one queue *)

Section queue_settled.
Context (store : St) R I M (q : u128) m' (wl : list (u64 * option bytes)).
Hypotheses (HR : rs_repr store R I) (HI : laid_out Runtime R I) (HM : all_held R M).
Hypothesis Hm' : ∀ s h, m' !! s = Some h → held_at q s h ∧ fits h.
Hypothesis Hwl : NoDup wl.*1.
Hypothesis Hwritten : ∀ s value, (s, value) ∈ wl → value = to_bytes <$> m' !! s.
Hypothesis Hsame : ∀ s, s ∉ wl.*1 → m' !! s = M q !! s.
Implicit Types (fresh : option u64) (retry : option (u64 * u64)).





Hypothesis Hsize : (N.of_nat (size (M q) + size m') + 1 < 2 ^ 64)%N.











End queue_settled.

(** *** Every queue a batch wrote of *)









End reading.

(** ** The theorems *)

Module PartsTheorems.
Section theorems.
Context {C : Codec} {CO : CodecOk C} {X : XSecrets} {XO : XSecretsOk X}.
Context {St : Type} `{RecordStoreOk St}.
Implicit Types (store : St) (R : records) (I : entries) (M : u128 → ByPlaceHeld) (q : u128).

(** C37. A part is read whole and in its order, however it is paged. Of a
    queue whose firsts are kept right, a read of what is due, of what waits or
    of what failed finds exactly the Messages held that are of that part at
    that time and due and placed from where it is asked on - by due time, then
    by place, as many as asked for or all of them - though it looks no earlier
    than where the part's first is; it says how many keep a retry's due time,
    and when the next that waits is due. *)
Theorem part_reads_in_order store R I M q (part : DuePart) (from : u64 * u64) (most : u32) (now : i128)
    (p : DuePlaces) (d : DueQueue) :
  rs_repr store R I → laid_out Runtime R I → all_held R M →
  due_places_of (R !! (DUE_PLACES, places_key q)) = Ok p → firsts_right p (M q) →
  read_due store q part from most now = Ok d →
  du_held d = omap (λ x, M q !! x.2)
    (up_to (uval most) (filter (rank_le from) (part_dues part (nanos now) (M q)))) ∧
  uval (du_retrying d) = retrying_in (M q) ∧
  du_next_due_unix_nanos d =
    (λ x, i128_clamp (Z.of_N (uval x.1))) <$> head (part_dues Waiting (nanos now) (M q)) ∧
  du_read_unix_nanos d = now.
Proof. apply due_read. Qed.

End theorems.

(** *** A queue of three *)

#[local] Existing Instances Plain.codec Plain.codec_ok.
#[local] Existing Instances SecretTheorems.two_names SecretTheorems.two_names_ok.

(** Right of a queue by computing. *)
Definition firsts_hold (p : DuePlaces) (m : ByPlaceHeld) : bool :=
  forallb (λ x : u64 * u64,
      if (uval x.1 =? 0)%N
      then (uval (dp_fresh p) <=? uval x.2)%N && bool_decide ((wrap 0, dp_fresh p) ∈ dues false m)
      else bool_decide (rank_le (dp_retry p) x) && bool_decide (dp_retry p ∈ dues false m)) (dues false m) &&
  (1 <=? uval (dp_retry p).1)%N && (uval (dp_retrying p) =? retrying_in m)%N.
Lemma firsts_right_by p m : firsts_hold p m = true → firsts_right p m.
Proof.
  unfold firsts_hold. rewrite !andb_true_iff, N.leb_le, N.eqb_eq, forallb_forall. intros [[Hx H1] Hr].
  split; [..|done|done]; intros x Hin E; apply list_elem_of_In, Hx in Hin; destruct (N.eqb_spec (uval x.1) 0) as [E0|E0];
    try lia; apply andb_true_iff in Hin as [Ha Hb]; apply bool_decide_eq_true in Hb.
  - by apply N.leb_le in Ha.
  - by apply bool_decide_eq_true in Ha.
Qed.

(** The held Messages of a store, put in one at a time. *)
Definition also_held (q : u128) (s : u64) (h : Held) (M : u128 → ByPlaceHeld) (q' : u128) : ByPlaceHeld :=
  if decide (q' = q) then <[s := h]> (M q') else M q'.
Lemma all_held_insert (R : records) M q s h : all_held (C := Plain.codec) R M → held_at q s h → fits h →
  all_held (C := Plain.codec) (<[(HELD, entry_key q s) := to_bytes h]> R) (also_held q s h M).
Proof.
  intros [Hq Ho] Ha Hf. split.
  - intros q'. unfold also_held. split.
    + intros s'. case_decide as Hqq; [subst q'; destruct (decide (s' = s)) as [->|Hss]|].
      * by rewrite !lookup_insert_eq.
      * rewrite !lookup_insert_ne; [by apply Hq|done|]. by intros [_ [_ ?]%entry_key_inj]%pair_equal_spec.
      * rewrite lookup_insert_ne; [by apply Hq|]. by intros [_ [? _]%entry_key_inj]%pair_equal_spec.
    + intros s' h' E. case_decide as Hqq; [subst q'|by apply (Hq q')].
      destruct (decide (s' = s)) as [->|Hss]; [rewrite lookup_insert_eq in E; by injection E as <-|].
      rewrite lookup_insert_ne in E by done. by apply (Hq q).
  - intros key b. destruct (decide (key = entry_key q s)) as [->|Hk]; [by eauto|].
    rewrite lookup_insert_ne by (by intros [_ ?]%pair_equal_spec). apply Ho.
Qed.
Lemma all_held_other (R : records) M kind key b : kind ≠ HELD → all_held (C := Plain.codec) R M →
  all_held (C := Plain.codec) (<[(kind, key) := b]> R) M.
Proof.
  intros Hk [Hq Ho]. assert (∀ key', (kind, key) ≠ (HELD, key')) as Hne by by intros key' [? _]%pair_equal_spec.
  split; [intros q'; split; [intros s'; rewrite lookup_insert_ne by done; by apply Hq|apply Hq]|].
  intros key' b'. rewrite lookup_insert_ne by done. apply Ho.
Qed.
Lemma none_held : all_held (C := Plain.codec) ∅ (λ _, ∅).
Proof. split; [intros q; split; [intros s; by rewrite !lookup_empty|done]|done]. Qed.

Definition example_held (s : N) (due : option Z) (failed : bool) : Held :=
  {| hd_sequence := wrap s;
     hd_hold := {| h_queue := wrap 1; h_journey := wrap (7 + s); h_body := [x00] |}; hd_held_unix_nanos := wrap 5;
     hd_failed := failed; hd_due_unix_nanos := i128_clamp <$> due |}.
Definition example_places : DuePlaces := {| dp_fresh := wrap 0; dp_retry := (wrap 40, wrap 1); dp_retrying := wrap 1 |}.
Definition example_queue : u128 := wrap 1.
Definition example_kept (s : N) (due : option Z) (failed : bool) (R : records) : records :=
  <[(HELD, entry_key example_queue (wrap s)) := to_bytes (C := Plain.codec) (example_held s due failed)]> R.
Definition example_also (s : N) (due : option Z) (failed : bool) : (u128 → ByPlaceHeld) → u128 → ByPlaceHeld :=
  also_held example_queue (wrap s) (example_held s due failed).

(** One due since held, one that waits until 40 and one that failed. *)
Definition example_records : records :=
  <[(DUE_PLACES, places_key example_queue) := to_bytes (C := Plain.codec) example_places]>
    (example_kept 2 (Some 30%Z) true (example_kept 1 (Some 40%Z) false (example_kept 0 None false ∅))).
Definition example_M : u128 → ByPlaceHeld :=
  example_also 2 (Some 30%Z) true (example_also 1 (Some 40%Z) false (example_also 0 None false (λ _, ∅))).
Definition example_store : Ledger.Ledger :=
  {| Ledger.recs := example_records;
     Ledger.idx := list_to_map (made_of (C := Plain.codec) Runtime example_records) |}.

Lemma example_all_held : all_held (C := Plain.codec) example_records example_M.
Proof.
  apply all_held_other; [by apply (bool_decide_unpack _); vm_compute|].
  repeat (apply all_held_insert; [|by split|by vm_compute]). apply none_held.
Qed.
Lemma example_laid_out : laid_out (C := Plain.codec) Runtime example_records (Ledger.idx example_store).
Proof. apply made_of_laid_out. apply (bool_decide_unpack _). by vm_compute. Qed.
Lemma example_firsts : due_places_of (C := Plain.codec) (example_records !! (DUE_PLACES, places_key example_queue)) = Ok example_places
  ∧ firsts_right example_places (example_M example_queue).
Proof. split; [unfold example_records; rewrite lookup_insert_eq; by vm_compute|]. apply firsts_right_by. by vm_compute. Qed.

(** At 35 the first is due; the second waits till 40. *)
Lemma part_reads_in_order_witness :
  ∃ d, read_due (C := Plain.codec) example_store example_queue DueNow (wrap 0, wrap 0) (wrap 10) (i128_clamp 35) = Ok d ∧
    du_held d = [example_held 0 None false] ∧ uval (du_retrying d) = 1%N ∧
    du_next_due_unix_nanos d = Some (i128_clamp 40).
Proof.
  destruct (read_due (C := Plain.codec) example_store example_queue DueNow (wrap 0, wrap 0) (wrap 10) (i128_clamp 35))
    as [d|e] eqn:E.
  - exists d. split; [done|].
    destruct (part_reads_in_order (C := Plain.codec) example_store example_records (Ledger.idx example_store) example_M
      example_queue DueNow (wrap 0, wrap 0) (wrap 10) (i128_clamp 35) example_places d) as (-> & -> & -> & _).
    + by split.
    + exact example_laid_out.
    + exact example_all_held.
    + exact (proj1 example_firsts).
    + exact (proj2 example_firsts).
    + exact E.
    + split; [by vm_compute|]. split; by vm_compute.
  - exfalso. assert (is_ok (read_due (C := Plain.codec) example_store example_queue DueNow (wrap 0, wrap 0) (wrap 10)
      (i128_clamp 35)) = true) as Hok by by vm_compute. by rewrite E in Hok.
Defined.




End PartsTheorems.
