(* ===== verification/Commit.v ===== *)
(** * The one writer of a Storage node's runtime database (src/.src/storage/commit.rs)

    Every write goes through the writer, a group at a time: each operation of
    the group decided on a stage of its own over what those before it left,
    each queue's first due found again, and all of it written together with
    its index entries, or none of it.

    [decide] is one operation as a [prog]; [committed] is the group as the
    code commits it; [in_order] is what it comes to: the operations one after
    another on the records. [group_commits_in_order] relates the two. *)

From S2P Require Import Prelude Word Engine Encrypted Store Codec Facts Records Batch Queue Hold.
From S2P Require Import Failed Origin Dead Claim Schema Instance Publication Secrets Row Columns.
From S2P Require Import Page Due.

Definition AUDIT : string := "audit".
Definition NEXT : bytes := String.list_byte_of_string "next".
Definition KEPT : bytes := String.list_byte_of_string "kept".

(** ** The data *)

(** [Op]: one write the committer decides. *)
Inductive Op : Type :=
  | OpPut (kind : string) (key value : bytes)
  | OpClaim (claim : Claim) (lease_nanos : i128)
  | OpRenew (claims : list Claim) (lease_nanos : i128)
  | OpRelease (claim : Claim)
  | OpHandOn (hand_on : HandOn)
  | OpTurn (turn : Turn)
  | OpPublish (publication : Publication)
  | OpReplay (replay : Replay)
  | OpAudit (entry : AuditEntry)
  | OpKept (number : u64).

(** [Done]: what a write decided. *)
Inductive Done : Set :=
  | DoneWritten
  | DoneClaim (claim : option Claim)
  | DoneClaims (claims : list Claim)
  | DoneYes (yes : bool)
  | DoneReplayed (replayed : Replayed).

(** [Durable] as a write is answered with it: told already, or once its
    batch is synced. *)
Inductive Durable : Set := durable_kept | durable_pending.

#[export] Instance Durable_eq_dec : EqDecision Durable.
Proof. solve_decision. Defined.

Section operations.
Context {C : Codec} {X : XSecrets} (sha1 : bytes → bytes) (message_id : MessageId → string)
  (secret_error : SecretError → string).

(** [Op::Renew]'s loop. *)
Fixpoint renew_each (claims : list Claim) (now lease : i128) : prog (list Claim) :=
  match claims with
  | [] => mret []
  | claim :: claims =>
      held ← renew claim now lease;
      rest ← renew_each claims now lease;
      mret match held with Some held => held :: rest | None => rest end
  end.

(** [Op::Audit]: the entry at the next number. *)
Definition audit (entry : AuditEntry) (next : u64) : prog u64 :=
  batch_put AUDIT (be next) (Some (to_bytes entry));; mret (wadd next 1).

(** [Op::Kept]: the record forgotten, where the keeper has not moved past
    it already. *)
Definition keep_moved (number : u64) : prog bool :=
  o ← batch_read SEQUENCE KEPT;
  kept ← lift match o with
              | Some bytes =>
                  match array 8 bytes with
                  | Some array => Ok (of_be array)
                  | None => Err (malformed "an audit sequence that is not eight bytes")
                  end
              | None => Ok (wrap 0)
              end;
  if decide (kept = number) then
    batch_put AUDIT (be number) None;;
    batch_put SEQUENCE KEPT (Some (be (wadd number 1)));;
    mret true
  else mret false.

(** [Writer::decide]: one operation, and the next audit number after it. *)
Definition decide_op (op : Op) (now : i128) (epoch next : u64) : prog (Done * u64) :=
  match op with
  | OpPut kind key value => batch_put kind key (Some value);; mret (DoneWritten, next)
  | OpClaim claim lease =>
      held ← take claim now (i128_sat_add now (ival lease)) epoch;
      mret (DoneClaim held, next)
  | OpRenew claims lease =>
      held ← renew_each claims now lease; mret (DoneClaims held, next)
  | OpRelease claim => yes ← release claim; mret (DoneYes yes, next)
  | OpHandOn h => yes ← hand_on h now; mret (DoneYes yes, next)
  | OpTurn t => yes ← turn t now; mret (DoneYes yes, next)
  | OpPublish asked =>
      decided ← decide_publication sha1 message_id asked now epoch;
      match decided with
      | DecidedBefore held => mret (DoneClaims held, next)
      | DecidedNow held =>
          next ← audit (pb_audit asked) next; mret (DoneClaims held, next)
      end
  | OpReplay r =>
      replayed ← replay r;
      match replayed with
      | Now => next ← audit (rp_audit r) next; mret (DoneReplayed Now, next)
      | other => mret (DoneReplayed other, next)
      end
  | OpAudit entry => next ← audit entry next; mret (DoneWritten, next)
  | OpKept number => yes ← keep_moved number; mret (DoneYes yes, next)
  end.

(** ** A group as it is committed *)

Section committed.
Context {St : Type} `{RecordStore St} (store : St).

(** [committed]'s loop: each operation on a stage of its own, taken whole
    with its audit numbers, or dropped whole. *)
Fixpoint decide_group (group : list Op) (now : i128) (epoch : u64) (b : Batch) (next : u64) :
    Batch * u64 * list (result Done) :=
  match group with
  | [] => (b, next, [])
  | op :: group =>
      match stage store (decide_op op now epoch next) b with
      | (b, Ok (done, next)) =>
          let '(b, next, decided) := decide_group group now epoch b next in
          (b, next, Ok done :: decided)
      | (b, Err e) =>
          let '(b, next, decided) := decide_group group now epoch b next in
          (b, next, Err e :: decided)
      end
  end.

(** The batch written with its index entries, unsynced. *)
Definition write_batch (b : Batch) (settled : result unit) (now : i128) : result St :=
  _ ← settled;
  '(written, entries) ←
    (written_over Runtime (Batch.before store) (nanos now) ∅ b (changes b)).2;
  rs_apply_indexed_deferred store written entries.

Definition nothing {A} (l : list A) : bool := match l with [] => true | _ => false end.

(** [committed]: the store after the group, the next audit number, and what
    each write is answered. *)
Definition committed (group : list Op) (now : i128) (epoch next : u64) :
    St * u64 * list (result (Done * Durable)) :=
  let '(b, after, decided) := decide_group group now epoch empty_batch next in
  let '(b, settled) := settle store b in
  let b := if decide (after = next) then b else Batch.put b SEQUENCE NEXT (Some (be after)) in
  let empty := nothing (changes b) in
  let written := if empty then Ok store else write_batch b settled now in
  match written with
  | Ok store' =>
      let durable := if empty then durable_kept else durable_pending in
      (store', after,
        (λ done : result Done, ((λ d, (d, durable)) <$> done : result (Done * Durable))) <$> decided)
  | Err e => (store, next,
        (λ _ : result Done, (Err (again secret_error e) : result (Done * Durable))) <$> decided)
  end.
End committed.
End operations.

(** ** What an operation may ask: a kind a place can hold *)

Definition op_ok (op : Op) : Prop :=
  match op with OpPut kind _ _ => kind_ok kind | _ => True end.
#[export] Instance op_ok_dec op : Decision (op_ok op).
Proof. destruct op; apply _. Defined.

Section ok.
Context {C : Codec} (sha1 : bytes → bytes) (message_id : MessageId → string).

Ltac ok_walk :=
  repeat first
    [ assumption
    | match goal with H : context [prog_ok] |- _ => solve [simple apply H] end
    | apply prog_ok_read; solve [apply (bool_decide_unpack _); vm_compute; exact I]
    | apply prog_ok_put; solve [apply (bool_decide_unpack _); vm_compute; exact I]
    | progress unfold batch_record
    | apply prog_ok_bind; [|intros ?]
    | apply prog_ok_for_all; intros ?
    | apply prog_ok_lift | exact I
    | progress cbv beta iota zeta
    | match goal with |- prog_ok (match ?x with _ => _ end) => destruct x end ].

(** Of a queue, whichever its kinds. *)
Definition queue_ok (K : Kinds) : Prop :=
  (∀ q, prog_ok (places K q)) ∧ (∀ q a, prog_ok (placed K q a)) ∧
  (∀ q a f, prog_ok (place K q a f)) ∧ (∀ q s, prog_ok (take_out K q s)) ∧
  (∀ q a, prog_ok (forget K q a)) ∧ (∀ q a, prog_ok (remember K q a)).

Ltac ok_each := unfold queue_ok; repeat match goal with |- _ ∧ _ => split end; intros; ok_walk.

Lemma queues_ok : queue_ok HOLD ∧ queue_ok FAILED_KINDS ∧ queue_ok DEAD_KINDS.
Proof.
  assert (∀ q, prog_ok (places HOLD q)) by (intros; unfold places; ok_walk).
  assert (∀ q, prog_ok (places FAILED_KINDS q)) by (intros; unfold places; ok_walk).
  assert (∀ q, prog_ok (places DEAD_KINDS q)) by (intros; unfold places; ok_walk).
  unfold queue_ok, placed, place, take_out, forget, remember. ok_each.
Qed.

Lemma take_ok claim now until epoch : prog_ok (take claim now until epoch).
Proof. unfold take, stored, hold. ok_walk. Qed.
Lemma renew_each_ok claims now lease : prog_ok (renew_each claims now lease).
Proof.
  induction claims as [|claim claims IH]; [done|]. cbn [renew_each]. unfold renew, stored, hold. ok_walk.
Qed.
Lemma release_ok claim : prog_ok (release claim).
Proof. unfold release, stored, end_. ok_walk. Qed.

Lemma holds_ok : (∀ h, prog_ok (keep h)) ∧ (∀ q j, prog_ok (let_go_of q j)) ∧
  (∀ q j, prog_ok (to_the_end q j)) ∧ (∀ q j due, prog_ok (wait q j due)) ∧
  (∀ q s failed, prog_ok (mark q s failed)).
Proof.
  destruct queues_ok as ((? & ? & ? & ? & ? & ?) & _).
  assert (∀ h, prog_ok (keep h)) by (intros; unfold keep; ok_walk).
  unfold let_go_of, let_go, to_the_end, wait, mark. ok_each.
Qed.

Lemma failures_ok : (∀ j f now, prog_ok (enter j f now)) ∧ (∀ q j, prog_ok (clear q j)).
Proof.
  destruct queues_ok as ((? & ? & ? & ? & ? & ?) & (? & ? & ? & ? & ? & ?) & _).
  destruct holds_ok as (_ & _ & _ & _ & ?). unfold enter, clear. ok_each.
Qed.

Lemma journey_written_ok places j : prog_ok (journey_written places j).
Proof.
  destruct holds_ok as (_ & ? & _). unfold journey_written, counted, counted_for, count. ok_walk.
Qed.

Lemma hand_on_ok h now : prog_ok (hand_on h now).
Proof.
  pose proof journey_written_ok. destruct holds_ok as (? & ? & ? & ? & ?), failures_ok as (? & ?).
  unfold hand_on, stored, hold, end_, handed_on, handed_records, handed_places. ok_walk.
Qed.

Lemma turn_ok t now : prog_ok (turn t now).
Proof.
  pose proof hand_on_ok. assert (∀ key, prog_ok (owner key)) by (intros; unfold owner; ok_walk).
  assert (∀ ws, prog_ok (all_stand ws)) by (induction ws; cbn [all_stand]; ok_walk).
  assert (∀ ks, prog_ok (all_own ks)) by (induction ks; cbn [all_own]; ok_walk).
  unfold turn, current, write_instances. ok_walk.
Qed.

Lemma replay_ok r : prog_ok (replay r).
Proof.
  destruct queues_ok as (_ & _ & (? & ? & ? & ? & ? & ?)), holds_ok as (? & _).
  pose proof journey_written_ok. unfold replay. ok_walk.
Qed.

Lemma publication_ok p now epoch : prog_ok (decide_publication sha1 message_id p now epoch).
Proof.
  destruct queues_ok as (_ & _ & (? & ? & ? & ? & ? & ?)), holds_ok as (? & _).
  pose proof journey_written_ok. pose proof take_ok.
  assert (∀ l, prog_ok (still_held l)) by (induction l; cbn [still_held]; unfold stored; ok_walk).
  assert (∀ l now until epoch, prog_ok (take_each l now until epoch))
    by (induction l; intros; cbn [take_each]; ok_walk).
  unfold decide_publication, published_records, keep_dead. ok_walk.
Qed.

Lemma decide_op_ok op now epoch next : op_ok op → prog_ok (decide_op sha1 message_id op now epoch next).
Proof.
  intros Hop. pose proof take_ok; pose proof renew_each_ok; pose proof release_ok; pose proof hand_on_ok;
    pose proof turn_ok; pose proof publication_ok; pose proof replay_ok.
  destruct op; cbn [decide_op op_ok] in *; [|unfold audit, keep_moved; ok_walk..].
  apply prog_ok_bind; [by apply prog_ok_put|done].
Qed.
End ok.

(** ** A group as its operations, one after another *)

Section order.
Context {C : Codec} {X : XSecrets} (sha1 : bytes → bytes) (message_id : MessageId → string).
Context {St : Type} `{RecordStore St} (store : St) (now : i128) (epoch : u64).

(** Each operation does to the records what it would alone, after those
    before it; one that fails, or cannot read the store, does nothing. *)
Inductive in_order : records → u64 → list Op → list (result Done) → records → u64 → Prop :=
  | no_more R next : in_order R next [] [] R next
  | one_done R next op done next1 R1 group decided R2 next2 :
      exec (decide_op sha1 message_id op now epoch next) R = Ok ((done, next1), R1) →
      in_order R1 next1 group decided R2 next2 →
      in_order R next (op :: group) (Ok done :: decided) R2 next2
  | one_failed R next op e group decided R2 next2 :
      exec (decide_op sha1 message_id op now epoch next) R = Err e ∨
        (∃ kind key, rs_get store kind key = Err e) →
      in_order R next group decided R2 next2 →
      in_order R next (op :: group) (Err e :: decided) R2 next2.

(** A record as it is written of one decided: as it is, or stamped, where
    it is searchable. *)
Definition written_as (kind : string) (o o' : option bytes) : Prop :=
  match searched_of Runtime kind with
  | None => o' = o
  | Some searched =>
      o' = o ∨ ∃ b b' before row id, o = Some b ∧ o' = Some b' ∧
        searched_stamped searched b before (nanos now) = Ok (b', row, id)
  end.

Definition change_written (c c' : RecordChange) : Prop := c'.1 = c.1 ∧ written_as c.1.1 c.2 c'.2.

(** The records written are those the group left: but for where each queue's
    first due are, and the number the next audit record takes. *)
Definition left_as (R R' : records) (next after : u64) : Prop :=
  (∀ kind key, kind ≠ DUE_PLACES → (kind, key) ≠ (SEQUENCE, NEXT) →
    written_as kind (R !! (kind, key)) (R' !! (kind, key))) ∧
  R' !! (SEQUENCE, NEXT) = if decide (after = next) then R !! (SEQUENCE, NEXT) else Some (be after).

Lemma written_over_as {S : Type} kept latest (s s' : S) changes written es :
  written_over Runtime kept (nanos now) latest s changes = (s', Ok (written, es)) →
  Forall2 change_written changes written.
Proof.
  intros E%written_over_stamped. eapply Forall2_impl; [exact E|].
  intros [[kind key] value] [place value'] [Hp Hv]. split; [done|]. unfold written_as. cbn [fst snd] in *.
  destruct (searched_of Runtime kind); [|done]. destruct value as [b|]; [|by left].
  destruct Hv as (b' & before & row & id & -> & Hs). right. by exists b, b', before, row, id.
Qed.

Lemma written_as_refl kind o : written_as kind o o.
Proof. unfold written_as. destruct (searched_of Runtime kind); [by left|done]. Qed.

Lemma recorded_written_as (R R' : records) changes written :
  (∀ kind key, written_as kind (R !! (kind, key)) (R' !! (kind, key))) →
  Forall2 change_written changes written →
  ∀ kind key, written_as kind (recorded R changes !! (kind, key)) (recorded R' written !! (kind, key)).
Proof.
  intros HR Hw. revert R R' HR. induction Hw as [|[[kind key] value] [p value'] changes written [Hp Hv] _ IH];
    intros R R' HR; [done|]. cbn in Hp. subst p. cbn [recorded foldl]. apply IH.
  intros kind' key'. rewrite !record_changed_at. case_decide as E; [|apply HR]. injection E as -> ->. done.
Qed.

Lemma kinds_ok_written changes written : Forall2 change_written changes written → kinds_ok changes → kinds_ok written.
Proof.
  induction 1 as [|c c' changes written [Hp _] _ IH]; [done|]. intros [Hk Hks]%Forall_cons.
  constructor; [by rewrite Hp|by apply IH].
Qed.
End order.

Section spec.
Context {C : Codec} {X : XSecrets} (sha1 : bytes → bytes) (message_id : MessageId → string).
Context {St : Type} `{RecordStore St} (store : St) (R : records).
Hypothesis get_ok : ∀ kind key o, kind_ok kind →
  rs_get store kind key = Ok o → o = R !! (kind, key).

Lemma decide_group_spec group now epoch b next b' after decided : wf R b → Forall op_ok group →
  decide_group sha1 message_id store group now epoch b next = (b', after, decided) →
  wf R b' ∧ grows b b' ∧ over b b' ∧
  in_order sha1 message_id store now epoch (view R b) next group decided (view R b') after.
Proof.
  intros Hwf Hok. revert b next b' after decided Hwf.
  induction Hok as [|op group Hop _ IH]; intros b next b' after decided Hwf; cbn [decide_group].
  { intros [= <- <- <-]. split; [done|]. split; [by apply grows_same|]. split; [apply same_over, same_refl|constructor]. }
  pose proof (decide_op_ok sha1 message_id op now epoch next Hop) as Hp.
  destruct (stage store (decide_op sha1 message_id op now epoch next) b) as [b1 r] eqn:Es.
  destruct (stage_spec store R get_ok _ _ _ _ Hwf Hp Es) as [Hw1 Ha].
  pose proof (stage_grows store R get_ok _ _ _ _ Hwf Hp Es) as Hg1.
  pose proof (stage_over store R get_ok _ _ _ _ Hwf Hp Es) as Hv1.
  destruct r as [[done_ next1]|e].
  - destruct (decide_group sha1 message_id store group now epoch b1 next1) as [[b2 a2] d2] eqn:Eg.
    intros [= <- <- <-]. destruct (IH _ _ _ _ _ Hw1 Eg) as (Hw2 & Hg2 & Hv2 & Ho).
    split; [done|]. split; [by eapply grows_trans|]. split; [by eapply over_trans|]. by eapply one_done.
  - destruct (decide_group sha1 message_id store group now epoch b1 next) as [[b2 a2] d2] eqn:Eg.
    intros [= <- <- <-]. destruct Ha as [Hs He]. destruct (IH _ _ _ _ _ Hw1 Eg) as (Hw2 & Hg2 & Hv2 & Ho).
    split; [done|]. split; [by eapply grows_trans|]. split; [by eapply over_trans|].
    rewrite <- (same_view R _ _ Hs) in Ho. by eapply one_failed.
Qed.

Lemma in_order_length now epoch R0 next group decided R1 after :
  in_order sha1 message_id store now epoch R0 next group decided R1 after → length decided = length group.
Proof. induction 1; cbn; congruence. Qed.
End spec.
(** ** The audit sequence *)

Definition not_audit (kind : string) : Prop := kind ∉ [AUDIT; SEQUENCE].
#[export] Instance not_audit_dec kind : Decision (not_audit kind).
Proof. unfold not_audit. apply _. Defined.

Section audit_puts.
Context {C : Codec} (sha1 : bytes → bytes) (message_id : MessageId → string).

Lemma audit_others :
  Forall not_audit [CLAIM; JOURNEY; MESSAGE; HELD; HELD_JOURNEY; PLACES; FAILED; k_by FAILED_KINDS;
    k_places FAILED_KINDS; ORIGIN; DEAD; DEAD_MESSAGE; DEAD_PLACES; INSTANCE; INSTANCE_KEY; PUBLICATION].
Proof. apply (bool_decide_unpack _). by vm_compute. Qed.

Ltac others :=
  let HP := fresh in pose proof audit_others as HP; rewrite !Forall_cons in HP;
  destruct HP as (? & ? & ? & ? & ? & ? & ? & ? & ? & ? & ? & ? & ? & ? & ? & ? & _).

Lemma hand_on_no_audit h now : puts_only not_audit (hand_on h now).
Proof. others. unfold hand_on, handed_on, handed_records, handed_places, stored, hold, end_. prog_walk. Qed.

Lemma turn_no_audit t now : puts_only not_audit (turn t now).
Proof.
  others. assert (∀ key, puts_only not_audit (owner key)) by (intros; unfold owner; prog_walk).
  assert (∀ ws, puts_only not_audit (all_stand ws)) by (induction ws; cbn [all_stand]; prog_walk).
  assert (∀ ks, puts_only not_audit (all_own ks)) by (induction ks; cbn [all_own]; prog_walk).
  pose proof hand_on_no_audit. unfold turn, current, write_instances. prog_walk.
Qed.

Lemma publication_no_audit p now epoch : puts_only not_audit (decide_publication sha1 message_id p now epoch).
Proof.
  others. assert (∀ l, puts_only not_audit (still_held l)) by (induction l; cbn [still_held]; unfold stored; prog_walk).
  assert (∀ l now until epoch, puts_only not_audit (take_each l now until epoch)).
  { intros. eapply puts_only_weaken, take_each_puts. by intros ? ->. }
  assert (∀ d, puts_only not_audit (keep_dead d)) by (intros; unfold keep_dead; prog_walk).
  unfold decide_publication, published_records. prog_walk.
Qed.

Lemma replay_no_audit r : puts_only not_audit (replay r).
Proof. others. unfold replay. prog_walk. Qed.

Lemma renew_no_audit claims now lease : puts_only not_audit (renew_each claims now lease).
Proof.
  others. induction claims as [|claim claims IH]; [done|]. cbn [renew_each]. unfold renew, stored, hold. prog_walk.
Qed.
Lemma claim_no_audit claim now until epoch : puts_only not_audit (take claim now until epoch).
Proof. others. unfold take, stored, hold. prog_walk. Qed.
Lemma release_no_audit claim : puts_only not_audit (release claim).
Proof. others. unfold release, stored, end_. prog_walk. Qed.
End audit_puts.

(** The number the records keep under [which], zero where none is. *)
Definition numbered (R : records) (which : bytes) (n : u64) : Prop :=
  match R !! (SEQUENCE, which) with Some b => b = be n | None => n = wrap 0 end.

(** The audit records are those of the numbers from [kept], the first the
    keeper has not moved, to before [next]: one each, and no other. *)
Record audited (R : records) (next kept : u64) : Prop := {
  audited_kept : numbered R KEPT kept;
  audited_order : (uval kept ≤ uval next)%N;
  audited_at key : is_Some (R !! (AUDIT, key)) ↔
    ∃ n : u64, key = be n ∧ (uval kept ≤ uval n < uval next)%N;
}.

(** What comes after: no record before the next number is changed until the
    keeper has moved it. *)
Record goes_on (R : records) (next kept : u64) (R' : records) (next' kept' : u64) : Prop := {
  on_audited : audited R' next' kept';
  on_kept : (uval kept ≤ uval kept')%N;
  on_next : (uval next ≤ uval next')%N;
  on_same (n : u64) : (uval kept' ≤ uval n < uval next)%N → R' !! (AUDIT, be n) = R !! (AUDIT, be n);
  on_number : R' !! (SEQUENCE, NEXT) = R !! (SEQUENCE, NEXT);
}.

(** What a group may ask: no record put over the sequence, and none but one
    written forgotten. *)
Definition in_sequence (next : u64) (op : Op) : Prop :=
  match op with
  | OpPut kind _ _ => not_audit kind
  | OpKept number => (uval number < uval next)%N
  | _ => True
  end.

Section sequence.
Context {C : Codec} {CO : CodecOk C}.
Implicit Types (R : records) (next kept : u64).

Lemma audited_frame R R' next kept : (∀ kind key, ¬ not_audit kind → R' !! (kind, key) = R !! (kind, key)) →
  audited R next kept → goes_on R next kept R' next kept.
Proof.
  intros Hf [Hk Ho Ha].
  assert (¬ not_audit AUDIT) by (unfold not_audit; set_solver).
  assert (¬ not_audit SEQUENCE) by (unfold not_audit; set_solver).
  split; [split|lia|lia|by intros; apply Hf|by apply Hf].
  - unfold numbered in *. by rewrite Hf.
  - done.
  - intros key. by rewrite Hf.
Qed.

Lemma goes_on_trans R next kept R1 next1 kept1 R2 next2 kept2 :
  goes_on R next kept R1 next1 kept1 → goes_on R1 next1 kept1 R2 next2 kept2 →
  goes_on R next kept R2 next2 kept2.
Proof.
  intros [A1 K1 N1 S1 M1] [A2 K2 N2 S2 M2]. split; [done|lia|lia| |congruence].
  intros n Hn. rewrite S2 by lia. apply S1. lia.
Qed.

Lemma exec_audit R next kept entry next' R' : audited R next kept → (uval next + 1 < 2 ^ 64)%N →
  exec (audit entry next) R = Ok (next', R') →
  goes_on R next kept R' next' kept ∧ (uval next' ≤ uval next + 1)%N ∧
  R' !! (AUDIT, be next) = Some (to_bytes entry).
Proof.
  intros [Hk Ho Ha] Hn E. unfold audit in E. rewrite exec_put in E.
  assert (next' = wadd next 1 ∧ R' = record_change R (AUDIT, be next, Some (to_bytes entry))) as [-> ->]
    by by injection E.
  assert (uval (wadd next 1) = uval next + 1)%N as Ew by by apply uval_wadd.
  split; [split; [split| | | |]|].
  - unfold numbered. by rewrite record_changed_at, decide_False by by intros [=].
  - lia.
  - intros key. rewrite record_changed_at. case_decide as Hd.
    + apply pair_equal_spec in Hd as [_ ->]. split; [|done]. intros _. exists next. split; [done|]. lia.
    + rewrite Ha. rewrite Ew. split; intros (n & -> & ?); exists n; (split; [done|]); [lia|].
      assert (uval n ≠ uval next) by (intros Hne%uint_eq; by subst n). lia.
  - lia.
  - lia.
  - intros n Hn'. rewrite record_changed_at, decide_False; [done|].
    intros [_ ->%be_inj]%pair_equal_spec. lia.
  - by rewrite record_changed_at, decide_False by by intros [=].
  - split; [lia|]. rewrite record_changed_at. by rewrite decide_True.
Qed.

(** The keeper's record forgotten, where it is the first it has not moved. *)
Definition forgotten R (number : u64) : records :=
  record_change (record_change R (AUDIT, be number, None)) (SEQUENCE, KEPT, Some (be (wadd number 1))).

Lemma exec_keep_moved_as R kept number : numbered R KEPT kept →
  exec (keep_moved number) R = if decide (kept = number) then Ok (true, forgotten R number) else Ok (false, R).
Proof.
  intros Hk. unfold keep_moved. rewrite exec_read.
  assert (exec (lift match R !! (SEQUENCE, KEPT) with
              | Some bytes => match array 8 bytes with
                  | Some array => Ok (of_be array)
                  | None => Err (malformed "an audit sequence that is not eight bytes") end
              | None => Ok (wrap 0) end) R = Ok (kept, R)) as Ek.
  { unfold numbered in Hk. destruct (R !! (SEQUENCE, KEPT)) as [b|]; [|by subst]. subst b.
    assert (array 8 (be kept) = Some (be kept)) as -> by (apply array_Some; by rewrite length_be).
    by rewrite of_be_be. }
  rewrite exec_bind, Ek. cbn [mbind result_bind]. case_decide; [|done]. by rewrite !exec_put.
Qed.

Lemma exec_keep_moved R next kept number yes R' : audited R next kept → (uval number < uval next)%N →
  exec (keep_moved number) R = Ok (yes, R') →
  ∃ kept', goes_on R next kept R' next kept'.
Proof.
  intros HA Hn E. pose proof HA as [Hk Ho Ha]. rewrite (exec_keep_moved_as R kept) in E by done.
  case_decide as Hd; injection E as _ <-; [subst kept|exists kept; by apply audited_frame].
  exists (wadd number 1). unfold forgotten.
  assert (uval (wadd number 1) = uval number + 1)%N as Ew.
  { apply uval_wadd. pose proof (uval_lt next). lia. }
  split; [split| | | |].
  - unfold numbered. by rewrite record_changed_at, decide_True.
  - lia.
  - intros key. rewrite record_changed_at, decide_False by by intros [=].
    rewrite record_changed_at. case_decide as Hd.
    + apply pair_equal_spec in Hd as [_ ->]. split; [by intros [? [=]]|]. intros (n & ->%be_inj & ?). lia.
    + rewrite Ha. split; intros (n & -> & ?); exists n; (split; [done|]); [|lia].
      assert (uval n ≠ uval number) by (intros Hne%uint_eq; by subst n). lia.
  - lia.
  - lia.
  - intros n Hn'. rewrite record_changed_at, decide_False by by intros [=].
    rewrite record_changed_at, decide_False; [done|]. intros [_ ->%be_inj]%pair_equal_spec. lia.
  - rewrite record_changed_at, decide_False by by intros [=].
    by rewrite record_changed_at, decide_False by by intros [=].
Qed.
End sequence.

Section audited_group.
Context {C : Codec} {CO : CodecOk C} (sha1 : bytes → bytes) (message_id : MessageId → string).

Lemma exec_frame {A} (p : prog A) R a R' next kept : puts_only not_audit p → exec p R = Ok (a, R') →
  audited R next kept → goes_on R next kept R' next kept.
Proof. intros Hp E. apply audited_frame. intros kind key. by eapply exec_puts_only. Qed.

(** One operation goes on with the sequence by at most one record. *)
Lemma exec_op_audited R next kept op now epoch d next1 R1 : audited R next kept → in_sequence next op →
  (uval next + 1 < 2 ^ 64)%N →
  exec (decide_op sha1 message_id op now epoch next) R = Ok ((d, next1), R1) →
  ∃ kept', goes_on R next kept R1 next1 kept' ∧ (uval next1 ≤ uval next + 1)%N.
Proof.
  intros HA Hop Hn E.
  assert (∀ {A} (p : prog A) (f : A → Done), puts_only not_audit p →
    exec (a ← p; mret (f a, next)) R = Ok ((d, next1), R1) →
    ∃ kept', goes_on R next kept R1 next1 kept' ∧ (uval next1 ≤ uval next + 1)%N) as Hquiet.
  { intros A p f Hp Ep. apply exec_bind_Ok in Ep as (a & R' & Ep & Er). injection Er as _ <- <-.
    exists kept. split; [by eapply exec_frame|lia]. }
  assert (∀ R0 entry (f : u64 → Done * u64) d' n1 R2, goes_on R next kept R0 next kept →
    (∀ n, (f n).2 = n) → exec (n ← audit entry next; mret (f n)) R0 = Ok ((d', n1), R2) →
    ∃ kept', goes_on R next kept R2 n1 kept' ∧ (uval n1 ≤ uval next + 1)%N) as Haudit.
  { intros R0 entry f d' n1 R2 Hg Hf Ep. apply exec_bind_Ok in Ep as (n & R' & Ep & Er).
    destruct (exec_audit R0 next kept entry n R' (on_audited _ _ _ _ _ _ Hg) Hn Ep) as (Hg' & Hle & _).
    assert (n1 = n ∧ R2 = R') as [-> ->].
    { specialize (Hf n). injection Er as Er <-. rewrite Er in Hf. by cbn in Hf. }
    exists kept. split; [by eapply goes_on_trans|done]. }
  assert (∀ R, audited R next kept → goes_on R next kept R next kept) as Hrefl by (intros; by apply audited_frame).
  destruct op; cbn [decide_op in_sequence] in *.
  - eapply (Hquiet _ _ (λ _, DoneWritten)); [|exact E]. by apply puts_only_put.
  - eapply (Hquiet _ _ DoneClaim); [apply claim_no_audit|exact E].
  - eapply (Hquiet _ _ DoneClaims); [apply renew_no_audit|exact E].
  - eapply (Hquiet _ _ DoneYes); [apply release_no_audit|exact E].
  - eapply (Hquiet _ _ DoneYes); [apply hand_on_no_audit|exact E].
  - eapply (Hquiet _ _ DoneYes); [apply turn_no_audit|exact E].
  - apply exec_bind_Ok in E as (decided & R' & Ep & E).
    pose proof (exec_frame _ _ _ _ next kept (publication_no_audit _ _ _ _ _) Ep HA) as Hg.
    destruct decided as [held|held]; [by eapply (Haudit _ _ (λ n, (DoneClaims held, n)))|].
    injection E as _ <- <-. exists kept. split; [done|lia].
  - apply exec_bind_Ok in E as (replayed & R' & Ep & E).
    pose proof (exec_frame _ _ _ _ next kept (replay_no_audit _) Ep HA) as Hg.
    destruct replayed; [by eapply (Haudit _ _ (λ n, (DoneReplayed Now, n)))|..];
      injection E as _ <- <-; exists kept; (split; [done|lia]).
  - by eapply (Haudit R entry (λ n, (DoneWritten, n))); [apply Hrefl|..].
  - apply exec_bind_Ok in E as (yes & R' & Ep & E). injection E as _ <- <-.
    destruct (exec_keep_moved _ _ _ _ _ _ HA Hop Ep) as [kept' ?]. exists kept'. split; [done|lia].
Qed.

Lemma in_order_audited {St : Type} `{RecordStore St} (store : St) now epoch R next group decided R1 after kept :
  in_order sha1 message_id store now epoch R next group decided R1 after →
  audited R next kept → Forall (in_sequence next) group →
  (uval next + N.of_nat (length group) < 2 ^ 64)%N →
  ∃ kept', goes_on R next kept R1 after kept'.
Proof.
  intros Hin. revert kept. induction Hin as [R next|R next op done_ next1 R1 group decided R2 next2 E _ IH
    |R next op e group decided R2 next2 _ _ IH]; intros kept HA Hs Hn.
  - exists kept. by apply audited_frame.
  - apply Forall_cons in Hs as [Hop Hs]. cbn [length] in Hn.
    destruct (exec_op_audited _ _ _ _ _ _ _ _ _ HA Hop ltac:(lia) E) as (kept1 & Hg & Hle).
    destruct (IH kept1) as [kept2 Hg2]; [by apply Hg| |lia|].
    + eapply Forall_impl; [exact Hs|]. intros []; cbn; try done. pose proof (on_next _ _ _ _ _ _ Hg). lia.
    + exists kept2. by eapply goes_on_trans.
  - apply Forall_cons in Hs as [_ Hs]. cbn [length] in Hn. apply IH; [done|done|lia].
Qed.
End audited_group.

(** ** The theorems *)

Module CommitTheorems.
Section theorems.
Context {C : Codec} {CO : CodecOk C} {X : XSecrets} (sha1 : bytes → bytes) (message_id : MessageId → string)
  (secret_error : SecretError → string).
Context {St : Type} `{RecordStoreOk St}.

(** The batch a group leaves, before it is written. *)
Lemma group_batch (store : St) R I group now epoch next b after decided b1 r : rs_repr store R I →
  Forall op_ok group →
  decide_group sha1 message_id store group now epoch empty_batch next = (b, after, decided) →
  settle store b = (b1, r) →
  let b2 := if decide (after = next) then b1 else Batch.put b1 SEQUENCE NEXT (Some (be after)) in
  ∃ R1, in_order sha1 message_id store now epoch R next group decided R1 after ∧
    wf R b2 ∧ kinds_ok (changes b2) ∧
    (∀ kind key, kind ≠ DUE_PLACES → (kind, key) ≠ (SEQUENCE, NEXT) →
       recorded R (changes b2) !! (kind, key) = R1 !! (kind, key)) ∧
    recorded R (changes b2) !! (SEQUENCE, NEXT) =
      if decide (after = next) then R1 !! (SEQUENCE, NEXT) else Some (be after).
Proof.
  intros HR Hok Eg Es b2.
  assert (∀ kind key o, kind_ok kind → rs_get store kind key = Ok o → o = R !! (kind, key)) as get_ok
    by (intros; by eapply rs_get_spec).
  destruct (decide_group_spec sha1 message_id store R get_ok _ _ _ _ _ _ _ _ (wf_empty R) Hok Eg)
    as (Hw & Hg & Ho & Hin).
  destruct (settle_settled store R get_ok _ _ _ Hw Es) as [Hw1 Hg1 Ho1 Hv1].
  assert (grows b1 b2 ∧ over b1 b2 ∧ wf R b2) as (Hg2 & Ho2 & Hw2).
  { unfold b2. case_decide; [split; [by apply grows_same|]; split; [apply same_over, same_refl|done]|].
    split; [by apply grows_put; apply (bool_decide_unpack _); vm_compute|]. split; [apply over_put|by apply wf_put]. }
  rewrite view_empty in Hin. exists (view R b). split; [done|]. split; [done|].
  assert (recorded R (changes b2) = view R b2) as ->.
  { pose proof (over_trans _ _ _ (over_trans _ _ _ Ho Ho1) Ho2) as Hbot.
    destruct b2; [by destruct Hw2|done]. }
  split.
  { destruct (grows_trans _ _ _ (grows_trans _ _ _ Hg Hg1) Hg2) as (l & -> & Hl). done. }
  split.
  - intros kind key Hk Hn. rewrite <- Hv1 by done. unfold b2. case_decide; [done|].
    by rewrite view_put, record_changed_at, decide_False.
  - rewrite <- Hv1 by (by apply (bool_decide_unpack _); vm_compute). unfold b2. case_decide; [done|].
    rewrite view_put, record_changed_at. by rewrite decide_True.
Qed.

(** What a group leaves: all of it written, or nothing. *)
Lemma group_written (store store' : St) (R : records) (I : entries) (group : list Op)
    (now : i128) (epoch next next' : u64) (answers : list (result (Done * Durable))) :
  rs_repr store R I → Forall op_ok group →
  committed sha1 message_id secret_error store group now epoch next = (store', next', answers) →
  ∃ decided R1 after, in_order sha1 message_id store now epoch R next group decided R1 after ∧
    ((next' = after ∧ ∃ durable R2 I2, rs_repr store' R2 I2 ∧ left_as now R1 R2 next after ∧
        (durable = durable_kept → store' = store) ∧
        answers = (λ done : result Done, ((λ d, (d, durable)) <$> done : result (Done * Durable))) <$> decided) ∨
     (store' = store ∧ next' = next ∧ ∃ e, Forall (λ a, a = Err (again secret_error e)) answers ∧
        length answers = length group)).
Proof.
  intros HR Hok. unfold committed.
  destruct (decide_group sha1 message_id store group now epoch empty_batch next) as [[b after] decided] eqn:Eg.
  destruct (settle store b) as [b1 r] eqn:Es.
  destruct (group_batch store R I group now epoch next b after decided b1 r HR Hok Eg Es) as (R1 & Hin & Hw & Hk & Hl1 & Hl2).
  set (b2 := if decide (after = next) then b1 else Batch.put b1 SEQUENCE NEXT (Some (be after))) in *.
  intros E. exists decided, R1, after. split; [done|].
  destruct (nothing (changes b2)) eqn:En.
  - injection E as <- <- <-. left. split; [done|]. eexists _, R, I. split; [done|]. split; [|by split].
    destruct (changes b2); [|discriminate]. split; [|done]. intros. rewrite Hl1 by done. apply written_as_refl.
  - destruct (write_batch store b2 r now) as [s|e] eqn:Ew; injection E as <- <- <-.
    + left. split; [done|]. unfold write_batch in Ew. apply bind_Ok in Ew as ([] & _ & Ew).
      apply bind_Ok in Ew as ([written es] & Ew & Ea).
      destruct (written_over Runtime (Batch.before store) (nanos now) ∅ b2 (changes b2)) as [s' w'] eqn:Eo.
      cbn in Ew. subst w'. apply written_over_as in Eo. eexists durable_pending, _, _.
      split; [eapply rs_apply_indexed_deferred_spec; [done|by eapply kinds_ok_written|done]|].
      split; [|split; [by intros [=]|done]].
      pose proof (recorded_written_as now R R _ _ (λ kind key, written_as_refl now kind _) Eo) as Hwr. split.
      * intros kind key Hd Hn. by rewrite <- Hl1.
      * assert (searched_of Runtime SEQUENCE = None) as Hs by by vm_compute.
        specialize (Hwr SEQUENCE NEXT). unfold written_as in Hwr. rewrite Hs in Hwr. by rewrite Hwr.
    + right. split; [done|]. split; [done|]. exists e. split.
      * apply Forall_fmap, Forall_true. done.
      * rewrite length_fmap. by eapply in_order_length.
Qed.

(** C1. A group commits as its operations one after another. Whatever
    the writes that waited and whatever the store held, each is decided on
    the records as those before it left them: all of what it does, or, where
    it fails or the store cannot be read, none of it, its audit numbers with
    it. Then either all of that is written at once - each record as it was
    decided, a searchable one with its times set, beside where the queues'
    first due are and the next audit number - and each write is answered
    what it decided; or nothing is written, no audit number is used, and
    every write in the group is answered with the batch's failure. A write is
    answered durable already only where the group changed nothing. *)
Theorem group_commits_in_order (store store' : St) (R : records) (I : entries) (group : list Op)
    (now : i128) (epoch next next' : u64) (answers : list (result (Done * Durable))) :
  rs_repr store R I → Forall op_ok group →
  committed sha1 message_id secret_error store group now epoch next = (store', next', answers) →
  ∃ decided R1 after, in_order sha1 message_id store now epoch R next group decided R1 after ∧
    ((next' = after ∧ ∃ durable R2 I2, rs_repr store' R2 I2 ∧ left_as now R1 R2 next after ∧
        (durable = durable_kept → store' = store) ∧
        answers = (λ done : result Done, ((λ d, (d, durable)) <$> done : result (Done * Durable))) <$> decided) ∨
     (store' = store ∧ next' = next ∧ ∃ e, Forall (λ a, a = Err (again secret_error e)) answers ∧
        length answers = length group)).
Proof. exact (group_written store store' R I group now epoch next next' answers). Qed.

(** A write that changes nothing is answered as durable at once. A
    hand-on asked again after it was done - its answer lost, its batch
    written and not synced yet - is answered done and durable, without the
    store being synced or changed: the batch it is decided in is empty, and
    nothing of the batch that did it is waited for. *)
Theorem asked_again_answered_durable (store store' : St) (R : records) (I : entries)
    (c : gmap JourneyId Stored) (st : Stored) (h : HandOn) (now : i128) (epoch next next' : u64)
    (answers : list (result (Done * Durable))) :
  rs_repr store R I → claims_are R c → c !! c_journey (ho_claim h) = Some st →
  s_standing st = HandedOn → is_claim (s_claim st) (ho_claim h) = true →
  committed sha1 message_id secret_error store [OpHandOn h] now epoch next = (store', next', answers) →
  store' = store ∧ next' = next ∧
  (answers = [Ok (DoneYes true, durable_kept)] ∨
   ∃ e, answers = [Err e] ∧ rs_get store CLAIM (claim_key (ho_claim h)) = Err e).
Proof.
  intros HR Hc Hst Hs Hours. unfold committed. cbn [decide_group]. unfold stage, decide_op, hand_on, stored.
  assert (kind_ok CLAIM) as Hk by (by apply (bool_decide_unpack _); vm_compute).
  cbn [mbind prog_bind run batch_read]. unfold Batch.read, staged, empty_batch. cbn [written].
  rewrite lookup_empty. cbn [Batch.before]. rewrite lookup_empty.
  destruct (rs_get store CLAIM (claim_key (ho_claim h))) as [o|e] eqn:Eo.
  - apply (rs_get_spec _ _ _ _ _ _ HR Hk) in Eo as ->. unfold claim_key. rewrite (claims_kept _ _ Hc), Hst.
    cbn [fmap option_fmap option_map].
    rewrite stored_rt by by eapply claims_fit. cbn [transpose lift mbind prog_bind].
    rewrite Hs, Hours. cbn [mbind prog_bind run mret prog_ret]. cbv beta iota.
    rewrite settle_nothing by by apply left_id, _. rewrite decide_True by done. cbn [changes app nothing].
    intros E. injection E as <- <- <-. split; [done|]. split; [done|]. by left.
  - cbv beta iota. rewrite settle_nothing by done. rewrite decide_True by done. cbn [changes app nothing].
    intros E. injection E as <- <- <-. split; [done|]. split; [done|]. right. by exists e.
Qed.

(** C16. The audit sequence only grows. Where the audit records are
    one of each number from the first the keeper has not moved to before the
    next, they are so after any group: each audited act takes the next
    number, no number is skipped or given twice, the next and the first
    never go back, no record is changed or removed but by the keeper moving
    it, and the number kept for the next start is the one the writer goes on
    from - whether the group is written or not. *)
Theorem audit_sequence_grows (store store' : St) (R : records) (I : entries) (group : list Op)
    (now : i128) (epoch next next' kept : u64) (answers : list (result (Done * Durable))) :
  rs_repr store R I → audited R next kept → numbered R NEXT next →
  Forall op_ok group → Forall (in_sequence next) group →
  (uval next + N.of_nat (length group) < 2 ^ 64)%N →
  committed sha1 message_id secret_error store group now epoch next = (store', next', answers) →
  ∃ R' I' kept', rs_repr store' R' I' ∧ audited R' next' kept' ∧ numbered R' NEXT next' ∧
    (uval kept ≤ uval kept')%N ∧ (uval next ≤ uval next')%N ∧
    ∀ n : u64, (uval kept' ≤ uval n < uval next)%N → R' !! (AUDIT, be n) = R !! (AUDIT, be n).
Proof.
  intros HR HA HN Hok Hs Hn E.
  destruct (group_written store store' R I group now epoch next next' answers HR Hok E)
    as (decided & R1 & after & Hin & [(-> & durable & R2 & I2 & HR2 & [Hl Hl2] & _)|(-> & -> & _)]).
  2: { exists R, I, kept. done. }
  destruct (in_order_audited sha1 message_id store now epoch R next group decided R1 after kept Hin HA Hs Hn)
    as (kept' & [[Hk Ho Ha] Hkk Hnn Hsame Hnum]).
  assert (∀ kind key, ¬ not_audit kind → (kind, key) ≠ (SEQUENCE, NEXT) → R2 !! (kind, key) = R1 !! (kind, key)) as Hsm.
  { intros kind key Hkind Hne. unfold not_audit in Hkind. assert (kind ∈ [AUDIT; SEQUENCE]) as Hin'
      by (by destruct (decide (kind ∈ [AUDIT; SEQUENCE]))).
    assert (kind ≠ DUE_PLACES) as Hd by by intros ->; apply Hkind; apply (bool_decide_unpack _); vm_compute.
    specialize (Hl kind key Hd Hne). unfold written_as in Hl.
    assert (searched_of Runtime kind = None) as Hnone; [|by rewrite Hnone in Hl].
    repeat (apply elem_of_cons in Hin' as [->|Hin']; [by vm_compute|]). by apply elem_of_nil in Hin'. }
  assert (¬ not_audit AUDIT ∧ ¬ not_audit SEQUENCE) as [HAU HSE] by (unfold not_audit; set_solver).
  exists R2, I2, kept'. split; [done|]. split; [split|].
  - unfold numbered in *. by rewrite Hsm.
  - done.
  - intros key. by rewrite Hsm by (done || by intros [=]).
  - split; [|split; [done|]; split; [done|]; intros n ?; rewrite Hsm by (done || by intros [=]); auto].
    unfold numbered in *. rewrite Hl2. case_decide; [|done]. subst after. by rewrite Hnum.
Qed.
End theorems.

(** ** An example *)

#[local] Existing Instance Plain.codec_ok.
#[local] Existing Instances SecretTheorems.two_names SecretTheorems.two_names_ok.

Definition example_committed (store : Ledger.Ledger) (group : list Op) (next : N) :
    Ledger.Ledger * u64 * list (result (Done * Durable)) :=
  committed (C := Plain.codec) (λ b, firstn 4 b) (λ _, "a message"%string) (λ _, "a key"%string)
    store group (i128_clamp 50) (wrap 2) (wrap next).
Definition example_nothing : Ledger.Ledger := {| Ledger.recs := ∅; Ledger.idx := ∅ |}.
(** An act audited, two who claim one Journey, and a step handed on under a
    claim nobody holds. *)
Definition example_group : list Op :=
  [OpAudit (Examples.audit 30); OpClaim (ClaimTheorems.example_claim 3) (i128_clamp 100);
   OpClaim (ClaimTheorems.example_claim 4) (i128_clamp 100); OpRelease (ClaimTheorems.example_claim 4)].
Definition answered (o : Ledger.Ledger * u64 * list (result (Done * Durable))) : list (option (option bool * Durable)) :=
  (λ r : result (Done * Durable), match r with
    | Ok (DoneClaim claim, durable) => Some (Some (is_some claim), durable)
    | Ok (DoneYes yes, durable) => Some (Some yes, durable)
    | Ok (_, durable) => Some (None, durable)
    | Err _ => None
    end) <$> o.2.

Lemma group_commits_in_order_witness :
  answered (example_committed example_nothing example_group 0) =
    [Some (None, durable_pending); Some (Some true, durable_pending);
     Some (Some false, durable_pending); Some (Some false, durable_pending)] ∧
  ∃ decided R1 after, in_order (C := Plain.codec) (λ b, firstn 4 b) (λ _, "a message"%string)
    example_nothing (i128_clamp 50) (wrap 2) ∅ (wrap 0) example_group decided R1 after.
Proof.
  split; [by vm_compute|].
  destruct (example_committed example_nothing example_group 0) as [[store' next'] answers] eqn:E.
  destruct (group_commits_in_order (C := Plain.codec) (λ b, firstn 4 b) (λ _, "a message"%string)
    (λ _, "a key"%string) example_nothing store' ∅ ∅ example_group (i128_clamp 50) (wrap 2) (wrap 0) next'
    answers) as (decided & R1 & after & Hin & _);
    [exact (conj eq_refl eq_refl)|repeat constructor|exact E|].
  exists decided, R1, after. exact Hin.
Defined.

(** The claim handed on, and its hand-on asked again. *)
Definition example_done : Stored := {| s_claim := ClaimTheorems.example_claim 3; s_standing := HandedOn |}.
Definition example_store : Ledger.Ledger := {|
  Ledger.recs := record_change ∅ (CLAIM, claim_key (ClaimTheorems.example_claim 3),
    Some (stored_bytes (C := Plain.codec) example_done));
  Ledger.idx := ∅ |}.

Lemma asked_again_answered_durable_witness :
  (example_committed example_store [OpHandOn ClaimTheorems.example_hand_on] 0).1.1 = example_store ∧
  answered (example_committed example_store [OpHandOn ClaimTheorems.example_hand_on] 0) =
    [Some (Some true, durable_kept)].
Proof.
  destruct (example_committed example_store [OpHandOn ClaimTheorems.example_hand_on] 0)
    as [[store' next'] answers] eqn:E.
  destruct (asked_again_answered_durable (C := Plain.codec) (λ b, firstn 4 b) (λ _, "a message"%string)
    (λ _, "a key"%string) example_store store' (Ledger.recs example_store) ∅
    (<[wrap 7 := example_done]> ∅) example_done ClaimTheorems.example_hand_on (i128_clamp 50) (wrap 2)
    (wrap 0) next' answers) as (-> & _ & [->|(e & _ & He)]); [exact (conj eq_refl eq_refl)| | |reflexivity|vm_compute; reflexivity|exact E|split; reflexivity|discriminate He].
  - apply (claims_are_written (C := Plain.codec) ∅ ∅ (ClaimTheorems.example_claim 3) HandedOn); [|by vm_compute].
    split; [intros j; by rewrite !lookup_empty|intros j st Ej; by rewrite lookup_empty in Ej].
  - apply lookup_insert_eq.
Defined.

Lemma audit_sequence_grows_witness :
  ∃ R' I' kept', rs_repr (example_committed example_nothing example_group 0).1.1 R' I' ∧
    audited R' (wrap 1) kept' ∧ numbered R' NEXT (wrap 1).
Proof.
  destruct (example_committed example_nothing example_group 0) as [[store' next'] answers] eqn:E.
  assert (next' = wrap 1) as ->.
  { assert ((example_committed example_nothing example_group 0).1.2 = wrap 1) as En by by vm_compute.
    by rewrite E in En. }
  destruct (audit_sequence_grows (C := Plain.codec) (λ b, firstn 4 b) (λ _, "a message"%string)
    (λ _, "a key"%string) example_nothing store' ∅ ∅ example_group (i128_clamp 50) (wrap 2) (wrap 0) (wrap 1)
    (wrap 0) answers) as (R' & I' & kept' & HR & HA & HN & _);
    [exact (conj eq_refl eq_refl)| |reflexivity|repeat constructor|repeat constructor|vm_compute; reflexivity|exact E|].
  - clear E. split; [reflexivity|reflexivity|]. intros key. rewrite lookup_empty.
    split; [by intros []|]. intros (n & _ & Hn). exfalso. revert Hn. change (uval (wrap 0 : u64)) with 0%N. lia.
  - exists R', I', kept'. split; [exact HR|]. split; [exact HA|exact HN].
Defined.
End CommitTheorems.
