(* ===== verification/Waiting.v ===== *)
(** * The writes waiting for the writer, and who leads
    (src/.src/storage/commit/waiting.rs, syncer.rs, durable.rs)

    Two machines of threads that share a queue. In [Lead], the callers of the
    writer: the one that finds none leading decides every write waiting as a
    batch, on its own thread, and hands the lead to the first still waiting.
    In [Sync], the writer and the sync thread: each batch written is handed
    over, and told once a sync begun after it was written returns.

    A step is what one thread does while it holds the lock, or between two
    of its locks; every interleaving of the threads is a sequence of steps. *)

From S2P Require Import Prelude.
From stdpp Require Import relations.

(** The most writes one batch takes (commit.rs). *)
Definition GROUP : nat := 1024.

Module Lead.
(** A caller of [decided], by its one write. *)
Abbreviation caller := nat.

(** Where the leader is: told to lead or leading with no batch in hand,
    deciding one, or with its own write answered and the lead still its. *)
Inductive Leader : Set :=
  | Leads (who : caller)
  | Decides (who : caller) (group : list caller)
  | HandsOn (who : caller).

(** [Waiting]'s queue - the writes waiting and whether a caller leads - with
    what its callers are at: the leader, those answered, and those gone. *)
Record Waiting : Set := {
  writes : list caller;
  leading : bool;
  leader : option Leader;
  answered : list caller;
  gone : list caller;
  arrived : list caller;
}.

(** [Waiting::new]. *)
Definition new : Waiting :=
  {| writes := []; leading := false; leader := None; answered := []; gone := []; arrived := [] |}.

(** [decided]'s first lock: the write waits, and its caller leads where none
    does. *)
Definition decided (c : caller) (w : Waiting) : Waiting :=
  {| writes := writes w ++ [c]; leading := true;
     leader := if leading w then leader w else Some (Leads c);
     answered := answered w; gone := gone w; arrived := arrived w ++ [c] |}.

(** [lead]'s lock: the group it decides next, as many as a batch takes, or
    nothing to lead. *)
Definition take_group (w : Waiting) : option (list caller) * list caller :=
  match writes w with
  | [] => (None, [])
  | _ =>
      if decide (length (writes w) ≤ GROUP) then (Some (writes w), [])
      else (Some (firstn GROUP (writes w)), drop GROUP (writes w))
  end.

Definition lead (who : caller) (w : Waiting) : Waiting :=
  match take_group w with
  | (None, _) =>
      {| writes := []; leading := false; leader := None; answered := answered w; gone := gone w;
         arrived := arrived w |}
  | (Some group, after) =>
      {| writes := after; leading := leading w; leader := Some (Decides who group);
         answered := answered w; gone := gone w; arrived := arrived w |}
  end.

(** After [commit] - or [recover], its replies dropped: every write of the
    group has its answer, an error where the batch panicked; the leader goes
    on until its own is among them. *)
Definition committed (who : caller) (group : list caller) (w : Waiting) : Waiting :=
  {| writes := writes w; leading := leading w;
     leader := Some (if decide (who ∈ group) then HandsOn who else Leads who);
     answered := answered w ++ group; gone := gone w; arrived := arrived w |}.

(** [hand_on]: to the first write waiting whose caller is there still. *)
Fixpoint first_there (gone writes : list caller) : list caller :=
  match writes with
  | [] => []
  | c :: rest => if decide (c ∈ gone) then first_there gone rest else writes
  end.

Definition hand_on (w : Waiting) : Waiting :=
  let there := first_there (gone w) (writes w) in
  {| writes := there;
     leading := match there with [] => false | _ => leading w end;
     leader := match there with [] => None | c :: _ => Some (Leads c) end;
     answered := answered w; gone := gone w; arrived := arrived w |}.

(** A caller's thread gone while its write waits, which the code allows for. *)
Definition goes (c : caller) (w : Waiting) : Waiting :=
  {| writes := writes w; leading := leading w; leader := leader w;
     answered := answered w; gone := c :: gone w; arrived := arrived w |}.

Inductive step : Waiting → Waiting → Prop :=
  | arrives c w : c ∉ arrived w → step w (decided c w)
  | takes who w : leader w = Some (Leads who) → step w (lead who w)
  | commits who group w : leader w = Some (Decides who group) → step w (committed who group w)
  | hands_on who w : leader w = Some (HandsOn who) → step w (hand_on w)
  | leaves c w : c ∈ writes w → leader w ≠ Some (Leads c) → step w (goes c w).

(** The callers a leader stands for: the one whose write it waits for. *)
Definition batch (w : Waiting) : list caller :=
  match leader w with Some (Decides _ group) => group | _ => [] end.

(** ** What holds in every state the threads reach *)

Record wf (w : Waiting) : Prop := {
  wf_leading : leading w = bool_decide (is_Some (leader w));
  wf_idle : leader w = None → writes w = [];
  wf_leads who : leader w = Some (Leads who) → head (writes w) = Some who ∧ who ∉ gone w;
  wf_decides who group : leader w = Some (Decides who group) → who ∈ group;
  wf_arrived : (answered w ++ batch w ++ writes w) `sublist_of` arrived w;
  wf_once : NoDup (arrived w);
  wf_gone c : c ∈ gone w → c ∈ arrived w;
  wf_each c : c ∈ arrived w → c ∈ answered w ++ batch w ++ writes w ∨ c ∈ gone w;
}.

Lemma new_wf : wf new.
Proof. split; try done; cbn; [constructor|intros c Hc; by apply elem_of_nil in Hc..]. Qed.

Lemma take_group_spec w : writes w ≠ [] →
  ∃ group after, take_group w = (Some group, after) ∧ writes w = group ++ after ∧ group ≠ [] ∧
    length group ≤ GROUP.
Proof.
  intros Hw. unfold take_group. destruct (writes w) as [|c rest] eqn:E; [done|]. case_decide as Hd.
  - exists (c :: rest), []. by rewrite app_nil_r.
  - exists (firstn GROUP (c :: rest)), (drop GROUP (c :: rest)). rewrite take_drop.
    split; [done|]. split; [done|]. split; [done|]. rewrite length_take. lia.
Qed.

Lemma first_there_spec gone writes :
  ∃ out, writes = out ++ first_there gone writes ∧ Forall (.∈ gone) out ∧
    ∀ c, head (first_there gone writes) = Some c → c ∉ gone.
Proof.
  induction writes as [|c writes (out & E & Ho & Hh)]; cbn [first_there]; [by exists []|].
  case_decide as Hc.
  - exists (c :: out). rewrite <- app_comm_cons, <- E. split; [done|]. split; [by constructor|done].
  - exists []. split; [done|]. split; [done|]. by intros ? [= <-].
Qed.

Lemma lead_step_wf w w' : wf w → step w w' → wf w'.
Proof.
  intros [Hl Hi Hh Hd Ha Ho Hg He] Hs. destruct Hs as [c w Hc|who w Hw|who group w Hw|who w Hw|c w Hc Hn].
  - assert (c ∉ gone w) as Hcg by (contradict Hc; auto).
    assert (batch (decided c w) = batch w) as Hb.
    { unfold batch, decided. cbn. rewrite Hl. destruct (leader w); [done|].
      by rewrite bool_decide_eq_false_2 by by intros [? [=]]. }
    split; rewrite ?Hb; cbn [writes leading leader answered gone arrived decided].
    + rewrite Hl. destruct (leader w); by rewrite ?bool_decide_eq_true_2 by eauto.
    + rewrite Hl. case_bool_decide as E; [intros E'; rewrite E' in E; by destruct E|done].
    + rewrite Hl. intros who. case_bool_decide as E.
      * intros Ew. destruct (Hh _ Ew) as [Hhd ?]. split; [|done]. by destruct (writes w).
      * intros [= <-]. rewrite Hi by (destruct (leader w); [destruct E; eauto|done]). done.
    + rewrite Hl. intros who group. case_bool_decide; [apply Hd|done].
    + rewrite !app_assoc. apply sublist_app; [by rewrite <- app_assoc|done].
    + apply NoDup_app. split; [done|]. split; [|apply NoDup_singleton].
      intros x Hx ->%list_elem_of_singleton. done.
    + intros x Hx. apply elem_of_app. auto.
    + intros x [Hx| ->%list_elem_of_singleton]%elem_of_app.
      * destruct (He x Hx) as [Hin|]; [left|by right]. rewrite !elem_of_app in *. tauto.
      * left. rewrite !elem_of_app. do 2 right. right. by apply list_elem_of_singleton.
  - destruct (Hh _ Hw) as [Hhd Hng]. assert (writes w ≠ []) as Hne by by destruct (writes w).
    destruct (take_group_spec w Hne) as (group & after & Et & Ew & Hgne & _). unfold lead. rewrite Et.
    unfold batch in *. rewrite Hw in *. cbn in Ha, He.
    split; cbn [writes leading leader answered gone arrived]; try done.
    + intros who' group' [= <- <-]. rewrite Ew in Hhd. destruct group; [done|].
      injection Hhd as ->. by left.
    + cbn. by rewrite <- Ew.
    + intros c Hc. cbn. rewrite <- Ew. by apply He.
  - pose proof (Hd _ _ Hw) as Hin. unfold batch in *. rewrite Hw in *.
    unfold committed. rewrite decide_True by done.
    split; cbn [writes leading leader answered gone arrived]; try done; [by rewrite <- app_assoc|].
    intros c Hc. cbn. rewrite <- app_assoc. by apply He.
  - destruct (first_there_spec (gone w) (writes w)) as (out & Eo & Hout & Hhead).
    unfold batch in *. rewrite Hw in *. cbn in Ha, He. unfold hand_on.
    set (there := first_there (gone w) (writes w)) in *.
    assert (answered w ++ there `sublist_of` arrived w) as Ha'.
    { etrans; [|exact Ha]. rewrite Eo. apply sublist_app; [done|]. by apply sublist_inserts_l. }
    assert (∀ c, c ∈ arrived w → c ∈ answered w ++ there ∨ c ∈ gone w) as He'.
    { intros c Hc. destruct (He c Hc) as [Hin|]; [|by right]. rewrite Eo in Hin.
      rewrite !elem_of_app in *. rewrite Forall_forall in Hout. naive_solver. }
    split; cbn [writes leading leader answered gone arrived].
    + rewrite Hl. destruct there; by rewrite ?bool_decide_eq_true_2 by eauto.
    + by destruct there.
    + destruct there as [|c rest] eqn:Et; [done|]. intros who' [= <-]. split; [done|]. by apply Hhead.
    + by destruct there.
    + by destruct there.
    + done.
    + done.
    + intros c Hc. destruct there; by apply He'.
  - split; cbn [writes leading leader answered gone arrived goes]; try done.
    + intros who Hw. destruct (Hh _ Hw) as [? ?]. split; [done|].
      intros [->|]%elem_of_cons; [by rewrite Hw in Hn|done].
    + intros x [->|Hx]%elem_of_cons; [|auto]. eapply elem_of_sublist; [|exact Ha].
      rewrite !elem_of_app. auto.
    + intros x Hx. rewrite elem_of_cons. destruct (He x Hx); auto.
Qed.

Lemma sublist_same_length {A} (l k : list A) : l `sublist_of` k → length k ≤ length l → l = k.
Proof.
  induction 1 as [|x l k Hs IH|x l k Hs IH]; cbn; intros Hlen; [done|f_equal; apply IH; lia|].
  apply sublist_length in Hs. lia.
Qed.

Lemma lead_reached_wf w : rtc step new w → wf w.
Proof.
  assert (∀ x, rtc step x w → wf x → wf w) as H.
  { induction 1 as [|x y z Hs _ IH]; [done|]. intros. by eapply IH, lead_step_wf. }
  intros. eapply H; [done|apply new_wf].
Qed.

(** ** The leader goes on until none waits *)

Inductive leader_step : Waiting → Waiting → Prop :=
  | leads_on who w : leader w = Some (Leads who) → leader_step w (lead who w)
  | commits_on who group w : leader w = Some (Decides who group) → leader_step w (committed who group w)
  | hands_over who w : leader w = Some (HandsOn who) → leader_step w (hand_on w).

Lemma leader_step_step w w' : leader_step w w' → step w w'.
Proof. intros []; by econstructor. Qed.

Lemma leader_step_same w w' : leader_step w w' → arrived w' = arrived w ∧ gone w' = gone w.
Proof. intros []; [|done|done]. unfold lead. by destruct (take_group _) as [[]]. Qed.

(** How far the leader is from having nothing left to do. *)
Definition left_to_do (w : Waiting) : nat :=
  3 * length (writes w) + match leader w with
                          | Some (Decides _ _) => 2 | Some (HandsOn _) => 1 | _ => 0
                          end.

Lemma leader_step_less w w' : wf w → leader_step w w' → left_to_do w' < left_to_do w.
Proof.
  intros [Hl Hi Hh Hd Ha Ho Hg He] Hs.
  destruct Hs as [who w Hw|who group w Hw|who w Hw]; unfold left_to_do; rewrite Hw.
  - destruct (Hh _ Hw) as [Hhd _]. assert (writes w ≠ []) as Hne by by destruct (writes w).
    destruct (take_group_spec w Hne) as (group & after & Et & Ew & Hgne & _). unfold lead. rewrite Et, Ew.
    rewrite length_app. cbn. destruct group; [done|]. cbn. lia.
  - unfold committed. rewrite decide_True by by eapply Hd. cbn. lia.
  - destruct (first_there_spec (gone w) (writes w)) as (out & Eo & _). unfold hand_on. cbn [writes leader].
    apply (f_equal length) in Eo. rewrite length_app in Eo. revert Eo.
    destruct (first_there (gone w) (writes w)); cbn [length]; lia.
Qed.

Lemma leads_to_the_end w : wf w → ∃ w', rtc leader_step w w' ∧ leader w' = None.
Proof.
  remember (left_to_do w) as n eqn:En. revert w En.
  induction (lt_wf n) as [n _ IH]. intros w -> Hw.
  destruct (leader w) as [[who|who group|who]|] eqn:El; [| | |by exists w].
  - destruct (IH (left_to_do (lead who w))) with (w := lead who w) as (w' & H & E);
      [by apply leader_step_less; [|constructor]|done|eapply lead_step_wf; [done|by constructor]|].
    exists w'. split; [|done]. eapply rtc_l; [by constructor|done].
  - destruct (IH (left_to_do (committed who group w))) with (w := committed who group w) as (w' & H & E);
      [by apply leader_step_less; [|constructor]|done|eapply lead_step_wf; [done|by constructor]|].
    exists w'. split; [|done]. eapply rtc_l; [by constructor|done].
  - destruct (IH (left_to_do (hand_on w))) with (w := hand_on w) as (w' & H & E);
      [by apply leader_step_less; [|econstructor]|done|eapply lead_step_wf; [done|by econstructor]|].
    exists w'. split; [|done]. eapply rtc_l; [by econstructor|done].
Qed.

(** C17. Writes are decided once each, in the order they came, and one
    caller leads. In every state the callers' threads reach by any
    interleaving: a caller leads exactly where the queue says one does, and
    none leads only where nothing waits; who leads has the first write
    waiting, so the first group it decides answers its own and it leads no
    more than that; every write that came is answered, in the group being
    decided or waiting - in the order they came, none twice - unless its
    caller is gone; and where no caller is gone, they are those that came. *)
Theorem decided_once_in_order (w : Waiting) : rtc step new w →
  leading w = bool_decide (is_Some (leader w)) ∧
  (leader w = None → writes w = []) ∧
  (∀ who, leader w = Some (Leads who) → head (writes w) = Some who) ∧
  (∀ who group, leader w = Some (Decides who group) → who ∈ group) ∧
  (answered w ++ batch w ++ writes w) `sublist_of` arrived w ∧
  NoDup (answered w ++ batch w ++ writes w) ∧
  (∀ c, c ∈ arrived w → c ∈ answered w ++ batch w ++ writes w ∨ c ∈ gone w) ∧
  (gone w = [] → answered w ++ batch w ++ writes w = arrived w).
Proof.
  intros [Hl Hi Hh Hd Ha Ho Hg He]%lead_reached_wf.
  repeat match goal with |- _ ∧ _ => split end; try done; [by intros; eapply Hh|by eapply sublist_NoDup|].
  intros Egone. apply sublist_same_length; [done|]. apply submseteq_length, NoDup_submseteq; [done|].
  intros c Hc. destruct (He c Hc) as [|Hin]; [done|]. rewrite Egone in Hin. by apply elem_of_nil in Hin.
Qed.

(** C18. No caller waits for an answer that never comes. Whatever the
    threads have done, there is a leader wherever a write waits; its steps -
    a batch, the lead handed on - each bring it nearer to an end, and at that
    end no write waits and every write that came is answered, a batch that
    panicked answering its own, but those whose callers are gone. *)
Theorem every_write_answered (w : Waiting) : rtc step new w →
  (writes w ≠ [] → is_Some (leader w)) ∧
  (∀ w', leader_step w w' → left_to_do w' < left_to_do w) ∧
  ∃ w', rtc leader_step w w' ∧ leader w' = None ∧ writes w' = [] ∧
    ∀ c, c ∈ arrived w → c ∈ answered w' ∨ c ∈ gone w.
Proof.
  intros Hw%lead_reached_wf. split; [|split].
  - intros Hne. destruct (leader w) eqn:E; [by eexists|]. by destruct Hne; apply Hw.
  - intros w'. by apply leader_step_less.
  - destruct (leads_to_the_end w Hw) as (w' & Hr & El). exists w'. split; [done|]. split; [done|].
    assert (wf w' ∧ arrived w' = arrived w ∧ gone w' = gone w) as (Hw' & Ea & Eg).
    { clear El. revert Hw. induction Hr as [w|w w1 w2 Hs _ IH]; [done|]. intros Hw.
      destruct (leader_step_same _ _ Hs) as [Ea Eg].
      destruct IH as (? & -> & ->); [by eapply lead_step_wf, leader_step_step|]. done. }
    assert (writes w' = []) as Ewr by by apply Hw'. split; [done|]. rewrite <- Ea, <- Eg.
    intros c Hc. destruct (wf_each _ Hw' c) as [Hin|]; [done|left|by right].
    unfold batch in Hin. by rewrite El, Ewr, !app_nil_r in Hin.
Qed.

(** A state the witnesses look at: one caller leading, one waiting. *)
Definition example_two : Waiting := decided 2 (decided 1 new).
Lemma example_two_reached : rtc step new example_two.
Proof.
  eapply rtc_l; [apply (arrives 1); cbn; apply not_elem_of_nil|].
  eapply rtc_l; [apply (arrives 2); cbn; intros [=]%list_elem_of_singleton|apply rtc_refl].
Qed.

Lemma decided_once_in_order_witness :
  rtc step new example_two ∧ answered example_two ++ batch example_two ++ writes example_two = [1; 2].
Proof.
  split; [exact example_two_reached|].
  destruct (decided_once_in_order example_two example_two_reached) as (_ & _ & _ & _ & _ & _ & _ & H).
  apply H. reflexivity.
Defined.

Lemma every_write_answered_witness :
  ∃ w', rtc leader_step example_two w' ∧ leader w' = None ∧ 1 ∈ answered w' ∧ 2 ∈ answered w'.
Proof.
  destruct (every_write_answered example_two example_two_reached) as (_ & _ & w' & Hr & Hl & _ & H).
  exists w'. split; [exact Hr|]. split; [exact Hl|].
  split; [destruct (H 1) as [|[]%elem_of_nil]|destruct (H 2) as [|[]%elem_of_nil]]; auto; cbn; set_solver.
Defined.
End Lead.

Module Sync.
(** A batch written, by how many were before it. *)
Abbreviation batch := nat.

(** Where the sync thread is: receiving, with batches in hand, syncing them
    - with how many batches had been written when the sync began - or done. *)
Inductive Thread : Set :=
  | Receives
  | Took (group : list batch)
  | Syncs (group : list batch) (began : nat)
  | Ended.

(** The writer and the [Syncer]: how many batches are in the engine, how
    many of them on disk, the one written and not handed over yet, the
    channel, and what each batch's [Durable] was told. *)
Record Syncing : Set := {
  written : nat;
  synced : nat;
  handing : option batch;
  inbox : list batch;
  hung_up : bool;
  thread : Thread;
  told : gmap batch bool;
}.

(** [Syncer::start]. *)
Definition start : Syncing :=
  {| written := 0; synced := 0; handing := None; inbox := []; hung_up := false;
     thread := Receives; told := ∅ |}.

(** [Durable::tell]: told once, the first word stands. *)
Definition tell (synced : bool) (told : gmap batch bool) (n : batch) : gmap batch bool :=
  match told !! n with Some _ => told | None => <[n := synced]> told end.
Definition tell_each (synced : bool) (told : gmap batch bool) (group : list batch) : gmap batch bool :=
  foldl (tell synced) told group.

(** A batch written to the engine, unsynced; then handed over
    ([Syncer::written]). *)
Definition write (s : Syncing) : Syncing :=
  {| written := S (written s); synced := synced s; handing := Some (written s); inbox := inbox s;
     hung_up := hung_up s; thread := thread s; told := told s |}.
Definition hand (n : batch) (s : Syncing) : Syncing :=
  {| written := written s; synced := synced s; handing := None; inbox := inbox s ++ [n];
     hung_up := hung_up s; thread := thread s; told := told s |}.

(** [sync]: the first batch received and those there with it, a sync begun,
    and each told what it came to. *)
Definition take (group rest : list batch) (s : Syncing) : Syncing :=
  {| written := written s; synced := synced s; handing := handing s; inbox := rest;
     hung_up := hung_up s; thread := Took group; told := told s |}.
Definition begin (group : list batch) (s : Syncing) : Syncing :=
  {| written := written s; synced := synced s; handing := handing s; inbox := inbox s;
     hung_up := hung_up s; thread := Syncs group (written s); told := told s |}.
Definition return_ (group : list batch) (began : nat) (ok : bool) (s : Syncing) : Syncing :=
  {| written := written s; synced := if ok then Nat.max (synced s) began else synced s;
     handing := handing s; inbox := inbox s; hung_up := hung_up s; thread := Receives;
     told := tell_each ok (told s) group |}.

(** The writer let go of ([Drop for Syncer]), and the thread's end. *)
Definition hang_up (s : Syncing) : Syncing :=
  {| written := written s; synced := synced s; handing := handing s; inbox := inbox s;
     hung_up := true; thread := thread s; told := told s |}.
Definition end_ (s : Syncing) : Syncing :=
  {| written := written s; synced := synced s; handing := handing s; inbox := inbox s;
     hung_up := hung_up s; thread := Ended; told := told s |}.

Inductive step : Syncing → Syncing → Prop :=
  | writes s : hung_up s = false → handing s = None → step s (write s)
  | hands n s : handing s = Some n → step s (hand n s)
  | takes first group rest s : thread s = Receives → inbox s = first :: group ++ rest →
      step s (take (first :: group) rest s)
  | begins group s : thread s = Took group → step s (begin group s)
  | returns group began ok s : thread s = Syncs group began → step s (return_ group began ok s)
  | hangs_up s : handing s = None → step s (hang_up s)
  | ends s : thread s = Receives → inbox s = [] → hung_up s = true → step s (end_ s).

Definition in_hand (s : Syncing) : list batch :=
  match thread s with Took group | Syncs group _ => group | _ => [] end.
Definition not_handed (s : Syncing) : list batch :=
  match handing s with Some n => [n] | None => [] end.

Record wf (s : Syncing) : Prop := {
  wf_told n : told s !! n = Some true → n < synced s;
  wf_began group began : thread s = Syncs group began →
    began ≤ written s ∧ Forall (λ n, n < began) group;
  wf_untold : Forall (λ n, n < written s) (in_hand s ++ inbox s ++ not_handed s);
  wf_all n : n < written s → is_Some (told s !! n) ∨ n ∈ in_hand s ++ inbox s ++ not_handed s;
  wf_hung : hung_up s = true → handing s = None;
  wf_ended : thread s = Ended → hung_up s = true ∧ inbox s = [];
}.

Lemma lookup_tell_each ok m group n :
  tell_each ok m group !! n = match m !! n with Some b => Some b | None => if decide (n ∈ group) then Some ok else None end.
Proof.
  revert m. induction group as [|g group IH]; intros m; cbn [tell_each foldl].
  { destruct (m !! n); [done|]. rewrite decide_False; [done|apply not_elem_of_nil]. }
  change (tell_each ok (tell ok m g) group !! n = match m !! n with Some b => Some b
    | None => if decide (n ∈ g :: group) then Some ok else None end).
  rewrite IH. unfold tell. destruct (m !! g) as [b|] eqn:Eg.
  - destruct (m !! n) eqn:En; [done|]. assert (n ≠ g) by congruence.
    repeat case_decide; rewrite ?elem_of_cons in *; naive_solver.
  - destruct (decide (n = g)) as [->|Hne].
    + rewrite lookup_insert_eq, Eg, decide_True; [done|by left].
    + rewrite lookup_insert_ne by done. destruct (m !! n); [done|].
      repeat case_decide; rewrite ?elem_of_cons in *; naive_solver.
Qed.

Lemma start_wf : wf start.
Proof. split; try done; cbn; intros n; lia. Qed.

Lemma sync_step_wf s s' : wf s → step s s' → wf s'.
Proof.
  intros [Ht Hb Hu Ha Hh He] Hs.
  destruct Hs as [s Hup Hn|n s Hn|first group rest s Hth Hi|group s Hth|group began ok s Hth|s Hn|s Hth Hi Hup].
  all: assert (∀ l, Forall (λ n, n < written s) l → Forall (λ n, n < S (written s)) l) as Hmore
    by (intros l Hl; eapply Forall_impl; [exact Hl|cbn; lia]).
  all: unfold in_hand, not_handed in *; rewrite ?Hn, ?Hth, ?Hi in *.
  all: split; unfold in_hand, not_handed;
    cbn [written synced handing inbox hung_up thread told write hand take begin return_ hang_up end_];
    rewrite ?Hn, ?Hth, ?Hi; try done.
  - intros group began E. destruct (Hb _ _ E) as [? ?]. split; [lia|done].
  - rewrite app_nil_r, app_assoc in *. apply Forall_app. split; [by apply Hmore|]. repeat constructor.
  - intros n Hlt. destruct (decide (n = written s)) as [->|].
    + right. rewrite !elem_of_app, list_elem_of_singleton. naive_solver.
    + destruct (Ha n ltac:(lia)) as [|Hin]; [by left|right]. rewrite app_nil_r in Hin. rewrite !elem_of_app in *. tauto.
  - by rewrite Hup.
  - by rewrite app_nil_r.
  - intros n' Hlt. rewrite app_nil_r. by apply Ha.
  - intros E. destruct (He E) as [Hup _]. by specialize (Hh Hup).
  - by rewrite <- app_comm_cons, app_assoc in *.
  - intros n Hlt. destruct (Ha n Hlt) as [|Hin]; [by left|right].
    rewrite <- app_comm_cons, app_assoc in *. done.
  - intros group' began [= <- <-]. split; [done|]. by apply Forall_app in Hu as [? _].
  - intros n. rewrite lookup_tell_each. destruct (Hb _ _ eq_refl) as [Hle Hlt].
    destruct (told s !! n) as [b|] eqn:En.
    + intros [= ->]. specialize (Ht n En). destruct ok; lia.
    + case_decide as Hin; [|done]. intros [= ->]. rewrite Forall_forall in Hlt. specialize (Hlt n Hin). lia.
  - by apply Forall_app in Hu as [_ ?].
  - intros n Hlt. rewrite lookup_tell_each. destruct (told s !! n) as [b|] eqn:En; [by left; eexists|].
    destruct (Ha n Hlt) as [[? E]|Hin]; [congruence|]. case_decide as Hg; [by left; eexists|right].
    apply elem_of_app in Hin as [|]; [done|done].
  - intros E. split; [done|]. by apply He.
Qed.

Lemma sync_reached_wf s : rtc step start s → wf s.
Proof.
  assert (∀ x, rtc step x s → wf x → wf s) as H.
  { induction 1 as [|x y z Hs _ IH]; [done|]. intros. by eapply IH, sync_step_wf. }
  intros. eapply H; [done|apply start_wf].
Qed.

(** C19. Nothing is told durable before it is. In every state the
    writer and the sync thread reach by any interleaving, a batch told
    durable is among those on disk: a sync that returned had begun once it
    was written, however many batches were written while it ran. *)
Theorem told_durable_is_on_disk (s : Syncing) (n : batch) : rtc step start s →
  told s !! n = Some true → n < synced s.
Proof. intros Hw%sync_reached_wf. by apply Hw. Qed.

(** Every batch written is told. Once the writer is let go of and
    the thread has ended, every batch written has been told what its sync
    came to; and until then, as long as one has not, the writer or the
    thread has a step to make. *)
Theorem every_batch_told (s : Syncing) : rtc step start s →
  (thread s = Ended → ∀ n, n < written s → is_Some (told s !! n)) ∧
  (∀ n, n < written s → told s !! n = None →
    ∃ s', step s s' ∧ written s' = written s ∧ hung_up s' = hung_up s).
Proof.
  intros Hw%sync_reached_wf. split.
  - intros E n Hn. destruct (wf_ended _ Hw E) as [Hup Hi]. pose proof (wf_hung _ Hw Hup) as Hh.
    destruct (wf_all _ Hw n Hn) as [|Hin]; [done|]. unfold in_hand, not_handed in Hin.
    rewrite E, Hi, Hh in Hin. by apply elem_of_nil in Hin.
  - intros n Hn Et. destruct (wf_all _ Hw n Hn) as [[? E]|Hin]; [congruence|].
    unfold in_hand, not_handed in Hin. destruct (thread s) as [|group|group began|] eqn:Eth.
    + destruct (inbox s) as [|first rest] eqn:Ei.
      * destruct (handing s) as [m|] eqn:Eh; [|by apply elem_of_nil in Hin].
        eexists. split; [by apply (hands m)|done].
      * eexists. split; [by apply (takes first [] rest)|done].
    + eexists. split; [by apply (begins group)|done].
    + eexists. split; [by apply (returns group began true)|done].
    + destruct (wf_ended _ Hw Eth) as [Hup Hi]. rewrite Hi, (wf_hung _ Hw Hup) in Hin.
      by apply elem_of_nil in Hin.
Qed.

(** A batch written and synced, and one written while its sync ran. *)
Definition example_synced : Syncing :=
  return_ [0] 1 true (hand 1 (write (begin [0] (take [0] [] (hand 0 (write start)))))).
Lemma example_synced_reached : rtc step start example_synced.
Proof.
  eapply rtc_l; [by apply writes|]. eapply rtc_l; [by apply (hands 0)|].
  eapply rtc_l; [by apply (takes 0 [] [])|]. eapply rtc_l; [by apply (begins [0])|].
  eapply rtc_l; [by apply writes|]. eapply rtc_l; [by apply (hands 1)|].
  eapply rtc_l; [by apply (returns [0] 1 true)|]. apply rtc_refl.
Qed.

Lemma told_durable_is_on_disk_witness : told example_synced !! 0 = Some true ∧ 0 < synced example_synced.
Proof.
  split; [reflexivity|].
  exact (told_durable_is_on_disk example_synced 0 example_synced_reached eq_refl).
Defined.

Lemma every_batch_told_witness :
  told example_synced !! 1 = None ∧ ∃ s', step example_synced s' ∧ written s' = 2.
Proof.
  split; [reflexivity|].
  destruct (every_batch_told example_synced example_synced_reached) as [_ H].
  destruct (H 1 ltac:(cbn; lia) eq_refl) as (s' & Hs & Hw & _). exists s'. split; [exact Hs|exact Hw].
Defined.
End Sync.
