(* ===== verification/Copies.v ===== *)
(** * A Storage node's writes, numbered and kept for its standbys
    (src/.src/storage/standby/copies.rs)

    [Kept] is one database's writes as kept, [Copies] a node's: the history
    its numbers count and what each of its databases keeps. [Copied] is an
    engine whose every write is numbered and kept as it is written; it keeps
    the engine's contract. The lock a write is numbered and kept under is the
    atomicity of each operation here; the waking of what waits for a write is
    left out.

    The sums of bytes kept are [usize] in the code and counted without bound
    here: they are bytes a node holds in memory. *)

From S2P Require Import Prelude Word Encrypted Engine.

(** ** The databases a node keeps *)

(** The runtime, the administration and the audit database, by number. *)
Inductive Database : Set := Runtime | Administration | AuditDatabase.
#[export] Instance Database_eq_dec : EqDecision Database.
Proof. solve_decision. Defined.

Definition DATABASES : list Database := [Runtime; Administration; AuditDatabase].

Lemma every_database d : d ∈ DATABASES.
Proof. destruct d; unfold DATABASES; set_solver. Qed.

(** [[A; DATABASES]]. *)
Record each (A : Type) : Type := Each { at_runtime : A; at_administration : A; at_audit : A }.
Arguments Each {A} _ _ _.
Arguments at_runtime {A} _.
Arguments at_administration {A} _.
Arguments at_audit {A} _.

Definition at_db {A} (t : each A) (d : Database) : A :=
  match d with
  | Runtime => at_runtime t
  | Administration => at_administration t
  | AuditDatabase => at_audit t
  end.

Definition put_at {A} (d : Database) (a : A) (t : each A) : each A :=
  match d with
  | Runtime => Each a (at_administration t) (at_audit t)
  | Administration => Each (at_runtime t) a (at_audit t)
  | AuditDatabase => Each (at_runtime t) (at_administration t) a
  end.

Definition map_each {A B} (f : A → B) (t : each A) : each B :=
  Each (f (at_runtime t)) (f (at_administration t)) (f (at_audit t)).

(** [[a; DATABASES]]. *)
Definition all_of {A} (a : A) : each A := Each a a a.

#[export] Instance each_eq_dec {A} `{EqDecision A} : EqDecision (each A).
Proof. solve_decision. Defined.

Lemma of_put {A} d d' (a : A) t : at_db (put_at d a t) d' = if decide (d = d') then a else at_db t d'.
Proof. by destruct d, d'. Qed.
Lemma of_put_same {A} d (a : A) t : at_db (put_at d a t) d = a.
Proof. by destruct d. Qed.
Lemma of_put_ne {A} d d' (a : A) t : d ≠ d' → at_db (put_at d a t) d' = at_db t d'.
Proof. by destruct d, d'. Qed.
Lemma of_map {A B} (f : A → B) t d : at_db (map_each f t) d = f (at_db t d).
Proof. by destruct d. Qed.
Lemma of_all {A} (a : A) d : at_db (all_of a) d = a.
Proof. by destruct d. Qed.
Lemma each_eq {A} (t u : each A) : (∀ d, at_db t d = at_db u d) → t = u.
Proof.
  intros E. destruct t, u. f_equal; [apply (E Runtime)|apply (E Administration)|apply (E AuditDatabase)].
Qed.
#[export] Hint Rewrite @of_put_same @of_map @of_all : each.

(** ** Keys of a store's own *)

(** [<[u8]>::starts_with]. *)
Fixpoint starts_with (key p : bytes) {struct p} : bool :=
  match p, key with
  | [], _ => true
  | b :: p, c :: key => Byte.eqb b c && starts_with key p
  | _ :: _, [] => false
  end.

Lemma starts_with_spec key p : starts_with key p = true ↔ ∃ k, key = p ++ k.
Proof.
  revert key; induction p as [|b p IH]; intros key; cbn.
  { split; [intros _; by exists key|done]. }
  destruct key as [|c key]; [split; [done|by intros (? & [=])]|].
  rewrite andb_true_iff, Glass.byte_eqb_true, IH. split.
  - intros [-> [k ->]]. by exists k.
  - intros [k [= -> ->]]. eauto.
Qed.

Definition own (key : bytes) : bool := starts_with key OWN.
#[global] Arguments own : simpl never.

(** ** Writes as kept *)

(** One write as kept: its number and its changes. *)
Abbreviation Copy := (u64 * list Change)%type.

Definition size (changes : list Change) : N :=
  foldr N.add 0%N
    ((λ c : Change, N.of_nat (length c.1) +
        match c.2 with Some v => N.of_nat (length v) | None => 0 end)%N <$> changes).

Record Kept : Type := {
  next : u64;
  writes : list Copy;
  kept_bytes : N;
}.

(** The [while] of [Kept::keep]: the oldest let go while too many bytes are
    kept, the newest never. *)
Fixpoint trimmed (most : N) (writes : list Copy) (bytes : N) : list Copy * N :=
  match writes with
  | (_, oldest) :: ((_ :: _) as rest) =>
      if (most <? bytes)%N then trimmed most rest (bytes - size oldest)%N else (writes, bytes)
  | _ => (writes, bytes)
  end.

(** [Kept::keep]. *)
Definition keep (k : Kept) (changes : list Change) (most : N) : Kept :=
  let bytes := (kept_bytes k + size changes)%N in
  let '(writes, bytes) := trimmed most (writes k ++ [(next k, changes)]) bytes in
  {| next := wadd (next k) 1; writes := writes; kept_bytes := bytes |}.

Definition keeping_nothing (next_ : u64) : Kept :=
  {| next := next_; writes := []; kept_bytes := 0 |}.

(** Why a standby cannot take its primary's writes on from where it is. *)
Inductive Behind : Set := Another | Past.
#[export] Instance Behind_eq_dec : EqDecision Behind.
Proof. solve_decision. Defined.

Record Copies : Type := {
  history : u128;
  kept : each Kept;
  most_kept : N;
}.

(** [Copies::new]. *)
Definition new (history_ : u128) (next_ : each u64) (most : N) : Copies :=
  {| history := history_; kept := map_each keeping_nothing next_; most_kept := most |}.

(** [Copies::next]. *)
Definition nexts (c : Copies) : each u64 := map_each next (kept c).

(** [Copies::restart]. *)
Definition restart (c : Copies) (history_ : u128) (next_ : each u64) : Copies :=
  {| history := history_; kept := map_each keeping_nothing next_; most_kept := most_kept c |}.

Definition with_kept (c : Copies) (d : Database) (k : Kept) : Copies :=
  {| history := history c; kept := put_at d k (kept c); most_kept := most_kept c |}.

(** The changes of a write that are kept: a store's own keys stay home. *)
Definition kept_of (changes : list Change) : list Change :=
  filter (λ c, own c.1 = false) changes.

(** [Copies::written]: where the write wrote, its changes kept under the next
    number. *)
Definition written {E} (c : Copies) (d : Database) (write : result (E * bool))
    (changes : list Change) : result (E * Copies * bool) :=
  '(e, done) ← write;
  if negb done then Ok (e, c, false)
  else
    let copied := kept_of changes in
    match copied with
    | [] => Ok (e, c, true)
    | _ => Ok (e, with_kept c d (keep (at_db (kept c) d) copied (most_kept c)), true)
    end.

(** Where a standby keeps, in each database, how far it has copied. *)
Definition POSITION : bytes := zero_text "xmip-core-persist/position" ++ [x00].
#[global] Arguments POSITION : simpl never.

(** [position]: the history and the number of the next write a standby
    takes. *)
Definition position (history_ : u128) (next_ : u64) : Change :=
  (POSITION, Some (be history_ ++ be next_)).

(** [positioned]. *)
Definition positioned {E} `{Engine E} (e : E) : result (option (u128 * u64)) :=
  value ← read e POSITION;
  Ok match value with
     | None => None
     | Some value =>
         let '(history_, next_) :=
           if decide (16 ≤ length value) then (firstn 16 value, skipn 16 value) else ([], []) in
         match array 16 history_, array 8 next_ with
         | Some history_, Some next_ => Some (of_be history_, of_be next_)
         | _, _ => None
         end
     end.

(** [Copies::copied]: a standby's copy, in order. *)
Definition copied {E} `{Engine E} (c : Copies) (e : E) (d : Database) (number : u64)
    (changes : list Change) : result (E * Copies) :=
  let k := at_db (kept c) d in
  if decide (number = next k) then
    e ← apply_deferred e (changes ++ [position (history c) (wadd number 1)]);
    Ok (e, with_kept c d (keep k changes (most_kept c)))
  else Err (Failed_ "a copy numbered otherwise than the next: one was lost on the way").

(** The number of the oldest write kept, or the next one's. *)
Definition first_kept (k : Kept) : u64 :=
  match writes k with (number, _) :: _ => number | [] => next k end.

(** The loop of [Copies::since]. *)
Fixpoint up_to_bytes (most bytes : N) (some : bool) (writes : list Copy) : list Copy :=
  match writes with
  | [] => []
  | (number, changes) :: writes =>
      if (most <=? bytes)%N && some then []
      else (number, changes) :: up_to_bytes most (bytes + size changes) true writes
  end.

(** [Iterator::skip_while]. *)
Fixpoint skip_while {A} (f : A → bool) (l : list A) : list A :=
  match l with
  | [] => []
  | a :: l' => if f a then skip_while f l' else l
  end.

(** [Copies::since]. *)
Definition since (c : Copies) (d : Database) (from : u64) (most : N) : list Copy + Behind :=
  let k := at_db (kept c) d in
  if (uval (next k) <=? uval from)%N then inl []
  else if (uval from <? uval (first_kept k))%N then inr Past
  else inl (up_to_bytes most 0 false (skip_while (λ w, uval w.1 <? uval from)%N (writes k))).

(** The loop of [Copies::follows]. *)
Fixpoint follows_from (c : Copies) (ds : list Database) (from : each u64) : option Behind :=
  match ds with
  | [] => None
  | d :: ds =>
      let k := at_db (kept c) d in
      if (uval (next k) <? uval (at_db from d))%N then Some Another
      else if (uval (at_db from d) <? uval (first_kept k))%N then Some Past
      else follows_from c ds from
  end.

(** [Copies::follows]: why a standby cannot take the writes on, or [None]. *)
Definition follows (c : Copies) (history_ : u128) (from : each u64) : option Behind :=
  if decide (history_ = history c) then follows_from c DATABASES from else Some Another.

(** ** An engine whose every write is kept *)

(** [Copied]: the copies it shares with the node are the ones it finds as it
    is used and leaves. *)
Record Copied (E : Type) : Type := CopiedBy {
  beneath : E;
  database : Database;
  copies : Copies;
}.
Arguments CopiedBy {E} _ _ _.
Arguments beneath {E} _.
Arguments database {E} _.
Arguments copies {E} _.

Section copied.
Context {E : Type} `{Engine E}.

(** [Copied::written]. *)
Definition copied_written (e : Copied E) (write : result (E * bool)) (changes : list Change)
    : result (Copied E * bool) :=
  '(b, c, done) ← written (copies e) (database e) write changes;
  Ok (CopiedBy b (database e) c, done).

Definition done_write (write : result E) : result (E * bool) :=
  e ← write; Ok (e, true).

Definition dropped (done : result (Copied E * bool)) : result (Copied E) :=
  '(e, _) ← done; Ok e.

#[export] Instance copied_engine : Engine (Copied E) := {
  engine e := engine (beneath e);
  read e key := read (beneath e) key;
  write e key value :=
    dropped (copied_written e (done_write (write (beneath e) key value)) [(key, Some value)]);
  write_new e key value :=
    copied_written e (write_new (beneath e) key value) [(key, Some value)];
  remove e key := dropped (copied_written e (done_write (remove (beneath e) key)) [(key, None)]);
  apply e batch := dropped (copied_written e (done_write (apply (beneath e) batch)) batch);
  apply_deferred e batch :=
    dropped (copied_written e (done_write (apply_deferred (beneath e) batch)) batch);
  sync e := b ← sync (beneath e); Ok (CopiedBy b (database e) (copies e));
  scan e := scan (beneath e);
  View := View (E := E);
  view_reads := view_reads (E := E);
  view e := view (beneath e);
}.

(** What a write did to what is kept: nothing where it did not write or wrote
    a store's own keys alone, and else its changes kept under the next
    number. *)
Definition recorded_as (e e' : Copied E) (changes : list Change) : Prop :=
  database e' = database e ∧
  copies e' = match kept_of changes with
              | [] => copies e
              | copied => with_kept (copies e) (database e)
                  (keep (at_db (kept (copies e)) (database e)) copied (most_kept (copies e)))
              end.

Lemma copied_written_spec e write changes e' new :
  copied_written e write changes = Ok (e', new) →
  ∃ b, write = Ok (b, new) ∧ beneath e' = b ∧
    if new then recorded_as e e' changes
    else database e' = database e ∧ copies e' = copies e.
Proof.
  unfold copied_written, written, recorded_as. destruct write as [[b fresh]|]; [|done].
  destruct fresh; [|by intros [= <- <-]; exists b].
  cbn. destruct (kept_of changes); intros [= <- <-]; by exists b.
Qed.

Lemma dropped_written_spec e w changes e' :
  dropped (copied_written e (done_write w) changes) = Ok e' →
  w = Ok (beneath e') ∧ recorded_as e e' changes.
Proof.
  unfold dropped. intros Hd. inv_ok. case_step. inv_ok.
  apply copied_written_spec in Ha as (b' & Hw & Hb & Hr). unfold done_write in Hw. inv_ok.
  done.
Qed.

Context `{!EngineOk E}.

#[export, program] Instance copied_ok : EngineOk (Copied E) :=
  { contents e := contents (beneath e) }.
Next Obligation. intros e k o. apply (read_spec (beneath e)). Qed.
Next Obligation. intros e k v e' [Hw _]%dropped_written_spec. by apply write_spec. Qed.
Next Obligation.
  intros e k v e' b (e1 & Hw & <- & _)%copied_written_spec. by apply write_new_spec.
Qed.
Next Obligation. intros e k e' [Hw _]%dropped_written_spec. by apply remove_spec. Qed.
Next Obligation. intros e b e' [Hw _]%dropped_written_spec. by apply apply_spec. Qed.
Next Obligation. intros e b e' [Hw _]%dropped_written_spec. by apply apply_deferred_spec. Qed.
Next Obligation. intros e e' Hs. cbn in Hs. inv_ok. by apply sync_spec. Qed.
Next Obligation. intros e first last most rev l. apply (scan_spec (beneath e)). Qed.
Next Obligation. intros e v k o. apply (view_read_spec (beneath e)). Qed.
Next Obligation. intros e v first last most rev l. apply (view_scan_spec (beneath e)). Qed.
End copied.

(** ** What a database keeps *)

(** The numbers kept are those just before the next, one after another, and
    the bytes counted are theirs. *)
Record kept_wf (k : Kept) : Prop := {
  kept_few : (N.of_nat (length (writes k)) ≤ uval (next k))%N;
  kept_numbers i w : writes k !! i = Some w →
    uval w.1 = (uval (next k) - N.of_nat (length (writes k)) + N.of_nat i)%N;
  kept_counted : kept_bytes k = foldr N.add 0%N (size ∘ snd <$> writes k);
}.

(** At most so many bytes, or one write alone. *)
Definition kept_within (most : N) (k : Kept) : Prop :=
  (kept_bytes k ≤ most)%N ∨ length (writes k) ≤ 1.

(** Room for the next number: a node never counts 2^64 writes. *)
Definition room (k : Kept) : Prop := (uval (next k) + 1 < bound 8)%N.
#[export] Instance room_dec k : Decision (room k).
Proof. unfold room. apply _. Defined.

Lemma keeping_nothing_wf n : kept_wf (keeping_nothing n).
Proof. split; cbn; [lia|done|done]. Qed.

Lemma sum_app (l k : list N) : foldr N.add 0%N (l ++ k) = (foldr N.add 0 l + foldr N.add 0 k)%N.
Proof. induction l as [|x l IH]; cbn; [done|]. rewrite IH. lia. Qed.

Lemma trimmed_spec most ws bytes :
  bytes = foldr N.add 0%N (size ∘ snd <$> ws) → ws ≠ [] →
  ∃ old, ws = old ++ (trimmed most ws bytes).1 ∧ (trimmed most ws bytes).1 ≠ [] ∧
    (trimmed most ws bytes).2 = foldr N.add 0%N (size ∘ snd <$> (trimmed most ws bytes).1) ∧
    ((trimmed most ws bytes).2 ≤ most ∨ N.of_nat (length (trimmed most ws bytes).1) ≤ 1)%N.
Proof.
  revert bytes; induction ws as [|[x ch] ws IH]; intros bytes Hb Hn; [done|].
  destruct ws as [|w ws].
  { exists []. cbn [trimmed fst snd]. repeat split; [done|done|]. right. cbn. lia. }
  change (trimmed most ((x, ch) :: w :: ws) bytes) with
    (if (most <? bytes)%N then trimmed most (w :: ws) (bytes - size ch)%N
     else ((x, ch) :: w :: ws, bytes)).
  destruct (N.ltb_spec most bytes).
  - edestruct (IH (bytes - size ch)%N) as (old & E & H1 & H2 & H3); [|done|].
    { subst bytes. cbn [fmap list_fmap foldr compose snd]. lia. }
    exists ((x, ch) :: old). cbn [app]. by rewrite <- E.
  - exists []. repeat split; [done|done|]. by left.
Qed.

(** How many bytes of keys and values some writes are. *)
Definition weight (l : list Copy) : N :=
  N.of_nat (length (l ≫= λ w, w.2 ≫= λ c : Change, c.1 ++ default [] c.2)).

Lemma weight_cons w l : weight (w :: l) = (size w.2 + weight l)%N.
Proof.
  unfold weight. cbn [mbind list_bind]. rewrite length_app, Nat2N.inj_add. f_equal. unfold size.
  induction w.2 as [|[k v] cs IH]; [done|]. cbn [fmap list_fmap foldr mbind list_bind fst snd] in *.
  rewrite !length_app, !Nat2N.inj_add, IH. by destruct v.
Qed.
Lemma weight_sum l : weight l = foldr N.add 0%N (size ∘ snd <$> l).
Proof. induction l as [|w l IH]; [done|]. rewrite weight_cons, IH. done. Qed.
Lemma weight_more l l' : (weight l ≤ weight (l ++ l'))%N.
Proof. rewrite !weight_sum, fmap_app, sum_app. lia. Qed.

(** [kept] is the end of [log]: the newest of it and as many before as are
    [most] bytes together with what came after, and no fewer. *)
Record newest (most : N) (log kept : list Copy) : Prop := {
  newest_end : ∃ older, log = older ++ kept ∧
    ∀ before w, older = before ++ [w] → (most < weight (w :: kept))%N;
  newest_some : log ≠ [] → kept ≠ [];
  newest_within : (weight kept ≤ most)%N ∨ length kept ≤ 1;
}.

Lemma trimmed_newest most ws bytes : bytes = weight ws → newest most ws (trimmed most ws bytes).1.
Proof.
  revert bytes; induction ws as [|[x ch] ws IH]; intros bytes Hb.
  { split; [|done|left; apply N.le_0_l]. exists []. split; [done|]. by intros [] ? [=]. }
  destruct ws as [|w ws].
  { split; [|done|right; cbn; lia]. exists []. split; [done|]. by intros [] ? [=]. }
  change (trimmed most ((x, ch) :: w :: ws) bytes) with
    (if (most <? bytes)%N then trimmed most (w :: ws) (bytes - size ch)%N
     else ((x, ch) :: w :: ws, bytes)).
  destruct (N.ltb_spec most bytes) as [Hlt|Hge].
  - rewrite weight_cons in Hb. cbn [snd] in Hb.
    destruct (IH (bytes - size ch)%N) as [(old & E & Hold) Hne Hw]; [lia|].
    split; [|intros _; by apply Hne|done]. exists ((x, ch) :: old). split; [by rewrite E at 1|].
    intros [|y before] w' Ew.
    + injection Ew as <- ->. cbn [app] in E. rewrite <- E, weight_cons. cbn [snd]. lia.
    + injection Ew as _ ->. by eapply Hold.
  - cbn [fst]. split; [|done|left; lia]. exists []. split; [done|]. by intros [] ? [=].
Qed.

(** One write more, of a log whose newest are kept. *)
Lemma newest_keep most log k changes : kept_wf k → newest most log (writes k) →
  newest most (log ++ [(next k, changes)]) (writes (keep k changes most)).
Proof.
  intros Hwf [(older & -> & Hold) Hne _]. unfold keep.
  pose proof (trimmed_newest most (writes k ++ [(next k, changes)]) (kept_bytes k + size changes)) as Ht.
  destruct (trimmed _ _ _) as [ws bs]. cbn [fst writes] in *.
  destruct Ht as [(old & E & Hcut) Hsome Hw].
  { rewrite (kept_counted _ Hwf), weight_sum, fmap_app, sum_app. cbn [fmap list_fmap foldr compose snd]. lia. }
  split; [|intros _; apply Hsome; by destruct (writes k)|done].
  exists (older ++ old). split; [by rewrite <- !app_assoc, <- E|].
  intros before w Ew. destruct old as [|y old] using rev_ind.
  - rewrite app_nil_r in Ew. cbn [app] in E. rewrite <- E.
    eapply N.lt_le_trans; [by eapply Hold|]. apply (weight_more (w :: writes k)).
  - rewrite app_assoc in Ew. apply app_inj_tail in Ew as [_ ->]. by eapply Hcut.
Qed.

Lemma keep_spec k changes most :
  kept_wf k → room k →
  kept_wf (keep k changes most) ∧ kept_within most (keep k changes most) ∧
  uval (next (keep k changes most)) = (uval (next k) + 1)%N ∧
  ∃ old, writes k ++ [(next k, changes)] = old ++ writes (keep k changes most).
Proof.
  intros [Hf Hn Hc] Hr. unfold keep.
  pose proof (trimmed_spec most (writes k ++ [(next k, changes)]) (kept_bytes k + size changes)) as Ht.
  destruct (trimmed _ _ _) as [ws bs]. cbn [fst snd] in Ht.
  destruct Ht as (old & Eo & _ & Eb & Hm).
  { rewrite Hc, fmap_app, sum_app. cbn [fmap list_fmap foldr compose snd]. lia. }
  { by intros [_ [=]]%app_nil. }
  pose proof (f_equal length Eo) as El. rewrite !length_app in El. cbn in El.
  assert (uval (wadd (next k) 1) = uval (next k) + 1)%N as Ew by by apply uval_wadd.
  split; [|split; [|split; [done|by exists old]]].
  - split; cbn [next writes kept_bytes]; [rewrite Ew; lia| |done].
    intros i w Hi. rewrite Ew. assert (i < length ws) by by eapply lookup_lt_Some.
    assert ((writes k ++ [(next k, changes)]) !! (length old + i) = Some w) as Hl.
    { rewrite Eo, lookup_app_r by lia. by replace (length old + i - length old) with i by lia. }
    apply lookup_app_Some in Hl as [Hl|[Hge Hl]].
    + apply Hn in Hl. lia.
    + apply list_lookup_singleton_Some in Hl as [Hz <-]. cbn. lia.
  - unfold kept_within. cbn [kept_bytes writes]. destruct Hm; [by left|right; lia].
Qed.

Lemma skip_while_spec {A} (f : A → bool) l :
  ∃ old, l = old ++ skip_while f l ∧ Forall (λ a, f a = true) old ∧
    match skip_while f l with [] => True | a :: _ => f a = false end.
Proof.
  induction l as [|a l (old & E & Ho & Hh)]; cbn; [by exists []|].
  destruct (f a) eqn:Ef; [|by exists []].
  exists (a :: old). split; [cbn; congruence|]. split; [by constructor|done].
Qed.

Lemma up_to_bytes_prefix most bytes some ws : ∃ rest, ws = up_to_bytes most bytes some ws ++ rest.
Proof.
  revert bytes some; induction ws as [|[x ch] ws IH]; intros bytes some; cbn; [by exists []|].
  destruct (_ && _); [by exists ((x, ch) :: ws)|].
  destruct (IH (bytes + size ch)%N true) as [rest E]. exists rest. cbn. by rewrite <- E.
Qed.

(** What [since] answers: the writes kept from [from] on, one after another,
    one at least where there is one. *)
Lemma since_spec c d from most taken :
  kept_wf (at_db (kept c) d) → (uval from ≤ uval (next (at_db (kept c) d)))%N →
  since c d from most = inl taken →
  (∀ i w, taken !! i = Some w → uval w.1 = uval from + N.of_nat i)%N ∧
  (∀ w, w ∈ taken → w ∈ writes (at_db (kept c) d)) ∧
  (taken = [] → uval from = uval (next (at_db (kept c) d))).
Proof.
  intros [Hf Hn Hc] Hle. unfold since. set (k := at_db (kept c) d) in *.
  destruct (N.leb_spec (uval (next k)) (uval from)) as [Hge|Hlt].
  { intros [= <-]. repeat split; [done|by intros w ?%elem_of_nil|intros _; lia]. }
  destruct (N.ltb_spec (uval from) (uval (first_kept k))) as [|Hfirst]; [done|].
  intros [= <-].
  destruct (skip_while_spec (λ w : Copy, uval w.1 <? uval from)%N (writes k)) as (old & E & Ho & Hh).
  set (sw := skip_while _ (writes k)) in *.
  destruct (up_to_bytes_prefix most 0 false sw) as [rest Er].
  assert (Hat : match sw with [] => False | w :: _ => uval w.1 = uval from end).
  { assert (∀ i w, sw !! i = Some w →
      uval w.1 = uval (next k) - N.of_nat (length (writes k)) + N.of_nat (length old + i))%N as Hsw.
    { intros i w Hi. apply Hn. rewrite E, lookup_app_r by lia.
      by replace (length old + i - length old) with i by lia. }
    assert (∀ w, last old = Some w →
      uval w.1 < uval from ∧
      uval w.1 = uval (next k) - N.of_nat (length (writes k)) + N.of_nat (pred (length old)))%N as Hlast.
    { intros w Hw. split.
      - rewrite Forall_forall in Ho. apply N.ltb_lt, Ho. by apply last_Some_elem_of.
      - apply Hn. rewrite E, lookup_app_l; [by rewrite <- last_lookup|].
        destruct old; [done|cbn; lia]. }
    pose proof (f_equal length E) as El. rewrite length_app in El.
    destruct sw as [|w sw'].
    - destruct (last old) as [w|] eqn:El'.
      + destruct (Hlast w eq_refl). destruct old as [|o old]; [done|]. cbn in *. lia.
      + apply last_None in El' as ->. unfold first_kept in Hfirst. rewrite E in Hfirst. cbn in *. lia.
    - specialize (Hsw 0 w eq_refl). apply N.ltb_ge in Hh.
      destruct (last old) as [o|] eqn:El'.
      + destruct (Hlast o eq_refl). destruct old as [|o' old]; [done|]. cbn in *. lia.
      + apply last_None in El' as ->. unfold first_kept in Hfirst. rewrite E in Hfirst. destruct w. cbn in *. lia. }
  destruct sw as [|w0 sw']; [done|].
  assert (∀ i w, up_to_bytes most 0 false (w0 :: sw') !! i = Some w → (w0 :: sw') !! i = Some w) as Hup.
  { intros i w Hi. rewrite Er. by apply lookup_app_l_Some. }
  split; [|split].
  - intros i w Hi%Hup. assert (writes k !! (length old + 0) = Some w0) as H0%Hn.
    { by rewrite E, lookup_app_r, Nat.add_0_r, Nat.sub_diag by lia. }
    assert (writes k !! (length old + i) = Some w) as Hw%Hn.
    { rewrite E, lookup_app_r by lia. by replace (length old + i - length old) with i by lia. }
    lia.
  - intros w [i Hi%Hup]%list_elem_of_lookup. rewrite E. apply elem_of_app. right.
    by apply list_elem_of_lookup_2 in Hi.
  - destruct w0. cbn. by rewrite andb_false_r.
Qed.

Lemma follows_spec c h from :
  follows c h from = None ↔
  h = history c ∧ ∀ d, (uval (first_kept (at_db (kept c) d)) ≤ uval (at_db from d) ≤
                        uval (next (at_db (kept c) d)))%N.
Proof.
  unfold follows. case_decide as Hh; [|split; [done|by intros [? _]]].
  assert (∀ ds, follows_from c ds from = None ↔ ∀ d, d ∈ ds →
    (uval (first_kept (at_db (kept c) d)) ≤ uval (at_db from d) ≤ uval (next (at_db (kept c) d)))%N)
    as Hds.
  { induction ds as [|d ds IH]; cbn; [split; [by intros _ d ?%elem_of_nil|done]|].
    setoid_rewrite elem_of_cons.
    destruct (N.ltb_spec (uval (next (at_db (kept c) d))) (uval (at_db from d))).
    { split; [done|]. intros Hd. specialize (Hd d (or_introl eq_refl)). lia. }
    destruct (N.ltb_spec (uval (at_db from d)) (uval (first_kept (at_db (kept c) d)))).
    { split; [done|]. intros Hd. specialize (Hd d (or_introl eq_refl)). lia. }
    rewrite IH. split; [intros Hd d' [->|?]; [done|auto]|auto]. }
  rewrite Hds. split; [intros Hd; split; [done|intros d; apply Hd, every_database]|naive_solver].
Qed.

(** ** Positions *)

Lemma position_own h n : own (position h n).1 = true.
Proof. done. Qed.

Lemma be_split (h : u128) (n : u64) :
  firstn 16 (be h ++ be n) = be h ∧ skipn 16 (be h ++ be n) = be n.
Proof.
  split; [apply take_app_length'|apply drop_app_length']; by rewrite length_be.
Qed.

Lemma positioned_spec {E} `{EngineOk E} (e : E) o h n :
  positioned e = Ok o → contents e !! POSITION = (position h n).2 → o = Some (h, n).
Proof.
  unfold positioned. intros Hp Hc. inv_ok. apply read_spec in Ha. rewrite Hc in Ha. cbn in Ha.
  subst a. destruct (be_split h n) as [E1 E2].
  rewrite decide_True by (rewrite length_app, !length_be; lia). rewrite E1, E2.
  unfold array. rewrite !decide_True by apply length_be. by rewrite !of_be_be.
Qed.

(** ** What an engine holds that is copied *)

(** All but a store's own keys. *)
Definition public (m : gmap bytes bytes) : gmap bytes bytes :=
  filter (λ kv, own kv.1 = false) m.

Lemma lookup_public m k : public m !! k = if own k then None else m !! k.
Proof.
  unfold public. destruct (own k) eqn:Ek.
  - apply map_lookup_filter_None. right. intros v _. cbn. congruence.
  - destruct (m !! k) as [v|] eqn:Em.
    + by apply map_lookup_filter_Some.
    + apply map_lookup_filter_None. by left.
Qed.

Lemma public_change m c : own c.1 = false → public (change m c) = change (public m) c.
Proof.
  intros Hc. apply map_eq. intros k. rewrite lookup_public, !lookup_change, lookup_public.
  case_decide as D; [|done]. subst k. by rewrite Hc.
Qed.

Lemma public_change_own m c : own c.1 = true → public (change m c) = public m.
Proof.
  intros Hc. apply map_eq. intros k. rewrite !lookup_public, lookup_change.
  case_decide as D; [|done]. subst k. by rewrite Hc.
Qed.

(** A batch does to what is copied what its copied changes do. *)
Lemma public_changed m b : public (changed m b) = changed (public m) (kept_of b).
Proof.
  revert m. induction b as [|c b IH]; intros m; [done|].
  change (changed m (c :: b)) with (changed (change m c) b).
  unfold kept_of. rewrite filter_cons. fold (kept_of b). rewrite IH.
  destruct (own c.1) eqn:Ec.
  - rewrite decide_False by congruence. by rewrite public_change_own.
  - rewrite decide_True by done. by rewrite public_change.
Qed.

Lemma kept_of_own b c : c ∈ kept_of b → own c.1 = false.
Proof. by intros [? _]%list_elem_of_filter. Qed.

Lemma kept_of_kept b : (∀ c, c ∈ b → own c.1 = false) → kept_of b = b.
Proof. apply filter_all. Qed.

Lemma kept_of_twice b : kept_of (kept_of b) = kept_of b.
Proof. apply kept_of_kept, kept_of_own. Qed.

(** ** A node's databases *)

(** One write of an engine. *)
Inductive Write : Type :=
  | Put (key value : bytes)
  | PutNew (key value : bytes)
  | TakeOut (key : bytes)
  | Apply (batch : list Change)
  | ApplyDeferred (batch : list Change).

(** The engines of a node, and the writes they keep together. *)
Record Node (E : Type) : Type := NodeOf { engines : each E; node_copies : Copies }.
Arguments NodeOf {E} _ _.
Arguments engines {E} _.
Arguments node_copies {E} _.

(** The next number a database of a node takes. *)
Definition next_of {E} (n : Node E) (d : Database) : N :=
  uval (next (at_db (kept (node_copies n)) d)).

Section node.
Context {E : Type} `{EngineOk E}.
Implicit Types (n : Node E) (w : Write).

Definition run_write (e : Copied E) (w : Write) : result (Copied E) :=
  match w with
  | Put key value => write e key value
  | PutNew key value => '(e, _) ← write_new e key value; Ok e
  | TakeOut key => remove e key
  | Apply batch => apply e batch
  | ApplyDeferred batch => apply_deferred e batch
  end.

(** A write through one of a node's [Copied]. *)
Definition node_write (n : Node E) (dw : Database * Write) : result (Node E) :=
  let '(d, w) := dw in
  e ← run_write (CopiedBy (at_db (engines n) d) d (node_copies n)) w;
  Ok (NodeOf (put_at d (beneath e) (engines n)) (copies e)).

(** What a database of a node holds, a store's own keys left out. *)
Definition holds (n : Node E) (d : Database) : gmap bytes bytes :=
  public (contents (at_db (engines n) d)).

(** The changes a write asks for; a new record is put where there is none. *)
Definition asked_of (w : Write) : list Change :=
  match w with
  | Put key value | PutNew key value => [(key, Some value)]
  | TakeOut key => [(key, None)]
  | Apply batch | ApplyDeferred batch => batch
  end.
Definition is_put_new (w : Write) : bool := match w with PutNew _ _ => true | _ => false end.

(** What is kept of a write asked for. *)
Definition took (w : Write) (changes : list Change) : Prop :=
  changes = kept_of (asked_of w) ∨ is_put_new w = true ∧ changes = [].

Lemma run_write_spec e w e' :
  run_write e w = Ok e' →
  ∃ batch, (batch = asked_of w ∨ is_put_new w = true ∧ batch = []) ∧
    contents e' = changed (contents e) batch ∧ recorded_as e e' batch.
Proof.
  destruct w as [k v|k v|k|b|b]; cbn -[dropped copied_written]; intros Hw.
  - exists [(k, Some v)]. split; [by left|]. split; [exact (write_spec (E := Copied E) _ _ _ _ Hw)|].
    by apply dropped_written_spec in Hw as [_ Hr].
  - inv_ok. destruct a as [e1 new]. inv_ok.
    pose proof (write_new_spec (E := Copied E) _ _ _ _ _ Ha) as Hc.
    apply copied_written_spec in Ha as (b & _ & _ & Hr). destruct new, Hc as [_ Hc].
    + exists [(k, Some v)]. split; [by left|]. split; [exact Hc|exact Hr].
    + exists []. split; [by right|]. split; [exact Hc|exact Hr].
  - exists [(k, None)]. split; [by left|]. split; [exact (remove_spec (E := Copied E) _ _ _ Hw)|].
    by apply dropped_written_spec in Hw as [_ Hr].
  - exists b. split; [by left|]. split; [exact (apply_spec (E := Copied E) _ _ _ Hw)|].
    by apply dropped_written_spec in Hw as [_ Hr].
  - exists b. split; [by left|]. split; [exact (apply_deferred_spec (E := Copied E) _ _ _ Hw)|].
    by apply dropped_written_spec in Hw as [_ Hr].
Qed.

(** What a write does to a node: nothing to the other databases; its own
    holds the batch, and keeps its copied changes where there are any. *)
Lemma node_write_took n d w n' :
  node_write n (d, w) = Ok n' →
  history (node_copies n') = history (node_copies n) ∧
  most_kept (node_copies n') = most_kept (node_copies n) ∧
  (∀ d', d' ≠ d → holds n' d' = holds n d' ∧
     at_db (kept (node_copies n')) d' = at_db (kept (node_copies n)) d') ∧
  ∃ copied, took w copied ∧ kept_of copied = copied ∧ holds n' d = changed (holds n d) copied ∧
    at_db (kept (node_copies n')) d =
      match copied with
      | [] => at_db (kept (node_copies n)) d
      | _ => keep (at_db (kept (node_copies n)) d) copied (most_kept (node_copies n))
      end.
Proof.
  intros Hw. unfold node_write in Hw. inv_ok.
  apply run_write_spec in Ha as (batch & Hb & Hc & Hd & Hk). cbn in Hc, Hd, Hk.
  unfold holds. cbn [engines node_copies]. rewrite Hk.
  split; [by destruct (kept_of batch)|]. split; [by destruct (kept_of batch)|]. split.
  - intros d' Hn. rewrite of_put_ne by done. split; [done|].
    destruct (kept_of batch); [done|]. cbn. by rewrite of_put_ne.
  - exists (kept_of batch). split; [by destruct Hb as [->|[? ->]]; [left|right]|].
    split; [apply kept_of_twice|].
    rewrite of_put_same. split; [by rewrite Hc, public_changed|].
    destruct (kept_of batch); [done|]. cbn. by rewrite of_put_same.
Qed.

Lemma node_write_spec n d w n' :
  node_write n (d, w) = Ok n' →
  history (node_copies n') = history (node_copies n) ∧
  most_kept (node_copies n') = most_kept (node_copies n) ∧
  (∀ d', d' ≠ d → holds n' d' = holds n d' ∧
     at_db (kept (node_copies n')) d' = at_db (kept (node_copies n)) d') ∧
  ∃ copied, kept_of copied = copied ∧ holds n' d = changed (holds n d) copied ∧
    at_db (kept (node_copies n')) d =
      match copied with
      | [] => at_db (kept (node_copies n)) d
      | _ => keep (at_db (kept (node_copies n)) d) copied (most_kept (node_copies n))
      end.
Proof. intros (? & ? & ? & copied & _ & Hc)%node_write_took. eauto 6. Qed.

(** Writes numbered one after another from [n]. *)
Fixpoint numbered (n : u64) (log : list (list Change)) : list Copy :=
  match log with
  | [] => []
  | changes :: log => (n, changes) :: numbered (wadd n 1) log
  end.

(** What the writes [ws] asked of [n] have come to in [d], in [n']: what each
    took in its turn, and the newest of it kept, each under its number. *)
Record wrote (n n' : Node E) (d : Database) (most : N) (ws : list (Database * Write))
    (log : list (list Change)) : Prop := {
  wrote_took : ∃ batches, Forall2 took (filter (λ dw, dw.1 = d) ws).*2 batches ∧
    log = filter (λ changes, changes ≠ []) batches;
  wrote_holds : holds n' d = changed (holds n d) (concat log);
  wrote_next : next_of n' d = (next_of n d + N.of_nat (length log))%N;
  wrote_kept : newest most (numbered (next (at_db (kept (node_copies n)) d)) log)
    (writes (at_db (kept (node_copies n')) d));
}.

Lemma numbered_app m log log' :
  numbered m (log ++ log') =
    numbered m log ++ numbered (wrap (uval m + N.of_nat (length log))) log'.
Proof.
  revert m; induction log as [|ch log IH]; intros m; cbn [app numbered length].
  { by rewrite N.add_0_r, wrap_uval. }
  rewrite IH. do 3 f_equal. apply uint_eq. unfold wadd. rewrite !uval_wrap.
  rewrite N.Div0.add_mod_idemp_l. f_equal. lia.
Qed.

(** One write more. *)
Lemma wrote_write n n1 n2 d dw ws log :
  wrote n n1 d (most_kept (node_copies n1)) ws log → kept_wf (at_db (kept (node_copies n1)) d) →
  (next_of n d + N.of_nat (length log) + 1 < bound 8)%N →
  node_write n1 dw = Ok n2 →
  ∃ more, length more ≤ 1 ∧ wrote n n2 d (most_kept (node_copies n1)) (ws ++ [dw]) (log ++ more) ∧
    kept_wf (at_db (kept (node_copies n2)) d).
Proof.
  intros [(batches & Hb & Hlog) Hh Hn Hk] Hwf Hr Hw. destruct dw as [d0 w].
  apply node_write_took in Hw as (_ & _ & Ho & copied & Ht & _ & Hc & Ek).
  destruct (decide (d0 = d)) as [->|Hd].
  2: { destruct (Ho d ltac:(done)) as [Eh Ek']. exists []. rewrite app_nil_r, Ek'.
       split; [cbn; lia|]. split; [|done]. split; [|by rewrite Eh| |by rewrite Ek'].
       - exists batches. rewrite filter_app, filter_cons, decide_False by done. by rewrite filter_nil, app_nil_r.
       - unfold next_of. by rewrite Ek'. }
  assert (Forall2 took (filter (λ dw, dw.1 = d) (ws ++ [(d, w)])).*2 (batches ++ [copied])) as Hb'.
  { rewrite filter_app, fmap_app. apply Forall2_app; [done|].
    rewrite filter_cons, decide_True by done. rewrite filter_nil. constructor; [exact Ht|constructor]. }
  destruct copied as [|c copied].
  { exists []. rewrite app_nil_r, Ek. split; [cbn; lia|]. split; [|done].
    split; [|by rewrite Hc| |by rewrite Ek].
    - eexists. split; [exact Hb'|]. rewrite filter_app, filter_cons, decide_False by (by intros []).
      by rewrite filter_nil, app_nil_r.
    - unfold next_of. by rewrite Ek. }
  exists [c :: copied]. rewrite Ek. split; [cbn; lia|].
  destruct (keep_spec (at_db (kept (node_copies n1)) d) (c :: copied) (most_kept (node_copies n1)))
    as (Hwf' & _ & En & _); [done| |].
  { change (next_of n1 d + 1 < bound 8)%N. lia. }
  split; [|done]. split.
  - eexists. split; [exact Hb'|]. by rewrite filter_app, filter_cons, decide_True, filter_nil, <- Hlog.
  - rewrite concat_app, changed_app, <- Hh, Hc. cbn [concat]. by rewrite app_nil_r.
  - unfold next_of at 1. rewrite Ek, En. change (next_of n1 d + 1 = next_of n d + N.of_nat (length (log ++ [c :: copied])))%N.
    rewrite Hn, length_app. cbn. lia.
  - rewrite Ek, numbered_app. cbn [numbered].
    assert (wrap (uval (next (at_db (kept (node_copies n)) d)) + N.of_nat (length log)) =
      next (at_db (kept (node_copies n1)) d)) as ->; [|by apply newest_keep].
    apply uint_eq. unfold next_of in Hn. by rewrite <- Hn, wrap_uval.
Qed.

(** All of them, from a history's start. *)
Lemma wrote_writes n n' h from most ws d :
  node_copies n = new h from most → (uval (at_db from d) + N.of_nat (length ws) < bound 8)%N →
  for_each node_write n ws = Ok n' → ∃ log, wrote n n' d most ws log.
Proof.
  intros En Hr Hf.
  assert (∀ more done n1 log, wrote n n1 d most done log → kept_wf (at_db (kept (node_copies n1)) d) →
    most_kept (node_copies n1) = most →
    (next_of n d + N.of_nat (length log) + N.of_nat (length more) < bound 8)%N →
    for_each node_write n1 more = Ok n' → ∃ log, wrote n n' d most (done ++ more) log) as Hgo.
  { clear Hf Hr. intros more. induction more as [|dw more IH]; intros before n1 log Hw Hwf Em Hl Hf; cbn in Hf;
      inv_ok; [rewrite app_nil_r; by exists log|].
    cbn [length] in Hl. subst most.
    destruct (wrote_write n n1 a d dw before log) as (new_ & Hm & Hw' & Hwf'); [done..|lia|done|].
    assert (most_kept (node_copies a) = most_kept (node_copies n1)) as Em.
    { destruct dw. by apply node_write_spec in Ha as (_ & ? & _). }
    change (dw :: more) with ([dw] ++ more). rewrite app_assoc.
    eapply (IH _ a (log ++ new_)); [done..| |done]. rewrite length_app. lia. }
  apply (Hgo ws [] n []); [|rewrite En; cbn; rewrite of_map; apply keeping_nothing_wf|by rewrite En| |done].
  - split; [by exists []|done|cbn; lia|]. rewrite En. cbn. rewrite of_map.
    split; [|done|left; apply N.le_0_l]. exists []. split; [done|]. by intros [] ? [=].
  - unfold next_of. rewrite En. cbn. rewrite of_map. cbn. lia.
Qed.
End node.

Module CopiesTheorems.
Section theorems.
Context {E : Type} `{EngineOk E}.

(** C32. A node that starts a history keeps each database's writes in the
    order its engine took them. Of the writes it is asked, each database takes
    those that are its own, in their order: the changes each asks for, a
    store's own keys left out - a new record's none where there was one -,
    those of none left out. It holds what they make of what it held; its next
    number counts them; and what it keeps for its standbys is the end of them,
    each under its number: the newest always, and before it as many as are so
    many bytes of keys and values together, and no fewer. *)
Theorem kept_in_order (n n' : Node E) h from most ws :
  node_copies n = new h from most →
  (∀ d, uval (at_db from d) + N.of_nat (length ws) < bound 8)%N →
  for_each node_write n ws = Ok n' →
  ∀ d, ∃ batches older,
    let kept_ := writes (at_db (kept (node_copies n')) d) in
    let log := filter (λ changes, changes ≠ []) batches in
    Forall2 (λ w changes, changes = filter (λ c, own c.1 = false) (asked_of w) ∨
                          is_put_new w = true ∧ changes = [])
      (filter (λ dw, dw.1 = d) ws).*2 batches ∧
    holds n' d = changed (holds n d) (concat log) ∧
    uval (next (at_db (kept (node_copies n')) d)) = (uval (at_db from d) + N.of_nat (length log))%N ∧
    numbered (at_db from d) log = older ++ kept_ ∧
    (log ≠ [] → kept_ ≠ []) ∧
    ((weight kept_ ≤ most)%N ∨ length kept_ ≤ 1) ∧
    (∀ before w, older = before ++ [w] → (most < weight (w :: kept_))%N).
Proof.
  intros En Hr Hf d. destruct (wrote_writes n n' h from most ws d En (Hr d) Hf) as (log & Hw).
  destruct Hw as [(batches & Hb & ->) Hh Hn [(older & Eo & Hold) Hne Hwi]].
  assert (next (at_db (kept (node_copies n)) d) = at_db from d) as Efrom.
  { rewrite En. cbn. by rewrite of_map. }
  rewrite Efrom in *. exists batches, older. split; [done|]. split; [done|].
  split; [unfold next_of in Hn; by rewrite <- Efrom|]. split; [done|]. split; [|done].
  intros Hl. apply Hne. by destruct (filter _ batches).
Qed.
End theorems.

(** Five bytes kept at most: of three writes to the audit database the last
    two go past them, and one alone is kept; a store's own key is not. *)
Definition example_key (s : string) : bytes := String.list_byte_of_string s.
Definition example_node : Node Memory.Memory :=
  NodeOf (all_of {| Memory.records := ∅ |}) (new (wrap 3) (all_of (wrap 1)) 5).
Definition example_writes : list (Database * Write) :=
  [(AuditDatabase, Put (example_key "k") (example_key "aaaa"));
   (Runtime, PutNew DATA_KEY (example_key "own"));
   (AuditDatabase, Apply [(example_key "k", Some (example_key "bb")); (example_key "j", Some [])]);
   (AuditDatabase, TakeOut (example_key "j"))].
Definition example_written : Node Memory.Memory :=
  match for_each node_write example_node example_writes with Ok n => n | Err _ => example_node end.

Example example_kept :
  map_each (λ k, (uval (next k), uval ∘ fst <$> writes k)) (kept (node_copies example_written)) =
    Each (1%N, []) (1%N, []) (4%N, [2; 3]%N).
Proof. vm_compute. reflexivity. Qed.

Lemma kept_in_order_witness :
  for_each node_write example_node example_writes = Ok example_written ∧
  ∃ batches older,
    Forall2 took [Put (example_key "k") (example_key "aaaa");
        Apply [(example_key "k", Some (example_key "bb")); (example_key "j", Some [])];
        TakeOut (example_key "j")] batches ∧
    numbered (wrap 1) (filter (λ changes, changes ≠ []) batches) =
      older ++ writes (at_db (kept (node_copies example_written)) AuditDatabase).
Proof.
  assert (for_each node_write example_node example_writes = Ok example_written) as Hf.
  { vm_compute. reflexivity. }
  split; [exact Hf|].
  destruct (kept_in_order example_node example_written (wrap 3) (all_of (wrap 1)) 5 example_writes)
    with (d := AuditDatabase) as (batches & older & Hb & _ & _ & He & _).
  - reflexivity.
  - intros []; vm_compute; reflexivity.
  - exact Hf.
  - exists batches, older. split; [exact Hb|exact He].
Defined.
End CopiesTheorems.
