(* ===== verification/Shipped.v ===== *)
(** * What a primary sends its standbys, in bytes
    (src/.src/storage/standby/shipped.rs)

    [Standing] is what a Storage node says of itself, [Follow] where a standby
    asks to be followed from, and [Shipped] one frame from a primary to a
    standby, each with its form and its round trip. A database's number is a
    byte; a frame of one no node keeps is refused as it is read. *)

From S2P Require Import Prelude Word Encrypted Engine Codec Copies.

(** ** The records *)

Record Standing : Type := {
  sg_process : u128;
  sg_primary : bool;
  sg_epoch : u64;
  sg_history : u128;
  sg_next : each u64;
  sg_copying : bool;
}.

(** [Standing::held]: the sum of three 64-bit numbers in one. *)
Definition held (s : Standing) : u64 :=
  foldl (λ sum d, wadd sum (uval (at_db (sg_next s) d))) (wrap 0) DATABASES.

Record Follow : Type := { fo_epoch : u64; fo_history : u128; fo_next : each u64 }.

(** A database's number on the wire. *)
Definition number_of (d : Database) : byte :=
  match d with Runtime => x00 | Administration => x01 | AuditDatabase => x02 end.

Inductive Shipped : Type :=
  | Beat (epoch : u64)
  | CopyOf (database : Database) (number : u64) (changes : list Change)
  | Whole (history : u128) (epoch : u64) (keys : list bytes)
  | Entries (database : Database) (entries : list Entry)
  | CopiedTo (database : Database) (next : u64)
  | Declined (reason : string).

#[export] Instance Standing_eq_dec : EqDecision Standing.
Proof. solve_decision. Defined.
#[export] Instance Follow_eq_dec : EqDecision Follow.
Proof. solve_decision. Defined.
#[export] Instance Shipped_eq_dec : EqDecision Shipped.
Proof. solve_decision. Defined.

(** ** Their forms *)

Section forms.
Context {C : Codec}.

Definition write_nexts (n : each u64) : bytes :=
  w_u64 (at_runtime n) ++ w_u64 (at_administration n) ++ w_u64 (at_audit n).
Definition read_nexts : rd (each u64) :=
  a ← r_u64; b ← r_u64; c ← r_u64; mret (Each a b c).

Definition write_Standing (s : Standing) : bytes :=
  w_u128 (sg_process s) ++ w_flag (sg_primary s) ++ w_u64 (sg_epoch s) ++
  w_u128 (sg_history s) ++ write_nexts (sg_next s) ++ w_flag (sg_copying s).
Definition read_Standing : rd Standing :=
  process ← r_u128; primary ← r_flag; epoch ← r_u64; history ← r_u128;
  next ← read_nexts; copying ← r_flag;
  mret {| sg_process := process; sg_primary := primary; sg_epoch := epoch;
          sg_history := history; sg_next := next; sg_copying := copying |}.
#[export] Instance Standing_form : Form Standing :=
  { write := write_Standing; fread := read_Standing }.

Definition write_Follow (f : Follow) : bytes :=
  w_u64 (fo_epoch f) ++ w_u128 (fo_history f) ++ write_nexts (fo_next f).
Definition read_Follow : rd Follow :=
  epoch ← r_u64; history ← r_u128; next ← read_nexts;
  mret {| fo_epoch := epoch; fo_history := history; fo_next := next |}.
#[export] Instance Follow_form : Form Follow := { write := write_Follow; fread := read_Follow }.

Definition write_change (c : Change) : bytes :=
  w_counted c.1 ++ w_flag (is_some c.2) ++
  match c.2 with Some value => w_counted value | None => [] end.
Definition read_change : rd Change :=
  key ← r_counted; present ← r_byte;
  value ← (if nonzero present then (v ← r_counted; mret (Some v)) else mret None
           : rd (option bytes));
  mret (key, value).

Definition write_entry (e : Entry) : bytes := w_counted e.1 ++ w_counted e.2.
Definition read_entry : rd Entry := key ← r_counted; value ← r_counted; mret (key, value).

Definition write_database (d : Database) : bytes := w_byte (number_of d).
(** The closure [database] of [Shipped::read]. *)
Definition read_database : rd Database :=
  b ← r_byte;
  match b with
  | x00 => mret Runtime
  | x01 => mret Administration
  | x02 => mret AuditDatabase
  | _ => rd_err (CodecErr "no database is numbered so")
  end.

Definition write_Shipped (f : Shipped) : bytes :=
  match f with
  | Beat epoch => w_byte x00 ++ w_u64 epoch
  | CopyOf database number changes =>
      w_byte x01 ++ write_database database ++ w_u64 number ++ w_list write_change changes
  | Whole history epoch keys =>
      w_byte x02 ++ w_u128 history ++ w_u64 epoch ++ w_list w_counted keys
  | Entries database entries =>
      w_byte x03 ++ write_database database ++ w_list write_entry entries
  | CopiedTo database next => w_byte x04 ++ write_database database ++ w_u64 next
  | Declined reason => w_byte x05 ++ w_text reason
  end.

Definition read_Shipped : rd Shipped :=
  kind ← r_byte;
  match kind with
  | x00 => epoch ← r_u64; mret (Beat epoch)
  | x01 => database ← read_database; number ← r_u64; changes ← r_list read_change;
           mret (CopyOf database number changes)
  | x02 => history ← r_u128; epoch ← r_u64; keys ← r_list r_counted;
           mret (Whole history epoch keys)
  | x03 => database ← read_database; entries ← r_list read_entry;
           mret (Entries database entries)
  | x04 => database ← read_database; next ← r_u64; mret (CopiedTo database next)
  | x05 => reason ← r_text; mret (Declined reason)
  | _ => rd_err (CodecErr "no frame is numbered so")
  end.
#[export] Instance Shipped_form : Form Shipped := { write := write_Shipped; fread := read_Shipped }.
End forms.

(** ** Their round trips *)

Definition change_fits (c : Change) : Prop :=
  counts c.1 ∧ match c.2 with Some value => counts value | None => True end.

#[export] Instance Standing_fits : Fits Standing := λ _, True.
#[export] Instance Follow_fits : Fits Follow := λ _, True.
#[export] Instance Shipped_fits : Fits Shipped := λ f,
  match f with
  | CopyOf _ _ changes => counts changes ∧ Forall change_fits changes
  | Whole _ _ keys => counts keys ∧ Forall counts keys
  | Entries _ entries => counts entries ∧ Forall (λ e : Entry, counts e.1 ∧ counts e.2) entries
  | Declined reason => counts_text reason
  | _ => True
  end.

Section roundtrips.
Context {C : Codec} {CO : CodecOk C}.

Lemma nexts_rt n l : read_nexts (write_nexts n ++ l) = COk (n, l).
Proof. unfold read_nexts, write_nexts. roundtrip. by destruct n. Qed.

Lemma change_rt c l : change_fits c → read_change (write_change c ++ l) = COk (c, l).
Proof.
  intros [H1 H2]. unfold read_change, write_change, w_flag.
  destruct c as [key [value|]]; cbn [fst snd] in *; roundtrip.
  erewrite rd_step; [|by erewrite rd_step by by apply counted_rt]. done.
Qed.

Lemma entry_rt (e : Entry) l : counts e.1 → counts e.2 →
  read_entry (write_entry e ++ l) = COk (e, l).
Proof. intros H1 H2. unfold read_entry, write_entry. roundtrip. by destruct e. Qed.

Lemma database_rt d l : read_database (write_database d ++ l) = COk (d, l).
Proof. unfold read_database, write_database. destruct d; roundtrip. Qed.
#[local] Hint Resolve nexts_rt database_rt : codec.

#[export] Instance Standing_ok : FormOk Standing.
Proof.
  intros s l _. cbn [write fread Standing_form]. unfold write_Standing, read_Standing.
  roundtrip. by destruct s.
Qed.

#[export] Instance Follow_ok : FormOk Follow.
Proof.
  intros f l _. cbn [write fread Follow_form]. unfold write_Follow, read_Follow.
  roundtrip. by destruct f.
Qed.

Lemma changes_rt changes l : counts changes → Forall change_fits changes →
  r_list read_change (w_list write_change changes ++ l) = COk (changes, l).
Proof.
  intros Hn Hf. apply list_rt; [done|]. eapply Forall_impl; [exact Hf|].
  intros c Hc k. by apply change_rt.
Qed.

Lemma entries_rt (entries : list Entry) l : counts entries →
  Forall (λ e : Entry, counts e.1 ∧ counts e.2) entries →
  r_list read_entry (w_list write_entry entries ++ l) = COk (entries, l).
Proof.
  intros Hn Hf. apply list_rt; [done|]. eapply Forall_impl; [exact Hf|].
  intros c [? ?] k. by apply entry_rt.
Qed.

Lemma keys_rt (keys : list bytes) l : counts keys → Forall counts keys →
  r_list r_counted (w_list w_counted keys ++ l) = COk (keys, l).
Proof.
  intros Hn Hf. apply list_rt; [done|]. eapply Forall_impl; [exact Hf|].
  intros c Hc k. by apply counted_rt.
Qed.
#[local] Hint Resolve changes_rt entries_rt keys_rt : codec.

#[export] Instance Shipped_ok : FormOk Shipped.
Proof.
  intros f l Hf. cbn [write fread Shipped_form]. unfold write_Shipped, read_Shipped.
  unfold fits, Shipped_fits in Hf.
  destruct f; destruct_and?; roundtrip.
Qed.
End roundtrips.
