(* ===== verification/Follow.v ===== *)
(** * A standby following its primary
    (src/.src/storage/standby/ship.rs, follow.rs)

    A primary hands each standby its writes as frames: the whole of each
    database first where the standby cannot take the writes on from where it
    is, then each write as it is kept. [Shipper] is where the primary is in
    that; each of its steps sends frames over what the engines and the copies
    hold at that step, so that writes may come between any two.
    [frame_taken] is what the standby does with one frame.

    The connection is a queue of frames; what a standby asks and what declines
    it are values. Which secrets a node's key home wraps is [Secret]'s; that a
    data key handed and taken is the same is [HandingOk]. The clock that says
    when to sync is left open: a sync may come at any time. *)

From S2P Require Import Prelude Word Encrypted Engine Copies Shipped.

(** ** What is used of xmip-core-secret besides [Secret] *)

Class Handing `{Secret} := {
  handed : DataKey → bytes;
  taken : bytes → sres DataKey;
}.
Class HandingOk `{Handing} : Prop := taken_handed k : taken (handed k) = inl k.

(** ** Constants *)

Definition EPOCH : bytes := zero_text "xmip-core-persist/epoch" ++ [x00].
Definition COPYING : bytes := zero_text "xmip-core-persist/copying" ++ [x00].
#[global] Arguments EPOCH : simpl never.
#[global] Arguments COPYING : simpl never.
(** The engine key after every key an engine keeps. *)
Definition LAST : bytes := replicate 1024 xff.
#[global] Arguments LAST : simpl never.
(** The most entries a page of a whole copy carries (ship.rs), and one of its
    wipe removes at once (follow.rs). *)
Definition PAGE : N := 256.
Definition WIPE_PAGE : N := 1024.
(** The most bytes of copies one turn hands on of a database. *)
Definition TURN : N := 4 * 1024 * 1024.
(** As many rounds as a wipe can need, and more: an engine holds fewer keys
    than a 64-bit number counts. *)
Definition ROUNDS : positive := 2 ^ 64.

(** ** The standby *)

(** A whole copy under way: the history it brings, and where each database's
    copies follow from, once said. *)
Record WholeCopy : Type := { wh_history : u128; wh_next : each (option u64) }.

#[local] Open Scope persist_scope.
#[local] Reserved Notation "'let!' x ':=' m 'in' k" (at level 200, x name, k at level 200).
#[local] Reserved Notation "m ;; k" (at level 100, right associativity).

Section follow.
Context `{Secret} {HD : Handing} {E : Type} `{Engine E}.

(** A standby following: its databases, the epoch it is in, which databases
    are written since their last sync, the whole copy under way, and what its
    random source draws next. *)
Record Following : Type := {
  node : Node E;
  epoch : u64;
  dirty : each bool;
  whole : option WholeCopy;
  randomness : Random;
}.

Definition with_node (s : Following) (n : Node E) : Following :=
  {| node := n; epoch := epoch s; dirty := dirty s; whole := whole s; randomness := randomness s |}.
Definition with_whole (s : Following) (w : option WholeCopy) : Following :=
  {| node := node s; epoch := epoch s; dirty := dirty s; whole := w; randomness := randomness s |}.
Definition with_dirty (s : Following) (d : each bool) : Following :=
  {| node := node s; epoch := epoch s; dirty := d; whole := whole s; randomness := randomness s |}.
Definition with_epoch (s : Following) (e : u64) : Following :=
  {| node := node s; epoch := e; dirty := dirty s; whole := whole s; randomness := randomness s |}.
Definition with_random (s : Following) (r : Random) : Following :=
  {| node := node s; epoch := epoch s; dirty := dirty s; whole := whole s; randomness := r |}.

Definition put_engine (n : Node E) (d : Database) (e : E) : Node E :=
  NodeOf (put_at d e (engines n)) (node_copies n).

(** [StorageNode::heard]: the epoch kept where it is later; whether it could
    be kept is not asked. *)
Definition heard (s : Following) (heard_ : u64) : Following :=
  if (uval (epoch s) <? uval heard_)%N then
    let s := with_epoch s heard_ in
    match write (at_db (engines (node s)) Runtime) EPOCH (be heard_) with
    | Ok e => with_node s (put_engine (node s) Runtime e)
    | Err _ => s
    end
  else s.

(** What a standby does: the state it leaves and its error, if it stopped at
    one - what was written before stays written. *)
Definition act (A : Type) : Type := Following → Following * result A.
Definition bind {A B} (m : act A) (f : A → act B) : act B := λ s,
  match m s with
  | (s, Ok a) => f a s
  | (s, Err e) => (s, Err e)
  end.
Definition skip : act unit := λ s, (s, Ok tt).
#[local] Notation "'let!' x ':=' m 'in' k" := (bind m (λ x, k)) : persist_scope.
#[local] Notation "m ;; k" := (bind m (λ _ : unit, k)) : persist_scope.

Definition update (f : Following → Following) : act unit := λ s, (f s, Ok tt).
Definition fail {A} (e : PersistError) : act A := λ s, (s, Err e).
(** An operation of one engine, in [?]. *)
Definition on (d : Database) (f : E → result E) : act unit := λ s,
  match f (at_db (engines (node s)) d) with
  | Ok e => (with_node s (put_engine (node s) d e), Ok tt)
  | Err error => (s, Err error)
  end.
Definition ask {A} (m : result A) : act A := λ s, (s, m).
(** A [for] loop. *)
Fixpoint in_turn {A} (f : A → act unit) (l : list A) : act unit :=
  match l with
  | [] => skip
  | a :: l => f a ;; in_turn f l
  end.

Definition set_dirty (d : Database) (b : bool) : act unit :=
  update (λ s, with_dirty s (put_at d b (dirty s))).

(** [StorageNode::synced]: each database written since its last sync. *)
Definition synced : act unit :=
  in_turn (λ d s,
    if at_db (dirty s) d then (on d sync ;; set_dirty d false) s else (s, Ok tt)) DATABASES.

(** One round of the loop of [StorageNode::wiped]: a page of keys removed,
    until there is none to remove. *)
Definition wipe_round (e : E) : result (E + E * result unit) :=
  Ok match scan e [] LAST WIPE_PAGE false with
     | Err error => inr (e, Err error)
     | Ok [] => inr (e, Ok tt)
     | Ok page =>
         let gone := (λ kv : Entry, (kv.1, None)) <$> filter (λ kv : Entry, kv.1 ≠ COPYING) page in
         match gone with
         | [] => inr (e, Ok tt)
         | _ =>
             match apply_deferred e gone with
             | Ok e => inl e
             | Err error => inr (e, Err error)
             end
         end
     end.

Definition wipe (d : Database) : act unit := λ s,
  let e := at_db (engines (node s)) d in
  let '(e, done) :=
    match run_for ROUNDS wipe_round e with
    | Ok (inr done) => done
    | Ok (inl e) => (e, Err (Failed_ "more keys than an engine holds"))
    | Err error => (e, Err error)
    end in
  (with_node s (put_engine (node s) d e), done).

(** [StorageNode::wiped]: every database emptied and given its primary's data
    key, wrapped under this node's own key-encryption key. *)
Definition wiped_database (keys_ : KeyStore) (kek : KekName) (dk : Database * bytes) : act unit :=
  wipe dk.1 ;;
  let! data := ask (into_key (taken dk.2)) in λ s,
  (let! wrapped := ask (into_key (wrap_key keys_ kek (randomness s 0) data)) in
   update (λ s, with_random s (drawn 1 (randomness s))) ;;
   on dk.1 (λ e, write e DATA_KEY wrapped)) s.

Definition wiped (keys_ : KeyStore) (kek : KekName) (keys : list bytes) : act unit :=
  if decide (length keys = length DATABASES) then
    in_turn (wiped_database keys_ kek) (zip DATABASES keys)
  else fail (Failed_ "a whole copy handed other than three data keys").

(** [StorageNode::copied_whole]. *)
Definition copied_whole (w : WholeCopy) : act unit :=
  let next := map_each (default (wrap 1)) (wh_next w) in
  in_turn (λ d, on d (λ e, apply e [position (wh_history w) (at_db next d)])) DATABASES ;;
  on Runtime (λ e, apply e [(COPYING, None)]) ;;
  update (λ s, with_node s
    (NodeOf (engines (node s)) (restart (node_copies (node s)) (wh_history w) next))).

(** A copy taken by a node. *)
Definition node_copied (n : Node E) (d : Database) (number : u64) (changes : list Change)
    : result (Node E) :=
  '(e, c) ← copied (node_copies n) (at_db (engines n) d) d number changes;
  Ok (NodeOf (put_at d e (engines n)) c).

(** The changes of a page of a whole copy. *)
Definition entries_of (entries : list Entry) : list Change :=
  (λ kv : Entry, (kv.1, Some kv.2)) <$> filter (λ kv : Entry, own kv.1 = false) entries.

(** What [StorageNode::following] does with one frame; a frame it refuses ends
    the connection. *)
Definition frame_taken (keys_ : KeyStore) (kek : KekName) (frame : Shipped) : act unit :=
  match frame with
  | Beat epoch => update (λ s, heard s epoch) ;; synced
  | CopyOf d number changes => λ s,
      (let! n := ask (node_copied (node s) d number changes) in
       update (λ s, with_node s n) ;;
       set_dirty d true ;;
       update (λ s, heard s (wrap 0))) s
  | Whole history epoch keys =>
      on Runtime (λ e, apply e [(COPYING, Some [x01])]) ;;
      update (λ s, with_node s (NodeOf (engines (node s))
        (restart (node_copies (node s)) (wrap 0) (all_of (wrap 1))))) ;;
      wiped keys_ kek keys ;;
      update (λ s, heard s epoch) ;;
      update (λ s, with_whole s (Some {| wh_history := history; wh_next := all_of None |}))
  | Entries d entries =>
      on d (λ e, apply_deferred e (entries_of entries)) ;; set_dirty d true
  | CopiedTo d next => λ s,
      match whole s with
      | None => (s, Err (Failed_ "a whole copy's end with no start"))
      | Some w =>
          let w := {| wh_history := wh_history w; wh_next := put_at d (Some next) (wh_next w) |} in
          if forallb (λ d, is_some (at_db (wh_next w) d)) DATABASES
          then copied_whole w (with_whole s None)
          else (with_whole s (Some w), Ok tt)
      end
  | Declined reason => fail (Failed_ reason)
  end.

(** Where a standby asks to be followed from. *)
Definition asked (s : Following) : Follow :=
  {| fo_epoch := epoch s; fo_history := history (node_copies (node s));
     fo_next := nexts (node_copies (node s)) |}.

(** ** The primary *)

(** Where a primary is in handing its writes to one standby: about to copy a
    database whole, in the midst of it after the key before [first], or
    handing on what it keeps from [next] on. *)
Inductive Shipper : Type :=
  | Begin (d : Database) (from : each u64)
  | Paging (d : Database) (first : bytes) (from : each u64)
  | Handing_on (next : each u64).

Definition after (d : Database) (from : each u64) : Shipper :=
  match d with
  | Runtime => Begin Administration from
  | Administration => Begin AuditDatabase from
  | AuditDatabase => Handing_on from
  end.

(** The data keys a whole copy hands. *)
Definition data_keys (keys_ : KeyStore) (kek : KekName) (n : Node E) : result (list bytes) :=
  collect (λ d,
    wrapped ← read (at_db (engines n) d) DATA_KEY;
    match wrapped with
    | None => Err (Failed_ "a database with no data key")
    | Some wrapped => key ← into_key (unwrap_key keys_ kek wrapped); Ok (handed key)
    end) DATABASES.

(** How [StorageNode::shipping] starts: on from where the standby is, or the
    first frame of a whole copy; an epoch before the standby's is refused. *)
Definition shipping (keys_ : KeyStore) (kek : KekName) (n : Node E) (epoch : u64) (f : Follow)
    : result (list Shipped * Shipper) :=
  if (uval epoch <? uval (fo_epoch f))%N then
    Err (Failed_ "a primary of an epoch before the one its standby met")
  else
    match follows (node_copies n) (fo_history f) (fo_next f) with
    | None => Ok ([], Handing_on (fo_next f))
    | Some _ =>
        keys ← data_keys keys_ kek n;
        Ok ([Whole (history (node_copies n)) epoch keys], Begin Runtime (all_of (wrap 1)))
    end.

(** One step of a whole copy ([StorageNode::whole]). *)
Definition whole_step (n : Node E) (s : Shipper) : result (list Shipped * Shipper) :=
  match s with
  | Begin d from => Ok ([], Paging d [] (put_at d (at_db (nexts (node_copies n)) d) from))
  | Paging d first from =>
      page ← scan (at_db (engines n) d) first LAST PAGE false;
      match last page with
      | None => Ok ([CopiedTo d (at_db from d)], after d from)
      | Some (last, _) =>
          Ok ([Entries d (filter (λ kv : Entry, own kv.1 = false) page)],
              Paging d (last ++ [x00]) from)
      end
  | Handing_on next => Ok ([], Handing_on next)
  end.

(** What a turn hands on of one database, and where it then is. *)
Definition hand_on_database (n : Node E) (d : Database) (next : each u64)
    : result (list Shipped * each u64) :=
  match since (node_copies n) d (at_db next d) TURN with
  | inr _ => Err (Failed_ "the standby fell further behind than this Storage node keeps")
  | inl copies =>
      Ok ((λ w : Copy, CopyOf d w.1 w.2) <$> copies,
          match last copies with
          | Some (number, _) => put_at d (wadd number 1) next
          | None => next
          end)
  end.
End follow.
Arguments Following {_} E.

(** Sequences are unfolded before what they run, and the loop last. *)
#[global] Strategy 100 [bind].
#[global] Strategy 200 [wipe run_for].

(** ** The wipe *)

(** Every key an engine keeps is before [LAST]. *)
Definition before_last (m : gmap bytes bytes) : Prop :=
  ∀ k, is_Some (m !! k) → bytes_le k LAST.

Lemma lookup_gone (m : gmap bytes bytes) (ks : list bytes) k :
  changed m ((λ k, (k, None)) <$> ks) !! k = if decide (k ∈ ks) then None else m !! k.
Proof.
  revert m; induction ks as [|j ks IH]; intros m; cbn.
  { by rewrite decide_False by by intros ?%elem_of_nil. }
  change (changed (change m (j, None)) ((λ k, (k, None)) <$> ks) !! k =
    if decide (k ∈ j :: ks) then None else m !! k).
  rewrite IH, lookup_change. cbn. destruct (decide (k ∈ ks)).
  - rewrite decide_True by by right. done.
  - destruct (decide (j = k)) as [->|]; [by rewrite decide_True by by left|].
    rewrite decide_False; [done|]. by intros [->|?]%elem_of_cons.
Qed.

Lemma ble_nil_last : ble [] LAST = true.
Proof. done. Qed.

(** A page in which nothing but one key is found is all there is. *)
Lemma page_of_one (m : gmap bytes bytes) most one k :
  (1 < most)%N → before_last m →
  filter (λ kv : Entry, kv.1 ≠ one) (ranged m [] LAST most false) = [] →
  is_Some (m !! k) → k = one.
Proof.
  intros Hmost Hl Hf Hk. unfold ranged in Hf. rewrite ble_nil_last in Hf.
  set (r := range m [] LAST) in *.
  assert (∀ kv, kv ∈ up_to most r → kv.1 = one) as Hone.
  { intros kv Hin. destruct (decide (kv.1 = one)) as [|Hne]; [done|].
    assert (kv ∈ filter (λ kv : Entry, kv.1 ≠ one) (up_to most r)) as Hx
      by by apply list_elem_of_filter.
    rewrite Hf in Hx. by apply elem_of_nil in Hx. }
  assert (NoDup (up_to most r).*1) as Hnd.
  { destruct (up_to_prefix most r) as [rest E]. pose proof (range_NoDup m [] LAST) as Hr.
    fold r in Hr. rewrite E, fmap_app in Hr. by apply NoDup_app in Hr as [? _]. }
  assert (length (up_to most r) ≤ 1) as Hlen.
  { destruct (up_to most r) as [|a [|b l]]; cbn; [lia|lia|].
    apply NoDup_cons in Hnd as [Hn _]. contradict Hn.
    rewrite (Hone a) by by left. rewrite <- (Hone b) by (right; left). left. }
  rewrite length_up_to in Hlen.
  rewrite up_to_all in Hone by lia.
  assert (k ∈ r.*1) as Hin.
  { apply elem_of_range_fst. split; [|done]. apply within_spec. split; [done|by apply Hl]. }
  apply list_elem_of_fmap in Hin as (kv & -> & Hin). by apply Hone.
Qed.

Section wipe.
Context `{Secret} {HD : Handing} {E : Type} `{EngineOk E}.

(** A round takes keys away, never the copy's mark; the loop ends where only
    the mark is left, or with the engine's own failure. *)
Definition wiping (m : gmap bytes bytes) (e : E) : Prop :=
  contents e ⊆ m ∧ contents e !! COPYING = m !! COPYING.

Definition wiped_clean (m : gmap bytes bytes) (done : E * result unit) : Prop :=
  wiping m done.1 ∧
  match done.2 with
  | Ok _ => before_last m → ∀ k, is_Some (contents done.1 !! k) → k = COPYING
  | Err error => scan done.1 [] LAST WIPE_PAGE false = Err error ∨
                 ∃ gone, apply_deferred done.1 gone = Err error
  end.

Lemma wipe_round_spec m e :
  wiping m e →
  ∃ r, wipe_round e = Ok r ∧
    match r with
    | inl e' => wiping m e' ∧ base.size (contents e') < base.size (contents e)
    | inr done => wiped_clean m done
    end.
Proof.
  intros [Hs Hc]. unfold wipe_round. eexists; split; [done|].
  destruct (scan e [] LAST WIPE_PAGE false) as [page|error] eqn:Ep; [|by split; [|left]].
  apply scan_spec in Ep. destruct page as [|kv page].
  { split; [done|]. intros Hl k Hk. symmetry in Ep.
    apply (page_of_one (contents e) WIPE_PAGE COPYING k); [done| |by rewrite Ep|done].
    intros k' [v Hv]. apply Hl. exists v. by eapply lookup_weaken. }
  set (gone := filter _ (kv :: page)).
  destruct ((λ kv : Entry, (kv.1, None)) <$> gone) as [|c gone'] eqn:Eg.
  - apply fmap_nil_inv in Eg. split; [done|]. intros Hl k Hk.
    apply (page_of_one (contents e) WIPE_PAGE COPYING k); [done| |by rewrite <- Ep|done].
    intros k' [v Hv]. apply Hl. exists v. by eapply lookup_weaken.
  - rewrite <- Eg. destruct (apply_deferred e _) as [e'|error] eqn:Ea.
    2: { split; [done|]. right. by eexists. }
    apply apply_deferred_spec in Ea.
    replace ((λ kv : Entry, (kv.1, None)) <$> gone) with
      ((λ k : bytes, (k, @None bytes)) <$> gone.*1) in Ea by by rewrite <- list_fmap_compose.
    assert (∀ k, contents e' !! k = if decide (k ∈ gone.*1) then None else contents e !! k) as Hk.
    { intros k. by rewrite Ea, lookup_gone. }
    assert (contents e' ⊆ contents e) as Hsub.
    { apply map_subseteq_spec. intros k v. rewrite Hk. by case_decide. }
    split; [split; [by etrans|]|].
    + rewrite Hk, decide_False; [done|].
      intros (x & Ex & [Hx _]%list_elem_of_filter)%list_elem_of_fmap. done.
    + apply map_subset_size. split; [done|]. intros Hsup.
      destruct gone as [|g gone''] eqn:Egone; [done|].
      assert (g ∈ gone) as Hg by (rewrite Egone; left).
      assert (contents e !! g.1 = Some g.2) as Hin.
      { apply list_elem_of_filter in Hg as [_ Hg]. rewrite Ep in Hg. apply ranged_sub in Hg.
        destruct g. by apply elem_of_range in Hg as [_ ?]. }
      apply (lookup_weaken _ _ _ _ Hin) in Hsup. rewrite Hk, decide_True in Hsup; [done|].
      cbn. left.
Qed.

Lemma wipe_spec (s : Following E) d :
  let m := contents (at_db (engines (node s)) d) in
  ∃ e done, wipe d s = (with_node s (put_engine (node s) d e), done) ∧ wiping m e ∧
    ((N.of_nat (base.size m) < 2 ^ 64)%N → wiped_clean m (e, done)).
Proof.
  intros m. unfold wipe. set (e0 := at_db (engines (node s)) d) in *.
  destruct (run_for_spec wipe_round (wiping m) (wiped_clean m)
    (λ e, base.size (contents e)) (wipe_round_spec m) ROUNDS e0) as (r & Er & Hr).
  { by split. }
  rewrite Er. destruct r as [e|[e done]].
  - destruct Hr as [Hw Hr]. eexists e, _. split; [done|]. split; [done|]. intros Hn. exfalso.
    unfold ROUNDS in Hr. change (contents e0) with m in Hr.
    assert (N.of_nat (Pos.to_nat (2 ^ 64)) = 2 ^ 64)%N by (rewrite positive_nat_N; done). lia.
  - exists e, done. split; [done|]. split; [by destruct Hr|done].
Qed.
End wipe.

(** ** The mark of a copy under way *)

Section marked.
Context `{Secret} {HD : Handing} {E : Type} `{EngineOk E}.

(** What a computation keeps, wherever it stops. *)
Definition kept_by {A} (P : Following E → Prop) (m : act A) : Prop := ∀ s, P s → P (m s).1.

Lemma kept_bind {A B} P (m : act A) (f : A → act B) :
  kept_by P m → (∀ a, kept_by P (f a)) → kept_by P (bind m f).
Proof.
  intros Hm Hf s Hs. unfold bind. specialize (Hm s Hs).
  destruct (m s) as [s' [a|e]]; [by apply Hf|done].
Qed.

Lemma kept_in_turn {A} P (f : A → act unit) l :
  (∀ a, a ∈ l → kept_by P (f a)) → kept_by P (in_turn f l).
Proof.
  induction l as [|a l IH]; intros Hf; [by intros s|].
  apply kept_bind; [apply Hf; left|]. intros _. apply IH. intros. apply Hf. by right.
Qed.

Lemma kept_update (P : Following E → Prop) f : (∀ s, P s → P (f s)) → kept_by P (update f).
Proof. intros Hf s. apply Hf. Qed.

Lemma kept_ask {A} (P : Following E → Prop) (m : result A) : kept_by P (ask m).
Proof. by intros s. Qed.

(** What the runtime database holds under a key. *)
Definition at_key (k : bytes) (o : option bytes) (s : Following E) : Prop :=
  contents (at_db (engines (node s)) Runtime) !! k = o.

Lemma at_key_put k o s d e :
  at_key k o s →
  contents e !! k = contents (at_db (engines (node s)) d) !! k →
  at_key k o (with_node s (put_engine (node s) d e)).
Proof.
  unfold at_key. cbn [node with_node put_engine engines]. intros Hs He. rewrite of_put. case_decide; [subst d; congruence|done].
Qed.

Lemma kept_on k o d (f : E → result E) :
  (∀ e e', f e = Ok e' → contents e' !! k = contents e !! k) →
  kept_by (at_key k o) (on d f).
Proof.
  intros Hf s Hs. unfold on. destruct (f _) eqn:Ef; [|done]. apply at_key_put; [done|by apply Hf].
Qed.

Lemma heard_at_key k o n s : k ≠ EPOCH → at_key k o s → at_key k o (heard s n).
Proof.
  intros Hk Hs. unfold heard. case_match; [|done].
  destruct (write _ _ _) as [e|] eqn:Ew; [|done].
  apply write_spec in Ew. apply (at_key_put k o (with_epoch s n)); [done|].
  rewrite Ew. by rewrite lookup_insert_ne.
Qed.

Lemma synced_at_key k o : kept_by (at_key k o) synced.
Proof.
  apply kept_in_turn. intros d _ s Hs. case_match; [|done].
  apply (kept_bind (at_key k o) (on d sync)); [|intros; by apply kept_update|done].
  apply kept_on. intros e e' ->%sync_spec. done.
Qed.

Lemma wiped_at_copying o keys_ kek keys : kept_by (at_key COPYING o) (wiped keys_ kek keys).
Proof.
  unfold wiped. case_decide; [|by intros s]. apply kept_in_turn. intros [d key] _.
  unfold wiped_database. cbn [fst snd]. apply kept_bind.
  { intros s Hs. destruct (wipe_spec s d) as (e & r & -> & [_ Hc] & _). by apply at_key_put. }
  intros _. apply kept_bind; [apply kept_ask|]. intros data s Hs.
  refine (kept_bind _ _ _ _ _ s Hs); [apply kept_ask|]. intros wrapped.
  apply kept_bind; [by apply kept_update|]. intros _. apply kept_on.
  intros e e' ->%write_spec. by rewrite lookup_insert_ne.
Qed.

Lemma heard_whole n (s : Following E) : whole (heard s n) = whole s.
Proof. unfold heard. case_match; [|done]. by destruct (write _ _ _). Qed.

Lemma on_whole w d (f : E → result E) : kept_by (λ s, whole s = w) (on d f).
Proof. intros s Hs. unfold on. by destruct (f _). Qed.

Lemma synced_whole w : kept_by (λ s, whole s = w) synced.
Proof.
  apply kept_in_turn. intros d _ s Hs. case_match; [|done].
  apply (kept_bind (λ s, whole s = w) (on d sync)); [apply on_whole|intros; by apply kept_update|done].
Qed.

Lemma wiped_whole w keys_ kek keys : kept_by (λ s, whole s = w) (wiped keys_ kek keys).
Proof.
  unfold wiped. case_decide; [|by intros s]. apply kept_in_turn. intros [d key] _.
  unfold wiped_database. cbn [fst snd]. apply kept_bind.
  { intros s Hs. by destruct (wipe_spec s d) as (e & r & -> & _). }
  intros _. apply kept_bind; [apply kept_ask|]. intros data s Hs.
  refine (kept_bind (λ s, whole s = w) _ _ _ _ s Hs); [apply kept_ask|]. intros wrapped.
  apply kept_bind; [by apply kept_update|]. intros _. apply on_whole.
Qed.

(** A frame as a primary hands it: no copy carries a store's own keys. *)
Definition clean (f : Shipped) : Prop :=
  match f with CopyOf _ _ changes => ∀ c, c ∈ changes → own c.1 = false | _ => True end.

(** Frames taken one after another, until one is refused. *)
Definition take_all (keys_ : KeyStore) (kek : KekName) (frames : list Shipped) : act unit :=
  in_turn (frame_taken keys_ kek) frames.

Lemma changed_untouched {V} (m : gmap bytes V) batch k :
  (∀ c, c ∈ batch → c.1 ≠ k) → changed m batch !! k = m !! k.
Proof.
  revert m; induction batch as [|c batch IH]; intros m Hb; [done|].
  change (changed (change m c) batch !! k = m !! k). rewrite IH by (intros; apply Hb; by right).
  rewrite lookup_change, decide_False; [done|]. apply Hb. left.
Qed.

Lemma node_copied_at_key k o d number changes s n :
  k ≠ POSITION → own k = true → (∀ c, c ∈ changes → own c.1 = false) →
  at_key k o s → node_copied (node s) d number changes = Ok n → at_key k o (with_node s n).
Proof.
  intros Hp Ho Hc Hs. unfold node_copied, copied. destruct (decide _); [|done].
  destruct (apply_deferred _ _) as [e'|] eqn:Ea; [|done]. intros [= <-].
  apply apply_deferred_spec in Ea. unfold at_key in *. cbn [node with_node engines].
  rewrite of_put. case_decide; [subst d|done]. rewrite Ea, changed_untouched; [done|].
  intros c [Hin| ->%list_elem_of_singleton]%elem_of_app; [|done].
  intros <-. specialize (Hc _ Hin). congruence.
Qed.

(** The mark of a copy under way, and what the copies handed so far ended. *)
Definition under_way (ended : list Shipped) (s : Following E) : Prop :=
  at_key COPYING (Some [x01]) s ∧
  ∀ w d, whole s = Some w → is_Some (at_db (wh_next w) d) → ∃ n, CopiedTo d n ∈ ended.

Lemma kept_and {A} (P Q : Following E → Prop) (m : act A) :
  kept_by P m → kept_by Q m → kept_by (λ s, P s ∧ Q s) m.
Proof. intros HP HQ s [? ?]. split; [by apply HP|by apply HQ]. Qed.

Lemma whole_taken keys_ kek h e keys (s s' : Following E) r :
  frame_taken keys_ kek (Whole h e keys) s = (s', r) →
  (s' = s ∧ is_ok r = false) ∨
  (at_key COPYING (Some [x01]) s' ∧
    whole s' = if is_ok r then Some {| wh_history := h; wh_next := all_of None |} else whole s).
Proof.
  cbn [frame_taken]. unfold bind at 1. unfold on at 1.
  destruct (apply _ _) as [e1|error] eqn:Ea; [|intros [= <- <-]; by left].
  apply apply_spec in Ea. set (s1 := with_node s _). intros Ht. right.
  assert (at_key COPYING (Some [x01]) s1) as Hm.
  { unfold at_key. cbn. rewrite Ea. cbn. by rewrite lookup_insert_eq. }
  unfold bind, update in Ht. set (s2 := with_node s1 _) in Ht.
  pose proof (wiped_at_copying (Some [x01]) keys_ kek keys s2 Hm) as Hw.
  pose proof (wiped_whole (whole s) keys_ kek keys s2 eq_refl) as Hx.
  destruct (wiped keys_ kek keys s2) as [s3 [[]|error]]; cbn [fst] in Hw, Hx; injection Ht as <- <-.
  - split; [|done]. by apply (heard_at_key COPYING (Some [x01]) e s3).
  - by split.
Qed.

(** A frame taken while a copy is under way: it stays marked, but where a
    database's end was the last one missing. *)
Lemma frame_under_way keys_ kek frame ended (s s' : Following E) r :
  clean frame → under_way ended s → frame_taken keys_ kek frame s = (s', r) →
  under_way (ended ++ [frame]) s' ∨
  (∀ d, ∃ n, CopiedTo d n ∈ ended ++ [frame]).
Proof.
  intros Hc [Hm Hu] Ht.
  assert (∀ w d, whole s = Some w → is_Some (at_db (wh_next w) d) →
    ∃ n, CopiedTo d n ∈ ended ++ [frame]) as Hu'.
  { intros w d Hw Hd. destruct (Hu w d Hw Hd) as [n Hn]. exists n. apply elem_of_app. by left. }
  assert (∀ (m : act unit), kept_by (λ s1, at_key COPYING (Some [x01]) s1 ∧ whole s1 = whole s) m →
    m s = (s', r) → under_way (ended ++ [frame]) s') as Hkeep.
  { intros m Hk Em. destruct (Hk s) as [Hk1 Hk2]; [done|]. rewrite Em in Hk1, Hk2. cbn in Hk1, Hk2.
    split; [done|]. intros w d Hw. rewrite Hk2 in Hw. by apply Hu'. }
  destruct frame as [ep|d number changes|h ep keys|d es|d next|reason].
  - left. refine (Hkeep _ _ Ht). cbn [frame_taken]. apply kept_bind.
    + apply kept_update. intros s1 [? ?]. rewrite heard_whole. split; [by apply heard_at_key|done].
    + intros _. apply kept_and; [apply synced_at_key|apply synced_whole].
  - left. cbn [frame_taken] in Ht.
    unfold bind at 1, ask in Ht. destruct (node_copied _ _ _ _) as [n|] eqn:En.
    2: { injection Ht as <- <-. split; [done|]. intros w d' Hw. by apply Hu'. }
    unfold bind, update, set_dirty, update in Ht. injection Ht as <- <-. split.
    + apply heard_at_key; [done|]. by eapply (node_copied_at_key COPYING _ d number changes s n).
    + intros w d'. rewrite heard_whole. by apply Hu'.
  - left. apply whole_taken in Ht as [[-> _]|[Hm' Hw']]; [split; [done|by apply Hu']|].
    split; [done|]. intros w d Hw. rewrite Hw in Hw'. destruct (is_ok r); [|by apply Hu'].
    injection Hw' as ->. cbn [wh_next]. rewrite of_all. by intros [? ?].
  - left. refine (Hkeep _ _ Ht). cbn [frame_taken]. apply kept_bind.
    + apply kept_and; [|apply on_whole]. apply kept_on. intros e e' ->%apply_deferred_spec.
      apply changed_untouched. intros c [kv [-> [Ho _]%list_elem_of_filter]]%list_elem_of_fmap.
      cbn. intros Ek. by rewrite Ek in Ho.
    + intros _. by apply kept_update.
  - cbn [frame_taken] in Ht. destruct (whole s) as [w|] eqn:Ew.
    2: { injection Ht as <- <-. left. split; [done|]. intros w d'. rewrite Ew. by apply Hu'. }
    set (w' := {| wh_history := _; wh_next := _ |}) in Ht.
    assert (∀ d', is_Some (at_db (wh_next w') d') → ∃ n, CopiedTo d' n ∈ ended ++ [CopiedTo d next]) as Hends.
    { intros d'. cbn [wh_next w']. rewrite of_put. case_decide as Hd.
      - intros _. subst d'. exists next. apply elem_of_app. right. left.
      - by apply Hu'. }
    destruct (forallb _ DATABASES) eqn:Ef.
    + right. intros d'. apply Hends. rewrite forallb_forall in Ef.
      specialize (Ef d' (proj1 (list_elem_of_In _ _) (every_database d'))).
      by destruct (at_db (wh_next w') d').
    + injection Ht as <- <-. left. split; [done|]. intros w0 d'. cbn [whole with_whole].
      intros [= <-]. apply Hends.
  - injection Ht as <- <-. left. split; [done|by apply Hu'].
Qed.
End marked.

(** ** A node opened (src/.src/storage/standby.rs) *)

Section opened.
Context `{Secret} {HD : Handing} {E : Type} `{Engine E}.

(** [StorageNode::is_copying]: one that cannot be read is taken for one. *)
Definition is_copying (n : Node E) : bool :=
  match read (at_db (engines n) Runtime) COPYING with
  | Ok held => is_some held
  | Err _ => true
  end.

(** What [StorageNode::new] takes from the engines: the history every
    database is at, and where in it, or none. *)
Definition histories (positions : list (option (u128 * u64))) : u128 * each u64 :=
  let history := match positions with Some (h, _) :: _ => Some h | _ => None end in
  let same := forallb (λ at_ : option (u128 * u64),
    match at_ with Some (h, _) => bool_decide (Some h = history) | None => false end) positions in
  match same, history, positions with
  | true, Some history, [a; b; c] =>
      let next_ (at_ : option (u128 * u64)) := match at_ with Some (_, n) => n | None => wrap 1 end in
      (history, Each (next_ a) (next_ b) (next_ c))
  | _, _, _ => (wrap 0, all_of (wrap 1))
  end.

(** [StorageNode::new] over [engines], [kept_most] the bytes kept for a
    standby: the node and the latest epoch it met. *)
Definition opened_node (engines : each E) (kept_most : N) : result (Node E * u64) :=
  positions ← collect (λ d, positioned (at_db engines d)) DATABASES;
  let '(history, next) := histories positions in
  epoch ← read (at_db engines Runtime) EPOCH;
  Ok (NodeOf engines (new history next kept_most),
      match epoch with
      | Some bytes => match array 8 bytes with Some b => of_be b | None => wrap 0 end
      | None => wrap 0
      end).

(** A standby that starts again over its databases. *)
Definition reopened (s : Following E) : result (Following E) :=
  '(n, e) ← opened_node (engines (node s)) (most_kept (node_copies (node s)));
  Ok {| node := n; epoch := e; dirty := all_of false; whole := None; randomness := randomness s |}.
End opened.

Lemma copying_seen `{Secret} {E} `{EngineOk E} (s : Following E) :
  at_key COPYING (Some [x01]) s → is_copying (node s) = true.
Proof.
  intros Hs. unfold is_copying. destruct (read _ COPYING) as [o|] eqn:Er; [|done].
  apply read_spec in Er. unfold at_key in Hs. rewrite Hs in Er. by subst o.
Qed.

Lemma take_all_under_way `{Secret} {HD : Handing} {E} `{EngineOk E} keys_ kek frames ended
    (s s' : Following E) r :
  Forall clean frames → under_way ended s → take_all keys_ kek frames s = (s', r) →
  at_key COPYING (Some [x01]) s' ∨ ∀ d, ∃ n, CopiedTo d n ∈ ended ++ frames.
Proof.
  revert ended s. induction frames as [|f frames IH]; intros ended s Hc Hu Ht.
  { injection Ht as <- <-. left. by destruct Hu. }
  apply Forall_cons in Hc as [Hf Hc]. unfold take_all in Ht. cbn [in_turn] in Ht. unfold bind in Ht.
  destruct (frame_taken keys_ kek f s) as [s1 r1] eqn:E1.
  destruct (frame_under_way _ _ _ _ _ _ _ Hf Hu E1) as [Hu1|Hends].
  - destruct r1 as [[]|error]; [|injection Ht as <- <-; left; by destruct Hu1].
    destruct (IH _ _ Hc Hu1 Ht) as [?|Hends]; [by left|right]. intros d.
    destruct (Hends d) as [n Hn]. exists n. by rewrite <- app_assoc in Hn.
  - right. intros d. destruct (Hends d) as [n Hn]. exists n.
    apply elem_of_app in Hn as [?|Hn]; apply elem_of_app; [by left|right].
    apply list_elem_of_singleton in Hn as <-. left.
Qed.

Module FollowTheorems.
Section theorems.
Context `{Secret} {HD : Handing} {E : Type} `{EngineOk E}.

(** C21. A whole copy cut short is never taken for a whole one. Whatever
    frames a standby takes from the one that starts a whole copy on, and
    wherever it stops - a frame lost or refused, an engine failing in the
    midst of a wipe - it is left as it was, where the start itself could not
    be written, or says it is copying, also after it starts again; unless the
    frames ended every database. *)
Theorem cut_short_stays_marked keys_ kek h e keys frames (s s' : Following E) r :
  Forall clean frames →
  take_all keys_ kek (Whole h e keys :: frames) s = (s', r) →
  (s' = s ∧ is_ok r = false) ∨
  (is_copying (node s') = true ∧
    ∀ s1, reopened s' = Ok s1 → is_copying (node s1) = true) ∨
  ∀ d, ∃ n, CopiedTo d n ∈ frames.
Proof.
  intros Hc Ht. unfold take_all in Ht. cbn [in_turn] in Ht. unfold bind in Ht.
  destruct (frame_taken keys_ kek (Whole h e keys) s) as [s0 r0] eqn:E0.
  apply whole_taken in E0 as [[-> Hr]|[Hm Hw]].
  { destruct r0; [done|]. injection Ht as <- <-. by left. }
  right.
  assert (at_key COPYING (Some [x01]) s' ∨ ∀ d, ∃ n, CopiedTo d n ∈ frames) as [Hk|Hends];
    [|left|by right].
  { destruct r0 as [[]|error]; [|injection Ht as <- <-; by left].
    apply (take_all_under_way keys_ kek frames [] s0 s' r); [done| |done].
    split; [done|]. rewrite Hw. intros w d [= <-]. cbn. rewrite of_all. by intros [? ?]. }
  pose proof (copying_seen _ Hk) as Hs. split; [done|]. intros s1 Hs1.
  unfold reopened, opened_node in Hs1. inv_ok. repeat case_step; inv_ok; repeat case_step; inv_ok; exact Hs.
Qed.
End theorems.

(** A standby that held a record takes the start of a whole copy and a page of
    the runtime database, then its primary is gone. *)
#[local] Existing Instances Glass.secret Glass.secret_ok.
#[global] Instance glass_handing : Handing := { handed k := k; taken k := inl k }.
#[global] Instance glass_handing_ok : HandingOk.
Proof. by intros k. Qed.

Definition example_standby : Following Memory.Memory :=
  {| node := NodeOf (all_of {| Memory.records := <[[x02] := [x07]]> ∅ |})
       (new (wrap 9) (all_of (wrap 4)) 100);
     epoch := wrap 2; dirty := all_of false; whole := None; randomness := λ i, i |}.
Definition example_frames : list Shipped :=
  [Entries Runtime [([x01; x05], [x03])]; CopiedTo Runtime (wrap 6); Declined "stopped"].
Definition example_cut : Following Memory.Memory * result unit :=
  take_all tt tt (Whole (wrap 8) (wrap 3) [[x01]; [x01]; [x01]] :: example_frames) example_standby.

Example example_cut_marked :
  is_copying (node example_cut.1) = true ∧ is_ok example_cut.2 = false ∧
  contents (at_db (engines (node example_cut.1)) Runtime) !! [x02] = None ∧
  contents (at_db (engines (node example_cut.1)) Runtime) !! [x01; x05] = Some [x03].
Proof. vm_compute. repeat split. Qed.

Lemma cut_short_stays_marked_witness :
  Forall clean example_frames ∧
  ((example_cut.1 = example_standby ∧ is_ok example_cut.2 = false) ∨
   (is_copying (node example_cut.1) = true ∧
     ∀ s1, reopened example_cut.1 = Ok s1 → is_copying (node s1) = true) ∨
   ∀ d, ∃ n, CopiedTo d n ∈ example_frames).
Proof.
  assert (Forall clean example_frames) as Hc by by repeat constructor.
  split; [exact Hc|].
  apply (cut_short_stays_marked (H := Glass.secret) tt tt (wrap 8) (wrap 3) [[x01]; [x01]; [x01]] example_frames
    example_standby example_cut.1 example_cut.2 Hc).
  assert (Hx : take_all tt tt (Whole (wrap 8) (wrap 3) [[x01]; [x01]; [x01]] :: example_frames)
    example_standby = example_cut) by (unfold example_cut; reflexivity).
  rewrite Hx. apply surjective_pairing.
Defined.
End FollowTheorems.
