(* ===== verification/Link.v ===== *)
(** * A primary and a standby following it
    (src/.src/storage/standby/ship.rs, follow.rs, over copies.rs)

    [Link] is the two of them and the connection between: the primary writes,
    hands on what it keeps, beats; the standby takes a frame, refuses one,
    syncs, starts again over its databases; the connection is cut and asked
    for anew - in any order, one [step] at a time. What is proved is what a
    standby is for: it holds what its primary held, never a mixture. *)

From S2P Require Import Prelude Word Encrypted Engine Copies Shipped Follow.

(** ** The two and the connection *)

Section link.
Context `{Secret} {HD : Handing} {E : Type} `{Engine E}.
Variables (keys_ : KeyStore) (kek : KekName).

Record Link : Type := {
  primary : Node E;
  in_epoch : u64;
  (** What is handed on next of each database, while there is a connection. *)
  shipper : option (each u64);
  way : list Shipped;
  standby : Following E;
}.

Definition with_primary (l : Link) (n : Node E) : Link :=
  {| primary := n; in_epoch := in_epoch l; shipper := shipper l; way := way l; standby := standby l |}.
Definition with_way (l : Link) (s : option (each u64)) (w : list Shipped) : Link :=
  {| primary := primary l; in_epoch := in_epoch l; shipper := s; way := w; standby := standby l |}.
Definition with_standby (l : Link) (s : Following E) : Link :=
  {| primary := primary l; in_epoch := in_epoch l; shipper := shipper l; way := way l; standby := s |}.
(** No connection: nothing on the way, nothing handed on. *)
Definition cut (l : Link) : Link := with_way l None [].

Inductive step (l : Link) : Link → Prop :=
  (** The primary's engine takes a write. *)
  | step_write d w n :
      room (at_db (kept (node_copies (primary l))) d) →
      node_write (primary l) (d, w) = Ok n →
      step l (with_primary l n)
  (** What is kept of a database is handed on. *)
  | step_hand_on d next frames next' :
      shipper l = Some next →
      hand_on_database (primary l) d next = Ok (frames, next') →
      step l (with_way l (Some next') (way l ++ frames))
  | step_beat next :
      shipper l = Some next →
      step l (with_way l (Some next) (way l ++ [Beat (in_epoch l)]))
  (** The standby takes the first frame on the way, or refuses it. *)
  | step_take f rest s :
      way l = f :: rest →
      frame_taken keys_ kek f (standby l) = (s, Ok tt) →
      step l (with_standby (with_way l (shipper l) rest) s)
  | step_refuse f rest s error :
      way l = f :: rest →
      frame_taken keys_ kek f (standby l) = (s, Err error) →
      step l (cut (with_standby l s))
  | step_sync s r :
      synced (standby l) = (s, r) →
      step l (with_standby l s)
  (** The connection is lost, and asked for again. *)
  | step_cut : step l (cut l)
  | step_ask next :
      shipper l = None →
      shipping keys_ kek (primary l) (in_epoch l) (asked (standby l)) = Ok ([], Handing_on next) →
      step l (with_way l (Some next) [])
  (** The standby starts again over its databases. *)
  | step_reopen s :
      reopened (standby l) = Ok s →
      step l (cut (with_standby l s)).
End link.
Arguments Link {_} E.

(** ** A standby's log: what its primary has written and it has not taken *)

Section log.
Context `{Secret} {HD : Handing} {E : Type} `{EngineOk E}.
Implicit Types (p n : Node E) (s : Following E) (l : Link E).

Definition next_after (d : Database) (n : Node E) (i : nat) : N := (next_of n d + N.of_nat i)%N.

Record behind (d : Database) (p n : Node E) (log : list (list Change)) : Prop := {
  behind_next : next_of p d = next_after d n (length log);
  behind_own : Forall (λ changes, kept_of changes = changes) log;
  behind_holds : holds p d = changed (holds n d) (concat log);
}.

(** A write kept is the log's at its number. *)
Definition logged (d : Database) (n : Node E) (log : list (list Change)) (w : Copy) : Prop :=
  ∃ i, uval w.1 = next_after d n i ∧ log !! i = Some w.2.

Definition kept_logged (d : Database) (p n : Node E) (log : list (list Change)) : Prop :=
  ∀ w, w ∈ writes (at_db (kept (node_copies p)) d) → (next_of n d ≤ uval w.1)%N → logged d n log w.

(** The copies of a database on the way. *)
Definition copy_of (d : Database) (f : Shipped) : option Copy :=
  match f with
  | CopyOf d' number changes => if decide (d' = d) then Some (number, changes) else None
  | _ => None
  end.
Definition copies_of (d : Database) (fs : list Shipped) : list Copy := omap (copy_of d) fs.

(** Frames a primary hands on once it copies nothing whole. *)
Definition handed_on (f : Shipped) : Prop :=
  match f with CopyOf _ _ _ | Beat _ => True | _ => False end.

Record on_the_way (d : Database) (l : Link E) (log : list (list Change)) : Prop := {
  way_frames : Forall handed_on (way l);
  way_copies i w : copies_of d (way l) !! i = Some w →
    uval w.1 = next_after d (node (standby l)) i ∧ log !! i = Some w.2;
  way_next next : shipper l = Some next →
    uval (at_db next d) = next_after d (node (standby l)) (length (copies_of d (way l)));
  way_none : shipper l = None → way l = [];
}.

(** What the standby keeps its place by. *)
Definition placed_at (d : Database) (s : Following E) : Prop :=
  contents (at_db (engines (node s)) d) !! POSITION =
    (position (history (node_copies (node s))) (next (at_db (kept (node_copies (node s))) d))).2.

Record tracks (d : Database) (l : Link E) (log : list (list Change)) : Prop := {
  tr_behind : behind d (primary l) (node (standby l)) log;
  tr_kept : kept_logged d (primary l) (node (standby l)) log;
  tr_wf : kept_wf (at_db (kept (node_copies (primary l))) d);
  tr_way : on_the_way d l log;
  tr_place : placed_at d (standby l);
}.

(** ** What leaves a standby as it is *)

Definition as_it_was (s s' : Following E) : Prop :=
  history (node_copies (node s')) = history (node_copies (node s)) ∧
  ∀ d, next (at_db (kept (node_copies (node s'))) d) =
      next (at_db (kept (node_copies (node s))) d) ∧
    holds (node s') d = holds (node s) d ∧
    contents (at_db (engines (node s')) d) !! POSITION =
      contents (at_db (engines (node s)) d) !! POSITION.

Lemma as_it_was_put s s' d e :
  as_it_was s s' →
  public (contents e) = public (contents (at_db (engines (node s')) d)) →
  contents e !! POSITION = contents (at_db (engines (node s')) d) !! POSITION →
  as_it_was s (with_node s' (put_engine (node s') d e)).
Proof.
  intros [Hc Hd] He Hp. split; [done|]. intros d'. specialize (Hd d'). unfold holds in *.
  cbn [node with_node put_engine engines]. rewrite of_put. case_decide; [subst d'|done].
  by rewrite He, Hp.
Qed.

Lemma heard_as_it_was s0 s (n : u64) : as_it_was s0 s → as_it_was s0 (heard s n).
Proof.
  intros Hs. unfold heard. case_match; [|done]. destruct (write _ _ _) as [e|] eqn:Ew; [|done].
  apply write_spec in Ew. apply (as_it_was_put s0 (with_epoch s n)); [done| |].
  - rewrite Ew. apply (public_change_own _ (EPOCH, Some (be n))). done.
  - rewrite Ew. by rewrite lookup_insert_ne.
Qed.

Lemma sync_as_it_was s0 d : kept_by (as_it_was s0) (on d sync).
Proof.
  intros s Hs. unfold on. destruct (sync _) eqn:Es; [|done].
  apply sync_spec in Es. apply as_it_was_put; [done|by rewrite Es|by rewrite Es].
Qed.

Lemma synced_as_it_was s0 : kept_by (as_it_was s0) synced.
Proof.
  apply kept_in_turn. intros d _ s Hs. case_match; [|done].
  apply (kept_bind (as_it_was s0) (on d sync)); [apply sync_as_it_was|intros; by apply kept_update|done].
Qed.

Lemma tracks_as_it_was d l s log :
  tracks d l log → as_it_was (standby l) s → tracks d (with_standby l s) log.
Proof.
  intros [[H2 H3 H4] Hk Hw [Ha Hb Hc Hn] Hp] [Ec Ed].
  destruct (Ed d) as (Ex & Eh & Ep).
  assert (∀ i, next_after d (node s) i = next_after d (node (standby l)) i) as En.
  { intros i. unfold next_after, next_of. by rewrite Ex. }
  split; cbn [primary standby with_standby].
  - split; [by rewrite En|done|by rewrite Eh].
  - intros w Hin Hle. unfold next_of in Hle. rewrite Ex in Hle.
    destruct (Hk w Hin Hle) as (i & Ei & ?). exists i. by rewrite En.
  - done.
  - split; cbn [primary standby with_standby way shipper]; [done| |intros next; by rewrite En; apply Hc|done].
    intros i w. rewrite En. apply Hb.
  - unfold placed_at in *. by rewrite Ep, Ec, Ex.
Qed.

(** ** What each step does *)

(** The primary writes: the log grows by what is kept, or not at all. *)
Lemma tracks_write d l log d0 w n :
  tracks d l log → room (at_db (kept (node_copies (primary l))) d0) →
  node_write (primary l) (d0, w) = Ok n →
  ∃ more, length more ≤ 1 ∧ tracks d (with_primary l n) (log ++ more).
Proof.
  intros [[H2 H3 H4] Hk Hw [Ha Hb Hc Hn] Hp] Hr Hwr.
  apply node_write_spec in Hwr as (_ & _ & Ho & copied & Hcc & Hh & Ek).
  assert (∀ more, (∀ i w, copies_of d (way l) !! i = Some w →
    uval w.1 = next_after d (node (standby l)) i ∧ (log ++ more) !! i = Some w.2)) as Hb'.
  { intros more i x Hx. destruct (Hb i x Hx) as [? Hl]. split; [done|]. by apply lookup_app_l_Some. }
  assert (holds n d = holds (primary l) d ∧
      at_db (kept (node_copies n)) d = at_db (kept (node_copies (primary l))) d ∨
    d0 = d ∧ copied ≠ []) as [[Eh Ed]|[-> Hne]].
  { destruct (decide (d0 = d)) as [->|Hd]; [|left; by apply Ho].
    destruct copied; [left; by rewrite Hh, Ek|by right]. }
  { exists []. rewrite app_nil_r. split; [cbn; lia|]. split; cbn [primary standby with_primary].
    - split; [unfold next_of; by rewrite Ed|done|by rewrite Eh].
    - unfold kept_logged. by rewrite Ed.
    - by rewrite Ed.
    - by split.
    - done. }
  destruct copied as [|c copied]; [done|]. clear Hne Ho.
  destruct (keep_spec _ (c :: copied) (most_kept (node_copies (primary l))) Hw Hr)
    as (Hwf & _ & En & old & Eo).
  rewrite <- Ek in Hwf, En, Eo. clear Ek.
  exists [c :: copied]. split; [cbn; lia|]. split; cbn [primary standby with_primary].
  - split.
    + unfold next_of at 1. rewrite En. unfold next_of in H2 at 1. rewrite H2.
      unfold next_after. rewrite length_app. cbn. lia.
    + apply Forall_app. by split; [|constructor].
    + by rewrite Hh, H4, concat_app, changed_app; cbn [concat]; rewrite app_nil_r.
  - intros x Hx Hle.
    assert (x ∈ writes (at_db (kept (node_copies (primary l))) d) ++
      [(next (at_db (kept (node_copies (primary l))) d), c :: copied)]) as Hin.
    { rewrite Eo. apply elem_of_app. by right. }
    apply elem_of_app in Hin as [Hin|Hin].
    + destruct (Hk x Hin Hle) as (i & Ei & Hi). exists i. split; [done|]. by apply lookup_app_l_Some.
    + apply list_elem_of_singleton in Hin as ->. exists (length log). cbn. split; [done|].
      by rewrite lookup_app_r, Nat.sub_diag by lia.
  - done.
  - split; [exact Ha|apply Hb'|exact Hc|exact Hn].
  - done.
Qed.

Lemma copies_of_app d fs gs : copies_of d (fs ++ gs) = copies_of d fs ++ copies_of d gs.
Proof. apply omap_app. Qed.

Lemma copies_of_handed d d0 (copies : list Copy) :
  copies_of d ((λ w : Copy, CopyOf d0 w.1 w.2) <$> copies) = if decide (d0 = d) then copies else [].
Proof.
  induction copies as [|[x ch] copies IH]; cbn; [by case_decide|].
  unfold copies_of in IH. rewrite IH. by case_decide.
Qed.

(** What the primary hands on of a database goes on where the way ends. *)
Lemma tracks_hand_on d l log d0 next frames next' :
  tracks d l log → shipper l = Some next →
  hand_on_database (primary l) d0 next = Ok (frames, next') →
  tracks d (with_way l (Some next') (way l ++ frames)) log.
Proof.
  intros [[H2 H3 H4] Hk Hw [Ha Hb Hc Hn] Hp] Hs Hh. specialize (Hc next Hs).
  unfold hand_on_database in Hh. destruct (since _ _ _ _) as [taken|] eqn:Et; [|done].
  injection Hh as <- <-.
  assert (Forall handed_on (way l ++ ((λ w : Copy, CopyOf d0 w.1 w.2) <$> taken))) as Hf.
  { apply Forall_app. split; [done|]. by apply Forall_fmap, Forall_true. }
  split; cbn [primary standby with_way]; [by split|done|done| |done].
  destruct (decide (d0 = d)) as [->|Hd].
  2: { split; cbn [way shipper with_way standby]; [done| | |done].
       - intros i w. rewrite copies_of_app, copies_of_handed, decide_False, app_nil_r by done. apply Hb.
       - intros next2 [= <-]. rewrite copies_of_app, copies_of_handed, decide_False, app_nil_r by done.
         rewrite <- Hc. by destruct (last taken) as [[??]|]; [rewrite of_put_ne|]. }
  assert (length (copies_of d (way l)) ≤ length log) as Hlen.
  { destruct (copies_of d (way l)) as [|a cs _] eqn:Ecs using rev_ind; [cbn; lia|].
    destruct (Hb (length cs) a) as [_ Hl]; [by apply list_lookup_middle|].
    apply lookup_lt_Some in Hl. rewrite length_app. cbn. lia. }
  apply since_spec in Et as (Hnum & Hin & _); [|done|].
  2: { rewrite Hc. change (next_after d (node (standby l)) (length (copies_of d (way l))) ≤ next_of (primary l) d)%N.
       rewrite H2. unfold next_after. lia. }
  assert (∀ i w, taken !! i = Some w →
    log !! (length (copies_of d (way l)) + i) = Some w.2) as Hlog.
  { intros i w Hi. pose proof (Hnum i w Hi) as Ex. rewrite Hc in Ex.
    destruct (Hk w) as (j & Ej & Hj); [by apply Hin; apply list_elem_of_lookup_2 in Hi|unfold next_after in Ex; lia|].
    unfold next_after in Ej, Ex. by replace (length (copies_of d (way l)) + i) with j by lia. }
  split; cbn [way shipper with_way standby]; [done| | |done].
  - intros i w. rewrite copies_of_app, copies_of_handed, decide_True by done.
    intros [Hi|[Hge Hi]]%lookup_app_Some; [by apply Hb|].
    split.
    + rewrite (Hnum _ _ Hi), Hc. unfold next_after. lia.
    + rewrite <- (Hlog _ _ Hi). f_equal. lia.
  - intros next2 [= <-]. rewrite copies_of_app, copies_of_handed, decide_True, length_app by done.
    destruct (last taken) as [[x ch]|] eqn:El.
    + rewrite of_put_same. pose proof El as El'. rewrite last_lookup in El'.
      pose proof (Hnum _ _ El') as Ex. pose proof (Hlog _ _ El') as Hl%lookup_lt_Some.
      cbn [fst] in Ex. assert (length taken ≠ 0) by by destruct taken.
      rewrite uval_wadd.
      * rewrite Ex, Hc. unfold next_after. lia.
      * pose proof (uval_lt (Copies.next (at_db (kept (node_copies (primary l))) d))) as Hlt.
        change (next_of (primary l) d < bound 8)%N in Hlt. rewrite H2 in Hlt.
        rewrite Ex, Hc. unfold next_after in *. lia.
    + apply last_None in El as ->. rewrite Nat.add_0_r. by rewrite Hc.
Qed.

(** A copy the standby takes is the log's first; it leaves the rest. *)
Lemma node_copied_spec n d number changes n' :
  node_copied n d number changes = Ok n' →
  number = next (at_db (kept (node_copies n)) d) ∧
  history (node_copies n') = history (node_copies n) ∧
  (∀ d', d' ≠ d → at_db (engines n') d' = at_db (engines n) d' ∧
    at_db (kept (node_copies n')) d' = at_db (kept (node_copies n)) d') ∧
  next (at_db (kept (node_copies n')) d) = wadd number 1 ∧
  contents (at_db (engines n') d) =
    changed (contents (at_db (engines n) d))
      (changes ++ [position (history (node_copies n)) (wadd number 1)]).
Proof.
  unfold node_copied, copied. destruct (decide _) as [->|]; [|done].
  destruct (apply_deferred _ _) as [e|] eqn:Ea; [|done]. intros [= <-].
  apply apply_deferred_spec in Ea. cbn [engines node_copies with_kept kept history].
  split; [done|]. split; [done|]. split.
  - intros d' Hd. by rewrite !of_put_ne by done.
  - rewrite !of_put_same. split; [|done]. unfold keep. by destruct (trimmed _ _ _).
Qed.

Lemma position_of_changed (m : gmap bytes bytes) changes h (n : u64) :
  changed m (changes ++ [position h n]) !! POSITION = (position h n).2.
Proof.
  rewrite changed_app. change (change (changed m changes) (position h n) !! POSITION = (position h n).2).
  by rewrite lookup_change, decide_True.
Qed.

Lemma kept_of_position changes h (n : u64) :
  kept_of changes = changes → kept_of (changes ++ [position h n]) = changes.
Proof.
  intros Hc. unfold kept_of in *. rewrite filter_app, Hc, filter_cons, decide_False.
  - by rewrite app_nil_r.
  - cbn. by vm_compute.
Qed.

Lemma tracks_copied d l log d0 number changes rest n :
  tracks d l log → way l = CopyOf d0 number changes :: rest →
  node_copied (node (standby l)) d0 number changes = Ok n →
  ∃ before after, log = before ++ after ∧ length before ≤ 1 ∧
    next_of n d = next_after d (node (standby l)) (length before) ∧
    holds n d = changed (holds (node (standby l)) d) (concat before) ∧
    tracks d (with_standby (with_way l (shipper l) rest) (with_node (standby l) n)) after.
Proof.
  intros [[H2 H3 H4] Hk Hw [Ha Hb Hc Hn] Hp] Ew Hnc.
  rewrite Ew in Ha, Hb, Hc, Hn. apply Forall_cons in Ha as [_ Ha].
  apply node_copied_spec in Hnc as (Hnum & Eh & Ho & Hnext & Hcon).
  destruct (decide (d0 = d)) as [->|Hd].
  2: { destruct (Ho d ltac:(done)) as [Ee Ek].
       exists [], log. split; [done|]. split; [cbn; lia|].
       assert (next_of n d = next_of (node (standby l)) d) as En by (unfold next_of; by rewrite Ek).
       assert (holds n d = holds (node (standby l)) d) as Ehd by (unfold holds; by rewrite Ee).
       split; [unfold next_after; cbn; lia|]. split; [done|].
       cbn [copies_of omap list_omap copy_of] in Hb, Hc. rewrite decide_False in Hb, Hc by done.
       assert (∀ i, next_after d n i = next_after d (node (standby l)) i) as Ea.
       { intros i. unfold next_after. by rewrite En. }
       split; cbn [primary standby with_standby with_way node with_node].
       - split; [by rewrite Ea|done|by rewrite Ehd].
       - intros w Hin Hle. rewrite En in Hle. destruct (Hk w Hin Hle) as (i & Ei & ?).
         exists i. by rewrite Ea.
       - done.
       - split; cbn [primary standby with_standby with_way node with_node way shipper];
           [done|intros i w; rewrite Ea; apply Hb|intros nx; rewrite Ea; apply Hc|by intros ?%Hn].
       - unfold placed_at in *. cbn [node with_node]. by rewrite Ee, Ek, Eh. }
  cbn [copies_of omap list_omap copy_of] in Hb, Hc. rewrite decide_True in Hb, Hc by done.
  destruct (Hb 0 _ eq_refl) as [_ Hl0]. cbn [snd] in Hl0.
  destruct log as [|ch log]; [done|]. injection Hl0 as ->.
  apply Forall_cons in H3 as [Hch H3].
  assert (next_of n d = next_of (node (standby l)) d + 1)%N as En.
  { unfold next_of at 1. rewrite Hnext, uval_wadd; rewrite Hnum; [done|].
    pose proof (uval_lt (Copies.next (at_db (kept (node_copies (primary l))) d))) as Hlt.
    change (next_of (primary l) d < bound 8)%N in Hlt. rewrite H2 in Hlt.
    unfold next_after in Hlt. cbn [length] in Hlt. unfold next_of in Hlt. lia. }
  assert (∀ i, next_after d n i = next_after d (node (standby l)) (S i)) as Ea.
  { intros i. unfold next_after. lia. }
  assert (holds n d = changed (holds (node (standby l)) d) changes) as Ehd.
  { unfold holds. by rewrite Hcon, public_changed, kept_of_position. }
  exists [changes], log. split; [done|]. split; [cbn; lia|].
  split; [unfold next_after; cbn; lia|].
  split; [cbn [concat]; by rewrite app_nil_r|].
  split; cbn [primary standby with_standby with_way node with_node].
  - split; [rewrite Ea; exact H2|done|].
    rewrite Ehd, H4. cbn [concat]. by rewrite changed_app.
  - intros w Hin Hle. destruct (Hk w Hin) as (i & Ei & Hi); [lia|].
    destruct i as [|i]; [exfalso; unfold next_after in Ei; lia|]. exists i. by rewrite Ea.
  - done.
  - split; cbn [primary standby with_standby with_way node with_node way shipper].
    + done.
    + intros i w Hi. rewrite Ea. destruct (Hb (S i) w Hi). done.
    + intros nx Hs. rewrite Ea. by apply Hc.
    + by intros ?%Hn.
  - unfold placed_at. cbn [node with_node]. rewrite Hcon, Hnext, Eh. apply position_of_changed.
Qed.

(** A connection cut, and asked for again where the primary can go on. *)
Lemma tracks_cut d l log : tracks d l log → tracks d (cut l) log.
Proof.
  intros [Hb Hk Hw [Ha Hb' Hc Hn] Hp]. split; [done..| |done]. by split.
Qed.

Lemma tracks_ask keys_ kek d l log next_ :
  tracks d l log →
  shipping keys_ kek (primary l) (in_epoch l) (asked (standby l)) = Ok ([], Handing_on next_) →
  tracks d (with_way l (Some next_) []) log.
Proof.
  intros [Hb Hk Hw [Ha Hb' Hc Hn] Hp] Hs. split; [done..| |done].
  assert (next_ = nexts (node_copies (node (standby l)))) as ->.
  { unfold shipping in Hs. case_match; [done|]. destruct (follows _ _ _); [|by injection Hs].
    by destruct (data_keys keys_ kek (primary l)). }
  split; cbn; [done|done| |done]. intros nx [= <-]. unfold nexts. rewrite of_map.
  unfold next_after, next_of. cbn. lia.
Qed.

(** A standby that starts again finds its place where it kept it. *)
Lemma reopened_as_it_was s s' :
  (∀ d, placed_at d s) → reopened s = Ok s' → as_it_was s s'.
Proof.
  intros Hp. unfold reopened, opened_node.
  destruct (collect _ DATABASES) as [ps|] eqn:Ec; [|done].
  apply collect_Ok in Ec. unfold DATABASES in Ec.
  assert (∀ d o, positioned (at_db (engines (node s)) d) = Ok o →
    o = Some (history (node_copies (node s)), next (at_db (kept (node_copies (node s))) d))) as Hpos.
  { intros d o Ho. eapply positioned_spec; [exact Ho|apply Hp]. }
  apply Forall2_cons_inv_l in Ec as (o1 & ps1 & ->%Hpos & Ec & ->).
  apply Forall2_cons_inv_l in Ec as (o2 & ps2 & ->%Hpos & Ec & ->).
  apply Forall2_cons_inv_l in Ec as (o3 & ps3 & ->%Hpos & ->%Forall2_nil_inv_l & ->).
  unfold histories. cbn [forallb mbind result_bind].
  rewrite bool_decide_eq_true_2 by done. cbn [andb].
  destruct (read _ EPOCH); cbn; [|done]. intros [= <-].
  split; [done|]. intros d. cbn [node engines node_copies new kept holds]. by destruct d.
Qed.
End log.

(** ** What a standby holds is what its primary held *)

Section past.
Context `{Secret} {HD : Handing} {E : Type} `{EngineOk E}.
Variables (keys_ : KeyStore) (kek : KekName).
Notation steps := (rtc (step (E := E) keys_ kek)).

(** On the way from [l0] to [l], the primary's database [d] was at [next]
    and held [m]. *)
Definition was_primary (l0 l : Link E) (d : Database) (next : N) (m : gmap bytes bytes) : Prop :=
  ∃ l', steps l0 l' ∧ steps l' l ∧ next_of (primary l') d = next ∧ holds (primary l') d = m.

Lemma was_primary_step l0 l l' d x m :
  was_primary l0 l d x m → step keys_ kek l l' → was_primary l0 l' d x m.
Proof. intros (l1 & H2 & H3 & H4) Hs. exists l1. split; [done|]. split; [by eapply rtc_r|done]. Qed.

(** Each state the log leads to from what the standby holds, from where the
    primary began, is one the primary was in. *)
Definition from_past (l0 l : Link E) (d : Database) (log : list (list Change)) : Prop :=
  ∀ i, i ≤ length log → (next_of (primary l0) d ≤ next_after d (node (standby l)) i)%N →
  was_primary l0 l d (next_after d (node (standby l)) i)
    (changed (holds (node (standby l)) d) (concat (firstn i log))).

Definition follows_past (l0 l : Link E) : Prop := ∀ d, ∃ log,
  tracks d l log ∧ from_past l0 l d log ∧
  (next_of (node (standby l0)) d ≤ next_of (node (standby l)) d)%N.

Lemma from_past_step l0 l l' d log :
  from_past l0 l d log → step keys_ kek l l' →
  next_of (node (standby l')) d = next_of (node (standby l)) d →
  holds (node (standby l')) d = holds (node (standby l)) d →
  from_past l0 l' d log.
Proof.
  intros Hp Hs En Eh i Hi Hle. unfold next_after in *. rewrite En, Eh in *.
  eapply was_primary_step; [|done]. by apply Hp.
Qed.

Lemma from_past_write l0 l l' d log more :
  from_past l0 l d log → steps l0 l' → step keys_ kek l l' → length more ≤ 1 →
  standby l' = standby l → tracks d l' (log ++ more) → from_past l0 l' d (log ++ more).
Proof.
  intros Hp Hr Hs Hm Es [[Hn _ Hh] _ _ _ _] i Hi Hle. rewrite Es in *.
  destruct (decide (i ≤ length log)).
  - rewrite take_app_le by done. eapply was_primary_step; [|done]. by apply Hp.
  - assert (i = length (log ++ more)) as -> by (rewrite length_app in *; lia).
    exists l'. split; [done|]. split; [done|]. rewrite firstn_all. done.
Qed.

Lemma from_past_taken l0 l l' d before after :
  from_past l0 l d (before ++ after) → step keys_ kek l l' →
  next_of (node (standby l')) d = next_after d (node (standby l)) (length before) →
  holds (node (standby l')) d = changed (holds (node (standby l)) d) (concat before) →
  from_past l0 l' d after.
Proof.
  intros Hp Hs En Eh i Hi Hle.
  assert (next_after d (node (standby l')) i = next_after d (node (standby l)) (length before + i)) as Ex.
  { unfold next_after in *. rewrite En. lia. }
  rewrite Ex in *. rewrite Eh, <- changed_app, <- concat_app.
  replace (before ++ firstn i after) with (firstn (length before + i) (before ++ after))
    by by rewrite take_app_add'.
  eapply was_primary_step; [|done]. apply Hp; [rewrite length_app; lia|done].
Qed.

Lemma follows_past_as_it_was l0 l l' s :
  follows_past l0 l → as_it_was (standby l) s → standby l' = s →
  (∀ d log, tracks d (with_standby l s) log → tracks d l' log) →
  step keys_ kek l l' → follows_past l0 l'.
Proof.
  intros Hf Ha Es Ht Hs d. destruct (Hf d) as (log & Htr & Hp & Hge). exists log.
  destruct Ha as [Hh Hd]. destruct (Hd d) as (Ex & Eh & _).
  assert (next_of (node s) d = next_of (node (standby l)) d) as En by (unfold next_of; by rewrite Ex).
  rewrite Es, En. split; [by apply Ht, tracks_as_it_was|]. split; [|done].
  apply (from_past_step l0 l); by rewrite ?Es.
Qed.

Lemma as_it_was_refl (s : Following E) : as_it_was s s.
Proof. by split. Qed.

Lemma tracks_beat d (l : Link E) log next_ e :
  tracks d l log → shipper l = Some next_ →
  tracks d (with_way l (Some next_) (way l ++ [Beat e])) log.
Proof.
  intros [Hb Hk Hw [Ha Hb' Hc Hn] Hp] Hs.
  assert (copies_of d (way l ++ [Beat e]) = copies_of d (way l)) as Ecp.
  { rewrite copies_of_app. cbn. apply app_nil_r. }
  split; [done..| |done]. split; cbn [way shipper with_way standby]; [|by rewrite Ecp| |done].
  - apply Forall_app. by split; [|constructor].
  - intros nx [= <-]. rewrite Ecp. by apply Hc.
Qed.

Lemma tracks_beat_taken d (l : Link E) log e rest :
  tracks d l log → way l = Beat e :: rest → tracks d (with_way l (shipper l) rest) log.
Proof.
  intros [Hb Hk Hw [Ha Hb' Hc Hn] Hp] Ew. rewrite Ew in Ha, Hb', Hc, Hn.
  apply Forall_cons in Ha as [_ Ha].
  split; [done..| |done]. split; cbn [way shipper with_way standby]; [done|done|done|by intros ?%Hn].
Qed.

Lemma beat_taken_as_it_was e (s s' : Following E) r :
  frame_taken keys_ kek (Beat e) s = (s', r) → as_it_was s s'.
Proof.
  intros Ht. cbn [frame_taken] in Ht.
  assert (kept_by (as_it_was s) (bind (update (λ s, heard s e)) (λ _, synced))) as Hk.
  { apply kept_bind; [|intros _; apply synced_as_it_was].
    apply kept_update. intros s1 ?. by apply heard_as_it_was. }
  specialize (Hk s (as_it_was_refl s)). unfold bind in *. by rewrite Ht in Hk.
Qed.

Lemma copy_taken d number changes (s s' : Following E) r :
  frame_taken keys_ kek (CopyOf d number changes) s = (s', r) →
  match node_copied (node s) d number changes with
  | Ok n => r = Ok tt ∧ s' = with_dirty (with_node s n) (put_at d true (dirty s))
  | Err e => r = Err e ∧ s' = s
  end.
Proof.
  cbn [frame_taken]. unfold bind at 1, ask. destruct (node_copied _ _ _ _) as [n|]; [|by intros [= <- <-]].
  unfold bind, update, set_dirty, update, heard. cbn [epoch with_dirty with_node].
  destruct (N.ltb_spec (uval (epoch s)) (uval (@wrap 8 0))) as [Hlt|]; [|by intros [= <- <-]].
  rewrite uval_wrap_small in Hlt by (by vm_compute). lia.
Qed.

Lemma step_follows_past l0 l l' :
  follows_past l0 l → steps l0 l → step keys_ kek l l' → follows_past l0 l'.
Proof.
  intros Hf Hr Hs. pose proof Hs as Hstep.
  destruct Hs as [d0 w n Hroom Hw|d0 nx frames nx' Hsh Hh|nx Hsh|f rest s Ew Ht|f rest s error Ew Ht
    |s r Hsy| |nx Hsh Ha|s Hro].
  - intros d. destruct (Hf d) as (log & Htr & Hp & Hge).
    destruct (tracks_write d l log d0 w n Htr Hroom Hw) as (more & Hm & Htr').
    exists (log ++ more). split; [done|]. split; [|done].
    eapply from_past_write; [done|by eapply rtc_r|done..].
  - intros d. destruct (Hf d) as (log & Htr & Hp & Hge). exists log. split; [by eapply tracks_hand_on|].
    split; [by eapply from_past_step|done].
  - intros d. destruct (Hf d) as (log & Htr & Hp & Hge). exists log. split; [by apply tracks_beat|].
    split; [by eapply from_past_step|done].
  - assert (handed_on f) as Hhf.
    { destruct (Hf Runtime) as (log & [_ _ _ [Ha _ _ _] _] & _). rewrite Ew in Ha.
      by apply Forall_cons in Ha as [? _]. }
    destruct f as [e|d0 number changes| | | |]; try done.
    + pose proof (beat_taken_as_it_was _ _ _ _ Ht) as Has.
      eapply follows_past_as_it_was; [done|exact Has|done| |done].
      intros d log Htr. by apply (tracks_beat_taken d (with_standby l s) log e rest).
    + apply copy_taken in Ht. destruct (node_copied _ _ _ _) as [n|] eqn:En; [|by destruct Ht].
      destruct Ht as [_ ->]. intros d. destruct (Hf d) as (log & Htr & Hp & Hge).
      destruct (tracks_copied d l log d0 number changes rest n Htr Ew En)
        as (before & after & -> & Hb & Hn & Hh & Htr').
      exists after. split; [|split; [by eapply from_past_taken|]].
      2: { cbn [node with_dirty with_node standby with_standby]. rewrite Hn. unfold next_after. lia. }
      refine (tracks_as_it_was d _ (with_dirty _ _) _ Htr' _). by split.
  - assert (as_it_was (standby l) s) as Has.
    { assert (handed_on f) as Hhf.
      { destruct (Hf Runtime) as (log & [_ _ _ [Ha _ _ _] _] & _). rewrite Ew in Ha.
        by apply Forall_cons in Ha as [? _]. }
      destruct f as [e|d0 number changes| | | |]; try done; [by eapply beat_taken_as_it_was|].
      apply copy_taken in Ht. destruct (node_copied _ _ _ _); destruct Ht as [? Es]; [done|].
      rewrite Es. apply as_it_was_refl. }
    eapply follows_past_as_it_was; [done|exact Has|done| |done]. intros d log. apply tracks_cut.
  - assert (as_it_was (standby l) s) as Has.
    { pose proof (synced_as_it_was (standby l) (standby l) (as_it_was_refl _)) as Hk.
      by rewrite Hsy in Hk. }
    by eapply follows_past_as_it_was.
  - intros d. destruct (Hf d) as (log & Htr & Hp & Hge). exists log. split; [by apply tracks_cut|].
    split; [by eapply from_past_step|done].
  - intros d. destruct (Hf d) as (log & Htr & Hp & Hge). exists log. split; [by eapply tracks_ask|].
    split; [by eapply from_past_step|done].
  - assert (as_it_was (standby l) s) as Has.
    { apply reopened_as_it_was; [|done]. intros d. by destruct (Hf d) as (? & [_ _ _ _ ?] & _). }
    eapply follows_past_as_it_was; [done|exact Has|done| |done]. intros d log. apply tracks_cut.
Qed.

Lemma steps_follow_past l0 l :
  (∀ d, ∃ log, tracks d l0 log) → steps l0 l → follows_past l0 l.
Proof.
  intros H0' Hr. assert (follows_past l0 l0) as Hstart.
  { intros d. destruct (H0' d) as (log & Htr). exists log. split; [done|]. split; [|done].
    destruct Htr as [[Hn _ Hh] _ _ _ _]. intros i Hi Hle.
    assert (i = length log) as -> by (unfold next_after in *; lia).
    exists l0. split; [done|]. split; [done|]. by rewrite firstn_all. }
  revert l Hr. apply rtc_ind_r; [done|]. intros l l' Hr Hs Hf. by eapply step_follows_past.
Qed.

(** What a standby that follows holds, of each database: no more writes than
    its primary has, the same where as many, and where at least as many as
    the primary had when it began, what the primary then held. *)
Definition holds_past (l0 l : Link E) : Prop := ∀ d,
  (next_of (node (standby l0)) d ≤ next_of (node (standby l)) d ≤ next_of (primary l) d)%N ∧
  ((next_of (primary l0) d ≤ next_of (node (standby l)) d)%N →
    was_primary l0 l d (next_of (node (standby l)) d) (holds (node (standby l)) d)) ∧
  (next_of (node (standby l)) d = next_of (primary l) d →
    holds (node (standby l)) d = holds (primary l) d).

Lemma follows_holds_past l0 l : follows_past l0 l → holds_past l0 l.
Proof.
  intros Hf d. destruct (Hf d) as (log & [[Hn _ Hh] _ _ _ _] & Hp & Hge). unfold next_after in Hn.
  split; [lia|]. split.
  - intros Hle. specialize (Hp 0 ltac:(lia)). unfold next_after in Hp.
    rewrite N.add_0_r in Hp. by apply Hp.
  - intros Ee. assert (log = []) as -> by (destruct log; [done|cbn in Hn; lia]). done.
Qed.
End past.

(** A standby that holds what its primary does, and no connection between. *)
Record alike `{Secret} {HD : Handing} {E} `{EngineOk E} (l : Link E) : Prop := {
  al_wf d : kept_wf (at_db (kept (node_copies (primary l))) d);
  al_next d : next_of (node (standby l)) d = next_of (primary l) d;
  al_holds d : holds (node (standby l)) d = holds (primary l) d;
  al_placed d : placed_at d (standby l);
  al_shipper : shipper l = None;
  al_way : way l = [];
}.

Lemma alike_tracks `{Secret} {HD : Handing} {E} `{EngineOk E} (l : Link E) :
  alike l → ∀ d, ∃ log, tracks d l log.
Proof.
  intros [Hw Hn Hh Hp Hs Hy] d. exists []. split; [|..|by apply Hp].
  - split; [unfold next_after; rewrite Hn; cbn; lia|done|by rewrite Hh].
  - intros w [i Hi]%list_elem_of_lookup Hle. destruct (Hw d) as [_ Hnum _].
    pose proof (Hnum i w Hi) as Ex. apply lookup_lt_Some in Hi.
    rewrite Hn in Hle. unfold next_of in Hle. destruct (Hw d). lia.
  - done.
  - split; rewrite ?Hy; [constructor|done|by rewrite Hs|done].
Qed.

Module LinkTheorems.
Section theorems.
Context `{Secret} {HD : Handing} {E : Type} `{EngineOk E}.

(** C4. A standby holds what its primary held. From a primary and a
    standby alike, whatever the two do - the primary's writes between any of
    its sends, frames taken late, refused or lost with the connection, a
    connection asked for anew, a standby started again over its databases -
    each database of the standby holds exactly what the primary's held at the
    number the standby has come to, and the same as the primary where that is
    the primary's own. *)
Theorem standby_holds_its_primarys_past (keys_ : KeyStore) (kek : KekName) (l0 l : Link E) :
  alike l0 → rtc (step keys_ kek) l0 l →
  ∀ d, was_primary keys_ kek l0 l d (next_of (node (standby l)) d) (holds (node (standby l)) d) ∧
    (next_of (node (standby l)) d = next_of (primary l) d →
      holds (node (standby l)) d = holds (primary l) d).
Proof.
  intros Ha Hr d.
  destruct (follows_holds_past keys_ kek l0 l
    (steps_follow_past keys_ kek l0 l (alike_tracks l0 Ha) Hr) d) as ([Hge _] & Hp & He).
  split; [|done]. apply Hp. by rewrite <- (al_next _ Ha).
Qed.
End theorems.

(** Two writes of the primary, the first of them handed on and taken. *)
#[local] Existing Instances Glass.secret Glass.secret_ok FollowTheorems.glass_handing.
Definition example_primary : Node Memory.Memory :=
  NodeOf (all_of {| Memory.records := ∅ |}) (new (wrap 9) (all_of (wrap 1)) 100).
Definition placed_memory : Memory.Memory :=
  {| Memory.records := <[POSITION := be (@wrap 16 9) ++ be (@wrap 8 1)]> ∅ |}.
Definition example_follower : Following Memory.Memory :=
  {| node := NodeOf (all_of placed_memory) (new (wrap 9) (all_of (wrap 1)) 100);
     epoch := wrap 2; dirty := all_of false; whole := None; randomness := λ i, i |}.
Definition example_link : Link Memory.Memory :=
  {| primary := example_primary; in_epoch := wrap 2; shipper := None; way := []; standby := example_follower |}.

Definition wrote_one (n : Node Memory.Memory) (k v : bytes) : Node Memory.Memory :=
  match node_write n (Runtime, Put k v) with Ok n => n | Err _ => n end.
Definition example_once : Node Memory.Memory := wrote_one example_primary [x01] [x0a].
Definition example_twice : Node Memory.Memory := wrote_one example_once [x01] [x0b].
Definition example_copy : Shipped := CopyOf Runtime (wrap 1) [([x01], Some [x0a])].
Definition example_taken : Following Memory.Memory := (frame_taken tt tt example_copy example_follower).1.
Definition example_end : Link Memory.Memory :=
  {| primary := example_twice; in_epoch := wrap 2;
     shipper := Some (Each (wrap 2) (wrap 1) (wrap 1)); way := []; standby := example_taken |}.

Lemma example_takes : frame_taken tt tt example_copy example_follower = (example_taken, Ok tt).
Proof.
  assert ((frame_taken tt tt example_copy example_follower).2 = Ok tt) as <- by (vm_compute; reflexivity).
  unfold example_taken. apply surjective_pairing.
Qed.

Lemma example_steps : rtc (step (H := Glass.secret) tt tt) example_link example_end.
Proof.
  eapply rtc_l.
  { apply (step_ask (H := Glass.secret) tt tt example_link (all_of (wrap 1))); vm_compute; reflexivity. }
  eapply rtc_l.
  { apply (step_write (H := Glass.secret) tt tt _ Runtime (Put [x01] [x0a]) example_once); vm_compute; reflexivity. }
  eapply rtc_l.
  { apply (step_hand_on (H := Glass.secret) tt tt _ Runtime (all_of (wrap 1)) [example_copy] (Each (wrap 2) (wrap 1) (wrap 1)));
      vm_compute; reflexivity. }
  eapply rtc_l.
  { apply (step_write (H := Glass.secret) tt tt _ Runtime (Put [x01] [x0b]) example_twice); vm_compute; reflexivity. }
  eapply rtc_l.
  { apply (step_take (H := Glass.secret) tt tt _ example_copy [] example_taken); [reflexivity|exact example_takes]. }
  apply rtc_refl.
Qed.

Lemma standby_holds_its_primarys_past_witness :
  (alike example_link ∧ rtc (step (H := Glass.secret) tt tt) example_link example_end) ∧
  ∀ d, was_primary (H := Glass.secret) tt tt example_link example_end d (next_of (node (standby example_end)) d)
      (holds (node (standby example_end)) d) ∧
    (next_of (node (standby example_end)) d = next_of (primary example_end) d →
      holds (node (standby example_end)) d = holds (primary example_end) d).
Proof.
  assert (alike example_link) as Ha.
  { split; try reflexivity; intros []; try reflexivity; try apply keeping_nothing_wf. }
  split; [split; [exact Ha|exact example_steps]|].
  apply (standby_holds_its_primarys_past (H := Glass.secret) tt tt example_link example_end Ha example_steps).
Defined.
End LinkTheorems.
