(* ===== verification/Whole.v ===== *)
(** * A standby copied whole while its primary goes on writing
    (src/.src/storage/standby/ship.rs, follow.rs)

    [copying] is what a primary does while it copies itself whole: a page of a
    database at a time, with its writes between any two steps. What the
    standby holds once it took the frames is no state its primary was in; what
    is proved is that the copies that follow bring it there ([whole_copy_converges],
    over [Link]), that the wipe before ends ([wipe_ends]), and that until
    then the standby may be promoted with part of a write ([torn_when_copied]). *)

From S2P Require Import Prelude Word Encrypted Engine Copies Shipped Follow Link.

Section whole_copy.
Context `{Secret} {HD : Handing} {E : Type} `{EngineOk E}.

(** Every key a node's databases hold is before [LAST]. *)
Definition node_before_last (n : Node E) : Prop :=
  ∀ d, before_last (contents (at_db (engines n) d)).

(** What a primary does while it copies itself whole: its steps, and its
    writes between them; the frames it has handed on. *)
Inductive copying : Node E → Shipper → list Shipped → Node E → Shipper → Prop :=
  | copying_begun n sh : copying n sh [] n sh
  | copying_write n sh frames n1 sh1 d w n2 :
      copying n sh frames n1 sh1 →
      room (at_db (kept (node_copies n1)) d) →
      node_write n1 (d, w) = Ok n2 →
      node_before_last n2 →
      copying n sh frames n2 sh1
  | copying_step n sh frames n1 sh1 more sh2 :
      copying n sh frames n1 sh1 →
      whole_step n1 sh1 = Ok (more, sh2) →
      copying n sh (frames ++ more) n1 sh2.

(** ** What is overlaid by the copies that follow *)

Lemma lookup_changed_ext {V} (m m' : gmap bytes V) batch k :
  m !! k = m' !! k → changed m batch !! k = changed m' batch !! k.
Proof.
  revert m m'; induction batch as [|c batch IH]; intros m m' Hm; [done|].
  change (changed (change m c) batch !! k = changed (change m' c) batch !! k).
  apply IH. rewrite !lookup_change. by case_decide.
Qed.

(** Changes made over what they end at change nothing. *)
Lemma lookup_changed_over {V} (m m' : gmap bytes V) batch k :
  m !! k = changed m' batch !! k → changed m batch !! k = changed m' batch !! k.
Proof.
  assert (∀ (m m' : gmap bytes V), changed m batch !! k = changed m' batch !! k ∨
    (changed m batch !! k = m !! k ∧ changed m' batch !! k = m' !! k)) as Hb.
  { clear m m'. induction batch as [|c batch IH]; intros m m'; [by right|].
    change (changed (change m c) batch !! k = changed (change m' c) batch !! k ∨
      (changed (change m c) batch !! k = m !! k ∧ changed (change m' c) batch !! k = m' !! k)).
    destruct (IH (change m c) (change m' c)) as [->|[E1 E2]]; [by left|].
    rewrite E1, E2, !lookup_change. case_decide; [by left|by right]. }
  destruct (Hb m m') as [->|[-> Em]]; congruence.
Qed.

(** What a standby holds of a database copied so far: over the keys the copy
    has [reached], the changes kept since the copy of it began make it what
    the primary holds; beyond, it holds nothing yet. *)
Record overlaid (d : Database) (start : N) (n : Node E) (held : gmap bytes bytes)
    (reached : bytes → bool) (log : list (list Change)) : Prop := {
  ov_next : next_of n d = (start + N.of_nat (length log))%N;
  ov_own : Forall (λ changes, kept_of changes = changes) log;
  ov_kept w : w ∈ writes (at_db (kept (node_copies n)) d) → (start ≤ uval w.1)%N →
    ∃ i, uval w.1 = (start + N.of_nat i)%N ∧ log !! i = Some w.2;
  ov_base : ∃ m, holds n d = changed m (concat log);
  ov_reached k : reached k = true → changed held (concat log) !! k = holds n d !! k;
  ov_beyond k : reached k = false → held !! k = None;
}.

Lemma overlaid_write d start n held reached log d0 w n' :
  overlaid d start n held reached log →
  kept_wf (at_db (kept (node_copies n)) d) → room (at_db (kept (node_copies n)) d0) →
  node_write n (d0, w) = Ok n' →
  ∃ more, overlaid d start n' held reached (log ++ more).
Proof.
  intros [Hn Ho Hk [m Hm] Hr Hb] Hw Hroom Hwr.
  apply node_write_spec in Hwr as (_ & _ & Hoth & copied & Hcc & Hh & Ek).
  assert (holds n' d = holds n d ∧
      at_db (kept (node_copies n')) d = at_db (kept (node_copies n)) d ∨
    d0 = d ∧ copied ≠ []) as [[Eh Ed]|[-> Hne]].
  { destruct (decide (d0 = d)) as [->|Hd]; [|left; by apply Hoth].
    destruct copied; [left; by rewrite Hh, Ek|by right]. }
  { exists []. rewrite app_nil_r. split; [unfold next_of; by rewrite Ed|done| | | |done].
    - by rewrite Ed.
    - exists m. by rewrite Eh.
    - intros k. rewrite Eh. apply Hr. }
  destruct copied as [|c copied]; [done|].
  destruct (keep_spec _ (c :: copied) (most_kept (node_copies n)) Hw Hroom)
    as (_ & _ & En & old & Eo).
  rewrite <- Ek in En, Eo. exists [c :: copied].
  assert (concat (log ++ [c :: copied]) = concat log ++ (c :: copied)) as Ec.
  { rewrite concat_app. cbn. by rewrite app_nil_r. }
  split.
  - unfold next_of at 1. rewrite En. unfold next_of in Hn at 1. rewrite Hn, length_app. cbn. lia.
  - apply Forall_app. by split; [|constructor].
  - intros x Hx Hle.
    assert (x ∈ writes (at_db (kept (node_copies n)) d) ++
      [(next (at_db (kept (node_copies n)) d), c :: copied)]) as Hin.
    { rewrite Eo. apply elem_of_app. by right. }
    apply elem_of_app in Hin as [Hin|Hin].
    + destruct (Hk x Hin Hle) as (i & Ei & Hi). exists i. split; [done|]. by apply lookup_app_l_Some.
    + apply list_elem_of_singleton in Hin as ->. exists (length log). cbn. split; [done|].
      by rewrite lookup_app_r, Nat.sub_diag by lia.
  - exists m. by rewrite Hh, Hm, Ec, changed_app.
  - intros k Hk'. rewrite Ec, changed_app, Hh. apply lookup_changed_ext. by apply Hr.
  - done.
Qed.

(** The copy of a database begins. *)
Lemma overlaid_begin d n :
  kept_wf (at_db (kept (node_copies n)) d) →
  overlaid d (next_of n d) n ∅ (λ _, false) [].
Proof.
  intros [Hf Hn _]. split; [cbn; lia|done| | |done|done].
  - intros w [i Hi]%list_elem_of_lookup Hle. pose proof (Hn i w Hi) as Ex.
    apply lookup_lt_Some in Hi. unfold next_of in Hle. lia.
  - exists (holds n d). done.
Qed.

(** A page taken: what it carries is what is held there. *)
Lemma overlaid_page d start n held first last reached' log page held' :
  overlaid d start n held (λ k, negb (ble first k)) log →
  (∀ k v, (k, v) ∈ page → ble first k = true ∧ ble k last = true ∧
    contents (at_db (engines n) d) !! k = Some v) →
  (∀ k v, ble first k = true → ble k last = true →
    contents (at_db (engines n) d) !! k = Some v → (k, v) ∈ page) →
  (∀ k, reached' k = ble k last) → ble first last = true →
  (∀ k, held' !! k = if decide (k ∈ (filter (λ kv : Entry, own kv.1 = false) page).*1)
    then holds n d !! k else held !! k) →
  overlaid d start n held' reached' log.
Proof.
  intros [Hn Ho Hk Hm Hr Hb] Hpage Hall Hre Hle Hh.
  split; [done..| |].
  - intros k Hk'. rewrite Hre in Hk'. destruct (ble first k) eqn:Ef.
    + destruct Hm as [m Em].
      assert (held' !! k = holds n d !! k) as Ex.
      { rewrite Hh. case_decide as Hin; [done|]. rewrite Hb by by rewrite Ef.
        unfold holds. rewrite lookup_public. destruct (own k) eqn:Eo; [done|].
        destruct (contents (at_db (engines n) d) !! k) as [v|] eqn:Ev; [|done].
        contradict Hin. apply list_elem_of_fmap. exists (k, v). split; [done|].
        apply list_elem_of_filter. split; [done|]. by apply Hall. }
      rewrite Em in Ex |- *. by apply lookup_changed_over.
    + rewrite <- Hr by by rewrite Ef. apply lookup_changed_ext. rewrite Hh, decide_False; [done|].
      intros ([k' v] & -> & [_ Hin]%list_elem_of_filter)%list_elem_of_fmap.
      apply Hpage in Hin as [? _]. cbn in Ef. congruence.
  - intros k Hk'. rewrite Hre in Hk'. rewrite Hh, decide_False.
    + apply Hb. destruct (ble first k) eqn:Ef; [done|]. exfalso.
      assert (ble k first = true) as Hkf by (destruct (bytes_le_total first k) as [Hx|Hx]; [unfold bytes_le in Hx; congruence|done]).
      pose proof (bytes_le_trans k first last Hkf Hle) as Hx. unfold bytes_le in Hx. congruence.
    + intros ([k' v] & -> & [_ Hin]%list_elem_of_filter)%list_elem_of_fmap.
      apply Hpage in Hin as (_ & ? & _). cbn in Hk'. congruence.
Qed.

(** The last page found nothing: all is reached. *)
Lemma overlaid_end d start n held first log :
  overlaid d start n held (λ k, negb (ble first k)) log →
  (∀ k, ble first k = true → contents (at_db (engines n) d) !! k = None) →
  overlaid d start n held (λ _, true) log.
Proof.
  intros [Hn Ho Hk Hm Hr Hb] Hnone. split; [done..| |done].
  intros k _. destruct (ble first k) eqn:Ef; [|apply Hr; by rewrite Ef].
  destruct Hm as [m Em]. rewrite Em. apply lookup_changed_over. rewrite <- Em.
  rewrite Hb by by rewrite Ef. unfold holds. rewrite lookup_public, Hnone by done. by case_match.
Qed.

(** ** A page of a database *)

Lemma StronglySorted_app_inv {A} (R : relation A) l k :
  StronglySorted R (l ++ k) → ∀ x y, x ∈ l → y ∈ k → R x y.
Proof.
  induction l as [|a l IH]; intros Hs x y Hx Hy; [by apply elem_of_nil in Hx|].
  apply StronglySorted_inv in Hs as [Hs Ha]. apply elem_of_cons in Hx as [->|Hx]; [|by eapply IH].
  rewrite Forall_forall in Ha. apply Ha. apply elem_of_app. by right.
Qed.

Lemma page_spec (m : gmap bytes bytes) first most page at_last v :
  ranged m first LAST most false = page → last page = Some (at_last, v) →
  (∀ k w, (k, w) ∈ page → ble first k = true ∧ ble k at_last = true ∧ m !! k = Some w) ∧
  (∀ k w, ble first k = true → ble k at_last = true → m !! k = Some w → (k, w) ∈ page) ∧
  ble first at_last = true.
Proof.
  intros Ep El. apply last_Some in El as [page' Epage].
  unfold ranged in Ep. destruct (ble first LAST); [|by rewrite <- Ep in Epage; destruct page'].
  destruct (up_to_prefix most (range m first LAST)) as [rest Er]. rewrite Ep in Er.
  pose proof (range_sorted m first LAST) as Hs. pose proof (range_NoDup m first LAST) as Hnd.
  rewrite Er in Hs, Hnd. rewrite fmap_app in Hs, Hnd.
  assert (∀ e, e ∈ page → e ∈ range m first LAST) as Hin.
  { intros e He. rewrite Er. apply elem_of_app. by left. }
  assert ((at_last, v) ∈ page) as Hlast by (rewrite Epage; apply elem_of_app; right; left).
  assert (ble first at_last = true ∧ bytes_le at_last LAST) as [Hfl Hll].
  { apply Hin, elem_of_range in Hlast as [Hw _]. by apply within_spec in Hw. }
  split; [|split; [|done]].
  - intros k w Hk. pose proof (Hin _ Hk) as [Hw Hm]%elem_of_range. apply within_spec in Hw as [Hf _].
    split; [done|]. split; [|done]. rewrite Epage in Hk. apply elem_of_app in Hk as [Hk|Hk].
    + rewrite Epage, fmap_app in Hs. rewrite <- app_assoc in Hs.
      eapply (StronglySorted_app_inv _ _ _ Hs k at_last); [by apply (list_elem_of_fmap_2 fst) in Hk|].
      cbn. left.
    + apply list_elem_of_singleton in Hk as [= -> _]. apply bytes_le_refl.
  - intros k w Hf Hkl Hm.
    assert ((k, w) ∈ range m first LAST) as Hk.
    { apply elem_of_range. split; [|done]. apply within_spec. split; [done|].
      by eapply bytes_le_trans. }
    rewrite Er in Hk. apply elem_of_app in Hk as [|Hk]; [done|]. exfalso.
    apply (list_elem_of_fmap_2 fst) in Hk. apply (list_elem_of_fmap_2 fst) in Hlast.
    pose proof (StronglySorted_app_inv _ _ _ Hs at_last k Hlast Hk) as Hlk.
    assert (k = at_last) as -> by by apply (anti_symm bytes_le).
    apply NoDup_app in Hnd as (_ & Hd & _). by eapply Hd.
Qed.

(** Nothing from a key on where a page found nothing. *)
Lemma page_none (m : gmap bytes bytes) first most :
  (0 < most)%N → before_last m → ranged m first LAST most false = [] →
  ∀ k, ble first k = true → m !! k = None.
Proof.
  intros Hmost Hl Hp k Hf. destruct (m !! k) as [v|] eqn:Ev; [exfalso|done].
  assert (bytes_le k LAST) as Hk by by apply Hl.
  unfold ranged in Hp. rewrite (bytes_le_trans _ _ _ Hf Hk) in Hp.
  apply (f_equal length) in Hp. rewrite length_up_to in Hp. cbn in Hp.
  assert ((k, v) ∈ range m first LAST) as Hin.
  { apply elem_of_range. split; [|done]. by apply within_spec. }
  apply list_elem_of_lookup in Hin as [i Hi]. apply lookup_lt_Some in Hi. lia.
Qed.

Lemma ble_after last k : ble (last ++ [x00]) k = negb (ble k last).
Proof.
  revert k; induction last as [|a last IH]; intros [|b k]; try done.
  - by destruct b.
  - cbn. destruct (N.ltb_spec (Byte.to_N a) (Byte.to_N b)), (N.ltb_spec (Byte.to_N b) (Byte.to_N a));
      try done; try lia.
Qed.

(** What a page of entries does to what a standby holds. *)
Lemma lookup_entries (m : gmap bytes bytes) (m' : gmap bytes bytes) (es : list Entry) k :
  (∀ k v, (k, v) ∈ es → m' !! k = Some v) →
  changed m (entries_of es) !! k =
    if decide (k ∈ (filter (λ kv : Entry, own kv.1 = false) es).*1) then m' !! k else m !! k.
Proof.
  unfold entries_of. intros Hes.
  assert (∀ k v, (k, v) ∈ filter (λ kv : Entry, own kv.1 = false) es → m' !! k = Some v) as Hes'.
  { intros k' v [_ Hin]%list_elem_of_filter. by apply Hes. }
  revert m Hes'. clear Hes. generalize (filter (λ kv : Entry, own kv.1 = false) es).
  clear es. intros es. induction es as [|[j v] es IH]; intros m Hes.
  { by rewrite decide_False by by intros ?%elem_of_nil. }
  change (changed (change m (j, Some v)) ((λ kv : Entry, (kv.1, Some kv.2)) <$> es) !! k =
    if decide (k ∈ j :: es.*1) then m' !! k else m !! k).
  rewrite IH by (intros; apply Hes; by right). rewrite lookup_change. cbn [fst snd].
  destruct (decide (k ∈ es.*1)); [by rewrite decide_True by by right|].
  destruct (decide (j = k)) as [->|].
  - rewrite decide_True by by left. symmetry. apply Hes. left.
  - rewrite decide_False; [done|]. by intros [->|?]%elem_of_cons.
Qed.
End whole_copy.

(** ** What the standby does with the frames *)

Section taking.
Context `{Secret} {HD : Handing} {E : Type} `{EngineOk E}.
Implicit Types (s : Following E).

Lemma bind_ok {A B} (m : act A) (f : A → act B) s s' b :
  bind m f s = (s', Ok b) → ∃ s1 a, m s = (s1, Ok a) ∧ f a s1 = (s', Ok b).
Proof. unfold bind. destruct (m s) as [s1 [a|]]; [eauto|done]. Qed.

Lemma on_ok d (f : E → result E) s s' u :
  on d f s = (s', Ok u) →
  ∃ e, f (at_db (engines (node s)) d) = Ok e ∧ s' = with_node s (put_engine (node s) d e).
Proof. unfold on. destruct (f _) as [e|]; intros [= <-]; eauto. Qed.

Lemma in_turn_app {A} (f : A → act unit) l k s s' u :
  in_turn f (l ++ k) s = (s', Ok u) →
  ∃ s1, in_turn f l s = (s1, Ok tt) ∧ in_turn f k s1 = (s', Ok u).
Proof.
  revert s; induction l as [|a l IH]; intros s; [by exists s|].
  cbn [app in_turn]. intros (s1 & [] & Ha & Hl)%bind_ok.
  destruct (IH s1 Hl) as (s2 & H2 & H3). exists s2. split; [|done].
  unfold bind. by rewrite Ha.
Qed.

(** Two standbys that differ in a database's own keys alone. *)
Definition engine_at (s : Following E) (d : Database) : gmap bytes bytes :=
  contents (at_db (engines (node s)) d).

Lemma engine_put s d e d' :
  engine_at (with_node s (put_engine (node s) d e)) d' =
    if decide (d = d') then contents e else engine_at s d'.
Proof. unfold engine_at. cbn [node with_node put_engine engines]. rewrite of_put. by case_decide. Qed.

Lemma copied_whole_spec w s s' u :
  copied_whole w s = (s', Ok u) →
  whole s' = whole s ∧ history (node_copies (node s')) = wh_history w ∧
  at_key COPYING None s' ∧
  ∀ d, at_db (kept (node_copies (node s'))) d = keeping_nothing (default (wrap 1) (at_db (wh_next w) d)) ∧
    holds (node s') d = holds (node s) d ∧ placed_at d s' ∧
    engine_at s' d !! DATA_KEY = engine_at s d !! DATA_KEY.
Proof.
  unfold copied_whole. set (nx := map_each _ _).
  intros (s3 & [] & Ht & (s4 & [] & (e4 & He4 & ->)%on_ok & Hu)%bind_ok)%bind_ok.
  cbn [in_turn DATABASES] in Ht.
  apply bind_ok in Ht as (s1 & [] & (e1 & He1 & ->)%on_ok & Ht).
  apply bind_ok in Ht as (s2 & [] & (e2 & He2 & ->)%on_ok & Ht).
  apply bind_ok in Ht as (s3' & [] & (e3 & He3 & ->)%on_ok & Ht). injection Ht as <-.
  unfold update in Hu. injection Hu as <- _.
  apply apply_spec in He1, He2, He3, He4.
  cbn [node with_node put_engine engines put_at at_db at_runtime at_administration at_audit] in He1, He2, He3, He4.
  rewrite He1 in He4.
  assert (∀ (m : gmap bytes bytes) h n, public (changed m [position h n]) = public m ∧
    changed m [position h n] !! POSITION = (position h n).2 ∧
    changed m [position h n] !! DATA_KEY = m !! DATA_KEY) as Hpos.
  { intros m h n. split; [|split].
    - pose proof (kept_of_position [] h n eq_refl) as Ek. cbn [app] in Ek.
      by rewrite public_changed, Ek.
    - apply (position_of_changed m []).
    - apply changed_untouched. by intros c ->%list_elem_of_singleton. }
  assert (∀ m : gmap bytes bytes, public (changed m [(COPYING, None)]) = public m ∧
    changed m [(COPYING, None)] !! POSITION = m !! POSITION ∧
    changed m [(COPYING, None)] !! DATA_KEY = m !! DATA_KEY) as Hcop.
  { intros m. split; [by apply public_change_own|].
    split; apply changed_untouched; by intros c ->%list_elem_of_singleton. }
  split; [done|]. split; [done|]. split.
  { unfold at_key. cbn [node with_node put_engine engines put_at at_db at_runtime]. rewrite He4.
    apply lookup_delete_eq. }
  intros d. split; [by destruct d|].
  unfold holds, placed_at, engine_at.
  cbn [node with_node put_engine engines node_copies restart kept history].
  rewrite of_map. cbn [keeping_nothing next].
  destruct d; cbn [put_at at_db at_runtime at_administration at_audit]; rewrite ?He4, ?He2, ?He3.
  - edestruct Hcop as (-> & -> & ->), Hpos as (-> & -> & ->). done.
  - edestruct Hpos as (-> & -> & ->). done.
  - edestruct Hpos as (-> & -> & ->). done.
Qed.

(** Which databases' copies a primary has ended, what of each is reached, and
    where the copies of each follow from. *)
Definition place_of (d : Database) : nat :=
  match d with Runtime => 0 | Administration => 1 | AuditDatabase => 2 end.

Definition ended (sh : Shipper) (d : Database) : bool :=
  match sh with
  | Begin d' _ | Paging d' _ _ => bool_decide (place_of d < place_of d')
  | Handing_on _ => true
  end.

Definition reaching (sh : Shipper) (d : Database) : option (bytes → bool) :=
  if ended sh d then Some (λ _, true)
  else match sh with
       | Paging d' first _ => if decide (d' = d) then Some (λ k, negb (ble first k)) else None
       | _ => None
       end.

Definition from_of (sh : Shipper) : each u64 :=
  match sh with Begin _ from | Paging _ _ from | Handing_on from => from end.

Definition copy_standing (h : u128) (sh : Shipper) s : Prop :=
  match sh with
  | Handing_on from =>
      history (node_copies (node s)) = h ∧ at_key COPYING None s ∧
      ∀ d, next (at_db (kept (node_copies (node s))) d) = at_db from d ∧ placed_at d s
  | _ =>
      ∃ w, whole s = Some w ∧ wh_history w = h ∧
        ∀ d, at_db (wh_next w) d = if ended sh d then Some (at_db (from_of sh) d) else None
  end.

Record copying_inv (h : u128) (keys_at : Database → option bytes) (n : Node E) (sh : Shipper) s
    : Prop := {
  ci_wf d : kept_wf (at_db (kept (node_copies n)) d);
  ci_last : node_before_last n;
  ci_overlaid d :
    match reaching sh d with
    | None => holds (node s) d = ∅
    | Some reached => ∃ log,
        overlaid d (uval (at_db (from_of sh) d)) n (holds (node s) d) reached log
    end;
  ci_standing : copy_standing h sh s;
  ci_keys d : engine_at s d !! DATA_KEY = keys_at d;
}.

Lemma copying_inv_write h ks n sh s d w n' :
  copying_inv h ks n sh s → room (at_db (kept (node_copies n)) d) →
  node_write n (d, w) = Ok n' → node_before_last n' → copying_inv h ks n' sh s.
Proof.
  intros [Hwf Hl Ho Hs Hk] Hr Hw Hl'. split; [|done| |done|done].
  - intros d'. pose proof (node_write_spec n d w n' Hw) as (_ & _ & Hoth & copied & _ & _ & Ek).
    destruct (decide (d' = d)) as [->|Hd].
    + rewrite Ek. destruct copied; [done|]. by apply keep_spec.
    + destruct (Hoth d' Hd) as [_ ->]. done.
  - intros d'. specialize (Ho d'). destruct (reaching sh d') as [reached|]; [|done].
    destruct Ho as [log Ho]. edestruct overlaid_write as [more Hm]; [done|apply Hwf|exact Hr|done|].
    by exists (log ++ more).
Qed.

Lemma copying_inv_begin h ks n d from s :
  copying_inv h ks n (Begin d from) s →
  copying_inv h ks n (Paging d [] (put_at d (at_db (nexts (node_copies n)) d) from)) s.
Proof.
  intros [Hwf Hl Ho Hs Hk]. split; [done|done| | |done].
  - intros d'. specialize (Ho d'). unfold reaching in *. cbn [ended from_of] in *.
    destruct (bool_decide_reflect (place_of d' < place_of d)) as [Hlt|].
    + rewrite of_put_ne; [done|]. intros ->. lia.
    + case_decide as Hd; [subst d'|done]. rewrite Ho, of_put_same. unfold nexts. rewrite of_map.
      exists []. apply (overlaid_begin d n). apply Hwf.
  - destruct Hs as (w & Hw & Hh & Hn). exists w. split; [done|]. split; [done|]. intros d'.
    rewrite Hn. cbn [ended from_of]. case_bool_decide; [|done]. rewrite of_put_ne; [done|].
    intros ->. lia.
Qed.

Lemma entries_of_own page c : c ∈ entries_of page → own c.1 = false.
Proof. by intros (kv & -> & [? _]%list_elem_of_filter)%list_elem_of_fmap. Qed.

Lemma entries_of_filter page :
  entries_of (filter (λ kv : Entry, own kv.1 = false) page) = entries_of page.
Proof. unfold entries_of. f_equal. apply filter_all. by intros x [? _]%list_elem_of_filter. Qed.

(** The standby takes a page. *)
Lemma entries_taken keys_ kek d page s s' u :
  frame_taken keys_ kek (Entries d (filter (λ kv : Entry, own kv.1 = false) page)) s = (s', Ok u) →
  whole s' = whole s ∧
  (∀ d', engine_at s' d' !! DATA_KEY = engine_at s d' !! DATA_KEY) ∧
  ∀ d', holds (node s') d' =
    if decide (d = d') then changed (holds (node s) d') (entries_of page) else holds (node s) d'.
Proof.
  cbn [frame_taken]. rewrite entries_of_filter.
  intros (s1 & [] & (e & He & ->)%on_ok & Hu)%bind_ok. injection Hu as <- _.
  apply apply_deferred_spec in He. split; [done|]. split.
  - intros d'. change (engine_at (with_node s (put_engine (node s) d e)) d' !! DATA_KEY = engine_at s d' !! DATA_KEY).
    rewrite engine_put. case_decide; [subst d'|done]. rewrite He.
    apply changed_untouched. intros c Hc%entries_of_own Ec. rewrite Ec in Hc. by vm_compute in Hc.
  - intros d'. unfold holds.
    change (public (engine_at (with_node s (put_engine (node s) d e)) d') =
      if decide (d = d') then changed (public (engine_at s d')) (entries_of page) else public (engine_at s d')).
    rewrite engine_put. case_decide; [subst d'|done]. rewrite He, public_changed, kept_of_kept; [done|].
    apply entries_of_own.
Qed.

Lemma copying_inv_page h ks keys_ kek n d first from page k v s s' u :
  copying_inv h ks n (Paging d first from) s →
  scan (at_db (engines n) d) first LAST PAGE false = Ok page → last page = Some (k, v) →
  frame_taken keys_ kek (Entries d (filter (λ kv : Entry, own kv.1 = false) page)) s = (s', Ok u) →
  copying_inv h ks n (Paging d (k ++ [x00]) from) s'.
Proof.
  intros [Hwf Hl Ho Hs Hk] Hp%scan_spec Hlast (Hw & Hkeys & Hh)%entries_taken.
  destruct (page_spec _ _ _ _ _ _ (eq_sym Hp) Hlast) as (Hin & Hall & Hfl).
  split; [done|done| | |intros d'; by rewrite Hkeys].
  - intros d'. specialize (Ho d'). rewrite Hh. unfold reaching in *. cbn [ended from_of] in *.
    destruct (bool_decide_reflect (place_of d' < place_of d)) as [Hlt|].
    { rewrite decide_False; [done|]. intros ->. lia. }
    case_decide as Hd; [subst d'|done]. destruct Ho as [log Ho]. exists log.
    eapply (overlaid_page d _ n _ first k); [exact Ho| |exact Hall| |done|].
    + intros j x Hj. by apply Hin.
    + intros j. cbn. by rewrite ble_after, negb_involutive.
    + intros j. destruct (decide (j ∈ (filter (λ kv : Entry, own kv.1 = false) page).*1)) as [Hj|Hj].
      * rewrite (lookup_entries _ (contents (at_db (engines n) d))) by by intros ? ? ?%Hin; destruct_and!.
        rewrite decide_True by done. unfold holds. rewrite lookup_public.
        apply list_elem_of_fmap in Hj as ([j' x] & -> & [Hx _]%list_elem_of_filter). cbn in *.
        by rewrite Hx.
      * rewrite (lookup_entries _ (contents (at_db (engines n) d))) by by intros ? ? ?%Hin; destruct_and!.
        by rewrite decide_False.
  - destruct Hs as (w & Hw' & Hhw & Hn). exists w. rewrite Hw. done.
Qed.

(** The standby takes the end of a database. *)
Lemma copying_inv_end h ks keys_ kek n d first from s s' u :
  copying_inv h ks n (Paging d first from) s →
  scan (at_db (engines n) d) first LAST PAGE false = Ok [] →
  frame_taken keys_ kek (CopiedTo d (at_db from d)) s = (s', Ok u) →
  copying_inv h ks n (after d from) s'.
Proof.
  intros [Hwf Hl Ho Hs Hk] Hp%scan_spec Ht.
  assert (∀ d', match reaching (after d from) d' with
    | None => holds (node s) d' = ∅
    | Some reached => ∃ log, overlaid d' (uval (at_db (from_of (after d from)) d')) n (holds (node s) d') reached log
    end) as Ho'.
  { intros d'. specialize (Ho d'). unfold reaching in *.
    destruct (decide (d' = d)) as [->|Hd].
    - replace (ended (after d from) d) with true by by destruct d.
      replace (ended (Paging d first from) d) with false in Ho by by destruct d.
      rewrite decide_True in Ho by done. destruct Ho as [log Ho]. exists log.
      replace (from_of (after d from)) with from by by destruct d.
      eapply overlaid_end; [exact Ho|]. eapply page_none; [|apply Hl|by symmetry]. done.
    - replace (ended (after d from) d') with (ended (Paging d first from) d') by (destruct d, d'; done).
      replace (from_of (after d from)) with from by by destruct d.
      destruct (ended (Paging d first from) d'); [done|]. rewrite decide_False in Ho by done.
      by destruct d. }
  cbn [frame_taken] in Ht. destruct Hs as (w & Hw & Hh & Hn). rewrite Hw in Ht.
  set (w' := {| wh_history := _; wh_next := _ |}) in Ht.
  assert (∀ d', at_db (wh_next w') d' =
    if ended (after d from) d' then Some (at_db from d') else None) as Hn'.
  { intros d'. unfold w'. cbn [wh_next]. rewrite of_put. case_decide as Hd; [subst d'; by destruct d|].
    rewrite Hn. by destruct d, d'. }
  destruct d.
  - cbn [forallb DATABASES] in Ht. rewrite (Hn' Administration), andb_false_r in Ht. cbn in Ht.
    injection Ht as <- _. split; [done|done|exact Ho'| |done].
    exists w'. split; [done|]. split; [done|exact Hn'].
  - cbn [forallb DATABASES] in Ht. rewrite (Hn' AuditDatabase), !andb_false_r in Ht. cbn in Ht.
    injection Ht as <- _. split; [done|done|exact Ho'| |done].
    exists w'. split; [done|]. split; [done|exact Hn'].
  - cbn [forallb DATABASES] in Ht. rewrite !Hn' in Ht. cbn [ended after is_some andb] in Ht.
    apply copied_whole_spec in Ht as (_ & Hhist & Hcop & Hd).
    split; [done|done| | |].
    + intros d'. destruct (Hd d') as (_ & -> & _). apply Ho'.
    + cbn [copy_standing after]. split; [by rewrite Hhist|]. split; [done|]. intros d'.
      destruct (Hd d') as (-> & _ & Hpl & _). split; [|done]. by rewrite Hn'.
    + intros d'. destruct (Hd d') as (_ & _ & _ & ->). apply Hk.
Qed.

Lemma copying_taken h ks keys_ kek n0 sh0 frames n1 sh1 s0 s1 :
  copying n0 sh0 frames n1 sh1 → copying_inv h ks n0 sh0 s0 →
  take_all keys_ kek frames s0 = (s1, Ok tt) → copying_inv h ks n1 sh1 s1.
Proof.
  intros Hc Hi. revert s1. induction Hc as [n sh|n sh frames n1 sh1 d w n2 Hc IH Hr Hw Hl
    |n sh frames n1 sh1 more sh2 Hc IH Hs]; intros s1 Ht.
  - by injection Ht as <-.
  - eapply copying_inv_write; [by apply IH|done..].
  - unfold take_all in Ht. apply in_turn_app in Ht as (s2 & Ht2 & Ht).
    specialize (IH Hi s2 Ht2). destruct sh1 as [d from|d first from|from]; cbn [whole_step] in Hs.
    + injection Hs as <- <-. injection Ht as <-. by apply copying_inv_begin.
    + destruct (scan _ _ _ _ _) as [page|] eqn:Ep; [|done]. cbn in Hs.
      destruct (last page) as [[k v]|] eqn:El; injection Hs as <- <-;
        cbn [in_turn] in Ht; apply bind_ok in Ht as (s3 & [] & Ht & Hu); injection Hu as ->.
      * by eapply copying_inv_page.
      * apply last_None in El as ->. by eapply copying_inv_end.
    + injection Hs as <- <-. by injection Ht as <-.
Qed.

(** ** The start of a whole copy *)

Definition emptied (s : Following E) (d : Database) : Prop :=
  before_last (engine_at s d) ∧ (N.of_nat (base.size (engine_at s d)) < 2 ^ 64)%N.

(** A database wiped and given a data key. *)
Lemma wiped_database_spec keys_ kek d key s s' u :
  emptied s d →
  wiped_database keys_ kek (d, key) s = (s', Ok u) →
  whole s' = whole s ∧ (∀ d', d' ≠ d → engine_at s' d' = engine_at s d') ∧
  (∀ k, k ≠ COPYING → k ≠ DATA_KEY → engine_at s' d !! k = None) ∧
  ∃ data n wrapped, taken key = inl data ∧ wrap_key keys_ kek n data = inl wrapped ∧
    engine_at s' d !! DATA_KEY = Some wrapped.
Proof.
  intros [Hl Hn] (s1 & [] & Ew' & Hw)%bind_ok.
  destruct (wipe_spec s d) as (e & r & Ew & _ & Hc). cbn [fst] in Ew'. rewrite Ew in Ew'. clear Ew.
  destruct (Hc Hn) as [_ Hclean]. clear Hc.
  assert (s1 = with_node s (put_engine (node s) d e) ∧ r = Ok tt) as [-> ->] by by injection Ew'.
  clear Ew'. specialize (Hclean Hl). cbn [fst] in Hclean.
  apply bind_ok in Hw as (s2 & data & Ed & Hw). unfold ask in Ed. cbn [snd] in Ed.
  apply pair_equal_spec in Ed as [<- Ed].
  apply bind_ok in Hw as (s3 & wrapped & Ewr & Hw). unfold ask in Ewr.
  apply pair_equal_spec in Ewr as [<- Ewr]. cbn [randomness with_node] in Ewr.
  apply bind_ok in Hw as (s4 & [] & Eu & Hw). unfold update in Eu.
  apply pair_equal_spec in Eu as [<- _].
  apply on_ok in Hw as (e2 & He2 & ->). cbn [fst] in *. apply write_spec in He2.
  cbn [engines node with_random with_node put_engine] in He2. rewrite of_put_same in He2.
  split; [done|]. split; [|split].
  - intros d' Hd. rewrite engine_put, decide_False by done.
    change (engine_at (with_node s (put_engine (node s) d e)) d' = engine_at s d').
    by rewrite engine_put, decide_False by done.
  - intros k Hcop Hdk. rewrite engine_put, decide_True by done. rewrite He2, lookup_insert_ne by done.
    destruct (contents e !! k) as [v|] eqn:Ek; [|done]. contradict Hcop.
    by apply Hclean.
  - exists data, (randomness s 0), wrapped. unfold into_key in Ed, Ewr.
    destruct (taken key) as [k0|]; [|done]. assert (k0 = data) as -> by by injection Ed.
    destruct (wrap_key _ _ _ _) as [w0|]; [|done]. assert (w0 = wrapped) as -> by by injection Ewr.
    split; [done|]. split; [done|]. rewrite engine_put, decide_True by done. rewrite He2.
    apply lookup_insert_eq.
Qed.

(** Every database wiped and given its data key. *)
Lemma wiped_all keys_ kek keys s s' u :
  (∀ d, emptied s d) → wiped keys_ kek keys s = (s', Ok u) →
  whole s' = whole s ∧
  ∀ d, (∀ k, k ≠ COPYING → k ≠ DATA_KEY → engine_at s' d !! k = None) ∧
    ∃ key data n wrapped, keys !! place_of d = Some key ∧ taken key = inl data ∧
      wrap_key keys_ kek n data = inl wrapped ∧ engine_at s' d !! DATA_KEY = Some wrapped.
Proof.
  intros He Hw. unfold wiped in Hw. destruct (decide _) as [Hlen|]; [|done].
  destruct keys as [|k1 [|k2 [|k3 [|]]]]; try done. clear Hlen.
  cbn [zip zip_with DATABASES in_turn] in Hw.
  apply bind_ok in Hw as (s1 & [] & E1 & Hw). apply bind_ok in Hw as (s2 & [] & E2 & Hw).
  apply bind_ok in Hw as (s3 & [] & E3 & Hw). injection Hw as <- _.
  apply wiped_database_spec in E1 as (W1 & O1 & P1 & d1 & n1 & w1 & T1 & K1 & D1); [|apply He].
  apply wiped_database_spec in E2 as (W2 & O2 & P2 & d2 & n2 & w2 & T2 & K2 & D2).
  2: { unfold emptied. rewrite O1 by done. apply He. }
  apply wiped_database_spec in E3 as (W3 & O3 & P3 & d3 & n3 & w3 & T3 & K3 & D3).
  2: { unfold emptied. rewrite O2, O1 by done. apply He. }
  split; [congruence|]. intros [].
  - rewrite O3, O2 by done. split; [done|]. by exists k1, d1, n1, w1.
  - rewrite O3 by done. split; [done|]. by exists k2, d2, n2, w2.
  - split; [done|]. by exists k3, d3, n3, w3.
Qed.

Lemma heard_engine s (n : u64) d k : k ≠ EPOCH → engine_at (heard s n) d !! k = engine_at s d !! k.
Proof.
  intros Hk. unfold heard. case_match; [|done]. destruct (write _ _ _) as [e|] eqn:Ew; [|done].
  apply write_spec in Ew. rewrite engine_put. case_decide; [subst d|done].
  rewrite Ew. by rewrite lookup_insert_ne.
Qed.

(** What both keep each database's data key as: the same key, each wrapped
    under its own node's key-encryption key. *)
Definition same_key (keys_ : KeyStore) (kek : KekName) (n : Node E)
    (keys' : KeyStore) (kek' : KekName) (d : Database) (kept : option bytes) : Prop :=
  ∃ w k w', contents (at_db (engines n) d) !! DATA_KEY = Some w ∧ kept = Some w' ∧
    unwrap_key keys_ kek w = inl k ∧ unwrap_key keys' kek' w' = inl k.

Lemma data_keys_spec keys_ kek (n : Node E) ks :
  data_keys keys_ kek n = Ok ks →
  ∀ d, ∃ w k, contents (at_db (engines n) d) !! DATA_KEY = Some w ∧
    unwrap_key keys_ kek w = inl k ∧ ks !! place_of d = Some (handed k).
Proof.
  intros Hk%collect_Ok d. unfold DATABASES in Hk.
  assert (∃ kd, ks !! place_of d = Some kd ∧ (
    wrapped ← read (at_db (engines n) d) DATA_KEY;
    match wrapped with
    | None => Err (Failed_ "a database with no data key")
    | Some wrapped => key ← into_key (unwrap_key keys_ kek wrapped); Ok (handed key)
    end) = Ok kd) as (kd & Hl & Hd).
  { pose proof (Forall2_lookup_l _ _ _ (place_of d) d Hk) as Hx.
    destruct Hx as (kd & ? & ?); [by destruct d|]. by exists kd. }
  apply bind_Ok in Hd as (o & Ho%read_spec & Hd). destruct o as [w|]; [|done].
  apply bind_Ok in Hd as (k & Hk' & [= <-]). exists w, k. split; [done|]. split; [|done].
  unfold into_key in Hk'. destruct (unwrap_key _ _ _); [|done]. by injection Hk' as ->.
Qed.

Context {SO : SecretOk _} {HO : HandingOk}.

(** Room for the mark of the copy, so that the wipe ends. *)
Definition can_be_wiped (s : Following E) (d : Database) : Prop :=
  before_last (engine_at s d) ∧ (N.of_nat (base.size (engine_at s d)) + 1 < 2 ^ 64)%N.

Lemma wiped_epoch e keys_ kek keys : kept_by (E := E) (λ s, epoch s = e) (wiped keys_ kek keys).
Proof.
  unfold wiped. case_decide; [|by intros s]. apply kept_in_turn. intros [d key] _.
  unfold wiped_database. cbn [fst snd]. apply kept_bind.
  { intros s Hs. by destruct (wipe_spec s d) as (e' & r & -> & _). }
  intros _. apply kept_bind; [apply kept_ask|]. intros data s Hs.
  refine (kept_bind (λ s, epoch s = e) _ _ _ _ s Hs); [apply kept_ask|]. intros wrapped.
  apply kept_bind; [by apply kept_update|]. intros _ s' Hs'. unfold on. by destruct (write _ _ _).
Qed.

(** What the first frame of a whole copy leaves, but for the epoch heard:
    every database wiped, its data key written. *)
Lemma whole_frame keys' kek' h e ks s0 s1 u :
  (∀ d, can_be_wiped s0 d) →
  frame_taken keys' kek' (Whole h e ks) s0 = (s1, Ok u) →
  ∃ sc, s1 = with_whole (heard sc e) (Some {| wh_history := h; wh_next := all_of None |}) ∧
    epoch sc = epoch s0 ∧
    ∀ d, (∀ k, k ≠ COPYING → k ≠ DATA_KEY → engine_at sc d !! k = None) ∧
      ∃ key data n wrapped, ks !! place_of d = Some key ∧ taken key = inl data ∧
        wrap_key keys' kek' n data = inl wrapped ∧ engine_at sc d !! DATA_KEY = Some wrapped.
Proof.
  intros Hcan Ht. cbn [frame_taken] in Ht.
  apply bind_ok in Ht as (sa & [] & (ea & Hea%apply_spec & ->)%on_ok & Ht).
  apply bind_ok in Ht as (sb & [] & Eb & Ht). apply pair_equal_spec in Eb as [<- _].
  set (sb := with_node _ _) in Ht.
  apply bind_ok in Ht as (sc & [] & Hw & Ht). exists sc.
  pose proof (wiped_epoch (epoch s0) keys' kek' ks sb eq_refl) as He. rewrite Hw in He.
  apply wiped_all in Hw as [_ Hw].
  2: { intros d. destruct (Hcan d) as [Hb Hz].
       assert (engine_at sb d = if decide (Runtime = d) then <[COPYING := [x01]]> (engine_at s0 d) else engine_at s0 d) as Ed.
       { transitivity (engine_at (with_node s0 (put_engine (node s0) Runtime ea)) d); [done|].
         rewrite engine_put. case_decide; [subst d|done]. by rewrite Hea. }
       unfold emptied. rewrite Ed. case_decide; [|split; [done|lia]]. split.
       - intros k. destruct (decide (k = COPYING)) as [->|]; [done|].
         rewrite lookup_insert_ne by done. apply Hb.
       - rewrite map_size_insert. destruct (engine_at s0 d !! COPYING); unfold id; lia. }
  apply bind_ok in Ht as (sd & [] & Ed & Ht). apply pair_equal_spec in Ed as [<- _].
  apply pair_equal_spec in Ht as [<- _]. done.
Qed.

Lemma whole_start keys_ kek keys' kek' (n : Node E) e f frames from0 s0 s1 :
  (∀ d, kept_wf (at_db (kept (node_copies n)) d)) → node_before_last n →
  (∀ d, can_be_wiped s0 d) →
  shipping keys_ kek n e f = Ok (frames, Begin Runtime from0) →
  take_all keys' kek' frames s0 = (s1, Ok tt) →
  copying_inv (history (node_copies n)) (λ d, engine_at s1 d !! DATA_KEY) n (Begin Runtime from0) s1 ∧
  ∀ d, same_key keys_ kek n keys' kek' d (engine_at s1 d !! DATA_KEY).
Proof.
  intros Hwf Hl Hcan Hs Ht. unfold shipping in Hs. case_match; [done|].
  destruct (follows _ _ _); [|done]. apply bind_Ok in Hs as (ks & Hks & Hs).
  assert (frames = [Whole (history (node_copies n)) e ks] ∧ from0 = all_of (wrap 1)) as [-> ->]
    by by injection Hs.
  clear Hs. pose proof (data_keys_spec _ _ _ _ Hks) as Hkeys.
  unfold take_all in Ht. cbn [in_turn] in Ht. apply bind_ok in Ht as (s1' & [] & Ht & Hu).
  assert (s1' = s1) as -> by by injection Hu. clear Hu.
  apply whole_frame in Ht as (sc & -> & _ & Hw); [|done].
  assert (∀ d, public (engine_at (heard sc e) d) = ∅) as Hpub.
  { intros d. destruct (heard_as_it_was sc sc e (as_it_was_refl sc)) as [_ Hsame].
    destruct (Hsame d) as (_ & Hh & _). destruct (Hw d) as [Hp _]. unfold holds in Hh.
    apply map_eq. intros k. unfold engine_at in *. rewrite Hh, lookup_public, lookup_empty.
    destruct (own k) eqn:Eo; [done|]. apply Hp; intros ->; by vm_compute in Eo. }
  split.
  - split; [done|done| | |done].
    + intros d. unfold reaching. cbn [ended].
      replace (bool_decide _) with false by by destruct d. apply Hpub.
    + exists {| wh_history := history (node_copies n); wh_next := all_of None |}.
      split; [done|]. split; [done|]. intros d. cbn [wh_next ended]. rewrite of_all.
      by replace (bool_decide _) with false by by destruct d.
  - intros d. destruct (Hkeys d) as (w & k & Hd & Hu & Hk).
    destruct (Hw d) as (_ & key & data & nonce & wrapped & Hk' & Ht & Hwr & Hd').
    rewrite Hk in Hk'. assert (key = handed k) as -> by by injection Hk'.
    rewrite taken_handed in Ht. assert (data = k) as -> by by injection Ht.
    exists w, k, wrapped. split; [done|]. split; [|split; [done|by eapply unwrap_wrap]].
    change (engine_at (heard sc e) d !! DATA_KEY = Some wrapped).
    by rewrite heard_engine.
Qed.

(** ** The standby once it took the whole copy *)

(** The link a whole copy leaves. *)
Definition copied_link (n : Node E) (e : u64) (from : each u64) (s : Following E) : Link E :=
  {| primary := n; in_epoch := e; shipper := Some from; way := []; standby := s |}.

Lemma copied_tracks h ks (n : Node E) from e s :
  copying_inv h ks n (Handing_on from) s → ∀ d, ∃ log, tracks d (copied_link n e from s) log.
Proof.
  intros [Hwf _ Ho (_ & _ & Hs) _] d. specialize (Ho d). destruct Ho as [log Ho]. exists log.
  destruct Ho as [Hn Hown Hk _ Hr _]. destruct (Hs d) as [Ex Hpl].
  assert (∀ i, next_after d (node s) i = (uval (at_db from d) + N.of_nat i)%N) as Ea.
  { intros i. unfold next_after, next_of. by rewrite Ex. }
  cbn [from_of] in Hn, Hk.
  split; cbn [primary standby copied_link].
  - split; [by rewrite Ea|done|]. apply map_eq. intros k. symmetry. by apply Hr.
  - intros w Hin Hle. destruct (Hk w Hin) as (i & Ei & ?).
    + unfold next_of in Hle. by rewrite Ex in Hle.
    + exists i. by rewrite Ea.
  - apply Hwf.
  - split; cbn [primary standby copied_link way shipper]; [done|done| |done].
    intros nx [= <-]. rewrite Ea. cbn. lia.
  - done.
Qed.
End taking.

Module WholeTheorems.
Section theorems.
Context `{SO : SecretOk} {HD : Handing} {HO : HandingOk} {E : Type} `{EngineOk E}.

(** C33. The wipe before a whole copy ends. Of a database that holds fewer
    keys than a 64-bit number counts, each before the last key an engine
    keeps, every round takes keys away: the loop ends with nothing left but
    the mark of the copy, which it never takes, or with a failure that is the
    engine's own. *)
Theorem wipe_ends (s : Following E) d :
  before_last (engine_at s d) →
  (N.of_nat (base.size (engine_at s d)) < 2 ^ 64)%N →
  ∃ e r, wipe d s = (with_node s (put_engine (node s) d e), r) ∧
    contents e !! COPYING = engine_at s d !! COPYING ∧
    (r = Ok tt → ∀ k, is_Some (contents e !! k) → k = COPYING) ∧
    ∀ error, r = Err error →
      scan e [] LAST WIPE_PAGE false = Err error ∨ ∃ gone, apply_deferred e gone = Err error.
Proof.
  intros Hl Hn. destruct (wipe_spec s d) as (e & r & Ew & [_ Hc] & Hclean).
  destruct (Hclean Hn) as [_ Hr]. cbn [fst snd] in Hr. exists e, r.
  split; [done|]. split; [done|]. split; intros; subst r; [by apply Hr|done].
Qed.

(** C20. A whole copy taken while its primary goes on writing comes to
    what the primary holds. Whatever the primary writes between any two pages
    of it, and whatever the two do after - over every order of writes, sends,
    cuts and restarts - once a database of the standby has come to the number
    the primary's was at when the copy ended, it holds exactly what the
    primary's held at the number it has come to. The mark of the copy is gone,
    and each database's data key is the primary's, wrapped for the standby's
    own node. *)
Theorem whole_copy_converges keys_ kek keys' kek' (n0 n1 : Node E) e frames0 from0 frames from s0 s1 l :
  (∀ d, kept_wf (at_db (kept (node_copies n0)) d)) → node_before_last n0 →
  (∀ d, can_be_wiped s0 d) →
  shipping keys_ kek n0 e (asked s0) = Ok (frames0, Begin Runtime from0) →
  copying n0 (Begin Runtime from0) frames n1 (Handing_on from) →
  take_all keys' kek' (frames0 ++ frames) s0 = (s1, Ok tt) →
  rtc (step keys' kek') (copied_link n1 e from s1) l →
  at_key COPYING None s1 ∧
  (∀ d, same_key keys_ kek n0 keys' kek' d (engine_at s1 d !! DATA_KEY)) ∧
  ∀ d, ((next_of n1 d ≤ next_of (node (standby l)) d)%N →
      was_primary keys' kek' (copied_link n1 e from s1) l d
        (next_of (node (standby l)) d) (holds (node (standby l)) d)) ∧
    (next_of (node (standby l)) d = next_of (primary l) d →
      holds (node (standby l)) d = holds (primary l) d).
Proof.
  intros Hwf Hl Hcan Hs Hc Ht Hr.
  unfold take_all in Ht. apply in_turn_app in Ht as (sa & Ha & Ht).
  destruct (whole_start _ _ _ _ _ _ _ _ _ _ _ Hwf Hl Hcan Hs Ha) as [Hi Hkeys].
  pose proof (copying_taken _ _ _ _ _ _ _ _ _ _ _ Hc Hi Ht) as Hi1.
  pose proof (follows_holds_past keys' kek' _ _ (steps_follow_past keys' kek' _ _
    (copied_tracks _ _ n1 from e s1 Hi1) Hr)) as Hp.
  split; [by destruct Hi1 as [_ _ _ (_ & ? & _) _]|]. split.
  - intros d. rewrite (ci_keys _ _ _ _ _ Hi1 d). apply Hkeys.
  - intros d. by destruct (Hp d) as (_ & ? & ?).
Qed.
End theorems.

(** ** A run of a primary copying itself whole, for the worked examples *)

Section runs.
Context `{Secret} {HD : Handing} {E : Type} `{EngineOk E}.

Definition all_before_last (n : Node E) : bool :=
  forallb (λ d, bool_decide (map_Forall (λ k _, bytes_le k LAST) (contents (at_db (engines n) d))))
    DATABASES.

(** [None] is a step of the copy, and a write the primary's. *)
Fixpoint copy_run (script : list (option (Database * Write))) (n : Node E) (sh : Shipper)
    (frames : list Shipped) : option (Node E * Shipper * list Shipped) :=
  match script with
  | [] => Some (n, sh, frames)
  | None :: script =>
      match whole_step n sh with
      | Ok (more, sh) => copy_run script n sh (frames ++ more)
      | Err _ => None
      end
  | Some (d, w) :: script =>
      match node_write n (d, w) with
      | Ok n' =>
          if bool_decide (room (at_db (kept (node_copies n)) d)) && all_before_last n'
          then copy_run script n' sh frames else None
      | Err _ => None
      end
  end.

Lemma copy_run_copying script n0 sh0 n1 sh1 frames1 n sh frames :
  copying n0 sh0 frames n sh → copy_run script n sh frames = Some (n1, sh1, frames1) →
  copying n0 sh0 frames1 n1 sh1.
Proof.
  revert n sh frames. induction script as [|[[d w]|] script IH]; intros n sh frames Hc; cbn [copy_run].
  - by intros [= <- <- <-].
  - destruct (node_write n (d, w)) as [n'|] eqn:Ew; [|done].
    destruct (_ && _) eqn:Eb; [|done]. apply andb_true_iff in Eb as [Hr%bool_decide_eq_true Hl].
    apply IH. eapply copying_write; [done|done|done|]. intros d' k [v Hk].
    unfold all_before_last in Hl. rewrite forallb_forall in Hl.
    specialize (Hl d' (proj1 (list_elem_of_In _ _) (every_database d'))).
    apply bool_decide_eq_true in Hl. by apply (Hl k v).
  - destruct (whole_step n sh) as [[more sh']|] eqn:Es; [|done].
    apply IH. by eapply copying_step.
Qed.
End runs.

#[local] Existing Instances Glass.secret Glass.secret_ok FollowTheorems.glass_handing
  FollowTheorems.glass_handing_ok.

(** A primary that writes while its runtime database is copied. *)
Definition memory_of (l : list Entry) : Memory.Memory := {| Memory.records := list_to_map l |}.
Definition sample_primary (l : list Entry) : Node Memory.Memory :=
  NodeOf (Each (memory_of ((DATA_KEY, [x05]) :: l)) (memory_of [(DATA_KEY, [x06])]) (memory_of [(DATA_KEY, [x07])]))
    (new (wrap 9) (all_of (wrap 1)) 100).
Definition sample_standby : Following Memory.Memory :=
  {| node := NodeOf (all_of (memory_of [(DATA_KEY, [x01]); ([x02], [x02])])) (new (wrap 0) (all_of (wrap 1)) 100);
     epoch := wrap 2; dirty := all_of false; whole := None; randomness := λ i, i |}.
Definition sample_start : list Shipped := [Whole (wrap 9) (wrap 2) [[x05]; [x06]; [x07]]].

Definition run_of (script : list (option (Database * Write))) (n : Node Memory.Memory)
    : Node Memory.Memory * Shipper * list Shipped :=
  default (n, Begin Runtime (all_of (wrap 1)), [])
    (copy_run script n (Begin Runtime (all_of (wrap 1))) []).

Definition sample_script : list (option (Database * Write)) :=
  [None; None; Some (Runtime, Put [x03] [x0c]); Some (Runtime, Put [x01] [x0b]); None; None;
   None; None; None; None; None; None].
Definition sample_run := run_of sample_script (sample_primary [([x01], [x0a])]).
Definition sample_after : Node Memory.Memory := sample_run.1.1.
Definition sample_taken : Following Memory.Memory * result unit :=
  take_all tt tt (sample_start ++ sample_run.2) sample_standby.

Example sample_ends :
  sample_run.1.2 = Handing_on (all_of (wrap 1)) ∧
  sample_run.2 = [Entries Runtime [([x01], [x0a])]; Entries Runtime [([x03], [x0c])];
    CopiedTo Runtime (wrap 1); Entries Administration []; CopiedTo Administration (wrap 1);
    Entries AuditDatabase []; CopiedTo AuditDatabase (wrap 1)] ∧
  sample_taken.2 = Ok tt ∧
  nexts (node_copies sample_after) = Each (wrap 3) (wrap 1) (wrap 1).
Proof. vm_compute. repeat split. Qed.

Lemma sample_copying :
  copying (sample_primary [([x01], [x0a])]) (Begin Runtime (all_of (wrap 1))) sample_run.2
    sample_after (Handing_on (all_of (wrap 1))).
Proof.
  apply (copy_run_copying sample_script _ _ _ _ _ (sample_primary [([x01], [x0a])])
    (Begin Runtime (all_of (wrap 1))) []); [constructor|].
  vm_compute. reflexivity.
Qed.

Lemma sample_takes :
  take_all tt tt (sample_start ++ sample_run.2) sample_standby = (sample_taken.1, Ok tt).
Proof.
  assert (sample_taken.2 = Ok tt) as <- by (vm_compute; reflexivity).
  unfold sample_taken. apply surjective_pairing.
Qed.

Lemma sample_can_be_wiped d : can_be_wiped sample_standby d.
Proof.
  assert (engine_at sample_standby d = Memory.records (memory_of [(DATA_KEY, [x01]); ([x02], [x02])]))
    as Ed by by destruct d.
  unfold can_be_wiped. rewrite Ed. split; [|vm_compute; reflexivity].
  intros k [v Hv]. assert (map_Forall (λ k _, bytes_le k LAST)
    (Memory.records (memory_of [(DATA_KEY, [x01]); ([x02], [x02])]))) as Hm.
  { apply (bool_decide_unpack _). by vm_compute. }
  by apply (Hm k v).
Qed.

Lemma wipe_ends_witness :
  (before_last (engine_at sample_standby Runtime) ∧
   (N.of_nat (base.size (engine_at sample_standby Runtime)) < 2 ^ 64)%N) ∧
  ∃ e r, wipe Runtime sample_standby =
      (with_node sample_standby (put_engine (node sample_standby) Runtime e), r) ∧
    contents e !! COPYING = engine_at sample_standby Runtime !! COPYING ∧
    (r = Ok tt → ∀ k, is_Some (contents e !! k) → k = COPYING) ∧
    ∀ error, r = Err error →
      scan e [] LAST WIPE_PAGE false = Err error ∨ ∃ gone, apply_deferred e gone = Err error.
Proof.
  destruct (sample_can_be_wiped Runtime) as [Hb _].
  assert (N.of_nat (base.size (engine_at sample_standby Runtime)) < 2 ^ 64)%N as Hn
    by (vm_compute; reflexivity).
  split; [exact (conj Hb Hn)|]. apply (wipe_ends sample_standby Runtime Hb Hn).
Defined.

Lemma whole_copy_converges_witness :
  at_key COPYING None sample_taken.1 ∧
  (∀ d, same_key tt tt (sample_primary [([x01], [x0a])]) tt tt d (engine_at sample_taken.1 d !! DATA_KEY)) ∧
  ∀ d, ((next_of sample_after d ≤ next_of (node sample_taken.1) d)%N →
      was_primary tt tt (copied_link sample_after (wrap 2) (all_of (wrap 1)) sample_taken.1)
        (copied_link sample_after (wrap 2) (all_of (wrap 1)) sample_taken.1) d
        (next_of (node sample_taken.1) d) (holds (node sample_taken.1) d)) ∧
    (next_of (node sample_taken.1) d = next_of sample_after d →
      holds (node sample_taken.1) d = holds sample_after d).
Proof.
  refine (whole_copy_converges tt tt tt tt (sample_primary [([x01], [x0a])]) sample_after (wrap 2)
    sample_start (all_of (wrap 1)) sample_run.2 (all_of (wrap 1)) sample_standby sample_taken.1
    (copied_link sample_after (wrap 2) (all_of (wrap 1)) sample_taken.1) _ _ sample_can_be_wiped _
    sample_copying sample_takes (rtc_refl _ _)).
  - intros []; apply keeping_nothing_wf.
  - intros d k [v Hv]. assert (all_before_last (sample_primary [([x01], [x0a])]) = true) as Hl
      by (vm_compute; reflexivity).
    unfold all_before_last in Hl. rewrite forallb_forall in Hl.
    specialize (Hl d (proj1 (list_elem_of_In _ _) (every_database d))).
    apply bool_decide_eq_true in Hl. exact (Hl k v Hv).
  - vm_compute. reflexivity.
Defined.

(** The primary writes to its runtime database once that is copied, then to
    its administration database before that is: a standby that took the whole
    copy says it is not copying, and holds the second write without the first. *)
Definition first_write : Database * Write := (Runtime, Put [x01] [x01]).
Definition second_write : Database * Write := (Administration, Put [x01] [x01]).
Definition torn_script : list (option (Database * Write)) :=
  [None; None; None; Some first_write; Some second_write; None; None; None; None; None; None].
Definition torn_primary : Node Memory.Memory := sample_primary [].
Definition torn_between : Node Memory.Memory :=
  match node_write torn_primary first_write with Ok n => n | Err _ => torn_primary end.
Definition torn_run := run_of torn_script torn_primary.
Definition torn_taken : Following Memory.Memory * result unit :=
  take_all tt tt (sample_start ++ torn_run.2) sample_standby.

(** What a node holds under the key the two writes are to, in either database. *)
Definition of_the_two (n : Node Memory.Memory) : option bytes * option bytes :=
  (holds n Runtime !! [x01], holds n Administration !! [x01]).

(** A standby may be promoted in a state its primary never was in. A
    whole copy the standby has taken to its end leaves it no longer copying,
    though it holds the second of two writes its primary made and not the
    first: the copies that would bring it the first follow the end of the
    whole copy, and the primary may be gone before them. *)
Theorem torn_when_copied :
  copying torn_primary (Begin Runtime (all_of (wrap 1))) torn_run.2 torn_run.1.1
    (Handing_on (Each (wrap 1) (wrap 2) (wrap 1))) ∧
  (∃ n, node_write torn_primary first_write = Ok n ∧ of_the_two n = (Some [x01], None) ∧
    node_write n second_write = Ok torn_run.1.1) ∧
  torn_taken.2 = Ok tt ∧ is_copying (node torn_taken.1) = false ∧
  of_the_two torn_primary = (None, None) ∧
  of_the_two torn_run.1.1 = (Some [x01], Some [x01]) ∧
  of_the_two (node torn_taken.1) = (None, Some [x01]).
Proof.
  split.
  { apply (copy_run_copying torn_script _ _ _ _ _ torn_primary
      (Begin Runtime (all_of (wrap 1))) []); [constructor|]. vm_compute. reflexivity. }
  split.
  { exists torn_between. split; [|split]; vm_compute; reflexivity. }
  repeat split; vm_compute; reflexivity.
Qed.
End WholeTheorems.
