(* ===== verification/Finding.v ===== *)
(** * Which Storage node is the primary
    (src/.src/storage/standby/finding.rs, standby.rs)

    Each node asks every one listed what it is, follows a primary that
    answers, and is promoted where none does and it is the one to be:
    [promotes] decides that from what was answered, [promote] opens the
    databases over what the node copied, [take_up] keeps the role and the
    epoch. Whether the silence allowed has passed is an argument, and so are
    the history a node draws that followed none and the time its schema is
    brought up at. What is asked over the network is what was answered. *)

From S2P Require Import Prelude Word Store Schema Encrypted Engine Copies Shipped Follow Link Whole.

(** ** Who is promoted *)

(** What one Storage node listed answered, at its place in the list. *)
Record Answered : Type := { place : nat; address : string; standing : Standing }.

(** The comparison of [promotes]: the epoch, then the writes held, then the
    first listed. *)
Definition compared (one other : Answered) : comparison :=
  match (uval (sg_epoch (standing one)) ?= uval (sg_epoch (standing other)))%N with
  | Eq =>
      match (uval (held (standing one)) ?= uval (held (standing other)))%N with
      | Eq => Nat.compare (place other) (place one)
      | c => c
      end
  | c => c
  end.

(** [Iterator::max_by]: the last of the greatest. *)
Definition max_by {A} (f : A → A → comparison) (l : list A) : option A :=
  match l with
  | [] => None
  | a :: l => Some (foldl (λ best a, match f best a with Gt => best | _ => a end) a l)
  end.

(** [Iterator::find]. *)
Definition find_first {A} (f : A → bool) (l : list A) : option A := head (filter (λ a, f a = true) l).

(** [StorageNode::promotes] of the node whose process is [process];
    [silent]: no primary heard for the silence allowed. *)
Definition promotes (process : u128) (silent : bool) (answered : list Answered) : bool :=
  match find_first (λ a, bool_decide (sg_process (standing a) = process)) answered with
  | None => false
  | Some me =>
      if sg_copying (standing me) then false
      else
        let whole := filter (λ a, sg_copying (standing a) = false) answered in
        if bool_decide (place <$> max_by compared whole = Some (place me)) then
          forallb (λ p, existsb (λ a, place a =? p) answered) (seq 0 (place me)) || silent
        else false
  end.

(** ** A node's role and its promotion *)

Inductive Role : Type :=
  | Finding
  | Primary
  | Standby_ (address : string).

Section node.
Context `{Secret} {HD : Handing} {E : Type} `{Engine E}.

Record StorageNode : Type := {
  process : u128; role : Role; stopping : bool; following : Following E
}.

(** [StorageNode::take_up]: the epoch kept where it is later, as [heard]
    keeps it. *)
Definition take_up (n : StorageNode) (role_ : Role) (epoch_ : u64) : StorageNode :=
  {| process := process n; role := role_; stopping := stopping n; following := heard (following n) epoch_ |}.

(** One of a node's databases opened over its [Copied] engine: its keys. *)
Definition open_database (keys_ : KeyStore) (kek : KekName) (d : Copies.Database)
    : act (DataKey * DataKey) := λ s,
  match open (CopiedBy (at_db (engines (node s)) d) d (node_copies (node s))) keys_ kek (randomness s) with
  | Ok st =>
      let e := store_engine st in
      (with_random (with_node s (NodeOf (put_at d (beneath e) (engines (node s))) (copies e))) (random st),
       Ok (record st, lookup st))
  | Err error => (s, Err error)
  end.

Definition schema_of (d : Copies.Database) : Schema.Database :=
  match d with
  | Runtime => Schema.Runtime
  | Administration => Schema.Administration_
  | AuditDatabase => Schema.Audit_
  end.

(** One of them brought to the build's schema version. *)
Definition reach_database (now : u64) (d : Copies.Database) (keys : DataKey * DataKey) : act unit := λ s,
  let st := Store (CopiedBy (at_db (engines (node s)) d) d (node_copies (node s))) keys.1 keys.2 (randomness s) in
  match reached st (schema_of d) VERSION now with
  | Ok (st, _) =>
      let e := store_engine st in
      (with_random (with_node s (NodeOf (put_at d (beneath e) (engines (node s))) (copies e))) (random st), Ok tt)
  | Err error => (s, Err error)
  end.

(** [StorageNode::promote], up to the role it then takes: its databases' keys. *)
Definition opened_as_primary (keys_ : KeyStore) (kek : KekName) (drawn_history : u128) (now : u64)
    : act (each (DataKey * DataKey)) := λ s,
  if is_copying (node s) then (s, Err (Failed_ "a whole copy into it was cut short; it holds part of a Ledger"))
  else
    bind (if bool_decide (history (node_copies (node s)) = wrap 0)
          then update (λ s, with_node s (NodeOf (engines (node s))
                 (restart (node_copies (node s)) drawn_history (all_of (wrap 1)))))
          else skip) (λ _,
    bind (in_turn (λ d, on d (λ e, remove e POSITION)) DATABASES) (λ _,
    bind (open_database keys_ kek Runtime) (λ r,
    bind (open_database keys_ kek Administration) (λ a,
    bind (open_database keys_ kek AuditDatabase) (λ u,
    bind (reach_database now Runtime r) (λ _,
    bind (reach_database now Administration a) (λ _,
    bind (reach_database now AuditDatabase u) (λ _,
    λ s, (s, Ok (Each r a u)))))))))) s.

Definition promote (keys_ : KeyStore) (kek : KekName) (drawn_history : u128) (now : u64)
    (n : StorageNode) (epoch_ : u64) : StorageNode * result unit :=
  match opened_as_primary keys_ kek drawn_history now (following n) with
  | (s, Ok _) =>
      (take_up {| process := process n; role := role n; stopping := stopping n; following := s |} Primary epoch_, Ok tt)
  | (s, Err error) =>
      ({| process := process n; role := role n; stopping := stopping n; following := s |}, Err error)
  end.

(** What [StorageNode::find] does next, of a node that is no primary. *)
Inductive Next : Type :=
  | Follows (address : string) (epoch : u64)
  | Promotes (epoch : u64)
  | Rests.

Definition decided (n : StorageNode) (silent : bool) (answered : list Answered) : Next :=
  let epoch_ := epoch (following n) in
  match find_first (λ a, sg_primary (standing a) && bool_decide (sg_process (standing a) ≠ process n) &&
          (uval epoch_ <=? uval (sg_epoch (standing a)))%N) answered with
  | Some primary => Follows (address primary) (sg_epoch (standing primary))
  | None =>
      if promotes (process n) silent answered then
        let latest := foldr (λ a, umaxof (sg_epoch (standing a))) (wrap 0) answered in
        Promotes (wadd (umaxof latest epoch_) 1)
      else Rests
  end.

(** [StorageNode::keep_primary]: whether a primary steps down. *)
Definition steps_down (n : StorageNode) (answered : list Answered) : bool :=
  existsb (λ a, sg_primary (standing a) && bool_decide (sg_process (standing a) ≠ process n) &&
    (uval (epoch (following n)) <? uval (sg_epoch (standing a)))%N) answered.

(** What a node answers of itself (src/.src/storage/standby/served.rs). *)
Definition standing_of (n : StorageNode) : Standing :=
  {| sg_process := process n;
     sg_primary := match role n with Primary => negb (stopping n) | _ => false end;
     sg_epoch := epoch (following n);
     sg_history := history (node_copies (node (following n)));
     sg_next := nexts (node_copies (node (following n)));
     sg_copying := is_copying (node (following n)) |}.
End node.
Arguments StorageNode {_} E.

(** ** The order of those answered *)

(** The writes a node said it holds, of its three databases, as one 64-bit
    number counts them. *)
Definition holding (a : Answered) : N :=
  let next := sg_next (standing a) in
  ((uval (at_db next Runtime) + uval (at_db next Administration) + uval (at_db next AuditDatabase)) mod 2 ^ 64)%N.

(** [b] is to be promoted before [a], or is at its place: of a later epoch;
    or of its epoch and holding more; or as much, and listed no later. *)
Definition outranked (a b : Answered) : Prop :=
  (uval (sg_epoch (standing a)) < uval (sg_epoch (standing b)))%N ∨
  (uval (sg_epoch (standing a)) = uval (sg_epoch (standing b)) ∧
   ((holding a < holding b)%N ∨ (holding a = holding b ∧ place b ≤ place a))).

Lemma uval_held a : uval (held (standing a)) = holding a.
Proof.
  unfold held, holding, DATABASES, wadd. cbn [foldl]. rewrite !uval_wrap.
  change (bound 8) with (2 ^ 64)%N. rewrite (N.mod_small 0) by done.
  rewrite N.add_0_l, !N.Div0.add_mod_idemp_l, <- !N.add_assoc. by rewrite N.Div0.add_mod_idemp_l.
Qed.

Lemma compared_spec a b : compared a b ≠ Gt ↔ outranked a b.
Proof.
  unfold outranked, compared. rewrite !uval_held.
  destruct (N.compare_spec (uval (sg_epoch (standing a))) (uval (sg_epoch (standing b)))) as [E1|E1|E1].
  - destruct (N.compare_spec (holding a) (holding b)) as [E2|E2|E2].
    + rewrite Nat.compare_gt_iff. lia.
    + split; [|done]. lia.
    + split; [done|]. lia.
  - split; [|done]. lia.
  - split; [done|]. lia.
Qed.

Lemma outranked_refl a : outranked a a.
Proof. unfold outranked. lia. Qed.
Lemma outranked_trans a b c : outranked a b → outranked b c → outranked a c.
Proof. unfold outranked. lia. Qed.
Lemma outranked_total a b : outranked a b ∨ outranked b a.
Proof. unfold outranked. lia. Qed.

Lemma max_by_spec l a : max_by compared l = Some a → a ∈ l ∧ ∀ b, b ∈ l → outranked b a.
Proof.
  destruct l as [|x l]; [done|]. cbn [max_by]. intros [= <-].
  revert x. induction l as [|y l IH]; intros x; cbn [foldl].
  { split; [left|]. intros b ->%list_elem_of_singleton. apply outranked_refl. }
  set (best := match compared x y with Gt => x | _ => y end).
  assert ((best = x ∨ best = y) ∧ outranked x best ∧ outranked y best) as (Hb & Hx & Hy).
  { unfold best. destruct (outranked_total x y) as [Ho|Ho].
    - pose proof Ho as Hc. apply compared_spec in Hc. destruct (compared x y); try done;
        (split; [by right|]); split; auto using outranked_refl.
    - destruct (compared x y) eqn:Ec.
      + split; [by right|]. split; [apply compared_spec; by rewrite Ec|apply outranked_refl].
      + split; [by right|]. split; [apply compared_spec; by rewrite Ec|apply outranked_refl].
      + split; [by left|]. split; [apply outranked_refl|done]. }
  destruct (IH best) as [Hin Hmax]. split.
  - apply elem_of_cons in Hin as [->|Hin]; [|by do 2 right].
    destruct Hb as [-> | ->]; [left|right; left].
  - assert (∀ b, outranked b best → outranked b (foldl (λ best a,
      match compared best a with Gt => best | _ => a end) best l)) as Hup.
    { intros b Hb'. eapply outranked_trans; [exact Hb'|]. apply Hmax. left. }
    intros b Hbin. apply elem_of_cons in Hbin as [->|[->|Hin']%elem_of_cons]; auto.
    apply Hmax. by right.
Qed.

Lemma find_first_spec {A} (f : A → bool) l a : find_first f l = Some a → a ∈ l ∧ f a = true.
Proof.
  unfold find_first. intros Hh.
  assert (a ∈ filter (λ a, f a = true) l) as Hin.
  { destruct (filter (λ a, f a = true) l); [done|]. injection Hh as ->. left. }
  apply list_elem_of_filter in Hin as [? ?]. done.
Qed.

Lemma promotes_spec p silent answered :
  promotes p silent answered = true →
  ∃ me, me ∈ answered ∧ sg_process (standing me) = p ∧ sg_copying (standing me) = false ∧
    (∃ best, best ∈ answered ∧ sg_copying (standing best) = false ∧ place best = place me ∧
      ∀ a, a ∈ answered → sg_copying (standing a) = false → outranked a best) ∧
    (silent = true ∨ ∀ q, q < place me → ∃ a, a ∈ answered ∧ place a = q).
Proof.
  unfold promotes. destruct (find_first _ answered) as [me|] eqn:Ef; [|done].
  apply find_first_spec in Ef as [Hin Hp%bool_decide_eq_true].
  destruct (sg_copying (standing me)) eqn:Ec; [done|].
  case_bool_decide as Hbest; [|done]. intros Hlast.
  exists me. split; [done|]. split; [done|]. split; [done|]. split.
  - destruct (max_by compared _) as [best|] eqn:Eb; [|done]. injection Hbest as Hpl.
    apply max_by_spec in Eb as [[Hcb Hinb]%list_elem_of_filter Hmax].
    exists best. split; [done|]. split; [done|]. split; [done|].
    intros a Ha Hca. apply Hmax. by apply list_elem_of_filter.
  - apply orb_true_iff in Hlast as [Hall|]; [right|by left]. intros q Hq.
    rewrite forallb_forall in Hall. specialize (Hall q (proj2 (in_seq (place me) 0 q) ltac:(lia))).
    apply existsb_exists in Hall as (a & Ha & Eq%Nat.eqb_eq). exists a. split; [|done].
    by apply list_elem_of_In.
Qed.

(** ** Epochs *)

Lemma heard_epoch `{Secret} {HD : Handing} {E} `{Engine E} (s : Following E) n :
  uval (epoch (heard s n)) = N.max (uval (epoch s)) (uval n).
Proof.
  unfold heard. destruct (N.ltb_spec (uval (epoch s)) (uval n)); [|lia].
  destruct (write _ _ _); cbn; lia.
Qed.

Lemma latest_spec answered a :
  a ∈ answered →
  (uval (sg_epoch (standing a)) ≤ uval (foldr (λ a, umaxof (sg_epoch (standing a))) (wrap 0) answered))%N.
Proof.
  induction answered as [|b answered IH]; [by intros ?%elem_of_nil|].
  cbn [foldr]. rewrite uval_umaxof. intros [->|Hin]%elem_of_cons; [lia|]. specialize (IH Hin). lia.
Qed.

Lemma latest_room answered (own_ : u64) :
  (∀ a, a ∈ answered → (uval (sg_epoch (standing a)) + 1 < bound 8)%N) →
  (uval own_ + 1 < bound 8)%N →
  (uval (umaxof (foldr (λ a, umaxof (sg_epoch (standing a))) (wrap 0) answered) own_) + 1 < bound 8)%N.
Proof.
  intros Ha Ho. rewrite uval_umaxof.
  assert (uval (foldr (λ a, umaxof (sg_epoch (standing a))) (wrap 0) answered) + 1 < bound 8)%N; [|lia].
  clear Ho own_. induction answered as [|a answered IH]; [by vm_compute|].
  cbn [foldr]. rewrite uval_umaxof.
  pose proof (Ha a ltac:(left)). assert (∀ b, b ∈ answered → (uval (sg_epoch (standing b)) + 1 < bound 8)%N) as Hb
    by (intros; apply Ha; by right).
  specialize (IH Hb). lia.
Qed.

Section epochs.
Context `{Secret} {HD : Handing} {E : Type} `{EngineOk E}.

Lemma opening_epoch keys_ kek h now e :
  kept_by (E := E) (λ s, epoch s = e) (opened_as_primary keys_ kek h now).
Proof.
  intros s Hs. unfold opened_as_primary. destruct (is_copying (node s)); [done|].
  assert (∀ d, kept_by (λ s : Following E, epoch s = e) (open_database keys_ kek d)) as Ho.
  { intros d s1 Hs1. unfold open_database. by destruct (open _ _ _ _). }
  assert (∀ d k, kept_by (λ s : Following E, epoch s = e) (reach_database now d k)) as Hr.
  { intros d k s1 Hs1. unfold reach_database. by destruct (reached _ _ _ _) as [[st v]|]. }
  refine (kept_bind (λ s : Following E, epoch s = e) _ _ _ _ s Hs).
  { case_bool_decide; [by apply kept_update|by intros s1]. }
  clear s Hs. intros _. apply kept_bind.
  { apply kept_in_turn. intros d _ s Hs. unfold on. by destruct (remove _ _). }
  intros _. do 3 (apply kept_bind; [apply Ho|intros ?]).
  do 3 (apply kept_bind; [apply Hr|intros _]). by intros s.
Qed.
End epochs.

(** What one of a node's databases opens to, over the engine it kept. *)
Lemma open_database_spec `{SO : SecretOk} {E : Type} `{EngineOk E} keys_ kek d (s s' : Following E) ks :
  open_database keys_ kek d s = (s', Ok ks) →
  ∃ st, open (CopiedBy (at_db (engines (node s)) d) d (node_copies (node s))) keys_ kek (randomness s) = Ok st ∧
    ks = (record st, lookup st) ∧
    contents (at_db (engines (node s')) d) = contents (store_engine st).
Proof.
  unfold open_database. destruct open as [st|] eqn:E0; [|done]. intros [= <- <-].
  exists st. split; [done|]. split; [done|]. cbn. by rewrite of_put_same.
Qed.

(** A store opened over what another kept but for a store's own keys, the data
    key the same, stands for what the other stood for. *)
Lemma opened_over_what_was_kept `{SO : SecretOk} {E1 E2 : Type} `{EngineOk E1, EngineOk E2}
    (p : EncryptedStore E1) (e : E2) R I keys_ kek w k keys' kek' w' r st :
  (∀ k p, own (keyed_hash k p) = false) →
  store_repr p R I →
  contents (store_engine p) !! DATA_KEY = Some w → unwrap_key keys_ kek w = inl k →
  derive k RECORD_PURPOSE = inl (record p) → derive k LOOKUP_PURPOSE = inl (lookup p) →
  public (contents e) = public (contents (store_engine p)) →
  contents e !! DATA_KEY = Some w' → unwrap_key keys' kek' w' = inl k →
  open e keys' kek' r = Ok st →
  store_repr st R I.
Proof.
  intros Hown HR Hw Hu Hrec Hlook Hpub Hw' Hu' (w2 & k2 & Hw2 & Hu2 & Hrec2 & Hlook2 & Hsame & _)%open_spec.
  rewrite Hsame in Hw2 by by eexists. rewrite Hw' in Hw2. injection Hw2 as <-.
  rewrite Hu' in Hu2. injection Hu2 as <-.
  unfold store_repr. rewrite Hsame by by eexists.
  assert (record st = record p) as -> by congruence.
  assert (lookup st = lookup p) as -> by congruence.
  assert (∀ j, own j = false → contents e !! j = contents (store_engine p) !! j) as Hj.
  { intros j Hj. pose proof (f_equal (base.lookup j) Hpub) as Hl. rewrite !lookup_public, Hj in Hl. exact Hl. }
  destruct HR as [H1' H2' H3' H4']. split.
  - intros kind key v Hk Hv. rewrite Hj by apply Hown. by apply H1'.
  - intros kind key Hk Hv. rewrite Hj by apply Hown. by apply H2'.
  - intros j id Hid. rewrite Hj by done. by apply H3'.
  - intros j c Hc. rewrite Hj in Hc by done. by apply H4'.
Qed.

Module FindingTheorems.

(** C22. Nodes that were answered the same promote one of themselves at
    most, and that one holds the most: it is not copying, no node that is
    whole is of a later epoch, or of its epoch and holding more writes of the
    three databases together, and of those that hold as much it is the first
    listed; each one listed before it
    answered, or no primary was heard for as long as a standby waits. *)
Theorem one_promoted p p' silent silent' answered :
  NoDup (place <$> answered) →
  promotes p silent answered = true →
  (promotes p' silent' answered = true → p' = p) ∧
  ∃ me, me ∈ answered ∧ sg_process (standing me) = p ∧ sg_copying (standing me) = false ∧
    (∀ a, a ∈ answered → sg_copying (standing a) = false → outranked a me) ∧
    (silent = true ∨ ∀ q, q < place me → ∃ a, a ∈ answered ∧ place a = q).
Proof.
  intros Hnd (me & Hme & Hp & Hc & (best & Hb & Hcb & Hpl & Hmax) & Hl)%promotes_spec.
  assert (∀ a b, a ∈ answered → b ∈ answered → place a = place b → a = b) as Hinj.
  { intros a b [i Hi]%list_elem_of_lookup [j Hj]%list_elem_of_lookup Hab.
    assert (i = j) as ->; [|congruence].
    eapply NoDup_lookup; [exact Hnd|rewrite list_lookup_fmap, Hi; done|].
    rewrite list_lookup_fmap, Hj. cbn. by rewrite Hab. }
  assert (best = me) as -> by by apply Hinj.
  split; [|by exists me].
  intros (me' & Hme' & Hp' & Hc' & (best' & Hb' & Hcb' & Hpl' & Hmax') & _)%promotes_spec.
  assert (best' = me') as -> by by apply Hinj.
  assert (me' = me) as ->; [|congruence]. apply Hinj; [done..|].
  pose proof (Hmax me' Hme' Hc') as H1. pose proof (Hmax' me Hme Hc) as H2.
  unfold outranked in H1, H2. lia.
Qed.

Section theorems.
Context `{Secret} {HD : Handing} {E : Type} `{EngineOk E}.

(** A primary is of a later epoch than any it was answered. A node
    that decides to be promoted takes an epoch past every one answered and
    its own, it takes up no earlier one than it met, and a primary of it that
    is not stopping makes every primary answered with an earlier one step
    down. *)
Theorem promoted_past_every_epoch (n n' : StorageNode E) silent answered epoch_ keys_ kek h now :
  decided n silent answered = Promotes epoch_ →
  (∀ a, a ∈ answered → (uval (sg_epoch (standing a)) + 1 < bound 8)%N) →
  (uval (epoch (following n)) + 1 < bound 8)%N →
  promote keys_ kek h now n epoch_ = (n', Ok tt) →
  epoch (following n') = epoch_ ∧
  (uval (epoch (following n)) < uval epoch_)%N ∧
  (∀ a, a ∈ answered → (uval (sg_epoch (standing a)) < uval epoch_)%N) ∧
  ∀ (other : StorageNode E) heard_from, process other ≠ process n' → stopping n' = false →
    (uval (epoch (following other)) < uval epoch_)%N →
    (∃ a, a ∈ heard_from ∧ standing a = standing_of n') →
    steps_down other heard_from = true.
Proof.
  intros Hd Hr Hr' Hp. unfold decided in Hd. destruct (find_first _ answered); [done|].
  destruct (promotes _ _ _); [|done].
  set (latest := foldr (λ a, umaxof (sg_epoch (standing a))) (wrap 0) answered) in Hd.
  pose proof (latest_room answered (epoch (following n)) Hr Hr') as Hroom. fold latest in Hroom.
  assert (uval epoch_ = uval (umaxof latest (epoch (following n))) + 1)%N as Ee.
  { injection Hd as <-. by apply uval_wadd. }
  rewrite uval_umaxof in Ee.
  assert (uval (epoch (following n)) < uval epoch_)%N as Hown by lia.
  assert (∀ a, a ∈ answered → (uval (sg_epoch (standing a)) < uval epoch_)%N) as Hall.
  { intros a Ha. pose proof (latest_spec answered a Ha). fold latest in H2. lia. }
  unfold promote in Hp. pose proof (opening_epoch keys_ kek h now (epoch (following n)) (following n) eq_refl) as Hk.
  destruct (opened_as_primary _ _ _ _ _) as [s [ks|]]; [|done]. cbn [fst] in Hk.
  injection Hp as <-. unfold take_up. cbn [following process stopping].
  assert (epoch (heard s epoch_) = epoch_) as Eh.
  { apply uint_eq. rewrite heard_epoch, Hk. lia. }
  split; [done|]. split; [done|]. split; [done|].
  intros other heard_from Hne Hst Hlt (a & Ha & Hsa). unfold steps_down.
  apply existsb_exists. exists a. split; [by apply list_elem_of_In|].
  rewrite Hsa. unfold standing_of. cbn [sg_primary sg_process sg_epoch role process stopping following].
  cbn [stopping] in Hst. rewrite Hst, Eh. cbn [negb andb]. rewrite bool_decide_eq_true_2 by by apply not_eq_sym.
  cbn [andb]. by apply N.ltb_lt.
Qed.

(** A standby copied whole forgets the epoch it met. The wipe of a
    whole copy takes the epoch the node kept, and it is not kept again where
    the primary's is no later than the one the node is in - which it took up
    before it asked. Started again, the node is in no epoch. *)
Theorem epoch_forgotten keys_ kek (s s' s1 : Following E) h e keys u :
  (∀ d, can_be_wiped s d) →
  (uval e ≤ uval (epoch s))%N →
  frame_taken keys_ kek (Whole h e keys) s = (s', Ok u) →
  reopened s' = Ok s1 →
  epoch s' = epoch s ∧ epoch s1 = wrap 0.
Proof.
  intros Hcan He Ht Hr. apply whole_frame in Ht as (sc & -> & Ee & Hw); [|done].
  assert (heard sc e = sc) as Eh.
  { unfold heard. rewrite Ee. by rewrite (proj2 (N.ltb_ge _ _) He). }
  rewrite Eh in *. split; [exact Ee|].
  unfold reopened, opened_node in Hr.
  apply bind_Ok in Hr as ([n e1] & Hn & Hs1).
  apply bind_Ok in Hn as (ps & _ & Hn). destruct (histories ps) as [hi nx].
  apply bind_Ok in Hn as (o & Ho%read_spec & Hn).
  destruct (Hw Runtime) as [Hnone _].
  change (o = engine_at sc Runtime !! EPOCH) in Ho. rewrite Hnone in Ho by done. subst o.
  assert (e1 = wrap 0) as -> by by injection Hn.
  by injection Hs1 as <-.
Qed.
End theorems.

(** C24. A standby promoted over what its primary held opens to the same
    records. Where the standby's database holds what its primary's did, but
    for a store's own keys, and keeps the same data key under its own node's
    key-encryption key, what its promotion opens over it - numbered and kept
    for standbys of its own - stands for the records and index entries the
    primary's store stood for: whatever is read through it is what the primary
    would have read. A keyed hash is taken to be no key of a store's own. *)
Theorem promoted_reads_as_its_primary `{SO : SecretOk} {E1 E2 : Type} `{EngineOk E1, EngineOk E2}
    (p : EncryptedStore E1) R I keys_ kek w k keys' kek' w' d (s s' : Following E2) ks r :
  (∀ k p, own (keyed_hash k p) = false) →
  store_repr p R I →
  contents (store_engine p) !! DATA_KEY = Some w → unwrap_key keys_ kek w = inl k →
  derive k RECORD_PURPOSE = inl (record p) → derive k LOOKUP_PURPOSE = inl (lookup p) →
  public (contents (at_db (engines (node s)) d)) = public (contents (store_engine p)) →
  contents (at_db (engines (node s)) d) !! DATA_KEY = Some w' → unwrap_key keys' kek' w' = inl k →
  open_database keys' kek' d s = (s', Ok ks) →
  let st := Store (CopiedBy (at_db (engines (node s')) d) d (node_copies (node s'))) ks.1 ks.2 r in
  store_repr st R I ∧
  (∀ kind key o, kind_ok kind → get st kind key = Ok o → o = R !! (kind, key)) ∧
  (∀ first last most reverse l, Encrypted.scan_index_keyed st first last most reverse = Ok l →
    l = ranged I first last most reverse).
Proof.
  intros Hown HR Hw Hu Hrec Hlook Hpub Hw' Hu' (st0 & Ho & -> & Hc)%open_database_spec st.
  assert (store_repr st R I) as Hst.
  { pose proof (opened_over_what_was_kept p
      (CopiedBy (at_db (engines (node s)) d) d (node_copies (node s))) R I keys_ kek w k keys' kek' w' _ st0 Hown HR Hw Hu Hrec Hlook Hpub Hw' Hu' Ho) as Hst0.
    unfold store_repr, st in *. cbn [record lookup store_engine fst snd] in *.
    change (represents (record st0) (lookup st0) (contents (at_db (engines (node s')) d)) R I).
    by rewrite Hc. }
  split; [done|]. split.
  - intros kind key o Hk Hg. by eapply (rs_get_spec (S := EncryptedStore (Copied E2))).
  - intros first last most reverse l Hs. by eapply (rs_scan_spec (S := EncryptedStore (Copied E2))).
Qed.

#[local] Existing Instances Glass.secret Glass.secret_ok FollowTheorems.glass_handing
  FollowTheorems.glass_handing_ok.

(** Three nodes: the first is copying, the second holds more than the third. *)
Definition answer_of (p : N) (at_ : nat) (next_ : N) (copying_ : bool) : Answered :=
  {| place := at_; address := "host:4440";
     standing := {| sg_process := wrap p; sg_primary := false; sg_epoch := wrap 4; sg_history := wrap 9;
       sg_next := Each (wrap next_) (wrap 1) (wrap 1); sg_copying := copying_ |} |}.
Definition three_answers : list Answered :=
  [answer_of 21 0 9 true; answer_of 22 1 7 false; answer_of 23 2 5 false].

Lemma one_promoted_witness :
  promotes (wrap 22) false three_answers = true ∧
  (promotes (wrap 23) true three_answers = true → (wrap 23 : u128) = wrap 22) ∧
  ∃ me, me ∈ three_answers ∧ sg_process (standing me) = wrap 22 ∧ sg_copying (standing me) = false ∧
    (∀ a, a ∈ three_answers → sg_copying (standing a) = false → outranked a me) ∧
    (false = true ∨ ∀ q, q < place me → ∃ a, a ∈ three_answers ∧ place a = q).
Proof.
  assert (promotes (wrap 22) false three_answers = true) as Hp by (vm_compute; reflexivity).
  split; [exact Hp|].
  apply (one_promoted (wrap 22) (wrap 23) false true three_answers).
  - apply (bool_decide_unpack _). vm_compute. exact I.
  - exact Hp.
Defined.

(** The node of process 22, promoted over the databases of an earlier one. *)
Definition node_22 : StorageNode Memory.Memory :=
  {| process := wrap 22; role := Finding; stopping := false;
     following := {| node := NodeOf (all_of (Memory.Build_Memory ∅)) (new (wrap 9) (Each (wrap 7) (wrap 1) (wrap 1)) 100);
       epoch := wrap 4; dirty := all_of false; whole := None; randomness := λ i, i |} |}.
Definition node_promoted : StorageNode Memory.Memory * result unit :=
  promote (H := Glass.secret) tt tt (wrap 77) (wrap 1000) node_22 (wrap 5).

Lemma promoted_past_every_epoch_witness :
  decided node_22 false three_answers = Promotes (wrap 5) ∧
  epoch (following node_promoted.1) = wrap 5 ∧
  (uval (epoch (following node_22)) < uval (wrap (n:=8) 5))%N ∧
  (∀ a, a ∈ three_answers → (uval (sg_epoch (standing a)) < uval (wrap (n:=8) 5))%N) ∧
  ∀ (other : StorageNode Memory.Memory) heard_from, process other ≠ process node_promoted.1 →
    stopping node_promoted.1 = false →
    (uval (epoch (following other)) < uval (wrap (n:=8) 5))%N →
    (∃ a, a ∈ heard_from ∧ standing a = standing_of node_promoted.1) →
    steps_down other heard_from = true.
Proof.
  assert (decided node_22 false three_answers = Promotes (wrap 5)) as Hd by (vm_compute; reflexivity).
  split; [exact Hd|].
  apply (promoted_past_every_epoch (H := Glass.secret) node_22 node_promoted.1 false three_answers (wrap 5) tt tt (wrap 77) (wrap 1000) Hd).
  - apply Forall_forall. apply (bool_decide_unpack _). vm_compute. exact I.
  - vm_compute. reflexivity.
  - assert (Hx : promote (H := Glass.secret) tt tt (wrap 77) (wrap 1000) node_22 (wrap 5) = node_promoted)
      by (unfold node_promoted; reflexivity).
    rewrite Hx. assert (node_promoted.2 = Ok tt) as <- by (vm_compute; reflexivity).
    apply surjective_pairing.
Defined.

(** A standby in epoch 2 takes the first frame of a whole copy, of epoch 2. *)
Definition forgetful : Following Memory.Memory * result unit :=
  frame_taken (H := Glass.secret) tt tt (Whole (wrap 9) (wrap 2) [[x05]; [x06]; [x07]]) WholeTheorems.sample_standby.
Definition forgetful_again : Following Memory.Memory :=
  match reopened forgetful.1 with Ok s => s | Err _ => forgetful.1 end.

Lemma epoch_forgotten_witness :
  epoch forgetful.1 = wrap 2 ∧ epoch forgetful_again = wrap 0.
Proof.
  apply (epoch_forgotten (H := Glass.secret) tt tt WholeTheorems.sample_standby forgetful.1 forgetful_again (wrap 9) (wrap 2)
    [[x05]; [x06]; [x07]] tt WholeTheorems.sample_can_be_wiped).
  - vm_compute. discriminate.
  - assert (Hx : frame_taken (H := Glass.secret) tt tt (Whole (wrap 9) (wrap 2) [[x05]; [x06]; [x07]]) WholeTheorems.sample_standby = forgetful)
      by (unfold forgetful; reflexivity).
    rewrite Hx. assert (forgetful.2 = Ok tt) as <- by (vm_compute; reflexivity).
    apply surjective_pairing.
  - assert (is_ok (reopened forgetful.1) = true) as Hok by (vm_compute; reflexivity).
    unfold forgetful_again. destruct (reopened forgetful.1); [reflexivity|discriminate Hok].
Defined.

(** A standby whose runtime database holds the worked example of the encrypted
    store. *)
Definition example_standby_holds : Following Memory.Memory :=
  {| node := NodeOf (put_at Runtime (store_engine EncryptedTheorems.kept) (all_of (Memory.Build_Memory ∅)))
       (new (wrap 9) (all_of (wrap 1)) 100);
     epoch := wrap 4; dirty := all_of false; whole := None; randomness := λ i, 50 + i |}.
Definition example_opens : Following Memory.Memory * result (DataKey * DataKey) :=
  open_database (H := Glass.secret) tt tt Runtime example_standby_holds.

Lemma promoted_reads_as_its_primary_witness :
  is_ok example_opens.2 = true ∧
  ∀ s' ks, example_opens = (s', Ok ks) →
    let st := Store (CopiedBy (at_db (engines (node s')) Runtime) Runtime (node_copies (node s'))) ks.1 ks.2 (λ i, i) in
    store_repr st (recorded ∅ EncryptedTheorems.kept_changes) (changed ∅ EncryptedTheorems.kept_entries) ∧
    (∀ kind key o, kind_ok kind → get st kind key = Ok o →
      o = recorded ∅ EncryptedTheorems.kept_changes !! (kind, key)) ∧
    (∀ first last most reverse l, Encrypted.scan_index_keyed st first last most reverse = Ok l →
      l = ranged (changed ∅ EncryptedTheorems.kept_entries) first last most reverse).
Proof.
  split; [vm_compute; reflexivity|]. intros s' ks Hs.
  assert (store_repr EncryptedTheorems.kept (recorded ∅ EncryptedTheorems.kept_changes)
    (changed ∅ EncryptedTheorems.kept_entries)) as HR.
  { refine (rs_apply_indexed_spec (S := EncryptedStore Memory.Memory) EncryptedTheorems.fresh ∅ ∅
      EncryptedTheorems.kept_changes EncryptedTheorems.kept_entries EncryptedTheorems.kept _ _ _).
    - exact EncryptedTheorems.fresh_repr.
    - apply (bool_decide_unpack _). by vm_compute.
    - apply EncryptedTheorems.or_none_ok. by vm_compute. }
  pose (k := default [] (contents (store_engine EncryptedTheorems.kept) !! DATA_KEY)).
  apply (promoted_reads_as_its_primary (S0 := Glass.secret) EncryptedTheorems.kept _ _ tt tt k k tt tt k
    Runtime example_standby_holds s' ks (λ i, i)).
  - intros k' p'. reflexivity.
  - exact HR.
  - vm_compute. reflexivity.
  - reflexivity.
  - vm_compute. reflexivity.
  - vm_compute. reflexivity.
  - reflexivity.
  - vm_compute. reflexivity.
  - reflexivity.
  - exact Hs.
Defined.
End FindingTheorems.
