(* ===== verification/Lending.v ===== *)
(** * A primary's databases lent, and a primary stopped in order
    (src/.src/storage/standby/served.rs, standby.rs, ship.rs)

    The threads of a Storage node that is the primary, one step of one of them
    at a time: an operation counts itself, looks whether the node is stopping
    and whether it is the primary, uses the databases it was lent, counts
    itself out and, the last one of a node stopping, wakes the stop ([lent] and
    [Drop for Lending]); the stop marks the node stopping, waits under the lock
    for every operation lent or its deadline, and marks the node drained
    ([StorageNode::stop]); a connection to a standby looks whether the node is
    drained, hands on what it finds of each database, and ends when it found
    nothing after it looked ([StorageNode::shipping]). What is written is the
    number of each database's writes; what is handed on is modelled whole in
    Follow and Link. *)

From S2P Require Import Prelude Copies.

(** ** The threads *)

(** Where an operation is. [Counted] has added itself to [lent]; [Unstopped] saw
    the node not stopping; [Lent] has the databases; [GivesBack] drops its loan;
    [LastOut] found itself the last and looks whether the node is stopping;
    [Wakes] takes the lock to notify; [Done] is over. *)
Inductive Phase : Set := Counted | Unstopped | Lent | GivesBack | LastOut | Wakes | Done.

(** Where the stop is. [Marked] has stored [stopping]; [Holds] has the lock, at
    the head of its loop; [WillWait] found operations lent, still with the lock;
    [Waits] waits for a notification, [Woken] had one, or its time passed, and
    takes the lock again; [Stopped] has marked the node drained. *)
Inductive Stop : Set := Running | Marked | Holds | WillWait | Waits | Woken | Stopped.

(** Where a connection to a standby is. [Looks] is at the head of its loop; [Saw]
    has looked whether to stop; [Hands] reads the databases left, [handed]
    telling whether it handed anything on; [Ended] returned in order,
    [Declined] did not. *)
Inductive Ship : Set :=
  | Away
  | Looks
  | Saw (stopping : bool)
  | Hands (stopping : bool) (left : list Database) (handed : bool)
  | Ended
  | Declined.

#[export] Instance Phase_eq_dec : EqDecision Phase.
Proof. solve_decision. Defined.
#[export] Instance Stop_eq_dec : EqDecision Stop.
Proof. solve_decision. Defined.

Record Node : Type := {
  ops : list Phase;
  lent : nat;
  stopping : bool;
  drained : bool;
  (** The deadline passed with operations still lent. *)
  late : bool;
  stop : Stop;
  is_primary : bool;
  writes : each nat;
  ship : Ship;
  next : each nat;
  (** The server's own stop, which ends a connection too. *)
  server_stops : bool;
}.

(** ** What a step leaves *)

Definition with_op (i : nat) (p : Phase) (lent' : nat) (n : Node) : Node :=
  {| ops := <[i := p]> (ops n); lent := lent'; stopping := stopping n; drained := drained n;
     late := late n; stop := stop n; is_primary := is_primary n; writes := writes n;
     ship := ship n; next := next n; server_stops := server_stops n |}.
Definition with_stop (s : Stop) (n : Node) : Node :=
  {| ops := ops n; lent := lent n; stopping := stopping n; drained := drained n;
     late := late n; stop := s; is_primary := is_primary n; writes := writes n;
     ship := ship n; next := next n; server_stops := server_stops n |}.
Definition with_ship (s : Ship) (next' : each nat) (n : Node) : Node :=
  {| ops := ops n; lent := lent n; stopping := stopping n; drained := drained n;
     late := late n; stop := stop n; is_primary := is_primary n; writes := writes n;
     ship := s; next := next'; server_stops := server_stops n |}.

(** [lent]'s [fetch_add], of an operation that begins. *)
Definition begun (n : Node) : Node :=
  {| ops := ops n ++ [Counted]; lent := S (lent n); stopping := stopping n; drained := drained n;
     late := late n; stop := stop n; is_primary := is_primary n; writes := writes n;
     ship := ship n; next := next n; server_stops := server_stops n |}.

(** What [lent] does next: refused, its loan dropped, where the node is stopping;
    then where it is not the primary. *)
Definition looked (i : nat) (n : Node) : Node :=
  with_op i (if stopping n then GivesBack else Unstopped) (lent n) n.
Definition given (i : nat) (n : Node) : Node :=
  with_op i (if is_primary n then Lent else GivesBack) (lent n) n.

(** A write of an operation with the databases. *)
Definition wrote (d : Database) (n : Node) : Node :=
  {| ops := ops n; lent := lent n; stopping := stopping n; drained := drained n;
     late := late n; stop := stop n; is_primary := is_primary n;
     writes := put_at d (S (at_db (writes n) d)) (writes n);
     ship := ship n; next := next n; server_stops := server_stops n |}.

(** [Drop for Lending]: [fetch_sub], which answers what was there; the last one
    looks whether the node is stopping, and notifies under the lock. *)
Definition gave_back (i : nat) (n : Node) : Node :=
  with_op i (if decide (lent n = 1) then LastOut else Done) (lent n - 1) n.
Definition last_out (i : nat) (n : Node) : Node :=
  with_op i (if stopping n then Wakes else Done) (lent n) n.
(** Whether the stop has the lock: nobody else holds it for more than a step. *)
Definition locked (n : Node) : bool :=
  match stop n with Holds | WillWait => true | _ => false end.
Definition notified (n : Node) : Node :=
  with_stop (match stop n with Waits => Woken | s => s end) n.

(** [stop]. *)
Definition marked (n : Node) : Node :=
  {| ops := ops n; lent := lent n; stopping := true; drained := drained n;
     late := late n; stop := Marked; is_primary := is_primary n; writes := writes n;
     ship := ship n; next := next n; server_stops := server_stops n |}.
Definition drained_now (is_late : bool) (n : Node) : Node :=
  {| ops := ops n; lent := lent n; stopping := stopping n; drained := true;
     late := is_late; stop := Stopped; is_primary := is_primary n; writes := writes n;
     ship := ship n; next := next n; server_stops := server_stops n |}.

(** [take_up] of another role, and the server's stop. *)
Definition took_up (primary : bool) (n : Node) : Node :=
  {| ops := ops n; lent := lent n; stopping := stopping n; drained := drained n;
     late := late n; stop := stop n; is_primary := primary; writes := writes n;
     ship := ship n; next := next n; server_stops := server_stops n |}.
Definition server_stopped (n : Node) : Node :=
  {| ops := ops n; lent := lent n; stopping := stopping n; drained := drained n;
     late := late n; stop := stop n; is_primary := is_primary n; writes := writes n;
     ship := ship n; next := next n; server_stops := true |}.

(** The steps an operation and the stop take of themselves, to their ends. *)
Inductive progress : Node → Node → Prop :=
  | looks i n : ops n !! i = Some Counted → progress n (looked i n)
  | is_given i n : ops n !! i = Some Unstopped → progress n (given i n)
  | ends i n : ops n !! i = Some Lent → progress n (with_op i GivesBack (lent n) n)
  | gives_back i n : ops n !! i = Some GivesBack → progress n (gave_back i n)
  | goes_last i n : ops n !! i = Some LastOut → progress n (last_out i n)
  | wakes i n : ops n !! i = Some Wakes → locked n = false →
      progress n (with_op i Done (lent n) (notified n))
  | takes_lock n : stop n = Marked → progress n (with_stop Holds n)
  | finds_lent n : stop n = Holds → lent n ≠ 0 → progress n (with_stop WillWait n)
  | waits n : stop n = WillWait → progress n (with_stop Waits n)
  | takes_lock_again n : stop n = Woken → progress n (with_stop Holds n)
  | drains n : stop n = Holds → lent n = 0 → progress n (drained_now false n).

(** Every step of every thread. *)
Inductive step : Node → Node → Prop :=
  | progresses n n' : progress n n' → step n n'
  | begins n : step n (begun n)
  | writes_one i d n : ops n !! i = Some Lent → step n (wrote d n)
  | stops n : stop n = Running → step n (marked n)
  (** A wait ends of itself too; past the deadline the loop is left. *)
  | wait_ends n : stop n = Waits → step n (with_stop Woken n)
  | times_out n : stop n = Holds → lent n ≠ 0 → step n (drained_now true n)
  | takes_up primary n : step n (took_up primary n)
  | server_is_stopped n : step n (server_stopped n)
  (** A standby asks, from no further than what is written. *)
  | is_asked from n : ship n = Away → is_primary n = true →
      (∀ d, at_db from d ≤ at_db (writes n) d) → step n (with_ship Looks from n)
  | ship_looks n : ship n = Looks →
      step n (with_ship (Saw (drained n || server_stops n)) (next n) n)
  | ship_goes_on b n : ship n = Saw b →
      step n (with_ship (if is_primary n then Hands b DATABASES false else Declined) (next n) n)
  (** What is kept of a database past where the standby is, some of it at least. *)
  | ship_hands b d left h to n : ship n = Hands b (d :: left) h →
      at_db (next n) d < to ≤ at_db (writes n) d →
      step n (with_ship (Hands b left true) (put_at d to (next n)) n)
  | ship_finds_none b d left h n : ship n = Hands b (d :: left) h →
      at_db (writes n) d ≤ at_db (next n) d →
      step n (with_ship (Hands b left h) (next n) n)
  | ship_turns b h n : ship n = Hands b [] h →
      step n (with_ship (if b && negb h then Ended else Looks) (next n) n)
  (** The standby goes, or is too far behind. *)
  | ship_fails n : step n (with_ship Declined (next n) n).

(** A node as it starts: nothing lent, running. *)
Definition started (primary : bool) (w : each nat) : Node :=
  {| ops := []; lent := 0; stopping := false; drained := false; late := false; stop := Running;
     is_primary := primary; writes := w; ship := Away; next := w; server_stops := false |}.

(** ** Lemmas: counting *)

Definition counted (p : Phase) : nat :=
  match p with Counted | Unstopped | Lent | GivesBack => 1 | _ => 0 end.
(** How far an operation, and the stop, are from their ends. *)
Definition to_go (p : Phase) : nat :=
  match p with
  | Counted => 10 | Unstopped => 9 | Lent => 8 | GivesBack => 7 | LastOut => 6 | Wakes => 5 | Done => 0
  end.
Definition stop_to_go (s : Stop) : nat :=
  match s with
  | Marked | Woken => 4 | Holds => 3 | WillWait => 2 | Waits => 1 | Running | Stopped => 0
  end.
Definition left_to_go (n : Node) : nat := sum_list_with to_go (ops n) + stop_to_go (stop n).

Lemma sum_put (f : Phase → nat) (l : list Phase) (i : nat) (p q : Phase) : l !! i = Some p →
  sum_list_with f (<[i := q]> l) + f p = sum_list_with f l + f q.
Proof.
  revert i. induction l as [|x l IH]; intros [|i]; cbn; [done..|intros [= ->]; lia|].
  intros H. specialize (IH i H). unfold insert in *. lia.
Qed.
Lemma sum_least (f : Phase → nat) (l : list Phase) (i : nat) (p : Phase) : l !! i = Some p →
  f p ≤ sum_list_with f l.
Proof.
  revert i. induction l as [|x l IH]; intros [|i]; cbn; [done..|intros [= ->]; lia|].
  intros H. specialize (IH i H). lia.
Qed.
Lemma sum_some (f : Phase → nat) (l : list Phase) : sum_list_with f l ≠ 0 →
  ∃ i p, l !! i = Some p ∧ f p ≠ 0.
Proof.
  induction l as [|x l IH]; cbn; [done|]. intros H. destruct (decide (f x = 0)) as [E|E].
  - destruct IH as (i & p & Hi & Hp); [lia|]. by exists (S i), p.
  - by exists 0, x.
Qed.

(** ** What holds in every state the threads reach *)

(** An operation about to look whether to wake the stop, or about to. *)
Definition waking (p : Phase) : Prop := p = LastOut ∨ p = Wakes.
(** The databases read this turn without finding anything hold nothing past. *)
Definition up_to_date (n : Node) (left : list Database) : Prop :=
  ∀ d, d ∉ left → at_db (writes n) d ≤ at_db (next n) d.

Record wf (n : Node) : Prop := {
  wf_lent : lent n = sum_list_with counted (ops n);
  wf_running : stop n = Running → stopping n = false;
  wf_stopping : stop n ≠ Running → stopping n = true;
  wf_drained : drained n = true ↔ stop n = Stopped;
  wf_late : late n = true → drained n = true;
  wf_none_lent : drained n = true → late n = false →
    ∀ i p, ops n !! i = Some p → p ≠ Unstopped ∧ p ≠ Lent;
  wf_wakes : stop n = WillWait ∨ stop n = Waits → lent n ≠ 0 ∨ ∃ i p, ops n !! i = Some p ∧ waking p;
  wf_next : ∀ d, at_db (next n) d ≤ at_db (writes n) d;
  wf_ship : late n = false → server_stops n = false →
    match ship n with
    | Saw true => drained n = true
    | Hands true rest h => drained n = true ∧ (h = false → up_to_date n rest)
    | Ended => drained n = true ∧ up_to_date n []
    | _ => True
    end;
}.

Lemma started_wf (primary : bool) (w : each nat) : wf (started primary w).
Proof. split; cbn; try done; by intros [|]. Qed.

(** A step that moves one operation, the count with it. *)
Lemma with_op_wf (n : Node) (i l : nat) (p q : Phase) :
  wf n → ops n !! i = Some p → l + counted p = lent n + counted q →
  (drained n = true → late n = false → q ≠ Unstopped ∧ q ≠ Lent) →
  (stop n = WillWait ∨ stop n = Waits → waking p → waking q) →
  (l = 0 → lent n ≠ 0 → waking q) →
  wf (with_op i q l n).
Proof.
  intros [Hl Hr Hs Hd Hla Hn Hw Hx Hsh] Hi Hc Hq Hwk Hz. pose proof (lookup_lt_Some _ _ _ Hi) as Hlt.
  split; cbn [with_op ops lent stopping drained late stop is_primary writes ship next server_stops];
    try done.
  - pose proof (sum_put counted _ _ _ q Hi). lia.
  - intros Hdr Hna j p' Hj. destruct (decide (i = j)) as [->|Hne].
    + rewrite list_lookup_insert_eq in Hj by done. injection Hj as <-. by apply Hq.
    + rewrite list_lookup_insert_ne in Hj by done. by eapply Hn.
  - intros Hst. destruct (decide (l = 0)) as [->|Hne]; [|by left]. right.
    destruct (decide (lent n = 0)) as [E|E].
    + destruct (Hw Hst) as [?|(j & p' & Hj & Hp')]; [done|].
      destruct (decide (i = j)) as [->|Hij].
      * exists j, q. rewrite list_lookup_insert_eq by done. split; [done|]. apply Hwk; [done|].
        rewrite Hi in Hj. by injection Hj as ->.
      * exists j, p'. by rewrite list_lookup_insert_ne.
    + exists i, q. rewrite list_lookup_insert_eq by done. split; [done|]. by apply Hz.
Qed.

Lemma progress_wf (n n' : Node) : wf n → progress n n' → wf n'.
Proof.
  intros Hwf Hp. pose proof Hwf as [Hl Hr Hs Hd Hla Hn Hw Hx Hsh].
  destruct Hp as [i n Hi|i n Hi|i n Hi|i n Hi|i n Hi|i n Hi Hk|n Hst|n Hst Hz|n Hst|n Hst|n Hst Hz].
  - (* looks *) apply (with_op_wf n i (lent n) Counted); [done|done|by destruct (stopping n)|..].
    + intros Hdr _. apply Hd in Hdr. rewrite Hs by by rewrite Hdr. done.
    + by intros _ [|].
    + done.
  - (* is_given *) apply (with_op_wf n i (lent n) Unstopped); [done|done|by destruct (is_primary n)|..].
    + intros Hdr Hna. by destruct (Hn Hdr Hna i Unstopped Hi).
    + by intros _ [|].
    + done.
  - (* ends *) apply (with_op_wf n i (lent n) Lent); [done|done|done|done|by intros _ [|]|done].
  - (* gives back *)
    assert (1 ≤ lent n) as Hge by (rewrite Hl; apply (sum_least counted _ _ _ Hi)).
    apply (with_op_wf n i (lent n - 1) GivesBack); [done|done| |by case_decide|by intros _ [|]|].
    + case_decide; cbn; lia.
    + intros E _. rewrite decide_True by lia. by left.
  - (* goes last *) apply (with_op_wf n i (lent n) LastOut); [done|done|by destruct (stopping n)|..].
    + by destruct (stopping n).
    + intros [E|E] _; rewrite Hs by (by rewrite E); by right.
    + done.
  - (* wakes *) unfold notified. destruct (decide (stop n = Waits)) as [E|E].
    + rewrite E in *. split; cbn; try done.
      * pose proof (sum_put counted _ _ _ Done Hi). cbn in *. lia.
      * intros _. by apply Hs.
      * by rewrite Hd.
      * intros Hdr Hna j p' Hj. destruct (decide (i = j)) as [->|Hne].
        -- rewrite list_lookup_insert_eq in Hj by by eapply lookup_lt_Some. by injection Hj as <-.
        -- rewrite list_lookup_insert_ne in Hj by done. by eapply Hn.
      * by intros [|].
    + replace (with_stop _ n) with n by (destruct n as [? ? ? ? ? [] ? ? ? ? ?]; done).
      apply (with_op_wf n i (lent n) Wakes); [done|done|done|done| |done].
      intros [E'|E']; [|done]. unfold locked in Hk. by rewrite E' in Hk.
  - split; cbn; try done; [intros _; apply Hs; by rewrite Hst|rewrite Hd, Hst; done|by intros [|]].
  - split; cbn; try done; [intros _; apply Hs; by rewrite Hst|rewrite Hd, Hst; done|by left].
  - split; cbn; try done; [intros _; apply Hs; by rewrite Hst|rewrite Hd, Hst; done|].
    intros _. apply Hw. by left.
  - split; cbn; try done; [intros _; apply Hs; by rewrite Hst|rewrite Hd, Hst; done|by intros [|]].
  - assert (Hnd : drained n = false) by (apply not_true_is_false; rewrite Hd, Hst; done).
    split; cbn; try done.
    + intros _. apply Hs. by rewrite Hst.
    + intros _ _ i p Hi. pose proof (sum_least counted _ _ _ Hi) as Hle. rewrite <- Hl, Hz in Hle.
      destruct p; cbn in Hle; try lia; done.
    + by intros [|].
    + intros _ Hsrv.
      assert (late n = false) as Hlf by (apply not_true_is_false; intros E; by rewrite Hla in Hnd).
      specialize (Hsh Hlf Hsrv). rewrite Hnd in Hsh.
      destruct (ship n) as [| |[]|[] left h| |]; try done; by destruct Hsh.
Qed.

Lemma at_put {A} (d d' : Database) (a : A) (t : each A) :
  at_db (put_at d a t) d' = if decide (d = d') then a else at_db t d'.
Proof. by destruct d, d'. Qed.

(** A step that leaves the operations, the stop and what is marked as they are. *)
Lemma ship_wf (n : Node) (primary srv : bool) (w to : each nat) (s : Ship) : wf n →
  (∀ d, at_db to d ≤ at_db w d) →
  (late n = false → srv = false →
    match s with
    | Saw true => drained n = true
    | Hands true rest h => drained n = true ∧
        (h = false → ∀ d, d ∉ rest → at_db w d ≤ at_db to d)
    | Ended => drained n = true ∧ ∀ d, at_db w d ≤ at_db to d
    | _ => True
    end) →
  wf {| ops := ops n; lent := lent n; stopping := stopping n; drained := drained n;
        late := late n; stop := stop n; is_primary := primary; writes := w;
        ship := s; next := to; server_stops := srv |}.
Proof.
  intros [Hl Hr Hs Hd Hla Hn Hw Hx _] Hto Hsh. split; cbn; try done.
  intros H1 H2. specialize (Hsh H1 H2). destruct s as [| |[]|[] rest h| |]; try done.
  destruct Hsh as [? Hu]. split; [done|]. intros d _. apply Hu.
Qed.

Lemma step_wf (n n' : Node) : wf n → step n n' → wf n'.
Proof.
  intros Hwf Hp. pose proof Hwf as [Hl Hr Hs Hd Hla Hn Hw Hx Hsh].
  destruct Hp as [n n' Hp|n|i d n Hi|n Hst|n Hst|n Hst Hz|primary n|n|from n Hst Hpr Hfrom|n Hst
    |b n Hst|b d rest h to n Hst Hto|b d rest h n Hst Hno|b h n Hst|n].
  - by eapply progress_wf.
  - (* begins *) split; cbn; try done.
    + rewrite sum_list_with_app. cbn. lia.
    + intros Hdr Hna i p [Hi|[Hi Hp]]%lookup_app_Some; [by eapply Hn|].
      apply list_lookup_singleton_Some in Hp as [_ <-]. done.
    + intros Hst. by left.
  - (* writes *) apply ship_wf; [done| |].
    + intros d'. rewrite at_put. case_decide; [subst; specialize (Hx d'); lia|done].
    + intros Hna Hsv. specialize (Hsh Hna Hsv).
      assert (Hnd : drained n = true → False).
      { intros Hdr. by destruct (Hn Hdr Hna i Lent Hi). }
      destruct (ship n) as [| |[]|[] rest h| |]; try done; naive_solver.
  - (* stops *) split; cbn; try done; [by rewrite Hd, Hst|by intros [|]].
  - (* a wait ends *) split; cbn; try done; [intros _; apply Hs; by rewrite Hst|by rewrite Hd, Hst|].
    by intros [|].
  - (* times out *) split; cbn; try done; [intros _; apply Hs; by rewrite Hst|by intros [|]].
  - apply ship_wf; [done..|]. intros Hna Hsv. specialize (Hsh Hna Hsv).
    destruct (ship n) as [| |[]|[] rest h| |]; try done. destruct Hsh as [? Hu]. split; [done|].
    intros d. apply Hu, not_elem_of_nil.
  - apply ship_wf; [done..|]. by intros _ [=].
  - apply ship_wf; done.
  - apply ship_wf; [done..|]. cbn. intros _ ->. by destruct (drained n).
  - apply ship_wf; [done..|]. intros Hna Hsv. specialize (Hsh Hna Hsv). rewrite Hst in Hsh.
    destruct (is_primary n), b; try done. split; [done|]. intros _ d Hdn. exfalso. apply Hdn.
    unfold DATABASES. destruct d; set_solver.
  - apply ship_wf; [done| |].
    + intros d'. rewrite at_put. case_decide; [subst; lia|done].
    + intros Hna Hsv. specialize (Hsh Hna Hsv). rewrite Hst in Hsh. destruct b; [|done].
      split; [by destruct Hsh|done].
  - apply ship_wf; [done..|]. intros Hna Hsv. specialize (Hsh Hna Hsv). rewrite Hst in Hsh.
    destruct b; [|done]. destruct Hsh as [Hdr Hu]. split; [done|]. intros Hh d' Hd'.
    destruct (decide (d' = d)) as [->|Hne]; [done|]. apply Hu; [done|].
    by rewrite not_elem_of_cons.
  - apply ship_wf; [done..|]. intros Hna Hsv. specialize (Hsh Hna Hsv). rewrite Hst in Hsh.
    destruct b, h; cbn; try done. destruct Hsh as [Hdr Hu]. split; [done|]. intros d.
    apply Hu; [done|apply not_elem_of_nil].
  - apply ship_wf; done.
Qed.

Lemma reached_wf (n n' : Node) : wf n → rtc step n n' → wf n'.
Proof. intros Hn Hs. induction Hs as [|x y z Hxy _ IH]; [done|]. by apply IH, (step_wf x). Qed.

(** Once stopped in order, nothing is lent and nothing written. *)
Definition in_order (n : Node) : Prop := drained n = true ∧ late n = false.

Lemma in_order_step (n n' : Node) : wf n → in_order n → step n n' →
  in_order n' ∧ writes n' = writes n.
Proof.
  intros Hwf [Hdr Hna] Hp. pose proof (wf_none_lent n Hwf Hdr Hna) as Hn.
  assert (Hst : stop n = Stopped) by by apply (wf_drained n Hwf).
  destruct Hp as [n n' Hp|n|i d n Hi|n E|n E|n E ?|primary n|n|from n E ? ?|n E
    |b n E|b d rest h to n E ?|b d rest h n E ?|b h n E|n]; try by split.
  - destruct Hp as [i n Hi|i n Hi|i n Hi|i n Hi|i n Hi|i n Hi Hk|n E|n E ?|n E|n E|n E ?];
      first [by split | by rewrite Hst in E].
  - by destruct (Hn i Lent Hi).
  - by rewrite Hst in E.
Qed.

Lemma in_order_stays (n n' : Node) : wf n → in_order n → rtc step n n' →
  in_order n' ∧ writes n' = writes n.
Proof.
  intros Hn Ho Hs. induction Hs as [|x y z Hxy _ IH]; [done|].
  destruct (in_order_step x y Hn Ho Hxy) as [Hy Ey].
  destruct (IH (step_wf x y Hn Hxy) Hy) as [Hz Ez]. split; [done|]. by rewrite Ez.
Qed.

(** ** The stop ends *)

Lemma progress_less (n n' : Node) : wf n → progress n n' → left_to_go n' < left_to_go n.
Proof.
  intros Hwf Hp. unfold left_to_go.
  assert (Hput : ∀ i p q, ops n !! i = Some p → to_go q < to_go p →
    sum_list_with to_go (<[i := q]> (ops n)) + to_go p = sum_list_with to_go (ops n) + to_go q).
  { intros i p q Hi _. by apply sum_put. }
  destruct Hp as [i n Hi|i n Hi|i n Hi|i n Hi|i n Hi|i n Hi Hk|n E|n E Hz|n E|n E|n E Hz];
    cbn [with_op with_stop looked given gave_back last_out drained_now ops stop].
  - assert (to_go (if stopping n then GivesBack else Unstopped) < 10) by (destruct (stopping n); cbn; lia).
    pose proof (Hput i Counted _ Hi H). cbn [to_go] in *. lia.
  - assert (to_go (if is_primary n then Lent else GivesBack) < 9) by (destruct (is_primary n); cbn; lia).
    pose proof (Hput i Unstopped _ Hi H). cbn [to_go] in *. lia.
  - pose proof (Hput i Lent GivesBack Hi). cbn [to_go] in *. lia.
  - assert (to_go (if decide (lent n = 1) then LastOut else Done) < 7) by (case_decide; cbn; lia).
    pose proof (Hput i GivesBack _ Hi H). cbn [to_go] in *. lia.
  - assert (to_go (if stopping n then Wakes else Done) < 6) by (destruct (stopping n); cbn; lia).
    pose proof (Hput i LastOut _ Hi H). cbn [to_go] in *. lia.
  - pose proof (Hput i Wakes Done Hi) as Hw. cbn [to_go] in Hw. unfold notified, with_stop.
    cbn [ops stop]. destruct (stop n); cbn [stop_to_go]; lia.
  - rewrite E. cbn. lia.
  - rewrite E. cbn. lia.
  - rewrite E. cbn. lia.
  - rewrite E. cbn. lia.
  - rewrite E. cbn. lia.
Qed.

(** While a stop is under way something goes on: it, or an operation it waits
    for, and no wake-up is lost. *)
Lemma stop_goes_on (n : Node) : wf n → stopping n = true → stop n ≠ Stopped → ∃ n', progress n n'.
Proof.
  intros Hwf Hst Hne. destruct (stop n) eqn:E; [..|done].
  - by rewrite (wf_running n Hwf E) in Hst.
  - eexists. by apply takes_lock.
  - destruct (decide (lent n = 0)); eexists; [by apply drains|by apply finds_lent].
  - eexists. by apply waits.
  - assert (Hk : locked n = false) by (unfold locked; by rewrite E).
    destruct (wf_wakes n Hwf (or_intror E)) as [Hl|(i & p & Hi & [-> | ->])].
    + rewrite (wf_lent n Hwf) in Hl. apply sum_some in Hl as (i & p & Hi & Hp).
      destruct p; try done; eexists;
        [by eapply looks|by eapply is_given|by eapply ends|by eapply gives_back].
    + eexists. by eapply goes_last.
    + eexists. by eapply wakes.
  - eexists. by apply takes_lock_again.
Qed.

Lemma progress_not_late (n n' : Node) : wf n → progress n n' → stopping n = true → late n = false →
  stopping n' = true ∧ late n' = false.
Proof. intros _ []; intros; by split. Qed.

(** ** The theorems *)

Module LendingTheorems.

(** C25. A primary stopped in order - its stop ended within its time, the
    server's own stop not yet begun - has handed on everything: a connection
    that ended in order left its standby with every write of each database, and
    nothing is written after, whatever the threads do. *)
Theorem stopped_in_order_hands_on_everything (primary : bool) (w : each nat) (n n' : Node) :
  rtc step (started primary w) n → ship n = Ended → late n = false → server_stops n = false →
  rtc step n n' →
  writes n' = writes n ∧ ∀ d, at_db (next n) d = at_db (writes n') d.
Proof.
  intros Hs He Hna Hsv Hs'. pose proof (reached_wf _ _ (started_wf primary w) Hs) as Hwf.
  pose proof (wf_ship n Hwf Hna Hsv) as Hsh. rewrite He in Hsh. destruct Hsh as [Hdr Hu].
  destruct (in_order_stays n n' Hwf (conj Hdr Hna) Hs') as [_ Ew]. split; [done|]. intros d.
  rewrite Ew. pose proof (wf_next n Hwf d). specialize (Hu d (not_elem_of_nil _)). lia.
Qed.

(** A stop under way ends once the operations lent end: however the
    threads go on of themselves - no operation begun, no wait ended by itself -
    they come, within a number of steps known from the start, to where none can
    go on, and there the node is stopped in order and no operation has its
    databases. *)
Theorem stop_ends (primary : bool) (w : each nat) (n n' : Node) (k : nat) :
  rtc step (started primary w) n → stopping n = true → late n = false →
  nsteps progress k n n' →
  k ≤ left_to_go n ∧
  ((stop n' = Stopped ∧ late n' = false ∧ ∀ i, ops n' !! i ≠ Some Lent) ∨ ∃ m, progress n' m).
Proof.
  intros Hs Hst Hna Hk. pose proof (reached_wf _ _ (started_wf primary w) Hs) as Hwf.
  clear Hs. induction Hk as [n|k n m n' Hp Hk IH].
  - split; [lia|]. destruct (decide (stop n = Stopped)); [left|right; by apply stop_goes_on].
    split_and!; [done..|]. intros i Hi.
    by destruct (wf_none_lent n Hwf (proj2 (wf_drained n Hwf) ltac:(done)) Hna i Lent Hi).
  - destruct (progress_not_late n m Hwf Hp Hst Hna) as [Hst' Hna'].
    destruct IH as [Hle Hend]; [done|done|by eapply progress_wf|].
    pose proof (progress_less n m Hwf Hp). split; [lia|done].
Qed.

(** A primary that steps down does not wait for the operations it lent its
    databases to: one of them writes after it. *)
Theorem writes_after_stepping_down : ∃ n n',
  rtc step (started true (all_of 0)) n ∧ is_primary n = false ∧ step n n' ∧ writes n' ≠ writes n.
Proof.
  exists (took_up false (given 0 (looked 0 (begun (started true (all_of 0)))))).
  eexists. split_and!; [|done|by apply (writes_one 0 Runtime)|done].
  eapply rtc_l; [apply begins|]. eapply rtc_l; [apply progresses, (looks 0); done|].
  eapply rtc_l; [apply progresses, (is_given 0); done|]. eapply rtc_l; [apply takes_up|]. done.
Qed.

(** An operation lent, written, ended as the node stops; a standby handed its
    write. *)
Definition example_lent : Node :=
  marked (with_ship Looks (all_of 0) (wrote Administration (given 0 (looked 0
    (begun (started true (all_of 0))))))).
Definition example_waits : Node := with_stop Waits (with_stop WillWait (with_stop Holds example_lent)).
Definition example_woken : Node :=
  let n := last_out 0 (gave_back 0 (with_op 0 GivesBack 1 example_waits)) in
  with_op 0 Done (lent n) (notified n).
Definition example_stopped : Node := drained_now false (with_stop Holds example_woken).
Definition example_handed : each nat := put_at Administration 1 (all_of 0).
Definition example_ended : Node := with_ship Ended example_handed example_stopped.

Lemma example_lent_reached : rtc step (started true (all_of 0)) example_lent.
Proof.
  eapply rtc_l; [apply begins|]. eapply rtc_l; [apply progresses, (looks 0); done|].
  eapply rtc_l; [apply progresses, (is_given 0); done|].
  eapply rtc_l; [by apply (writes_one 0 Administration)|].
  eapply rtc_l; [apply (is_asked (all_of 0)); [done|done|intros []; cbn; lia]|].
  eapply rtc_l; [by apply stops|]. done.
Qed.
Lemma example_stopped_progress : nsteps progress 9 example_lent example_stopped.
Proof.
  eapply nsteps_l; [by apply takes_lock|]. eapply nsteps_l; [by apply finds_lent|].
  eapply nsteps_l; [by apply waits|]. eapply nsteps_l; [by apply (ends 0)|].
  eapply nsteps_l; [by apply (gives_back 0)|]. eapply nsteps_l; [by apply (goes_last 0)|].
  eapply nsteps_l; [by apply (wakes 0)|]. eapply nsteps_l; [by apply takes_lock_again|].
  eapply nsteps_l; [by apply drains|]. apply nsteps_O.
Qed.
Lemma example_ended_reached : rtc step example_stopped example_ended.
Proof.
  do 2 (eapply rtc_l; [by apply ship_looks|]; cbn; eapply rtc_l; [by eapply ship_goes_on|]; cbn;
    eapply rtc_l; [eapply ship_finds_none; [done|cbn; lia]|];
    eapply rtc_l; [first [eapply (ship_hands _ _ _ _ 1); [done|cbn; lia]|
                          eapply ship_finds_none; [done|cbn; lia]]|];
    eapply rtc_l; [eapply ship_finds_none; [done|cbn; lia]|];
    eapply rtc_l; [by eapply ship_turns|]; cbn).
  done.
Qed.

Lemma stopped_in_order_hands_on_everything_witness :
  ship example_ended = Ended ∧
  writes example_ended = put_at Administration 1 (all_of 0) ∧
  ∀ d, at_db (next example_ended) d = at_db (writes (begun example_ended)) d.
Proof.
  split; [done|]. split; [done|].
  apply (stopped_in_order_hands_on_everything true (all_of 0) example_ended (begun example_ended));
    [|done|done|done|apply rtc_once, begins].
  etrans; [apply example_lent_reached|]. etrans; [|apply example_ended_reached].
  assert (H : ∀ k a b, nsteps progress k a b → rtc step a b).
  { induction 1; [done|]. eapply rtc_l; [by apply progresses|done]. }
  eapply H, example_stopped_progress.
Defined.

Lemma stop_ends_witness :
  stop example_lent = Marked ∧
  9 ≤ left_to_go example_lent ∧
  ((stop example_stopped = Stopped ∧ late example_stopped = false ∧
    ∀ i, ops example_stopped !! i ≠ Some Lent) ∨ ∃ m, progress example_stopped m).
Proof.
  split; [done|]. apply (stop_ends true (all_of 0) example_lent example_stopped 9);
    [apply example_lent_reached|done|done|apply example_stopped_progress].
Defined.

End LendingTheorems.
