(* ===== verification/Stream.v ===== *)
(** * A Stream read back (src/.src/storage/stream.rs)

    [ChunkReader] reads a Stream's chunks in order, one held at a time, up to
    the first there is not, and holds what it read to the length the Stream's
    record keeps - and an audit record's copy to its digest. A chunk is taken
    whole ([next_chunk]) or a piece at a time ([read]).

    The sha2 crate is not in the repository: class [Sha256] is its hasher,
    [Sha256Ok] that bytes taken in one after another are the bytes together.
    What the reader asks is class [StreamReads], the reads of [XmipStorage] it
    uses; Xmip Storage may answer an error at any time.

    [whole_stream] is the reference: the bytes of the chunks together, or a
    refusal. The reader is proved equal to it however it is read. *)

From S2P Require Import Prelude Word Codec Facts Records.

(** ** The digest *)

Class Sha256 := {
  hasher : Type;
  hasher_default : hasher;
  hasher_update : hasher → bytes → hasher;
  hasher_finalize : hasher → bytes;
}.

Class Sha256Ok (S : Sha256) : Prop := {
  hasher_update_app h a b : hasher_update (hasher_update h a) b = hasher_update h (a ++ b);
  hasher_update_nil h : hasher_update h [] = h;
  hasher_finalize_length h : length (hasher_finalize h) = DIGEST;
}.

(** [StreamDigest]. *)
Definition StreamDigest `{Sha256} : Type := hasher.
Definition update `{Sha256} (d : StreamDigest) (b : bytes) : StreamDigest := hasher_update d b.
Definition finish `{Sha256} (d : StreamDigest) : bytes := hasher_finalize d.

(** [Sha256::digest]. *)
Definition digest_bytes `{Sha256} (b : bytes) : bytes := finish (update hasher_default b).

(** ** What is asked *)

Class StreamReads (St : Type) := {
  read_chunk : St → StreamId → u32 → result (option StreamChunk);
  read_kept_audit : St → AuditId → result (option KeptAudit);
  read_kept_audit_stream : St → AuditId → StreamId → result (option StreamRecord);
  read_kept_audit_chunk : St → AuditId → option StreamId → u32 → result (option bytes);
}.

(** ** The reader *)

(** Where a reader reads from. *)
Inductive Chunked : Set :=
  | InLedger (stream : StreamId)
  | InAudit (audit : AuditId) (stream : StreamId) (digest : bytes)
  | InAuditBody (audit : AuditId) (digest : bytes).

(** [io::ErrorKind], of which the reader answers two. *)
Inductive ErrorKind : Set := InvalidData | Other.

(** What a read that failed says: the error it came from, or in words that
    what was read is not the Stream. *)
Inductive Unread : Set :=
  | Cause (e : PersistError)
  | NotOfItsLength (from : Chunked) (read : u64) (chunks : u32) (length : u64)
  | NotOfItsDigest (from : Chunked) (digest said : bytes).

(** [io::Error]. *)
Record IoError : Set := { io_kind : ErrorKind; inner : Unread }.

(** [io::Result]. *)
Abbreviation io A := (A + IoError)%type.

Section reader.
Context `{Sha256} {St : Type} `{StreamReads St}.

(** [ChunkReader], but the storage it asks, which each operation is given as
    it stands then. *)
Record ChunkReader : Type := {
  from : Chunked;
  length_ : u64;
  next : u32;
  held : bytes;
  at_ : nat;
  read_ : u64;
  ended : bool;
  digest : option StreamDigest;
}.

(** [ChunkReader::asking]: a reader from the start. *)
Definition asking (from : Chunked) (length : u64) : ChunkReader :=
  {| from := from; length_ := length; next := wrap 0; held := []; at_ := 0; read_ := wrap 0;
     ended := false;
     digest := match from with InLedger _ => None | _ => Some hasher_default end |}.

(** [ChunkReader::shared_from]: the Ledger's Stream from its chunk [chunk]
    on, [before] bytes taken already. *)
Definition shared_from (stream : StreamId) (length : u64) (chunk : u32) (before : u64) :
    ChunkReader :=
  {| from := InLedger stream; length_ := length; next := chunk; held := []; at_ := 0;
     read_ := before; ended := false; digest := None |}.

(** [ChunkReader::audited]. *)
Definition audited (s : St) (audit : AuditId) (stream : StreamId) : result (option ChunkReader) :=
  match read_kept_audit_stream s audit stream with
  | Ok kept => Ok ((λ k, asking (InAudit audit stream (st_digest k)) (st_length k)) <$> kept)
  | Err e => Err e
  end.

(** [ChunkReader::audit_body]. *)
Definition audit_body (s : St) (audit : AuditId) : result (option ChunkReader) :=
  match read_kept_audit s audit with
  | Ok kept => Ok ((λ k, asking (InAuditBody audit (af_body_digest (ka_facts k)))
      (af_body_length (ka_facts k))) <$> kept)
  | Err e => Err e
  end.

(** [ChunkReader::chunk]: the chunk of number [n] of what [from] names. *)
Definition chunk (s : St) (from : Chunked) (n : u32) : result (option bytes) :=
  match from with
  | InLedger stream => match read_chunk s stream n with Ok o => Ok (ck_bytes <$> o) | Err e => Err e end
  | InAudit audit stream _ => read_kept_audit_chunk s audit (Some stream) n
  | InAuditBody audit _ => read_kept_audit_chunk s audit None n
  end.

(** [unread]. *)
Definition unread (e : PersistError) : IoError :=
  {| io_kind := match e with Refused _ _ | Record_ _ => InvalidData | _ => Other end;
     inner := Cause e |}.

Definition invalid (what : Unread) : IoError := {| io_kind := InvalidData; inner := what |}.

Definition with_ended (r : ChunkReader) (yes : bool) (d : option StreamDigest) : ChunkReader :=
  {| from := from r; length_ := length_ r; next := next r; held := held r; at_ := at_ r;
     read_ := read_ r; ended := yes; digest := d |}.

Definition with_held (r : ChunkReader) (b : bytes) (n : nat) : ChunkReader :=
  {| from := from r; length_ := length_ r; next := next r; held := b; at_ := n;
     read_ := read_ r; ended := ended r; digest := digest r |}.

(** [ChunkReader::end]. *)
Definition end_stream (r : ChunkReader) : ChunkReader * io unit :=
  if decide (read_ r = length_ r) then
    match from r with
    | InLedger _ => (with_ended r true (digest r), inl tt)
    | InAudit _ _ said | InAuditBody _ said =>
        let d := finish (default hasher_default (digest r)) in
        if decide (d = said) then (with_ended r true None, inl tt)
        else (with_ended r (ended r) None, inr (invalid (NotOfItsDigest (from r) d said)))
    end
  else (r, inr (invalid (NotOfItsLength (from r) (read_ r) (next r) (length_ r)))).

(** The chunk [b] taken. *)
Definition taken (r : ChunkReader) (b : bytes) : ChunkReader :=
  {| from := from r; length_ := length_ r; next := wadd (next r) 1; held := []; at_ := 0;
     read_ := wadd (read_ r) (N.of_nat (length b)); ended := ended r;
     digest := (λ d, update d b) <$> digest r |}.

(** [ChunkReader::next_chunk]. *)
Definition next_chunk (s : St) (r : ChunkReader) : ChunkReader * io (option bytes) :=
  if at_ r <? length (held r) then (with_held r [] 0, inl (Some (drop (at_ r) (held r))))
  else if ended r then (r, inl None)
  else
    match chunk s (from r) (next r) with
    | Err e => (r, inr (unread e))
    | Ok None =>
        let '(r, over) := end_stream r in
        (r, match over with inl _ => inl None | inr e => inr e end)
    | Ok (Some b) => (taken r b, inl (Some b))
    end.

(** The loop of [Read::read], once round. *)
Definition read_round (s : St) (most : nat) (r : ChunkReader) :
    result (ChunkReader + ChunkReader * io bytes) :=
  if decide (at_ r = length (held r)) then
    match next_chunk s r with
    | (r, inr e) => Ok (inr (r, inr e))
    | (r, inl None) => Ok (inr (r, inl []))
    | (r, inl (Some b)) => Ok (inl (with_held r b 0))
    end
  else
    let piece := take most (drop (at_ r) (held r)) in
    Ok (inr (with_held r (held r) (at_ r + length piece), inl piece)).

(** More rounds than there are chunks. *)
Definition READS : positive := Pos.pow 2 33.

(** [Read::read] into a buffer of [most] bytes. A loop that were not done by
    then answers none. *)
Definition read (s : St) (r : ChunkReader) (most : nat) : option (ChunkReader * io bytes) :=
  match run_for READS (read_round s most) r with Ok (inr a) => Some a | _ => None end.
End reader.
Arguments ChunkReader {_}.

(** ** A Stream read, however it is asked for *)

Section reading.
Context `{Sha256} {St : Type} `{StreamReads St}.

(** What one asking came to: bytes, the end, or a failure. *)
Inductive Outcome : Type :=
  | Got (b : bytes)
  | Over
  | Failed (e : IoError).

Definition read_outcome (most : nat) (o : io bytes) : Outcome :=
  match o with
  | inl [] => if decide (most = 0) then Got [] else Over
  | inl b => Got b
  | inr e => Failed e
  end.

(** One asking: the next chunk whole ([None]), or into a buffer of so many
    bytes, where no bytes into a buffer that has room is the end. *)
Definition asked_once (s : St) (how : option nat) (r : ChunkReader) :
    option (ChunkReader * Outcome) :=
  match how with
  | None =>
      let '(r, o) := next_chunk s r in
      Some (r, match o with inl (Some b) => Got b | inl None => Over | inr e => Failed e end)
  | Some most =>
      (λ '(r, o), (r, read_outcome most o)) <$> read s r most
  end.

(** Where a reading stands: still to go on, at the end, or refused. *)
Inductive Verdict : Type := Reading | Whole | NotWhole (e : IoError).

(** A Stream read by one asking after another, each of Xmip Storage as it
    stands then: on past one that could not be answered, up to the end or to
    what is not as kept. *)
Fixpoint reads (l : list (St * option nat)) (r : ChunkReader) : option (bytes * Verdict) :=
  match l with
  | [] => Some ([], Reading)
  | (s, how) :: l =>
      match asked_once s how r with
      | None => None
      | Some (r, Got b) => (λ '(got, v), (b ++ got, v)) <$> reads l r
      | Some (_, Over) => Some ([], Whole)
      | Some (r, Failed e) =>
          match io_kind e with InvalidData => Some ([], NotWhole e) | Other => reads l r end
      end
  end.

(** ** The reference *)

Definition total (cs : list bytes) : N := N.of_nat (length (concat cs)).

(** What is wrong with [cs] as the chunks of what [from] names. *)
Definition not_whole (from : Chunked) (length_ : u64) (cs : list bytes) : option Unread :=
  if decide (wrap (total cs) = length_) then
    match from with
    | InLedger _ => None
    | InAudit _ _ said | InAuditBody _ said =>
        if decide (digest_bytes (concat cs) = said) then None
        else Some (NotOfItsDigest from (digest_bytes (concat cs)) said)
    end
  else Some (NotOfItsLength from (wrap (total cs)) (wrap (N.of_nat (length cs))) length_).

(** The whole Stream and that it is one, or why it is not. *)
Definition whole_stream (from : Chunked) (length : u64) (cs : list bytes) : bytes * Verdict :=
  (concat cs, match not_whole from length cs with
              | None => Whole
              | Some why => NotWhole (invalid why)
              end).

(** What Xmip Storage answers of a chunk, where it answers, is the chunk of
    [cs] of that number, or that there is none. *)
Definition shows (cs : list bytes) (from : Chunked) (s : St) : Prop :=
  ∀ n o, chunk s from n = Ok o → o = cs !! N.to_nat (uval n).

Definition answers (from : Chunked) (s : St) : Prop := ∀ n, ∃ o, chunk s from n = Ok o.

(** A reader about to read: from the start, or the Ledger's from a chunk on,
    [given] being what was taken before. *)
Definition starts (cs : list bytes) (from : Chunked) (length : u64) (r : ChunkReader)
    (given : bytes) : Prop :=
  (r = asking from length ∧ given = []) ∨
  ∃ stream k, from = InLedger stream ∧ N.to_nat (uval k) ≤ Datatypes.length cs ∧
    given = concat (take (N.to_nat (uval k)) cs) ∧
    r = shared_from stream length k (wrap (N.of_nat (Datatypes.length given))).

(** ** The reader as it reads *)

Context {SO : Sha256Ok _}.
Variables (cs : list bytes) (from_ : Chunked) (length_ : u64).
Hypothesis few : (N.of_nat (length cs) < bound 4)%N.

(** A reader that has given out [given] of the chunks of [cs]. *)
Definition stands (r : ChunkReader) (given : bytes) : Prop :=
  let k := N.to_nat (uval (next r)) in
  from r = from_ ∧ Stream.length_ r = length_ ∧ ended r = false ∧ k ≤ length cs ∧
  at_ r ≤ length (held r) ∧
  given ++ drop (at_ r) (held r) = concat (take k cs) ∧
  read_ r = wrap (N.of_nat (length (concat (take k cs)))) ∧
  digest r = match from_ with
             | InLedger _ => None
             | _ => Some (update hasher_default (concat (take k cs)))
             end.

(** How much is left of a Stream [given] so far. *)
Definition left_ (r : ChunkReader) (given : bytes) : nat :=
  (length cs - N.to_nat (uval (next r))) + (length (concat cs) - length given).

Lemma stands_prefix r given : stands r given → given `prefix_of` concat cs.
Proof.
  intros (_ & _ & _ & _ & _ & Hg & _). etrans; [by eexists; symmetry|].
  rewrite <- (take_drop (N.to_nat (uval (next r))) cs) at 2. rewrite concat_app. by eexists.
Qed.

Lemma starts_stands r given : starts cs from_ length_ r given → stands r given.
Proof.
  intros [[-> ->]|(stream & k & Hfr & Hk & -> & ->)]; unfold stands; cbn -[wrap].
  - rewrite uval_wrap_small by (pose proof (bound_pos 4); lia). cbn.
    repeat split; try lia; try done. destruct from_; [done|..]; unfold update; by rewrite hasher_update_nil.
  - repeat split; try done; try lia; [by rewrite app_nil_r|by rewrite Hfr].
Qed.

(** The next chunk taken. *)
Lemma stands_taken r given b :
  stands r given → at_ r = length (held r) → cs !! N.to_nat (uval (next r)) = Some b →
  let r' := taken r b in
  stands r' (given ++ b) ∧ stands (with_held r' b 0) given ∧
  N.to_nat (uval (next r')) = S (N.to_nat (uval (next r))).
Proof.
  intros (Hf & Hl & He & Hk & Ha & Hg & Hr & Hd) Hat Hb.
  pose proof (lookup_lt_Some _ _ _ Hb) as Hlt.
  assert (uval (wadd (next r) 1) = uval (next r) + 1)%N as Hn.
  { apply uval_wadd. lia. }
  assert (N.to_nat (uval (next r) + 1) = S (N.to_nat (uval (next r)))) as Hs by lia.
  rewrite Hat, drop_all, app_nil_r in Hg.
  assert (given ++ b = concat (take (S (N.to_nat (uval (next r)))) cs)) as Hc.
  { rewrite (take_S_r _ _ _ Hb), concat_app, <- Hg. cbn. by rewrite app_nil_r. }
  assert (wadd (read_ r) (N.of_nat (length b)) = wrap (N.of_nat (length (given ++ b)))) as Hw.
  { rewrite Hr, <- Hg. apply uint_eq. unfold wadd. rewrite !uval_wrap, length_app, Nat2N.inj_add.
    by rewrite N.Div0.add_mod_idemp_l. }
  cbn. unfold stands. cbn. rewrite Hn, Hs, <- Hc, app_nil_r.
  split; [|split; [|done]]; repeat split; try done; try lia.
  all: rewrite Hd; destruct from_; [done|..]; cbn;
    by unfold update; rewrite hasher_update_app, <- Hg.
Qed.

(** At the first chunk there is not, the reader says what the reference
    does. *)
Lemma end_stream_spec r given :
  stands r given → at_ r = length (held r) → cs !! N.to_nat (uval (next r)) = None →
  given = concat cs ∧
  snd (end_stream r) = match not_whole from_ length_ cs with
                       | None => inl tt
                       | Some why => inr (invalid why)
                       end ∧
  (snd (end_stream r) = inl tt → ended (fst (end_stream r)) = true ∧
    at_ (fst (end_stream r)) = length (held (fst (end_stream r)))).
Proof.
  intros (Hf & Hl & He & Hk & Ha & Hg & Hr & Hd) Hat Hb.
  apply lookup_ge_None in Hb. rewrite take_ge in Hg, Hr, Hd by done.
  rewrite Hat, drop_all, app_nil_r in Hg. subst given. split; [done|].
  assert (next r = wrap (N.of_nat (length cs))) as Hn.
  { apply uint_eq. rewrite uval_wrap_small by done. lia. }
  unfold end_stream, not_whole, total. rewrite Hr, Hl, Hf, Hn.
  case_decide; [|done].
  destruct from_; [done|..]; rewrite Hd; cbn; unfold digest_bytes; by case_decide.
Qed.

(** A reader at the end of a whole Stream. *)
Definition over (r : ChunkReader) (given : bytes) : Prop :=
  ended r = true ∧ at_ r = length (held r) ∧ given = concat cs ∧
  not_whole from_ length_ cs = None.

Definition stood (r : ChunkReader) (given : bytes) : Prop := stands r given ∨ over r given.

(** What one asking of a reader comes to; [some]: it had room for bytes. *)
Definition asked_as (s : St) (some : bool) (r : ChunkReader) (given : bytes) (r' : ChunkReader)
    (o : Outcome) : Prop :=
  match o with
  | Got b => stood r' (given ++ b) ∧ left_ r' (given ++ b) + Nat.b2n some ≤ left_ r given
  | Over => given = concat cs ∧ not_whole from_ length_ cs = None
  | Failed e =>
      (stood r' given ∧ ∃ n err, chunk s from_ n = Err err ∧ e = unread err) ∨
      (given = concat cs ∧ ∃ why, e = invalid why ∧ not_whole from_ length_ cs = Some why)
  end.

Lemma given_length r given : stands r given →
  length given + (length (held r) - at_ r) ≤ length (concat cs).
Proof.
  intros (_ & _ & _ & _ & _ & Hg & _).
  rewrite <- (take_drop (N.to_nat (uval (next r))) cs), concat_app, <- Hg, !length_app, length_drop.
  lia.
Qed.

Lemma end_stream_next r : next (fst (end_stream r)) = next r.
Proof.
  unfold end_stream. case_decide; [|done]. destruct (from r); [done|..]; by case_decide.
Qed.

(** The next chunk of a reader that holds none of one. *)
Lemma next_chunk_fresh s r given :
  stands r given → at_ r = length (held r) → shows cs from_ s →
  (∃ b, next_chunk s r = (taken r b, inl (Some b)) ∧ cs !! N.to_nat (uval (next r)) = Some b) ∨
  (∃ r', next_chunk s r = (r', inl None) ∧ over r' given ∧ next r' = next r) ∨
  ∃ r' e, next_chunk s r = (r', inr e) ∧ asked_as s true r given r' (Failed e).
Proof.
  intros Hs Hat Hsh. pose proof Hs as (Hf & Hl & He & Hk & Ha & Hg & Hr & Hd).
  unfold next_chunk. rewrite Hat, Nat.ltb_irrefl, He, Hf.
  destruct (chunk s from_ (next r)) as [o|err] eqn:Hc.
  2:{ right; right. eexists _, _. split; [done|]. left. split; [by left|eauto]. }
  apply Hsh in Hc as ->. destruct (cs !! _) as [b|] eqn:Hb; [left; eauto|right].
  destruct (end_stream_spec r given Hs Hat Hb) as (Hgiven & Hend & Hover).
  pose proof (end_stream_next r) as Hnx.
  destruct (end_stream r) as [r' o]. cbn in Hend, Hover, Hnx. subst o.
  destruct (not_whole from_ length_ cs) as [why|] eqn:Hw.
  - right. eexists _, _. split; [done|]. right. eauto.
  - left. eexists. split; [done|]. destruct (Hover eq_refl). done.
Qed.

Lemma next_chunk_over s r given : over r given → next_chunk s r = (r, inl None).
Proof. intros (He & Hat & _). unfold next_chunk. by rewrite Hat, Nat.ltb_irrefl, He. Qed.

(** [next_chunk] as it is asked. *)
Lemma next_chunk_spec s r given :
  stood r given → shows cs from_ s →
  ∃ r' o, asked_once s None r = Some (r', o) ∧ asked_as s true r given r' o.
Proof.
  intros [Hs|Ho] Hsh; unfold asked_once.
  2:{ rewrite (next_chunk_over s r given Ho). destruct Ho as (_ & _ & -> & ?).
      by eexists _, _. }
  pose proof (given_length r given Hs) as Hlen.
  destruct (decide (at_ r = length (held r))) as [Hat|Hat].
  { destruct (next_chunk_fresh s r given Hs Hat Hsh) as [(b & -> & Hb)|[(r' & -> & Ho & Hnx)|(r' & e & -> & He)]].
    - destruct (stands_taken r given b Hs Hat Hb) as (Ht & _ & Hn).
      eexists _, _. split; [done|]. split; [by left|]. unfold left_. rewrite Hn. cbn [Nat.b2n].
      apply lookup_lt_Some in Hb. rewrite length_app. lia.
    - destruct Ho as (_ & _ & -> & ?). by eexists _, _.
    - by eexists _, _. }
  destruct Hs as (Hf & Hl & He & Hk & Ha & Hg & Hr & Hd). unfold next_chunk.
  destruct (Nat.ltb_spec (at_ r) (length (held r))) as [Hlt|Hge]; [|lia].
  eexists _, _. split; [done|]. split.
  { left. unfold stands; cbn; rewrite app_nil_r; repeat split; done||lia. }
  unfold left_. cbn. rewrite length_app, length_drop. lia.
Qed.

(** One round of [read]'s loop. *)
Lemma read_round_spec s most r0 r given :
  stands r given → left_ r given ≤ left_ r0 given → shows cs from_ s →
  ∃ x, read_round s most r = Ok x ∧
    match x with
    | inl r' => (stands r' given ∧ left_ r' given ≤ left_ r0 given) ∧
        length cs - N.to_nat (uval (next r')) < length cs - N.to_nat (uval (next r))
    | inr (r', o) =>
        asked_as s (negb (bool_decide (most = 0))) r0 given r' (read_outcome most o)
    end.
Proof.
  intros Hs Hle Hsh. unfold read_round. case_decide as Hat.
  - destruct (next_chunk_fresh s r given Hs Hat Hsh) as [(b & -> & Hb)|[(r' & -> & Ho & Hnx)|(r' & e & -> & He)]].
    + destruct (stands_taken r given b Hs Hat Hb) as (_ & Ht & Hn). apply lookup_lt_Some in Hb.
      eexists. split; [done|]. cbn in *. unfold left_ in *. cbn. rewrite Hn in *. split; [|lia].
      split; [done|lia].
    + eexists. split; [done|]. cbn. case_decide as Hm.
      * split; [right; by rewrite app_nil_r|]. rewrite bool_decide_eq_true_2 by done. cbn.
        rewrite app_nil_r. unfold left_ in *. rewrite Hnx. lia.
      * by destruct Ho as (_ & _ & -> & ?).
    + eexists. split; [done|]. exact He.
  - eexists. split; [done|]. pose proof (given_length r given Hs) as Hlen.
    destruct Hs as (Hf & Hl & He & Hk & Ha & Hg & Hr & Hd).
    set (piece := take most (drop (at_ r) (held r))).
    assert (length piece = most `min` (length (held r) - at_ r)) as Hp
      by (subst piece; by rewrite length_take, length_drop).
    assert (stands (with_held r (held r) (at_ r + length piece)) (given ++ piece)) as Hst.
    { unfold stands. cbn. repeat split; try done; try lia.
      rewrite <- Hg, <- app_assoc. f_equal. rewrite <- drop_drop.
      rewrite <- (take_drop most (drop (at_ r) (held r))) at 2. fold piece. f_equal.
      rewrite Hp. destruct (Nat.min_spec most (length (held r) - at_ r)) as [[? ->]|[? ->]]; [done|].
      rewrite !drop_ge by (rewrite length_drop; lia). done. }
    assert (left_ (with_held r (held r) (at_ r + length piece)) (given ++ piece) +
      Nat.b2n (negb (bool_decide (most = 0))) ≤ left_ r0 given) as Hless.
    { unfold left_ in *. cbn. rewrite length_app. case_bool_decide; cbn; lia. }
    unfold read_outcome. destruct piece as [|b piece].
    + case_decide; [|cbn in Hp; lia]. split; [by left|done].
    + split; [by left|done].
Qed.

(** [read] as it is asked: it always answers. *)
Lemma read_taken_spec s most r given :
  stood r given → shows cs from_ s →
  ∃ r' o, asked_once s (Some most) r = Some (r', o) ∧
    asked_as s (negb (bool_decide (most = 0))) r given r' o.
Proof.
  intros [Hs|Ho] Hsh; unfold asked_once, read.
  2:{ assert (read_round s most r = Ok (inr (r, inl []))) as Hrr.
      { unfold read_round. pose proof Ho as (_ & Hat & _). rewrite decide_True by done.
        by rewrite (next_chunk_over s r given Ho). }
      assert (∀ n, run_for n (read_round s most) r = Ok (inr (r, inl []))) as ->.
      { induction n as [n IH|n IH|]; cbn [run_for]; rewrite ?Hrr, ?IH; done. }
      eexists _, _. split; [done|]. cbn. case_decide.
      - split; [right; by rewrite app_nil_r|]. rewrite app_nil_r, bool_decide_eq_true_2 by done.
        cbn. lia.
      - by destruct Ho as (_ & _ & -> & ?). }
  destruct (run_for_spec (read_round s most)
    (λ r', stands r' given ∧ left_ r' given ≤ left_ r given)
    (λ '(r', o), asked_as s (negb (bool_decide (most = 0))) r given r' (read_outcome most o))
    (λ r', length cs - N.to_nat (uval (next r')))) with (n := READS) (s := r)
    as ([r'|[r' o]] & -> & Hx); [|by split| |].
  - intros r' [Hs' Hle]. by apply (read_round_spec s most r r' given).
  - exfalso. destruct Hx as [_ Hx]. assert (N.of_nat (Pos.to_nat READS) = 2 ^ 33)%N as Hr.
    { by rewrite positive_nat_N. }
    change (bound 4) with (2 ^ 32)%N in few. lia.
  - by eexists _, _.
Qed.

(** An asking that can take bytes. *)
Definition has_room (a : St * option nat) : Prop := a.2 ≠ Some 0.
#[export] Instance has_room_dec a : Decision (has_room a).
Proof. unfold has_room. apply _. Defined.

Lemma asked_once_spec s how r given :
  stood r given → shows cs from_ s →
  ∃ r' o, asked_once s how r = Some (r', o) ∧
    asked_as s (bool_decide (has_room (s, how))) r given r' o.
Proof.
  intros Hs Hsh. destruct how as [most|].
  - destruct (read_taken_spec s most r given Hs Hsh) as (r' & o & -> & Ha). eexists _, _. split; [done|].
    assert (bool_decide (has_room (s, Some most)) = negb (bool_decide (most = 0))) as ->; [|done].
    unfold has_room. cbn. do 2 case_bool_decide; naive_solver.
  - destruct (next_chunk_spec s r given Hs Hsh) as (r' & o & -> & Ha). eexists _, _. split; [done|].
    by rewrite bool_decide_eq_true_2.
Qed.

Lemma stood_prefix r given : stood r given → given `prefix_of` concat cs.
Proof. intros [Hs|(_ & _ & -> & _)]; [by eapply stands_prefix|done]. Qed.

(** A refusal Xmip Storage itself answered in the course of [l]. *)
Definition refused_by (l : list (St * option nat)) (e : IoError) : Prop :=
  ∃ s how n err, (s, how) ∈ l ∧ chunk s from_ n = Err err ∧ e = unread err.

Lemma reads_spec l : ∀ r given,
  stood r given → Forall (λ a, shows cs from_ a.1) l →
  ∃ got v, reads l r = Some (got, v) ∧ (given ++ got) `prefix_of` concat cs ∧
    match v with
    | Reading => Forall (λ a, answers from_ a.1) l → length (filter has_room l) ≤ left_ r given
    | Whole => (given ++ got, v) = whole_stream from_ length_ cs
    | NotWhole e => (given ++ got, v) = whole_stream from_ length_ cs ∨ refused_by l e
    end.
Proof.
  induction l as [|[s how] l IH]; intros r given Hs Hl; cbn [reads].
  { eexists _, _. split; [done|]. rewrite app_nil_r. split; [by eapply stood_prefix|]. cbn. lia. }
  apply Forall_cons in Hl as [Hsh Hl]. cbn in Hsh.
  destruct (asked_once_spec s how r given Hs Hsh) as (r' & o & -> & Ha).
  pose proof (stood_prefix r given Hs) as Hpre.
  destruct o as [b| |e]; cbn in Ha.
  - destruct Ha as [Hs' Hm]. destruct (IH r' (given ++ b) Hs' Hl) as (got & v & -> & Hp & Hv).
    eexists _, _. split; [done|]. rewrite <- app_assoc in Hp, Hv. split; [done|].
    destruct v as [| |e]; [|done|].
    + intros [_ Hans]%Forall_cons. specialize (Hv Hans). rewrite filter_cons.
      case_decide as Hr.
      * rewrite bool_decide_eq_true_2 in Hm by done. cbn in *. lia.
      * rewrite bool_decide_eq_false_2 in Hm by done. cbn in *. lia.
    + destruct Hv as [?|(s' & h' & n & err & ? & ?)]; [by left|right].
      exists s', h', n, err. split; [by right|done].
  - destruct Ha as [-> Hw]. eexists _, _. split; [done|]. rewrite app_nil_r. split; [done|].
    unfold whole_stream. by rewrite Hw.
  - destruct Ha as [[Hs' (n & err & Hc & ->)]|[-> (why & -> & Hw)]].
    + destruct (io_kind (unread err)) eqn:Hk.
      { eexists _, _. split; [done|]. rewrite app_nil_r. split; [done|]. right.
        exists s, how, n, err. split; [by left|done]. }
      destruct (IH r' given Hs' Hl) as (got & v & -> & Hp & Hv). eexists _, _. split; [done|].
      split; [done|]. destruct v as [| |e]; [|done|].
      * intros [Hans _]%Forall_cons. destruct (Hans n) as [o Ho]. cbn in Ho. congruence.
      * destruct Hv as [?|(s' & h' & n' & err' & ? & ?)]; [by left|right].
        exists s', h', n', err'. split; [by right|done].
    + cbn. eexists _, _. split; [done|]. rewrite app_nil_r. split; [done|]. left.
      unfold whole_stream. by rewrite Hw.
Qed.
End reading.

(** ** The theorem *)

Module StreamTheorems.

Section theorems.
Context {H : Sha256} {SO : Sha256Ok H} {St : Type} {SR : StreamReads St}.

(** C30. A Stream is read as the whole Stream or refused, however it is
    read. Its chunks standing as they are while it is read - those of a list,
    and none past it - and it being taken from its start, or the Ledger's from
    a chunk on with what came before it, a chunk whole or into buffers of any
    size at a time, Xmip Storage failing to answer now and then: what a reader
    has given out is the start of what the chunks together hold; and it ends,
    or refuses what was kept, exactly as the reference says of them, which
    holds all of their bytes to the length its record says, counted in 64
    bits, and a kept audit record's copy or body to its digest too, and never
    the count of chunks. A refusal besides is one Xmip Storage itself
    answered. Where Xmip Storage answers, a reader asked often enough comes to
    what the reference says. *)
Theorem read_as_the_whole_stream (cs : list bytes) from_ length_ (l : list (St * option nat)) r given :
  (N.of_nat (length cs) < bound 4)%N →
  starts cs from_ length_ r given →
  Forall (λ a, shows cs from_ a.1) l →
  ∃ got v, reads l r = Some (got, v) ∧ (given ++ got) `prefix_of` concat cs ∧
    match v with
    | Reading => True
    | Whole => (given ++ got, v) = whole_stream from_ length_ cs
    | NotWhole e => (given ++ got, v) = whole_stream from_ length_ cs ∨ refused_by from_ l e
    end ∧
    (Forall (λ a, answers from_ a.1) l →
      length cs + length (concat cs) < length (filter has_room l) →
      (given ++ got, v) = whole_stream from_ length_ cs).
Proof.
  intros few Hs%starts_stands Hl; [|done].
  destruct (reads_spec cs from_ length_ few l r given (or_introl Hs) Hl) as (got & v & Hr & Hp & Hv).
  exists got, v. split_and!; [done..|by destruct v|].
  intros Hans Hlen. destruct v as [| |e]; [|done|].
  - specialize (Hv Hans). unfold left_ in Hv. lia.
  - destruct Hv as [?|(s & how & n & err & Hin & Hc & _)]; [done|].
    rewrite Forall_forall in Hans. destruct (Hans _ Hin n) as [o Ho]. cbn in Ho. congruence.
Qed.
End theorems.

(** *** A digest and a storage, for the examples *)

(** The first bytes of what was taken in: what a hasher must be. *)
#[local] Instance first_bytes : Sha256 := {
  hasher := bytes;
  hasher_default := [];
  hasher_update h b := h ++ b;
  hasher_finalize h := take DIGEST (h ++ replicate DIGEST x00);
}.

#[local] Instance first_bytes_ok : Sha256Ok first_bytes.
Proof.
  split; [intros h a b; apply eq_sym, app_assoc|apply app_nil_r|].
  intros h. change (length (take DIGEST (h ++ replicate DIGEST x00)) = DIGEST).
  rewrite length_take, length_app, length_replicate. lia.
Qed.

(** Chunks kept, by a node that answers or does not. *)
#[local] Instance shelf_reads : StreamReads (bool * list bytes) := {
  read_chunk s stream n :=
    if s.1 then Ok ((λ b, {| ck_stream := stream; ck_index := n; ck_bytes := b |}) <$>
                    s.2 !! N.to_nat (uval n))
    else Err (Unreachable "no Storage node answered");
  read_kept_audit s _ := Ok None;
  read_kept_audit_stream s _ _ := Ok None;
  read_kept_audit_chunk s _ _ n :=
    if s.1 then Ok (s.2 !! N.to_nat (uval n)) else Err (Unreachable "no Storage node answered");
}.

Definition example_chunks : list bytes := [[x01; x02; x03]; []; [x04]].
Definition example_from : Chunked :=
  InAudit (wrap 1) (wrap 2) (digest_bytes (concat example_chunks)).

(** Read into buffers of two bytes, by the chunk, and past a node that does
    not answer. *)
Definition example_reads : list (bool * list bytes * option nat) :=
  [((true, example_chunks), Some 2); ((false, example_chunks), Some 2);
   ((true, example_chunks), Some 0); ((true, example_chunks), None);
   ((false, example_chunks), None); ((true, example_chunks), Some 2);
   ((true, example_chunks), Some 2)].

Lemma example_shows a : a ∈ example_reads → shows example_chunks example_from a.1.
Proof.
  intros Ha. assert (a.1.2 = example_chunks) as <-.
  { revert a Ha. apply Forall_forall. by repeat constructor. }
  intros n o. cbn. by destruct a.1.1; intros [= <-].
Qed.

Lemma read_as_the_whole_stream_witness :
  reads example_reads (asking example_from (wrap 4)) = Some (concat example_chunks, Whole) ∧
  ([] ++ concat example_chunks, Whole) = whole_stream example_from (wrap 4) example_chunks.
Proof.
  assert (reads example_reads (asking example_from (wrap 4)) = Some (concat example_chunks, Whole))
    as Hr by (vm_compute; reflexivity).
  split; [exact Hr|].
  destruct (read_as_the_whole_stream example_chunks example_from (wrap 4) example_reads
    (asking example_from (wrap 4)) []) as (got & v & Hg & _ & Hv & _).
  - by vm_compute.
  - by left.
  - apply Forall_forall. exact example_shows.
  - rewrite Hr in Hg. injection Hg as <- <-. exact Hv.
Defined.
End StreamTheorems.
