(* ===== verification/Query.v ===== *)
(** * What Xmip Storage is asked to find (src/.src/storage/query.rs)

    One typed question per searchable table ([Ask]), each over one of its
    indexes: how it is answered ([plan]), and the form a question crosses the
    wire in. *)

From S2P Require Import Prelude Word Engine Store Codec Records Schema Row Columns.
From stdpp Require Import pretty.

(** ** The data *)

(** From one time to another, both included. *)
Record Span : Set := { from_unix_nanos : u64; to_unix_nanos : u64 }.

(** [Span::ALL]. *)
Definition ALL_TIME : Span := {| from_unix_nanos := wrap 0; to_unix_nanos := umax |}.

Inductive Ask : Set :=
  | MessagesInState (state : string) (updated : Span)
  | MessagesAtSendPort (send_port state : string)
  | JourneysAfter (journey : u128)
  | JourneysHolding (message : u128)
  | MessagesCreated (created : Span)
  | MessagesFromParty (party : string) (created : Span)
  | MessagesOfContract (contract : string) (created : Span)
  | MessagesAfter (message : u128)
  | AskHeld (queue : u128) (held : Span)
  | DeadMessages (queue : u128) (queued : Span)
  | AuditOccurred (occurred : Span)
  | AuditOfJourney (journey : u128)
  | AuditOfMessage (message : u128)
  | AuditOfArtifact (artifact : string) (occurred : Span)
  | AuditFailed (occurred : Span)
  | AuditOfStream (stream : u128)
  | AuditChain (writer : string) (from : u64)
  | AdministrationUpdated (kind : AdministrationKind) (updated : Span).

Record Query : Set := { q_ask : Ask; q_most : u32; q_newest_first : bool }.

(** How a question is answered. *)
Record Plan : Set := {
  pl_database : Database;
  pl_table : string;
  pl_index : string;
  pl_equal : list Value;
  pl_range : option (u64 * u64);
}.

#[export] Instance Span_eq_dec : EqDecision Span.
Proof. solve_decision. Defined.
#[export] Instance Ask_eq_dec : EqDecision Ask.
Proof. solve_decision. Defined.
#[export] Instance Query_eq_dec : EqDecision Query.
Proof. solve_decision. Defined.

(** ** How it is answered *)

(** [Ask::index]. *)
Definition ask_index (ask : Ask) : Database * string * string :=
  match ask with
  | MessagesInState _ _ => (Runtime, "journey", "journey_state")
  | MessagesAtSendPort _ _ => (Runtime, "journey", "journey_send_port")
  | JourneysAfter _ => (Runtime, "journey", "journey_previous")
  | JourneysHolding _ => (Runtime, "journey", "journey_message")
  | MessagesCreated _ => (Runtime, "message", "message_created")
  | MessagesFromParty _ _ => (Runtime, "message", "message_party")
  | MessagesOfContract _ _ => (Runtime, "message", "message_contract")
  | MessagesAfter _ => (Runtime, "message", "message_previous")
  | AskHeld _ _ => (Runtime, "held", "held_time")
  | DeadMessages _ _ => (Runtime, "dead_message", "dead_message_time")
  | AuditOccurred _ => (Audit_, "audit", "audit_occurred")
  | AuditOfJourney _ => (Audit_, "audit", "audit_journey")
  | AuditOfMessage _ => (Audit_, "audit", "audit_message")
  | AuditOfArtifact _ _ => (Audit_, "audit", "audit_artifact")
  | AuditFailed _ => (Audit_, "audit", "audit_failed")
  | AuditOfStream _ => (Audit_, "audit_stream", "audit_stream_stream")
  | AuditChain _ _ => (Audit_, "audit", "audit_chain")
  | AdministrationUpdated _ _ => (Administration_, "administration", "administration_updated")
  end%string.

(** [Ask::values]: what the first columns equal, and the span of the next;
    a chain's is a span of numbers. *)
Definition ask_values (ask : Ask) : list Value * option Span :=
  match ask with
  | MessagesInState state updated => ([Text state], Some updated)
  | MessagesAtSendPort send_port state => ([Text send_port; Text state], None)
  | JourneysAfter id | JourneysHolding id | MessagesAfter id
  | AuditOfJourney id | AuditOfMessage id | AuditOfStream id => ([Id id], None)
  | MessagesCreated span | AuditOccurred span => ([], Some span)
  | MessagesFromParty text span | MessagesOfContract text span
  | AuditOfArtifact text span => ([Text text], Some span)
  | AskHeld queue span | DeadMessages queue span => ([Id queue], Some span)
  | AuditFailed occurred => ([Flag true], Some occurred)
  | AuditChain writer from =>
      ([Text writer], Some {| from_unix_nanos := from; to_unix_nanos := umax |})
  | AdministrationUpdated kind updated => ([Text (Administration.word kind)], Some updated)
  end.

(** [Ask::plan]. *)
Definition plan (ask : Ask) : Plan :=
  let '(database, table, index) := ask_index ask in
  let '(equal, span) := ask_values ask in
  {| pl_database := database; pl_table := table; pl_index := index; pl_equal := equal;
     pl_range := (λ s, (from_unix_nanos s, to_unix_nanos s)) <$> span |}.

(** ** Its form *)

Section forms.
Context {C : Codec}.

Definition write_Span (s : Span) : bytes := w_u64 (from_unix_nanos s) ++ w_u64 (to_unix_nanos s).
Definition read_Span : rd Span :=
  from ← r_u64; to ← r_u64; mret {| from_unix_nanos := from; to_unix_nanos := to |}.
#[export] Instance Span_form : Form Span := { write := write_Span; fread := read_Span }.

(** [Ask::number]. *)
Definition ask_number (ask : Ask) : byte :=
  match ask with
  | MessagesInState _ _ => x01 | MessagesAtSendPort _ _ => x02 | JourneysAfter _ => x03
  | JourneysHolding _ => x04 | MessagesCreated _ => x05 | MessagesFromParty _ _ => x06
  | MessagesOfContract _ _ => x07 | MessagesAfter _ => x08 | AskHeld _ _ => x09
  | DeadMessages _ _ => x0a | AuditOccurred _ => x0b | AuditOfJourney _ => x0c
  | AuditOfMessage _ => x0d | AuditOfArtifact _ _ => x0e | AuditFailed _ => x0f
  | AdministrationUpdated _ _ => x10 | AuditOfStream _ => x11 | AuditChain _ _ => x12
  end.

Definition write_Ask (ask : Ask) : bytes :=
  w_byte (ask_number ask) ++
  match ask with
  | MessagesInState state updated => w_text state ++ write updated
  | MessagesAtSendPort send_port state => w_text send_port ++ w_text state
  | JourneysAfter id | JourneysHolding id | MessagesAfter id
  | AuditOfJourney id | AuditOfMessage id | AuditOfStream id => w_u128 id
  | MessagesCreated span | AuditOccurred span | AuditFailed span => write span
  | MessagesFromParty text span | MessagesOfContract text span
  | AuditOfArtifact text span => w_text text ++ write span
  | AskHeld queue span | DeadMessages queue span => w_u128 queue ++ write span
  | AdministrationUpdated kind updated => write kind ++ write updated
  | AuditChain writer from => w_text writer ++ w_u64 from
  end.

(** An identifier asked about, a span, or a text or a queue and a span. *)
Definition ask_id (f : u128 → Ask) : rd Ask := id ← r_u128; mret (f id).
Definition ask_span (f : Span → Ask) : rd Ask := span ← fread; mret (f span).
Definition ask_text (f : string → Span → Ask) : rd Ask :=
  text ← r_text; span ← fread; mret (f text span).
Definition ask_queue (f : u128 → Span → Ask) : rd Ask :=
  queue ← r_u128; span ← fread; mret (f queue span).

(** What the code says of a number no question has. *)
Definition no_question (n : byte) : string :=
  "no question is numbered " +:+ pretty (Byte.to_N n).

Definition read_Ask : rd Ask :=
  n ← r_byte;
  match n with
  | x01 => ask_text MessagesInState
  | x02 => send_port ← r_text; state ← r_text; mret (MessagesAtSendPort send_port state)
  | x03 => ask_id JourneysAfter
  | x04 => ask_id JourneysHolding
  | x05 => ask_span MessagesCreated
  | x06 => ask_text MessagesFromParty
  | x07 => ask_text MessagesOfContract
  | x08 => ask_id MessagesAfter
  | x09 => ask_queue AskHeld
  | x0a => ask_queue DeadMessages
  | x0b => ask_span AuditOccurred
  | x0c => ask_id AuditOfJourney
  | x0d => ask_id AuditOfMessage
  | x0e => ask_text AuditOfArtifact
  | x0f => ask_span AuditFailed
  | x10 => kind ← fread; updated ← fread; mret (AdministrationUpdated kind updated)
  | x11 => ask_id AuditOfStream
  | x12 => writer ← r_text; from ← r_u64; mret (AuditChain writer from)
  | other => rd_err (CodecErr (no_question other))
  end.

#[export] Instance Ask_form : Form Ask := { write := write_Ask; fread := read_Ask }.

Definition write_Query (q : Query) : bytes :=
  write (q_ask q) ++ w_u32 (q_most q) ++ w_flag (q_newest_first q).
Definition read_Query : rd Query :=
  ask ← fread; most ← r_u32; newest ← r_flag;
  mret {| q_ask := ask; q_most := most; q_newest_first := newest |}.
#[export] Instance Query_form : Form Query := { write := write_Query; fread := read_Query }.
End forms.

#[export] Instance Span_fits : Fits Span := λ _, True.
#[export] Instance Ask_fits : Fits Ask := λ ask,
  match ask with
  | MessagesInState text _ | MessagesFromParty text _ | MessagesOfContract text _
  | AuditOfArtifact text _ | AuditChain text _ => counts_text text
  | MessagesAtSendPort send_port state => counts_text send_port ∧ counts_text state
  | _ => True
  end.
#[export] Instance Query_fits : Fits Query := λ q, fits (q_ask q).

Section roundtrips.
Context {C : Codec} {CO : CodecOk C}.

#[export] Instance Span_ok : FormOk Span.
Proof.
  intros s l _. cbn [write fread Span_form]. unfold write_Span, read_Span. roundtrip. by destruct s.
Qed.

#[local] Hint Extern 1 (fits _) => done : codec.

#[export] Instance Ask_ok : FormOk Ask.
Proof.
  intros ask l Hf. cbn [write fread Ask_form]. unfold write_Ask, read_Ask.
  rewrite <- app_assoc. erewrite rd_step by apply byte_rt.
  assert (∀ s : Span, fits s) as Hs by done.
  assert (∀ k : AdministrationKind, fits k) as Hk by done.
  destruct ask; cbn in Hf; cbn [ask_number];
    unfold ask_id, ask_span, ask_text, ask_queue;
    lazymatch type of Hf with _ ∧ _ => destruct Hf | _ => idtac end; roundtrip.
Qed.

#[export] Instance Query_ok : FormOk Query.
Proof.
  intros q l Hf. cbn [write fread Query_form]. unfold write_Query, read_Query.
  unfold fits, Query_fits in Hf. rewrite <- !app_assoc.
  erewrite rd_step by by apply form_rt. erewrite rd_step by apply u32_rt.
  erewrite rd_step by apply flag_rt. by destruct q.
Qed.
End roundtrips.
