(* ===== verification/Wire.v ===== *)
(** * Xmip Storage on the wire (src/.src/storage/wire.rs, wire/answer.rs,
    wire/operation.rs)

    One request, one answer: a request is an operation's number and its
    fields ([Request]), an answer a verdict and what the operation returned
    or why it failed ([Answer]), each in its one binary form. A frame - its
    length and its bytes - is the net crate's: what it carries is what was
    written in it. *)

From S2P Require Import Prelude Word Engine Encrypted Store Codec Facts Records Batch Queue Hold.
From S2P Require Import Failed Origin Dead Claim Schema Instance Publication Secrets Row Columns.
From S2P Require Import Page Due Query Copies Shipped.
From stdpp Require Import pretty.

(** ** Requests *)

Module Request.
Section request.
Context {X : XSecrets}.

Inductive Request : Type :=
  | WriteChunk (chunk : StreamChunk)
  | ReadChunk (stream : StreamId) (index : u32)
  | WriteMessage (message : MessageRecord)
  | ReadMessage (id : MessageId)
  | WriteJourney (journey : JourneyRecord)
  | ReadJourney (id : JourneyId)
  | AskClaim (claim : Claim) (lease : u64)
  | Renew (claims : list Claim) (lease : u64)
  | Release (claim : Claim)
  | AskHandOn (hand_on : HandOn)
  | WriteAudit (entry : AuditEntry)
  | KeepAudit (most : u32) (chunk : u64)
  | ReadKeptAudit (id : AuditId)
  | WriteAdministration (record : AdministrationRecord)
  | ReadAdministration (kind : AdministrationKind) (id : u128)
  | RemoveAdministration (kind : AdministrationKind) (id : u128)
  | Publish (publication : Publication)
  | ReadHeld (queue : u128) (from : u64) (most : u32)
  | ReadDead (queue : u128) (from : u64) (most : u32)
  | ReadDeadMessage (queue : u128) (message : MessageId)
  | AskReplay (replay : Replay)
  | AskQuery (query : Query)
  | WriteStream (last : StreamChunk) (stream : StreamRecord)
  | ReadStream (id : StreamId)
  | ReadKeptAuditChunk (id : AuditId) (stream : option StreamId) (index : u32)
  | ReadKeptAuditStream (id : AuditId) (stream : StreamId)
  | ReadFailed (queue : u128) (from : u64) (most : u32)
  | ReadDue (queue : u128) (part : DuePart) (from : u64 * u64) (most : u32)
  | AskStanding
  | AskFollow (follow : Follow)
  | AskTurn (turn : Turn)
  | ReadInstance (id : u128)
  | ReadInstanceKey (id : u128)
  | WriteSecret (secret : SecretRecord)
  | ReadSecret (name : SecretName)
  | ListSecrets.

(** [Request::operation]: what it does, and the operation it is, as the
    Storage plane's rules name it. *)
Definition operation (r : Request) : string * string :=
  match r with
  | WriteChunk _ => ("write", "write_chunk")
  | ReadChunk _ _ => ("read", "read_chunk")
  | WriteMessage _ => ("write", "write_message")
  | ReadMessage _ => ("read", "read_message")
  | WriteJourney _ => ("write", "write_journey")
  | ReadJourney _ => ("read", "read_journey")
  | AskClaim _ _ => ("write", "claim")
  | Renew _ _ => ("write", "renew")
  | Release _ => ("write", "release")
  | AskHandOn _ => ("write", "hand_on")
  | WriteAudit _ => ("write", "write_audit")
  | KeepAudit _ _ => ("write", "keep_audit")
  | ReadKeptAudit _ => ("read", "read_kept_audit")
  | WriteAdministration _ => ("write", "write_administration")
  | ReadAdministration _ _ => ("read", "read_administration")
  | RemoveAdministration _ _ => ("write", "remove_administration")
  | Publish _ => ("write", "publish")
  | ReadHeld _ _ _ => ("read", "read_held")
  | ReadDead _ _ _ => ("read", "read_dead")
  | ReadDeadMessage _ _ => ("read", "read_dead_message")
  | AskReplay _ => ("write", "replay")
  | AskQuery _ => ("read", "query")
  | WriteStream _ _ => ("write", "write_stream")
  | ReadStream _ => ("read", "read_stream")
  | ReadKeptAuditChunk _ _ _ => ("read", "read_kept_audit_chunk")
  | ReadKeptAuditStream _ _ => ("read", "read_kept_audit_stream")
  | ReadFailed _ _ _ => ("read", "read_failed")
  | ReadDue _ _ _ _ => ("read", "read_due")
  | AskStanding => ("read", "standing")
  | AskFollow _ => ("read", "follow")
  | AskTurn _ => ("write", "turn")
  | ReadInstance _ => ("read", "read_instance")
  | ReadInstanceKey _ => ("read", "read_instance_key")
  | WriteSecret _ => ("write", "write_secret")
  | ReadSecret _ => ("read", "read_secret")
  | ListSecrets => ("read", "list_secrets")
  end%string.

(** [nanos]: a lease as it is asked, in as many nanoseconds as 64 bits
    hold. *)
Definition nanos (lease : N) : u64 := clamp lease.

(** [Request::claim] and [Request::renew]. *)
Definition claim (c : Claim) (lease : N) : Request := AskClaim c (nanos lease).
Definition renew (claims : list Claim) (lease : N) : Request := Renew claims (nanos lease).

Context {C : Codec}.

(** [Request::write_late]: those numbered from 22 on; the rest are written
    by [write], which passes them here. *)
Definition write_late (r : Request) : bytes :=
  match r with
  | AskQuery query => w_byte x16 ++ Codec.write query
  | WriteStream last stream => w_byte x17 ++ Codec.write last ++ Codec.write stream
  | ReadStream id => w_byte x18 ++ w_u128 id
  | ReadKeptAuditChunk id stream index =>
      w_byte x19 ++ w_u128 id ++ w_flag (is_some stream) ++ w_u128 (default (wrap 0) stream) ++
      w_u32 index
  | ReadKeptAuditStream id stream => w_byte x1a ++ w_u128 id ++ w_u128 stream
  | ReadFailed queue from most => w_byte x1b ++ w_u128 queue ++ w_u64 from ++ w_u32 most
  | ReadDue queue part (due, place) most =>
      w_byte x1c ++ w_u128 queue ++ Codec.write part ++ w_u64 due ++ w_u64 place ++ w_u32 most
  | AskStanding => w_byte x1d
  | AskFollow follow => w_byte x1e ++ Codec.write follow
  | AskTurn turn => w_byte x1f ++ Codec.write turn
  | ReadInstance id => w_byte x20 ++ w_u128 id
  | ReadInstanceKey id => w_byte x21 ++ w_u128 id
  | WriteSecret secret => w_byte x22 ++ Codec.write secret
  | ReadSecret name => w_byte x23 ++ w_text (as_str name)
  | ListSecrets => w_byte x24
  | _ => []
  end.

Definition write (r : Request) : bytes :=
  match r with
  | WriteChunk chunk => w_byte x01 ++ Codec.write chunk
  | ReadChunk stream index => w_byte x02 ++ w_u128 stream ++ w_u32 index
  | WriteMessage message => w_byte x03 ++ Codec.write message
  | ReadMessage id => w_byte x04 ++ w_u128 id
  | WriteJourney journey => w_byte x05 ++ Codec.write journey
  | ReadJourney id => w_byte x06 ++ w_u128 id
  | AskClaim claim lease => w_byte x07 ++ Codec.write claim ++ w_u64 lease
  | Renew claims lease => w_byte x08 ++ w_vec Codec.write claims ++ w_u64 lease
  | Release claim => w_byte x09 ++ Codec.write claim
  | AskHandOn hand_on => w_byte x0a ++ Codec.write hand_on
  | WriteAudit entry => w_byte x0b ++ Codec.write entry
  | KeepAudit most chunk => w_byte x0c ++ w_u32 most ++ w_u64 chunk
  | ReadKeptAudit id => w_byte x0d ++ w_u128 id
  | WriteAdministration record => w_byte x0e ++ Codec.write record
  | ReadAdministration kind id => w_byte x0f ++ Codec.write kind ++ w_u128 id
  | RemoveAdministration kind id => w_byte x10 ++ Codec.write kind ++ w_u128 id
  | Publish publication => w_byte x11 ++ Codec.write publication
  | ReadHeld queue from most => w_byte x12 ++ w_u128 queue ++ w_u64 from ++ w_u32 most
  | ReadDead queue from most => w_byte x13 ++ w_u128 queue ++ w_u64 from ++ w_u32 most
  | ReadDeadMessage queue message => w_byte x14 ++ w_u128 queue ++ w_u128 message
  | AskReplay replay => w_byte x15 ++ Codec.write replay
  | late => write_late late
  end.

(** What is read after a request's number, for those of one record, one
    identifier, or a page of a queue. *)
Definition one {A} {FA : Form A} (f : A → Request) : rd Request := a ← fread; mret (f a).
Definition by_id (f : u128 → Request) : rd Request := id ← r_u128; mret (f id).
Definition page_of (f : u128 → u64 → u32 → Request) : rd Request :=
  queue ← r_u128; from ← r_u64; most ← r_u32; mret (f queue from most).

Definition read : rd Request :=
  n ← r_byte;
  match n with
  | x01 => one WriteChunk
  | x02 => stream ← r_u128; index ← r_u32; mret (ReadChunk stream index)
  | x03 => one WriteMessage
  | x04 => by_id ReadMessage
  | x05 => one WriteJourney
  | x06 => by_id ReadJourney
  | x07 => claim ← fread; lease ← r_u64; mret (AskClaim claim lease)
  | x08 => claims ← r_vec fread; lease ← r_u64; mret (Renew claims lease)
  | x09 => one Release
  | x0a => one AskHandOn
  | x0b => one WriteAudit
  | x0c => most ← r_u32; chunk ← r_u64; mret (KeepAudit most chunk)
  | x0d => by_id ReadKeptAudit
  | x0e => one WriteAdministration
  | x0f => kind ← fread; id ← r_u128; mret (ReadAdministration kind id)
  | x10 => kind ← fread; id ← r_u128; mret (RemoveAdministration kind id)
  | x11 => one Publish
  | x12 => page_of ReadHeld
  | x13 => page_of ReadDead
  | x14 => queue ← r_u128; message ← r_u128; mret (ReadDeadMessage queue message)
  | x15 => one AskReplay
  | x16 => one AskQuery
  | x17 => last ← fread; stream ← fread; mret (WriteStream last stream)
  | x18 => by_id ReadStream
  | x19 =>
      id ← r_u128; carried ← r_byte; stream ← r_u128; index ← r_u32;
      mret (ReadKeptAuditChunk id (if nonzero carried then Some stream else None) index)
  | x1a => id ← r_u128; stream ← r_u128; mret (ReadKeptAuditStream id stream)
  | x1b => page_of ReadFailed
  | x1c =>
      queue ← r_u128; part ← fread; due ← r_u64; place ← r_u64; most ← r_u32;
      mret (ReadDue queue part (due, place) most)
  | x1d => mret AskStanding
  | x1e => one AskFollow
  | x1f => one AskTurn
  | x20 => by_id ReadInstance
  | x21 => by_id ReadInstanceKey
  | x22 => one WriteSecret
  | x23 => name ← read_name; mret (ReadSecret name)
  | x24 => mret ListSecrets
  | other => rd_err (CodecErr ("no operation is numbered " +:+ pretty (Byte.to_N other)))
  end.

#[global] Instance Request_form : Form Request := { Codec.write := write; fread := read }.

(** What a request must fit to be read back. *)
#[global] Instance Request_fits : Fits Request := λ r,
  match r with
  | WriteChunk chunk => fits chunk
  | WriteMessage message => fits message
  | WriteJourney journey => fits journey
  | AskClaim claim _ | Release claim => fits claim
  | Renew claims _ => counts claims ∧ Forall fits claims
  | AskHandOn hand_on => fits hand_on
  | WriteAudit entry => fits entry
  | WriteAdministration record => fits record
  | Publish publication => fits publication
  | AskReplay replay => fits replay
  | AskQuery query => fits query
  | WriteStream last stream => fits last ∧ fits stream
  | AskFollow follow => fits follow
  | AskTurn turn => fits turn
  | WriteSecret secret => fits secret
  | _ => True
  end.
End request.
End Request.

(** ** Answers *)

Module Answer.
Section answer.
Context {X : XSecrets}.

Inductive Answer : Type :=
  | Done
  | AChunk (chunk : option StreamChunk)
  | AMessage (record : option MessageRecord)
  | AJourney (record : option JourneyRecord)
  | AClaim (claim : option Claim)
  | AClaims (held : list Claim)
  | Yes (yes : bool)
  | ACount (count : u32)
  | AAudit (entry : option KeptAudit)
  | AAdministration (record : option AdministrationRecord)
  | AHeld (queue : HeldQueue)
  | ADeadQueue (queue : DeadQueue)
  | ADead (entry : DeadEntry)
  | AReplayed (replayed : Replayed)
  | ARefused (scope reason : string)
  | AFailed (reason : string)
  | Records (records : list u128)
  | AStream (stream : option StreamRecord)
  | ABytes (value : option bytes)
  | AFailedQueue (queue : FailedQueue)
  | ADueQueue (queue : DueQueue)
  | AStanding (standing : Standing)
  | AStandby (reason : string)
  | AInstance (record : option InstanceRecord)
  | ASecret (record : option SecretRecord)
  | ASecrets (entries : list SecretEntry).

Context {C : Codec}.

(** [Answer::write_late]: those numbered from 21 on. *)
Definition write_late (a : Answer) : bytes :=
  match a with
  | AStanding standing => w_byte x15 ++ Codec.write standing
  | AStandby reason => w_byte x16 ++ w_text reason
  | AInstance record => w_byte x17 ++ w_maybe Codec.write record
  | ASecret record => w_byte x18 ++ w_maybe Codec.write record
  | ASecrets entries => w_byte x19 ++ w_vec Codec.write entries
  | _ => []
  end.

Definition write (a : Answer) : bytes :=
  match a with
  | Done => w_byte x00
  | AChunk chunk => w_byte x01 ++ w_maybe Codec.write chunk
  | AMessage record => w_byte x02 ++ w_maybe Codec.write record
  | AJourney record => w_byte x03 ++ w_maybe Codec.write record
  | AClaim claim => w_byte x04 ++ w_maybe Codec.write claim
  | Yes yes => w_byte x05 ++ w_flag yes
  | ACount count => w_byte x06 ++ w_u32 count
  | AAudit entry => w_byte x07 ++ w_maybe Codec.write entry
  | AAdministration record => w_byte x08 ++ w_maybe Codec.write record
  | ARefused scope reason => w_byte x09 ++ w_text scope ++ w_text reason
  | AFailed reason => w_byte x0a ++ w_text reason
  | AHeld queue => w_byte x0b ++ Codec.write queue
  | ADeadQueue queue => w_byte x0c ++ Codec.write queue
  | ADead entry => w_byte x0d ++ Codec.write entry
  | AReplayed replayed => w_byte x0e ++ Codec.write replayed
  | AClaims held => w_byte x0f ++ w_vec Codec.write held
  | Records records => w_byte x10 ++ write_ids records
  | AStream stream => w_byte x11 ++ w_maybe Codec.write stream
  | ABytes value => w_byte x12 ++ w_maybe w_counted value
  | AFailedQueue queue => w_byte x13 ++ Codec.write queue
  | ADueQueue queue => w_byte x14 ++ Codec.write queue
  | late => write_late late
  end.

(** [read_optional], and a record, as an answer. *)
Definition maybe {A} {FA : Form A} (f : option A → Answer) : rd Answer :=
  o ← r_maybe fread; mret (f o).
Definition one {A} {FA : Form A} (f : A → Answer) : rd Answer := a ← fread; mret (f a).

Definition read : rd Answer :=
  n ← r_byte;
  match n with
  | x00 => mret Done
  | x01 => maybe AChunk
  | x02 => maybe AMessage
  | x03 => maybe AJourney
  | x04 => maybe AClaim
  | x05 => yes ← r_flag; mret (Yes yes)
  | x06 => count ← r_u32; mret (ACount count)
  | x07 => maybe AAudit
  | x08 => maybe AAdministration
  | x09 => scope ← r_text; reason ← r_text; mret (ARefused scope reason)
  | x0a => reason ← r_text; mret (AFailed reason)
  | x0b => one AHeld
  | x0c => one ADeadQueue
  | x0d => one ADead
  | x0e => one AReplayed
  | x0f => held ← r_vec fread; mret (AClaims held)
  | x10 => records ← read_ids; mret (Records records)
  | x11 => maybe AStream
  | x12 => value ← r_maybe r_counted; mret (ABytes value)
  | x13 => one AFailedQueue
  | x14 => one ADueQueue
  | x15 => one AStanding
  | x16 => reason ← r_text; mret (AStandby reason)
  | x17 => maybe AInstance
  | x18 => maybe ASecret
  | x19 => entries ← r_vec fread; mret (ASecrets entries)
  | other => rd_err (CodecErr ("no answer is numbered " +:+ pretty (Byte.to_N other)))
  end.

#[global] Instance Answer_form : Form Answer := { Codec.write := write; fread := read }.

Definition maybe_fits {A} `{Fits A} (o : option A) : Prop :=
  match o with Some a => fits a | None => True end.

(** What an answer must fit to be read back. *)
#[global] Instance Answer_fits : Fits Answer := λ a,
  match a with
  | AChunk o => maybe_fits o
  | AMessage o => maybe_fits o
  | AJourney o => maybe_fits o
  | AClaim o => maybe_fits o
  | AClaims held => counts held ∧ Forall fits held
  | AAudit o => maybe_fits o
  | AAdministration o => maybe_fits o
  | AHeld queue => fits queue
  | ADeadQueue queue => fits queue
  | ADead entry => fits entry
  | ARefused scope reason => counts_text scope ∧ counts_text reason
  | AFailed reason | AStandby reason => counts_text reason
  | Records records => counts records
  | AStream o => maybe_fits o
  | ABytes o => match o with Some b => counts b | None => True end
  | AFailedQueue queue => fits queue
  | ADueQueue queue => fits queue
  | AStanding standing => fits standing
  | AInstance o => maybe_fits o
  | ASecret o => maybe_fits o
  | ASecrets entries => counts entries ∧ Forall fits entries
  | _ => True
  end.
End answer.
End Answer.

(** ** What crosses the wire comes back as it was *)

Section roundtrips.
Context {X : XSecrets} {XO : XSecretsOk X} {C : Codec} {CO : CodecOk C}.

#[local] Hint Resolve name_form_rt flag_rt vec_form_rt ids_rt : codec.
#[local] Hint Extern 1 (rd_times _ _ _ = _) => apply times_rt : codec.

(** Whatever there is of it, where it is. *)
Lemma maybe_form_rt {A} {FA : Form A} {TA : Fits A} {FO : FormOk A} (o : option A) l :
  Answer.maybe_fits o → r_maybe fread (w_maybe write o ++ l) = COk (o, l).
Proof. intros Ho. apply maybe_rt. intros a -> l'. by apply form_rt. Qed.

#[export] Instance Request_ok : FormOk Request.Request.
Proof.
  intros r l Hf. cbn [Codec.write fread Request.Request_form].
  destruct r; cbn [fits Request.Request_fits] in Hf;
    unfold Request.read, Request.write, Request.write_late, w_flag;
    try (destruct from as [due place]); rewrite <- ?app_assoc; rt_step; cbv beta iota;
    unfold Request.one, Request.by_id, Request.page_of;
    lazymatch type of Hf with _ ∧ _ => destruct Hf | _ => idtac end;
    try solve [roundtrip].
  (* a kept record's chunk, of a Stream or of its body *)
  do 4 rt_step. by destruct stream.
Qed.

#[export] Instance Answer_ok : FormOk Answer.Answer.
Proof.
  intros a l Hf. cbn [Codec.write fread Answer.Answer_form].
  destruct a; cbn [fits Answer.Answer_fits] in Hf;
    unfold Answer.read, Answer.write, Answer.write_late;
    rewrite <- ?app_assoc; rt_step; cbv beta iota; unfold Answer.one, Answer.maybe;
    lazymatch type of Hf with _ ∧ _ => destruct Hf | _ => idtac end;
    try solve [roundtrip | erewrite rd_step by (apply maybe_form_rt; exact Hf); done].
  (* a chunk of a kept body *)
  erewrite rd_step; [done|]. apply maybe_rt. intros b -> l'. by apply counted_rt.
Qed.
End roundtrips.

(** ** The theorem *)

(** Where a request goes on the wire: its bytes, as [send] frames them and
    [receive] reads them. *)
Definition sent `{Form A} (a : A) : bytes := to_bytes a.
Definition received `{Form A} (frame : bytes) : cres A := from_bytes frame.
