(* ===== verification/Storage.v ===== *)
(** * Xmip Storage: the doorway to all storage (src/.src/storage.rs)

    [XmipStorage] is the trait: every operation the nodes of the Storage role
    serve, over whichever databases are behind them. [Embedded] answers to it
    in process, [Client] over the wire. An operation is given the storage as
    it is and answers it as it leaves it; a Publication is answered with when
    it is durable, which is waited on.

    [Operation] is the operations as data, each by what it answers, and
    [perform] an operation performed: what is said of every operation is said
    of them. *)

From S2P Require Import Prelude Word Engine Encrypted Store Codec Facts Records Batch Queue Hold.
From S2P Require Import Failed Origin Dead Claim Schema Instance Publication Secrets Row Columns.
From S2P Require Import Page Due Query.

Class XmipStorage {X : XSecrets} (S : Type) := {
  write_chunk : S → StreamChunk → S * result unit;
  read_chunk : S → StreamId → u32 → S * result (option StreamChunk);
  write_stream : S → StreamChunk → StreamRecord → S * result unit;
  read_stream : S → StreamId → S * result (option StreamRecord);
  write_message : S → MessageRecord → S * result unit;
  read_message : S → MessageId → S * result (option MessageRecord);
  write_journey : S → JourneyRecord → S * result unit;
  read_journey : S → JourneyId → S * result (option JourneyRecord);
  (** [Durable], and [Durable::wait]. *)
  durable : Type;
  wait_durable : S → durable → S * result unit;
  publish : S → Publication → S * result (list Claim * durable);
  read_held : S → u128 → u64 → u32 → S * result HeldQueue;
  read_failed : S → u128 → u64 → u32 → S * result FailedQueue;
  read_due : S → u128 → DuePart → u64 * u64 → u32 → S * result DueQueue;
  read_dead : S → u128 → u64 → u32 → S * result DeadQueue;
  read_dead_message : S → u128 → MessageId → S * result DeadEntry;
  replay : S → Replay → S * result Replayed;
  claim : S → JourneyId → string → u128 → N → S * result (option Claim);
  renew : S → list Claim → N → S * result (list Claim);
  release : S → Claim → S * result bool;
  hand_on : S → HandOn → S * result bool;
  turn : S → Turn → S * result bool;
  read_instance : S → u128 → S * result (option InstanceRecord);
  read_instance_key : S → u128 → S * result (option u128);
  write_audit : S → AuditEntry → S * result unit;
  keep_audit : S → u32 → u64 → S * result u32;
  read_kept_audit : S → AuditId → S * result (option KeptAudit);
  read_kept_audit_stream : S → AuditId → StreamId → S * result (option StreamRecord);
  read_kept_audit_chunk : S → AuditId → option StreamId → u32 → S * result (option bytes);
  write_administration : S → AdministrationRecord → S * result unit;
  read_administration : S → AdministrationKind → u128 → S * result (option AdministrationRecord);
  remove_administration : S → AdministrationKind → u128 → S * result unit;
  write_secret : S → SecretRecord → S * result unit;
  read_secret : S → SecretName → S * result (option SecretRecord);
  list_secrets : S → S * result (list SecretEntry);
  query : S → Query → S * result (list u128);
}.

(** What an operation leaves, and its answer made of another. *)
Definition answering {S A B} (f : A → B) (o : S * result A) : S * result B :=
  (o.1, match o.2 with Ok a => Ok (f a) | Err e => Err e end).

(** One operation after another that answered, the first failure answered. *)
Definition and_then {S A B} (o : S * result A) (f : S → A → S * result B) : S * result B :=
  match o with (s, Ok a) => f s a | (s, Err e) => (s, Err e) end.

(** ** The operations as data *)

Section operations.
Context {X : XSecrets}.

Inductive Operation : Type → Type :=
  | OWriteChunk (chunk : StreamChunk) : Operation unit
  | OReadChunk (stream : StreamId) (index : u32) : Operation (option StreamChunk)
  | OWriteStream (last : StreamChunk) (stream : StreamRecord) : Operation unit
  | OReadStream (stream : StreamId) : Operation (option StreamRecord)
  | OWriteMessage (message : MessageRecord) : Operation unit
  | OReadMessage (message : MessageId) : Operation (option MessageRecord)
  | OWriteJourney (journey : JourneyRecord) : Operation unit
  | OReadJourney (journey : JourneyId) : Operation (option JourneyRecord)
  | OPublish (publication : Publication) : Operation (list Claim)
  | OReadHeld (queue : u128) (from : u64) (most : u32) : Operation HeldQueue
  | OReadFailed (queue : u128) (from : u64) (most : u32) : Operation FailedQueue
  | OReadDue (queue : u128) (part : DuePart) (from : u64 * u64) (most : u32) : Operation DueQueue
  | OReadDead (queue : u128) (from : u64) (most : u32) : Operation DeadQueue
  | OReadDeadMessage (queue : u128) (message : MessageId) : Operation DeadEntry
  | OReplay (replay : Replay) : Operation Replayed
  | OClaim (journey : JourneyId) (holder : string) (token : u128) (lease : N) :
      Operation (option Claim)
  | ORenew (claims : list Claim) (lease : N) : Operation (list Claim)
  | ORelease (claim : Claim) : Operation bool
  | OHandOn (hand_on : HandOn) : Operation bool
  | OTurn (turn : Turn) : Operation bool
  | OReadInstance (instance : u128) : Operation (option InstanceRecord)
  | OReadInstanceKey (correlation : u128) : Operation (option u128)
  | OWriteAudit (entry : AuditEntry) : Operation unit
  | OKeepAudit (most : u32) (chunk : u64) : Operation u32
  | OReadKeptAudit (id : AuditId) : Operation (option KeptAudit)
  | OReadKeptAuditStream (id : AuditId) (stream : StreamId) : Operation (option StreamRecord)
  | OReadKeptAuditChunk (id : AuditId) (stream : option StreamId) (index : u32) :
      Operation (option bytes)
  | OWriteAdministration (record : AdministrationRecord) : Operation unit
  | OReadAdministration (kind : AdministrationKind) (id : u128) :
      Operation (option AdministrationRecord)
  | ORemoveAdministration (kind : AdministrationKind) (id : u128) : Operation unit
  | OWriteSecret (secret : SecretRecord) : Operation unit
  | OReadSecret (name : SecretName) : Operation (option SecretRecord)
  | OListSecrets : Operation (list SecretEntry)
  | OQuery (query : Query) : Operation (list u128).

(** An operation performed, a Publication waited on until it is durable. *)
Definition perform {S : Type} {XS : XmipStorage S} {A} (op : Operation A) (s : S) : S * result A :=
  match op with
  | OWriteChunk chunk => write_chunk s chunk
  | OReadChunk stream index => read_chunk s stream index
  | OWriteStream last stream => write_stream s last stream
  | OReadStream stream => read_stream s stream
  | OWriteMessage message => write_message s message
  | OReadMessage message => read_message s message
  | OWriteJourney journey => write_journey s journey
  | OReadJourney journey => read_journey s journey
  | OPublish publication =>
      and_then (publish s publication) (λ s '(held, durable),
        answering (λ _, held) (wait_durable s durable))
  | OReadHeld queue from most => read_held s queue from most
  | OReadFailed queue from most => read_failed s queue from most
  | OReadDue queue part from most => read_due s queue part from most
  | OReadDead queue from most => read_dead s queue from most
  | OReadDeadMessage queue message => read_dead_message s queue message
  | OReplay r => replay s r
  | OClaim journey holder token lease => claim s journey holder token lease
  | ORenew claims lease => renew s claims lease
  | ORelease c => release s c
  | OHandOn h => hand_on s h
  | OTurn t => turn s t
  | OReadInstance instance => read_instance s instance
  | OReadInstanceKey correlation => read_instance_key s correlation
  | OWriteAudit entry => write_audit s entry
  | OKeepAudit most chunk => keep_audit s most chunk
  | OReadKeptAudit id => read_kept_audit s id
  | OReadKeptAuditStream id stream => read_kept_audit_stream s id stream
  | OReadKeptAuditChunk id stream index => read_kept_audit_chunk s id stream index
  | OWriteAdministration record => write_administration s record
  | OReadAdministration kind id => read_administration s kind id
  | ORemoveAdministration kind id => remove_administration s kind id
  | OWriteSecret secret => write_secret s secret
  | OReadSecret name => read_secret s name
  | OListSecrets => list_secrets s
  | OQuery q => query s q
  end.
End operations.
