(* ===== verification/Delegated.v ===== *)
(** * Xmip Storage as whatever a Storage node is now
    (src/.src/storage/standby/delegated.rs, served.rs)

    Each operation is asked of what answers as it is asked: a primary's own
    databases, lent for that operation ([Lending]); of one that is not, a
    refusal to a node asking it ([served]), or the primary over the wire for
    the node's own work ([reaching]). [Services] is a node's own databases and
    the client it reaches its primary through, whatever implements them. *)

From S2P Require Import Prelude Word Engine Encrypted Store Codec Facts Records Batch Queue Hold.
From S2P Require Import Failed Origin Dead Claim Schema Instance Publication Secrets Row Columns.
From S2P Require Import Page Due Query Copies Finding Storage.
From stdpp Require Import pretty.

Section delegated.
Context {X : XSecrets} {A B : Type} {XA : XmipStorage A} {XB : XmipStorage B}.

(** A node's databases, its client, whether [lent] lends the databases now -
    it is the primary, and not stopping - and what it says of itself. *)
Record Services : Type := { own : A; client_ : B; lends : bool; says : string }.

Definition with_own (a : A) (s : Services) : Services :=
  {| own := a; client_ := client_ s; lends := lends s; says := says s |}.
Definition with_client (b : B) (s : Services) : Services :=
  {| own := own s; client_ := b; lends := lends s; says := says s |}.

(** [Now]: what answers an operation, or why nothing does. *)
Inductive Answers : Set := Own | Reached.
Definition Now : Type := Services → result Answers.

(** [StorageNode::served] and [StorageNode::reaching]. *)
Definition served : Now := λ s, if lends s then Ok Own else Err (Standby (says s)).
Definition reaching : Now := λ s, Ok (if lends s then Own else Reached).

(** [self.now()?.storage], asked. *)
Definition asked {T} (now : Now) (s : Services) (f : A → A * result T) (g : B → B * result T) :
    Services * result T :=
  match now s with
  | Err e => (s, Err e)
  | Ok Own => let (a, r) := f (own s) in (with_own a s, r)
  | Ok Reached => let (b, r) := g (client_ s) in (with_client b s, r)
  end.

(** [publish]: how long it is to be waited on is of the one that answered. *)
Definition delegated_publish (now : Now) (s : Services) (p : Publication)
    : Services * result (list Claim * (durable (S := A) + durable (S := B))) :=
  asked now s
    (λ a, answering (λ r, (r.1, inl r.2)) (publish a p))
    (λ b, answering (λ r, (r.1, inr r.2)) (publish b p)).
Definition delegated_wait (s : Services) (d : durable (S := A) + durable (S := B)) : Services * result unit :=
  match d with
  | inl d => let (a, r) := wait_durable (own s) d in (with_own a s, r)
  | inr d => let (b, r) := wait_durable (client_ s) d in (with_client b s, r)
  end.

(** [impl XmipStorage for Delegated]. *)
Definition delegated_storage (now : Now) : XmipStorage Services := {|
  write_chunk s chunk := asked now s (λ a, write_chunk a chunk) (λ b, write_chunk b chunk);
  read_chunk s stream index := asked now s (λ a, read_chunk a stream index) (λ b, read_chunk b stream index);
  write_stream s last stream := asked now s (λ a, write_stream a last stream) (λ b, write_stream b last stream);
  read_stream s stream := asked now s (λ a, read_stream a stream) (λ b, read_stream b stream);
  write_message s message := asked now s (λ a, write_message a message) (λ b, write_message b message);
  read_message s message := asked now s (λ a, read_message a message) (λ b, read_message b message);
  write_journey s journey := asked now s (λ a, write_journey a journey) (λ b, write_journey b journey);
  read_journey s journey := asked now s (λ a, read_journey a journey) (λ b, read_journey b journey);
  durable := durable (S := A) + durable (S := B);
  wait_durable := delegated_wait;
  publish := delegated_publish now;
  read_held s queue from most := asked now s (λ a, read_held a queue from most) (λ b, read_held b queue from most);
  read_failed s queue from most :=
    asked now s (λ a, read_failed a queue from most) (λ b, read_failed b queue from most);
  read_due s queue part from most :=
    asked now s (λ a, read_due a queue part from most) (λ b, read_due b queue part from most);
  read_dead s queue from most := asked now s (λ a, read_dead a queue from most) (λ b, read_dead b queue from most);
  read_dead_message s queue m := asked now s (λ a, read_dead_message a queue m) (λ b, read_dead_message b queue m);
  replay s r := asked now s (λ a, replay a r) (λ b, replay b r);
  claim s journey holder token lease :=
    asked now s (λ a, claim a journey holder token lease) (λ b, claim b journey holder token lease);
  renew s claims lease := asked now s (λ a, renew a claims lease) (λ b, renew b claims lease);
  release s c := asked now s (λ a, release a c) (λ b, release b c);
  hand_on s h := asked now s (λ a, hand_on a h) (λ b, hand_on b h);
  turn s t := asked now s (λ a, turn a t) (λ b, turn b t);
  read_instance s instance := asked now s (λ a, read_instance a instance) (λ b, read_instance b instance);
  read_instance_key s correlation :=
    asked now s (λ a, read_instance_key a correlation) (λ b, read_instance_key b correlation);
  write_audit s entry := asked now s (λ a, write_audit a entry) (λ b, write_audit b entry);
  keep_audit s most chunk := asked now s (λ a, keep_audit a most chunk) (λ b, keep_audit b most chunk);
  read_kept_audit s id := asked now s (λ a, read_kept_audit a id) (λ b, read_kept_audit b id);
  read_kept_audit_stream s id stream :=
    asked now s (λ a, read_kept_audit_stream a id stream) (λ b, read_kept_audit_stream b id stream);
  read_kept_audit_chunk s id stream index :=
    asked now s (λ a, read_kept_audit_chunk a id stream index) (λ b, read_kept_audit_chunk b id stream index);
  write_administration s record :=
    asked now s (λ a, write_administration a record) (λ b, write_administration b record);
  read_administration s kind id :=
    asked now s (λ a, read_administration a kind id) (λ b, read_administration b kind id);
  remove_administration s kind id :=
    asked now s (λ a, remove_administration a kind id) (λ b, remove_administration b kind id);
  write_secret s secret := asked now s (λ a, write_secret a secret) (λ b, write_secret b secret);
  read_secret s name := asked now s (λ a, read_secret a name) (λ b, read_secret b name);
  list_secrets s := asked now s (λ a, list_secrets a) (λ b, list_secrets b);
  query s q := asked now s (λ a, query a q) (λ b, query b q);
|}.
End delegated.
Arguments Services : clear implicits.

(** ** What a node says of itself (served.rs) *)

Definition summed (l : list N) : u64 := wrap (foldr N.add 0%N l).
Definition each_of {T} (t : each T) : list T := (at_db t) <$> DATABASES.

(** [said]: of the [followers], each by where it connected from, in that order,
    and the next write of each database it is handed. Every next is 1 at
    least. *)
Definition said (listed : list string) (role : Role) (epoch : u64) (nexts : each u64)
    (followers : list (string * each u64)) (last : option string) : string :=
  let writes := summed ((λ next : u64, uval next - 1)%N <$> each_of nexts) in
  let behind := (λ '(at_, next),
      at_ +:+ " " +:+ pretty (uval (summed (uval <$> each_of nexts)) - uval (summed (uval <$> each_of next)))%N +:+
      " writes behind") <$> followers in
  let what :=
    match role with
    | Finding =>
        "a Storage node finding its primary among " +:+ String.concat ", " listed +:+ ", epoch " +:+
        pretty (uval epoch)
    | Primary =>
        "the primary Storage node, epoch " +:+ pretty (uval epoch) +:+ ", " +:+
        match behind with
        | [] => "no standby following"
        | _ => "standbys " +:+ String.concat ", " behind
        end
    | Standby_ primary =>
        "a standby Storage node of the primary at " +:+ primary +:+ ", epoch " +:+ pretty (uval epoch)
    end in
  match last with
  | Some last => what +:+ ", " +:+ pretty (uval writes) +:+ " writes held; " +:+ last
  | None => what +:+ ", " +:+ pretty (uval writes) +:+ " writes held"
  end.

(** ** The theorems *)

Module DelegatedTheorems.
Section theorems.
Context {X : XSecrets} {A B : Type} {XA : XmipStorage A} {XB : XmipStorage B}.

(** Every operation of a delegated Storage is the same operation of what
    answers, and of nothing else: a Publication is waited on where it was
    made. *)
Lemma delegated_performs (now : Now) {T} (op : Operation T) (s : Services A B) :
  perform (XS := delegated_storage now) op s = asked now s (perform op) (perform op).
Proof.
  destruct op; try reflexivity. cbn [perform publish delegated_storage wait_durable].
  unfold delegated_publish, asked. cbn [perform]. unfold answering, and_then.
  destruct (now s) as [[]|e]; [..|done].
  - destruct (publish (own s) publication) as [a [[held d]|e]]; cbn; [|done].
    by destruct (wait_durable a d) as [a' [[]|e]].
  - destruct (publish (client_ s) publication) as [b [[held d]|e]]; cbn; [|done].
    by destruct (wait_durable b d) as [b' [[]|e]].
Qed.

(** What a Storage node serves and what its own work reaches are one
    Storage: while its databases are lent both perform every operation on them
    alone; while they are not, a node asking is refused in words with nothing
    done, and the node's own work is performed through its client, its own
    databases left as they are. *)
Theorem served_and_reached {T} (op : Operation T) (s : Services A B) :
  (lends s = true →
     let (a, r) := perform op (own s) in
     perform (XS := delegated_storage served) op s = (with_own a s, r) ∧
     perform (XS := delegated_storage reaching) op s = (with_own a s, r)) ∧
  (lends s = false →
     perform (XS := delegated_storage served) op s = (s, Err (Standby (says s))) ∧
     let (b, r) := perform op (client_ s) in
     perform (XS := delegated_storage reaching) op s = (with_client b s, r)).
Proof.
  rewrite !delegated_performs. unfold asked, served, reaching. split; intros ->.
  - by destruct (perform op (own s)).
  - by destruct (perform op (client_ s)).
Qed.
End theorems.
End DelegatedTheorems.
