(* ===== verification/Server.v ===== *)
(** * A Storage node serving Xmip Storage (src/.src/storage/server.rs,
    server/admitted.rs)

    Every request on a connection admitted before it is answered, each
    answered by the operations of the databases behind ([answer]), one after
    another until the node hangs up. Who the Storage plane admits is the
    authorize crate's to say by the rules given it ([Admission]); who a
    connection proved, by its certificate, is an argument, as is the Storage
    node of several the server may be of. *)

From S2P Require Import Prelude Word Engine Encrypted Store Codec Facts Records Batch Queue Hold.
From S2P Require Import Failed Origin Dead Claim Schema Instance Publication Secrets Row Columns.
From S2P Require Import Page Due Query Copies Shipped Wire Storage.
Import Request Answer.

(** [authorize::plane]'s rules: what may be done, to which operation ([*] is
    every one), by whom of at least which standing. *)
Record Rule : Set := { does : string; operation_ : string; at_least : N }.

Definition PERSON : N := 0.
Definition NODE : N := 1.

(** [RULES]. *)
Definition RULES : list Rule := [
  {| does := "read"; operation_ := "read_secret"; at_least := NODE |};
  {| does := "read"; operation_ := "list_secrets"; at_least := NODE |};
  {| does := "write"; operation_ := "write_secret"; at_least := NODE |};
  {| does := "read"; operation_ := "*"; at_least := NODE |};
  {| does := "write"; operation_ := "*"; at_least := NODE |} ].

(** [authorize::plane::admit]: refused in words, or not. *)
Class Admission := admits : option string → N → string * string → list Rule → option string.

(** What the server relies on of it: who is below the standing every rule
    asks of what it does is not admitted, and who is at or above it is, where
    a rule is of the operation. *)
Class AdmissionOk (A : Admission) : Prop := {
  admit_below who standing asked rules :
    (∀ r, r ∈ rules → does r = asked.1 → (standing < at_least r)%N) →
    admits who standing asked rules ≠ None;
  admits_above who standing asked rules :
    (∃ r, r ∈ rules ∧ does r = asked.1 ∧ (operation_ r = asked.2 ∨ operation_ r = "*"%string)) →
    (∀ r, r ∈ rules → does r = asked.1 → (at_least r ≤ standing)%N) →
    admits who standing asked rules = None;
}.

(** [caller]'s standing of a certificate: whether it authenticates servers;
    none is a person's. *)
Definition caller_standing (certificate : option bool) : N :=
  match certificate with Some true => NODE | _ => PERSON end.

Section server.
Context {X : XSecrets} {S : Type} {XS : XmipStorage S}.
Context (secret_error : SecretError → string).

(** What an operation came to, as it is answered. *)
Definition answered {A} (f : A → Answer) (o : S * result A) : S * Answer :=
  (o.1, match o.2 with
        | Ok a => f a
        | Err (Refused scope reason) => ARefused scope reason
        | Err (Standby reason) => AStandby reason
        | Err other => AFailed (display secret_error other)
        end).

Definition done (_ : unit) : Answer := Done.

(** [Vec] of an [Option]: [into_iter().collect()]. *)
Definition collected {A} (o : option A) : list A := match o with Some a => [a] | None => [] end.

(** [answer]: the one place an operation on the wire becomes a call of the
    operations. A lease and a chunk's size cross in 64 bits; [usize] is as
    wide. *)
Definition answer (s : S) (request : Request) : S * Answer :=
  match request with
  | WriteChunk chunk => answered done (write_chunk s chunk)
  | ReadChunk stream index => answered AChunk (read_chunk s stream index)
  | WriteMessage message => answered done (write_message s message)
  | ReadMessage id => answered AMessage (read_message s id)
  | WriteJourney journey => answered done (write_journey s journey)
  | ReadJourney id => answered AJourney (read_journey s id)
  | AskClaim c lease =>
      answered AClaim (Storage.claim s (c_journey c) (c_holder c) (c_token c) (uval lease))
  | Renew claims lease => answered AClaims (Storage.renew s claims (uval lease))
  | Release c => answered Yes (Storage.release s c)
  | AskHandOn h => answered Yes (Storage.hand_on s h)
  | AskTurn t => answered Yes (Storage.turn s t)
  | ReadInstance id => answered AInstance (Storage.read_instance s id)
  | ReadInstanceKey id => answered (Records ∘ collected) (Storage.read_instance_key s id)
  | WriteAudit entry => answered done (write_audit s entry)
  | KeepAudit most chunk => answered ACount (keep_audit s most chunk)
  | ReadKeptAudit id => answered AAudit (read_kept_audit s id)
  | WriteAdministration record => answered done (write_administration s record)
  | ReadAdministration kind id => answered AAdministration (read_administration s kind id)
  | RemoveAdministration kind id => answered done (remove_administration s kind id)
  | WriteSecret secret => answered done (write_secret s secret)
  | ReadSecret name => answered ASecret (read_secret s name)
  | ListSecrets => answered ASecrets (list_secrets s)
  | Publish publication =>
      answered AClaims (and_then (publish s publication) (λ s '(held, durable),
        answering (λ _, held) (wait_durable s durable)))
  | ReadHeld queue from most => answered AHeld (Storage.read_held s queue from most)
  | ReadDue queue part from most => answered ADueQueue (Storage.read_due s queue part from most)
  | ReadFailed queue from most => answered AFailedQueue (Storage.read_failed s queue from most)
  | ReadDead queue from most => answered ADeadQueue (Storage.read_dead s queue from most)
  | ReadDeadMessage queue message => answered ADead (Storage.read_dead_message s queue message)
  | AskReplay r => answered AReplayed (Storage.replay s r)
  | AskQuery q => answered Records (query s q)
  | WriteStream last stream => answered done (write_stream s last stream)
  | ReadStream id => answered AStream (read_stream s id)
  | ReadKeptAuditStream id stream => answered AStream (read_kept_audit_stream s id stream)
  | ReadKeptAuditChunk id stream index => answered ABytes (read_kept_audit_chunk s id stream index)
  | AskStanding | AskFollow _ =>
      answered done (s, Err (Failed_ "a Storage node's standing is its server's to answer"))
  end.

(** ** A connection *)

(** [Serving::standing]: one Storage node alone is the primary of no epoch,
    and hands its writes to nobody. *)
Definition alone_standing : Standing :=
  {| sg_process := wrap 0; sg_primary := true; sg_epoch := wrap 0; sg_history := wrap 0;
     sg_next := all_of (wrap 1); sg_copying := false |}.

(** What a request came to on its connection: an answer and the next one
    awaited, a refusal and the end, or a standby handed the writes from then
    on. *)
Inductive Reply : Type :=
  | GoesOn (a : Answer)
  | Ends (a : Answer)
  | Ships (asked : Follow).

Context {A : Admission} {C : Codec}.

(** One request of [serve], of the caller [who] of [standing]; [node] is
    what the Storage node of several the server is of says it is. *)
Definition serve_request (who : option string) (standing : N) (node : option Standing) (s : S)
    (request : Request) : S * Reply :=
  match admits who standing (operation request) RULES with
  | Some refused => (s, Ends (AFailed refused))
  | None =>
      match request with
      | AskStanding => (s, GoesOn (AStanding (default alone_standing node)))
      | AskFollow asked =>
          match node with
          | Some _ => (s, Ships asked)
          | None => (s, GoesOn (AFailed
              "this Storage node is the only one: it hands its writes to none"))
          end
      | request => let '(s, a) := answer s request in (s, GoesOn a)
      end
  end.

(** [serve]: the frames of one connection, each a request or the end of it;
    the storage left, and the answers sent. *)
Fixpoint serve (who : option string) (standing : N) (node : option Standing) (s : S)
    (frames : list bytes) : S * list bytes :=
  match frames with
  | [] => (s, [])
  | frame :: frames =>
      match (received frame : cres Request) with
      | CErr _ => (s, [])
      | COk request =>
          match serve_request who standing node s request with
          | (s, GoesOn a) => let '(s, sent_) := serve who standing node s frames in (s, sent a :: sent_)
          | (s, Ends a) => (s, [sent a])
          | (s, Ships _) => (s, [])
          end
      end
  end.
End server.
