(* ===== verification/Listening.v ===== *)
(** * A Storage node's server and its stop (src/.src/storage/server.rs)

    [StorageServer]: the thread that accepts, a thread for each connection it
    accepted, and the [halt] that ends them all, as a step relation over every
    interleaving. What a connection is answered is [Server]'s; here it is
    served, hung up on, or idle when it looks whether the server is stopping.
    The accept is woken by a connection of the server's own
    ([net::accepting]): the net crate's, relied on for one thing, that it
    returns once the thread it wakes has ended. *)

From S2P Require Import Prelude.
From stdpp Require Import relations.

(** ** The threads *)

(** The accepting thread: in [accept]; with what it gave, before it looks
    whether the server is stopping; with a connection it is to serve; with the
    thread it started for one, before it is listed; returned. *)
Inductive Accepting : Set :=
  | Accepts | Given (connection : bool) | Settles | Started (i : nat) | Returned.

(** A connection's thread. *)
Inductive Conn : Set := Served | Ended.

(** The stop: not called; waking the accept; waiting for each thread listed
    when it took the list; done. *)
Inductive Halt : Set := NotCalled | Wakes | Joins (left_ : list nat) | Halted.

(** The server; [requests] counts those it was asked. *)
Record Server : Set := {
  stopping : bool;
  accepting : Accepting;
  listed : list nat;
  threads : list Conn;
  halt : Halt;
  requests : nat;
}.

Definition with_accepting (a : Accepting) (s : Server) : Server :=
  {| stopping := stopping s; accepting := a; listed := listed s; threads := threads s; halt := halt s;
     requests := requests s |}.
Definition with_halt (h : Halt) (s : Server) : Server :=
  {| stopping := stopping s; accepting := accepting s; listed := listed s; threads := threads s; halt := h;
     requests := requests s |}.
Definition with_thread (i : nat) (c : Conn) (s : Server) : Server :=
  {| stopping := stopping s; accepting := accepting s; listed := listed s; threads := <[i := c]> (threads s);
     halt := halt s; requests := requests s |}.

(** [StorageServer::serving]: started. *)
Definition serving : Server :=
  {| stopping := false; accepting := Accepts; listed := []; threads := []; halt := NotCalled; requests := 0 |}.

(** [accept]'s look, once it was given a connection or a failure. *)
Definition looked (connection : bool) (s : Server) : Server :=
  with_accepting (if stopping s then Returned else if connection then Settles else Accepts) s.

(** The thread started for a connection. *)
Definition spawned (s : Server) : Server :=
  {| stopping := stopping s; accepting := Started (length (threads s)); listed := listed s;
     threads := threads s ++ [Served]; halt := halt s; requests := requests s |}.

(** It listed, and those that finished taken off. *)
Definition unfinished (s : Server) (i : nat) : Prop := threads s !! i ≠ Some Ended.
#[export] Instance conn_eq_dec : EqDecision Conn.
Proof. solve_decision. Defined.
#[export] Instance unfinished_dec s i : Decision (unfinished s i).
Proof. unfold unfinished. apply _. Defined.
Definition pushed (i : nat) (s : Server) : Server :=
  {| stopping := stopping s; accepting := Accepts; listed := filter (unfinished s) (listed s) ++ [i];
     threads := threads s; halt := halt s; requests := requests s |}.

(** A request asked over a connection, and answered: [serve] reads the next
    without a look. *)
Definition asked (s : Server) : Server :=
  {| stopping := stopping s; accepting := accepting s; listed := listed s; threads := threads s; halt := halt s;
     requests := S (requests s) |}.

(** [Watched]: nothing came in a while. *)
Definition watched (i : nat) (s : Server) : Server :=
  if stopping s then with_thread i Ended s else s.

(** [StorageServer::halt]: called, the first time or again; the accept woken
    and the list taken; each thread of it joined. *)
Definition called (s : Server) : Server :=
  if stopping s then s
  else {| stopping := true; accepting := accepting s; listed := listed s; threads := threads s; halt := Wakes;
          requests := requests s |}.
Definition woken (s : Server) : Server :=
  {| stopping := stopping s; accepting := accepting s; listed := []; threads := threads s;
     halt := Joins (listed s); requests := requests s |}.
Definition joined (left_ : list nat) (s : Server) : Server := with_halt (Joins left_) s.
Definition done (s : Server) : Server := with_halt Halted s.

(** What the threads come to of themselves. *)
Inductive progress : Server → Server → Prop :=
  | AcceptGives s connection : accepting s = Accepts → progress s (with_accepting (Given connection) s)
  | AcceptLooks s connection : accepting s = Given connection → progress s (looked connection s)
  | AcceptDrops s : accepting s = Settles → progress s (with_accepting Accepts s)
  | AcceptSpawns s : accepting s = Settles → progress s (spawned s)
  | AcceptPushes s i : accepting s = Started i → progress s (pushed i s)
  | ConnWatches s i : threads s !! i = Some Served → stopping s = true → progress s (watched i s)
  | ConnEnds s i : threads s !! i = Some Served → progress s (with_thread i Ended s)
  | HaltWoken s : halt s = Wakes → accepting s = Returned → progress s (woken s)
  | HaltJoins s i left_ : halt s = Joins (i :: left_) → threads s !! i = Some Ended → progress s (joined left_ s)
  | HaltDone s : halt s = Joins [] → progress s (done s).

(** And what is done to them: a request asked, a stop called. *)
Inductive step : Server → Server → Prop :=
  | Goes s s' : progress s s' → step s s'
  | Asks s i : threads s !! i = Some Served → step s (asked s)
  | Calls s : step s (called s).

(** ** Nobody is served after *)

(** Every thread that serves is listed, or to be joined, or being listed. *)
Record wf (s : Server) : Prop := {
  wf_stopping : halt s ≠ NotCalled → stopping s = true;
  wf_running : halt s = NotCalled → stopping s = false;
  wf_started i : accepting s = Started i → is_Some (threads s !! i);
  wf_listed i : threads s !! i = Some Served →
    i ∈ listed s ∨ accepting s = Started i ∨ ∃ left_, halt s = Joins left_ ∧ i ∈ left_;
  wf_known i : i ∈ listed s → is_Some (threads s !! i);
  wf_joined left_ i : halt s = Joins left_ → i ∈ left_ → is_Some (threads s !! i);
  wf_returned : (∃ left_, halt s = Joins left_) ∨ halt s = Halted → accepting s = Returned ∧ listed s = [];
  wf_halted i : halt s = Halted → threads s !! i ≠ Some Served;
}.

Lemma wf_serving : wf serving.
Proof.
  split; cbn; try done; try (by intros i ?%elem_of_nil).
  - intros [[left_ ?]|?]; done.
Qed.

(** Which threads serve after one of them ended. *)
Lemma served_after i j (s : Server) : threads (with_thread i Ended s) !! j = Some Served ↔ threads s !! j = Some Served ∧ i ≠ j.
Proof.
  cbn. destruct (decide (i = j)) as [->|Hne].
  - split; [|by intros [_ ?]]. intros E. exfalso.
    destruct (decide (j < length (threads s))%nat) as [Hl|Hl]; [by rewrite list_lookup_insert_eq in E|].
    rewrite list_insert_ge in E by lia. apply lookup_lt_Some in E. lia.
  - rewrite list_lookup_insert_ne by done. tauto.
Qed.
Lemma known_after i j c (s : Server) : is_Some (threads (with_thread i c s) !! j) ↔ is_Some (threads s !! j).
Proof. cbn. rewrite !lookup_lt_is_Some. by rewrite length_insert. Qed.

Lemma ended_wf i s : wf s → wf (with_thread i Ended s).
Proof.
  intros [H1 H2 H3 H4 H5 H6 H7 H8]. split; try first [done|assumption].
  - intros j E. apply known_after. by apply H3.
  - intros j [E _]%served_after. by apply H4.
  - intros j E. apply known_after. by apply H5.
  - intros left_ j E Hj. apply known_after. by eapply H6.
  - intros j E [Es _]%served_after. by apply (H8 j).
Qed.

(** A turn of the accepting thread, the rest as it was. *)
Lemma accepting_wf a s : wf s → accepting s ≠ Returned → (∀ i, accepting s ≠ Started i) → (∀ i, a ≠ Started i) →
  wf (with_accepting a s).
Proof.
  intros [H1 H2 H3 H4 H5 H6 H7 H8] Hr Hs Ha. split; try first [done|assumption].
  - intros i E. by destruct (Ha i).
  - intros i E. destruct (H4 i E) as [?|[E'|?]]; [by left|by destruct (Hs i)|by do 2 right].
  - intros E. cbn in E. by destruct (H7 E) as [? _].
Qed.

Lemma server_progress_wf s s' : wf s → progress s s' → wf s'.
Proof.
  intros H Hp. pose proof H as [H1 H2 H3 H4 H5 H6 H7 H8].
  destruct Hp as [s connection E|s connection E|s E|s E|s i E|s i E Est|s i E|s E Ea|s i left_ E Ei|s E].
  - apply accepting_wf; [done|by rewrite E|intros i; by rewrite E|by intros i].
  - unfold looked. destruct (stopping s) eqn:Es; [|apply accepting_wf; [done|by rewrite E|intros i; by rewrite E|by destruct connection]].
    split; cbn; try first [done|assumption].
    + intros Eh. by specialize (H2 Eh).
    + intros i Ei. destruct (H4 i Ei) as [?|[E'|?]]; [by left|congruence|by do 2 right].
    + intros Hh. split; [done|]. by destruct (H7 Hh).
  - apply accepting_wf; [done|by rewrite E|intros i; by rewrite E|by intros i].
  - unfold spawned. split; cbn; try first [done|assumption].
    + intros i [= <-]. rewrite lookup_app_r, Nat.sub_diag by lia. done.
    + intros i Ei. apply lookup_app_Some in Ei as [Ei|[Hl Ei]].
      * destruct (H4 i Ei) as [?|[E'|?]]; [by left|congruence|by do 2 right].
      * right. left. apply lookup_lt_Some in Ei. cbn in Ei. f_equal. lia.
    + intros i Hi. apply H5 in Hi. apply lookup_lt_is_Some in Hi. apply lookup_lt_is_Some. rewrite length_app. cbn. lia.
    + intros left_ i El Hi. destruct (H7 ltac:(eauto)) as [Er _]. congruence.
    + intros Hh. destruct (H7 Hh) as [Er _]. congruence.
    + intros i Eh. destruct (H7 ltac:(by right)) as [Er _]. congruence.
  - unfold pushed. split; cbn; try first [done|assumption].
    + intros j Ej. left. apply elem_of_app. destruct (H4 j Ej) as [Hj|[E'|(left_ & El & _)]].
      * left. apply list_elem_of_filter. split; [|done]. unfold unfinished. by rewrite Ej.
      * right. rewrite E in E'. injection E' as ->. by left.
      * destruct (H7 ltac:(eauto)) as [Er _]. congruence.
    + intros j [[_ Hj]%list_elem_of_filter|Hj]%elem_of_app; [by apply H5|].
      apply list_elem_of_singleton in Hj as ->. by apply H3.
    + intros Hh. destruct (H7 Hh) as [Er _]. congruence.
  - unfold watched. rewrite Est. by apply ended_wf.
  - by apply ended_wf.
  - unfold woken. split; cbn; try first [done|assumption].
    + intros _. by apply H1; rewrite E.
    + intros j Ej. destruct (H4 j Ej) as [Hj|[E'|(left_ & El & _)]]; [|congruence|congruence].
      do 2 right. eauto.
    + by intros j ?%elem_of_nil.
    + intros left_ j [= <-] Hj. by apply H5.
  - unfold joined. split; cbn; try first [done|assumption].
    + intros _. apply H1. by rewrite E.
    + intros j Ej. destruct (H4 j Ej) as [Hj|[E'|(l & El & Hj)]]; [by left|by right; left|].
      rewrite E in El. injection El as <-. apply elem_of_cons in Hj as [->|Hj]; [congruence|]. do 2 right. eauto.
    + intros l j [= <-] Hj. eapply H6; [done|by right].
    + intros _. apply H7. eauto.
  - unfold done. split; cbn; try first [done|assumption].
    + intros _. apply H1. by rewrite E.
    + intros j Ej. destruct (H4 j Ej) as [Hj|[E'|(l & El & Hj)]]; [by left|by right; left|].
      rewrite E in El. injection El as <-. by apply elem_of_nil in Hj.
    + intros _. apply H7. eauto.
    + intros j _ Ej. destruct (H7 ltac:(eauto)) as [Er El]. destruct (H4 j Ej) as [Hj|[E'|(l & El' & Hj)]].
      * rewrite El in Hj. by apply elem_of_nil in Hj.
      * congruence.
      * rewrite E in El'. injection El' as <-. by apply elem_of_nil in Hj.
Qed.

Lemma server_step_wf s s' : wf s → step s s' → wf s'.
Proof.
  intros H Hst. destruct Hst as [s0 s1 Hp|s0 i E|s0].
  { by eapply server_progress_wf. }
  { destruct H as [H1 H2 H3 H4 H5 H6 H7 H8]. constructor; assumption. }
  unfold called. destruct (stopping s0) eqn:Es; [done|].
  assert (halt s0 = NotCalled) as Eh by (destruct (halt s0) eqn:E; [done|..]; rewrite (wf_stopping _ H) in Es by (by rewrite E); done).
  destruct H as [H1 H2 H3 H4 H5 H6 H7 H8]. split; cbn; try first [done|assumption].
  - intros j Ej. destruct (H4 j Ej) as [Hj|[E'|(l & El' & Hj)]]; [by left|by right; left|congruence].
  - by intros [[l ?]|?].
Qed.
Lemma server_steps_wf s s' : wf s → rtc step s s' → wf s'.
Proof. intros H. induction 1 as [|s s1 s' Hs _ IH]; [done|]. apply IH. by eapply server_step_wf. Qed.

(** ** It ends *)

Definition accepting_to_go (a : Accepting) : nat :=
  match a with Returned => 0 | Given _ => 1 | Accepts => 2 | Started _ => 4 | Settles => 6 end.
Definition threads_to_go (l : list Conn) : nat := length (filter (λ c, c = Served) l).
Definition halt_to_go (s : Server) : nat :=
  match halt s with
  | NotCalled | Halted => 0
  | Wakes => length (listed s) + 2
  | Joins left_ => length left_ + 1
  end.
(** How many steps of its own a server that is stopping has left. *)
Definition left_to_go (s : Server) : nat :=
  accepting_to_go (accepting s) + threads_to_go (threads s) + halt_to_go s.

Lemma ended_to_go i l : l !! i = Some Served → S (threads_to_go (<[i := Ended]> l)) = threads_to_go l.
Proof.
  intros E. pose proof (take_drop_middle l i Served E) as El.
  rewrite insert_take_drop by (by eapply lookup_lt_Some). revert El.
  generalize (take i l) (drop (S i) l). intros k1 k2 <-.
  unfold threads_to_go. rewrite !(filter_app (λ c : Conn, c = Served)), !filter_cons.
  rewrite (decide_False (P := Ended = Served)) by done. rewrite (decide_True (P := Served = Served)) by done.
  rewrite !length_app. cbn [length]. lia.
Qed.

Lemma spawned_to_go l : threads_to_go (l ++ [Served]) = S (threads_to_go l).
Proof. unfold threads_to_go. rewrite filter_app, length_app, filter_cons_True by done. cbn. lia. Qed.

Lemma server_progress_less s s' : wf s → stopping s = true → progress s s' →
  stopping s' = true ∧ (left_to_go s' < left_to_go s)%nat.
Proof.
  intros H Hs Hp.
  destruct Hp as [s connection E|s connection E|s E|s E|s i E|s i E Est|s i E|s E Ea|s i left_ E Ei|s E];
    unfold left_to_go, looked, watched; rewrite ?Hs; cbn [stopping accepting threads with_accepting with_thread
      spawned pushed woken joined done with_halt]; (split; [done|]).
  - rewrite E. unfold halt_to_go. cbn. lia.
  - rewrite E. unfold halt_to_go. cbn. lia.
  - rewrite E. unfold halt_to_go. cbn. lia.
  - rewrite E, spawned_to_go. unfold halt_to_go. cbn. lia.
  - rewrite E. unfold halt_to_go. cbn. destruct (halt s) eqn:Eh; try lia. rewrite length_app. cbn.
    pose proof (length_filter (unfinished s) (listed s)). lia.
  - pose proof (ended_to_go i (threads s) E). unfold halt_to_go. cbn [halt listed with_thread]. lia.
  - pose proof (ended_to_go i (threads s) E). unfold halt_to_go. cbn [halt listed with_thread]. lia.
  - unfold halt_to_go. rewrite E. cbn. lia.
  - unfold halt_to_go. rewrite E. cbn. lia.
  - unfold halt_to_go. rewrite E. cbn. lia.
Qed.

(** A stop under way is not stuck: what it waits for has a step of its own. *)
Lemma server_progress_on s : wf s → stopping s = true → halt s ≠ Halted → ∃ s', progress s s'.
Proof.
  intros H Hs Hh. destruct (halt s) as [| |[|i left_]|] eqn:E.
  - by rewrite (wf_running _ H E) in Hs.
  - destruct (accepting s) as [|connection| |i|] eqn:Ea;
      [exists (with_accepting (Given true) s); by apply AcceptGives|eexists; by eapply AcceptLooks
      |eexists; by apply AcceptDrops|eexists; by eapply AcceptPushes|eexists; by apply HaltWoken].
  - eexists. by apply HaltDone.
  - destruct (wf_joined _ H (i :: left_) i E ltac:(by left)) as [[] Ei].
    + eexists. by eapply ConnWatches.
    + eexists. by eapply HaltJoins.
  - done.
Qed.

(** Nothing is done by a server whose stop ended, nor to it. *)
Lemma halted_still s s' : wf s → halt s = Halted → step s s' → s' = s.
Proof.
  intros H Eh Hst. pose proof (wf_stopping _ H ltac:(by rewrite Eh)) as Es.
  destruct (wf_returned _ H ltac:(by right)) as [Ea _]. pose proof (wf_halted _ H) as Hn.
  destruct Hst as [s0 s1 Hp|s0 i E|s0].
  - destruct Hp; try congruence; by destruct (Hn i Eh).
  - by destruct (Hn i Eh).
  - unfold called. by rewrite Es.
Qed.

(** ** The theorems *)

Module ListeningTheorems.

(** C26. A server's stop ends, and nobody is served after. Of a server that
    is stopping, whatever it was doing when the stop was called: each step its
    threads make of themselves - a connection that came looked at, a thread
    listed, a connection found idle or hung up, a thread joined - brings the end
    nearer, at most as many as known from where it stands; while the stop has
    not returned there is such a step; and once it has, the accepting thread has
    returned, no connection is served, and nothing changes that again. *)
Theorem stop_ends_every_connection (s : Server) :
  rtc step serving s → stopping s = true →
  (∀ n s', nsteps progress n s s' → n ≤ left_to_go s ∧ (halt s' ≠ Halted → ∃ s'', progress s' s'')) ∧
  (halt s = Halted → accepting s = Returned ∧ (∀ i, threads s !! i ≠ Some Served) ∧
     ∀ s', rtc step s s' → s' = s).
Proof.
  intros Hrun Hs. pose proof (server_steps_wf _ _ wf_serving Hrun) as H. split.
  - intros n. clear Hrun. revert s Hs H. induction n as [|n IH]; intros s Hs H s' Hn.
    { inversion Hn; subst. split; [lia|]. by apply server_progress_on. }
    inversion Hn as [|? ? s1 ? Hp Hn']; subst. destruct (server_progress_less s s1 H Hs Hp) as [Hs1 Hl].
    destruct (IH s1 Hs1 ltac:(by eapply server_progress_wf) s' Hn') as [Hle Hon]. split; [lia|done].
  - intros Eh. split; [by apply (wf_returned _ H); right|]. split; [intros i; by apply (wf_halted _ H)|].
    intros s' Hr. induction Hr as [|s s1 s' Hst _ IH]; [done|]. apply halted_still in Hst as ->; [|done..]. by apply IH.
Qed.

(** A connection that is served while the stop waits for it. *)
Definition example_busy : Server :=
  {| stopping := true; accepting := Returned; listed := []; threads := [Served]; halt := Joins [0]; requests := 0 |}.
Lemma example_busy_runs : rtc step serving example_busy.
Proof.
  eapply rtc_l; [apply Goes, (AcceptGives _ true); reflexivity|].
  eapply rtc_l; [apply Goes, (AcceptLooks _ true); reflexivity|].
  eapply rtc_l; [apply Goes, AcceptSpawns; reflexivity|].
  eapply rtc_l; [apply Goes, (AcceptPushes _ 0); reflexivity|].
  eapply rtc_l; [apply Calls|].
  eapply rtc_l; [apply Goes, (AcceptGives _ true); reflexivity|].
  eapply rtc_l; [apply Goes, (AcceptLooks _ true); reflexivity|].
  eapply rtc_l; [apply Goes, HaltWoken; reflexivity|]. apply rtc_refl.
Qed.

Lemma stop_ends_every_connection_witness :
  (∀ n s', nsteps progress n example_busy s' → n ≤ 3) ∧
  ∃ s', nsteps progress 3 example_busy s' ∧ halt s' = Halted.
Proof.
  split.
  - intros n s' Hn. apply (stop_ends_every_connection example_busy example_busy_runs eq_refl) in Hn as [Hle _]. exact Hle.
  - eexists. split; [|shelve].
    eapply nsteps_l; [apply (ConnWatches _ 0); reflexivity|].
    eapply nsteps_l; [apply (HaltJoins _ 0 []); reflexivity|].
    eapply nsteps_l; [apply HaltDone; reflexivity|]. apply nsteps_O.
    Unshelve. reflexivity.
Defined.

(** The stop waits for a connection as long as its peer keeps asking: the
    thread that serves it looks whether the server is stopping only while
    nothing comes. However many requests are asked, after the stop was called,
    it has not returned. *)
Theorem busy_connection_holds_the_stop (n : nat) :
  ∃ s, rtc step serving s ∧ stopping s = true ∧ requests s = n ∧ halt s = Joins [0] ∧ threads s !! 0 = Some Served.
Proof.
  assert (∃ s, rtc step example_busy s ∧ stopping s = true ∧ requests s = n ∧ halt s = Joins [0] ∧
    threads s !! 0 = Some Served) as (s & Hr & Hs); [|exists s; split; [by eapply rtc_trans, Hr; apply example_busy_runs|done]].
  induction n as [|n (s & Hr & Hs & En & Eh & Et)].
  - exists example_busy. split; [apply rtc_refl|done].
  - exists (asked s). split; [by eapply rtc_r; [exact Hr|apply (Asks _ 0)]|]. cbn. by rewrite En.
Qed.
End ListeningTheorems.
