(* ===== verification/Client.v ===== *)
(** * A node reaching Xmip Storage (src/.src/storage/client.rs,
    client/operations.rs)

    The Storage nodes its configuration lists, round robin: each request goes
    to the next in the list, and round the list once while none answers
    ([ask]); one that did not answer is passed over for a while, one that
    said it is a standby asked after those that did not. A new connection
    first asks what its Storage node is. For one statement every operation
    goes to one of them ([pinned]).

    The network is class [Network]: connections made, and a frame carried
    over one and the frame that came back. Addresses, TLS and timeouts are
    beneath it. *)

From S2P Require Import Prelude Word Engine Encrypted Store Codec Facts Records Batch Queue Hold.
From S2P Require Import Failed Origin Dead Claim Schema Instance Publication Secrets Row Columns.
From S2P Require Import Page Due Query Copies Shipped Wire Storage.
From stdpp Require Import pretty.
Import Request Answer.

(** ** The network *)

Class Network (W : Type) := {
  connection : Type;
  (** [Instant::now]. *)
  instant : W → W * N;
  (** [net::connect] and [tls::client_with]. *)
  connect : W → string → W * (connection + string);
  (** A frame sent and the next one read: none where the connection ended,
      the words of its failure where it failed. *)
  carry : W → connection → bytes → W * (option bytes + string);
}.

(** ** The client *)

(** What a node last came to with one Storage node. *)
Record Reached : Set := {
  re_address : string; re_answered : bool; re_standby : bool; re_said : string; re_at : N
}.

(** Why a Storage node did not answer a request. *)
Inductive Asked : Set := AskedStandby (said : string) | AskedFailed (said : string).

(** [Asked]'s [Display]. *)
Definition words (a : Asked) : string :=
  match a with AskedStandby said | AskedFailed said => said end.

Section client.
Context {X : XSecrets} {C : Codec} {W : Type} {NW : Network W}.
(** How an answer is shown, and why a name or an identity is refused. *)
Context (debug : Answer → string).

(** One Storage node: the connections no request is using, until when it is
    passed over, whether it said it is a standby, and what it last came to. *)
Record ClientNode : Type := {
  cn_address : string;
  cn_idle : list connection;
  cn_passed_over : option N;
  cn_standby : bool;
  cn_last : option Reached;
}.

Record StorageClient : Type := {
  nodes : list ClientNode;
  next_node : u64;
  pass_over : N;
  client_epoch : u64;
  pinned : option nat;
}.

(** A client and the network it is over. *)
Record Remote : Type := { client : StorageClient; net : W }.

Definition unreachable (reason : string) : PersistError := Unreachable reason.

(** [str::rsplit_once(':')], whether there is one. *)
Definition has_port (address : string) : bool :=
  existsb (λ b, bool_decide (b = x3a)) (String.list_byte_of_string address).

(** [StorageClient::new]; [identity] says why it makes no configuration. *)
Definition new_client (addresses : list string) (identity : option string) (pass : N) :
    result StorageClient :=
  match addresses with
  | [] => Err (unreachable "no Storage node is listed")
  | _ =>
      nodes ← collect (λ address : string,
        if has_port address
        then Ok {| cn_address := address; cn_idle := []; cn_passed_over := None;
                   cn_standby := false; cn_last := None |}
        else Err (unreachable ("'" +:+ address +:+ "' names no port"))) addresses;
      match identity with
      | Some why => Err (unreachable why)
      | None => Ok {| nodes := nodes; next_node := wrap 0; pass_over := pass;
                      client_epoch := wrap 0; pinned := None |}
      end
  end.

(** [StorageClient::reached]. *)
Definition reached (c : StorageClient) : list (string * option Reached) :=
  (λ n, (cn_address n, cn_last n)) <$> nodes c.

(** ** Which node is asked *)

(** [Node::passed_over]. *)
Definition passed_over (n : ClientNode) (now : N) : bool :=
  match cn_passed_over n with Some until => (now <? until)%N | None => false end.

(** [turn]'s rank of a node. *)
Definition rank (now : N) (n : ClientNode) : nat :=
  match passed_over n now, cn_standby n with
  | false, false => 0
  | false, true => 1
  | true, _ => 2
  end.

Definition rank_at (c : StorageClient) (now : N) (index : nat) : nat :=
  match nodes c !! index with Some n => rank now n | None => 2 end.

(** [(first + step) % count], of [usize]. *)
Definition round (first : u64) (count : nat) : list nat :=
  (λ step, N.to_nat (uval (wadd first (N.of_nat step)) mod N.of_nat count)) <$> seq 0 count.

(** [sort_by_key], which is stable, of three keys. *)
Definition by_rank (f : nat → nat) (l : list nat) : list nat :=
  filter (λ i, f i = 0) l ++ filter (λ i, f i = 1) l ++ filter (λ i, f i = 2) l.

Definition with_next (c : StorageClient) (n : u64) : StorageClient :=
  {| nodes := nodes c; next_node := n; pass_over := pass_over c; client_epoch := client_epoch c;
     pinned := pinned c |}.

(** [StorageClient::turn]. *)
Definition turn (r : Remote) : Remote * list nat :=
  let c := client r in
  let '(w, now) := instant (net r) in
  ({| client := with_next c (wadd (next_node c) 1); net := w |},
   by_rank (rank_at c now) (round (next_node c) (length (nodes c)))).

(** ** One node asked *)

Definition with_net (r : Remote) (w : W) : Remote := {| client := client r; net := w |}.
Definition with_nodes (r : Remote) (l : list ClientNode) : Remote :=
  {| client := {| nodes := l; next_node := next_node (client r); pass_over := pass_over (client r);
                  client_epoch := client_epoch (client r); pinned := pinned (client r) |};
     net := net r |}.
Definition with_epoch (r : Remote) (e : u64) : Remote :=
  {| client := {| nodes := nodes (client r); next_node := next_node (client r);
                  pass_over := pass_over (client r); client_epoch := e;
                  pinned := pinned (client r) |};
     net := net r |}.
Definition with_idle (n : ClientNode) (idle : list connection) : ClientNode :=
  {| cn_address := cn_address n; cn_idle := idle; cn_passed_over := cn_passed_over n;
     cn_standby := cn_standby n; cn_last := cn_last n |}.

(** A connection put back for the next request, the last put back the first
    taken. *)
Definition kept_idle (r : Remote) (index : nat) (connection : connection) : Remote :=
  with_nodes r (alter (λ n, with_idle n (connection :: cn_idle n)) index (nodes (client r))).

(** [exchange]: a request sent and its answer received. *)
Definition exchange (w : W) (c : connection) (request : Request) : W * (Answer + string) :=
  let '(w, came) := carry w c (sent request) in
  (w, match came with
      | inr why => inr why
      | inl None => inr "unexpected end of file"%string
      | inl (Some frame) =>
          match received frame with
          | COk a => inl a
          | CErr e => inr ("a frame that is not a record: " +:+ message e)
          end
      end).

(** [standby]: an answer that says its Storage node is one is no answer. *)
Definition standby (a : Answer) : Answer + Asked :=
  match a with AStandby said => inr (AskedStandby said) | a => inl a end.

(** [StorageClient::standing]: a new connection's Storage node held to what
    it is. *)
Definition standing (r : Remote) (c : connection) : Remote * option Asked :=
  let '(w, came) := exchange (net r) c AskStanding in
  let r := with_net r w in
  match came with
  | inr why => (r, Some (AskedFailed why))
  | inl (AStanding s) =>
      if sg_primary s then
        let latest := client_epoch (client r) in
        let r := with_epoch r (umaxof latest (sg_epoch s)) in
        if (uval (sg_epoch s) <? uval latest)%N then
          (r, Some (AskedFailed ("a primary of epoch " +:+ pretty (uval (sg_epoch s)) +:+
            ", before the epoch " +:+ pretty (uval latest) +:+ " met: it is not asked")))
        else (r, None)
      else (r, Some (AskedStandby
        ("a standby Storage node, epoch " +:+ pretty (uval (sg_epoch s)))))
  | inl a => (r, Some (AskedFailed ("answered " +:+ debug a +:+ " to what it is")))
  end.

(** [ask_node]'s new connection. *)
Definition ask_afresh (r : Remote) (index : nat) (n : ClientNode) (request : Request) :
    Remote * (Answer + Asked) :=
  match connect (net r) (cn_address n) with
  | (w, inr why) => (with_net r w, inr (AskedFailed why))
  | (w, inl c) =>
      match standing (with_net r w) c with
      | (r, Some why) => (r, inr why)
      | (r, None) =>
          match exchange (net r) c request with
          | (w, inr why) => (with_net r w, inr (AskedFailed why))
          | (w, inl a) => (kept_idle (with_net r w) index c, standby a)
          end
      end
  end.

(** [ask_node]: over a connection kept from before, or where that fails,
    once afresh. *)
Definition ask_node (r : Remote) (index : nat) (n : ClientNode) (request : Request) :
    Remote * (Answer + Asked) :=
  match cn_idle n with
  | [] => ask_afresh r index n request
  | c :: idle =>
      let r := with_nodes r (alter (λ n, with_idle n idle) index (nodes (client r))) in
      match exchange (net r) c request with
      | (w, inl a) => (kept_idle (with_net r w) index c, standby a)
      | (w, inr _) => ask_afresh (with_net r w) index n request
      end
  end.

(** [Node::answered]: what asking it came to, kept. *)
Definition node_answered (r : Remote) (index : nat) (asked : Answer + Asked) : Remote :=
  let c := client r in
  let answered := match asked with inl _ => true | inr _ => false end in
  let '(w, until) :=
    if answered then (net r, None)
    else let '(w, now) := instant (net r) in (w, Some (now + pass_over c)%N) in
  let '(w, at_) := instant w in
  with_net (with_nodes r (alter (λ n,
    let '(is_standby, said) :=
      match asked with
      | inl _ => (false, "answered"%string)
      | inr (AskedStandby said) => (true, said)
      | inr (AskedFailed said) => (cn_standby n, said)
      end in
    {| cn_address := cn_address n; cn_idle := cn_idle n; cn_passed_over := until;
       cn_standby := is_standby;
       cn_last := Some {| re_address := cn_address n; re_answered := answered;
                          re_standby := is_standby; re_said := said; re_at := at_ |} |})
    index (nodes c))) w.

(** The node at [index] asked; an index past the list's end, which [turn]
    never gives, is none. *)
Definition ask_at (r : Remote) (index : nat) (request : Request) :
    option (Remote * (Answer + Asked)) :=
  match nodes (client r) !! index with
  | None => None
  | Some n =>
      let '(r, asked) := ask_node r index n request in
      Some (node_answered r index asked, asked)
  end.

(** [failures.join]. *)
Definition address_at (r : Remote) (index : nat) : string :=
  match nodes (client r) !! index with Some n => cn_address n | None => "" end.

(** [ask]'s loop: each in turn while none answers. *)
Fixpoint ask_each (r : Remote) (order : list nat) (request : Request) (failures : list string) :
    Remote * result Answer :=
  match order with
  | [] => (r, Err (unreachable ("no Storage node answered: " +:+ String.concat "; " failures)))
  | index :: order =>
      match ask_at r index request with
      | None => ask_each r order request failures
      | Some (r, inl a) => (r, Ok a)
      | Some (r, inr failure) =>
          ask_each r order request (failures ++ [address_at r index +:+ ": " +:+ words failure])
      end
  end.

(** [StorageClient::ask]. *)
Definition ask (r : Remote) (request : Request) : Remote * result Answer :=
  match pinned (client r) with
  | Some index =>
      match ask_at r index request with
      | None => (r, Err (unreachable ""))
      | Some (r, inl a) => (r, Ok a)
      | Some (r, inr failure) =>
          (r, Err (unreachable ("the statement's Storage node " +:+ address_at r index +:+
            " did not answer: " +:+ words failure)))
      end
  | None => let '(r, order) := turn r in ask_each r order request []
  end.

(** [StorageClient::pinned_client]: this client over one Storage node. What
    the two share - the nodes, the turn, the epoch - is the client's. *)
Definition pinned_client (r : Remote) : Remote * option nat :=
  match pinned (client r) with
  | Some index => (r, Some index)
  | None => let '(r, order) := turn r in (r, head order)
  end.
Definition pin (r : Remote) (index : nat) : Remote :=
  {| client := {| nodes := nodes (client r); next_node := next_node (client r);
                  pass_over := pass_over (client r); client_epoch := client_epoch (client r);
                  pinned := Some index |};
     net := net r |}.
End client.

(** ** The turn each request takes *)

Section turns.
Context {X : XSecrets} {C : Codec} {W : Type} {NW : Network W}.

Lemma by_rank_Permutation (f : nat → nat) l : (∀ i, f i ≤ 2) → by_rank f l ≡ₚ l.
Proof.
  intros Hf. unfold by_rank. induction l as [|i l IH]; [done|]. rewrite !filter_cons.
  pose proof (Hf i). destruct (f i) as [|[|[|n]]] eqn:E; repeat case_decide; try lia.
  - cbn [app]. by rewrite IH.
  - etrans; [|apply perm_skip, IH]. symmetry. cbn [app]. apply Permutation_middle.
  - etrans; [|apply perm_skip, IH]. symmetry. rewrite !(assoc_L (++)). apply Permutation_middle.
Qed.

Lemma filter_of_rank (f : nat → nat) l j k :
  filter (λ i, f i = k) (filter (λ i, f i = j) l) = if decide (j = k) then filter (λ i, f i = k) l else [].
Proof.
  induction l as [|i l IH]; [by case_decide|]. rewrite !filter_cons.
  destruct (decide (f i = j)) as [<-|Hj]; rewrite ?filter_cons, IH; repeat case_decide; congruence.
Qed.

(** Within a rank, the order is the list's. *)
Lemma filter_by_rank (f : nat → nat) l k : k ≤ 2 →
  filter (λ i, f i = k) (by_rank f l) = filter (λ i, f i = k) l.
Proof.
  intros Hk. unfold by_rank. rewrite !filter_app, !filter_of_rank.
  repeat case_decide; try lia; by rewrite ?app_nil_r.
Qed.

(** Their ranks never go down. *)
Lemma by_rank_sorted (f : nat → nat) l : StronglySorted (λ i j, f i ≤ f j) (by_rank f l).
Proof.
  assert (∀ k l', (∀ i, i ∈ l' → f i = k) → StronglySorted (λ i j, f i ≤ f j) l') as Hsame.
  { intros k l'. induction l' as [|i l' IH]; intros Hl; constructor.
    - apply IH. intros. apply Hl. by right.
    - apply Forall_forall. intros j Hj. rewrite (Hl i), (Hl j) by (by left || by right). lia. }
  assert (∀ k i, i ∈ filter (λ i, f i = k) l → f i = k) as Hk
    by (intros k i [? _]%list_elem_of_filter; done).
  unfold by_rank. apply StronglySorted_app_2; [|by eapply Hsame, Hk|].
  2: apply StronglySorted_app_2; [|by eapply Hsame, Hk..].
  - intros i j Hi _. rewrite (Hk _ _ Hi). lia.
  - intros i j Hi Hj. rewrite (Hk _ _ Hi), (Hk _ _ Hj). lia.
Qed.

Lemma round_lt first count : count ≠ 0 → Forall (λ i, i < count) (round first count).
Proof.
  intros Hc. apply Forall_fmap, Forall_forall. intros step _. unfold compose.
  pose proof (N.mod_upper_bound (uval (wadd first (N.of_nat step))) (N.of_nat count)). lia.
Qed.
Lemma length_round first count : length (round first count) = count.
Proof. unfold round. by rewrite length_fmap, length_seq. Qed.

Lemma mod_shift_inj (f i j c : N) : (i < c → j < c → (f + i) mod c = (f + j) mod c → i = j)%N.
Proof.
  intros Hi Hj E. pose proof (N.div_mod (f + i) c ltac:(lia)). pose proof (N.div_mod (f + j) c ltac:(lia)).
  rewrite E in *. set (a := ((f + i) / c)%N) in *. set (b := ((f + j) / c)%N) in *.
  destruct (N.lt_trichotomy a b) as [?|[?|?]]; nia.
Qed.

(** Round the list once, each node is listed once. *)
Lemma round_Permutation first count :
  (uval first + N.of_nat count < bound 8)%N → round first count ≡ₚ seq 0 count.
Proof.
  intros Hb. destruct (decide (count = 0)) as [->|Hc]; [done|].
  apply submseteq_length_Permutation; [|by rewrite length_round, length_seq].
  apply NoDup_submseteq.
  - apply NoDup_fmap_2_strong; [|apply NoDup_seq]. intros i j Hi%elem_of_seq Hj%elem_of_seq E.
    apply (f_equal N.of_nat) in E. rewrite !N2Nat.id, !uval_wadd in E by lia.
    apply mod_shift_inj in E; lia.
  - intros x Hx. apply elem_of_seq. pose proof (round_lt first count Hc) as Hlt.
    rewrite Forall_forall in Hlt. specialize (Hlt _ Hx). lia.
Qed.
End turns.

(** ** Each operation (client/operations.rs) *)

Section operations.
Context {X : XSecrets} {C : Codec} {W : Type} {NW : Network W} (debug : Answer → string).

Abbreviation R := (Remote (W := W)).

(** [expected]: the answer an operation expected, or why there was none. *)
Definition expected {A} (take : Answer → option A) (a : Answer) : result A :=
  match a with
  | ARefused scope reason => Err (Refused scope reason)
  | AFailed reason => Err (Failed_ reason)
  | other =>
      match take other with
      | Some a => Ok a
      | None => Err (Record_ ("a Storage node answered " +:+ debug other))
      end
  end.

Definition take_done (a : Answer) : option unit := match a with Done => Some tt | _ => None end.
Definition take_claimed (a : Answer) : option (option Claim) :=
  match a with AClaim c => Some c | _ => None end.
Definition take_held (a : Answer) : option (list Claim) :=
  match a with AClaims held => Some held | _ => None end.
Definition take_yes (a : Answer) : option bool := match a with Yes yes => Some yes | _ => None end.

(** A request asked, and its answer as the operation expects it. *)
Definition asks {A} (r : R) (request : Request) (take : Answer → option A) : R * result A :=
  match ask debug r request with
  | (r, Err e) => (r, Err e)
  | (r, Ok a) => (r, expected take a)
  end.

Definition client_write_chunk r chunk := asks r (WriteChunk chunk) take_done.
Definition client_read_chunk r stream index := asks r (ReadChunk stream index)
  (λ a, match a with AChunk chunk => Some chunk | _ => None end).
Definition client_write_stream r last stream := asks r (WriteStream last stream) take_done.
Definition client_read_stream r stream := asks r (ReadStream stream)
  (λ a, match a with AStream stream => Some stream | _ => None end).
Definition client_write_message r message := asks r (WriteMessage message) take_done.
Definition client_read_message r message := asks r (ReadMessage message)
  (λ a, match a with AMessage record => Some record | _ => None end).
Definition client_write_journey r journey := asks r (WriteJourney journey) take_done.
Definition client_read_journey r journey := asks r (ReadJourney journey)
  (λ a, match a with AJourney record => Some record | _ => None end).
(** Answered by the Storage node once durable there: durable already. *)
Definition client_publish r publication : R * result (list Claim * unit) :=
  answering (λ held, (held, tt)) (asks r (Publish publication) take_held).
Definition client_read_held r queue from most := asks r (ReadHeld queue from most)
  (λ a, match a with AHeld queue => Some queue | _ => None end).
Definition client_read_failed r queue from most := asks r (ReadFailed queue from most)
  (λ a, match a with AFailedQueue queue => Some queue | _ => None end).
Definition client_read_due r q p f m := asks r (ReadDue q p f m)
  (λ a, match a with ADueQueue queue => Some queue | _ => None end).
Definition client_read_dead r queue from most := asks r (ReadDead queue from most)
  (λ a, match a with ADeadQueue queue => Some queue | _ => None end).
Definition client_read_dead_message r queue message := asks r (ReadDeadMessage queue message)
  (λ a, match a with ADead dead => Some dead | _ => None end).
Definition client_replay r replay := asks r (AskReplay replay)
  (λ a, match a with AReplayed replayed => Some replayed | _ => None end).
Definition client_claim r journey holder token lease :=
  let c := {| c_journey := journey; c_holder := holder; c_token := token;
              c_until_unix_nanos := i128_clamp 0; c_fence := wrap 0 |} in
  asks r (Request.claim c lease) take_claimed.
Definition client_renew r claims lease := asks r (Request.renew claims lease) take_held.
Definition client_release r c := asks r (Release c) take_yes.
Definition client_hand_on r h := asks r (AskHandOn h) take_yes.
Definition client_turn r t := asks r (AskTurn t) take_yes.
Definition client_read_instance r instance := asks r (ReadInstance instance)
  (λ a, match a with AInstance record => Some record | _ => None end).
Definition client_read_instance_key r correlation := asks r (ReadInstanceKey correlation)
  (λ a, match a with Records found => Some (head found) | _ => None end).
Definition client_write_audit r entry := asks r (WriteAudit entry) take_done.
Definition client_keep_audit r most chunk := asks r (KeepAudit most chunk)
  (λ a, match a with ACount count => Some count | _ => None end).
Definition client_read_kept_audit r id := asks r (ReadKeptAudit id)
  (λ a, match a with AAudit entry => Some entry | _ => None end).
Definition client_read_kept_audit_stream r id stream := asks r (ReadKeptAuditStream id stream)
  (λ a, match a with AStream stream => Some stream | _ => None end).
Definition client_read_kept_audit_chunk r id stream index := asks r (ReadKeptAuditChunk id stream index)
  (λ a, match a with ABytes value => Some value | _ => None end).
Definition client_write_administration r record := asks r (WriteAdministration record) take_done.
Definition client_read_administration r kind id := asks r (ReadAdministration kind id)
  (λ a, match a with AAdministration record => Some record | _ => None end).
Definition client_remove_administration r kind id := asks r (RemoveAdministration kind id) take_done.
Definition client_write_secret r secret := asks r (WriteSecret secret) take_done.
Definition client_read_secret r name := asks r (ReadSecret name)
  (λ a, match a with ASecret record => Some record | _ => None end).
Definition client_list_secrets r := asks r ListSecrets
  (λ a, match a with ASecrets entries => Some entries | _ => None end).
Definition client_query r q := asks r (AskQuery q)
  (λ a, match a with Records records => Some records | _ => None end).

(** [impl XmipStorage for StorageClient]. *)
#[export] Instance client_storage : XmipStorage R := {
  write_chunk := client_write_chunk;
  read_chunk := client_read_chunk;
  write_stream := client_write_stream;
  read_stream := client_read_stream;
  write_message := client_write_message;
  read_message := client_read_message;
  write_journey := client_write_journey;
  read_journey := client_read_journey;
  durable := unit;
  wait_durable r _ := (r, Ok tt);
  publish := client_publish;
  Storage.read_held := client_read_held;
  Storage.read_failed := client_read_failed;
  Storage.read_due := client_read_due;
  Storage.read_dead := client_read_dead;
  Storage.read_dead_message := client_read_dead_message;
  Storage.replay := client_replay;
  Storage.claim := client_claim;
  Storage.renew := client_renew;
  Storage.release := client_release;
  Storage.hand_on := client_hand_on;
  Storage.turn := client_turn;
  Storage.read_instance := client_read_instance;
  Storage.read_instance_key := client_read_instance_key;
  write_audit := client_write_audit;
  keep_audit := client_keep_audit;
  read_kept_audit := client_read_kept_audit;
  read_kept_audit_stream := client_read_kept_audit_stream;
  read_kept_audit_chunk := client_read_kept_audit_chunk;
  write_administration := client_write_administration;
  read_administration := client_read_administration;
  remove_administration := client_remove_administration;
  write_secret := client_write_secret;
  read_secret := client_read_secret;
  list_secrets := client_list_secrets;
  query := client_query;
}.
End operations.

Module ClientTheorems.
Section theorems.
Context {X : XSecrets} {C : Codec} {W : Type} {NW : Network W}.

(** The order a request asks the Storage nodes in lists each of them once:
    those that answered lately before those that said they are standbys, and
    one that did not answer lately last; among those alike, round the list
    from the next. So a request is asked of each at most once, and of every
    one before it fails. The round robin's count is taken not to wrap around
    within one round. *)
Theorem turn_asks_each_once (r r' : Remote) order :
  (uval (next_node (client r)) + N.of_nat (length (nodes (client r))) < bound 8)%N →
  turn r = (r', order) →
  let rank := rank_at (client r) (instant (net r)).2 in
  order ≡ₚ seq 0 (length (nodes (client r))) ∧
  StronglySorted (λ i j, rank i ≤ rank j) order ∧
  (∀ k, k ≤ 2 → filter (λ i, rank i = k) order =
    filter (λ i, rank i = k) (round (next_node (client r)) (length (nodes (client r))))) ∧
  nodes (client r') = nodes (client r) ∧ next_node (client r') = wadd (next_node (client r)) 1.
Proof.
  intros Hb. unfold turn. destruct (instant (net r)) as [w now] eqn:Hw. intros [= <- <-]. cbn.
  assert (∀ i, rank_at (client r) now i ≤ 2) as Hrank.
  { intros i. unfold rank_at, rank. destruct (_ !! i) as [n|]; [|lia].
    destruct (passed_over n now), (cn_standby n); lia. }
  split_and!; [|apply by_rank_sorted|intros k Hk; by apply filter_by_rank|done|done].
  rewrite by_rank_Permutation by done. by apply round_Permutation.
Qed.
End theorems.
End ClientTheorems.
