(* ===== verification/Standings.v ===== *)
(** * A Storage node settling what it is (src/.src/storage/standby/finding.rs,
    standby/follow.rs)

    [StorageNode::find], turn by turn, over the network between Storage nodes:
    every one listed asked what it is ([standings]); a primary that answers
    followed, frame by frame, until it is lost ([follow]); else this node
    promoted where it is the one to be; a primary asking the others each
    silence, and stepping down where one is of a later epoch ([keep_primary]).
    What is decided and what a frame does are [Finding] and [Follow]; here is
    what they are decided on and done with. A connection that is never lost is
    followed for as many frames as [fuel] says, and the turn left there, its
    node a standby still: what is shown of a turn is shown of all it comes to
    on the way. *)

From S2P Require Import Prelude Word Engine Encrypted Store Codec Schema Secrets Batch.
From S2P Require Import Copies Shipped Follow Link Whole Finding Wire Client.
From stdpp Require Import relations.
Import Request Answer.

(** What the client's connections do not: a frame sent for which nothing is
    waited, the next frame that comes, a while waited - or until stopped - and
    whether the node is stopping. *)
Class Between (W : Type) {NW : Network W} := {
  sends : W → connection → bytes → W * (unit + string);
  hears : W → connection → W * (option bytes + string);
  rests : W → N → W;
  stopped : W → W * bool;
}.

(** How long a standby writes copies before it syncs them, in nanoseconds. *)
Definition SYNC : N := 10_000_000.

Section settling.
Context `{Secret} {HD : Handing} {X : XSecrets} {C : Codec} {E : Type} `{Engine E}.
Context {W : Type} {NW : Network W} {BW : Between W}.
(** How the key home's error and an answer are shown, and a span of time. *)
Context (secret_error : SecretError → string) (debug : Answer → string) (shown : N → string).
(** Its timings, its key home, and the key it wraps under. *)
Context (silence beat : N) (keys_ : KeyStore) (kek : KekName).

(** A Storage node, when a primary was last heard, what it last had to say of
    its standing, and the network. *)
Record Settling : Type := {
  st_node : StorageNode E;
  st_listed : list string;
  st_heard : N;
  st_last : option string;
  st_net : W;
}.

Definition over (t : Settling) (w : W) : Settling :=
  {| st_node := st_node t; st_listed := st_listed t; st_heard := st_heard t; st_last := st_last t; st_net := w |}.
Definition as_node (t : Settling) (n : StorageNode E) : Settling :=
  {| st_node := n; st_listed := st_listed t; st_heard := st_heard t; st_last := st_last t; st_net := st_net t |}.
Definition as_following (t : Settling) (s : Following E) : Settling :=
  as_node t {| process := process (st_node t); role := role (st_node t); stopping := stopping (st_node t);
               following := s |}.
(** [StorageNode::told]. *)
Definition told (t : Settling) (what : string) : Settling :=
  {| st_node := st_node t; st_listed := st_listed t; st_heard := st_heard t; st_last := Some what;
     st_net := st_net t |}.
(** A primary heard now. *)
Definition heard_now (t : Settling) : Settling :=
  let '(w, now) := instant (st_net t) in
  {| st_node := st_node t; st_listed := st_listed t; st_heard := now; st_last := st_last t; st_net := w |}.

(** ** What the others answer *)

(** What a frame that is no record is refused with. *)
Definition no_record (e : CodecError) : string := "a frame that is not a record: " +:+ message e.

(** [StorageNode::ask_standing]. *)
Definition ask_standing (w : W) (address : string) : W * (Standing + string) :=
  match connect w address with
  | (w, inr why) => (w, inr why)
  | (w, inl c) =>
      match carry w c (sent AskStanding) with
      | (w, inr why) => (w, inr why)
      | (w, inl None) => (w, inr "answered None")
      | (w, inl (Some frame)) =>
          (w, match received frame with
              | COk (AStanding s) => inl s
              | COk other => inr ("answered Some(" +:+ debug other +:+ ")")
              | CErr e => inr (no_record e)
              end)
      end
  end.

(** [StorageNode::standings]: those listed from [at_] on. *)
Fixpoint standings (w : W) (at_ : nat) (listed : list string) : W * list Answered :=
  match listed with
  | [] => (w, [])
  | address :: listed =>
      let '(w, asked) := ask_standing w address in
      let '(w, rest) := standings w (S at_) listed in
      (w, match asked with
          | inl s => {| Finding.place := at_; Finding.address := address; Finding.standing := s |} :: rest
          | inr _ => rest
          end)
  end.

(** ** A primary followed *)

(** How following it stands: still, or ended - in order as the node stops, or
    with why. *)
Inductive Followed : Type := StillFollowing | FollowedTo (why : option string).

(** Why a frame is refused, as it is said. *)
Definition refused_frame (s : Following E) (frame : Shipped) (e : PersistError) : string :=
  match frame, whole s with
  | Declined reason, _ => "declined: " +:+ reason
  | CopiedTo _ _, None => "a whole copy's end with no start"
  | _, _ => display secret_error e
  end.

(** Whether a frame says its primary is there, once it is taken. *)
Definition says_heard (frame : Shipped) : bool :=
  match frame with Beat _ | CopyOf _ _ _ | Whole _ _ _ => true | _ => false end.

(** The databases written synced, a while after they were. *)
Definition sync_due (t : Settling) (synced_at : N) (beat_ : bool) : Settling * N * result unit :=
  let '(w, now) := instant (st_net t) in
  let t := over t w in
  if beat_ then (t, now, Ok tt)
  else if (SYNC <=? now - synced_at)%N then
    let '(s, done) := synced (following (st_node t)) in
    let '(w, now) := instant (st_net t) in
    (over (as_following t s) w, now, done)
  else (t, synced_at, Ok tt).

(** The loop of [StorageNode::following]. *)
Fixpoint frames_heard (fuel : nat) (t : Settling) (c : connection) (synced_at : N) : Settling * Followed :=
  match fuel with
  | 0 => (t, StillFollowing)
  | S fuel =>
      match stopped (st_net t) with
      | (w, true) => (over t w, FollowedTo None)
      | (w, false) =>
          match hears w c with
          | (w, inr why) => (over t w, FollowedTo (Some ("heard nothing for " +:+ shown silence +:+ ": " +:+ why)))
          | (w, inl None) => (over t w, FollowedTo (Some "the primary ended the connection"))
          | (w, inl (Some bytes)) =>
              let t := over t w in
              match (received bytes : cres Shipped) with
              | CErr e =>
                  (t, FollowedTo (Some ("heard nothing for " +:+ shown silence +:+ ": " +:+ no_record e)))
              | COk frame =>
                  match frame_taken keys_ kek frame (following (st_node t)) with
                  | (s, Err e) =>
                      let why := refused_frame (following (st_node t)) frame e in
                      let t := as_following t s in
                      (if frame is Beat _ then heard_now t else t, FollowedTo (Some why))
                  | (s, Ok _) =>
                      let t := as_following t s in
                      let t := if says_heard frame then heard_now t else t in
                      match sync_due t synced_at (if frame is Beat _ then true else false) with
                      | (t, _, Err e) => (t, FollowedTo (Some (display secret_error e)))
                      | (t, synced_at, Ok _) => frames_heard fuel t c synced_at
                      end
                  end
              end
          end
      end
  end.

(** [StorageNode::following]: a connection of nothing written yet and no whole
    copy under way. *)
Definition connected (s : Following E) : Following E := with_whole (with_dirty s (all_of false)) None.
Definition following_at (fuel : nat) (t : Settling) (address : string) : Settling * Followed :=
  match connect (st_net t) address with
  | (w, inr why) => (over t w, FollowedTo (Some why))
  | (w, inl c) =>
      match sends w c (sent (AskFollow (asked (following (st_node t))))) with
      | (w, inr why) => (over t w, FollowedTo (Some why))
      | (w, inl _) =>
          let '(w, now) := instant w in
          frames_heard fuel (as_following (over t w) (connected (following (st_node t)))) c now
      end
  end.

(** [StorageNode::follow]; once it is lost, every database is synced. *)
Definition follow (fuel : nat) (t : Settling) (address : string) : Settling * bool :=
  match following_at fuel t address with
  | (t, StillFollowing) => (t, false)
  | (t, FollowedTo why) =>
      let t := match why with
               | Some problem =>
                   let '(w, stop) := stopped (st_net t) in
                   if stop then over t w else told (over t w) ("stopped following " +:+ address +:+ ": " +:+ problem)
               | None => t
               end in
      (as_following t (synced (with_dirty (following (st_node t)) (all_of true))).1, true)
  end.

(** ** A turn of [StorageNode::find] *)

(** [StorageNode::take_up]; any role but finding one is a primary heard. *)
Definition taking_up (t : Settling) (r : Role) (epoch_ : u64) : Settling :=
  let t := match r with Finding => t | _ => heard_now t end in
  as_node t (take_up (st_node t) r epoch_).

Definition stepped_down : string := "stepped down: another Storage node is the primary of a later epoch".

(** [StorageNode::keep_primary]. *)
Definition keep_primary (t : Settling) : Settling :=
  let '(w, answered) := standings (rests (st_net t) silence) 0 (st_listed t) in
  let t := over t w in
  if steps_down (st_node t) answered then taking_up (told t stepped_down) Finding (wrap 0) else t.

(** One that found a primary, until it is lost. *)
Definition as_standby (fuel : nat) (t : Settling) (address : string) (epoch_ : u64) : Settling :=
  match follow fuel (taking_up t (Standby_ address) epoch_) address with
  | (t, false) => t
  | (t, true) =>
      let '(w, stop) := stopped (st_net t) in
      if stop then over t w else taking_up (over t w) Finding (wrap 0)
  end.

(** One to be promoted; [drawn] the history it draws, [now] when its schema is
    brought up. *)
Definition promoted (drawn : u128) (now : u64) (t : Settling) (epoch_ : u64) : Settling :=
  match promote keys_ kek drawn now (st_node t) epoch_ with
  | (n, Ok _) => heard_now (as_node t n)
  | (n, Err problem) => told (as_node t n) ("could not be promoted: " +:+ display secret_error problem)
  end.

Definition find_turn (fuel : nat) (drawn : u128) (now : u64) (t : Settling) : Settling :=
  match role (st_node t) with
  | Primary => keep_primary t
  | _ =>
      let '(w, answered) := standings (st_net t) 0 (st_listed t) in
      let '(w, at_) := instant w in
      let t := over t w in
      match decided (st_node t) (silence <=? at_ - st_heard t)%N answered with
      | Follows address epoch_ => as_standby fuel t address epoch_
      | Promotes epoch_ => promoted drawn now t epoch_
      | Rests => over t (rests (st_net t) beat)
      end
  end.
End settling.

(** ** What was answered *)

Section answered.
Context {X : XSecrets} {C : Codec} {W : Type} {NW : Network W} (debug : Answer → string).

(** Each answer is of an address listed, at its place, no place answered twice. *)
Lemma standings_placed listed w at_ w' answered :
  standings debug w at_ listed = (w', answered) →
  NoDup (place <$> answered) ∧
  ∀ a, a ∈ answered → at_ ≤ place a ∧ listed !! (place a - at_) = Some (Finding.address a).
Proof.
  revert w at_ w' answered. induction listed as [|address listed IH]; intros w at_ w' answered Hs; cbn in Hs.
  { injection Hs as <- <-. split; [constructor|]. by intros a ?%elem_of_nil. }
  destruct (ask_standing debug w address) as [w1 asked_]. destruct (standings debug w1 (S at_) listed) as [w2 rest] eqn:Er.
  apply IH in Er as [Hnd Hin].
  assert (∀ a, a ∈ rest → at_ ≤ place a ∧ (address :: listed) !! (place a - at_) = Some (Finding.address a)) as Hrest.
  { intros a [Hle Hl]%Hin. split; [lia|]. by replace (place a - at_) with (S (place a - S at_)) by lia. }
  injection Hs as <- <-. destruct asked_ as [s|]; [|by split].
  split.
  - cbn. constructor; [|done]. intros (a & Ha & [Hle _]%Hin)%list_elem_of_fmap. lia.
  - intros a [->|Ha]%elem_of_cons; [|by apply Hrest]. cbn. split; [lia|]. by rewrite Nat.sub_diag.
Qed.
End answered.

(** ** The epoch a node is in only goes up *)

Section epochs.
Context `{Secret} {HD : Handing} {E : Type} `{EngineOk E}.

(** It is at least what it was. *)
Definition since (n : N) (s : Following E) : Prop := (n ≤ uval (epoch s))%N.

Lemma heard_since n k s : since n s → since n (heard s k).
Proof. unfold since. rewrite heard_epoch. lia. Qed.
Lemma on_since n d (f : E → result E) : kept_by (since n) (on d f).
Proof. intros s Hs. unfold on. by destruct (f _). Qed.
Lemma synced_since n : kept_by (since n) synced.
Proof.
  apply kept_in_turn. intros d _ s Hs. case_match; [|done].
  apply (kept_bind (since n) (on d Engine.sync)); [apply on_since|intros; by apply kept_update|done].
Qed.
Lemma wiped_since n keys_ kek keys : kept_by (since n) (wiped keys_ kek keys).
Proof.
  unfold wiped. case_decide; [|by intros s]. apply kept_in_turn. intros [d key] _.
  unfold wiped_database. cbn [fst snd]. apply kept_bind.
  { intros s Hs. by destruct (wipe_spec s d) as (e & r & -> & _). }
  intros _. apply kept_bind; [apply kept_ask|]. intros data s Hs.
  refine (kept_bind (since n) _ _ _ _ s Hs); [apply kept_ask|]. intros wrapped.
  apply kept_bind; [by apply kept_update|]. intros _. apply on_since.
Qed.
Lemma copied_whole_since n w : kept_by (since n) (copied_whole w).
Proof.
  apply kept_bind; [apply kept_in_turn; intros; apply on_since|]. intros _.
  apply kept_bind; [apply on_since|]. intros _. by apply kept_update.
Qed.

Lemma frame_since n keys_ kek frame : kept_by (since n) (frame_taken keys_ kek frame).
Proof.
  destruct frame as [e|d number changes|h e keys|d entries|d next|reason]; cbn [frame_taken].
  - apply kept_bind; [apply kept_update; apply heard_since|intros; apply synced_since].
  - intros s Hs. refine (kept_bind (since n) _ _ _ _ s Hs); [apply kept_ask|]. intros m.
    apply kept_bind; [by apply kept_update|]. intros _. apply kept_bind; [by apply kept_update|].
    intros _. apply kept_update. apply heard_since.
  - apply kept_bind; [apply on_since|]. intros _. apply kept_bind; [by apply kept_update|]. intros _.
    apply kept_bind; [apply wiped_since|]. intros _. apply kept_bind; [apply kept_update; apply heard_since|].
    intros _. by apply kept_update.
  - apply kept_bind; [apply on_since|]. intros _. by apply kept_update.
  - intros s Hs. case_match; [|done]. case_match; [|done]. by apply copied_whole_since.
  - by intros s.
Qed.

Lemma take_up_since n (m : StorageNode E) r k :
  since n (following m) → since n (following (take_up m r k)).
Proof. apply heard_since. Qed.
End epochs.

(** ** What a turn comes to *)

Section turns.
Context `{Secret} {HD : Handing} {X : XSecrets} {C : Codec} {E : Type} `{EngineOk E}.
Context {W : Type} {NW : Network W} {BW : Between W}.
Context (secret_error : SecretError → string) (debug : Answer → string) (shown : N → string).
Context (silence beat : N) (keys_ : KeyStore) (kek : KekName).

#[local] Abbreviation node_of t := (st_node t).
#[local] Abbreviation state_of t := (following (st_node t)).

(** What is left alone by a node that follows: it is none other, and its epoch
    does not go back. *)
Definition same_node (t t' : Settling (E := E) (W := W)) : Prop :=
  process (node_of t') = process (node_of t) ∧ st_listed t' = st_listed t ∧
  role (node_of t') = role (node_of t) ∧ ∀ n, since n (state_of t) → since n (state_of t').

Lemma same_node_refl t : same_node t t.
Proof. by repeat split. Qed.
Lemma same_node_trans t1 t2 t3 : same_node t1 t2 → same_node t2 t3 → same_node t1 t3.
Proof.
  intros (P1 & L1 & R1 & S1) (P2 & L2 & R2 & S2). unfold same_node. rewrite P2, L2, R2. repeat split; try done.
  intros n Hn. by apply S2, S1.
Qed.

Lemma same_net t w : same_node t (over t w).
Proof. by repeat split. Qed.
Lemma same_told t what : same_node t (told t what).
Proof. by repeat split. Qed.
Lemma same_heard t : same_node t (heard_now t).
Proof. unfold heard_now. destruct (instant _) as [w now]. by repeat split. Qed.
Lemma same_following t s : (∀ n, since n (state_of t) → since n s) → same_node t (as_following t s).
Proof. by repeat split. Qed.

#[local] Hint Resolve same_node_refl same_net same_told same_heard : settles.

Lemma sync_due_same t at_ b t' at_' r : sync_due t at_ b = (t', at_', r) → same_node t t'.
Proof.
  unfold sync_due. destruct (instant (st_net t)) as [w now]. destruct b; [intros [= <- _ _]; auto with settles|].
  case_match; [|intros [= <- _ _]; auto with settles].
  destruct (synced _) as [s done_] eqn:Es. destruct (instant _) as [w2 now2]. intros [= <- _ _].
  eapply same_node_trans; [apply same_net|]. eapply same_node_trans; [|apply same_net].
  apply same_following. intros n Hn. pose proof (synced_since n _ Hn) as Hk. by rewrite Es in Hk.
Qed.

Lemma frames_same fuel t c at_ : same_node t (frames_heard secret_error shown silence keys_ kek fuel t c at_).1.
Proof.
  revert t at_. induction fuel as [|fuel IH]; intros t at_; [apply same_node_refl|]. cbn [frames_heard].
  destruct (stopped (st_net t)) as [w []]; [apply same_net|].
  destruct (hears w c) as [w1 [[bytes|]|why]]; cbn [fst]; try apply same_net.
  eapply same_node_trans; [apply (same_net t w1)|]. set (t1 := over t w1). cbn zeta.
  destruct (received bytes) as [frame|e]; [|apply same_node_refl].
  destruct (frame_taken keys_ kek frame (state_of t1)) as [s r] eqn:Ef.
  assert (same_node t1 (as_following t1 s)) as Hs.
  { apply same_following. intros n Hn. pose proof (frame_since n keys_ kek frame _ Hn) as Hk. by rewrite Ef in Hk. }
  destruct r as [[]|e].
  - assert (same_node t1 (if says_heard frame then heard_now (as_following t1 s) else as_following t1 s)) as Hh.
    { destruct (says_heard frame); [|done]. eapply same_node_trans; [exact Hs|apply same_heard]. }
    eapply same_node_trans; [exact Hh|].
    destruct (sync_due _ at_ _) as [[t2 at2] r2] eqn:Ed. apply sync_due_same in Ed.
    destruct r2; [|exact Ed]. eapply same_node_trans; [exact Ed|apply IH].
  - cbn [fst]. destruct frame; try done. eapply same_node_trans; [exact Hs|apply same_heard].
Qed.

Lemma follow_same fuel t address : same_node t (follow secret_error shown silence keys_ kek fuel t address).1.
Proof.
  unfold follow. destruct (following_at _ _ _ _ _ _ _ _) as [t1 ended] eqn:Ef.
  assert (same_node t t1) as Ht1.
  { unfold following_at in Ef. destruct (connect _ _) as [w [c|why]]; [|injection Ef as <- _; apply same_net].
    destruct (sends _ _ _) as [w1 [[]|why]]; [|injection Ef as <- _; apply same_net].
    destruct (instant w1) as [w2 now].
    match type of Ef with frames_heard _ _ _ _ _ _ ?t0 _ _ = _ => assert (same_node t t0) as Ht0 end.
    { eapply same_node_trans; [apply (same_net t w2)|]. by apply same_following. }
    eapply same_node_trans; [exact Ht0|].
    match type of Ef with ?l = _ => replace t1 with l.1 by (by rewrite Ef) end. apply frames_same. }
  destruct ended as [|why]; [exact Ht1|]. cbn [fst]. eapply same_node_trans; [exact Ht1|].
  set (t2 := match why with Some _ => _ | None => _ end).
  assert (same_node t1 t2) as Ht2.
  { unfold t2. destruct why as [problem|]; [|apply same_node_refl].
    destruct (stopped (st_net t1)) as [w []]; [apply same_net|].
    eapply same_node_trans; [apply same_net|apply same_told]. }
  eapply same_node_trans; [exact Ht2|]. apply same_following. intros n Hn. by apply synced_since.
Qed.

Lemma taking_up_role (t : Settling (E := E) (W := W)) r k : role (node_of (taking_up t r k)) = r.
Proof. by unfold taking_up. Qed.
Lemma taking_up_process (t : Settling (E := E) (W := W)) r k :
  process (node_of (taking_up t r k)) = process (node_of t) ∧ st_listed (taking_up t r k) = st_listed t.
Proof. unfold taking_up, heard_now. destruct r; try destruct (instant (st_net t)); done. Qed.
Lemma taking_up_since (t : Settling (E := E) (W := W)) r k n :
  since n (state_of t) → since n (state_of (taking_up t r k)).
Proof. intros Hn. unfold taking_up, heard_now. destruct r; try destruct (instant (st_net t)); by apply heard_since. Qed.

(** A node that followed is no primary, whatever it was handed. *)
Lemma as_standby_spec fuel t address k :
  let t' := as_standby secret_error shown silence keys_ kek fuel t address k in
  role (node_of t') ≠ Primary ∧ st_listed t' = st_listed t ∧ process (node_of t') = process (node_of t) ∧
  ∀ n, since n (state_of t) → since n (state_of t').
Proof.
  unfold as_standby. set (t1 := taking_up t (Standby_ address) k).
  pose proof (taking_up_process t (Standby_ address) k) as [Hp Hl].
  assert (∀ n, since n (state_of t) → since n (state_of t1)) as Ht1 by (intros n; apply taking_up_since).
  pose proof (follow_same fuel t1 address) as (P & L & R & S1).
  destruct (follow _ _ _ _ _ _ _ _) as [t2 []]; cbn [fst] in *; cbn zeta.
  - destruct (stopped _) as [w []].
    + cbn. rewrite R, L, P. repeat split; try done. intros n Hn. by apply S1, Ht1.
    + rewrite taking_up_role. pose proof (taking_up_process (over t2 w) Finding (Word.wrap 0)) as [-> ->]. cbn.
      rewrite L, P. repeat split; try done. intros n Hn. apply heard_since. by apply S1, Ht1.
  - rewrite R, L, P. repeat split; try done. intros n Hn. by apply S1, Ht1.
Qed.

(** A promotion, done or not. *)
Lemma promote_spec drawn now (m : StorageNode E) k m' r :
  promote keys_ kek drawn now m k = (m', r) →
  process m' = process m ∧ (∀ n, since n (following m) → since n (following m')) ∧
  match r with
  | Ok _ => role m' = Primary ∧ is_copying (node (following m)) = false ∧
      uval (epoch (following m')) = N.max (uval (epoch (following m))) (uval k)
  | Err _ => role m' = role m
  end.
Proof.
  unfold promote. pose proof (opening_epoch keys_ kek drawn now (epoch (following m)) (following m) eq_refl) as He.
  destruct (opened_as_primary _ _ _ _ _) as [s [ks|error]] eqn:Eo; cbn [fst] in He; intros [= <- <-]; cbn [process role].
  - assert (is_copying (node (following m)) = false) as Hc.
    { unfold opened_as_primary in Eo. by destruct (is_copying _). }
    cbn [take_up process role following]. split; [done|]. split; [intros n Hn; apply heard_since; unfold since in *; by rewrite He|].
    split; [done|]. split; [done|]. by rewrite heard_epoch, He.
  - split; [done|]. split; [|done]. intros n Hn. cbn. unfold since in *. by rewrite He.
Qed.
End turns.

Section decisions.
Context `{Secret} {E : Type}.

(** What makes a primary step down. *)
Lemma steps_down_spec (n : StorageNode E) answered :
  steps_down n answered = true ↔
  ∃ a, a ∈ answered ∧ sg_primary (Finding.standing a) = true ∧ sg_process (Finding.standing a) ≠ process n ∧
    (uval (epoch (following n)) < uval (sg_epoch (Finding.standing a)))%N.
Proof.
  unfold steps_down. rewrite existsb_exists. setoid_rewrite andb_true_iff. setoid_rewrite andb_true_iff.
  setoid_rewrite bool_decide_eq_true. setoid_rewrite N.ltb_lt. setoid_rewrite <- list_elem_of_In. naive_solver.
Qed.

(** What a promotion is decided on. *)
Lemma decided_promotes (n : StorageNode E) silent answered k :
  decided n silent answered = Promotes k →
  k = wadd (umaxof (foldr (λ a, umaxof (sg_epoch (Finding.standing a))) (Word.wrap 0) answered) (epoch (following n))) 1 ∧
  promotes (process n) silent answered = true ∧
  ∀ a, a ∈ answered → sg_primary (Finding.standing a) = true → sg_process (Finding.standing a) ≠ process n →
    (uval (sg_epoch (Finding.standing a)) < uval (epoch (following n)))%N.
Proof.
  unfold decided. destruct (find_first _ answered) as [p|] eqn:Ef; [done|].
  destruct (promotes _ _ _); [|done]. intros [= <-]. split; [done|]. split; [done|].
  intros a Ha Hp Hne. unfold find_first in Ef. apply N.nle_gt. intros Hle.
  assert (a ∈ filter (λ a, sg_primary (Finding.standing a) && bool_decide (sg_process (Finding.standing a) ≠ process n) &&
    (uval (epoch (following n)) <=? uval (sg_epoch (Finding.standing a)))%N = true) answered) as Hin.
  { apply list_elem_of_filter. split; [|done]. rewrite Hp, bool_decide_true by done. by apply N.leb_le. }
  destruct (filter _ answered); [by apply elem_of_nil in Hin|done].
Qed.

End decisions.

Section settles.
Context `{Secret} {HD : Handing} {X : XSecrets} {C : Codec} {E : Type} `{EngineOk E}.
Context {W : Type} {NW : Network W} {BW : Between W}.
Context (secret_error : SecretError → string) (debug : Answer → string) (shown : N → string).
Context (silence beat : N) (keys_ : KeyStore) (kek : KekName).

(** What a turn is answered. *)
Definition answers (t : Settling (E := E) (W := W)) : list Answered :=
  let w := match role (st_node t) with Primary => rests (st_net t) silence | _ => st_net t end in
  (standings debug w 0 (st_listed t)).2.

(** One turn, for as long and with what it draws as it may be. *)
Definition turned (t t' : Settling (E := E) (W := W)) : Prop :=
  ∃ fuel drawn now, t' = find_turn secret_error debug shown silence beat keys_ kek fuel drawn now t.

Definition epoch_of (t : Settling (E := E) (W := W)) : N := uval (epoch (following (st_node t))).
(** An epoch past every one met can be numbered. *)
Definition room (t : Settling (E := E) (W := W)) : Prop :=
  (epoch_of t + 1 < bound 8)%N ∧ ∀ a, a ∈ answers t → (uval (sg_epoch (Finding.standing a)) + 1 < bound 8)%N.

(** A primary's turn. *)
Lemma keep_primary_spec t :
  role (st_node t) = Primary →
  let t' := keep_primary debug silence t in
  node (following (st_node t')) = node (following (st_node t)) ∧ epoch_of t' = epoch_of t ∧
  process (st_node t') = process (st_node t) ∧ st_listed t' = st_listed t ∧
  (role (st_node t') = Primary ↔ steps_down (st_node t) (answers t) = false).
Proof.
  intros Hr. unfold keep_primary, answers. rewrite Hr.
  destruct (standings _ _ _ _) as [w answered]. cbn [snd over st_node st_listed].
  destruct (steps_down (st_node t) answered) eqn:Ed; [|by repeat split; try done; rewrite Hr].
  unfold taking_up, as_node, told, over, take_up, epoch_of. cbn [st_node st_listed process role following].
  assert (heard (following (st_node t)) (Word.wrap 0) = following (st_node t)) as ->.
  { unfold heard. rewrite (proj2 (N.ltb_ge _ _)); [done|]. rewrite uval_wrap_small by done. lia. }
  by repeat split.
Qed.

(** Any other's turn. *)
Lemma find_turn_spec t fuel drawn now :
  role (st_node t) ≠ Primary →
  let t' := find_turn secret_error debug shown silence beat keys_ kek fuel drawn now t in
  process (st_node t') = process (st_node t) ∧ st_listed t' = st_listed t ∧ (epoch_of t ≤ epoch_of t')%N ∧
  (role (st_node t') = Primary →
     ∃ silent k, decided (st_node t) silent (answers t) = Promotes k ∧
       is_copying (node (following (st_node t))) = false ∧ epoch_of t' = N.max (epoch_of t) (uval k)).
Proof.
  intros Hr. unfold find_turn, answers, epoch_of. destruct (role (st_node t)) as [| |at_] eqn:Er; [|done|];
    (destruct (standings _ _ _ _) as [w answered]; destruct (instant w) as [w1 now1]; cbn [snd];
     destruct (decided (st_node (over t w1)) (silence <=? now1 - st_heard (over t w1))%N answered) as [address k|k|] eqn:Ed;
     cbn zeta;
     [destruct (as_standby_spec secret_error shown silence keys_ kek fuel (over t w1) address k) as (Hn & Hl & Hp & Hs);
      split; [done|]; split; [done|]; split; [apply Hs; unfold since; done|]; intros Hp'; by destruct (Hn Hp')
     |unfold promoted; destruct (promote keys_ kek drawn now (st_node (over t w1)) k) as [n r] eqn:Ep;
      apply promote_spec in Ep as (Hp & Hs & Hn); destruct r as [[]|e];
      [unfold heard_now; destruct (instant _) as [w2 now2]; cbn [st_node st_listed];
       split; [done|]; split; [done|]; split; [apply Hs; unfold since; done|];
       intros _; destruct Hn as (_ & Hc & He); eauto
      |cbn [told st_node st_listed as_node]; split; [done|]; split; [done|]; split; [apply Hs; unfold since; done|];
       rewrite Hn; cbn [over st_node]; by rewrite Er]
     |cbn [over st_node st_listed]; split; [done|]; split; [done|]; split; [lia|]; by rewrite Er]).
Qed.

Lemma turned_keeps t t' :
  turned t t' → process (st_node t') = process (st_node t) ∧ st_listed t' = st_listed t ∧ (epoch_of t ≤ epoch_of t')%N.
Proof.
  intros (fuel & drawn & now & ->). destruct (role (st_node t)) eqn:Er.
  1,3: destruct (find_turn_spec t fuel drawn now) as (? & ? & ? & _); [by rewrite Er|done].
  unfold find_turn. rewrite Er. destruct (keep_primary_spec t Er) as (_ & He & Hp & Hl & _). by rewrite He.
Qed.
Lemma turns_keep t t' :
  rtc turned t t' → process (st_node t') = process (st_node t) ∧ st_listed t' = st_listed t ∧ (epoch_of t ≤ epoch_of t')%N.
Proof.
  induction 1 as [|t1 t2 t3 Ht _ (Hp & Hl & He)]; [done|]. apply turned_keeps in Ht as (Hp' & Hl' & He').
  rewrite Hp, Hl. split; [done|]. split; [done|]. lia.
Qed.
End settles.

Module StandingsTheorems.
Section theorems.
Context `{Secret} {HD : Handing} {X : XSecrets} {C : Codec} {E : Type} `{EngineOk E}.
Context {W : Type} {NW : Network W} {BW : Between W}.
Context (secret_error : SecretError → string) (debug : Answer → string) (shown : N → string).
Context (silence beat : N) (keys_ : KeyStore) (kek : KekName).

(** C23. However a Storage node settles what it is, and whatever the
    network between them does - answers, frames, or ends of connections in any
    order - over any run of its turns its epoch never goes back. A turn that
    makes it the primary is of one that is not copying, was answered itself,
    by a place in the list, as the one of the whole ones that holds most, and
    was answered by no other primary of its epoch or a later one; and its epoch
    is then past every one it was answered and every one it was in before. A
    primary's turn leaves its databases and its epoch as they were, and ends
    its being one exactly where another listed answered as the primary of a
    later epoch. *)
Theorem settles_in_later_epochs t0 t fuel drawn now :
  rtc (turned secret_error debug shown silence beat keys_ kek) t0 t →
  let t' := find_turn secret_error debug shown silence beat keys_ kek fuel drawn now t in
  let answered := answers debug silence t in
  (epoch_of t0 ≤ epoch_of t ≤ epoch_of t')%N ∧
  (∀ a, a ∈ answered → st_listed t0 !! place a = Some (Finding.address a)) ∧
  (role (st_node t) ≠ Primary → role (st_node t') = Primary →
     is_copying (node (following (st_node t))) = false ∧
     (∀ a, a ∈ answered → sg_primary (Finding.standing a) = true → sg_process (Finding.standing a) ≠ process (st_node t0) →
        (uval (sg_epoch (Finding.standing a)) < epoch_of t)%N) ∧
     (∃ me, me ∈ answered ∧ sg_process (Finding.standing me) = process (st_node t0) ∧
        ∀ a, a ∈ answered → sg_copying (Finding.standing a) = false → outranked a me) ∧
     (room debug silence t →
        (epoch_of t0 < epoch_of t')%N ∧ ∀ a, a ∈ answered → (uval (sg_epoch (Finding.standing a)) < epoch_of t')%N)) ∧
  (role (st_node t) = Primary →
     node (following (st_node t')) = node (following (st_node t)) ∧ epoch_of t' = epoch_of t ∧
     (role (st_node t') ≠ Primary ↔ ∃ a, a ∈ answered ∧ sg_primary (Finding.standing a) = true ∧
        sg_process (Finding.standing a) ≠ process (st_node t0) ∧ (epoch_of t < uval (sg_epoch (Finding.standing a)))%N)).
Proof.
  intros (Ep & El & He)%(turns_keep secret_error debug shown silence beat) t' answered.
  assert (NoDup (place <$> answered) ∧ ∀ a, a ∈ answered → st_listed t0 !! place a = Some (Finding.address a)) as [Hnd Hpl].
  { unfold answered, answers. destruct (standings _ _ _ _) as [w l] eqn:Es. rewrite <- El.
    apply standings_placed in Es as [Hnd Hin]. split; [done|]. intros a [_ Ha]%Hin. by rewrite Nat.sub_0_r in Ha. }
  pose proof (turned_keeps secret_error debug shown silence beat keys_ kek t t' ltac:(by exists fuel, drawn, now)) as (Ep' & El' & He').
  rewrite <- Ep.
  split; [done|]. split; [done|]. split.
  - intros Hr Hr'. destruct (find_turn_spec secret_error debug shown silence beat keys_ kek t fuel drawn now Hr)
      as (_ & _ & _ & (silent & k & Hd & Hc & Ek)%(λ f, f Hr')).
    fold answered in Hd. apply decided_promotes in Hd as (-> & Hp & Hlow). split; [done|]. split; [done|]. split.
    + apply promotes_spec in Hp as (me & Hme & Hpm & _ & (best & Hb & _ & Epl & Hmax) & _).
      exists me. split; [done|]. split; [done|].
      assert (best = me) as <-; [|done].
      apply list_elem_of_lookup in Hb as [i Hi]. apply list_elem_of_lookup in Hme as [j Hj].
      assert (i = j) as ->; [|congruence].
      eapply NoDup_lookup; [exact Hnd|rewrite list_lookup_fmap, Hi; done|].
      rewrite list_lookup_fmap, Hj. cbn. by rewrite Epl.
    + intros [Hown Hall]. fold answered in Hall. fold t' in Ek.
      pose proof (latest_room answered (epoch (following (st_node t))) Hall Hown) as Hroom.
      rewrite uval_wadd in Ek by exact Hroom. rewrite uval_umaxof in Ek, Hroom.
      split; [unfold epoch_of in *; lia|]. intros a Ha. pose proof (latest_spec answered a Ha). unfold epoch_of in *. lia.
  - intros Hr. pose proof (keep_primary_spec debug silence t Hr) as (Hn & Hee & _ & _ & Hrole).
    assert (t' = keep_primary debug silence t) as Et by (unfold t', find_turn; by rewrite Hr).
    rewrite <- Et in *. split; [done|]. split; [done|]. rewrite Hrole, not_false_iff_true. apply steps_down_spec.
Qed.
End theorems.

#[local] Existing Instances Glass.secret Glass.secret_ok FollowTheorems.glass_handing
  FollowTheorems.glass_handing_ok SecretTheorems.two_names Plain.codec.

(** Three Storage nodes that answer what they are, at any time the same. *)
Definition Town : Type := list (string * Standing).
#[local] Instance town_network : Network Town := {
  connection := string;
  instant w := (w, 0%N);
  connect w address := (w, if existsb (λ at_, bool_decide (at_.1 = address)) w then inl address else inr "refused"%string);
  carry w c _ := (w, inl (match find (λ at_, bool_decide (at_.1 = c)) w with
                          | Some at_ => Some (sent (AStanding at_.2))
                          | None => None
                          end));
}.
#[local] Instance town_between : Between Town := {
  sends w c _ := (w, inl tt);
  hears w c := (w, inl None);
  rests w _ := w;
  stopped w := (w, false);
}.

(** The first is copying, the second holds more than the third. *)
Definition example_listed : list string := ["one:4440"; "two:4440"; "three:4440"]%string.
Definition example_town : Town := zip example_listed (Finding.standing <$> FindingTheorems.three_answers).
Definition example_settling : Settling :=
  {| st_node := FindingTheorems.node_22; st_listed := example_listed; st_heard := 0; st_last := None;
     st_net := example_town |}.
Definition example_turn (t : Settling) : Settling :=
  find_turn (λ _, ""%string) (λ _, ""%string) (λ _, ""%string) 1000 100 tt tt 10 (wrap 77) (wrap 1000) t.

(** It is promoted; the next turn finds it primary still. *)
Example example_settles :
  role (st_node (example_turn example_settling)) = Primary ∧
  epoch_of (example_turn example_settling) = 5%N ∧
  role (st_node (example_turn (example_turn example_settling))) = Primary.
Proof. vm_compute. done. Qed.

Lemma settles_in_later_epochs_witness :
  role (st_node (example_turn example_settling)) = Primary ∧
  room (λ _, ""%string) 1000 example_settling ∧
  (epoch_of example_settling < epoch_of (example_turn example_settling))%N.
Proof.
  assert (role (st_node (example_turn example_settling)) = Primary) as Hp by (vm_compute; reflexivity).
  assert (room (λ _, ""%string) 1000 example_settling) as Hr.
  { split; [vm_compute; reflexivity|]. apply Forall_forall. apply (bool_decide_unpack _). vm_compute. exact I. }
  split; [exact Hp|]. split; [exact Hr|].
  pose proof (settles_in_later_epochs (λ _, ""%string) (λ _, ""%string) (λ _, ""%string) 1000 100 tt tt
    example_settling example_settling 10 (wrap 77) (wrap 1000) ltac:(apply rtc_refl)) as (_ & _ & H & _).
  apply H; [discriminate|exact Hp|exact Hr].
Defined.
End StandingsTheorems.
