(* ===== verification/Chain.v ===== *)
(** * A writer's audit chain (src/.src/storage/chain.rs)

    One chain per writer, formed as the audit keeper keeps each record: each
    given the next number in its writer's chain and the digest of the record
    before it there, and its own digest over its canonical form; the chain's
    head - the number and the digest of its last record - kept in the
    record's own write. *)

From S2P Require Import Prelude Word Engine Store Codec Facts Records Stream.

(** Where the audit database keeps each writer's head. *)
Definition CHAIN : string := "audit-chain-head".

(** [kept] with what the chain gives it. *)
Definition with_chain (kept : KeptAudit) (position : u64) (previous digest : bytes) (at_ : u64) :
    KeptAudit :=
  let f := ka_facts kept in
  {| ka_id := ka_id kept; ka_streams := ka_streams kept; ka_facts := {|
    af_occurred_unix_nanos := af_occurred_unix_nanos f; af_action := af_action f;
    af_phase := af_phase f; af_severity := af_severity f;
    af_failed := af_failed f; af_text := af_text f; af_program := af_program f; af_host := af_host f;
    af_process := af_process f; af_location := af_location f; af_hidden := af_hidden f;
    af_execution := af_execution f; af_journey := af_journey f; af_message := af_message f;
    af_artifact_kind := af_artifact_kind f; af_artifact_name := af_artifact_name f;
    af_artifact_version := af_artifact_version f; af_node := af_node f; af_cluster := af_cluster f;
    af_writer := af_writer f; af_position := position; af_previous := previous; af_digest := digest;
    af_body_length := af_body_length f; af_body_chunks := af_body_chunks f;
    af_body_digest := af_body_digest f; af_kept_unix_nanos := at_ |} |}.

Section chain.
Context {C : Codec} {H : Sha256}.

Definition no_digest : bytes := replicate DIGEST x00.

(** [canonical_form]: its kept row, its own digest and the keeper's time
    left out, and the record of every Stream it carries. *)
Definition canonical_form (kept : KeptAudit) (streams : list StreamRecord) : bytes :=
  to_bytes (with_chain kept (af_position (ka_facts kept)) (af_previous (ka_facts kept)) no_digest (wrap 0)) ++
  w_u32 (clamp (N.of_nat (length streams))) ++ concat (write <$> streams).

(** [chain_digest]. *)
Definition chain_digest (kept : KeptAudit) (streams : list StreamRecord) : bytes :=
  digest_bytes (canonical_form kept streams).

(** [carried_streams]: each once, in order. *)
Definition carried_streams (entry : AuditEntry) : list StreamId :=
  foldl (λ carried stream, if decide (stream ∈ carried) then carried else carried ++ [stream]) []
    match ae_audited entry with Some a => au_streams a | None => [] end.

Definition cut : PersistError := malformed "an audit chain's head that is not a number and a digest".

(** A head: a number and a digest. *)
Definition read_head (head : bytes) : result (u64 * bytes) :=
  if decide (8 ≤ length head) then
    match array DIGEST (drop 8 head) with
    | Some digest => Ok (of_be (take 8 head), digest)
    | None => Err cut
    end
  else Err cut.

Definition write_head (position : u64) (digest : bytes) : bytes := be position ++ digest.

(** [link]: [kept] given its place after the head the store holds, and the
    head moved to it. *)
Definition link {St : Type} `{RecordStore St} (store : St) (kept : KeptAudit)
    (streams : list StreamRecord) : result (KeptAudit * RecordChange) :=
  let writer := String.list_byte_of_string (af_writer (ka_facts kept)) in
  head ← rs_get store CHAIN writer;
  '(position, previous) ← match head return result (u64 * bytes) with
                          | Some head => read_head head
                          | None => Ok (wrap 0, no_digest)
                          end;
  let position := wadd position 1 in
  let kept := with_chain kept position previous (af_digest (ka_facts kept))
                (af_kept_unix_nanos (ka_facts kept)) in
  let digest := chain_digest kept streams in
  let kept := with_chain kept position previous digest (af_kept_unix_nanos (ka_facts kept)) in
  Ok (kept, (CHAIN, writer, Some (write_head position digest))).
End chain.
