(* ===== verification/Embedded.v ===== *)
(** * The embedded Storage node (src/.src/storage/embedded.rs and
    embedded/submitted.rs, administration.rs, searched.rs, secrets.rs,
    epoch.rs, keeper.rs)

    A node's runtime, administration and audit databases kept by the node
    itself, each a record store, the first written by the one writer of
    [Commit]. Every operation of [XmipStorage] over them, the audit keeper's
    among them.

    Here an operation has the node to itself: the writer decides a group of
    one, which [group_commits_in_order] says is what a group comes to, and a
    write waited on is synced before it is answered ([Waiting]). The clock's
    now and the Storage epoch are the node's, set between operations. What
    the administration database derives its sealing key from is [Sealing]. *)

From S2P Require Import Prelude Word Engine Encrypted Store Codec Facts Records Batch Queue Hold.
From S2P Require Import Failed Origin Dead Claim Schema Instance Publication Secrets Row Columns.
From S2P Require Import Page Due Query Commit Stream Chain Storage.
From stdpp Require Import pretty.

Definition CHUNK : string := "chunk".
Definition STREAM : string := "stream".
Definition KEPT_AUDIT_STREAM : string := "audit-stream-chunk".
Definition KEPT_AUDIT_BODY : string := "audit-body-chunk".

(** [EncryptedStore::derived], of the administration database's store. *)
Class Sealing `{Secret} (A : Type) := sealing_key : A → bytes → result DataKey.

#[export] Instance encrypted_sealing `{Secret} {E : Type} `{Engine E} :
  Sealing (EncryptedStore E) := derived.

Section embedded.
Context {C : Codec} {X : XSecrets} {SE : Secret} {SH : Sha256}.
Context (sha1 : bytes → bytes) (shown : u128 → string) (secret_error : SecretError → string).
Context {R A : Type} {RR : RecordStore R} {RA : RecordStore A} {SA : Sealing A}.

(** [Embedded]: its databases, the writer's next audit number and what its
    random source draws next. *)
Record Embedded : Type := Node {
  runtime : R;
  administration : A;
  audit_db : A;
  next_audit : u64;
  epoch_ : u64;
  now_ : i128;
  draws : Random;
}.

Definition with_runtime (e : Embedded) (s : R) (next : u64) : Embedded :=
  Node s (administration e) (audit_db e) next (epoch_ e) (now_ e) (draws e).
Definition with_administration (e : Embedded) (a : A) : Embedded :=
  Node (runtime e) a (audit_db e) (next_audit e) (epoch_ e) (now_ e) (draws e).
Definition with_audit (e : Embedded) (a : A) : Embedded :=
  Node (runtime e) (administration e) a (next_audit e) (epoch_ e) (now_ e) (draws e).
Definition with_draws (e : Embedded) (r : Random) : Embedded :=
  Node (runtime e) (administration e) (audit_db e) (next_audit e) (epoch_ e) (now_ e) r.

(** [Embedded::in_epoch]. *)
Definition in_epoch (e : Embedded) (epoch : u64) : Embedded :=
  Node (runtime e) (administration e) (audit_db e) (next_audit e) (umaxof (epoch_ e) epoch)
    (now_ e) (draws e).

(** [Embedded::over]: each database brought to the build's schema version,
    and the writer started from the sequence it kept. *)
Definition over (runtime : R) (administration audit_ : A) (now : i128) (r : Random) :
    result Embedded :=
  let at_ := Hold.nanos now in
  '(runtime, _) ← reached runtime Runtime VERSION at_;
  '(administration, _) ← reached administration Administration_ VERSION at_;
  '(audit_, _) ← reached audit_ Audit_ VERSION at_;
  next ← sequence runtime NEXT;
  Ok (Node runtime administration audit_ next (wrap 0) now r).

(** [Embedded::read]. *)
Definition read_record (T : Type) {FT : Form T} (e : Embedded) (kind : string) (key : bytes) :
    result (option T) :=
  o ← rs_get (runtime e) kind key;
  transpose ((λ b, into (from_bytes b : cres T)) <$> (o : option bytes)).

(** A read of the node as it stands. *)
Definition reading {T} (e : Embedded) (r : result T) : Embedded * result T := (e, r).

(** ** Through the writer (submitted.rs, commit.rs) *)

(** [Committer::ahead]: decided and written. *)
Definition ahead (e : Embedded) (op : Op) : Embedded * result (Done * Durable) :=
  let '(s, next, decided) :=
    committed sha1 shown secret_error (runtime e) [op] (now_ e) (epoch_ e) (next_audit e) in
  (with_runtime e s next,
   match decided with
   | answer :: _ => answer
   | [] => Err (Failed_ "the Storage node's writer has stopped")
   end).

(** [Durable::wait]: a batch written is synced before it is told. *)
Definition wait (e : Embedded) (d : Durable) : Embedded * result unit :=
  match d with
  | durable_kept => (e, Ok tt)
  | durable_pending =>
      match rs_sync (runtime e) with
      | Ok s => (with_runtime e s (next_audit e), Ok tt)
      | Err why => (e, Err (EngineFailed "xmip-storage" (display secret_error why)))
      end
  end.

(** [Committer::submit]. *)
Definition submit (e : Embedded) (op : Op) : Embedded * result Done :=
  and_then (ahead e op) (λ e '(done, durable), answering (λ _, done) (wait e durable)).

(** What the writer answered, as the operation expects it. *)
Definition expects {T} (what : string) (take : Done → option T) (o : Embedded * result Done) :
    Embedded * result T :=
  and_then o (λ e done,
    (e, match take done with
        | Some t => Ok t
        | None => Err (malformed ("the writer answered no " +:+ what))
        end)).

(** [written], [claimed], [held] and [yes]. *)
Definition written (e : Embedded) (op : Op) : Embedded * result unit :=
  answering (λ _, tt) (submit e op).
Definition claimed (e : Embedded) (op : Op) : Embedded * result (option Claim) :=
  expects "claim" (λ d, match d with DoneClaim c => Some c | _ => None end) (submit e op).
Definition held_claims (e : Embedded) (op : Op) : Embedded * result (list Claim) :=
  expects "claims" (λ d, match d with DoneClaims held => Some held | _ => None end) (submit e op).
Definition yes (e : Embedded) (op : Op) : Embedded * result bool :=
  expects "verdict" (λ d, match d with DoneYes yes => Some yes | _ => None end) (submit e op).

(** [held_ahead]: a Publication's, before its batch is synced. *)
Definition held_ahead (e : Embedded) (op : Op) : Embedded * result (list Claim * Durable) :=
  and_then (ahead e op) (λ e '(done, durable),
    (e, match done with
        | DoneClaims held => Ok (held, durable)
        | _ => Err (malformed "the writer answered no claims")
        end)).

(** ** The other two databases (administration.rs, searched.rs, secrets.rs) *)

(** [Embedded::indexed]: [changes] written with their index entries. *)
Definition indexed_in (e : Embedded) (store : A) (database : Database) (changes : list RecordChange) :
    result A :=
  '(changes, entries) ← columns_written store database changes (Hold.nanos (now_ e));
  rs_apply_indexed store changes entries.

(** [kind_of]. *)
Definition kind_of (kind : AdministrationKind) : string := ADMINISTRATION +:+ Administration.word kind.

(** [administered]. *)
Definition administered (e : Embedded) (kind : AdministrationKind) (id : u128) (b : option bytes) :
    Embedded * result unit :=
  match indexed_in e (administration e) Administration_ [(kind_of kind, be id, b)] with
  | Ok a => (with_administration e a, Ok tt)
  | Err error => (e, Err error)
  end.

(** [administration_record]. *)
Definition administration_record (e : Embedded) (kind : AdministrationKind) (id : u128) :
    result (option AdministrationRecord) :=
  o ← rs_get (administration e) (kind_of kind) (be id);
  transpose ((λ b, into (from_bytes b : cres AdministrationRecord)) <$> (o : option bytes)).

(** [searched]. *)
Definition searched (e : Embedded) (q : Query) : result (list u128) :=
  let p := plan (q_ask q) in
  let at_ := (pl_table p, pl_index p) in
  match pl_database p with
  | Runtime => Columns.find (runtime e) Runtime at_ (pl_equal p) (pl_range p) (q_most q) (q_newest_first q)
  | Administration_ =>
      Columns.find (administration e) Administration_ at_ (pl_equal p) (pl_range p) (q_most q) (q_newest_first q)
  | Audit_ => Columns.find (audit_db e) Audit_ at_ (pl_equal p) (pl_range p) (q_most q) (q_newest_first q)
  end.

Definition BY_NAME : string * string := ("secret", "secret_name")%string.

(** [secret_id]. *)
Definition secret_id (e : Embedded) (name : SecretName) : result (option u128) :=
  found ← Columns.find (administration e) Administration_ BY_NAME [Text (as_str name)] None (wrap 1) false;
  Ok (head (found : list u128)).

(** [secret_by_id]. *)
Definition secret_by_id (e : Embedded) (id : u128) : result (option KeptSecret) :=
  o ← rs_get (administration e) SECRET (be id);
  transpose ((λ b, into (from_bytes b : cres KeptSecret)) <$> (o : option bytes)).

Definition with_id (k : KeptSecret) (id : u128) : KeptSecret :=
  {| kx_id := id; kx_name := kx_name k; kx_kind := kx_kind k; kx_sealed := kx_sealed k;
     kx_set_unix_nanos := kx_set_unix_nanos k; kx_set_by := kx_set_by k |}.

(** [secret_set]: keeping the identifier of the one of its name it replaces. *)
Definition secret_set (e : Embedded) (r : SecretRecord) : Embedded * result unit :=
  let set :=
    key ← sealing_key (administration e) SEALING;
    kept ← sealed_secret key (draws e 0) r;
    id ← secret_id e (secret_name (sr_secret r));
    let kept := match id with Some id => with_id kept id | None => kept end in
    indexed_in e (administration e) Administration_ [(SECRET, be (kx_id kept), Some (to_bytes kept))] in
  let e := with_draws e (drawn 1 (draws e)) in
  match set with
  | Ok a => (with_administration e a, Ok tt)
  | Err error => (e, Err error)
  end.

(** [secret_read]. *)
Definition secret_read (e : Embedded) (name : SecretName) : result (option SecretRecord) :=
  id ← secret_id e name;
  match id return result (option SecretRecord) with
  | None => Ok None
  | Some id =>
      key ← sealing_key (administration e) SEALING;
      kept ← secret_by_id e id;
      transpose (opened_secret secret_error key <$> (kept : option KeptSecret))
  end.

(** [secret_list]. *)
Fixpoint entries_of (e : Embedded) (ids : list u128) : result (list SecretEntry) :=
  match ids with
  | [] => Ok []
  | id :: ids =>
      kept ← secret_by_id e id;
      rest ← entries_of e ids;
      Ok match kept with Some kept => kept_entry kept :: rest | None => rest end
  end.
Definition secret_list (e : Embedded) : result (list SecretEntry) :=
  ids ← Columns.find (administration e) Administration_ BY_NAME [] None umax false; entries_of e ids.

(** ** The audit keeper (keeper.rs) *)

(** A chunk kept in the audit database, unsynced. *)
Definition chunk_kept (e : Embedded) (kind : string) (key value : bytes) : Embedded * result unit :=
  match rs_apply_deferred (audit_db e) [(kind, key, Some value)] with
  | Ok a => (with_audit e a, Ok tt)
  | Err error => (e, Err error)
  end.

(** [stream_kept]'s refusal. *)
Definition missing (id : AuditId) (stream : StreamId) (what : string) : PersistError :=
  malformed ("the audit record " +:+ shown id +:+ " carries the Stream " +:+ shown stream +:+
             ", and the Ledger holds " +:+ what).

(** [stream_kept]'s loop, from the chunk [index] on. *)
Fixpoint chunks_kept (e : Embedded) (id : AuditId) (stream : StreamId) (index : u32) (n : nat) :
    Embedded * result unit :=
  match n with
  | O => (e, Ok tt)
  | S n =>
      match read_record StreamChunk e CHUNK (chunk_key stream index) with
      | Err error => (e, Err error)
      | Ok None =>
          (e, Err (missing id stream ("no chunk " +:+ pretty (uval index) +:+ " of it")))
      | Ok (Some chunk) =>
          and_then (chunk_kept e KEPT_AUDIT_STREAM (kept_chunk_key id stream index) (to_bytes chunk))
            (λ e _, chunks_kept e id stream (wadd index 1) n)
      end
  end.

(** [stream_kept]. *)
Definition stream_kept (e : Embedded) (id : AuditId) (stream : StreamId) :
    Embedded * result StreamRecord :=
  match read_record StreamRecord e STREAM (be stream) with
  | Err error => (e, Err error)
  | Ok None => (e, Err (missing id stream "no record of it"))
  | Ok (Some record) =>
      answering (λ _, record)
        (chunks_kept e id stream (wrap 0) (N.to_nat (uval (st_chunks record))))
  end.

(** [streams_kept]: the rows of the Streams carried, and their records. *)
Fixpoint streams_kept (e : Embedded) (id : AuditId) (streams : list StreamId) :
    Embedded * result (list RecordChange * list StreamRecord) :=
  match streams with
  | [] => (e, Ok ([], []))
  | stream :: streams =>
      and_then (stream_kept e id stream) (λ e record,
        answering (λ '(rows, records),
            ((KEPT_AUDIT_STREAMS, stream_key id stream,
              Some (to_bytes {| ks_audit := id; ks_stream := record |})) :: rows,
             record :: records))
          (streams_kept e id streams))
  end.

(** [slice::chunks]. *)
Fixpoint pieces_of (fuel size : nat) (b : bytes) : list bytes :=
  match fuel, b with
  | S fuel, _ :: _ => firstn size b :: pieces_of fuel size (skipn size b)
  | _, _ => []
  end.
Definition pieces (size : nat) (b : bytes) : list bytes := pieces_of (length b) size b.

(** [body_kept]'s loop, from the piece [index] on. *)
Fixpoint pieces_kept (e : Embedded) (id : AuditId) (index : u32) (digest : StreamDigest)
    (l : list bytes) : Embedded * result (u32 * StreamDigest) :=
  match l with
  | [] => (e, Ok (index, digest))
  | piece :: l =>
      and_then (chunk_kept e KEPT_AUDIT_BODY (body_key id index) piece) (λ e _,
        pieces_kept e id (wadd index 1) (update digest piece) l)
  end.

Definition with_body (f : AuditFacts) (length : u64) (chunks : u32) (digest : bytes) : AuditFacts :=
  {| af_occurred_unix_nanos := af_occurred_unix_nanos f; af_action := af_action f;
     af_phase := af_phase f; af_severity := af_severity f; af_failed := af_failed f;
     af_text := af_text f; af_program := af_program f; af_host := af_host f;
     af_process := af_process f; af_location := af_location f; af_hidden := af_hidden f;
     af_execution := af_execution f; af_journey := af_journey f; af_message := af_message f;
     af_artifact_kind := af_artifact_kind f; af_artifact_name := af_artifact_name f;
     af_artifact_version := af_artifact_version f; af_node := af_node f;
     af_cluster := af_cluster f; af_writer := af_writer f; af_position := af_position f;
     af_previous := af_previous f; af_digest := af_digest f; af_body_length := length;
     af_body_chunks := chunks; af_body_digest := digest;
     af_kept_unix_nanos := af_kept_unix_nanos f |}.

(** [body_kept]. *)
Definition body_kept (e : Embedded) (entry : AuditEntry) (chunk : nat) (facts : AuditFacts) :
    Embedded * result AuditFacts :=
  let body := body_bytes entry in
  answering (λ '(index, digest),
      with_body facts (wrap (N.of_nat (length body))) index (finish digest))
    (pieces_kept e (ae_id entry) (wrap 0) hasher_default (pieces (Nat.max chunk 1) body)).

(** The record [entry] kept, chained, with its index entries, where none of
    its identifier is. *)
Definition keep_entry (e : Embedded) (entry : AuditEntry) (chunk : nat) : Embedded * result unit :=
  match rs_get (audit_db e) KEPT_AUDIT (be (ae_id entry)) with
  | Err error => (e, Err error)
  | Ok (Some _) => (e, Ok tt)
  | Ok None =>
      and_then (streams_kept e (ae_id entry) (carried_streams entry)) (λ e '(changes, streams),
      and_then (body_kept e entry chunk (ae_facts entry)) (λ e facts,
        let kept := {| ka_id := ae_id entry; ka_streams := carried_streams entry; ka_facts := facts |} in
        match ('(kept, head) ← link (audit_db e) kept streams;
               indexed_in e (audit_db e) Audit_
                 (changes ++ [head; (KEPT_AUDIT, be (ae_id entry), Some (to_bytes kept))])) with
        | Ok a => (with_audit e a, Ok tt)
        | Err error => (e, Err error)
        end))
  end.

(** [keep]'s loop over [n] records from [number] on. *)
Fixpoint keep_each (e : Embedded) (number : u64) (moved : u32) (chunk : nat) (n : nat) :
    Embedded * result u32 :=
  match n with
  | O => (e, Ok moved)
  | S n =>
      match read_record AuditEntry e AUDIT (be number) with
      | Err error => (e, Err error)
      | Ok None => (e, Err (malformed ("audit record " +:+ pretty (uval number) +:+ " is gone")))
      | Ok (Some entry) =>
          and_then (keep_entry e entry chunk) (λ e _,
          and_then (yes e (OpKept number)) (λ e yes,
            if yes : bool then keep_each e (wadd number 1) (wadd moved 1) chunk n
            else (e, Ok moved)))
      end
  end.

(** [keep]. *)
Definition keep (e : Embedded) (most : u32) (chunk : nat) : Embedded * result u32 :=
  match (kept ← sequence (runtime e) KEPT; next ← sequence (runtime e) NEXT; Ok (kept, next)) with
  | Err error => (e, Err error)
  | Ok (kept, next) =>
      keep_each e kept (wrap 0) chunk
        (N.to_nat (uval (uminof next (sat_add kept (uval most))) - uval kept))
  end.

(** [kept], [kept_stream], [kept_chunk] and [kept_body_chunk]. *)
Definition kept_audit (e : Embedded) (id : AuditId) : result (option KeptAudit) :=
  o ← rs_get (audit_db e) KEPT_AUDIT (be id);
  transpose ((λ b, into (from_bytes b : cres KeptAudit)) <$> (o : option bytes)).
Definition kept_stream (e : Embedded) (id : AuditId) (stream : StreamId) :
    result (option StreamRecord) :=
  o ← rs_get (audit_db e) KEPT_AUDIT_STREAMS (stream_key id stream);
  transpose ((λ b, ks_stream <$> into (from_bytes b : cres KeptStream)) <$> (o : option bytes)).
Definition kept_chunk (e : Embedded) (id : AuditId) (stream : StreamId) (index : u32) :
    result (option StreamChunk) :=
  o ← rs_get (audit_db e) KEPT_AUDIT_STREAM (kept_chunk_key id stream index);
  transpose ((λ b, into (from_bytes b : cres StreamChunk)) <$> (o : option bytes)).
Definition kept_body_chunk (e : Embedded) (id : AuditId) (index : u32) : result (option bytes) :=
  rs_get (audit_db e) KEPT_AUDIT_BODY (body_key id index).

(** ** [impl XmipStorage for Embedded] *)

Definition put_chunks (e : Embedded) (changes : list RecordChange) : Embedded * result unit :=
  match rs_apply_deferred (runtime e) changes with
  | Ok s => (with_runtime e s (next_audit e), Ok tt)
  | Err error => (e, Err error)
  end.

Definition embedded_write_chunk (e : Embedded) (chunk : StreamChunk) : Embedded * result unit :=
  put_chunks e [(CHUNK, chunk_key (ck_stream chunk) (ck_index chunk), Some (to_bytes chunk))].
Definition embedded_read_chunk (e : Embedded) (stream : StreamId) (index : u32) :=
  reading e (read_record StreamChunk e CHUNK (chunk_key stream index)).
(** With the last chunk, unsynced as it is; its time is this node's. *)
Definition embedded_write_stream (e : Embedded) (last : StreamChunk) (stream : StreamRecord) :
    Embedded * result unit :=
  let written := {| st_stream := st_stream stream; st_length := st_length stream;
                    st_chunks := st_chunks stream; st_digest := st_digest stream;
                    st_written_unix_nanos := Hold.nanos (now_ e) |} in
  put_chunks e [(CHUNK, chunk_key (ck_stream last) (ck_index last), Some (to_bytes last));
                (STREAM, be (st_stream stream), Some (to_bytes written))].
Definition embedded_read_stream (e : Embedded) (stream : StreamId) :=
  reading e (read_record StreamRecord e STREAM (be stream)).
Definition embedded_write_message (e : Embedded) (message : MessageRecord) : Embedded * result unit :=
  written e (OpPut MESSAGE (be (m_message message)) (to_bytes message)).
Definition embedded_read_message (e : Embedded) (message : MessageId) :=
  reading e (read_record MessageRecord e MESSAGE (be message)).
Definition embedded_write_journey (e : Embedded) (journey : JourneyRecord) : Embedded * result unit :=
  written e (OpPut JOURNEY (be (j_journey journey)) (to_bytes journey)).
Definition embedded_read_journey (e : Embedded) (journey : JourneyId) :=
  reading e (read_record JourneyRecord e JOURNEY (be journey)).
Definition embedded_replay (e : Embedded) (r : Replay) : Embedded * result Replayed :=
  expects "Replay" (λ d, match d with DoneReplayed replayed => Some replayed | _ => None end)
    (submit e (OpReplay r)).
Definition embedded_claim (e : Embedded) (journey : JourneyId) (holder : string) (token : u128)
    (lease : N) : Embedded * result (option Claim) :=
  claimed e (OpClaim {| c_journey := journey; c_holder := holder; c_token := token;
                        c_until_unix_nanos := i128_clamp 0; c_fence := wrap 0 |}
               (lease_nanos lease)).
Definition embedded_read_kept_audit_chunk (e : Embedded) (id : AuditId) (stream : option StreamId)
    (index : u32) :=
  reading e match stream with
            | None => kept_body_chunk e id index
            | Some stream => o ← kept_chunk e id stream index; Ok (fmap (M:=option) ck_bytes o)
            end.

#[export] Instance embedded_storage : XmipStorage Embedded := {
  write_chunk := embedded_write_chunk;
  read_chunk := embedded_read_chunk;
  write_stream := embedded_write_stream;
  read_stream := embedded_read_stream;
  write_message := embedded_write_message;
  read_message := embedded_read_message;
  write_journey := embedded_write_journey;
  read_journey := embedded_read_journey;
  durable := Durable;
  wait_durable := wait;
  publish e publication := held_ahead e (OpPublish publication);
  Storage.read_held e queue from most := reading e (Page.read_held (runtime e) queue from most (now_ e));
  Storage.read_failed e queue from most := reading e (Page.read_failed (runtime e) queue from most);
  Storage.read_due e queue part from most :=
    reading e (Due.read_due (runtime e) queue part from most (now_ e));
  Storage.read_dead e queue from most := reading e (Page.read_dead (runtime e) queue from most);
  read_dead_message e queue message := reading e (read_one (runtime e) queue message);
  Storage.replay := embedded_replay;
  Storage.claim := embedded_claim;
  Storage.renew e claims lease := held_claims e (OpRenew claims (lease_nanos lease));
  Storage.release e c := yes e (OpRelease c);
  Storage.hand_on e h := yes e (OpHandOn h);
  Storage.turn e t := yes e (OpTurn t);
  Storage.read_instance e instance := reading e (Instance.read_instance (runtime e) instance);
  Storage.read_instance_key e key := reading e (Instance.read_instance_key (runtime e) key);
  write_audit e entry := written e (OpAudit entry);
  keep_audit e most chunk := keep e most (N.to_nat (uval chunk));
  Storage.read_kept_audit e id := reading e (kept_audit e id);
  Storage.read_kept_audit_stream e id stream := reading e (kept_stream e id stream);
  Storage.read_kept_audit_chunk := embedded_read_kept_audit_chunk;
  write_administration e record :=
    administered e (ad_kind record) (ad_id record) (Some (to_bytes record));
  read_administration e kind id := reading e (administration_record e kind id);
  remove_administration e kind id := administered e kind id None;
  write_secret := secret_set;
  read_secret e name := reading e (secret_read e name);
  list_secrets e := reading e (secret_list e);
  query e q := reading e (searched e q);
}.

(** What a [ChunkReader] over the node asks. *)
#[export] Instance embedded_stream_reads : StreamReads Embedded := {
  Stream.read_chunk e stream index := (embedded_read_chunk e stream index).2;
  Stream.read_kept_audit e id := kept_audit e id;
  Stream.read_kept_audit_stream e id stream := kept_stream e id stream;
  Stream.read_kept_audit_chunk e id stream index := (embedded_read_kept_audit_chunk e id stream index).2;
}.
End embedded.
