(* ===== verification/Search.v ===== *)
(** * What a question finds (src/.src/storage/query.rs, columns.rs,
    embedded/searched.rs)

    The refinement of a search: [answers] says of each question which rows are
    its answer, over the columns' values and not over any index; the theorem
    is that what [searched] reads of an index, laid out as [Columns] keeps it,
    is every record whose row answers the question and no other, in order, up
    to as many as asked for. On the way: every row's values are of the kinds
    the schema gives its columns, and of two values of a kind neither's
    encoding is the start of the other's. *)

From S2P Require Import Prelude Word Engine Encrypted Store Codec Facts Records Batch Queue Hold.
From S2P Require Import Failed Origin Dead Claim Schema Instance Publication Secrets Row Columns.
From S2P Require Import Page Entries Query Stream Embedded.

(** ** What answers a question *)

(** A time or a number, as the values of a row hold it, within a span. *)
Definition moment (row : Row) (column : string) : option u64 :=
  match value_in row column with
  | Some (Time t) | Some (Count t) => Some t
  | _ => None
  end.
Definition spanned (row : Row) (column : string) (s : Span) : Prop :=
  ∃ t, moment row column = Some t ∧
    (uval (from_unix_nanos s) ≤ uval t ≤ uval (to_unix_nanos s))%N.

(** The database a question is about, and the rows that answer it. *)
Definition ask_database (ask : Ask) : Database :=
  match ask with
  | AuditOccurred _ | AuditOfJourney _ | AuditOfMessage _ | AuditOfArtifact _ _ | AuditFailed _
  | AuditChain _ _ | AuditOfStream _ => Audit_
  | AdministrationUpdated _ _ => Administration_
  | _ => Runtime
  end.

Definition answers (ask : Ask) (row : Row) : Prop :=
  match ask with
  | MessagesInState state updated =>
      value_in row "state" = Some (Text state) ∧ spanned row "updated_at" updated
  | MessagesAtSendPort send_port state =>
      value_in row "send_port" = Some (Text send_port) ∧ value_in row "state" = Some (Text state)
  | JourneysAfter journey => value_in row "previous_journey" = Some (Id journey)
  | JourneysHolding message => value_in row "message" = Some (Id message)
  | MessagesCreated created => spanned row "created_at" created
  | MessagesFromParty party created =>
      value_in row "party" = Some (Text party) ∧ spanned row "created_at" created
  | MessagesOfContract contract created =>
      value_in row "contract" = Some (Text contract) ∧ spanned row "created_at" created
  | MessagesAfter message => value_in row "previous_message" = Some (Id message)
  | AskHeld queue held => value_in row "queue" = Some (Id queue) ∧ spanned row "held_at" held
  | DeadMessages queue queued => value_in row "queue" = Some (Id queue) ∧ spanned row "queued_at" queued
  | AuditOccurred occurred => spanned row "occurred_at" occurred
  | AuditOfJourney journey => value_in row "journey" = Some (Id journey)
  | AuditOfMessage message => value_in row "message" = Some (Id message)
  | AuditOfArtifact artifact occurred =>
      value_in row "artifact_name" = Some (Text artifact) ∧ spanned row "occurred_at" occurred
  | AuditFailed occurred => value_in row "failed" = Some (Flag true) ∧ spanned row "occurred_at" occurred
  | AuditOfStream stream => value_in row "stream" = Some (Id stream)
  | AuditChain writer from =>
      value_in row "writer" = Some (Text writer) ∧
      spanned row "position" {| from_unix_nanos := from; to_unix_nanos := umax |}
  | AdministrationUpdated kind updated =>
      value_in row "kind" = Some (Text (Administration.word kind)) ∧ spanned row "updated_at" updated
  end%string.

(** ** Every row is of the schema's kinds *)

Definition sort_of (kind : Kind) (v : Value) : bool :=
  match kind, v with
  | KTime, Time _ | (Number | KCount | Sequence), Count _ | KFlag, Flag _
  | (KText | LongText | KWord), Text _ | Identifier, Id _ | KBytes, Bytes _ => true
  | _, _ => false
  end.
(** A value's length is counted in 32 bits. *)
Definition value_fits (v : Value) : Prop :=
  match v with Text text => counts_text text | Bytes b => counts b | _ => True end.

Definition column_kind (t : Table) (name : string) : option Kind :=
  cl_kind <$> List.find (λ c, bool_decide (cl_name c = name)) (t_columns t).
Definition typed_cell (t : Table) (c : string * option Value) : Prop :=
  match c.2 with
  | None => True
  | Some v => value_fits v ∧ ∃ kind, column_kind t c.1 = Some kind ∧ sort_of kind v = true
  end.
Definition typed_row (t : Table) (row : Row) : Prop := Forall (typed_cell t) row.

Lemma typed_some (t : Table) (n : string) (kind : Kind) (v : Value) : column_kind t n = Some kind →
  sort_of kind v = true → value_fits v → typed_cell t (n, Some v).
Proof. intros Hk Hs Hf. split; [done|]. by exists kind. Qed.
Lemma typed_text_maybe (t : Table) (n : string) (kind : Kind) (o : option string) :
  column_kind t n = Some kind → sort_of kind (Text "") = true → counts_text_maybe o →
  typed_cell t (n, text_maybe o).
Proof. intros Hk Hs Hf. destruct o; [|done]. split; [done|]. exists kind. by destruct kind. Qed.
Lemma typed_id_maybe (t : Table) (n : string) (o : option u128) :
  column_kind t n = Some Identifier → typed_cell t (n, id_maybe o).
Proof. intros Hk. destruct o; [|done]. split; [done|]. by exists Identifier. Qed.

Lemma digest_counts (b : bytes) : is_digest b → counts b.
Proof. unfold is_digest, counts. intros ->. by vm_compute. Qed.

(** A row, cell by cell. *)
Ltac typed_cells :=
  repeat (apply Forall_cons; split; [
    first [ eapply typed_text_maybe; [by vm_compute|done|assumption]
          | eapply typed_id_maybe; by vm_compute
          | eapply typed_some; [by vm_compute|done|first [done|assumption|by apply digest_counts]] ] | ]);
  apply Forall_nil_2.

Section rows.
Context {C : Codec} {CO : CodecOk C} {X : XSecrets} {XO : XSecretsOk X}.

Lemma typed_journey (r : JourneyRecord) : fits r → typed_row runtime_journey_table (row_JourneyRecord r).
Proof. intros [_ (? & ? & ? & ? & ?)]. typed_cells. Qed.
Lemma typed_message (r : MessageRecord) : fits r → typed_row runtime_message_table (row_MessageRecord r).
Proof. intros [_ (? & ? & ? & ? & ? & ?)]. typed_cells. Qed.
Lemma typed_held (r : Held) : typed_row runtime_held_table (row_Held r).
Proof. typed_cells. Qed.
Lemma typed_dead (r : Dead) : fits r → typed_row runtime_dead_message_table (row_Dead r).
Proof. intros (? & ? & _). typed_cells. Qed.
Lemma typed_failed (r : Failed.Failed) : fits r → typed_row runtime_failed_message_table (row_Failed r).
Proof. intros ?. typed_cells. Qed.
Lemma typed_audit (r : KeptAudit) : fits r → typed_row audit_audit_table (row_KeptAudit r).
Proof. intros [_ (? & ? & ? & ? & ? & ? & ? & ? & ? & ? & ? & ? & ? & ? & ? & ?)]. typed_cells. Qed.
Lemma typed_audit_stream (r : KeptStream) : fits r → typed_row audit_audit_stream_table (row_KeptStream r).
Proof. intros ?. typed_cells. Qed.
Lemma typed_administration (r : AdministrationRecord) :
  typed_row administration_administration_table (row_AdministrationRecord r).
Proof.
  assert (counts_text (Administration.word (ad_kind r))) by by destruct (ad_kind r); vm_compute.
  typed_cells.
Qed.
Lemma typed_secret (r : KeptSecret) : fits r → typed_row administration_secret_table (row_KeptSecret r).
Proof. intros [_ ?]. pose proof (name_fits (kx_name r)). pose proof (kind_fits (kx_kind r)). typed_cells. Qed.

(** What is kept of a searchable record reads as a row of its table's kinds. *)
Lemma searched_typed (s : Searched) (b : bytes) (row : Row) (id : u128) :
  searched_fits s b → searched_row s b = Ok (row, id) → typed_row (laid_out_in s) row.
Proof.
  intros Hf Hr.
  destruct s; cbn [searched_fits searched_row] in *; destruct Hf as (r & Hr' & ->);
    unfold row_as in Hr; rewrite from_to_bytes in Hr by done; cbn in Hr; injection Hr as <- _; cbn [laid_out_in];
    [by apply typed_journey|by apply typed_message|apply typed_held|by apply typed_dead
    |by apply typed_failed|by apply typed_audit|by apply typed_audit_stream|apply typed_administration
    |by apply typed_secret].
Qed.
End rows.

(** ** The encoding of a value is the start of no other's *)

Lemma counted_prefix (a b x y : bytes) : counts a → counts b →
  length_counted a ++ x = length_counted b ++ y → a = b ∧ x = y.
Proof.
  intros Ha Hb. unfold length_counted. rewrite <- !app_assoc. intros E.
  apply be_app_inj in E as [El E]. apply app_inj_1 in E; [done|].
  apply (f_equal uval) in El. rewrite !uval_clamp in El. unfold counts in *. lia.
Qed.

Lemma text_prefix (a b : string) (x y : bytes) : counts_text a → counts_text b →
  encoded (Text a) ++ x = encoded (Text b) ++ y → Text a = Text b ∧ x = y.
Proof.
  intros Ha Hb E. apply counted_prefix in E as [E ->]; [|unfold counts; by rewrite Plain.length_list_byte..].
  apply (f_equal String.string_of_list_byte) in E.
  by rewrite !String.string_of_list_byte_of_string in E; subst.
Qed.

Lemma encoded_prefix (kind : Kind) (v w : Value) (x y : bytes) :
  sort_of kind v = true → sort_of kind w = true → value_fits v → value_fits w →
  encoded v ++ x = encoded w ++ y → v = w ∧ x = y.
Proof.
  intros Hv Hw Hfv Hfw E. destruct kind, v, w; try discriminate Hv; try discriminate Hw;
    try (by apply text_prefix); cbn [encoded] in E;
    try (apply be_app_inj in E as [-> ->]; done).
  - by apply counted_prefix in E as [-> ->].
  - injection E as E ->. by destruct flag, flag0.
Qed.

(** Values of the kinds [kinds] say, one by one. *)
Definition of_kinds (kinds : list Kind) (vs : list Value) : Prop :=
  Forall2 (λ kind v, sort_of kind v = true ∧ value_fits v) kinds vs.

Lemma encoded_prefixes (kinds : list Kind) (vs ws : list Value) (x y : bytes) :
  of_kinds kinds vs → of_kinds kinds ws →
  concat (encoded <$> vs) ++ x = concat (encoded <$> ws) ++ y → vs = ws ∧ x = y.
Proof.
  intros Hv. revert ws x y. induction Hv as [|kind v kinds vs [Hs Hf] _ IH]; intros ws x y Hw E;
    inversion Hw as [|? w ? ws' [Hs' Hf'] Hw']; subst; [done|].
  cbn in E. rewrite <- !app_assoc in E. apply (encoded_prefix kind) in E as [-> E]; [|done..].
  by apply IH in E as [-> ->].
Qed.

(** ** An entry's key within a search's range *)

(** The first and the last key a search reads for [equal] and a span, or none. *)
Definition prefix_of (n : byte) (equal : list Value) : bytes := n :: concat (encoded <$> equal).
Definition first_of (n : byte) (equal : list Value) (range : option (u64 * u64)) : bytes :=
  match range with Some (from, _) => prefix_of n equal ++ be from | None => prefix_of n equal end.
Definition last_of (n : byte) (equal : list Value) (range : option (u64 * u64)) : bytes :=
  match range with
  | Some (_, to) => prefix_of n equal ++ be to ++ replicate 17 xff
  | None => prefix_of n equal ++ replicate 64 xff
  end.

(** What the values of an entry are that a search finds: [equal], and in a span
    one time or number more. *)
Definition found_values (equal : list Value) (range : option (u64 * u64)) (values : list Value) : Prop :=
  match range with
  | None => values = equal
  | Some (from, to) => ∃ v t, values = equal ++ [v] ∧ (v = Time t ∨ v = Count t) ∧
      (uval from ≤ uval t ≤ uval to)%N
  end.

Lemma within_found (n m : byte) (kinds : list Kind) (kind : Kind) (equal values : list Value) (id : u128)
    (range : option (u64 * u64)) :
  of_kinds kinds equal →
  match range with
  | None => of_kinds kinds values
  | Some _ => of_kinds (kinds ++ [kind]) values ∧ (kind = KTime ∨ kind = Number)
  end →
  within (first_of n equal range) (last_of n equal range) (entry_key_of m values id) = true ↔
  m = n ∧ found_values equal range values.
Proof.
  intros He Hv. rewrite within_spec. unfold bytes_le. destruct range as [[from to]|]; cbn [first_of last_of found_values].
  - destruct Hv as [Hv Hk]. apply Forall2_app_inv_l in Hv as (vs & ws & Hvs & Hws & ->).
    inversion Hws as [|? v ? ? [Hs Hf] Hnil]; subst. inversion Hnil; subst.
    assert (Ht : ∃ t, (v = Time t ∨ v = Count t) ∧ encoded v = be t).
    { destruct Hk as [-> | ->], v; try discriminate Hs; cbn; eauto. }
    destruct Ht as (t & Ht & Ee). unfold entry_key_of, prefix_of.
    rewrite fmap_app, concat_app. cbn [fmap list_fmap concat]. rewrite app_nil_r, <- !app_assoc, Ee.
    split.
    + intros [H1 H2]. cbn [app] in H1, H2.
      destruct (ble_prefix_range (n :: concat (encoded <$> equal)) (be from) (be to ++ replicate 17 xff)
        (m :: concat (encoded <$> vs) ++ be t ++ be id)) as [k E]; [by rewrite <- !app_comm_cons..|].
      rewrite <- app_comm_cons in E. injection E as -> E.
      apply (encoded_prefixes kinds) in E as [-> E]; [|done..]. subst k. split; [done|].
      rewrite !app_comm_cons in H1, H2. rewrite !ble_app in H1, H2.
      exists v, t. split; [done|]. split; [done|].
      rewrite <- (app_nil_r (be from)) in H1. apply ble_be_app_iff in H1, H2.
      destruct H1 as [?|[-> _]], H2 as [?|[-> _]]; lia.
    + intros [-> (v' & t' & E & Hv' & Hle)]. apply app_inj_tail in E as [-> ->].
      assert (t' = t) as -> by (destruct Ht as [-> | ->], Hv' as [E|E]; congruence).
      cbn [app]. rewrite !app_comm_cons, !ble_app. split.
      * rewrite <- (app_nil_r (be from)). apply ble_be_app_iff.
        destruct (decide (uval from = uval t)) as [E|E]; [right; split; [by apply uint_eq|done]|left; lia].
      * apply ble_be_app_iff. destruct (decide (uval t = uval to)) as [E|E]; [right|left; lia].
        split; [by apply uint_eq|]. apply (ble_xff _ 17). rewrite length_be. lia.
  - unfold entry_key_of, prefix_of. split.
    + intros [H1 H2].
      destruct (ble_prefix_range (n :: concat (encoded <$> equal)) [] (replicate 64 xff)
        (m :: concat (encoded <$> values) ++ be id)) as [k E]; [by rewrite ?app_nil_r..|].
      rewrite <- app_comm_cons in E. injection E as -> E.
      by apply (encoded_prefixes kinds) in E as [-> _].
    + intros [-> ->]. rewrite app_comm_cons. split.
      * rewrite <- (app_nil_r (n :: concat _)) at 1. by rewrite ble_app.
      * rewrite ble_app. apply (ble_xff _ 64). rewrite length_be. lia.
Qed.

(** ** What a question's plan reads *)

(** The index a question is answered by, and the columns it is of. *)
Definition index_of (ask : Ask) : option Index :=
  let p := plan ask in
  table ← table_named (pl_database p) (pl_table p);
  List.find (λ candidate, bool_decide (ix_name candidate = pl_index p)) (t_indexes table).
Definition ask_columns (ask : Ask) : list string :=
  match index_of ask with Some index => ix_columns index | None => [] end.

(** The searchable records of the table a question is about. *)
Definition ask_searched (ask : Ask) : Searched :=
  match ask with
  | MessagesInState _ _ | MessagesAtSendPort _ _ | JourneysAfter _ | JourneysHolding _ => SJourney
  | MessagesCreated _ | MessagesFromParty _ _ | MessagesOfContract _ _ | MessagesAfter _ => SMessage
  | AskHeld _ _ => SHeld
  | DeadMessages _ _ => SDead
  | AuditOccurred _ | AuditOfJourney _ | AuditOfMessage _ | AuditOfArtifact _ _ | AuditFailed _
  | AuditChain _ _ => SAudit
  | AuditOfStream _ => SAuditStream
  | AdministrationUpdated _ _ => SAdministration
  end.

Section shapes.
Context (row : Row).

Lemma values_one (c : string) (values : list Value) :
  mapM (value_in row) [c] = Some values ↔ ∃ v, value_in row c = Some v ∧ values = [v].
Proof.
  rewrite mapM_Some. split.
  - intros H. inversion H as [|? v ? ? Hv Hn]; subst. inversion Hn; subst. eauto.
  - intros (v & Hv & ->). by repeat constructor.
Qed.
Lemma values_two (c d : string) (values : list Value) :
  mapM (value_in row) [c; d] = Some values ↔
  ∃ v w, value_in row c = Some v ∧ value_in row d = Some w ∧ values = [v; w].
Proof.
  rewrite mapM_Some. split.
  - intros H. inversion H as [|? v ? ? Hv Hn]; subst. inversion Hn as [|? w ? ? Hw Hn']; subst.
    inversion Hn'; subst. eauto 6.
  - intros (v & w & Hv & Hw & ->). by repeat constructor.
Qed.

(** What each shape of plan finds. *)
Definition finds (columns : list string) (equal : list Value) (range : option (u64 * u64)) : Prop :=
  ∃ values, mapM (value_in row) columns = Some values ∧ found_values equal range values.

Lemma moment_some (c : string) (t : u64) :
  moment row c = Some t ↔ ∃ v, value_in row c = Some v ∧ (v = Time t ∨ v = Count t).
Proof. unfold moment. destruct (value_in row c) as [[]|]; naive_solver. Qed.

Lemma finds_one (c : string) (v : Value) : finds [c] [v] None ↔ value_in row c = Some v.
Proof. unfold finds. setoid_rewrite values_one. cbn. naive_solver. Qed.
Lemma finds_two (c d : string) (v w : Value) :
  finds [c; d] [v; w] None ↔ value_in row c = Some v ∧ value_in row d = Some w.
Proof. unfold finds. setoid_rewrite values_two. cbn. naive_solver. Qed.
Lemma finds_span (c : string) (s : Span) :
  finds [c] [] (Some (from_unix_nanos s, to_unix_nanos s)) ↔ spanned row c s.
Proof.
  unfold finds, spanned. setoid_rewrite values_one. setoid_rewrite moment_some. cbn. split.
  - intros (? & (v & Hv & ->) & w & t & [= ->] & Ht & Hle). eauto 6.
  - intros (t & (v & Hv & Ht) & Hle). exists [v]. split; [eauto|]. eauto 6.
Qed.
Lemma finds_equal_span (c d : string) (v : Value) (s : Span) :
  finds [c; d] [v] (Some (from_unix_nanos s, to_unix_nanos s)) ↔
  value_in row c = Some v ∧ spanned row d s.
Proof.
  unfold finds, spanned. setoid_rewrite values_two. setoid_rewrite moment_some. cbn. split.
  - intros (? & (x & w & Hx & Hw & ->) & y & t & [= -> ->] & Ht & Hle). eauto 8.
  - intros (Hv & t & (w & Hw & Ht) & Hle). exists [v; w]. split; [eauto 8|]. eauto 8.
Qed.
End shapes.


(** What is so of every question's plan, and of the plan a secret is found by:
    it reads an index of one table, of records of [s], by values of the kinds of
    the index's columns, and what it finds are the rows [answer] says, each of
    which the index holds. *)
Record planned (p : Plan) (s : Searched) (answer : Row → Prop) (index : Index) (kinds : list Kind) : Prop := {
  pn_named : table_named (pl_database p) (pl_table p) = Some (laid_out_in s);
  pn_find : List.find (λ candidate, bool_decide (ix_name candidate = pl_index p)) (t_indexes (laid_out_in s)) = Some index;
  pn_only row : answer row → match ix_only index with
    | Some flag => value_in row flag = Some (Flag true)
    | None => True
    end;
  pn_equal : of_kinds kinds (pl_equal p);
  pn_kinds : match pl_range p with
    | None => mapM (column_kind (laid_out_in s)) (ix_columns index) = Some kinds
    | Some _ => ∃ kind, (kind = KTime ∨ kind = Number) ∧
        mapM (column_kind (laid_out_in s)) (ix_columns index) = Some (kinds ++ [kind])
    end;
  pn_whole : firstn (length (ix_columns index)) (pl_equal p) = pl_equal p;
  pn_answers row : answer row ↔ finds row (ix_columns index) (pl_equal p) (pl_range p);
}.

Lemma of_kind_one (kind : Kind) (v : Value) : sort_of kind v = true → value_fits v → of_kinds [kind] [v].
Proof. intros Hs Hf. by repeat constructor. Qed.
Lemma of_kind_two (k l : Kind) (v w : Value) : sort_of k v = true → value_fits v →
  sort_of l w = true → value_fits w → of_kinds [k; l] [v; w].
Proof. intros Hs Hf Hs' Hf'. by repeat constructor. Qed.

Lemma word_counts (kind : AdministrationKind) : counts_text (Administration.word kind).
Proof. destruct kind; by vm_compute. Qed.
Ltac plan_kinds :=
  first [ reflexivity | exists KTime; split; [by left|reflexivity] | exists Number; split; [by right|reflexivity] ].
Ltac plan_equal :=
  first [ constructor; fail | apply of_kind_one; [reflexivity|by first [exact I|assumption|apply word_counts]] |
    apply of_kind_two; [reflexivity|cbn [value_fits]; tauto|reflexivity|cbn [value_fits]; tauto] ].

Ltac planned_by index kinds :=
  exists index, kinds; split;
  [ by vm_compute | by vm_compute
  | intros row; cbn [ix_only]; first [by intros _|by intros [? _]]
  | plan_equal | plan_kinds | reflexivity
  | intros row; symmetry; first [apply finds_one|apply finds_two|apply finds_span|apply finds_equal_span] ].

Lemma ask_planned (ask : Ask) : fits ask →
  ∃ index kinds, planned (plan ask) (ask_searched ask) (answers ask) index kinds.
Proof.
  intros Hf. unfold fits, Ask_fits in Hf. destruct ask.
  - planned_by (Schema.index 1 "journey_state" ["state"; "updated_at"])%string [KWord].
  - planned_by (Schema.index 2 "journey_send_port" ["send_port"; "state"])%string [KText; KWord].
  - planned_by (Schema.index 3 "journey_previous" ["previous_journey"])%string [Identifier].
  - planned_by (Schema.index 4 "journey_message" ["message"])%string [Identifier].
  - planned_by (Schema.index 5 "message_created" ["created_at"])%string (@nil Kind).
  - planned_by (Schema.index 6 "message_party" ["party"; "created_at"])%string [KText].
  - planned_by (Schema.index 7 "message_contract" ["contract"; "created_at"])%string [KText].
  - planned_by (Schema.index 8 "message_previous" ["previous_message"])%string [Identifier].
  - planned_by (Schema.index 9 "held_time" ["queue"; "held_at"])%string [Identifier].
  - planned_by (Schema.index 10 "dead_message_time" ["queue"; "queued_at"])%string [Identifier].
  - planned_by (Schema.index 11 "audit_occurred" ["occurred_at"])%string (@nil Kind).
  - planned_by (Schema.index 12 "audit_journey" ["journey"])%string [Identifier].
  - planned_by (Schema.index 13 "audit_message" ["message"])%string [Identifier].
  - planned_by (Schema.index 14 "audit_artifact" ["artifact_name"; "occurred_at"])%string [KText].
  - planned_by (only "failed" (Schema.index 15 "audit_failed" ["failed"; "occurred_at"]))%string [KFlag].
  - planned_by (Schema.index 18 "audit_stream_stream" ["stream"])%string [Identifier].
  - planned_by (Schema.index 19 "audit_chain" ["writer"; "position"])%string [KText].
  - planned_by (Schema.index 16 "administration_updated" ["kind"; "updated_at"])%string [KWord].
Qed.

(** ** What a search finds *)

(** An index's columns, each of a kind, and the values a row has in them. *)
Lemma typed_values (t : Table) (row : Row) (columns : list string) (kinds : list Kind) (values : list Value) :
  typed_row t row → mapM (column_kind t) columns = Some kinds → mapM (value_in row) columns = Some values →
  of_kinds kinds values.
Proof.
  intros Hr Hk%mapM_Some Hv%mapM_Some. revert values Hv.
  induction Hk as [|c kind columns kinds Hc _ IH]; intros values Hv; inversion Hv as [|? v ? values' Hcv Hv']; subst;
    constructor; [|by apply IH].
  unfold value_in in Hcv. destruct (List.find _ row) as [[c' o]|] eqn:Ef; [|done]. subst o.
  apply find_some in Ef as [Hin Hc']. apply bool_decide_eq_true in Hc'. cbn in Hc'. subst c'.
  unfold typed_row in Hr. rewrite Forall_forall in Hr. apply list_elem_of_In in Hin.
  destruct (Hr _ Hin) as [Hf (kind' & Hk' & Hs)]. cbn in Hk'. rewrite Hc in Hk'. by injection Hk' as <-.
Qed.

(** A record of [s] in a database whose row [answer] says, and its identifier. *)
Definition found_in {C : Codec} {X : XSecrets} (database : Database) (s : Searched) (answer : Row → Prop)
    (R : records) (row : Row) (id : u128) : Prop :=
  ∃ kind key b, R !! (kind, key) = Some b ∧ searched_of database kind = Some s ∧
    searched_row s b = Ok (row, id) ∧ answer row.

(** A record of the database whose row answers the question. *)
Definition answering {C : Codec} {X : XSecrets} (ask : Ask) : records → Row → u128 → Prop :=
  found_in (ask_database ask) (ask_searched ask) (answers ask).

(** Every searchable record's bytes are of one its form reads back. *)
Definition all_fit {C : Codec} {X : XSecrets} (database : Database) (R : records) : Prop :=
  ∀ kind key b s, R !! (kind, key) = Some b → searched_of database kind = Some s → searched_fits s b.

(** The time, or the number, an entry is in the order of: the last of its values. *)
Definition last_moment (values : list Value) : option u64 :=
  match last values with Some (Time t) | Some (Count t) => Some t | _ => None end.
Definition in_time (x y : list Value * u128) : Prop :=
  match last_moment x.1, last_moment y.1 with
  | Some a, Some b => (uval a ≤ uval b)%N
  | _, _ => True
  end.

(** The entries of some kind, each of what it is of. *)
Lemma entries_of {A B} (f : A → B) (P : A → Prop) (l : list B) :
  (∀ e, e ∈ l → ∃ x, P x ∧ e = f x) → ∃ xs, l = f <$> xs ∧ Forall P xs.
Proof.
  induction l as [|e l IH]; intros H; [by exists []|].
  destruct (H e ltac:(by left)) as (x & Hx & ->).
  destruct IH as (xs & -> & Hxs); [intros e' He'; apply H; by right|].
  exists (x :: xs). split; [done|]. by constructor.
Qed.

Section found.
Context {C : Codec} {CO : CodecOk C} {X : XSecrets} {XO : XSecretsOk X}.
Context (p : Plan) (s : Searched) (answer : Row → Prop) (index : Index) (kinds : list Kind).
Hypothesis (Hp : planned p s answer index kinds).
Context (R : records) (I : entries).
Hypotheses (HI : laid_out (pl_database p) R I) (HR : all_fit (pl_database p) R).

Definition number : byte := byte_of (ix_number index).
Definition first_key : bytes := first_of number (pl_equal p) (pl_range p).
Definition last_key : bytes := last_of number (pl_equal p) (pl_range p).

(** The values of a found record's row, and its identifier. *)
Definition is_found (x : list Value * u128) : Prop :=
  ∃ row, found_in (pl_database p) s answer R row x.2 ∧ mapM (value_in row) (ix_columns index) = Some x.1.
Definition key_of (x : list Value * u128) : bytes * u128 := (entry_key_of number x.1 x.2, x.2).

Lemma index_listed : index ∈ t_indexes (laid_out_in s).
Proof. apply list_elem_of_In. by apply (find_some _ _ (pn_find _ _ _ _ _ Hp)). Qed.

(** The values an entry of the index has are of the kinds of its columns. *)
Definition right_kinds (values : list Value) : Prop :=
  ∃ ks, mapM (column_kind (laid_out_in s)) (ix_columns index) = Some ks ∧ of_kinds ks values.
Lemma row_right_kinds kind key b row id values :
  R !! (kind, key) = Some b → searched_of (pl_database p) kind = Some s →
  searched_row s b = Ok (row, id) →
  mapM (value_in row) (ix_columns index) = Some values → right_kinds values.
Proof.
  intros Hb Hk Hr Hv. pose proof (searched_typed _ _ _ _ (HR _ _ _ _ Hb Hk) Hr) as Ht.
  assert (∃ ks, mapM (column_kind (laid_out_in s)) (ix_columns index) = Some ks) as [ks Hks].
  { pose proof (pn_kinds _ _ _ _ _ Hp) as Hc. destruct (pl_range p); [destruct Hc as (? & _ & ?)|]; eauto. }
  exists ks. split; [done|]. by eapply typed_values.
Qed.

Lemma within_key m values id : right_kinds values →
  within first_key last_key (entry_key_of m values id) = true ↔
  m = number ∧ found_values (pl_equal p) (pl_range p) values.
Proof.
  intros (ks & Hks & Hv). pose proof (pn_equal _ _ _ _ _ Hp) as He. pose proof (pn_kinds _ _ _ _ _ Hp) as Hc.
  unfold first_key, last_key. destruct (pl_range p) as [range|].
  - destruct Hc as (kind & Hn & Hc). rewrite Hks in Hc. injection Hc as ->. by apply (within_found _ _ kinds kind).
  - rewrite Hks in Hc. injection Hc as ->. by apply (within_found _ _ kinds KTime).
Qed.

Lemma is_found_values x : is_found x → right_kinds x.1 ∧
  found_values (pl_equal p) (pl_range p) x.1.
Proof.
  intros (row & (kind & key & b & Hb & Hk & Hr & Ha) & Hv). split; [by eapply row_right_kinds|].
  apply (pn_answers _ _ _ _ _ Hp) in Ha as (values & Hv' & Hf). rewrite Hv in Hv'. by injection Hv' as <-.
Qed.

(** An entry within the range is of a record whose row answers, and every such is. *)
Lemma entry_found e : I !! e.1 = Some e.2 ∧ within first_key last_key e.1 = true ↔
  ∃ x, is_found x ∧ e = key_of x.
Proof.
  destruct e as [k id]. cbn. rewrite (HI k id). setoid_rewrite elem_of_record_entries. split.
  - intros [(kind & key & b & Hb & s' & row & index' & Hk & Hr & Hi & Hkey) Hw].
    pose proof Hkey as Hkey'. apply index_key_some in Hkey' as (Ho & values & Hv & ->).
    assert (byte_of (ix_number index') = number ∧ s' = s ∧ index' = index) as (Hn & -> & ->).
    { assert (byte_of (ix_number index') = number) as E.
      { rewrite within_spec in Hw. destruct Hw as [H1 H2].
        assert (∃ y, first_key = number :: y) as [y Ey]
          by (unfold first_key, first_of; destruct (pl_range p) as [[]|]; by eexists).
        assert (∃ z, last_key = number :: z) as [z Ez]
          by (unfold last_key, last_of; destruct (pl_range p) as [[]|]; by eexists).
        rewrite Ey in H1. rewrite Ez in H2.
        destruct (ble_prefix_range [number] y z _ H1 H2) as [k' E]. by injection E. }
      split; [done|]. by apply every_index_number; [..|apply index_listed|]. }
    exists (values, id). split; [|done]. exists row. split; [|done].
    exists kind, key, b. split; [done|]. split; [done|]. split; [done|].
    apply (pn_answers _ _ _ _ _ Hp). exists values. split; [done|].
    apply within_key in Hw as [_ Hf]; [done|]. by eapply row_right_kinds.
  - intros ([values id'] & Hx & [= -> ->]). split.
    + destruct Hx as (row & (kind & key & b & Hb & Hk & Hr & Ha) & Hv). cbn in Hv, Hr.
      exists kind, key, b. split; [done|]. exists s, row, index.
      split; [done|]. split; [done|]. split; [apply index_listed|]. apply index_key_some.
      split; [by apply (pn_only _ _ _ _ _ Hp)|]. by exists values.
    + apply is_found_values in Hx as [Hv Hf]. by apply within_key.
Qed.

Lemma key_of_inj x y : is_found x → is_found y → key_of x = key_of y → x = y.
Proof.
  intros [Hx _]%is_found_values [Hy _]%is_found_values E. destruct x as [vx ix], y as [vy iy].
  injection E as E <-. f_equal. destruct Hx as (ks & Hks & Hx), Hy as (ks' & Hks' & Hy).
  rewrite Hks in Hks'. injection Hks' as <-. cbn in Hx, Hy.
  by apply (encoded_prefixes _ _ _ _ _ Hx Hy) in E as [-> _].
Qed.

(** Keys in order are of entries in the order of their times. *)
Lemma key_order x y : is_found x → is_found y → bytes_le (key_of x).1 (key_of y).1 → in_time x y.
Proof.
  intros [_ Hx]%is_found_values [_ Hy]%is_found_values Hle. destruct x as [vx ix], y as [vy iy].
  unfold in_time. cbn in *. destruct (pl_range p) as [[from to]|]; cbn in Hx, Hy.
  - destruct Hx as (v & t & -> & Hv & _), Hy as (w & u & -> & Hw & _).
    unfold last_moment. rewrite !last_snoc.
    assert (encoded v = be t ∧ encoded w = be u) as [Ev Ew] by (by destruct Hv as [-> | ->], Hw as [-> | ->]).
    unfold bytes_le, entry_key_of in Hle. rewrite !fmap_app, !concat_app in Hle. cbn [fmap list_fmap concat] in Hle.
    rewrite !app_nil_r, Ev, Ew, <- !app_assoc, !app_comm_cons, ble_app in Hle. apply ble_be_app_iff in Hle.
    destruct Hv as [-> | ->], Hw as [-> | ->]; destruct Hle as [?|[-> _]]; lia.
  - subst. by destruct (last_moment _).
Qed.

Lemma found_sorted found : Forall is_found found → StronglySorted bytes_le (key_of <$> found).*1 →
  StronglySorted in_time found.
Proof.
  induction 1 as [|x found Hx Hf IH]; intros Hs; [constructor|]. rewrite !fmap_cons in Hs.
  inversion Hs as [|? ? Hs' Hl]; subst. constructor; [by apply IH|].
  rewrite Forall_forall in *. intros y Hy. apply key_order; [done|by apply Hf|].
  apply (proj1 (Forall_forall _ _) Hl). apply list_elem_of_fmap. exists (key_of y). split; [done|]. apply list_elem_of_fmap. eauto.
Qed.

(** The range of the index a search reads is of what it should find, in order. *)
Lemma range_found : ∃ found, range I first_key last_key = key_of <$> found ∧
  NoDup found ∧ StronglySorted in_time found ∧ ∀ x, x ∈ found ↔ is_found x.
Proof.
  destruct (entries_of key_of is_found (range I first_key last_key)) as (found & E & Hf).
  { intros [k id] [Hw Hk]%elem_of_range. by apply entry_found. }
  exists found. split; [done|].
  pose proof (range_NoDup I first_key last_key) as Hn. pose proof (range_sorted I first_key last_key) as Hs.
  rewrite E in Hn, Hs. split; [by do 2 eapply NoDup_fmap_1|]. split; [by apply found_sorted|].
  intros x. rewrite Forall_forall in Hf. split; [apply Hf|]. intros Hx.
  assert (key_of x ∈ key_of <$> found) as (y & Ey & Hy)%list_elem_of_fmap.
  { rewrite <- E. destruct (key_of x) as [k id] eqn:Ek. apply elem_of_range.
    apply (and_comm (I !! k = Some id)). apply (entry_found (k, id)). by exists x. }
  apply key_of_inj in Ey as ->; [done..|by apply Hf].
Qed.

Context {St : Type} `{RecordStoreOk St}.

(** What is read of the index for the question. *)
Lemma find_found (store : St) (most : u32) (reverse_ : bool) (ids : list u128) :
  rs_repr store R I →
  Columns.find store (pl_database p) (pl_table p, pl_index p)
    (pl_equal p) (pl_range p) most reverse_ = Ok ids →
  ∃ found, ids = (up_to (uval most) (if reverse_ then reverse found else found)).*2 ∧
    NoDup found ∧ StronglySorted in_time found ∧ ∀ x, x ∈ found ↔ is_found x.
Proof.
  intros Hr E. unfold Columns.find, index_range, index_prefix in E. cbn [fst snd] in E.
  rewrite (pn_named _ _ _ _ _ Hp), (pn_find _ _ _ _ _ Hp), (pn_whole _ _ _ _ _ Hp) in E. cbn [mbind result_bind snd] in E.
  destruct range_found as (found & Er & Hn & Hs & Hf).
  assert (∀ es, ble first_key last_key = true →
    Store.scan_index_keyed store first_key last_key (uval most) reverse_ = Ok es →
    ids = (es : list (bytes * u128)).*2 →
    ids = (up_to (uval most) (if reverse_ then reverse found else found)).*2) as Hread.
  { intros es Hle Es ->. apply (rs_scan_spec store R I) in Es; [|done]. subst es. unfold ranged.
    rewrite Hle, Er. destruct reverse_; rewrite <- ?fmap_reverse, up_to_fmap, <- list_fmap_compose; done. }
  unfold first_key, last_key, first_of, last_of, prefix_of, number in *.
  destruct (pl_range p) as [[from to]|] eqn:Erange.
  - destruct (N.ltb_spec (uval to) (uval from)) as [Hlt|Hle].
    + injection E as <-. exists []. split; [by destruct reverse_, (uval most)|]. split; [constructor|].
      split; [constructor|]. intros x. split; [by intros ?%elem_of_nil|].
      intros [_ Hx]%is_found_values. rewrite Erange in Hx. destruct Hx as (? & ? & _ & _ & ?). lia.
    + apply bind_Ok in E as (es & Es & E). injection E as <-. exists found. split; [|done].
      eapply Hread; [|exact Es|done]. rewrite ble_app. rewrite <- (app_nil_r (be from)). apply ble_be_app_iff.
      destruct (decide (uval from = uval to)) as [Eq|Eq]; [right; split; [by apply uint_eq|done]|left; lia].
  - apply bind_Ok in E as (es & Es & E). injection E as <-. exists found. split; [|done].
    eapply Hread; [|exact Es|done]. rewrite <- (app_nil_r (byte_of _ :: _)) at 1. by rewrite ble_app.
Qed.
End found.

(** ** Rows and their tables *)

(** A row of the columns it should have is whole. *)
Lemma whole_row s (row : Row) : row.*1 = row_columns s → Forall (full_cell (laid_out_in s)) row →
  ∀ column, column ∈ t_columns (laid_out_in s) →
    cl_name column ∈ t_key (laid_out_in s) ++ t_unique (laid_out_in s) ++ ["body"; "sealed"]%string ∨
    ∃ o, (cl_name column, o) ∈ row ∧ (cl_null column = false → is_Some o).
Proof.
  intros Hc Hfull column Hin.
  assert (Forall (λ column, column_null (laid_out_in s) (cl_name column) = Some (cl_null column) ∧
    (cl_name column ∈ t_key (laid_out_in s) ++ t_unique (laid_out_in s) ++ ["body"; "sealed"]%string ∨
     cl_name column ∈ row_columns s)) (t_columns (laid_out_in s))) as Hall
    by (destruct s; apply (bool_decide_unpack _); by vm_compute).
  rewrite Forall_forall in Hall. apply Hall in Hin as [Hnull [Hkey|Hrow]]; [by left|right].
  rewrite <- Hc in Hrow. apply list_elem_of_fmap in Hrow as ([name o] & En & Ho). cbn in En. subst name.
  exists o. split; [done|]. intros Hno. destruct o as [v|]; [done|].
  rewrite Forall_forall in Hfull. specialize (Hfull _ Ho eq_refl). cbn in Hfull. congruence.
Qed.

(** ** The theorems *)

Module SearchTheorems.
Section theorems.
Context {C : Codec} {CO : CodecOk C} {X : XSecrets} {XO : XSecretsOk X}.
Context {SE : Secret} {Rt At : Type} `{RecordStoreOk Rt} `{RecordStoreOk At}.

(** What the database a question is about keeps. *)
Definition kept_for (e : Embedded (R := Rt) (A := At)) (ask : Ask) (R : records) (I : entries) : Prop :=
  match (ask_database ask) with
  | Runtime => rs_repr (runtime e) R I
  | Administration_ => rs_repr (administration e) R I
  | Audit_ => rs_repr (audit_db e) R I
  end.

(** C12. A search finds what answers its question. Of a database whose
    index is kept with its records, each one its form reads back, what is read
    for any of the eighteen questions is the records whose rows answer it and
    no others: those in the order of the time or the number the question spans
    - oldest first, or newest first where that is asked for - and as many as
    asked for or all of them. *)
Theorem search_finds_every_answer (e : Embedded (R := Rt) (A := At)) (q : Query) R I (ids : list u128) :
  fits q → kept_for e (q_ask q) R I →
  laid_out (ask_database (q_ask q)) R I → all_fit (ask_database (q_ask q)) R →
  searched e q = Ok ids →
  ∃ found, ids = (up_to (uval (q_most q)) (if q_newest_first q then reverse found else found)).*2 ∧
    NoDup found ∧ StronglySorted in_time found ∧
    ∀ values id, (values, id) ∈ found ↔
      ∃ row, answering (q_ask q) R row id ∧ mapM (value_in row) (ask_columns (q_ask q)) = Some values.
Proof.
  intros Hf Hr HI HR E. destruct (ask_planned (q_ask q) Hf) as (index & kinds & Hp).
  assert (ask_columns (q_ask q) = ix_columns index) as ->.
  { unfold ask_columns, index_of. rewrite (pn_named _ _ _ _ _ Hp). cbn [mbind option_bind].
    by rewrite (pn_find _ _ _ _ _ Hp). }
  assert (pl_database (plan (q_ask q)) = ask_database (q_ask q)) as Ed by by destruct (q_ask q).
  unfold answering. unfold searched in E. unfold kept_for in Hr. rewrite <- Ed in *.
  destruct (pl_database (plan (q_ask q))) eqn:Ed'; rewrite <- Ed' in *;
    destruct (find_found _ _ _ _ _ Hp R I HI HR _ _ _ _ Hr E) as (found & -> & Hn & Hs & Hx);
    exists found; (split; [done|split; [done|split; [done|]]]); intros values id; apply (Hx (values, id)).
Qed.
End theorems.

(** C11. Every row is of its table, and whole. The row of any searchable
    record, as its bytes read back, has each column of its table that is not
    of its key, unique or the body - a secret's sealed value -, and in each of
    them the table does not let be empty a value; each value is of the kind the table gives the column and
    counted in 32 bits; the row has no column twice and none its table does
    not; and every column an index of the table is of, or is kept only for, is
    one of the row's, so no index passes over a record for want of a column. *)
Theorem rows_fit_their_tables {C : Codec} {CO : CodecOk C} {X : XSecrets} {XO : XSecretsOk X}
    (s : Searched) (b : bytes) (row : Row) (id : u128) :
  searched_fits s b → searched_row s b = Ok (row, id) →
  typed_row (laid_out_in s) row ∧
  (∀ column, column ∈ t_columns (laid_out_in s) →
     cl_name column ∈ t_key (laid_out_in s) ++ t_unique (laid_out_in s) ++ ["body"; "sealed"] ∨
     ∃ o, (cl_name column, o) ∈ row ∧ (cl_null column = false → is_Some o)) ∧
  (∀ c, c ∈ row → c.2 = None → column_null (laid_out_in s) c.1 = Some true) ∧
  NoDup row.*1 ∧ row.*1 ⊆ cl_name <$> t_columns (laid_out_in s) ∧
  ∀ index, index ∈ t_indexes (laid_out_in s) → ix_columns index ++ option_list (ix_only index) ⊆ row.*1.
Proof.
  intros Hf Hr. split; [by eapply searched_typed|]. destruct (searched_full s b row id Hr) as [Hc Hfull].
  split; [by apply whole_row|]. rewrite Hc. split; [exact (proj1 (Forall_forall _ _) Hfull)|]. clear.
  assert (NoDup (row_columns s) ∧ row_columns s ⊆ cl_name <$> t_columns (laid_out_in s) ∧
    Forall (λ index, ix_columns index ++ option_list (ix_only index) ⊆ row_columns s) (t_indexes (laid_out_in s)))
    as (Hn & Hc & Hi); [destruct s; by apply (bool_decide_unpack _); vm_compute|].
  split; [done|]. split; [done|]. exact (proj1 (Forall_forall _ _) Hi).
Qed.

#[local] Existing Instances Plain.codec_ok SecretTheorems.two_names SecretTheorems.two_names_ok Glass.secret.

(** Three Messages, of as many times, and those of two of them asked for. *)
Definition example_message (id at_ : N) : MessageRecord :=
  {| m_message := wrap id; m_body := [x02];
     m_facts := {| mf_previous_message := None; mf_generation := wrap 0; mf_created_by := "Receive";
       mf_priority := "Normal"; mf_execution_profile := "Default"; mf_durability := "Durable";
       mf_size_bytes := wrap 1; mf_party := None; mf_contract := None; mf_stream := None;
       mf_created_unix_nanos := wrap at_ |} |}.
Definition example_kept (m : MessageRecord) : string * bytes * bytes :=
  (MESSAGE, be (m_message m), to_bytes (C := Plain.codec) m).
Definition example_records : records :=
  list_to_map (example_kept <$> [example_message 20 5; example_message 21 9; example_message 22 7]).
Definition example_index : entries := list_to_map (made_of (C := Plain.codec) Runtime example_records).
Definition example_node : Embedded (R := Ledger.Ledger) (A := Ledger.Ledger) :=
  Node {| Ledger.recs := example_records; Ledger.idx := example_index |}
    {| Ledger.recs := ∅; Ledger.idx := ∅ |} {| Ledger.recs := ∅; Ledger.idx := ∅ |}
    (wrap 1) (wrap 3) (i128_clamp 60) (λ _, 0%nat).
Definition example_query : Query :=
  {| q_ask := MessagesCreated {| from_unix_nanos := wrap 6; to_unix_nanos := wrap 9 |};
     q_most := wrap 10; q_newest_first := true |}.

Lemma example_all_fit : all_fit (C := Plain.codec) Runtime example_records.
Proof.
  intros kind key b s Hb Hs. apply elem_of_list_to_map_2 in Hb. apply list_elem_of_fmap in Hb as (m & E & Hm).
  injection E as -> -> ->. injection Hs as <-. exists m. split; [|done].
  repeat (apply elem_of_cons in Hm as [->|Hm]; [by vm_compute|]). by apply elem_of_nil in Hm.
Qed.

Lemma search_finds_every_answer_witness :
  searched example_node example_query = Ok [wrap 21; wrap 22] ∧
  ∃ found, [wrap 21; wrap 22] = (up_to 10 (reverse found)).*2 ∧ NoDup found ∧ StronglySorted in_time found ∧
    ∀ values id, (values, id) ∈ found ↔
      ∃ row, answering (C := Plain.codec) (q_ask example_query) example_records row id ∧
        mapM (value_in row) ["created_at"%string] = Some values.
Proof.
  assert (searched example_node example_query = Ok [wrap 21; wrap 22]) as E by by vm_compute.
  split; [exact E|].
  apply (search_finds_every_answer (C := Plain.codec) example_node example_query example_records example_index).
  - done.
  - by split.
  - apply made_of_laid_out. apply (bool_decide_unpack _). by vm_compute.
  - exact example_all_fit.
  - exact E.
Defined.

(** The first of the three. *)
Lemma rows_fit_their_tables_witness :
  ∃ row, searched_row (C := Plain.codec) SMessage (to_bytes (C := Plain.codec) (example_message 20 5)) = Ok (row, wrap 20) ∧
    typed_row runtime_message_table row ∧ value_in row "created_at" = Some (Time (wrap 5)).
Proof.
  exists (row_MessageRecord (example_message 20 5)).
  assert (searched_row (C := Plain.codec) SMessage (to_bytes (C := Plain.codec) (example_message 20 5)) =
    Ok (row_MessageRecord (example_message 20 5), wrap 20)) as E by by vm_compute.
  split; [exact E|]. split; [|by vm_compute].
  apply (rows_fit_their_tables (C := Plain.codec) SMessage _ _ _) with (2 := E).
  exists (example_message 20 5). split; [|done]. by vm_compute.
Defined.
End SearchTheorems.
