(* ===== verification/Named.v ===== *)
(** * A secret found by its name (src/.src/storage/embedded/secrets.rs,
    secret.rs)

    What setting and reading secrets by name comes to, through the index that
    keeps their names ([Columns], [Search]) and the seal of each value
    ([Secrets]): [secrets_are] says that an embedded node's administration
    database keeps the secrets of a function from names, and the theorem that
    [secret_set] and [secret_read] are that function's update and its value.
    [StoredSecrets] is what a node's Locations are handed; whether a failure of
    the transport may be tried again is the xcore crate's [Failure], its two
    makers arguments. *)

From S2P Require Import Prelude Word Engine Encrypted Store Codec Facts Records Batch Queue Hold.
From S2P Require Import Failed Origin Dead Claim Schema Instance Publication Secrets Row Columns.
From S2P Require Import Page Entries Query Stream Storage Embedded Search.

(** ** What a node presents *)

Section stored.
Context {X : XSecrets} {S : Type} {XS : XmipStorage S} (secret_error : SecretError → string).
Context {Failure : Type} (retryable permanent : string → Failure).

(** [StoredSecrets::secret]. *)
Definition stored_secret (storage : S) (name : SecretName) : S * (option XSecret + Failure) :=
  match read_secret storage name with
  | (storage, Ok kept) => (storage, inl (sr_secret <$> kept))
  | (storage, Err failed) =>
      (storage, inr match failed with
                    | Unreachable _ | Standby _ | EngineFailed _ _ => retryable (display secret_error failed)
                    | _ => permanent (display secret_error failed)
                    end)
  end.
End stored.

(** ** The plan a secret is found by *)

Section named.
Context {C : Codec} {CO : CodecOk C} {X : XSecrets} {XO : XSecretsOk X}.

Lemma as_str_inj (n n' : SecretName) : as_str n = as_str n' → n = n'.
Proof. intros E. pose proof (name_rt n) as H. rewrite E, name_rt in H. by injection H. Qed.

Definition named_plan (name : SecretName) : Plan :=
  {| pl_database := Administration_; pl_table := "secret"; pl_index := "secret_name";
     pl_equal := [Text (as_str name)]; pl_range := None |}.
Definition is_named (name : SecretName) (row : Row) : Prop := value_in row "name" = Some (Text (as_str name)).
Definition name_index : Index := Schema.index 24 "secret_name" ["name"%string].

Lemma named_planned name : planned (named_plan name) SSecret (is_named name) name_index [KText].
Proof.
  split; [by vm_compute|by vm_compute|done| |done|done|].
  - apply of_kind_one; [done|]. apply name_fits.
  - intros row. symmetry. apply finds_one.
Qed.

Lemma secret_searched kind : searched_of Administration_ kind = Some SSecret ↔ kind = SECRET.
Proof.
  unfold searched_of. split; [|by intros ->; vm_compute].
  repeat case_match; try discriminate. done.
Qed.

(** A secret's record, kept under its identifier. *)
Definition kept_secret (R : records) (k : KeptSecret) : Prop :=
  fits k ∧ R !! (SECRET, be (kx_id k)) = Some (to_bytes k).

(** The administration database's records, as far as its secrets go: each is
    kept under its identifier, no two of one name, and every searchable record
    is one its form reads back, no two with an index entry in common. *)
Record secrets_kept (R : records) : Prop := {
  sk_fit : all_fit Administration_ R;
  sk_apart : apart Administration_ R;
  sk_keyed key b : R !! (SECRET, key) = Some b → ∃ k, fits k ∧ b = to_bytes k ∧ key = be (kx_id k);
  sk_one k k' : kept_secret R k → kept_secret R k' → kx_name k = kx_name k' → kx_id k = kx_id k';
}.

(** Under one identifier is one secret. *)
Lemma kept_same R k k' : kept_secret R k → kept_secret R k' → kx_id k = kx_id k' → k = k'.
Proof.
  intros [Hf Hk] [Hf' Hk'] E. rewrite E in Hk. rewrite Hk in Hk'. injection Hk' as Hb.
  pose proof (from_to_bytes k Hf) as H1. rewrite Hb, (from_to_bytes k' Hf') in H1. by injection H1.
Qed.

Lemma secret_row k : fits k → searched_row SSecret (to_bytes k) = Ok (row_KeptSecret k, kx_id k).
Proof. intros Hf. unfold searched_row, row_as. by rewrite from_to_bytes. Qed.

Lemma row_named k name : is_named name (row_KeptSecret k) ↔ kx_name k = name.
Proof.
  unfold is_named. split; [|by intros <-]. intros H. apply as_str_inj.
  change (Some (Text (as_str (kx_name k))) = Some (Text (as_str name))) in H. by injection H.
Qed.

(** What the search for a name finds of the records. *)
Lemma found_named R name row id : secrets_kept R →
  found_in Administration_ SSecret (is_named name) R row id ↔
  ∃ k, kept_secret R k ∧ kx_name k = name ∧ row = row_KeptSecret k ∧ id = kx_id k.
Proof.
  intros HR. split.
  - intros (kind & key & b & Hb & ->%secret_searched & Hr & Hn).
    destruct (sk_keyed R HR key b Hb) as (k & Hf & -> & ->). rewrite secret_row in Hr by done.
    injection Hr as <- <-. exists k. split; [by split|]. split; [by apply row_named|done].
  - intros (k & [Hf Hk] & Hn & -> & ->). exists SECRET, (be (kx_id k)), (to_bytes k).
    split; [done|]. split; [by apply secret_searched|]. split; [by apply secret_row|]. by apply row_named.
Qed.
End named.

(** ** One secret set *)

Section set.
Context {C : Codec} {CO : CodecOk C} {X : XSecrets} {XO : XSecretsOk X}.

(** An entry of a secret's is no other record's. *)
Lemma secret_entry R k kk kind' key' b' : secrets_kept R → fits k →
  kk ∈ (record_entries Administration_ SECRET (to_bytes k)).*1 →
  R !! (kind', key') = Some b' → kk ∈ (record_entries Administration_ kind' b').*1 →
  (kind', key') = (SECRET, be (kx_id k)).
Proof.
  intros HR Hf Hk Hb Hk'. apply list_elem_of_fmap in Hk as ([k1 id] & -> & Hk).
  apply list_elem_of_fmap in Hk' as ([k2 id'] & E & Hk'). cbn in E. subst k2.
  apply elem_of_record_entries in Hk as (s & row & i & Hs & Hr & Hi & Hkey).
  apply elem_of_record_entries in Hk' as (s' & row' & i' & Hs' & Hr' & Hi' & Hkey').
  rewrite (proj2 (secret_searched SECRET) eq_refl) in Hs. injection Hs as <-.
  rewrite secret_row in Hr by done. injection Hr as <- <-.
  apply index_key_some in Hkey as (_ & values & _ & E). apply index_key_some in Hkey' as (_ & values' & _ & E').
  rewrite E in E'. injection E' as En Ev. symmetry in En.
  destruct (every_index_number s' SSecret i' i Hi' Hi En) as [-> ->].
  apply secret_searched in Hs' as ->. apply app_inj_2 in Ev as [_ Eid]; [|by rewrite !length_be].
  apply be_inj in Eid as ->. destruct (sk_keyed R HR key' b' Hb) as (k' & Hf' & -> & ->).
  rewrite secret_row in Hr' by done. by injection Hr' as _ ->.
Qed.

Lemma secret_place (a b : u128) : (SECRET, be a) = (SECRET, be b) → a = b.
Proof. intros E. apply be_inj. by apply (f_equal snd) in E. Qed.

(** The records once a secret is written under its identifier: one replaced of
    the same name, or of a name and an identifier none had. *)
Definition with_secret (R : records) (k : KeptSecret) : records :=
  record_change R (SECRET, be (kx_id k), Some (to_bytes k)).

Lemma lookup_with_secret R k p : with_secret R k !! p = if decide ((SECRET, be (kx_id k)) = p) then Some (to_bytes k) else R !! p.
Proof. unfold with_secret. by rewrite lookup_record_change. Qed.

Lemma kept_with_secret R k k' : fits k →
  kept_secret (with_secret R k) k' ↔ k' = k ∨ (kx_id k' ≠ kx_id k ∧ kept_secret R k').
Proof.
  intros Hf. unfold kept_secret. rewrite lookup_with_secret. case_decide as Hd.
  - apply secret_place in Hd. split.
    + intros [Hf' [= Hb]]. left. pose proof (from_to_bytes k Hf) as H1. rewrite Hb, (from_to_bytes k' Hf') in H1. by injection H1.
    + intros [->|[Hne _]]; [done|by destruct Hne].
  - split.
    + intros Hk. right. split; [|done]. intros E. apply Hd. by rewrite E.
    + intros [->|[_ ?]]; [done|done].
Qed.

Lemma secrets_kept_with R k : secrets_kept R → fits k →
  (∀ k', kept_secret R k' → kx_name k' = kx_name k → kx_id k' = kx_id k) →
  secrets_kept (with_secret R k).
Proof.
  intros HR Hf Hn. split.
  - intros kind key b s Hb Hs. rewrite lookup_with_secret in Hb. case_decide as Hd; [|by eapply (sk_fit R HR)].
    injection Hb as <-. injection Hd as <- <-. rewrite (proj2 (secret_searched SECRET) eq_refl) in Hs. injection Hs as <-.
    by exists k.
  - intros kind key b kind' key' b' kk Hb Hb' Hk Hk'. rewrite lookup_with_secret in Hb, Hb'.
    destruct (decide ((SECRET, be (kx_id k)) = (kind, key))) as [Hd|Hd],
      (decide ((SECRET, be (kx_id k)) = (kind', key'))) as [Hd'|Hd']; [congruence| | |by eapply (sk_apart R HR)].
    + injection Hb as <-. injection Hd as <- <-. symmetry. by eapply secret_entry.
    + injection Hb' as <-. injection Hd' as <- <-. by eapply secret_entry.
  - intros key b Hb. rewrite lookup_with_secret in Hb. case_decide as Hd; [|by apply (sk_keyed R HR)].
    injection Hb as <-. injection Hd as <-. by exists k.
  - intros k1 k2 [->|[Hne1 H1]]%kept_with_secret [->|[Hne2 H2]]%kept_with_secret E; try done.
    + symmetry. by apply Hn.
    + by apply Hn.
    + by eapply (sk_one R HR).
Qed.
End set.

(** ** The node's secrets *)

Lemma secret_kind_ok : kind_ok SECRET.
Proof. apply (bool_decide_unpack _). vm_compute. exact I. Qed.

(** A store's sealing keys are its own, whatever is written in it. *)
Class SealingOk `{SE : Secret} (A : Type) {RA : RecordStore A} {SA : Sealing A} : Prop :=
  sealing_kept s changes es s' purpose :
    rs_apply_indexed (S := A) s changes es = Ok s' → sealing_key s' purpose = sealing_key s purpose.

#[export] Instance encrypted_sealing_ok `{SO : SecretOk} {E : Type} `{EngineOk E} :
  SealingOk (EncryptedStore E).
Proof.
  intros s changes es s' purpose E0. change (Encrypted.apply_indexed s changes es = Ok s') in E0.
  unfold Encrypted.apply_indexed in E0. apply bind_Ok in E0 as ([batch r] & _ & E0).
  by apply bind_Ok in E0 as (e & _ & [= <-]).
Qed.

Section secrets.
Context {C : Codec} {CO : CodecOk C} {X : XSecrets} {XO : XSecretsOk X} {SE : Secret} {SO : SecretOk SE}.
Context (secret_error : SecretError → string).
Context {Rt At : Type} `{RecordStoreOk Rt} `{RecordStoreOk At} {SA : Sealing At} {SAO : SealingOk At}.

#[local] Abbreviation Node := (Embedded (R := Rt) (A := At)).

(** What a node's administration database keeps of secrets: of each name the
    secret [M] says, opened under the key it derives, or none. *)
Record secrets_held (e : Node) (M : SecretName → option SecretRecord) R I key : Prop := {
  sh_repr : rs_repr (administration e) R I;
  sh_laid : laid_out Administration_ R I;
  sh_kept : secrets_kept R;
  sh_key : sealing_key (administration e) SEALING = Ok key;
  sh_none name : M name = None → ∀ k, kept_secret R k → kx_name k ≠ name;
  sh_some name r : M name = Some r →
    ∃ k, kept_secret R k ∧ kx_name k = name ∧ opened_secret secret_error key k = Ok r;
}.
Definition secrets_are (e : Node) (M : SecretName → option SecretRecord) : Prop :=
  ∃ R I key, secrets_held e M R I key.

(** The identifier a name is found to have. *)
Lemma secret_id_spec (e : Node) R I name o :
  rs_repr (administration e) R I → laid_out Administration_ R I → secrets_kept R →
  secret_id e name = Ok o →
  match o with
  | Some id => ∃ k, kept_secret R k ∧ kx_name k = name ∧ kx_id k = id
  | None => ∀ k, kept_secret R k → kx_name k ≠ name
  end.
Proof.
  intros Hr HI HR E. unfold secret_id in E. apply bind_Ok in E as (ids & E & [= <-]).
  destruct (find_found _ _ _ _ _ (named_planned name) R I HI (sk_fit R HR) (administration e) (wrap 1) false ids Hr E)
    as (found & -> & _ & _ & Hx).
  assert (∀ x, x ∈ found ↔ ∃ k, kept_secret R k ∧ kx_name k = name ∧ x.2 = kx_id k ∧
    mapM (value_in (row_KeptSecret k)) ["name"%string] = Some x.1) as Hfound.
  { intros x. rewrite Hx. unfold is_found. cbn [pl_database named_plan]. setoid_rewrite found_named; [|done].
    split; [intros (? & (k & ? & ? & -> & ?) & ?); eauto 6|intros (k & ? & ? & ? & ?); eauto 8]. }
  cbn [fst snd]. assert (head (up_to (uval (wrap 1 : u32)) found).*2 = head found.*2) as ->.
  { rewrite uval_wrap_small by done. by rewrite <- up_to_fmap, head_up_to_one. }
  destruct found as [|x found]; cbn [head fmap list_fmap].
  - intros k Hk Hn. destruct (proj1 (elem_of_nil (A := list Value * u128) ([Text (as_str (kx_name k))], kx_id k))).
    apply Hfound. by exists k.
  - destruct (proj1 (Hfound x) ltac:(by left)) as (k & Hk & Hn & Ei & _).
    by exists k.
Qed.

(** A secret opened is of the identifier it is kept under. *)
Lemma opened_id key k r : opened_secret secret_error key k = Ok r → sr_id r = kx_id k.
Proof. unfold opened_secret. intros Ho. repeat case_match; try done. by injection Ho as <-. Qed.

(** Reading the secret of a name. *)
Lemma secret_read_spec (e : Node) M R I key name o : secrets_held e M R I key →
  secret_read secret_error e name = Ok o → o = M name.
Proof.
  intros [Hr HI HR Hkey Hnone Hsome] E. unfold secret_read in E. apply bind_Ok in E as (id & Hid & E).
  apply (secret_id_spec e R I) in Hid; [|done..]. destruct id as [id|].
  - destruct Hid as (k & Hk & Hn & <-). rewrite Hkey in E. cbn [mbind result_bind] in E.
    destruct (M name) as [r|] eqn:EM; [|by destruct (Hnone name EM k Hk)].
    destruct (Hsome name r EM) as (k' & Hk' & Hn' & Ho).
    assert (k' = k) as ->.
    { apply (kept_same R); [done..|]. apply (sk_one R HR); [done..|congruence]. }
    apply bind_Ok in E as (kept & Eb & E). unfold secret_by_id in Eb. apply bind_Ok in Eb as (b & Eb & Ek).
    apply (rs_get_spec _ R I) in Eb; [|done|apply secret_kind_ok]. destruct Hk as [Hf Hk]. rewrite Hk in Eb. subst b.
    cbn [fmap option_fmap option_map] in Ek. rewrite from_to_bytes in Ek by done. cbn in Ek. injection Ek as <-.
    cbn [fmap option_fmap option_map] in E. rewrite Ho in E. cbn in E. by injection E.
  - injection E as <-. destruct (M name) as [r|] eqn:EM; [|done].
    destruct (Hsome name r EM) as (k & Hk & Hn & _). by destruct (Hid k Hk Hn).
Qed.

(** A secret sealed opens to itself, whatever identifier and time it is kept with. *)
Lemma opened_sealed key nonce r k id at_ :
  sealed_secret key nonce r = Ok k →
  opened_secret secret_error key (stamp_KeptSecret at_ None (with_id k id)) =
    Ok {| sr_id := id; sr_secret := sr_secret r; sr_set_unix_nanos := at_; sr_set_by := sr_set_by r |}.
Proof.
  unfold sealed_secret. intros E. inv_ok. destruct (seal_after key nonce [] _ _) as [sealed|] eqn:Es; [|done].
  injection Ha as <-. apply open_seal in Es as (x & -> & Hx).
  unfold opened_secret. cbn [kx_name kx_kind kx_sealed stamp_KeptSecret with_id app]. rewrite Hx, secret_rt. done.
Qed.

(** The function once a secret is set: under the identifier its name had, where
    it had one, and of the time it is set. *)
Definition set_in (M : SecretName → option SecretRecord) (r : SecretRecord) (at_ : u64) :
    SecretName → option SecretRecord := λ name,
  let set := secret_name (sr_secret r) in
  if decide (as_str name = as_str set) then
    Some {| sr_id := default (sr_id r) (sr_id <$> M set); sr_secret := sr_secret r;
            sr_set_unix_nanos := at_; sr_set_by := sr_set_by r |}
  else M name.

(** A secret that can be set: its words are counted in 32 bits, sealed as they
    are, and no other name has its identifier. *)
Record settable (e : Node) (M : SecretName → option SecretRecord) (r : SecretRecord) : Prop := {
  st_sealed key k : sealed_secret key (draws e 0) r = Ok k → fits k;
  st_fresh name r' : M name = Some r' → sr_id r' = sr_id r → name = secret_name (sr_secret r);
}.

(** What is written of the secret: the record stamped, under its identifier. *)
Lemma secret_written (e : Node) R I a kept : rs_repr (administration e) R I → laid_out Administration_ R I →
  secrets_kept R → fits kept →
  (∀ k', kept_secret R k' → kx_name k' = kx_name kept → kx_id k' = kx_id kept) →
  indexed_in e (administration e) Administration_ [(SECRET, be (kx_id kept), Some (to_bytes kept))] = Ok a →
  let k := stamp_KeptSecret (Hold.nanos (now_ e)) None kept in
  ∃ I', rs_repr a (with_secret R k) I' ∧ laid_out Administration_ (with_secret R k) I' ∧
    secrets_kept (with_secret R k) ∧ fits k ∧ sealing_key a SEALING = sealing_key (administration e) SEALING.
Proof.
  intros Hr HI HR Hf Hn E k. unfold indexed_in in E. apply bind_Ok in E as ([written es] & Ew & E).
  pose proof (columns_written_stamped _ _ _ _ _ _ Ew) as Hs.
  assert (written = [(SECRET, be (kx_id k), Some (to_bytes k))]) as ->.
  { inversion Hs as [|? [[kind key] value] ? rest [Ep Hc] Hrest]; subst. inversion Hrest; subst. cbn [fst snd] in Ep, Hc.
    injection Ep as -> ->. rewrite (proj2 (secret_searched SECRET) eq_refl) in Hc.
    destruct Hc as (b' & before & row & id & -> & Hst). unfold searched_stamped, stamp_as in Hst.
    rewrite from_to_bytes in Hst by done. cbn [into mbind result_bind] in Hst.
    apply bind_Ok in Hst as (o & _ & Hst). by injection Hst as <- _ _. }
  assert (fits k) as Hfk by done.
  assert (secrets_kept (with_secret R k)) as HR' by by apply secrets_kept_with.
  exists (changed I es). split; [|split; [|split; [done|split; [done|by eapply sealing_kept]]]].
  - change (with_secret R k) with (recorded R [(SECRET, be (kx_id k), Some (to_bytes k))]).
    eapply rs_apply_indexed_spec; [done| |exact E]. repeat constructor. apply secret_kind_ok.
  - change (with_secret R k) with (recorded R [(SECRET, be (kx_id k), Some (to_bytes k))]).
    refine (columns_written_laid_out (administration e) R I Administration_ _ _ es _ Hr HI _ _ Ew _).
    + repeat constructor. apply secret_kind_ok.
    + repeat constructor. intros s b Hs' Hb. cbn [fst snd] in Hs', Hb.
      rewrite (proj2 (secret_searched SECRET) eq_refl) in Hs'. injection Hs' as <-. injection Hb as <-. by exists kept.
    + split; [apply (sk_apart R HR)|]. split; [apply (sk_apart _ HR')|done].
Qed.

Lemma secret_set_spec (e e' : Node) M r : secrets_are e M → settable e M r →
  secret_set e r = (e', Ok tt) → secrets_are e' (set_in M r (Hold.nanos (now_ e))).
Proof.
  intros (R & I & key & [Hr HI HR Hkey Hnone Hsome]) [Hseal Hfresh] E. unfold secret_set in E. rewrite Hkey in E.
  cbn [mbind result_bind] in E. destruct (sealed_secret key (draws e 0) r) as [sealed|] eqn:Es; [|done].
  destruct (secret_id e (secret_name (sr_secret r))) as [o|] eqn:Eo; [|done]. cbn [mbind result_bind] in E.
  set (name := secret_name (sr_secret r)) in *.
  set (id := default (sr_id r) (sr_id <$> M name)).
  apply (secret_id_spec e R I) in Eo; [|done..].
  assert (kx_name sealed = name ∧ kx_id sealed = sr_id r) as [Hname Hid].
  { unfold sealed_secret in Es. by apply bind_Ok in Es as (x & _ & [= <-]). }
  assert (match o with Some id => with_id sealed id | None => sealed end = with_id sealed id ∧
    ∀ k', kept_secret R k' → kx_name k' = name → kx_id k' = id) as [Ek Hsame].
  { unfold id. destruct o as [found|].
    - destruct Eo as (k & Hk & Hn & <-). destruct (M name) as [r'|] eqn:EM; [|by destruct (Hnone name EM k Hk)].
      destruct (Hsome name r' EM) as (k' & Hk' & Hn' & Ho). cbn.
      rewrite (opened_id _ _ _ Ho).
      assert (∀ k1, kept_secret R k1 → kx_name k1 = name → kx_id k1 = kx_id k') as Hall
        by (intros; apply (sk_one R HR); [done..|congruence]).
      split; [by rewrite (Hall k)|done].
    - destruct (M name) as [r'|] eqn:EM.
      { destruct (Hsome name r' EM) as (k' & Hk' & Hn' & _). by destruct (Eo k' Hk' Hn'). }
      cbn. split; [by rewrite <- Hid; destruct sealed|]. intros k' Hk' Hn'. by destruct (Eo k' Hk' Hn'). }
  rewrite Ek in E. clear Ek Eo o.
  destruct (indexed_in _ _ _ _) as [a|] eqn:Ea; [|done]. injection E as <-.
  destruct (secret_written e R I a (with_id sealed id)) as (I' & Hr' & HI' & HR' & Hf & Hk); [done|done|done| | |exact Ea|].
  { exact (Hseal key sealed Es). }
  { intros k' Hk' Hn'. apply Hsame; [done|]. by rewrite Hn'. }
  set (k := stamp_KeptSecret (Hold.nanos (now_ e)) None (with_id sealed id)) in *.
  exists (with_secret R k), I', key. split; [done..|by rewrite <- Hkey| |].
  - intros n Hn k' [->|[Hne Hk']]%kept_with_secret; [| |done].
    + unfold set_in in Hn. case_decide as Hd; [done|]. intros <-. apply Hd. cbn. by rewrite Hname.
    + unfold set_in in Hn. case_decide; [done|]. by apply Hnone.
  - intros n r' Hn. unfold set_in in Hn. fold name in Hn. case_decide as Hd.
    + injection Hn as <-. apply as_str_inj in Hd as ->. exists k. split; [apply kept_with_secret; [done|by left]|].
      split; [done|]. by apply (opened_sealed key (draws e 0)).
    + destruct (Hsome n r' Hn) as (k' & Hk' & Hn' & Ho). exists k'. split; [|done].
      apply kept_with_secret; [done|]. right. split; [|done]. cbn. intros Ei. apply Hd.
      apply opened_id in Ho as Er.
      unfold id in Ei. destruct (M name) as [r1|] eqn:EM; cbn in Ei.
      * destruct (Hsome name r1 EM) as (k1 & Hk1 & Hn1 & Ho1).
        apply opened_id in Ho1 as Er1.
        assert (k' = k1) as -> by (apply (kept_same R); [done..|congruence]). congruence.
      * rewrite (Hfresh n r' Hn); [done|congruence].
Qed.
End secrets.

(** ** The theorems *)

Module NamedTheorems.
Section theorems.
Context {C : Codec} {CO : CodecOk C} {X : XSecrets} {XO : XSecretsOk X} {SE : Secret} {SO : SecretOk SE} {SH : Sha256}.
Context (sha1 : bytes → bytes) (shown : u128 → string) (secret_error : SecretError → string).
Context {Rt At : Type} `{RecordStoreOk Rt} `{RecordStoreOk At} {SA : Sealing At} {SAO : SealingOk At}.
Context {Failure : Type} (retryable permanent : string → Failure).

(** C13. A node's secrets are a function from their names. Reading a
    name gives the secret set of it last, opened to what it was set to, and
    nothing of a name none was set of; so does what the node presents to its
    Locations, which says nothing of a secret where it could not read one. A
    secret set replaces the one of its name, under the identifier that one had
    and at the time it is set, and leaves every other name's as it was; one
    that could not be set leaves them all. Each is found by its name's index
    entry and is sealed in its record, whatever store the records are in. *)
Theorem secrets_kept_by_name (e : Embedded (R := Rt) (A := At)) (M : SecretName → option SecretRecord) :
  secrets_are secret_error e M →
  (∀ name o, secret_read secret_error e name = Ok o → o = M name) ∧
  (∀ name e' o, stored_secret (XS := embedded_storage sha1 shown secret_error) secret_error retryable permanent
      e name = (e', inl o) → e' = e ∧ o = sr_secret <$> M name) ∧
  (∀ r e', settable e M r → secret_set e r = (e', Ok tt) →
     secrets_are secret_error e' (set_in M r (Hold.nanos (now_ e)))) ∧
  (∀ r e' why, secret_set e r = (e', Err why) → secrets_are secret_error e' M).
Proof.
  intros HM. pose proof HM as (R & I & key & Hh).
  assert (∀ name o, secret_read secret_error e name = Ok o → o = M name) as Hread
    by (intros name o; by eapply secret_read_spec).
  split; [exact Hread|]. split; [|split].
  - intros name e' o E. unfold stored_secret in E. cbn [read_secret embedded_storage reading] in E.
    destruct (secret_read secret_error e name) as [kept|failed] eqn:Er; [|done].
    injection E as <- <-. by rewrite (Hread name kept Er).
  - intros r e'. by apply secret_set_spec.
  - intros r e' why E. unfold secret_set in E.
    assert (e' = with_draws e (drawn 1 (draws e))) as ->.
    { destruct (key0 ← sealing_key (administration e) SEALING; _) in E; [done|]. by injection E as <-. }
    exists R, I, key. by destruct Hh.
Qed.
End theorems.

#[local] Existing Instances Plain.codec_ok SecretTheorems.two_names SecretTheorems.two_names_ok
  Glass.secret Glass.secret_ok.

(** A node of nothing yet, and a secret it is asked to keep. *)
Definition example_error (_ : SecretError) : string := "refused".
Definition example_node : Embedded (R := EncryptedStore Memory.Memory) (A := EncryptedStore Memory.Memory) :=
  Node EncryptedTheorems.fresh EncryptedTheorems.fresh EncryptedTheorems.fresh
    (wrap 1) (wrap 3) (i128_clamp 60) (λ n, n).
Definition example_set : Embedded (R := EncryptedStore Memory.Memory) (A := EncryptedStore Memory.Memory) * result unit :=
  secret_set (C := Plain.codec) example_node SecretTheorems.example_secret.
Definition none_set (_ : SecretName (XSecrets := SecretTheorems.two_names)) : option (SecretRecord (X := SecretTheorems.two_names)) :=
  None.

Lemma example_none : secrets_are (C := Plain.codec) example_error example_node none_set.
Proof.
  destruct (sealing_key (administration example_node) SEALING) as [key|why] eqn:Ek; [|by vm_compute in Ek].
  exists ∅, ∅, key. split.
  - exact EncryptedTheorems.fresh_repr.
  - intros k id. rewrite lookup_empty. split; [done|]. intros (kind & place & b & Hb & _). by rewrite lookup_empty in Hb.
  - split; [intros ? ? ? ? Hb|intros ? ? ? ? ? ? ? Hb|intros ? ? Hb|intros ? ? [_ Hb]]; by rewrite lookup_empty in Hb.
  - exact Ek.
  - intros name _ k [_ Hb]. by rewrite lookup_empty in Hb.
  - done.
Qed.

(** It is set, and read by its name; another name has none. *)
Lemma secrets_kept_by_name_witness :
  example_set.2 = Ok tt ∧
  is_ok (secret_read (C := Plain.codec) example_error example_set.1 true) = true ∧
  (∀ o, secret_read (C := Plain.codec) example_error example_set.1 true = Ok o →
     o = Some {| sr_id := wrap 1; sr_secret := sr_secret SecretTheorems.example_secret;
                 sr_set_unix_nanos := Hold.nanos (i128_clamp 60); sr_set_by := "operator" |}) ∧
  (∀ o, secret_read (C := Plain.codec) example_error example_set.1 false = Ok o → o = None).
Proof.
  assert (example_set.2 = Ok tt) as Eset by (vm_compute; reflexivity).
  split; [exact Eset|]. split; [vm_compute; reflexivity|].
  destruct (secrets_kept_by_name (SH := StreamTheorems.first_bytes) (C := Plain.codec) id (λ _, ""%string) example_error
    (λ s : string, s) (λ s : string, s) example_node none_set example_none) as (_ & _ & Hset & _).
  assert (∀ (T : Type) (a b : T), Ok a = Ok b → a = b) as Hok by by intros ? ? ? [= ->].
  assert (secrets_are (C := Plain.codec) example_error example_set.1
    (set_in none_set SecretTheorems.example_secret (Hold.nanos (i128_clamp 60)))) as He.
  { apply Hset.
    - split; [|intros name r' Hr; discriminate Hr]. intros key k Hk. unfold sealed_secret in Hk.
      apply bind_Ok in Hk as (sealed & Hs & Hk). apply Hok in Hk as <-. apply Hok in Hs as <-.
      split; vm_compute; reflexivity.
    - rewrite <- Eset. apply surjective_pairing. }
  destruct (secrets_kept_by_name (SH := StreamTheorems.first_bytes) (C := Plain.codec) id (λ _, ""%string) example_error
    (λ s : string, s) (λ s : string, s) _ _ He) as (Hread & _).
  split; [exact (Hread true)|exact (Hread false)].
Defined.
End NamedTheorems.
