(* ===== verification/Keeper.v ===== *)
(** * What the audit keeper keeps (src/.src/storage/embedded/keeper.rs,
    chain.rs)

    The theorems about the keeper of [Embedded]: every writer's records are
    one chain, whatever cuts the keeper short; no audit record is forgotten
    in the runtime database before the audit database holds it; and what it
    keeps of a body is read back whole. *)

From S2P Require Import Prelude Word Engine Encrypted Store Codec Facts Records Batch Queue Hold.
From S2P Require Import Failed Origin Dead Claim Schema Instance Publication Secrets Row Columns.
From S2P Require Import Page Due Query Commit Stream Chain Storage Embedded.

(** ** A chain *)

Section chain.
Context {C : Codec} {H : Sha256}.

(** A kept record and the record of each Stream it carries. *)
Abbreviation Linked := (KeptAudit * list StreamRecord)%type.

(** Records one after another, the first after the number [n] and the digest
    [previous]: each numbered one up, over the digest of the one before, and
    digested. *)
Fixpoint linked_from (n : N) (previous : bytes) (l : list Linked) : Prop :=
  match l with
  | [] => True
  | (kept, streams) :: l =>
      let f := ka_facts kept in
      af_position f = wrap (n + 1) ∧ af_previous f = previous ∧
      af_digest f = chain_digest kept streams ∧ linked_from (n + 1) (af_digest f) l
  end.

Definition last_digest (previous : bytes) (l : list Linked) : bytes :=
  foldl (λ _ x, af_digest (ka_facts x.1)) previous l.

(** The records are kept as they are, with a row of each Stream. *)
Definition kept_there (R : records) (x : Linked) : Prop :=
  fits x.1 ∧ R !! (KEPT_AUDIT, be (ka_id x.1)) = Some (to_bytes x.1) ∧
  Forall2 (λ stream record, R !! (KEPT_AUDIT_STREAMS, stream_key (ka_id x.1) stream) =
      Some (to_bytes {| ks_audit := ka_id x.1; ks_stream := record |})) (ka_streams x.1) x.2.

Definition head_of (l : list Linked) : option bytes :=
  match l with
  | [] => None
  | _ => Some (write_head (wrap (N.of_nat (length l))) (last_digest no_digest l))
  end.

Definition writer_key (writer : string) : bytes := String.list_byte_of_string writer.

(** The chain of [writer] is [l]. *)
Record chain_of (R : records) (writer : string) (l : list Linked) : Prop := {
  chain_links : linked_from 0 no_digest l;
  chain_kept : Forall (kept_there R) l;
  chain_writer : Forall (λ x, af_writer (ka_facts x.1) = writer) l;
  chain_once : NoDup ((λ x, ka_id x.1) <$> l);
  chain_head : R !! (CHAIN, writer_key writer) = head_of l;
}.

(** The kept records are those of the writers' chains, and no other. *)
Record chained (R : records) (chains : string → list Linked) : Prop := {
  chained_each writer : chain_of R writer (chains writer);
  chained_all key b : R !! (KEPT_AUDIT, key) = Some b →
    ∃ writer x, x ∈ chains writer ∧ key = be (ka_id x.1);
}.

(** What comes after: each chain goes on. *)
Definition go_on (chains chains' : string → list Linked) : Prop :=
  ∀ writer, chains writer `prefix_of` chains' writer.

Lemma go_on_refl chains : go_on chains chains.
Proof. by intros writer. Qed.
Lemma go_on_trans chains1 chains2 chains3 :
  go_on chains1 chains2 → go_on chains2 chains3 → go_on chains1 chains3.
Proof. intros H1 H2 writer. by transitivity (chains2 writer). Qed.

Lemma linked_from_app l k : ∀ n previous, linked_from n previous (l ++ k) ↔
  linked_from n previous l ∧ linked_from (n + N.of_nat (length l)) (last_digest previous l) k.
Proof.
  induction l as [|[kept streams] l IH]; intros n previous; cbn [app linked_from length].
  { rewrite N.add_0_r. cbn. tauto. }
  rewrite IH. change (last_digest previous ((kept, streams) :: l)) with (last_digest (af_digest (ka_facts kept)) l).
  replace (n + N.of_nat (S (length l)))%N with (n + 1 + N.of_nat (length l))%N by lia. tauto.
Qed.

Lemma last_digest_snoc previous l x : last_digest previous (l ++ [x]) = af_digest (ka_facts x.1).
Proof. unfold last_digest. by rewrite foldl_app. Qed.

Lemma head_of_snoc l x :
  head_of (l ++ [x]) = Some (write_head (wadd (wrap (N.of_nat (length l))) 1) (af_digest (ka_facts x.1))).
Proof.
  unfold head_of. destruct (l ++ [x]) eqn:E; [by destruct l|]. rewrite <- E, last_digest_snoc, length_app. cbn.
  do 2 f_equal. apply uint_eq. unfold wadd. rewrite !uval_wrap.
  rewrite N.Div0.add_mod_idemp_l. f_equal. lia.
Qed.

Lemma writer_key_inj writer writer' : writer_key writer = writer_key writer' → writer = writer'.
Proof. intros E%(f_equal String.string_of_list_byte). by rewrite !String.string_of_list_byte_of_string in E. Qed.
End chain.

Section kept.
Context {C : Codec} {CO : CodecOk C} {H : Sha256}.
Abbreviation Linked := (KeptAudit * list StreamRecord)%type.
Implicit Types (R : records) (chains : string → list Linked).

(** What the chains are kept in. *)
Definition CHAINED : list string := [KEPT_AUDIT; KEPT_AUDIT_STREAMS; CHAIN].

Lemma chained_frame R R' chains :
  (∀ kind key, kind ∈ CHAINED → R' !! (kind, key) = R !! (kind, key)) →
  chained R chains → chained R' chains.
Proof.
  intros Hf [He Ha]. unfold CHAINED in Hf. split.
  - intros writer. destruct (He writer) as [Hl Hk Hw Ho Hh]. split; [done| |done|done|by rewrite Hf by set_solver].
    eapply Forall_impl; [exact Hk|]. intros x (Hx & Hr & Hs). split; [done|].
    split; [by rewrite Hf by set_solver|]. eapply Forall2_impl; [exact Hs|]. intros. by rewrite Hf by set_solver.
  - intros key b. rewrite Hf by set_solver. apply Ha.
Qed.

(** The chains once [x] is kept after its writer's last. *)
Definition kept_after chains (x : Linked) : string → list Linked :=
  λ writer, if decide (writer = af_writer (ka_facts x.1)) then chains writer ++ [x] else chains writer.

Lemma go_on_after chains x : go_on chains (kept_after chains x).
Proof. intros writer. unfold kept_after. case_decide; [by apply prefix_app_r|done]. Qed.

Lemma chain_of_there R chains writer x : chained R chains → x ∈ chains writer → kept_there R x.
Proof. intros [He _] Hx. destruct (He writer) as [_ Hk _ _ _]. rewrite Forall_forall in Hk. by apply Hk. Qed.

(** A record of a new identifier, kept after its writer's last. *)
Lemma chained_kept R R' chains (x : Linked) :
  let f := ka_facts x.1 in let l := chains (af_writer f) in let id := ka_id x.1 in
  chained R chains → R !! (KEPT_AUDIT, be id) = None →
  linked_from (N.of_nat (length l)) (last_digest no_digest l) [x] → kept_there R' x →
  R' !! (CHAIN, writer_key (af_writer f)) = head_of (l ++ [x]) →
  (∀ kind key, kind ∈ CHAINED → (kind, key) ≠ (KEPT_AUDIT, be id) →
     (kind, key) ≠ (CHAIN, writer_key (af_writer f)) →
     (∀ stream, (kind, key) ≠ (KEPT_AUDIT_STREAMS, stream_key id stream)) →
     R' !! (kind, key) = R !! (kind, key)) →
  chained R' (kept_after chains x).
Proof.
  intros f l id Hc Hnew Hx Hthere Hhead Hf.
  assert (∀ writer y, y ∈ chains writer → ka_id y.1 ≠ id) as Hne.
  { intros writer y Hy E. destruct (chain_of_there _ _ _ _ Hc Hy) as (_ & Hr & _). by rewrite E, Hnew in Hr. }
  assert (∀ writer, Forall (kept_there R') (chains writer)) as Hold.
  { intros writer. apply Forall_forall. intros y Hy. pose proof (Hne _ _ Hy) as Hid.
    destruct (chain_of_there _ _ _ _ Hc Hy) as (Hy1 & Hy2 & Hy3). split; [done|]. split.
    - rewrite Hf; [done|unfold CHAINED; set_solver| |by intros [=]|by intros s [=]].
      by intros [_ E%be_inj]%pair_equal_spec.
    - eapply Forall2_impl; [exact Hy3|]. intros s r Hr.
      rewrite Hf; [done|unfold CHAINED; set_solver|by intros [=]|by intros [=]|].
      by intros s' [_ [E _]%be_app_inj]%pair_equal_spec. }
  destruct Hc as [He Ha]. split.
  - intros writer. destruct (He writer) as [Hl _ Hw Ho Hh]. unfold kept_after.
    case_decide as Hd; [subst writer|].
    + split.
      * apply linked_from_app. split; [done|]. by rewrite N.add_0_l.
      * by apply Forall_app_2; [|constructor].
      * by apply Forall_app_2; [|constructor].
      * rewrite fmap_app. apply NoDup_app. split; [done|]. split; [|by apply NoDup_singleton].
        intros i (y & -> & Hy)%list_elem_of_fmap. intros E%list_elem_of_singleton. by eapply Hne.
      * done.
    + split; [done|done|done|done|]. rewrite Hf; [done|unfold CHAINED; set_solver|by intros [=]| |by intros s [=]].
      by intros [_ E%writer_key_inj]%pair_equal_spec.
  - intros key b Hb. destruct (decide (key = be id)) as [->|Hk].
    + exists (af_writer f), x. unfold kept_after. rewrite decide_True by done. split; [|done].
      apply elem_of_app. right. by apply list_elem_of_singleton.
    + rewrite Hf in Hb; [|unfold CHAINED; set_solver|by intros [=]|by intros [=]|by intros s [=]].
      destruct (Ha _ _ Hb) as (writer & y & Hy & ->). exists writer, y. split; [|done].
      unfold kept_after. case_decide; [apply elem_of_app; by left|done].
Qed.
End kept.

(** ** A record linked and written *)

Section linking.
Context {C : Codec} {CO : CodecOk C} {X : XSecrets} {SH : Sha256} {SO : Sha256Ok SH}.
Context {A : Type} {RA : RecordStore A} {OA : RecordStoreOk A}.
Abbreviation Linked := (KeptAudit * list StreamRecord)%type.
Implicit Types (R : records) (chains : string → list Linked) (kept : KeptAudit).

Lemma read_write_head position digest : is_digest digest →
  read_head (write_head position digest) = Ok (position, digest).
Proof.
  intros Hd. unfold read_head, write_head. rewrite length_app, length_be, decide_True by lia.
  rewrite drop_app_length', take_app_length' by by rewrite length_be.
  replace (array DIGEST digest) with (Some digest); [by rewrite of_be_be|].
  symmetry. by apply array_Some.
Qed.

(** A record's digest is over neither itself nor the time it is kept. *)
Lemma chain_digest_with_chain kept streams position previous digest digest' at_ at_' :
  chain_digest (with_chain kept position previous digest at_) streams =
  chain_digest (with_chain kept position previous digest' at_') streams.
Proof. done. Qed.

Lemma fits_with_chain kept position previous digest at_ : fits kept → is_digest previous → is_digest digest →
  fits (with_chain kept position previous digest at_).
Proof.
  intros [Hs Hf] Hp Hd. split; [done|]. unfold fits, AuditFacts_fits in *. cbn. by destruct_and? Hf; split_and!.
Qed.

Lemma chain_digest_digest kept streams : is_digest (chain_digest kept streams).
Proof. apply hasher_finalize_length. Qed.

Lemma last_digest_digest R writer l : chain_of R writer l → is_digest (last_digest no_digest l).
Proof.
  intros Hc. destruct l as [|x l _] using rev_ind; [done|]. rewrite last_digest_snoc.
  pose proof (chain_kept _ _ _ Hc) as Hk. apply Forall_app in Hk as [_ [(Hx & _) _]%Forall_cons].
  destruct Hx as [_ Hx]. unfold fits, AuditFacts_fits in Hx. tauto.
Qed.

(** What [link] makes of a record: the next of its writer's chain. *)
Lemma link_next (a : A) R I chains kept streams kept' c :
  let l := chains (af_writer (ka_facts kept)) in
  rs_repr a R I → chained R chains → link a kept streams = Ok (kept', c) →
  ∃ digest at_, is_digest digest ∧
    kept' = with_chain kept (wadd (wrap (N.of_nat (length l))) 1) (last_digest no_digest l) digest at_ ∧
    digest = chain_digest kept' streams ∧
    c = (CHAIN, writer_key (af_writer (ka_facts kept)),
         Some (write_head (wadd (wrap (N.of_nat (length l))) 1) digest)).
Proof.
  intros l Hr [He _] E. unfold link in E. apply bind_Ok in E as (head & Eh & E).
  apply (rs_get_spec _ _ _ _ _ _ Hr) in Eh; [|by apply (bool_decide_unpack _); vm_compute].
  pose proof (He (af_writer (ka_facts kept))) as Hc. fold l in Hc. fold (writer_key (af_writer (ka_facts kept))) in Eh.
  rewrite (chain_head _ _ _ Hc) in Eh.
  assert (match head with Some head => read_head head | None => Ok (wrap 0, no_digest) end =
    Ok (wrap (N.of_nat (length l)), last_digest no_digest l)) as Ehead.
  { subst head. unfold head_of. destruct l eqn:El; [done|]. rewrite <- El in *.
    apply read_write_head. by eapply last_digest_digest. }
  rewrite Ehead in E. cbn [mbind result_bind] in E. injection E as <- <-.
  eexists _, _. split; [apply chain_digest_digest|]. split; [reflexivity|]. split; [reflexivity|]. reflexivity.
Qed.

(** *** The rows of its Streams *)

Definition stream_rows (id : AuditId) (ids : list StreamId) (streams : list StreamRecord) : list RecordChange :=
  zip_with (λ stream record, (KEPT_AUDIT_STREAMS, stream_key id stream,
    Some (to_bytes {| ks_audit := id; ks_stream := record |}))) ids streams.

Lemma recorded_rows_other id ids : ∀ streams R kind key,
  (∀ stream, (kind, key) ≠ (KEPT_AUDIT_STREAMS, stream_key id stream)) →
  recorded R (stream_rows id ids streams) !! (kind, key) = R !! (kind, key).
Proof.
  induction ids as [|s ids IH]; intros [|r streams] R kind key Hk; try done.
  change (recorded (record_change R (KEPT_AUDIT_STREAMS, stream_key id s, Some (to_bytes {| ks_audit := id; ks_stream := r |})))
    (stream_rows id ids streams) !! (kind, key) = R !! (kind, key)).
  rewrite IH, record_changed_at by done. by rewrite decide_False.
Qed.

Lemma recorded_stream_rows id ids : ∀ streams R, NoDup ids → length ids = length streams →
  Forall2 (λ stream record, recorded R (stream_rows id ids streams) !! (KEPT_AUDIT_STREAMS, stream_key id stream) =
    Some (to_bytes {| ks_audit := id; ks_stream := record |})) ids streams.
Proof.
  induction ids as [|s ids IH]; intros [|r streams] R Hn Hl; try done. apply NoDup_cons in Hn as [Hs Hn].
  injection Hl as Hl. set (R1 := record_change R (KEPT_AUDIT_STREAMS, stream_key id s,
    Some (to_bytes {| ks_audit := id; ks_stream := r |}))).
  change (recorded R (stream_rows id (s :: ids) (r :: streams))) with (recorded R1 (stream_rows id ids streams)).
  constructor; [|by apply IH].
  assert (∀ streams R, s ∉ ids → recorded R (stream_rows id ids streams) !! (KEPT_AUDIT_STREAMS, stream_key id s) =
    R !! (KEPT_AUDIT_STREAMS, stream_key id s)) as Hskip.
  { clear. induction ids as [|s' ids IH]; intros [|r streams] R Hs; try done.
    apply not_elem_of_cons in Hs as [Hne Hs].
    change (recorded R (stream_rows id (s' :: ids) (r :: streams))) with
      (recorded (record_change R (KEPT_AUDIT_STREAMS, stream_key id s',
         Some (to_bytes {| ks_audit := id; ks_stream := r |}))) (stream_rows id ids streams)).
    rewrite IH, record_changed_at by done. rewrite decide_False; [done|].
    by intros [_ [_ E%be_inj]%be_app_inj]%pair_equal_spec. }
  rewrite Hskip by done. unfold R1. by rewrite record_changed_at, decide_True.
Qed.

Lemma stream_rows_ok id ids streams : kinds_ok (stream_rows id ids streams).
Proof.
  revert streams. induction ids as [|s ids IH]; intros [|r streams]; constructor; [|apply IH].
  by apply (bool_decide_unpack _); vm_compute.
Qed.

(** What is written of a record linked: its rows and its head as they are,
    the record with the time it is kept. *)
Lemma written_of_linked now id ids streams (c : RecordChange) kept written : fits kept → Forall fits streams →
  c.1.1 = CHAIN →
  Forall2 (change_stamped Audit_ now)
    (stream_rows id ids streams ++ [c; (KEPT_AUDIT, be id, Some (to_bytes kept))]) written →
  ∃ at_, written = stream_rows id ids streams ++ [c; (KEPT_AUDIT, be id, Some (to_bytes
    (with_chain kept (af_position (ka_facts kept)) (af_previous (ka_facts kept)) (af_digest (ka_facts kept)) at_)))].
Proof.
  intros Hk Hs Hc. revert streams Hs written.
  assert (∀ written, Forall2 (change_stamped Audit_ now) [c; (KEPT_AUDIT, be id, Some (to_bytes kept))] written →
    ∃ at_, written = [c; (KEPT_AUDIT, be id, Some (to_bytes
      (with_chain kept (af_position (ka_facts kept)) (af_previous (ka_facts kept)) (af_digest (ka_facts kept)) at_)))])
    as Hend.
  { intros written (c1 & k1 & [Hc1 Hc2] & (k & k2 & [Hk1 Hk2] & ->%Forall2_nil_inv_l & ->)%Forall2_cons_inv_l & ->)%Forall2_cons_inv_l.
    rewrite Hc in Hc2. change (searched_of Audit_ CHAIN) with (None : option Searched) in Hc2.
    cbn [fst snd] in Hk1, Hk2. change (searched_of Audit_ KEPT_AUDIT) with (Some SAudit) in Hk2.
    destruct Hk2 as (b' & before & row & i & Hb & Hst). unfold searched_stamped, stamp_as in Hst.
    rewrite from_to_bytes in Hst by done. cbn [into mbind result_bind] in Hst.
    apply bind_Ok in Hst as (old & _ & Hst). injection Hst as <- _ _.
    exists (first_write (λ b, af_kept_unix_nanos (ka_facts b)) now old).
    destruct c as [pc vc], c1 as [pc1 vc1], k as [pk vk]. cbn in *. subst. done. }
  induction ids as [|s ids IH]; intros [|r streams] Hs written; [apply Hend..|].
  intros (w & rest & [Hw1 Hw2] & Hrest & ->)%Forall2_cons_inv_l.
  apply Forall_cons in Hs as [Hr Hs]. destruct (IH _ Hs _ Hrest) as [at_ ->]. exists at_.
  cbn [fst snd] in Hw1, Hw2. change (searched_of Audit_ KEPT_AUDIT_STREAMS) with (Some SAuditStream) in Hw2.
  destruct Hw2 as (b' & before & row & i & Hb & Hst). unfold searched_stamped, stamp_as in Hst.
  rewrite from_to_bytes in Hst by exact Hr. cbn [into mbind result_bind] in Hst.
  apply bind_Ok in Hst as (old & _ & Hst). injection Hst as <- _ _.
  destruct w as [pw vw]. cbn in Hw1, Hb. by subst.
Qed.
End linking.

(** ** One record kept *)

Section keeping.
Context {C : Codec} {CO : CodecOk C} {X : XSecrets} {SE : Secret} {SH : Sha256} {SO : Sha256Ok SH}.
Context (sha1 : bytes → bytes) (shown : u128 → string) (secret_error : SecretError → string).
Context {Rt At : Type} {RR : RecordStore Rt} {RA : RecordStore At} {SA : Sealing At}.
Context {OR : RecordStoreOk Rt} {OA : RecordStoreOk At}.
Abbreviation Node := (Embedded (R := Rt) (A := At)).
Implicit Types (Q R : records) (I J : entries) (e : Node).

(** What the keeper moves can be read back: the audit records and the
    records of Streams the runtime database holds. *)
Record entries_fit Q : Prop := {
  entry_fits key b : Q !! (AUDIT, key) = Some b → ∃ entry : AuditEntry, fits entry ∧ b = to_bytes entry;
  stream_fits key b : Q !! (STREAM, key) = Some b → ∃ record : StreamRecord, fits record ∧ b = to_bytes record;
}.

(** The records but those of [kinds] are the same. *)
Definition same_but (kinds : list string) R R' : Prop :=
  ∀ kind key, kind ∉ kinds → R' !! (kind, key) = R !! (kind, key).

Lemma same_but_refl kinds R : same_but kinds R R.
Proof. done. Qed.
Lemma same_but_trans kinds R1 R2 R3 : same_but kinds R1 R2 → same_but kinds R2 R3 → same_but kinds R1 R3.
Proof. intros H1 H2 kind key Hk. by rewrite H2, H1. Qed.
Lemma same_but_more kinds kinds' R R' : kinds ⊆ kinds' → same_but kinds R R' → same_but kinds' R R'.
Proof. intros Hs Hb kind key Hk. apply Hb. set_solver. Qed.
Lemma same_but_change kinds R kind key value : kind ∈ kinds → same_but kinds R (record_change R (kind, key, value)).
Proof.
  intros Hk kind' key' Hn. rewrite record_changed_at, decide_False; [done|]. by intros [= -> _].
Qed.

(** A step of the keeper on the audit database alone: of a node whose audit
    database holds [R], to one whose holds what [P] says. *)
Definition audit_step e e' (P : records → entries → Prop) : Prop :=
  e' = with_audit e (audit_db e') ∧ ∃ R' I', rs_repr (audit_db e') R' I' ∧ P R' I'.

Lemma audit_step_refl e R I (P : records → entries → Prop) :
  rs_repr (audit_db e) R I → P R I → audit_step e e P.
Proof. intros Hr HP. split; [by destruct e|]. by exists R, I. Qed.

Lemma audit_step_runtime e e' P : audit_step e e' P → runtime e' = runtime e.
Proof. by intros [-> _]. Qed.

Lemma audit_step_trans e e1 e2 P P' : audit_step e e1 P →
  (∀ R I, rs_repr (audit_db e1) R I → P R I → audit_step e1 e2 P') → audit_step e e2 P'.
Proof.
  intros [E1 (R1 & I1 & Hr & HP)] Hn. destruct (Hn _ _ Hr HP) as [E2 H2]. split; [|done].
  rewrite E2, E1. by destruct e.
Qed.

Lemma audit_step_weaken e e' (P P' : records → entries → Prop) : (∀ R I, P R I → P' R I) →
  audit_step e e' P → audit_step e e' P'.
Proof. intros HP (? & R & I & ? & ?). split; [done|]. exists R, I. eauto. Qed.

(** [and_then], taken apart. *)
Lemma and_then_inv {S B D} (o : S * result B) (f : S → B → S * result D) s out :
  and_then o f = (s, out) →
  (∃ s1 b, o = (s1, Ok b) ∧ f s1 b = (s, out)) ∨ (∃ err, o = (s, Err err) ∧ out = Err err).
Proof. destruct o as [s1 [b|err]]; cbn; [intros ?; left; eauto|intros [= -> <-]; right; eauto]. Qed.
Lemma answering_inv {S B D} (f : B → D) (o : S * result B) s out :
  answering f o = (s, out) → ∃ r, o = (s, r) ∧ out = f <$> r.
Proof. destruct o as [s1 [b|err]]; cbn; intros [= <- <-]; eauto. Qed.

(** A record read, of those that can be. *)
Lemma read_record_spec {T} {FT : Form T} {TT : Fits T} {FO : FormOk T} e Q J kind key o :
  rs_repr (runtime e) Q J → kind_ok kind →
  (∀ b, Q !! (kind, key) = Some b → ∃ x : T, fits x ∧ b = to_bytes x) →
  read_record T e kind key = Ok o →
  match o with
  | Some x => fits x ∧ Q !! (kind, key) = Some (to_bytes x)
  | None => Q !! (kind, key) = None
  end.
Proof.
  intros Hr Hk Hf E. unfold read_record in E. apply bind_Ok in E as (b & Eb & E).
  apply (rs_get_spec _ _ _ _ _ _ Hr Hk) in Eb. subst b.
  destruct (Q !! (kind, key)) as [b|]; cbn in E; [|by injection E as <-].
  destruct (Hf b eq_refl) as (x & Hx & ->). rewrite from_to_bytes in E by done. cbn in E. by injection E as <-.
Qed.

Lemma chunk_kept_spec e e' R I kind key value out : rs_repr (audit_db e) R I → kind_ok kind →
  chunk_kept e kind key value = (e', out) →
  audit_step e e' (λ R' I', match out with Ok _ => R' = record_change R (kind, key, Some value) | Err _ => R' = R end).
Proof.
  intros Hr Hk E. unfold chunk_kept in E. destruct (rs_apply_deferred _ _) as [a|err] eqn:Ea; injection E as <- <-.
  - split; [done|]. eexists _, I. split; [|reflexivity]. refine (rs_apply_deferred_spec _ _ _ [(kind, key, Some value)] _ Hr _ Ea).
    by constructor.
  - by eapply audit_step_refl.
Qed.

Lemma chunks_kept_spec id stream n : ∀ e e' R I index out, rs_repr (audit_db e) R I →
  chunks_kept shown e id stream index n = (e', out) →
  audit_step e e' (λ R' I', same_but [KEPT_AUDIT_STREAM] R R').
Proof.
  induction n as [|n IH]; intros e e' R I index out Hr E; cbn [chunks_kept] in E.
  { injection E as <- <-. by eapply audit_step_refl. }
  destruct (read_record StreamChunk e CHUNK _) as [[chunk|]|err]; [|by injection E as <- <-; eapply audit_step_refl..].
  apply and_then_inv in E as [(e1 & [] & E1 & E)|(err & E & ->)].
  - apply (chunk_kept_spec _ _ R I) in E1; [|done|by apply (bool_decide_unpack _); vm_compute].
    eapply audit_step_trans; [exact E1|]. intros R1 I1 Hr1 ->. eapply audit_step_weaken; [|by eapply IH].
    intros R2 I2 H2. eapply same_but_trans; [apply same_but_change; by left|exact H2].
  - eapply audit_step_weaken; [|eapply chunk_kept_spec; [exact Hr| |exact E]].
    + by intros R1 I1 ->.
    + by apply (bool_decide_unpack _); vm_compute.
Qed.

Lemma stream_kept_spec e e' Q J R I id stream out : rs_repr (runtime e) Q J → entries_fit Q →
  rs_repr (audit_db e) R I → stream_kept shown e id stream = (e', out) →
  audit_step e e' (λ R' I', same_but [KEPT_AUDIT_STREAM] R R') ∧ ∀ record, out = Ok record → fits record.
Proof.
  intros HQ [_ Hf] Hr E. unfold stream_kept in E.
  destruct (read_record StreamRecord e STREAM (be stream)) as [[record|]|err] eqn:Er;
    [|by injection E as <- <-; split; [eapply audit_step_refl|]..].
  apply (read_record_spec _ _ _ _ _ _ HQ) in Er as [Hfit _]; [|by apply (bool_decide_unpack _); vm_compute|apply Hf].
  apply answering_inv in E as (r & E & ->). split; [by eapply chunks_kept_spec|].
  intros record' Ho. destruct r; [by injection Ho as <-|done].
Qed.

Lemma streams_kept_spec id ids : ∀ e e' Q J R I out, rs_repr (runtime e) Q J → entries_fit Q →
  rs_repr (audit_db e) R I → streams_kept shown e id ids = (e', out) →
  audit_step e e' (λ R' I', same_but [KEPT_AUDIT_STREAM] R R') ∧
  ∀ rows streams, out = Ok (rows, streams) →
    rows = stream_rows id ids streams ∧ length ids = length streams ∧ Forall fits streams.
Proof.
  induction ids as [|stream ids IH]; intros e e' Q J R I out HQ Hf Hr E; cbn [streams_kept] in E.
  { injection E as <- <-. split; [by eapply audit_step_refl|]. intros rows streams [= <- <-]. by repeat constructor. }
  apply and_then_inv in E as [(e1 & record & E1 & E)|(err & E & ->)].
  2: { split; [|done]. by eapply stream_kept_spec. }
  apply (stream_kept_spec _ _ Q J R I) in E1 as [E1 Hfit]; [|done..].
  apply answering_inv in E as (r & E & ->).
  destruct (E1) as (_ & R1 & I1 & Hr1 & HR1).
  assert (rs_repr (runtime e1) Q J) as HQ1 by by rewrite (audit_step_runtime _ _ _ E1).
  destruct (IH e1 e' Q J R1 I1 r HQ1 Hf Hr1 E) as [E2 Hrest]. split.
  - destruct E1 as [Ee1 _], E2 as (Ee2 & R2 & I2 & Hr2 & HR2). split; [rewrite Ee2, Ee1; by destruct e|].
    exists R2, I2. split; [done|]. by eapply same_but_trans.
  - intros rows streams Ho. destruct r as [[rows' streams']|]; [|done]. injection Ho as <- <-.
    destruct (Hrest _ _ eq_refl) as (-> & Hl & Hfs). split; [done|]. split; [by cbn; rewrite Hl|].
    constructor; [by apply Hfit|done].
Qed.

(** *** A body in pieces *)

Lemma pieces_of_spec fuel size b : size ≠ 0%nat → length b ≤ fuel → concat (pieces_of fuel size b) = b.
Proof.
  intros Hs. revert b. induction fuel as [|fuel IH]; intros [|x b] Hl; cbn [length] in Hl; try done; try lia.
  cbn [pieces_of]. change (concat (?p :: ?l)) with (p ++ concat l). rewrite IH; [apply firstn_skipn|].
  rewrite length_skipn. cbn [length]. lia.
Qed.
Lemma concat_pieces size b : size ≠ 0%nat → concat (pieces size b) = b.
Proof. intros. by apply pieces_of_spec. Qed.

Lemma pieces_of_length fuel size b : size ≠ 0%nat → length (pieces_of fuel size b) ≤ length b.
Proof.
  intros Hs. revert b. induction fuel as [|fuel IH]; intros [|x b]; cbn [pieces_of length]; try lia.
  specialize (IH (skipn size (x :: b))). rewrite length_skipn in IH. cbn [length] in IH. lia.
Qed.

Lemma update_pieces (d : StreamDigest) l : foldl update d l = update d (concat l).
Proof.
  revert d. induction l as [|b l IH]; intros d; [by rewrite hasher_update_nil|].
  cbn [foldl concat]. rewrite IH. apply hasher_update_app.
Qed.

Lemma wadd_wrap (n m : N) : wadd (wrap n : u32) m = wrap (n + m).
Proof. apply uint_eq. unfold wadd. rewrite !uval_wrap, N.Div0.add_mod_idemp_l. done. Qed.

(** The records once the chunks [l] are kept, from the chunk [n] on. *)
Fixpoint pieces_put R (id : AuditId) (n : N) (l : list bytes) : records :=
  match l with
  | [] => R
  | piece :: l =>
      pieces_put (record_change R (KEPT_AUDIT_BODY, body_key id (wrap n), Some piece)) id (n + 1) l
  end.

Lemma pieces_put_same id l : ∀ R n, same_but [KEPT_AUDIT_BODY] R (pieces_put R id n l).
Proof.
  induction l as [|piece l IH]; intros R n; [done|]. cbn [pieces_put].
  eapply same_but_trans; [|apply IH]. apply same_but_change. by left.
Qed.

Lemma lookup_pieces_put id l : ∀ R (n m : N), (n + N.of_nat (length l) ≤ bound 4 → m < bound 4 →
  pieces_put R id n l !! (KEPT_AUDIT_BODY, body_key id (wrap m)) =
  match (if decide (n ≤ m)%N then l !! N.to_nat (m - n) else None) with
  | Some piece => Some piece
  | None => R !! (KEPT_AUDIT_BODY, body_key id (wrap m))
  end)%N.
Proof.
  induction l as [|piece l IH]; intros R n m Hn Hm; cbn [pieces_put length] in *; [by case_decide|].
  rewrite IH, record_changed_at by lia. destruct (decide (n = m)) as [->|Hne].
  - rewrite (decide_False (P := (m + 1 ≤ m)%N)) by lia. rewrite !decide_True by (done || lia).
    by rewrite N.sub_diag.
  - rewrite (decide_False (P := (KEPT_AUDIT_BODY, body_key id (wrap m)) = _)).
    2: { intros [_ [_ E%be_inj]%be_app_inj]%pair_equal_spec. apply (f_equal uval) in E.
         rewrite !uval_wrap_small in E by lia. lia. }
    destruct (decide (n ≤ m)%N) as [Hle|Hlt].
    + rewrite decide_True by lia. replace (N.to_nat (m - n)) with (S (N.to_nat (m - (n + 1)))) by lia. done.
    + by rewrite decide_False by lia.
Qed.

Lemma pieces_kept_spec id l : ∀ e e' R I n d out, rs_repr (audit_db e) R I →
  pieces_kept e id (wrap n) d l = (e', out) →
  audit_step e e' (λ R' I', match out with
    | Ok (index, d') => R' = pieces_put R id n l ∧ index = wrap (n + N.of_nat (length l)) ∧ d' = foldl update d l
    | Err _ => same_but [KEPT_AUDIT_BODY] R R'
    end).
Proof.
  induction l as [|piece l IH]; intros e e' R I n d out Hr E; cbn [pieces_kept] in E.
  { injection E as <- <-. eapply audit_step_refl; [exact Hr|]. cbn. by rewrite N.add_0_r. }
  assert (kind_ok KEPT_AUDIT_BODY) as Hko by by apply (bool_decide_unpack _); vm_compute.
  apply and_then_inv in E as [(e1 & [] & E1 & E)|(err & E & ->)].
  2: { eapply audit_step_weaken; [|eapply chunk_kept_spec; [exact Hr|exact Hko|exact E]].
       by intros R1 I1 ->. }
  apply (chunk_kept_spec _ _ R I) in E1; [|done..].
  eapply audit_step_trans; [exact E1|]. intros R1 I1 Hr1 ->. rewrite wadd_wrap in E.
  eapply audit_step_weaken; [|by eapply IH]. intros R2 I2. destruct out as [[index d']|].
  - intros (-> & -> & ->). split; [done|]. split; [f_equal; cbn [length]; lia|done].
  - intros H2. eapply same_but_trans; [apply same_but_change; by left|exact H2].
Qed.

(** *** A record of a new identifier, or none *)

(** What the keeper keeps of [entry], but for its place in its chain and the
    time. *)
Definition kept_of (entry : AuditEntry) (chunk : nat) : KeptAudit :=
  let body := body_bytes entry in
  {| ka_id := ae_id entry; ka_streams := carried_streams entry;
     ka_facts := with_body (ae_facts entry) (wrap (N.of_nat (length body)))
       (wrap (N.of_nat (length (pieces (Nat.max chunk 1) body)))) (digest_bytes body) |}.
Definition is_kept_of (entry : AuditEntry) (chunk : nat) (kept : KeptAudit) : Prop :=
  ∃ position previous digest at_, kept = with_chain (kept_of entry chunk) position previous digest at_.

Lemma body_kept_spec e e' R I entry chunk out : rs_repr (audit_db e) R I →
  body_kept e entry chunk (ae_facts entry) = (e', out) →
  audit_step e e' (λ R' I', match out with
    | Ok facts => facts = ka_facts (kept_of entry chunk) ∧
        R' = pieces_put R (ae_id entry) 0 (pieces (Nat.max chunk 1) (body_bytes entry))
    | Err _ => same_but [KEPT_AUDIT_BODY] R R'
    end).
Proof.
  intros Hr E. unfold body_kept in E. apply answering_inv in E as (r & E & ->).
  apply (pieces_kept_spec _ _ _ _ R I 0) in E; [|done]. eapply audit_step_weaken; [|exact E].
  intros R1 I1. destruct r as [[index d]|]; [|done]. intros (-> & -> & ->). cbn [fmap result_fmap].
  split; [|done]. unfold kept_of, digest_bytes. cbn [ka_facts]. by rewrite update_pieces, concat_pieces by lia.
Qed.

Lemma carried_streams_spec entry : NoDup (carried_streams entry) ∧
  (length (carried_streams entry) ≤ match ae_audited entry with Some a => length (au_streams a) | None => 0 end)%nat.
Proof.
  unfold carried_streams.
  assert (∀ (l carried : list StreamId), NoDup carried →
    let out := foldl (λ carried stream, if decide (stream ∈ carried) then carried else carried ++ [stream]) carried l in
    NoDup out ∧ length out ≤ length carried + length l) as Hf.
  { induction l as [|s l IH]; intros carried Hc; cbn; [split; [done|lia]|]. case_decide as Hd.
    - destruct (IH _ Hc). split; [done|lia].
    - destruct (IH (carried ++ [s])) as [? Hl]; [|split; [done|rewrite length_app in Hl; cbn in Hl; lia]].
      apply NoDup_app. split; [done|]. split; [|apply NoDup_singleton].
      intros x Hx ->%list_elem_of_singleton. done. }
  destruct (ae_audited entry) as [a|]; [|by split; [constructor|]]. apply (Hf (au_streams a) []). constructor.
Qed.

Lemma kept_of_fits entry chunk : fits entry → fits (kept_of entry chunk).
Proof.
  intros (_ & Ha & Hf). split.
  - destruct (carried_streams_spec entry) as [_ Hl]. unfold counts. cbn [kept_of ka_streams].
    unfold audited_fits in Ha. destruct (ae_audited entry) as [a|]; [destruct Ha as [_ Ha]; unfold counts in Ha; lia|].
    assert (length (carried_streams entry) = 0%nat) as -> by lia. done.
  - cbn [kept_of ka_facts]. unfold fits, AuditFacts_fits in *. cbn. destruct_and! Hf. split_and!; try done.
    apply hasher_finalize_length.
Qed.

(** A record linked and written: its writer's chain goes on with it. *)
Lemma linked_written e R I chains kept0 streams kept head a :
  rs_repr (audit_db e) R I → chained R chains → fits kept0 → Forall fits streams →
  NoDup (ka_streams kept0) → length (ka_streams kept0) = length streams →
  R !! (KEPT_AUDIT, be (ka_id kept0)) = None →
  link (audit_db e) kept0 streams = Ok (kept, head) →
  indexed_in e (audit_db e) Audit_ (stream_rows (ka_id kept0) (ka_streams kept0) streams ++
    [head; (KEPT_AUDIT, be (ka_id kept0), Some (to_bytes kept))]) = Ok a →
  ∃ R' I' chains' kept', rs_repr a R' I' ∧ chained R' chains' ∧ go_on chains chains' ∧
    same_but CHAINED R R' ∧
    (∀ key, key ≠ be (ka_id kept0) → R' !! (KEPT_AUDIT, key) = R !! (KEPT_AUDIT, key)) ∧ fits kept' ∧ R' !! (KEPT_AUDIT, be (ka_id kept0)) = Some (to_bytes kept') ∧
    ∃ position previous digest at_, kept' = with_chain kept0 position previous digest at_.
Proof.
  intros Hr Hc Hfit Hfs Hnd Hlen Hnew Hl Hi.
  destruct (link_next _ _ _ chains _ _ _ _ Hr Hc Hl) as (digest & at_ & Hd & Ek & Hdig & ->).
  set (l := chains (af_writer (ka_facts kept0))) in *.
  unfold indexed_in in Hi. apply bind_Ok in Hi as ([written es] & Ew & Ea).
  apply columns_written_stamped in Ew.
  assert (is_digest (last_digest no_digest l)) as Hlast by by eapply last_digest_digest, Hc.
  assert (fits kept) as Hfk by by subst kept; apply fits_with_chain.
  apply written_of_linked in Ew as [at' ->]; [|done..].
  set (kept' := with_chain kept _ _ _ at') in *.
  assert (kept' = with_chain kept0 (wadd (wrap (N.of_nat (length l))) 1) (last_digest no_digest l) digest at') as Ek'
    by by subst kept' kept.
  set (head := (CHAIN, _, _)) in *. set (rows := stream_rows _ _ _) in *.
  set (R' := recorded R (rows ++ [head; (KEPT_AUDIT, be (ka_id kept0), Some (to_bytes kept'))])).
  assert (∀ kind key, R' !! (kind, key) =
    if decide ((kind, key) = (KEPT_AUDIT, be (ka_id kept0))) then Some (to_bytes kept')
    else if decide ((kind, key) = (CHAIN, writer_key (af_writer (ka_facts kept0))))
         then Some (write_head (wadd (wrap (N.of_nat (length l))) 1) digest)
    else recorded R rows !! (kind, key)) as HR'.
  { intros kind key. unfold R'. rewrite recorded_app.
    change (record_change (record_change (recorded R rows) head) (KEPT_AUDIT, be (ka_id kept0), Some (to_bytes kept'))
      !! (kind, key) = if decide ((kind, key) = (KEPT_AUDIT, be (ka_id kept0))) then Some (to_bytes kept')
       else if decide ((kind, key) = (CHAIN, writer_key (af_writer (ka_facts kept0))))
         then Some (write_head (wadd (wrap (N.of_nat (length l))) 1) digest) else recorded R rows !! (kind, key)).
    unfold head. by rewrite !record_changed_at. }
  exists R', (changed I es), (kept_after chains (kept', streams)), kept'.
  assert (fits kept') as Hfk' by by rewrite Ek'; apply fits_with_chain.
  split_and!.
  - eapply rs_apply_indexed_spec; [exact Hr| |exact Ea]. apply Forall_app.
    split; [apply stream_rows_ok|repeat constructor; by apply (bool_decide_unpack _); vm_compute].
  - clearbody kept'. subst kept'. apply (chained_kept R); [done|done|..].
    + split; [|split; [done|split; [|done]]].
      { cbn. apply uint_eq. unfold wadd. by rewrite !uval_wrap, N.Div0.add_mod_idemp_l. }
      rewrite Hdig, Ek. apply chain_digest_with_chain.
    + split; [done|]. split; [by rewrite HR', decide_True|].
      eapply Forall2_impl; [by apply (recorded_stream_rows (ka_id kept0) (ka_streams kept0) streams R)|].
      intros s r Hs. by rewrite HR', !decide_False by by intros [=].
    + rewrite HR', decide_False, decide_True by (done || by intros [=]). by rewrite head_of_snoc.
    + intros kind key Hk Hk1 Hk2 Hk3. rewrite HR', !decide_False by done. by apply recorded_rows_other.
  - apply go_on_after.
  - intros kind key Hk. unfold CHAINED in Hk.
    rewrite HR', !decide_False by (intros [=]; subst; set_solver).
    apply recorded_rows_other. intros s [=]. subst. set_solver.
  - intros key Hk. rewrite HR', decide_False, decide_False by (by intros [=] || by intros [_ E]%pair_equal_spec).
    apply recorded_rows_other. by intros s [=].
  - done.
  - by rewrite HR', decide_True.
  - by exists (wadd (wrap (N.of_nat (length l))) 1), (last_digest no_digest l), digest, at'.
Qed.

(** What keeping [entry] leaves: the chains gone on with, and, where it is
    answered kept, a record of its identifier - that was there, or made of
    it now, after its body's chunks. *)
Record keeps (entry : AuditEntry) (chunk : nat) R chains (out : result unit) R' chains' : Prop := {
  keeps_chained : chained R' chains';
  keeps_on : go_on chains chains';
  keeps_other key : key ≠ be (ae_id entry) → R' !! (KEPT_AUDIT, key) = R !! (KEPT_AUDIT, key);
  keeps_made : out = Ok tt →
    (is_Some (R !! (KEPT_AUDIT, be (ae_id entry))) ∧ R' = R) ∨
    ∃ kept R0, is_kept_of entry chunk kept ∧ fits kept ∧
      R' !! (KEPT_AUDIT, be (ae_id entry)) = Some (to_bytes kept) ∧
      same_but [KEPT_AUDIT_STREAM] R R0 ∧
      same_but CHAINED (pieces_put R0 (ae_id entry) 0 (pieces (Nat.max chunk 1) (body_bytes entry))) R';
}.

(** Chunks kept leave the chains as they are. *)
Lemma chained_same_but R R' kinds chains : (∀ kind, kind ∈ CHAINED → kind ∉ kinds) →
  same_but kinds R R' → chained R chains → chained R' chains.
Proof. intros Hk Hs. apply chained_frame. intros. by apply Hs, Hk. Qed.

Lemma chained_chunks R R' kind chains : kind ∈ [KEPT_AUDIT_STREAM; KEPT_AUDIT_BODY] →
  same_but [kind] R R' → chained R chains → chained R' chains.
Proof.
  intros Hk. apply chained_same_but. intros kind' Hk' ->%list_elem_of_singleton.
  assert (Forall (λ kind, kind ∉ CHAINED) [KEPT_AUDIT_STREAM; KEPT_AUDIT_BODY]) as Hn
    by (apply (bool_decide_unpack _); by vm_compute).
  rewrite Forall_forall in Hn. by eapply Hn.
Qed.

Lemma keeps_same entry chunk R R' chains err : chained R chains →
  same_but [KEPT_AUDIT_STREAM; KEPT_AUDIT_BODY] R R' → keeps entry chunk R chains (Err err) R' chains.
Proof.
  intros Hc Hs. split; [|apply go_on_refl| |done].
  - eapply chained_same_but; [|exact Hs|exact Hc]. apply Forall_forall, (bool_decide_unpack _). by vm_compute.
  - intros key _. apply Hs. apply (bool_decide_unpack _). by vm_compute.
Qed.

Lemma keep_entry_spec e e' Q J R I chains entry chunk out : rs_repr (runtime e) Q J → entries_fit Q →
  rs_repr (audit_db e) R I → chained R chains → fits entry →
  keep_entry shown e entry chunk = (e', out) →
  audit_step e e' (λ R' I', ∃ chains', keeps entry chunk R chains out R' chains').
Proof.
  intros HQ Hf Hr Hc Hfit E. unfold keep_entry in E.
  assert (∀ kind R R', kind ∈ [KEPT_AUDIT_STREAM; KEPT_AUDIT_BODY] → same_but [kind] R R' →
    same_but [KEPT_AUDIT_STREAM; KEPT_AUDIT_BODY] R R') as Hmore
    by (intros kind R1 R2 Hk; apply same_but_more; set_solver).
  destruct (rs_get (audit_db e) KEPT_AUDIT (be (ae_id entry))) as [[b|]|err] eqn:Eg.
  - injection E as <- <-. eapply audit_step_refl; [exact Hr|]. exists chains. split; [done|apply go_on_refl|done|].
    intros _. left. split; [|done]. apply (rs_get_spec _ _ _ _ _ _ Hr) in Eg; [by rewrite <- Eg|].
    by apply (bool_decide_unpack _); vm_compute.
  - apply (rs_get_spec _ _ _ _ _ _ Hr) in Eg; [|by apply (bool_decide_unpack _); vm_compute]. symmetry in Eg.
    apply and_then_inv in E as [(e1 & [rows streams] & E1 & E)|(err & E & ->)].
    2: { apply (streams_kept_spec _ _ _ _ Q J R I) in E as [E _]; [|done..].
         eapply audit_step_weaken; [|exact E]. intros R1 I1 H1. exists chains. apply keeps_same; [done|].
         apply (Hmore KEPT_AUDIT_STREAM); [by left|done]. }
    apply (streams_kept_spec _ _ _ _ Q J R I) in E1 as [E1 Hrows]; [|done..].
    destruct (Hrows _ _ eq_refl) as (-> & Hlen & Hfs). eapply audit_step_trans; [exact E1|].
    intros R1 I1 Hr1 H1s. assert (H1 := Hmore KEPT_AUDIT_STREAM _ _ ltac:(by left) H1s).
    apply and_then_inv in E as [(e2 & facts & E2 & E)|(err & E & ->)].
    2: { apply (body_kept_spec _ _ R1 I1) in E; [|done]. eapply audit_step_weaken; [|exact E].
         intros R2 I2 H2. exists chains. apply keeps_same; [done|]. eapply same_but_trans; [exact H1|].
         apply (Hmore KEPT_AUDIT_BODY); [right; by left|done]. }
    apply (body_kept_spec _ _ R1 I1) in E2; [|done]. eapply audit_step_trans; [exact E2|].
    intros R2 I2 Hr2 [-> H2].
    assert (same_but [KEPT_AUDIT_STREAM; KEPT_AUDIT_BODY] R R2) as H12.
    { eapply same_but_trans; [exact H1|]. apply (Hmore KEPT_AUDIT_BODY); [right; by left|].
      subst R2. apply pieces_put_same. }
    assert (∀ err, keeps entry chunk R chains (Err err) R2 chains) as Hnot by (intros; by apply keeps_same).
    destruct (Hnot (Record_ "")) as [Hc2 _ _ _].
    change {| ka_id := ae_id entry; ka_streams := carried_streams entry; ka_facts := ka_facts (kept_of entry chunk) |}
      with (kept_of entry chunk) in E.
    destruct (link (audit_db e2) (kept_of entry chunk) streams) as [[kept head]|err] eqn:El;
      cbn [mbind result_bind] in E; [|injection E as <- <-; by eapply audit_step_refl; [|exists chains]].
    destruct (indexed_in e2 (audit_db e2) Audit_ _) as [a|err] eqn:Ei; injection E as <- <-;
      [|by eapply audit_step_refl; [|exists chains]].
    destruct (carried_streams_spec entry) as [Hnd _].
    assert (∀ key, R2 !! (KEPT_AUDIT, key) = R !! (KEPT_AUDIT, key)) as Hsame
      by (intros; apply H12, (bool_decide_unpack _); by vm_compute).
    destruct (linked_written e2 R2 I2 chains (kept_of entry chunk) streams kept head a)
      as (R3 & I3 & chains' & kept' & Hr3 & Hc3 & Hon & H3 & Ho & Hfk & Hk & Hof); try done;
      [by apply kept_of_fits|by rewrite Hsame|].
    split; [done|]. exists R3, I3. split; [exact Hr3|]. exists chains'.
    split; [done|done|intros key Hne; by rewrite Ho, Hsame|]. intros _. right. exists kept', R1. subst R2.
    by split_and!.
  - injection E as <- <-. eapply audit_step_refl; [exact Hr|]. exists chains. by apply keeps_same.
Qed.

(** ** A record forgotten in the runtime database *)

Definition same_on (kinds : list string) R R' : Prop :=
  ∀ kind key, kind ∈ kinds → R' !! (kind, key) = R !! (kind, key).

(** What the keeper reads of the runtime database. *)
Definition MOVED : list string := [AUDIT; STREAM; SEQUENCE].

Lemma moved_plain kind : kind ∈ MOVED → kind ≠ DUE_PLACES ∧ searched_of Runtime kind = None.
Proof.
  assert (Forall (λ kind, kind ≠ DUE_PLACES ∧ searched_of Runtime kind = None) MOVED) as Hm
    by (repeat constructor; by vm_compute).
  rewrite Forall_forall in Hm. apply Hm.
Qed.

Lemma committed_moved (store store' : Rt) Q J op now epoch next next' answers :
  rs_repr store Q J → op_ok op → 
  committed sha1 shown secret_error store [op] now epoch next = (store', next', answers) →
  ∃ Q' J', rs_repr store' Q' J' ∧
    ((∃ done Q1 durable, exec (decide_op sha1 shown op now epoch next) Q = Ok ((done, next'), Q1) ∧
        (next' = next → same_on MOVED Q1 Q') ∧ answers = [Ok (done, durable)]) ∨
     (same_on MOVED Q Q' ∧ ∃ err, answers = [Err err])).
Proof.
  intros HQ Hop E.
  destruct (CommitTheorems.group_written sha1 shown secret_error store store' Q J [op] now epoch next next' answers HQ)
    as (decided & R1 & after & Hin & [(-> & durable & R2 & I2 & HR2 & [Hl Hn] & _ & ->)|(-> & -> & err & Ha & Hlen)]).
  { by constructor. }
  { exact E. }
  - assert (after = next → same_on MOVED R1 R2) as Hsame.
    { intros ->. rewrite decide_True in Hn by done. intros kind key Hk. destruct (moved_plain kind Hk) as [Hd Hs].
      destruct (decide ((kind, key) = (SEQUENCE, NEXT))) as [Ek|Hne]; [by rewrite Ek|].
      specialize (Hl kind key Hd Hne). unfold written_as in Hl. by rewrite Hs in Hl. }
    exists R2, I2. split; [done|].
    inversion Hin as [|? ? ? d next1 Q1 ? ? ? ? Ex Hrest|? ? ? err ? ? ? ? _ Hrest]; subst;
      inversion Hrest; subst; [left; by exists d, R1, durable|right].
    split; [by apply Hsame|]. by exists err.
  - exists Q, J. split; [done|]. right. split; [done|].
    destruct answers as [|a [|]]; try done. apply Forall_cons in Ha as [-> _]. by eexists.
Qed.

(** What is said of a number forgotten: it was the first not moved, and the
    keeper goes on from the one after. *)
Lemma yes_kept e e' Q J number kept out : rs_repr (runtime e) Q J → numbered Q KEPT kept →
  yes sha1 shown secret_error e (OpKept number) = (e', out) →
  audit_db e' = audit_db e ∧ ∃ Q' J', rs_repr (runtime e') Q' J' ∧
    ((same_on MOVED Q Q' ∧ (∀ b, out = Ok b → kept ≠ number)) ∨
     (kept = number ∧ same_on MOVED (forgotten Q number) Q' ∧ (out = Ok false → False))).
Proof.
  intros HQ Hk E. unfold yes, expects in E.
  destruct (submit sha1 shown secret_error e (OpKept number)) as [e1 r] eqn:Es.
  assert (audit_db e1 = audit_db e ∧ ∃ Q' J', rs_repr (runtime e1) Q' J' ∧
    ((same_on MOVED Q Q' ∧ (∀ d, r = Ok d → kept ≠ number)) ∨
     (kept = number ∧ same_on MOVED (forgotten Q number) Q' ∧ (∀ d, r = Ok d → d = DoneYes true))))
    as (Ha & Q' & J' & HQ' & Hcase).
  2: { apply and_then_inv in E as [(e2 & d & [= -> ->] & E)|(err & [= -> ->] & ->)].
       - injection E as <- <-. split; [done|]. exists Q', J'. split; [done|].
         destruct Hcase as [[Hs Hr]|(Hn & Hs & Hr)]; [left|right]; (split; [done|]).
         + intros b _. by apply (Hr d).
         + split; [done|]. by rewrite (Hr _ eq_refl).
       - split; [done|]. exists Q', J'. split; [done|].
         destruct Hcase as [[Hs _]|(Hn & Hs & _)]; [left|right]; by repeat split. }
  unfold submit, ahead in Es.
  destruct (committed sha1 shown secret_error (runtime e) [OpKept number] (now_ e) (epoch_ e) (next_audit e))
    as [[s next] answers] eqn:Ec.
  destruct (committed_moved _ _ Q J (OpKept number) _ _ _ _ _ HQ Logic.I Ec) as (Q' & J' & HQ' & Hans).
  assert (∀ d durable e2 r2, wait secret_error (with_runtime e s next) durable = (e2, r2) →
    audit_db e2 = audit_db e ∧ rs_repr (runtime e2) Q' J' ∧ (∀ d', ((λ _, d) <$> r2 : result Done) = Ok d' → d' = d))
    as Hwait.
  { intros d durable e2 r2 Hw. destruct durable; cbn [wait] in Hw.
    - injection Hw as <- <-. split; [done|]. split; [done|]. by intros d' [= <-].
    - destruct (rs_sync _) as [s'|err] eqn:Esy; injection Hw as <- <-; (split; [done|]).
      + split; [exact (rs_sync_spec _ _ _ _ HQ' Esy)|]. by intros d' [= <-].
      + by split. }
  destruct Hans as [(d & Q1 & durable & Ex & Hsame & ->)|(Hsame & err & ->)]; cbn [and_then] in Es.
  - apply answering_inv in Es as (r2 & Hw & ->). destruct (Hwait d _ _ _ Hw) as (Ha & HQ2 & Hd).
    split; [done|]. exists Q', J'. split; [done|]. cbn [decide_op] in Ex.
    rewrite exec_bind, (exec_keep_moved_as Q kept) in Ex by done.
    case_decide as Hdec; injection Ex as <- <- <-; specialize (Hsame eq_refl).
    + right. by split.
    + by left.
  - injection Es as <- <-. split; [done|]. exists Q', J'. split; [done|]. by left.
Qed.

(** ** The records moved, one after another *)

Lemma wadd_wadd {n} (x : uint n) (i j : N) : wadd (wadd x i) j = wadd x (i + j).
Proof. apply uint_eq. unfold wadd. rewrite !uval_wrap, N.Div0.add_mod_idemp_l. f_equal. lia. Qed.
Lemma wadd_0 {n} (x : uint n) : wadd x 0 = x.
Proof. unfold wadd. by rewrite N.add_0_r, wrap_uval. Qed.

(** A kept record stays as it is. *)
Lemma kept_stays R R' chains chains' key b : chained R chains → chained R' chains' → go_on chains chains' →
  R !! (KEPT_AUDIT, key) = Some b → R' !! (KEPT_AUDIT, key) = Some b.
Proof.
  intros Hc Hc' Hon Hb. destruct (chained_all _ _ Hc _ _ Hb) as (writer & x & Hx & ->).
  destruct (chain_of_there _ _ _ _ Hc Hx) as (_ & Hr & _). rewrite Hb in Hr. injection Hr as ->.
  destruct (Hon writer) as [l El]. apply (chain_of_there _ _ writer) with (1 := Hc').
  rewrite El. apply elem_of_app. by left.
Qed.

Lemma kept_reads R chains key b : chained R chains → R !! (KEPT_AUDIT, key) = Some b →
  ∃ kept : KeptAudit, fits kept ∧ b = to_bytes kept ∧ key = be (ka_id kept).
Proof.
  intros Hc Hb. destruct (chained_all _ _ Hc _ _ Hb) as (writer & x & Hx & ->).
  destruct (chain_of_there _ _ _ _ Hc Hx) as (Hf & Hr & _). rewrite Hb in Hr. injection Hr as ->.
  by exists x.1.
Qed.

Lemma forgotten_at Q number kind key : (kind, key) ≠ (AUDIT, be number) → (kind, key) ≠ (SEQUENCE, KEPT) →
  forgotten Q number !! (kind, key) = Q !! (kind, key).
Proof. intros H1 H2. unfold forgotten. by rewrite !record_changed_at, !decide_False. Qed.
Lemma forgotten_gone Q number : forgotten Q number !! (AUDIT, be number) = None.
Proof. unfold forgotten. rewrite !record_changed_at, decide_False by by intros [=]. by rewrite decide_True. Qed.
Lemma forgotten_kept Q number : forgotten Q number !! (SEQUENCE, KEPT) = Some (be (wadd number 1)).
Proof. unfold forgotten. by rewrite record_changed_at, decide_True. Qed.

Lemma entries_fit_same Q Q' : same_on MOVED Q Q' → entries_fit Q → entries_fit Q'.
Proof. intros Hs [He Hf]. split; intros key b; rewrite Hs by (unfold MOVED; set_solver); [apply He|apply Hf]. Qed.

Lemma entries_fit_forgotten Q number : entries_fit Q → entries_fit (forgotten Q number).
Proof.
  intros [He Hf]. split; intros key b; unfold forgotten;
    (rewrite record_changed_at, decide_False by by intros [=]); rewrite record_changed_at;
    case_decide as Hd; try done; [apply He|apply Hf].
Qed.

(** What moving leaves of the two databases: [moved] is forgotten in the
    one, from the number [number] on, and kept in the other. *)
Record moved_to (number : u64) (chunk : nat) Q R chains (moved : list AuditEntry) Q' R' chains' : Prop := {
  moved_chained : chained R' chains';
  moved_on : go_on chains chains';
  moved_number : numbered Q' KEPT (wadd number (N.of_nat (length moved)));
  moved_next : Q' !! (SEQUENCE, NEXT) = Q !! (SEQUENCE, NEXT);
  moved_fits : entries_fit Q';
  moved_each i entry : moved !! i = Some entry →
    Q !! (AUDIT, be (wadd number (N.of_nat i))) = Some (to_bytes entry) ∧ fits entry ∧
    Q' !! (AUDIT, be (wadd number (N.of_nat i))) = None;
  moved_other key : (∀ i, (i < length moved)%nat → key ≠ be (wadd number (N.of_nat i))) →
    Q' !! (AUDIT, key) = Q !! (AUDIT, key);
  moved_kept entry : entry ∈ moved → ∃ kept : KeptAudit, fits kept ∧
    R' !! (KEPT_AUDIT, be (ae_id entry)) = Some (to_bytes kept) ∧
    (R !! (KEPT_AUDIT, be (ae_id entry)) = Some (to_bytes kept) ∨
     ∃ entry', entry' ∈ moved ∧ ae_id entry' = ae_id entry ∧ is_kept_of entry' chunk kept);
}.

Lemma moved_none number chunk Q R chains Q' R' chains' :
  chained R' chains' → go_on chains chains' → numbered Q KEPT number → entries_fit Q → same_on MOVED Q Q' →
  moved_to number chunk Q R chains [] Q' R' chains'.
Proof.
  intros Hc Hon Hn Hf Hs.
  split; [done|done| |by apply Hs; unfold MOVED; set_solver|by eapply entries_fit_same|done| |].
  - cbn. rewrite wadd_0. unfold numbered in *. by rewrite Hs by (unfold MOVED; set_solver).
  - intros key _. apply Hs. unfold MOVED. set_solver.
  - by intros entry ?%elem_of_nil.
Qed.

(** The first moved, and then the others. *)
Lemma moved_cons number chunk Q R chains entry moved Q1 R1 chains1 Q' R' chains' :
  (uval number + N.of_nat (length moved) < bound 8 - 1)%N →
  chained R chains → Q !! (AUDIT, be number) = Some (to_bytes entry) → fits entry →
  keeps entry chunk R chains (Ok tt) R1 chains1 → same_on MOVED (forgotten Q number) Q1 →
  moved_to (wadd number 1) chunk Q1 R1 chains1 moved Q' R' chains' →
  moved_to number chunk Q R chains (entry :: moved) Q' R' chains'.
Proof.
  intros Hb Hc HQ Hfit [Hc1 Hon1 Hother1 Hmade] Hs [Hc' Hon' Hn' Hx' Hf' He' Ho' Hk'].
  assert (∀ i : nat, wadd (wadd number 1) (N.of_nat i) = wadd number (N.of_nat (S i))) as Hw.
  { intros i. rewrite wadd_wadd. f_equal. lia. }
  assert (∀ i, i < length moved → be (wadd number (N.of_nat (S i))) ≠ be number) as Hne.
  { intros i Hi E%be_inj. apply (f_equal uval) in E. unfold wadd in E. rewrite uval_wrap_small in E; lia. }
  assert (∀ key, key ≠ be number → Q1 !! (AUDIT, key) = Q !! (AUDIT, key)) as HQ1.
  { intros key Hk. rewrite Hs by (unfold MOVED; set_solver). apply forgotten_at; [|by intros [=]].
    by intros [_ E]%pair_equal_spec. }
  assert (Q1 !! (AUDIT, be number) = None) as Hgone.
  { rewrite Hs by (unfold MOVED; set_solver). apply forgotten_gone. }
  split; [done|by eapply go_on_trans| | |done| | |].
  - rewrite Hw in Hn'. exact Hn'.
  - rewrite Hx', Hs by (unfold MOVED; set_solver). apply forgotten_at; by intros [=].
  - intros [|i] entry' Hi; cbn in Hi.
    + injection Hi as <-. rewrite wadd_0. split; [done|]. split; [done|]. rewrite Ho'; [done|].
      intros i Hi. rewrite Hw. by apply not_eq_sym, Hne.
    + apply lookup_lt_Some in Hi as Hlt. destruct (He' _ _ Hi) as (H1 & H2 & H3). rewrite Hw in H1, H3.
      split; [|done]. rewrite HQ1 in H1; [done|by apply Hne].
  - intros key Hk. rewrite Ho'.
    + apply HQ1. rewrite <- (wadd_0 number). apply (Hk 0%nat). cbn. lia.
    + intros i Hi. rewrite Hw. apply Hk. cbn. lia.
  - assert (∀ b, R1 !! (KEPT_AUDIT, be (ae_id entry)) = Some b → R' !! (KEPT_AUDIT, be (ae_id entry)) = Some b)
      as Hstay by (intros b; by apply (kept_stays R1 R' chains1 chains')).
    intros entry' [->|Hin]%elem_of_cons.
    + destruct (Hmade eq_refl) as [[[b Hb'] ->]|(kept & R0 & Hof & Hfk & Hr1 & _)].
      * destruct (kept_reads _ _ _ _ Hc Hb') as (kept & Hfk & -> & _). exists kept. split; [done|].
        split; [by apply Hstay|by left].
      * exists kept. split; [done|]. split; [by apply Hstay|]. right. exists entry. split; [by left|done].
    + destruct (Hk' _ Hin) as (kept & Hfk & Hr' & Hor). exists kept. split; [done|]. split; [done|].
      destruct Hor as [Hr1|(e'' & Hin' & Hid & Hof)]; [|right; exists e''; split; [by right|done]].
      destruct (decide (ae_id entry' = ae_id entry)) as [Hid|Hid].
      * rewrite Hid in *. destruct (Hmade eq_refl) as [[_ ->]|(kept1 & R0 & Hof & Hfk1 & Hr & _)]; [by left|].
        rewrite Hr in Hr1. injection Hr1 as Eb. right. exists entry. split; [by left|]. split; [done|].
        apply (f_equal (from_bytes (A := KeptAudit))) in Eb. rewrite !from_to_bytes in Eb by done.
        by injection Eb as ->.
      * left. rewrite <- Hother1; [done|]. by intros E%be_inj.
Qed.

Lemma keep_each_spec chunk n : ∀ e e' Q J R I chains number count out,
  rs_repr (runtime e) Q J → entries_fit Q → numbered Q KEPT number →
  rs_repr (audit_db e) R I → chained R chains → (uval number + N.of_nat n < bound 8)%N →
  keep_each sha1 shown secret_error e number count chunk n = (e', out) →
  ∃ Q' J' R' I' chains' moved, rs_repr (runtime e') Q' J' ∧ rs_repr (audit_db e') R' I' ∧
    moved_to number chunk Q R chains moved Q' R' chains' ∧ (length moved ≤ n)%nat ∧
    ∀ count', out = Ok count' → length moved = n ∧ count' = wadd count (N.of_nat n).
Proof.
  induction n as [|n IH]; intros e e' Q J R I chains number count out HQ Hf Hn Hr Hc Hb E; cbn [keep_each] in E.
  { injection E as <- <-. exists Q, J, R, I, chains, []. split; [done|]. split; [done|].
    split; [by apply moved_none; [|apply go_on_refl|..]|]. split; [done|]. intros count' [= <-]. split; [done|]. by rewrite wadd_0. }
  assert (∀ e1 Q1 J1 R1 I1 chains1 err, rs_repr (runtime e1) Q1 J1 → rs_repr (audit_db e1) R1 I1 →
    chained R1 chains1 → go_on chains chains1 → same_on MOVED Q Q1 →
    ∃ Q' J' R' I' chains' moved, rs_repr (runtime e1) Q' J' ∧ rs_repr (audit_db e1) R' I' ∧
      moved_to number chunk Q R chains moved Q' R' chains' ∧ (length moved ≤ S n)%nat ∧
      ∀ count', Err err = Ok count' → length moved = S n ∧ count' = wadd count (N.of_nat (S n))) as Hstop.
  { intros e1 Q1 J1 R1 I1 chains1 err HQ1 Hr1 Hc1 Hon Hs. exists Q1, J1, R1, I1, chains1, [].
    split; [done|]. split; [done|]. split; [by apply moved_none|]. split; [cbn; lia|done]. }
  destruct (read_record AuditEntry e AUDIT (be number)) as [[entry|]|err] eqn:Er;
    [|injection E as <- <-; apply (Hstop e Q J R I chains); try done; apply go_on_refl..].
  apply (read_record_spec _ _ _ _ _ _ HQ) in Er as [Hfit HQe]; [|by apply (bool_decide_unpack _); vm_compute|apply Hf].
  apply and_then_inv in E as [(e1 & [] & E1 & E)|(err & E1 & ->)];
    apply (keep_entry_spec _ _ Q J R I chains) in E1; try done.
  2: { destruct E1 as (Ee & R1 & I1 & Hr1 & chains1 & Hk). eapply (Hstop e' Q J R1 I1 chains1); [|done|apply Hk|apply Hk|done].
       by rewrite Ee. }
  destruct E1 as (Ee & R1 & I1 & Hr1 & chains1 & Hk).
  assert (rs_repr (runtime e1) Q J) as HQ1 by by rewrite Ee.
  apply and_then_inv in E as [(e2 & yes & E2 & E)|(err & E2 & ->)];
    apply (yes_kept _ _ Q J _ number) in E2 as (Ha & Q2 & J2 & HQ2 & Hcase); try done.
  - destruct Hcase as [[_ Hno]|(_ & Hs & Hno)]; [by destruct (Hno _ eq_refl)|]. destruct yes; [|by destruct Hno].
    assert (entries_fit Q2) as Hf2 by by eapply entries_fit_same, entries_fit_forgotten.
    assert (numbered Q2 KEPT (wadd number 1)) as Hn2.
    { unfold numbered. by rewrite Hs, forgotten_kept by (unfold MOVED; set_solver). }
    assert (uval (wadd number 1) = uval number + 1)%N as Ew by (apply uval_wadd; lia).
    rewrite <- Ha in Hr1.
    destruct (IH e2 e' Q2 J2 R1 I1 chains1 (wadd number 1) (wadd count 1) out)
      as (Q' & J' & R' & I' & chains' & moved & HQ' & HR' & Hm & Hlen & Hout); try done; [by apply Hk|lia|].
    exists Q', J', R', I', chains', (entry :: moved). split; [done|]. split; [done|].
    split; [eapply moved_cons; [|done..]; lia|]. split; [cbn; lia|].
    intros count' Ho. destruct (Hout _ Ho) as [<- ->]. split; [done|]. rewrite wadd_wadd. f_equal. lia.
  - rewrite <- Ha in Hr1. destruct Hcase as [[Hs _]|(_ & Hs & _)].
    + apply (Hstop e' Q2 J2 R1 I1 chains1); [done|done|apply Hk|apply Hk|done].
    + exists Q2, J2, R1, I1, chains1, [entry]. split; [done|]. split; [done|]. split; [|split; [cbn; lia|done]].
      eapply moved_cons; [|done..|]; [cbn; lia|]. apply moved_none; [apply Hk|apply go_on_refl| |by eapply entries_fit_same, entries_fit_forgotten|done].
      unfold numbered. by rewrite Hs, forgotten_kept by (unfold MOVED; set_solver).
Qed.

(** Where a number is among those moved, or not. *)
Lemma moved_where kept chunk Q R chains moved Q' R' chains' (next n : u64) :
  moved_to kept chunk Q R chains moved Q' R' chains' →
  (uval kept + N.of_nat (length moved) ≤ uval next)%N → (uval kept ≤ uval n < uval next)%N →
  if decide (uval n < uval kept + N.of_nat (length moved))%N
  then ∃ i entry, moved !! i = Some entry ∧ n = wadd kept (N.of_nat i)
  else Q' !! (AUDIT, be n) = Q !! (AUDIT, be n).
Proof.
  intros Hm Hlen Hin. pose proof (uval_lt next). case_decide as Hd.
  - destruct (lookup_lt_is_Some_2 moved (N.to_nat (uval n - uval kept))) as [entry He]; [lia|].
    exists (N.to_nat (uval n - uval kept)), entry. split; [done|]. apply uint_eq.
    rewrite uval_wadd by (rewrite N2Nat.id; lia). lia.
  - apply (moved_other _ _ _ _ _ _ _ _ _ Hm). intros i Hlt E%be_inj. subst n.
    rewrite uval_wadd in Hd by lia. lia.
Qed.

Lemma moved_audited kept chunk Q R chains moved Q' R' chains' (next : u64) :
  moved_to kept chunk Q R chains moved Q' R' chains' → Commit.audited Q next kept →
  (uval kept + N.of_nat (length moved) ≤ uval next)%N →
  Commit.audited Q' next (wadd kept (N.of_nat (length moved))).
Proof.
  intros Hm [_ Ho Ha] Hlen. pose proof (uval_lt next).
  assert (uval (wadd kept (N.of_nat (length moved))) = uval kept + N.of_nat (length moved))%N as Ek
    by (apply uval_wadd; lia).
  split; [apply Hm|lia|]. intros key. split.
  - intros Hs. assert (is_Some (Q !! (AUDIT, key))) as (n & -> & Hin)%Ha.
    { destruct Hs as [b Hb].
      destruct (decide (key ∈ (λ i : nat, be (wadd kept (N.of_nat i))) <$> seq 0 (length moved)))
        as [(i & -> & [_ Hlt]%elem_of_seq)%list_elem_of_fmap|Hno].
      - apply lookup_lt_is_Some_2 in Hlt as [entry He].
        destruct (moved_each _ _ _ _ _ _ _ _ _ Hm _ _ He) as (_ & _ & Hg). by rewrite Hg in Hb.
      - rewrite (moved_other _ _ _ _ _ _ _ _ _ Hm) in Hb; [by eexists|]. intros i Hlt ->. apply Hno.
        apply list_elem_of_fmap. exists i. split; [done|]. apply elem_of_seq. lia. }
    exists n. split; [done|]. pose proof (moved_where _ _ _ _ _ _ _ _ _ _ n Hm Hlen Hin) as Hat.
    case_decide; [|lia]. destruct Hat as (i & entry & He & ->).
    destruct (moved_each _ _ _ _ _ _ _ _ _ Hm _ _ He) as (_ & _ & Hg). rewrite Hg in Hs. by destruct Hs.
  - intros (n & -> & Hin). pose proof (moved_where _ _ _ _ _ _ _ _ _ _ n Hm Hlen ltac:(lia)) as Hat.
    rewrite decide_False in Hat by lia. rewrite Hat. apply Ha. exists n. split; [done|]. lia.
Qed.

Lemma sequence_numbered (store : Rt) Q J which n k : rs_repr store Q J → numbered Q which n →
  sequence store which = Ok k → k = n.
Proof.
  intros HQ Hn E. unfold sequence in E. apply bind_Ok in E as (o & Eo & E).
  apply (rs_get_spec _ _ _ _ _ _ HQ) in Eo; [|by apply (bool_decide_unpack _); vm_compute]. subst o.
  unfold numbered in Hn. destruct (Q !! (SEQUENCE, which)) as [b|]; [|by injection E as <-]. subst b.
  assert (array 8 (be n) = Some (be n)) as Ha by (apply array_Some; by rewrite length_be).
  rewrite Ha, of_be_be in E. by injection E as <-.
Qed.

(** A turn of the keeper moves as many as are asked for and there, each kept
    before it is forgotten, or stops at one it could not. *)
Lemma keep_turn_spec e e' Q J R I chains next kept most chunk out :
  rs_repr (runtime e) Q J → entries_fit Q → Commit.audited Q next kept → numbered Q NEXT next →
  rs_repr (audit_db e) R I → chained R chains →
  keep sha1 shown secret_error e most chunk = (e', out) →
  ∃ Q' J' R' I' chains' moved, rs_repr (runtime e') Q' J' ∧ rs_repr (audit_db e') R' I' ∧
    moved_to kept chunk Q R chains moved Q' R' chains' ∧
    (uval kept + N.of_nat (length moved) ≤ uval next)%N ∧
    ∀ count, out = Ok count →
      uval count = N.min (uval most) (uval next - uval kept) ∧ uval count = N.of_nat (length moved).
Proof.
  intros HQ Hf HA Hn Hr Hc E. unfold keep in E.
  destruct (kept ← sequence (runtime e) KEPT; next ← sequence (runtime e) NEXT; Ok (kept, next))
    as [[kept' next']|err] eqn:Es.
  2: { injection E as <- <-. exists Q, J, R, I, chains, []. split; [done|]. split; [done|].
       split; [apply moved_none; [done|apply go_on_refl|apply HA|done|done]|]. cbn. split; [|done].
       pose proof (audited_order _ _ _ HA). lia. }
  apply bind_Ok in Es as (k & Ek & Es). apply bind_Ok in Es as (n & En & Es). injection Es as <- <-.
  apply (sequence_numbered _ _ _ _ _ _ HQ (audited_kept _ _ _ HA)) in Ek as ->.
  apply (sequence_numbered _ _ _ _ _ _ HQ Hn) in En as ->.
  set (count := N.to_nat _) in E.
  assert (uval (sat_add kept (uval most)) = N.min (bound 8 - 1) (uval kept + uval most))%N as Hsat.
  { rewrite uval_sat_add. lia. }
  pose proof (uval_lt next). pose proof (uval_lt most). pose proof (audited_order _ _ _ HA).
  assert (N.of_nat count = N.min (uval most) (uval next - uval kept)) as Hcount.
  { unfold count. rewrite N2Nat.id, uval_uminof, Hsat. lia. }
  destruct (keep_each_spec chunk count e e' Q J R I chains kept (wrap 0) out HQ Hf (audited_kept _ _ _ HA) Hr Hc)
    as (Q' & J' & R' & I' & chains' & moved & HQ' & HR' & Hm & Hlen & Hout); [lia|done|].
  exists Q', J', R', I', chains', moved. split; [done|]. split; [done|]. split; [done|]. split; [lia|].
  intros c Ho. destruct (Hout _ Ho) as [Hl ->]. rewrite wadd_wrap, N.add_0_l, uval_wrap_small; [lia|].
  change (N.of_nat count < bound 4)%N. lia.
Qed.
End keeping.

(** ** The theorems *)

Module KeeperTheorems.
Section theorems.
Context {C : Codec} {CO : CodecOk C} {X : XSecrets} {SE : Secret} {SH : Sha256} {SO : Sha256Ok SH}.
Context (sha1 : bytes → bytes) (shown : u128 → string) (secret_error : SecretError → string).
Context {Rt At : Type} {RR : RecordStore Rt} {RA : RecordStore At} {SA : Sealing At}.
Context {OR : RecordStoreOk Rt} {OA : RecordStoreOk At}.


(** C28. No audit record is lost on its way. After a turn of the keeper,
    however it ended, the records the runtime database still holds are those
    it has not moved, as they were; each it forgot is kept in the audit
    database under its identifier: as it was kept there before the turn, or
    as it is made of a record of that identifier the turn moved - its facts,
    its Streams, and its body's length, chunks and digest. A turn answered
    moved as many as it says: all there were, or as many as were asked. *)
Theorem kept_before_forgotten (e e' : Embedded (R := Rt) (A := At)) (Q R : records) (J I : entries)
    (chains : string → list (KeptAudit * list StreamRecord)) (next kept : u64)
    (most : u32) (chunk : nat) (out : result u32) :
  rs_repr (runtime e) Q J → entries_fit Q → Commit.audited Q next kept → numbered Q NEXT next →
  rs_repr (audit_db e) R I → chained R chains →
  keep sha1 shown secret_error e most chunk = (e', out) →
  ∃ Q' J' R' I' (kept' : u64), rs_repr (runtime e') Q' J' ∧ rs_repr (audit_db e') R' I' ∧
    Commit.audited Q' next kept' ∧ numbered Q' NEXT next ∧
    (∀ n : u64, (uval kept' ≤ uval n < uval next)%N → Q' !! (AUDIT, be n) = Q !! (AUDIT, be n)) ∧
    (∀ n : u64, (uval kept ≤ uval n < uval kept')%N → ∃ (entry : AuditEntry) (record : KeptAudit),
      Q !! (AUDIT, be n) = Some (to_bytes entry) ∧ fits record ∧
      R' !! (KEPT_AUDIT, be (ae_id entry)) = Some (to_bytes record) ∧
      (R !! (KEPT_AUDIT, be (ae_id entry)) = Some (to_bytes record) ∨
       ∃ (n' : u64) (entry' : AuditEntry), (uval kept ≤ uval n' < uval kept')%N ∧
         Q !! (AUDIT, be n') = Some (to_bytes entry') ∧ ae_id entry' = ae_id entry ∧
         is_kept_of entry' chunk record)) ∧
    (∀ count, out = Ok count → uval count = N.min (uval most) (uval next - uval kept) ∧
      uval kept' = uval kept + uval count)%N.
Proof.
  intros HQ Hf HA Hn Hr Hc E.
  destruct (keep_turn_spec sha1 shown secret_error e e' Q J R I chains next kept most chunk out)
    as (Q' & J' & R' & I' & chains' & moved & HQ' & HR' & Hm & Hlen & Hout); [done..|].
  pose proof (uval_lt next). set (kept' := wadd kept (N.of_nat (length moved))).
  assert (uval kept' = uval kept + N.of_nat (length moved))%N as Ek by (apply uval_wadd; lia).
  exists Q', J', R', I', kept'. split; [done|]. split; [done|]. split; [by eapply moved_audited|].
  split; [unfold numbered in *; by rewrite (moved_next _ _ _ _ _ _ _ _ _ Hm)|].
  pose proof (λ n, moved_where _ _ _ _ _ _ _ _ _ _ n Hm Hlen) as Hat. rewrite <- Ek in Hat. split; [|split].
  - intros n Hin. specialize (Hat n ltac:(lia)). by rewrite decide_False in Hat by lia.
  - intros n Hin. specialize (Hat n ltac:(lia)). rewrite decide_True in Hat by lia.
    destruct Hat as (i & entry & He & ->).
    destruct (moved_each _ _ _ _ _ _ _ _ _ Hm _ _ He) as (HQe & _ & _).
    destruct (moved_kept _ _ _ _ _ _ _ _ _ Hm entry) as (record & Hfr & Hr' & Hor);
      [by eapply list_elem_of_lookup_2|].
    exists entry, record. split; [done|]. split; [done|]. split; [done|].
    destruct Hor as [?|(entry' & Hin' & Hid & Hof)]; [by left|right].
    apply list_elem_of_lookup in Hin' as [i' He'].
    destruct (moved_each _ _ _ _ _ _ _ _ _ Hm _ _ He') as (HQe' & _ & _).
    exists (wadd kept (N.of_nat i')), entry'. split; [|done].
    apply lookup_lt_Some in He'. rewrite Ek, uval_wadd by lia. lia.
  - intros count Ho. destruct (Hout _ Ho) as [Hc1 Hc2]. split; [done|]. by rewrite Ek, Hc2.
Qed.

Lemma length_room (e : Embedded (R := Rt) (A := At)) (hows : list (option nat)) :
  length (filter has_room ((λ how, (e, how)) <$> hows)) = length (filter (λ how, how ≠ Some 0%nat) hows).
Proof.
  induction hows as [|how hows IH]; [done|]. rewrite fmap_cons, !filter_cons.
  destruct (decide (how = Some 0%nat)) as [->|Hne].
  - by rewrite !decide_False by (intros Hn; by apply Hn).
  - rewrite !decide_True by done. cbn [length]. by rewrite IH.
Qed.

(** C31. A kept body is read back whole. Where the keeper keeps an entry
    whose identifier is not kept yet, and no chunk under that identifier is
    kept either - one left of a move cut short would be read on into, and the
    body refused -, its body, of fewer chunks than 32 bits count, is read back
    through a [ChunkReader] from the record kept: cut into chunks of whatever
    size, the buffers of whatever sizes, what the reader gives out is the
    body's bytes from their start; it ends with the last of them, and refuses
    only with a failure of the audit database. Asked often enough of one that
    answers, it comes to that end. *)
Theorem kept_body_reads_back (e e' : Embedded (R := Rt) (A := At)) (Q R : records) (J I : entries)
    (chains : string → list (KeptAudit * list StreamRecord)) (entry : AuditEntry) (chunk : nat)
    (hows : list (option nat)) (r : option ChunkReader) :
  let body := body_bytes entry in let cs := pieces (Nat.max chunk 1) body in
  let from_ := InAuditBody (ae_id entry) (digest_bytes body) in
  rs_repr (runtime e) Q J → entries_fit Q → rs_repr (audit_db e) R I → chained R chains → fits entry →
  R !! (KEPT_AUDIT, be (ae_id entry)) = None →
  (∀ n, R !! (KEPT_AUDIT_BODY, body_key (ae_id entry) n) = None) → (N.of_nat (length cs) < bound 4)%N →
  keep_entry shown e entry chunk = (e', Ok tt) → audit_body e' (ae_id entry) = Ok r →
  ∃ reader got v, r = Some reader ∧ reads ((λ how, (e', how)) <$> hows) reader = Some (got, v) ∧
    got `prefix_of` body ∧
    match v with
    | Reading => True
    | Whole => got = body
    | NotWhole why => ∃ n err, Stream.chunk e' from_ n = Err err ∧ why = unread err
    end ∧
    (answers from_ e' → (length cs + length body < length (filter (λ how, how ≠ Some 0%nat) hows))%nat →
      got = body ∧ v = Whole).
Proof.
  intros body cs from_ HQ Hf Hr Hc Hfit Hnew Hfresh Hfew E Er.
  apply (keep_entry_spec sha1 shown _ _ Q J R I chains) in E as (_ & R' & I' & Hr' & chains' & [_ _ _ Hmade]); [|done..].
  destruct (Hmade eq_refl) as [[[b Hb] _]|(kept & R0 & Hof & Hfk & Hk & H0 & H1)]; [by rewrite Hnew in Hb|].
  assert (∀ n, R' !! (KEPT_AUDIT_BODY, body_key (ae_id entry) n) = cs !! N.to_nat (uval n)) as Hcs.
  { intros n. pose proof (uval_lt n). rewrite H1 by (by apply (bool_decide_unpack _); vm_compute).
    pose proof (lookup_pieces_put (ae_id entry) cs R0 0 (uval n) ltac:(lia) ltac:(done)) as Hp.
    rewrite decide_True, N.sub_0_r, wrap_uval in Hp by lia. etransitivity; [exact Hp|].
    destruct (cs !! _); [done|].
    rewrite H0 by (by apply (bool_decide_unpack _); vm_compute). apply Hfresh. }
  assert (r = Some (asking from_ (wrap (N.of_nat (length body))))) as ->.
  { unfold audit_body in Er. change (Stream.read_kept_audit e' (ae_id entry)) with (kept_audit e' (ae_id entry)) in Er.
    unfold kept_audit in Er.
    destruct (rs_get (audit_db e') KEPT_AUDIT (be (ae_id entry))) as [o|err] eqn:Eo; [|by cbn in Er].
    apply (rs_get_spec _ _ _ _ _ _ Hr') in Eo as ->; [|by apply (bool_decide_unpack _); vm_compute].
    rewrite Hk in Er. cbn in Er. rewrite from_to_bytes in Er by done. cbn in Er. injection Er as <-.
    destruct Hof as (position & previous & digest & at_ & ->). done. }
  assert (∀ how, shows cs from_ (e', how : option nat).1) as Hshows.
  { intros how n o Ho. change (kept_body_chunk e' (ae_id entry) n = Ok o) in Ho. unfold kept_body_chunk in Ho.
    apply (rs_get_spec _ _ _ _ _ _ Hr') in Ho as ->; [apply Hcs|by apply (bool_decide_unpack _); vm_compute]. }
  destruct (reads_spec cs from_ (wrap (N.of_nat (length body))) Hfew ((λ how, (e', how)) <$> hows)
    (asking from_ (wrap (N.of_nat (length body)))) []) as (got & v & Hreads & Hp & Hv).
  { left. apply starts_stands; [done|by left]. }
  { apply Forall_fmap, Forall_true. intros how. apply Hshows. }
  exists (asking from_ (wrap (N.of_nat (length body)))), got, v.
  assert (concat cs = body) as Hbody by (apply concat_pieces; lia).
  assert (whole_stream from_ (wrap (N.of_nat (length body))) cs = (body, Whole)) as Hwhole.
  { unfold whole_stream, not_whole, total, from_. rewrite Hbody. by rewrite !decide_True by done. }
  rewrite Hwhole in Hv. rewrite Hbody in Hp. cbn [app] in Hp, Hv.
  split; [done|]. split; [done|]. split; [done|]. split.
  - destruct v as [| |why]; [done|by injection Hv|].
    destruct Hv as [[=]|(s & how & n & err & Hin & Hch & ->)]. exists n, err. split; [|done].
    apply list_elem_of_fmap in Hin as (? & [= -> ->] & _). done.
  - intros Hans Hroom. destruct v as [| |why]; [|by injection Hv|].
    + specialize (Hv ltac:(apply Forall_fmap, Forall_true; by intros how)). rewrite length_room in Hv.
      unfold left_ in Hv. rewrite Hbody in Hv. lia.
    + destruct Hv as [[=]|(s & how & n & err & Hin & Hch & ->)].
      apply list_elem_of_fmap in Hin as (? & [= -> ->] & _). destruct (Hans n) as [o Ho]. congruence.
Qed.
End theorems.

(** *** A node with one audit record to move *)

#[local] Existing Instances SecretTheorems.two_names SecretTheorems.two_names_ok Glass.secret
  StreamTheorems.first_bytes StreamTheorems.first_bytes_ok Plain.codec Plain.codec_ok.
#[local] Instance ledger_sealing : Sealing Ledger.Ledger := λ _ purpose, Ok purpose.

Definition example_id (_ : u128) : string := "one".
Definition example_secret (_ : SecretError) : string := "refused".

Definition example_runtime : records :=
  record_change (record_change ∅ (AUDIT, be (wrap 0 : u64), Some (to_bytes (Examples.audit 30))))
    (SEQUENCE, NEXT, Some (be (wrap 1 : u64))).
Definition example_node : Embedded (R := Ledger.Ledger) (A := Ledger.Ledger) :=
  Node {| Ledger.recs := example_runtime; Ledger.idx := ∅ |} {| Ledger.recs := ∅; Ledger.idx := ∅ |}
    {| Ledger.recs := ∅; Ledger.idx := ∅ |} (wrap 1) (wrap 3) (i128_clamp 60) (λ _, 0%nat).
Definition example_kept : Embedded (R := Ledger.Ledger) (A := Ledger.Ledger) * result u32 :=
  keep id example_id example_secret example_node (wrap 10) 2.

Lemma example_entry_fits : fits (Examples.audit 30).
Proof. by vm_compute. Qed.

Lemma example_fits : entries_fit example_runtime.
Proof.
  split; intros key b; unfold example_runtime; rewrite !record_changed_at, lookup_empty;
    repeat case_decide; try done.
  intros [= <-]. exists (Examples.audit 30). split; [exact example_entry_fits|done].
Qed.

Lemma example_audited : Commit.audited example_runtime (wrap 1) (wrap 0).
Proof.
  split; [reflexivity|by apply (bool_decide_unpack _); vm_compute|].
  intros key. unfold example_runtime. rewrite !record_changed_at, lookup_empty.
  rewrite decide_False by by intros [=]. case_decide as Hd.
  - apply pair_equal_spec in Hd as [_ ->]. split; [|by eexists]. intros _. exists (wrap 0).
    split; [done|]. by apply (bool_decide_unpack _); vm_compute.
  - split; [by intros []|]. intros (n & -> & Hn). destruct Hd. f_equal. f_equal. apply uint_eq.
    change (uval (wrap 0 : u64)) with 0%N in *. change (uval (wrap 1 : u64)) with 1%N in *. lia.
Qed.

Lemma nothing_chained : chained ∅ (λ _, []).
Proof.
  split; [|by intros key b; rewrite lookup_empty]. intros writer.
  split; [done|constructor|constructor|constructor|apply lookup_empty].
Qed.


Lemma kept_before_forgotten_witness :
  ∃ Q' J' (kept' : u64), rs_repr (runtime example_kept.1) Q' J' ∧ Commit.audited Q' (wrap 1) kept' ∧
    uval kept' = 1%N.
Proof.
  assert (uval <$> example_kept.2 = Ok 1%N) as Ho by by vm_compute.
  destruct (kept_before_forgotten id example_id example_secret example_node example_kept.1 example_runtime ∅ ∅ ∅
    (λ _, []) (wrap 1) (wrap 0) (wrap 10) 2 example_kept.2)
    as (Q' & J' & R' & I' & kept' & HQ & _ & HA & _ & _ & _ & Hc).
  - exact (conj eq_refl eq_refl).
  - exact example_fits.
  - exact example_audited.
  - reflexivity.
  - exact (conj eq_refl eq_refl).
  - exact nothing_chained.
  - apply surjective_pairing.
  - exists Q', J', kept'. split; [exact HQ|]. split; [exact HA|].
    destruct example_kept.2 as [count|err]; [|discriminate Ho]. cbn in Ho. injection Ho as Ho.
    destruct (Hc count eq_refl) as [_ ->]. rewrite Ho. reflexivity.
Defined.

Definition example_once : Embedded (R := Ledger.Ledger) (A := Ledger.Ledger) * result unit :=
  keep_entry example_id example_node (Examples.audit 30) 2.
Definition example_reads : list (option nat) := [None; Some 1%nat; Some 0%nat; Some 3%nat].

Lemma kept_body_reads_back_witness :
  example_once.2 = Ok tt ∧ ∃ reader got v, audit_body example_once.1 (wrap 30) = Ok (Some reader) ∧
    reads ((λ how, (example_once.1, how)) <$> example_reads) reader = Some (got, v) ∧
    got `prefix_of` body_bytes (Examples.audit 30).
Proof.
  assert (example_once.2 = Ok tt) as Ho by by vm_compute. split; [exact Ho|].
  destruct (audit_body example_once.1 (wrap 30)) as [r|err] eqn:Er.
  2: { assert (is_ok (audit_body example_once.1 (wrap 30)) = true) as Hr by by vm_compute.
       rewrite Er in Hr. discriminate Hr. }
  destruct (kept_body_reads_back id example_id example_node example_once.1 example_runtime ∅ ∅ ∅
    (λ _, []) (Examples.audit 30) 2 example_reads r) as (reader & got & v & -> & Hreads & Hp & _).
  - exact (conj eq_refl eq_refl).
  - exact example_fits.
  - exact (conj eq_refl eq_refl).
  - exact nothing_chained.
  - exact example_entry_fits.
  - apply lookup_empty.
  - intros n. apply lookup_empty.
  - by vm_compute.
  - rewrite <- Ho. apply surjective_pairing.
  - exact Er.
  - exists reader, got, v. split; [reflexivity|]. split; [exact Hreads|exact Hp].
Defined.
End KeeperTheorems.
