(* ===== verification/Remote.v ===== *)
(** * A node's Xmip Storage is the Storage node's

    [Client] over the wire to [Server] over a storage, composed. [Line] is a
    network that may lose any frame - a connection refused, a request lost on
    its way, an answer lost on its way back - before a storage that serves
    each connection. Whatever it loses, an operation a client is answered was
    answered by the storage, which performed it then and, before that,
    whatever times its answer was lost; and nothing but that operation. *)

From S2P Require Import Prelude Word Engine Encrypted Store Codec Facts Records Batch Queue Hold.
From S2P Require Import Failed Origin Dead Claim Schema Instance Publication Secrets Row Columns.
From S2P Require Import Page Due Query Copies Shipped Wire Storage Server Client.
From S2P Require Import Stream Commit Embedded.
Import Request Answer.

(** ** What an operation is on the wire *)

Section wire.
Context {X : XSecrets}.

(** The request of an operation. *)
Definition request_of {A} (op : Operation A) : Request :=
  match op with
  | OWriteChunk chunk => WriteChunk chunk
  | OReadChunk stream index => ReadChunk stream index
  | OWriteStream last stream => WriteStream last stream
  | OReadStream stream => ReadStream stream
  | OWriteMessage message => WriteMessage message
  | OReadMessage message => ReadMessage message
  | OWriteJourney journey => WriteJourney journey
  | OReadJourney journey => ReadJourney journey
  | OPublish publication => Publish publication
  | OReadHeld queue from most => ReadHeld queue from most
  | OReadFailed queue from most => ReadFailed queue from most
  | OReadDue queue part from most => ReadDue queue part from most
  | OReadDead queue from most => ReadDead queue from most
  | OReadDeadMessage queue message => ReadDeadMessage queue message
  | OReplay r => AskReplay r
  | OClaim journey holder token lease =>
      Request.claim {| c_journey := journey; c_holder := holder; c_token := token;
                       c_until_unix_nanos := i128_clamp 0; c_fence := wrap 0 |} lease
  | ORenew claims lease => Request.renew claims lease
  | ORelease c => Release c
  | OHandOn h => AskHandOn h
  | OTurn t => AskTurn t
  | OReadInstance instance => ReadInstance instance
  | OReadInstanceKey correlation => ReadInstanceKey correlation
  | OWriteAudit entry => WriteAudit entry
  | OKeepAudit most chunk => KeepAudit most chunk
  | OReadKeptAudit id => ReadKeptAudit id
  | OReadKeptAuditStream id stream => ReadKeptAuditStream id stream
  | OReadKeptAuditChunk id stream index => ReadKeptAuditChunk id stream index
  | OWriteAdministration record => WriteAdministration record
  | OReadAdministration kind id => ReadAdministration kind id
  | ORemoveAdministration kind id => RemoveAdministration kind id
  | OWriteSecret secret => WriteSecret secret
  | OReadSecret name => ReadSecret name
  | OListSecrets => ListSecrets
  | OQuery q => AskQuery q
  end.

(** How what it came to is answered, and taken from its answer. *)
Definition answer_of {A} (op : Operation A) : A → Answer :=
  match op with
  | OWriteChunk _ | OWriteStream _ _ | OWriteMessage _ | OWriteJourney _ | OWriteAudit _
  | OWriteAdministration _ | ORemoveAdministration _ _ | OWriteSecret _ => done
  | OReadChunk _ _ => AChunk
  | OReadStream _ | OReadKeptAuditStream _ _ => AStream
  | OReadMessage _ => AMessage
  | OReadJourney _ => AJourney
  | OPublish _ | ORenew _ _ => AClaims
  | OReadHeld _ _ _ => AHeld
  | OReadFailed _ _ _ => AFailedQueue
  | OReadDue _ _ _ _ => ADueQueue
  | OReadDead _ _ _ => ADeadQueue
  | OReadDeadMessage _ _ => ADead
  | OReplay _ => AReplayed
  | OClaim _ _ _ _ => AClaim
  | ORelease _ | OHandOn _ | OTurn _ => Yes
  | OReadInstance _ => AInstance
  | OReadInstanceKey _ => Records ∘ collected
  | OKeepAudit _ _ => ACount
  | OReadKeptAudit _ => AAudit
  | OReadKeptAuditChunk _ _ _ => ABytes
  | OReadAdministration _ _ => AAdministration
  | OReadSecret _ => ASecret
  | OListSecrets => ASecrets
  | OQuery _ => Records
  end.
Definition taken {A} (op : Operation A) : Answer → option A :=
  match op with
  | OWriteChunk _ | OWriteStream _ _ | OWriteMessage _ | OWriteJourney _ | OWriteAudit _
  | OWriteAdministration _ | ORemoveAdministration _ _ | OWriteSecret _ => take_done
  | OReadChunk _ _ => λ a, match a with AChunk chunk => Some chunk | _ => None end
  | OReadStream _ | OReadKeptAuditStream _ _ =>
      λ a, match a with AStream stream => Some stream | _ => None end
  | OReadMessage _ => λ a, match a with AMessage record => Some record | _ => None end
  | OReadJourney _ => λ a, match a with AJourney record => Some record | _ => None end
  | OPublish _ | ORenew _ _ => take_held
  | OReadHeld _ _ _ => λ a, match a with AHeld queue => Some queue | _ => None end
  | OReadFailed _ _ _ => λ a, match a with AFailedQueue queue => Some queue | _ => None end
  | OReadDue _ _ _ _ => λ a, match a with ADueQueue queue => Some queue | _ => None end
  | OReadDead _ _ _ => λ a, match a with ADeadQueue queue => Some queue | _ => None end
  | OReadDeadMessage _ _ => λ a, match a with ADead dead => Some dead | _ => None end
  | OReplay _ => λ a, match a with AReplayed replayed => Some replayed | _ => None end
  | OClaim _ _ _ _ => take_claimed
  | ORelease _ | OHandOn _ | OTurn _ => take_yes
  | OReadInstance _ => λ a, match a with AInstance record => Some record | _ => None end
  | OReadInstanceKey _ => λ a, match a with Records found => Some (head found) | _ => None end
  | OKeepAudit _ _ => λ a, match a with ACount count => Some count | _ => None end
  | OReadKeptAudit _ => λ a, match a with AAudit entry => Some entry | _ => None end
  | OReadKeptAuditChunk _ _ _ => λ a, match a with ABytes value => Some value | _ => None end
  | OReadAdministration _ _ => λ a, match a with AAdministration record => Some record | _ => None end
  | OReadSecret _ => λ a, match a with ASecret record => Some record | _ => None end
  | OListSecrets => λ a, match a with ASecrets entries => Some entries | _ => None end
  | OQuery _ => λ a, match a with Records records => Some records | _ => None end
  end.

(** Whether an answer says an operation was refused or failed, or that its
    Storage node is a standby. *)
Definition is_failure (a : Answer) : bool :=
  match a with ARefused _ _ | AFailed _ | AStandby _ => true | _ => false end.

(** What is answered of it is what it came to. *)
Lemma taken_answer_of {A} (op : Operation A) a :
  is_failure (answer_of op a) = false ∧ taken op (answer_of op a) = Some a.
Proof. destruct op; split; cbn; try done; by destruct a. Qed.
End wire.

(** ** A network that loses what it will *)

(** What becomes of one frame, or of one connection asked for. *)
Inductive Chance : Set := Arrives | LostAsked | LostAnswer.

(** A storage that serves every connection, as one node of several that says
    it is [stands_as], and what becomes of what is sent next; once that runs
    out everything arrives. *)
Record Line (S : Type) : Type := LineTo {
  behind : S; stands_as : Standing; chances : list Chance; clock : N
}.
Arguments LineTo {S} _ _ _ _.
Arguments behind {S} _.
Arguments stands_as {S} _.
Arguments chances {S} _.
Arguments clock {S} _.

Section line.
Context {X : XSecrets} {XO : XSecretsOk X} {C : Codec} {CO : CodecOk C}.
Context {S : Type} {XS : XmipStorage S} {AD : Admission} {AO : AdmissionOk AD}.
Context (secret_error : SecretError → string) (debug : Answer → string).

Definition next_chance (l : Line S) : Chance := default Arrives (head (chances l)).
Definition later (l : Line S) (s : S) : Line S :=
  LineTo s (stands_as l) (tail (chances l)) (clock l + 1).

(** What the server at the other end makes of a frame. *)
Definition served (l : Line S) (frame : bytes) : S * list bytes :=
  serve secret_error None NODE (Some (stands_as l)) (behind l) [frame].

#[local] Instance line_network : Network (Line S) := {
  connection := unit;
  instant l := (LineTo (behind l) (stands_as l) (chances l) (clock l + 1), clock l);
  connect l _ :=
    (later l (behind l),
     match next_chance l with Arrives => inl tt | _ => inr "connection refused"%string end);
  carry l _ frame :=
    match next_chance l with
    | Arrives => let '(s, sent) := served l frame in (later l s, inl (head sent))
    | LostAsked => (later l (behind l), inr "connection reset"%string)
    | LostAnswer => (later l (served l frame).1, inr "timed out"%string)
    end;
}.

Abbreviation R := (Remote (W := Line S)).

Lemma read_or_write (r : Request) : (operation r).1 = "read"%string ∨ (operation r).1 = "write"%string.
Proof. destruct r; (left; reflexivity) || (right; reflexivity). Qed.

(** The rules that ask a node's standing of every operation. *)
Lemma rule_of_every does_ : does_ = "read"%string ∨ does_ = "write"%string →
  {| does := does_; operation_ := "*"; at_least := NODE |} ∈ RULES.
Proof. intros [-> | ->]; unfold RULES; rewrite !elem_of_cons; tauto. Qed.

(** Every node is admitted to every operation. *)
Lemma node_admitted r : admits None NODE (operation r) RULES = None.
Proof.
  apply admits_above.
  - eexists. split; [apply (rule_of_every (operation r).1), read_or_write|]. split; [done|by right].
  - intros rule Hin _. unfold RULES in Hin. rewrite !elem_of_cons in Hin.
    destruct Hin as [-> | [-> | [-> | [-> | [-> | Hin]]]]]; try done. by apply elem_of_nil in Hin.
Qed.

(** What a request that is the storage's to answer comes to. *)
Definition own_to_answer (r : Request) : bool :=
  match r with AskStanding | AskFollow _ => false | _ => true end.

Lemma request_served s st request : own_to_answer request = true →
  serve_request secret_error None NODE (Some st) s request =
    ((answer secret_error s request).1, GoesOn (answer secret_error s request).2).
Proof.
  intros Hown. unfold serve_request. rewrite node_admitted.
  rewrite (surjective_pairing (answer secret_error s request)) at 1.
  destruct request; try discriminate Hown; reflexivity.
Qed.

Lemma served_request l request : own_to_answer request = true → fits request →
  served l (sent request) =
    ((answer secret_error (behind l) request).1, [sent (answer secret_error (behind l) request).2]).
Proof.
  intros Hown Hf. unfold served. cbn [serve]. unfold received, sent.
  rewrite from_to_bytes by done. by rewrite request_served.
Qed.

Lemma served_standing l :
  served l (sent AskStanding) = (behind l, [sent (AStanding (stands_as l))]).
Proof.
  unfold served. cbn [serve]. unfold received, sent. rewrite from_to_bytes by done.
  unfold serve_request. by rewrite node_admitted.
Qed.

(** ** One operation asked *)

(** A lease crosses in 64 bits of nanoseconds. *)
Definition lease_ok {A} (op : Operation A) : Prop :=
  match op with OClaim _ _ _ lease | ORenew _ lease => (lease < bound 8)%N | _ => True end.

Lemma own_request {A} (op : Operation A) : own_to_answer (request_of op) = true.
Proof. by destruct op. Qed.

(** What a server answers to an operation's request is what it comes to. *)
Lemma answer_performs {A} (op : Operation A) s : lease_ok op →
  answer secret_error s (request_of op) = answered secret_error (answer_of op) (perform op s).
Proof.
  intros Hl. destruct op; try reflexivity; cbn in Hl;
    cbn [request_of Request.claim Request.renew answer c_journey c_holder c_token perform answer_of];
    unfold Request.nanos; rewrite uval_clamp, N.min_l by lia; reflexivity.
Qed.

Section one_operation.
Context {A : Type} (op : Operation A).

(** The storage after the operation, and after it so many times over. *)
Definition exec (s : S) : S := (perform op s).1.
Definition times (n : nat) (s : S) : S := Nat.iter n exec s.

Definition answered_by (s : S) : Answer := (answered secret_error (answer_of op) (perform op s)).2.

(** What crosses the wire can be read back, of the request and of any answer
    to it. *)
Definition crosses (s : S) : Prop :=
  lease_ok op ∧ fits (request_of op) ∧ ∀ n, fits (answered_by (times n s)).

Lemma times_S n s : times n (exec s) = times (Datatypes.S n) s.
Proof. unfold times. by rewrite Nat.iter_succ_r. Qed.

Lemma crosses_times s n : crosses s → crosses (times n s).
Proof.
  intros (Hl & Hq & Ha). split_and!; [done..|]. intros m. unfold times.
  rewrite <- Nat.iter_add. apply Ha.
Qed.

(** What a client comes to, of what its storage stood at: the operation
    performed [k] times, and nothing of who its nodes are changed. *)
Record ran (k : nat) (r r' : R) : Prop := {
  ran_behind : behind (net r') = times k (behind (net r));
  ran_stands : stands_as (net r') = stands_as (net r);
  ran_nodes : length (nodes (client r')) = length (nodes (client r));
  ran_pinned : pinned (client r') = pinned (client r);
}.

Lemma ran_refl r : ran 0 r r.
Proof. by split. Qed.
Lemma ran_trans k k' r r' r'' : ran k r r' → ran k' r' r'' → ran (k' + k) r r''.
Proof.
  intros [] []. split; [|congruence..]. unfold times in *.
  rewrite Nat.iter_add. congruence.
Qed.

(** A frame of the operation's exchanged. *)
Lemma exchange_op (w : Line S) c w' came :
  crosses (behind w) → exchange w c (request_of op) = (w', came) →
  ∃ k, behind w' = times k (behind w) ∧ k ≤ 1 ∧ stands_as w' = stands_as w ∧
    chances w' = tail (chances w) ∧
    (next_chance w = Arrives → is_Some (match came with inl a => Some a | inr _ => None end)) ∧
    match came with
    | inl a => k = 1 ∧ a = answered_by (behind w)
    | inr _ => True
    end.
Proof.
  intros (Hl & Hq & Ha). unfold exchange. cbn [carry line_network].
  rewrite served_request by (apply own_request || done). rewrite answer_performs by done.
  change (answered secret_error (answer_of op) (perform op (behind w))).1 with (exec (behind w)).
  change (answered secret_error (answer_of op) (perform op (behind w))).2 with (answered_by (behind w)).
  destruct (next_chance w); intros [= <- <-].
  - exists 1. cbn. unfold received, sent.
    rewrite from_to_bytes by exact (Ha 0). by split_and!.
  - exists 0. split_and!; try done. lia.
  - exists 1. by split_and!.
Qed.

(** What a Storage node says it is asked. *)
Lemma standing_op (r r' : R) c o :
  fits (stands_as (net r)) → standing debug r c = (r', o) →
  ran 0 r r' ∧ chances (net r') = tail (chances (net r)) ∧
  (next_chance (net r) = Arrives → sg_primary (stands_as (net r)) = true →
    (uval (client_epoch (client r)) ≤ uval (sg_epoch (stands_as (net r))))%N → o = None).
Proof.
  intros Hf. unfold standing, exchange. cbn [carry line_network]. rewrite served_standing. cbn [fst snd head].
  destruct (next_chance (net r)).
  - unfold received, sent. rewrite from_to_bytes by done.
    destruct (sg_primary (stands_as (net r))) eqn:Hp.
    + destruct (N.ltb_spec (uval (sg_epoch (stands_as (net r)))) (uval (client_epoch (client r))))
        as [Hlt|Hge]; cbn -[N.ltb]; [rewrite (proj2 (N.ltb_lt _ _) Hlt)|rewrite (proj2 (N.ltb_ge _ _) Hge)];
        intros [= <- <-]; (split; [by split|split; [done|]]); [lia|done].
    + intros [= <- <-]. split; [by split|]. done.
  - intros [= <- <-]. split; [by split|]. done.
  - intros [= <- <-]. split; [by split|]. done.
Qed.

(** What asking a node comes to: the operation performed [k] times, an
    answer being its last time's. *)
Definition asked_op (k : nat) (r r' : R) (asked : Answer + Asked) : Prop :=
  ran k r r' ∧
  match asked with
  | inl a => ∃ k', k = Datatypes.S k' ∧ a = answered_by (times k' (behind (net r))) ∧
      standby a = inl a
  | inr _ => True
  end.

(** Where nothing is lost, of a primary no epoch is met past. *)
Definition reachable (r : R) : Prop :=
  chances (net r) = [] ∧ sg_primary (stands_as (net r)) = true ∧
  (uval (client_epoch (client r)) ≤ uval (sg_epoch (stands_as (net r))))%N ∧
  ∀ reason, answered_by (behind (net r)) ≠ AStandby reason.

Definition answered_once (k : nat) (r : R) (asked : Answer + Asked) : Prop :=
  k = 1 ∧ asked = inl (answered_by (behind (net r))).

Lemma standby_other a : (∀ reason, a ≠ AStandby reason) → standby a = inl a.
Proof. destruct a; naive_solver. Qed.
Lemma standby_inl a b : standby a = inl b → b = a ∧ standby b = inl b.
Proof. destruct a; cbn; by intros [= <-]. Qed.

Lemma fits_crosses r r' k : ran k r r' → crosses (behind (net r)) → crosses (behind (net r')).
Proof. intros [-> _ _ _]. apply crosses_times. Qed.

Lemma ask_afresh_op (r r' : R) i n asked :
  crosses (behind (net r)) → fits (stands_as (net r)) →
  ask_afresh debug r i n (request_of op) = (r', asked) →
  ∃ k, k ≤ 1 ∧ asked_op k r r' asked ∧ (reachable r → answered_once k r asked).
Proof.
  intros Hc Hf. unfold ask_afresh. cbn [connect line_network].
  assert (ran 0 r (with_net r (later (net r) (behind (net r))))) as Hr0 by by split.
  destruct (next_chance (net r)) eqn:Hn.
  2,3: intros [= <- <-]; exists 0; split; [lia|]; split; [done|];
    intros (Hch & _); unfold next_chance in Hn; by rewrite Hch in Hn.
  destruct (standing debug (with_net r (later (net r) (behind (net r)))) tt) as [r1 o] eqn:Hst.
  apply standing_op in Hst as (Hr1 & Hch1 & Ho); [|done].
  pose proof (ran_trans _ _ _ _ _ Hr0 Hr1) as Hr01. cbn [Nat.add] in Hr01.
  destruct o as [why|].
  { intros [= <- <-]. exists 0. split; [lia|]. split; [done|].
    intros (Hch & Hp & He & _). exfalso. unfold next_chance in Ho. cbn in Ho. rewrite Hch in Ho.
    by specialize (Ho eq_refl Hp He). }
  destruct (exchange (NW := line_network) (net r1) tt (request_of op)) as [w came] eqn:Hx.
  apply exchange_op in Hx as (k & Hb & Hk & Hs & Hch & Har & Hcame); [|by eapply fits_crosses].
  assert (behind (net r1) = behind (net r)) as Hb1 by apply (ran_behind _ _ _ Hr01).
  assert (ran k r1 (with_net r1 w)) as Hr2 by by split.
  pose proof (ran_trans _ _ _ _ _ Hr01 Hr2) as Hr3. rewrite Nat.add_0_r in Hr3.
  assert (reachable r → next_chance (net r1) = Arrives) as Hre.
  { intros (Hc0 & _). unfold next_chance. rewrite Hch1. cbn. by rewrite Hc0. }
  destruct came as [a|why]; intros [= <- <-]; exists k; (split; [done|]).
  - destruct Hcame as [-> ->]. rewrite Hb1. split.
    + split.
      * destruct Hr3 as [E1 E2 E3 E4]. split; [exact E1|exact E2| |exact E4].
        cbn in *. by rewrite length_alter.
      * destruct (standby (answered_by (behind (net r)))) as [b|] eqn:Hb'; [|done].
        apply standby_inl in Hb' as [-> Hb']. exists 0. done.
    + intros (_ & _ & _ & Hns). split; [done|]. by apply standby_other.
  - split; [done|]. intros Hall. specialize (Har (Hre Hall)). by destruct Har.
Qed.

Lemma ask_node_op (r r' : R) i n asked :
  crosses (behind (net r)) → fits (stands_as (net r)) →
  ask_node debug r i n (request_of op) = (r', asked) →
  ∃ k, k ≤ 2 ∧ asked_op k r r' asked ∧ (reachable r → answered_once k r asked).
Proof.
  intros Hc Hf. unfold ask_node. destruct (cn_idle n) as [|c idle].
  { intros Hx. apply ask_afresh_op in Hx as (k & Hk & Hx & Hre); [|done..]. exists k.
    split; [lia|done]. }
  set (r0 := with_nodes r _).
  assert (ran 0 r r0) as Hr0 by (split; [done..| |done]; subst r0; cbn; by rewrite length_alter).
  destruct (exchange (net r0) c (request_of op)) as [w came] eqn:Hx.
  apply exchange_op in Hx as (k & Hb & Hk & Hs & Hch & Har & Hcame); [|done].
  assert (ran k r0 (with_net r0 w)) as Hr2 by by split.
  pose proof (ran_trans _ _ _ _ _ Hr0 Hr2) as Hr3. rewrite Nat.add_0_r in Hr3.
  destruct came as [a|why].
  - intros [= <- <-]. destruct Hcame as [-> ->]. exists 1. split; [lia|].
    change (behind (net r0)) with (behind (net r)). split; [split|].
    + destruct Hr3 as [E1 E2 E3 E4]. split; [exact E1|exact E2| |exact E4].
      cbn in *. by rewrite length_alter.
    + destruct (standby (answered_by (behind (net r)))) as [b|] eqn:Hb'; [|done].
      apply standby_inl in Hb' as [-> Hb']. exists 0. done.
    + intros (_ & _ & _ & Hns). split; [done|]. by apply standby_other.
  - intros Hx. apply ask_afresh_op in Hx as (k' & Hk' & [Hx Ha] & Hre).
    2:{ by eapply fits_crosses. } 2:{ by destruct Hr3 as [_ -> _ _]. }
    exists (k' + k). split; [lia|]. split; [split|].
    + by eapply ran_trans.
    + destruct asked as [a|]; [|done]. destruct Ha as (k'' & -> & -> & Hst).
      exists (k'' + k). split; [done|]. split; [|done].
      destruct Hr3 as [-> _ _ _]. unfold times. by rewrite Nat.iter_add.
    + intros (Hc0 & _). specialize (Har ltac:(unfold next_chance; cbn; by rewrite Hc0)). by destruct Har.
Qed.

Lemma node_answered_ran (r : R) i asked : ran 0 r (node_answered r i asked).
Proof. destruct asked; split; try done; cbn; by rewrite length_alter. Qed.

Lemma ask_at_op (r r' : R) i asked :
  crosses (behind (net r)) → fits (stands_as (net r)) →
  ask_at debug r i (request_of op) = Some (r', asked) →
  ∃ k, k ≤ 2 ∧ asked_op k r r' asked ∧ (reachable r → answered_once k r asked).
Proof.
  intros Hc Hf. unfold ask_at. destruct (nodes (client r) !! i) as [n|]; [|done].
  destruct (ask_node debug r i n (request_of op)) as [r1 o] eqn:Hx. intros [= <- <-].
  apply ask_node_op in Hx as (k & Hk & [Hx Ha] & Hre); [|done..].
  exists k. split; [done|]. split; [|done]. split; [|done].
  exact (ran_trans _ _ _ _ _ Hx (node_answered_ran r1 i o)).
Qed.

(** What a request comes to: an answer of the operation performed then, or
    that no node answered. *)
Definition came_to (k : nat) (r r' : R) (o : result Answer) : Prop :=
  ran k r r' ∧
  match o with
  | Ok a => ∃ k', k = Datatypes.S k' ∧ a = answered_by (times k' (behind (net r))) ∧
      standby a = inl a
  | Err e => ∃ why, e = Unreachable why
  end.

Lemma ask_each_op order : ∀ (r r' : R) failures o,
  crosses (behind (net r)) → fits (stands_as (net r)) →
  ask_each debug r order (request_of op) failures = (r', o) →
  ∃ k, k ≤ 2 * length order ∧ came_to k r r' o ∧
    (reachable r → Forall (λ i, i < length (nodes (client r))) order → order ≠ [] →
     k = 1 ∧ o = Ok (answered_by (behind (net r)))).
Proof.
  induction order as [|i order IH]; intros r r' failures o Hc Hf; cbn [ask_each].
  { intros [= <- <-]. exists 0. split; [lia|]. split; [split; [done|by eexists]|done]. }
  destruct (ask_at debug r i (request_of op)) as [[r1 asked]|] eqn:Hx.
  - apply ask_at_op in Hx as (k & Hk & [Hx Ha] & Hre); [|done..]. destruct asked as [a|why].
    + intros [= <- <-]. exists k. split; [cbn; lia|]. split; [done|].
      intros Hr _ _. destruct (Hre Hr) as [-> [= ->]]. done.
    + intros Hy. apply IH in Hy as (k' & Hk' & [Hy Ho] & _).
      2:{ by eapply fits_crosses. } 2:{ by destruct Hx as [_ -> _ _]. }
      exists (k' + k). split; [cbn; lia|]. split; [split|].
      * by eapply ran_trans.
      * destruct o as [a|]; [|done]. destruct Ho as (k'' & -> & -> & Hst).
        exists (k'' + k). split; [done|]. split; [|done].
        destruct Hx as [-> _ _ _]. unfold times. by rewrite Nat.iter_add.
      * intros Hr _ _. by destruct (Hre Hr) as [_ [=]].
  - intros Hy. apply IH in Hy as (k & Hk & Hy & Hre); [|done..]. exists k. split; [cbn; lia|].
    split; [done|]. intros Hr Hall _. apply Forall_cons in Hall as [Hi Hall].
    exfalso. unfold ask_at in Hx. destruct (lookup_lt_is_Some_2 _ _ Hi) as [n Hn].
    rewrite Hn in Hx. by destruct (ask_node _ _ _ _ _).
Qed.

Lemma turn_ran (r r' : R) order : turn r = (r', order) →
  ran 0 r r' ∧ (reachable r → reachable r') ∧ length order = length (nodes (client r)) ∧
  Forall (λ i, i < length (nodes (client r))) order.
Proof.
  unfold turn. cbn [instant line_network]. intros [= <- <-].
  assert (∀ f : nat → nat, (∀ i, f i ≤ 2) →
    by_rank f (round (next_node (client r)) (length (nodes (client r)))) ≡ₚ
    round (next_node (client r)) (length (nodes (client r)))) as Hp
    by (intros; by apply by_rank_Permutation).
  split; [by split|]. split; [done|].
  assert (∀ i, rank_at (client r) (clock (net r)) i ≤ 2) as Hrank.
  { intros i. unfold rank_at, rank. destruct (_ !! i) as [n|]; [|lia].
    destruct (passed_over n _), (cn_standby n); lia. }
  specialize (Hp _ Hrank). split; [by rewrite Hp, length_round|].
  rewrite Hp. destruct (decide (length (nodes (client r)) = 0)) as [E|?]; [by rewrite E|].
  by apply round_lt.
Qed.

(** A pinned client's Storage node is one it lists. *)
Definition pinned_listed (r : R) : Prop :=
  match pinned (client r) with
  | Some i => i < length (nodes (client r))
  | None => nodes (client r) ≠ []
  end.

Lemma ask_op (r r' : R) o :
  crosses (behind (net r)) → fits (stands_as (net r)) →
  ask debug r (request_of op) = (r', o) →
  ∃ k, k ≤ 2 * Nat.max 1 (length (nodes (client r))) ∧ came_to k r r' o ∧
    (reachable r → pinned_listed r → k = 1 ∧ o = Ok (answered_by (behind (net r)))).
Proof.
  intros Hc Hf. unfold ask, pinned_listed. destruct (pinned (client r)) as [i|].
  - destruct (ask_at debug r i (request_of op)) as [[r1 asked]|] eqn:Hx.
    + apply ask_at_op in Hx as (k & Hk & [Hx Ha] & Hre); [|done..].
      destruct asked as [a|why]; intros [= <- <-]; exists k; (split; [lia|]); split.
      * by split.
      * intros Hr _. by destruct (Hre Hr) as [-> [= ->]].
      * split; [done|]. by eexists.
      * intros Hr _. by destruct (Hre Hr) as [_ [=]].
    + intros [= <- <-]. exists 0. split; [lia|]. split; [split; [done|by eexists]|].
      intros _ Hi. unfold ask_at in Hx. destruct (lookup_lt_is_Some_2 _ _ Hi) as [n Hn].
      rewrite Hn in Hx. by destruct (ask_node _ _ _ _ _).
  - destruct (turn r) as [r1 order] eqn:Ht. apply turn_ran in Ht as (Hr1 & Hre & Hlen & Hall).
    intros Hx. pose proof Hr1 as [Eb Es En _]. cbn in Eb.
    apply ask_each_op in Hx as (k & Hk & [Hx Ha] & Hr2).
    2:{ by rewrite Eb. } 2:{ by rewrite Es. }
    exists k. split; [lia|]. split; [split|].
    + pose proof (ran_trans _ _ _ _ _ Hr1 Hx) as Hr3. by rewrite Nat.add_0_r in Hr3.
    + by rewrite Eb in Ha.
    + intros Hr Hne. destruct (Hr2 (Hre Hr)) as [-> ->]; [by rewrite En| |by rewrite Eb].
      intros ->. destruct (nodes (client r)); done.
Qed.

(** What an operation came to, as the wire carries it: a refusal as it is,
    and any other failure in its words. *)
Definition over_wire (o : result A) : result A :=
  match o with
  | Ok a => Ok a
  | Err (Refused scope reason) => Err (Refused scope reason)
  | Err e => Err (Failed_ (display secret_error e))
  end.

Lemma expected_answer s : standby (answered_by s) = inl (answered_by s) →
  expected debug (taken op) (answered_by s) = over_wire (perform op s).2.
Proof.
  unfold answered_by, answered. destruct (perform op s) as [s' [a|e]]; cbn [fst snd].
  - destruct (taken_answer_of op a) as [Hn Ht]. cbn [over_wire]. unfold expected.
    destruct (answer_of op a); try discriminate Hn; by rewrite Ht.
  - by destruct e.
Qed.
End one_operation.

Lemma perform_asks {A} (op : Operation A) (r : R) :
  perform (XS := client_storage debug) op r = asks debug r (request_of op) (taken op).
Proof.
  destruct op; try reflexivity. cbn [perform publish client_storage wait_durable].
  unfold client_publish, and_then, answering. cbn [request_of taken].
  by destruct (asks debug r (Publish publication) take_held) as [r' [held|e]].
Qed.
End line.

Module RemoteTheorems.
Section theorems.
Context {X : XSecrets} {XO : XSecretsOk X} {C : Codec} {CO : CodecOk C}.
Context {S : Type} {XS : XmipStorage S} {AD : Admission} {AO : AdmissionOk AD}.
Context (secret_error : SecretError → string) (debug : Answer → string).
#[local] Existing Instance line_network.

(** C27. A node's Xmip Storage is the Storage node's. Whatever a network
    loses - connections refused, requests lost on their way, answers on their
    way back - an operation performed through a client leaves the storage as
    the operation performed some number of times leaves it, no more than two
    for each Storage node listed. Where the client
    answers anything but that no node could be reached, the storage performed
    it the last of those times and that is what it came to: what the
    operation answers, a refusal as it is, another failure in its words. And
    where nothing is lost and the node asked is a primary, it is performed
    once and answered. What is sent is taken to fit what the wire counts, and
    a lease its 64 bits. *)
Theorem remote_performs_the_operation {A} (op : Operation A)
    (r r' : Remote (NW := line_network secret_error)) out :
  crosses secret_error op (behind (net r)) → fits (stands_as (net r)) →
  perform (XS := client_storage debug (NW := line_network secret_error)) op r = (r', out) →
  ∃ k, k ≤ 2 * Nat.max 1 (length (nodes (client r))) ∧
    behind (net r') = times op k (behind (net r)) ∧
    ((∃ why, out = Err (Unreachable why)) ∨
     ∃ k', k = Datatypes.S k' ∧
       out = over_wire secret_error (perform op (times op k' (behind (net r)))).2) ∧
    (reachable secret_error op r → pinned_listed secret_error r →
      k = 1 ∧ out = over_wire secret_error (perform op (behind (net r))).2).
Proof.
  intros Hc Hf Hp. rewrite perform_asks in Hp. unfold asks in Hp.
  destruct (ask debug r (request_of op)) as [r1 o] eqn:Ho.
  apply (ask_op secret_error debug op) in Ho as (k & Hk & [Hr Ha] & Hre); [|done..].
  exists k. split; [done|]. destruct o as [a|e]; injection Hp as <- <-; (split; [apply Hr|]); split.
  - right. destruct Ha as (k' & -> & -> & Hs). exists k'. split; [done|]. by apply expected_answer.
  - intros Hall Hl. destruct (Hre Hall Hl) as [-> [= ->]]. split; [done|].
    destruct Hall as (_ & _ & _ & Hns). apply expected_answer. by apply standby_other.
  - left. destruct Ha as [why ->]. by eexists.
  - intros Hall Hl. by destruct (Hre Hall Hl) as [_ [=]].
Qed.
End theorems.

(** *** An embedded node over two lossy lines *)

(** Who stands at or above what some rule asks, is admitted. *)
#[local] Instance by_the_rules : Admission := λ _ standing asked rules,
  if existsb (λ r, bool_decide (does r = asked.1) &&
                   (bool_decide (operation_ r = asked.2) || bool_decide (operation_ r = "*"%string)) &&
                   (at_least r <=? standing)%N) rules
  then None else Some "not admitted"%string.

#[local] Instance by_the_rules_ok : AdmissionOk by_the_rules.
Proof.
  split; unfold admits, by_the_rules; intros who standing asked rules.
  - intros Hb. destruct (existsb _ rules) eqn:E; [|done].
    apply existsb_exists in E as (r & Hin & Hr). rewrite !andb_true_iff, !bool_decide_eq_true in Hr.
    destruct Hr as [[Hd _] Hs%N.leb_le]. apply list_elem_of_In in Hin. specialize (Hb r Hin Hd). lia.
  - intros (r & Hin & Hd & Hop) Hs. rewrite (proj2 (existsb_exists _ _)); [done|].
    exists r. split; [by apply list_elem_of_In|]. rewrite !andb_true_iff, orb_true_iff, !bool_decide_eq_true.
    split; [done|]. apply N.leb_le. by apply Hs.
Qed.

#[local] Existing Instances SecretTheorems.two_names SecretTheorems.two_names_ok Glass.secret
  StreamTheorems.first_bytes Plain.codec Plain.codec_ok.
#[local] Instance ledger_sealing : Sealing Ledger.Ledger := λ _ purpose, Ok purpose.

Definition example_id (_ : u128) : string := "one".
Definition example_secret (_ : SecretError) : string := "refused".
Definition example_debug (_ : Answer) : string := "an answer".

#[local] Instance example_storage : XmipStorage (Embedded (R := Ledger.Ledger) (A := Ledger.Ledger)) :=
  embedded_storage id example_id example_secret.

Definition example_chunk : StreamChunk :=
  {| ck_stream := wrap 7; ck_index := wrap 0; ck_bytes := [x01; x02] |}.
Definition example_ledger : Ledger.Ledger :=
  {| Ledger.recs := {[ (CHUNK, chunk_key (wrap 7) (wrap 0)) := to_bytes example_chunk ]};
     Ledger.idx := ∅ |}.
Definition example_node : Embedded (R := Ledger.Ledger) (A := Ledger.Ledger) :=
  Node example_ledger example_ledger example_ledger (wrap 0) (wrap 3) (i128_clamp 60) (λ _, 0).

(** Two Storage nodes before it; the first's answer is lost. *)
Definition example_remote : Remote (NW := line_network example_secret) :=
  {| client := {| nodes := (λ a, {| cn_address := a; cn_idle := []; cn_passed_over := None;
                                    cn_standby := false; cn_last := None |}) <$> ["one:1"; "two:2"]%string;
                  next_node := wrap 0; pass_over := 5; client_epoch := wrap 0; pinned := None |};
     net := LineTo example_node alone_standing [Arrives; Arrives; LostAnswer] 0 |}.

Definition example_op : Operation (option StreamChunk) := OReadChunk (wrap 7) (wrap 0).

Definition example_run : Remote (NW := line_network example_secret) * result (option StreamChunk) :=
  perform (XS := client_storage example_debug) example_op example_remote.

Lemma remote_performs_the_operation_witness :
  example_run.2 = Ok (Some example_chunk) ∧
  ∃ k, k ≤ 4 ∧ behind (net example_run.1) = times example_op k example_node.
Proof.
  assert (example_run.2 = Ok (Some example_chunk)) as Ho by (vm_compute; reflexivity).
  split; [exact Ho|].
  destruct (remote_performs_the_operation example_secret example_debug example_op
    example_remote example_run.1 example_run.2) as (k & Hk & Hb & _).
  - split_and!; [done|done|]. change (behind (net example_remote)) with example_node. intros n.
    assert (times example_op n example_node = example_node) as ->
      by (induction n as [|n IH]; [done|]; unfold times in *; by rewrite Nat.iter_succ, IH).
    vm_compute. reflexivity.
  - by vm_compute.
  - apply surjective_pairing.
  - exists k. by split.
Defined.
End RemoteTheorems.
